(* ===== verification/_CoqProject ===== *)
-Q . S2P
Prelude.v
Async.v
Duplex.v
RustStr.v
RustNet.v
Framing.v
IoAdapter.v
Registry.v
Admission.v
Key.v
ClientTls.v
Identity.v
Relay.v
RelayTasks.v
PublicPort.v
Retry.v
Pool.v
AcmeOrder.v
CertProvisioner.v
ClientErrors.v
ServerCert.v
AcmeAccount.v
RelayTls.v
RelayMain.v
RelaySystem.v
Ffi.v
ClientExchange.v
Session.v
QuicExchange.v
H2Exchange.v
Member.v
EndToEnd.v
TunnelClient.v
FfiBridge.v
Cli.v
