(* ===== verification/Prelude.v ===== *)
(** * quic-tunnel: a verification development

    quic-tunnel lets a client behind NAT serve a public HTTPS host. The client keeps
    control connections to relays, over QUIC or, as a fallback, over a pool of HTTP/2
    connections; a relay authenticates the client, registers the connection as an
    agent and forwards every public TLS connection whose SNI names the client down
    that connection, where the client terminates TLS and talks to a local service.
    The client's certificate comes from Let's Encrypt by TLS-ALPN-01: while an order
    is open the relay routes challenge connections to the client. The relay manages a
    certificate of its own in the same way.

    ** How the sources are modelled

    Pure functions are Rocq functions of the same name. An [async fn] is a [prog]
    (Async.v): a tree of the calls it makes outside itself, branching on every
    answer, so a theorem over [runs] or [reaches] holds for every behaviour of the
    peer, of other tasks and of the clock; [tokio::time::timeout] and [select!] are
    cancellation at the suspension points. Where several tasks share state the model is
    a transition system whose steps are the individual lock acquisitions, atomic
    operations and channel operations, so every interleaving at those points is covered.
    Where client and relay talk to each other, their two programs run concurrently on one
    connection, each blocking where it waits for the other (Duplex.v, Session.v).
    Times are [Z] nanoseconds, [u32], [u64] and [Duration] arithmetic saturates or wraps
    where the code does. Errors are values of [result] or [option]. Log output is left
    out. Code of other crates (cryptography, X.509, DER and PEM, TLS parsing, rcgen,
    rustls, h2's flow control, the ACME client) is a parameter, collected in type
    classes ([Crypto], [Yasna], [Rcgen], [CertGen], [TlsLibs], [Pem], [ServerLibs],
    [RustlsKeys], [ChallengeGen], [WebPki], [ServerHandshake], [Hex]), as are the I/O
    traits of the sources ([AsyncRead], [AsyncWrite]); the laws a theorem
    relies on are further classes ([CryptoOk], [YasnaOk], [RcgenOk], [CertGenOk],
    [ChallengeGenOk], [WebPkiOk], [ServerHandshakeOk], [ReadsInOrder], [WritesInOrder])
    with concrete instances ([ToyKey], [ToyTls], [ToyCrypto], [ToyPem], [ToyServer],
    [ToyRelay], [ToyMain], [ToyCli]) that the witnesses use.

    ** Files

    - Prelude.v: results, bytes, machine integers, durations, shared tactics and lemmas.
    - Async.v: programs over an environment, their reasoning rules, cancellation.
    - Duplex.v: two programs that send to each other. Where one schedule of the two ends with
      nothing left to do, every schedule ends there and none deadlocks.
    - RustStr.v: the parts of Rust's [str] the sources use, and UTF-8 validation.
    - RustNet.v: [std::net]'s parser for IP and socket addresses.
    - Framing.v (tunnel-common/src/lib.rs): [ctrl_read]/[ctrl_write], [collect_h2_body],
      [H2Send]/[H2Recv], the PING liveness loop. Theorems: round trip of control frames,
      refusal of over-long prefixes before allocation, in-order lossless H2 streams over
      the documented contract of h2's stream handles, and the exact time after which a
      dead peer is noticed.
    - IoAdapter.v (tunnel-common/src/lib.rs): [IO], the pair of a reader and a writer the
      tunnel streams are, against the interfaces of [AsyncRead] and [AsyncWrite], which
      [H2Recv] and [H2Send] implement. Theorem: the two ends of a tunnel stream form a
      full-duplex pipe.
    - Registry.v (tunnel-server/src/lib.rs, util.rs): [AgentPool], [register], the
      challenge map. Theorems: under any interleaving of connections the pools hold
      exactly the agents of live connections, in order; the challenge map routes to the
      latest waiting connection; requests rotate over the agents.
    - Admission.v (admission.rs): permits for unauthenticated connections and the
      throttled warning. Theorem: the bound holds and warnings are spaced.
    - Key.v (tunnel-client/src/key.rs): algorithm tables, in-process keys, the remote
      signing adapters. Theorem: a key signs as it announces.
    - ClientTls.v (client.rs): which relay is trusted: [server_name_from_addr], [ClientTls],
      [connect_quic], [connect_h2]. Theorem: a relay is authenticated against the CA roots
      under its configured host, unless that host is an IP address.
    - Identity.v (util.rs; [build_connection], [sign_recoverable] of client.rs): who a
      client is. Theorem: the relay recovers the client's own id from its proof.
    - Relay.v (quic.rs, h2_listener.rs): both connection handlers, whole. Theorems: at
      no point of any run is the permit returned, a challenge opened or an agent
      registered for an id that was not proven and authorized; both transports reach the
      same verdict; challenge entries are removed.
    - RelayTasks.v (h2_listener.rs, quic.rs): H2 driver, supervisor, accept loops.
      Theorems: permits are accounted for, window raises are bounded and only after
      authentication.
    - PublicPort.v (public.rs, alpn.rs): SNI sniffing and routing. Theorems: bytes go only
      to the tunnel the SNI names; a request reaches a live agent of its owner; a
      ClientHello is recognised however it is split.
    - Retry.v (client.rs): [ReconnectPolicy], [RetryState], [connection_run]. Theorems: the
      loop gives up exactly at its budget; waits double up to the cap.
    - Pool.v (client.rs): the H2 pool, [PoolLiveness] and its members, as a step relation.
      Theorems: counters exact, events alternate, no hang, truthful session outcome but for
      a rejection, which can end a session that was up as one that never was.
    - AcmeOrder.v (tunnel-common/src/acme.rs): [finalize_order]. Theorem: it ends within a
      fixed number of requests and time.
    - CertProvisioner.v (tunnel-client/src/acme.rs): [seed], [prepare], [finalize] with any
      number of concurrent callers, cancellation included. Theorems: callers of one order
      agree on it, nobody is stranded, one leader at a time while no stale entry is
      removed, and an execution with two leaders when one is.
    - ClientErrors.v (client.rs, ffi/mod.rs): error chains, their texts and the failures made
      of them. Theorem: an ACME rate limit is waited out without using up budget; a pool
      whose last failure is another one forgets it.
    - ServerCert.v (cert.rs): provisioning against a file system that may fail at any
      write, and [DiskCertResolver] with concurrent handshakes and renewals. Theorems: a
      new certificate on disk is complete and matches the key, an existing key stays (a
      key's first write can be cut, beside the old certificate); the resolver keeps
      serving, renews once at a time and spaces failed renewals, but for one recorded
      between a handshake's check and its start.
    - AcmeAccount.v (tunnel-client/src/acme.rs): [load_or_create_account], the same calls as
      the relay's, and the once-only cell around it with any number of callers, some of
      them dropped. Theorem: they share one account, and none is stranded.
    - RelayTls.v (tunnel-common/src/lib.rs, cert.rs, lib.rs): the challenge certificate, the
      certificate verifiers, the relay's TLS configuration and QUIC transport parameters.
      Theorems: the challenge certificate passes RFC 8737 validation for its order only; a
      peer of the relay holds the key of the certificate it is identified by.
    - RelayMain.v (relay/src/main.rs, lib.rs): the relay's arguments, [run] and [run_until],
      with the certificate and TLS steps composed, and their cancellation at any [await].
      Theorem: every exit cleans up, and whatever is started serves the configured
      certificate, address and policy with agents authenticated.
    - RelaySystem.v: the running relay as one transition system: both accept loops, any
      number of connection handlers, public connections and cleanup tasks over the shared
      maps and semaphores, interleaved call by call. Theorems: public bytes only reach a
      connection whose own handler holds the evidence for the id asked for; the maps are
      current; unauthenticated connections are bounded.
    - Ffi.v (tunnel-client-ffi/src/ffi/mod.rs): [run], [stop], the event queue and the
      terminal guard. Theorems: exactly what the foreign handler sees, under cancellation
      too, and the one event a cancellation can lose.
    - ClientExchange.v (client.rs): the client's half of the control exchange on both
      transports, as programs.
    - Session.v: the connection between that half and the relay's of Relay.v: what each side
      has sent, when a read, a request or a response blocks, and what else the two programs
      are answered.
    - QuicExchange.v, H2Exchange.v: the two halves on one connection, on each transport.
      Theorems: in every schedule the exchange completes, the client comes up and the relay
      registers it, for a client the relay's checks admit and a connection without loss or
      timeout; an order whose authorizations are still valid breaks it over QUIC and leaves
      it waiting over H2.
    - Member.v (client.rs): [H2Pooled::attempt], [pipe], [serve_alpn_challenge], [reap].
      Theorem: an attempt refines the member of Pool.v's step relation.
    - EndToEnd.v: such a session inside the running relay of RelaySystem.v, among all its
      other tasks. Theorem: on either transport and in every schedule the session completes,
      users of the client's domain are sent to it, and their streams to its target.
    - TunnelClient.v (client.rs): [TunnelClient::new], [run] and [stop]. Theorems: [run]
      reports every connection that ended, once and under its own name; a client that [new]
      accepts can present itself to a relay.
    - FfiBridge.v (tunnel-client-ffi): the lazily built runtimes, the bridge to the foreign
      [sign], the constructor, the Android logger entry. Theorems: callers share one runtime and
      a failed build is retried; what the constructor accepts.
    - Cli.v (client/src/main.rs): key and certificate files, configuration, shutdown.
      Theorem: identity and issued certificate survive restarts, whatever a tunnel that ran
      meanwhile wrote.

    ** Bounds

    Three definitions take fuel: the [write_all] over [H2Send] in Framing.v, which is given
    the length of its buffer; every accepted write takes at least a byte, so it never
    runs out ([write_all_loop_spec]); [trim] in RustStr.v, given the length of its
    string, from which every round removes at least a byte; and [reap] in Member.v, given
    the number of tasks, one of which every round takes out ([reap_running]). The loops of
    the sources that the code bounds itself
    ([finalize_order]: 12 and 30 rounds; window raises: 200 attempts) recurse on the
    code's own count; loops over peers' requests recurse on the finite sequence of
    requests that arrive; [connection_run] recurses on the list of sessions it is told
    about, for every such list; the H2 client's challenge loops recurse on the number of
    requests the connection still carries, any number ([KRounds]), after which it is closed;
    everything else is a step relation without a bound.

    ** Not modelled

    The pump inside [copy_bidirectional], which is one call wherever it is used (what the
    streams under it promise is in IoAdapter.v); argument parsing (clap), HTTP clients and
    loggers, which are calls into other crates; log lines and [Debug] output. Panics are
    modelled where the code provides for them (the relay's listeners, the renewal task), not
    for the members of the H2 pool. The theorems that a session completes (QuicExchange.v,
    H2Exchange.v, EndToEnd.v) are about connections that lose nothing and timers that do not
    fire; the safety theorems on the same programs allow every failure. Generated bindings,
    Kotlin and scripts have no logic of this program. *)

From Stdlib Require Export ZArith Lia Strings.Byte Strings.String.
From stdpp Require Export base list strings gmap sorting.

Declare Scope tunnel_scope.
Delimit Scope tunnel_scope with tunnel.
Open Scope Z_scope.

(** ** Hint databases of the development *)

Create HintDb tunnel.
Create HintDb tunnel_arith.

(** ** Results

    [Result<A, E>] of the sources; [?] is the monadic bind. *)

Inductive result (E A : Type) : Type :=
| Ok (a : A)
| Err (e : E).
Arguments Ok {E A} a.
Arguments Err {E A} e.

#[export] Instance result_ret E : MRet (result E) := λ A a, Ok a.
#[export] Instance result_bind E : MBind (result E) := λ A B f r,
  match r with Ok a => f a | Err e => Err e end.
#[export] Instance result_fmap E : FMap (result E) := λ A B f r,
  match r with Ok a => Ok (f a) | Err e => Err e end.

#[export] Instance result_eq_dec `{EqDecision E, EqDecision A} :
  EqDecision (result E A).
Proof. solve_decision. Defined.

(** [r.ok()]. *)
Definition ok {E A} (r : result E A) : option A :=
  match r with Ok a => Some a | Err _ => None end.

(** [r.map_err(f)]. *)
Definition map_err {E F A} (f : E → F) (r : result E A) : result F A :=
  match r with Ok a => Ok a | Err e => Err (f e) end.

(** [o.ok_or_else(|| e)]. *)
Definition ok_or {E A} (e : E) (o : option A) : result E A :=
  match o with Some a => Ok a | None => Err e end.

(** [anyhow::ensure!(b, e)]. *)
Definition ensure {E} (b : bool) (e : E) : result E unit :=
  if b then Ok tt else Err e.

Definition is_ok {E A} (r : result E A) : bool :=
  match r with Ok _ => true | Err _ => false end.

(** ** State passing

    A reader or writer that lives in memory, threaded explicitly. *)

Definition state (S A : Type) : Type := S → A * S.
#[export] Instance state_ret S : MRet (state S) := λ A a s, (a, s).
#[export] Instance state_bind S : MBind (state S) := λ A B f m s,
  let '(a, s') := m s in f a s'.

(** ** Bytes *)

Abbreviation bytes := (list byte).

#[export] Instance byte_eq_dec : EqDecision byte := Byte.byte_eq_dec.

Definition byte_to_Z (b : byte) : Z := Z.of_N (Byte.to_N b).
(** Truncating cast [z as u8]. *)
Definition byte_of_Z (z : Z) : byte :=
  match Byte.of_N (Z.to_N (z mod 256)) with Some b => b | None => x00 end.

Lemma byte_to_Z_range b : 0 ≤ byte_to_Z b < 256.
Proof. unfold byte_to_Z. pose proof (Byte.to_N_bounded b). lia. Qed.

Lemma byte_to_of_Z z : byte_to_Z (byte_of_Z z) = z mod 256.
Proof.
  unfold byte_of_Z, byte_to_Z.
  pose proof (Z.mod_pos_bound z 256 ltac:(lia)) as Hz.
  destruct (Byte.of_N (Z.to_N (z mod 256))) as [b|] eqn:E.
  - apply Byte.to_of_N in E. rewrite E. lia.
  - apply Byte.of_N_None_iff in E. lia.
Qed.

Lemma byte_of_to_Z b : byte_of_Z (byte_to_Z b) = b.
Proof.
  unfold byte_of_Z. rewrite Z.mod_small by apply byte_to_Z_range.
  unfold byte_to_Z. rewrite N2Z.id, Byte.of_to_N. done.
Qed.

(** The bytes of a string ([as_bytes]) and back. *)
Abbreviation as_bytes := String.list_byte_of_string.
Abbreviation of_bytes := String.string_of_list_byte.

Lemma of_as_bytes s : of_bytes (as_bytes s) = s.
Proof. apply String.string_of_list_byte_of_string. Qed.
Lemma as_of_bytes l : as_bytes (of_bytes l) = l.
Proof. apply String.list_byte_of_string_of_list_byte. Qed.

#[global] Arguments String.append !_ _ / : simpl nomatch.

(** ** Machine integers *)

Definition U32_MAX : Z := 2 ^ 32 - 1.
Definition U64_MAX : Z := 2 ^ 64 - 1.
Definition I64_MAX : Z := 2 ^ 63 - 1.
(** [usize] of the 64-bit targets. *)
Definition USIZE_MOD : Z := 2 ^ 64.

(** [u32::saturating_add]. *)
Definition u32_saturating_add (a b : Z) : Z := Z.min (a + b) U32_MAX.
(** [u32::saturating_sub]. *)
Definition u32_saturating_sub (a b : Z) : Z := Z.max (a - b) 0.

(** ** Durations

    [std::time::Duration], in nanoseconds. Its range is that of [u64] seconds
    plus the sub-second part. *)

Definition NANOS_PER_SEC : Z := 1000000000.
Definition DURATION_MAX : Z := U64_MAX * NANOS_PER_SEC + 999999999.

Definition from_secs (s : Z) : Z := s * NANOS_PER_SEC.
Definition from_millis (ms : Z) : Z := ms * 1000000.
(** [Duration::saturating_mul]. *)
Definition saturating_mul (d k : Z) : Z := Z.min (d * k) DURATION_MAX.
(** [as_millis]: the whole milliseconds. *)
Definition as_millis (d : Z) : Z := d / 1000000.
Definition as_secs (d : Z) : Z := d / NANOS_PER_SEC.
Definition is_zero (d : Z) : bool := d =? 0.

Lemma saturating_mul_nonneg d k : 0 ≤ d → 0 ≤ k → 0 ≤ saturating_mul d k.
Proof. unfold saturating_mul, DURATION_MAX, U64_MAX, NANOS_PER_SEC. nia. Qed.

Lemma saturating_mul_min d k m :
  m ≤ DURATION_MAX → Z.min (saturating_mul d k) m = Z.min (d * k) m.
Proof. unfold saturating_mul. lia. Qed.

#[export] Hint Resolve byte_to_Z_range saturating_mul_nonneg : tunnel_arith.

(** ** Tactics *)

(** Case-splits every [match] and decision of the goal and the context, and
    simplifies the equations that appear. *)
Ltac split_matches :=
  repeat (case_match || case_decide || case_bool_decide);
  simplify_eq/=.

(** Splits conjunctions and existentials of the context. *)
Ltac unpack := repeat
  match goal with
  | H : _ ∧ _ |- _ => destruct H
  | H : ∃ _, _ |- _ => destruct H
  | H : _ * _ |- _ => destruct H
  | H : False |- _ => destruct H
  end.

(** ** Lists *)

Lemma take_take_drop {A} (l : list A) n m :
  take n l ++ take m (drop n l) = take (n + m) l.
Proof.
  revert l; induction n as [|n IH]; intros [|x l]; simpl; try done.
  - by rewrite take_nil.
  - by rewrite IH.
Qed.

Lemma omap_cons {A B} (f : A → option B) x l :
  omap f (x :: l) = option_list (f x) ++ omap f l.
Proof. simpl. by destruct (f x). Qed.

Lemma omap_nil_iff {A B} (f : A → option B) l :
  omap f l = [] ↔ Forall (λ x, f x = None) l.
Proof.
  induction l as [|x l IH]; simpl; [by split|].
  rewrite Forall_cons, <-IH. destruct (f x); naive_solver.
Qed.

(** Replacing one element, up to order: the others are the same before and after. *)
Lemma bind_insert_perm {A B} (f : A → list B) (l : list A) i x y :
  l !! i = Some x →
  ∃ rest, l ≫= f ≡ₚ f x ++ rest ∧ <[i := y]> l ≫= f ≡ₚ f y ++ rest.
Proof.
  intros Hx. exists ((take i l ++ drop (S i) l) ≫= f).
  assert (Hi : (i < length l)%nat) by eauto using lookup_lt_Some.
  rewrite insert_take_drop by done. rewrite <-(take_drop_middle l i x Hx) at 1.
  rewrite !bind_app, !bind_cons. split; apply Permutation_app_swap_app.
Qed.

(** What each element of [l] gives at its position, flattened. *)
Definition flat {A B} (f : nat → A → list B) (l : list A) : list B := imap f l ≫= id.

Lemma flat_snoc {A B} (f : nat → A → list B) l x : flat f (l ++ [x]) = flat f l ++ f (length l) x.
Proof. unfold flat. rewrite imap_app, bind_app. simpl. by rewrite app_nil_r, Nat.add_0_r. Qed.

Lemma flat_insert {A B} (f : nat → A → list B) l i x y :
  l !! i = Some x →
  ∃ rest, flat f l ≡ₚ f i x ++ rest ∧ flat f (<[i := y]> l) ≡ₚ f i y ++ rest.
Proof.
  intros Hx. assert (Hi : imap f l !! i = Some (f i x)) by (by rewrite list_lookup_imap, Hx).
  assert (imap f (<[i := y]> l) = <[i := f i y]> (imap f l)) as Hins.
  { apply list_eq. intros j. rewrite list_lookup_imap. destruct (decide (i = j)) as [<-|].
    - assert (i < length l)%nat by eauto using lookup_lt_Some.
      rewrite !list_lookup_insert_eq by (by rewrite ?length_imap). done.
    - by rewrite !list_lookup_insert_ne, list_lookup_imap. }
  unfold flat. rewrite Hins. exact (bind_insert_perm id (imap f l) i (f i x) (f i y) Hi).
Qed.

Lemma elem_of_flat {A B} (f : nat → A → list B) l z :
  z ∈ flat f l ↔ ∃ i x, l !! i = Some x ∧ z ∈ f i x.
Proof.
  unfold flat. rewrite list_elem_of_bind. split.
  - intros (y & Hz & Hy). apply list_elem_of_lookup in Hy as [i Hi].
    rewrite list_lookup_imap in Hi. destruct (l !! i) as [x|] eqn:E; simplify_eq/=. eauto.
  - intros (i & x & Hx & Hz). exists (f i x). split; [done|]. apply (list_elem_of_lookup_2 _ i).
    by rewrite list_lookup_imap, Hx.
Qed.

(** ** Reachability

    An invariant of a transition system: holds initially, kept by every step. *)
Lemma rtc_invariant {A} (R : relation A) (P : A → Prop) x y :
  P x → (∀ y z, R y z → P y → P z) → rtc R x y → P y.
Proof. intros H0 Hs Hr. revert H0. induction Hr; eauto. Qed.
