(* ===== verification/Async.v ===== *)
(** * Async.v: async Rust functions as programs over an environment

    An [async fn] of the sources is a [prog]: a tree whose nodes are the calls it
    makes outside itself (network, shared maps, timers, callbacks) and whose
    branches are the possible answers of the environment. Every statement about
    [runs] or [reaches] therefore quantifies over every behaviour of the peer,
    of the other tasks and of the clock.

    [runs p tr a]: [p] returns [a] after the calls and answers [tr].
    [reaches p tr p']: [p'] is what is left of [p] after [tr] (a task that is
    suspended, or was dropped there).
    [interrupt] is cancellation at a suspension point: [tokio::time::timeout]
    and the losing arm of a [select!]. *)

From S2P Require Import Prelude.

(** What a component calls: its operations, the answers each can receive, and
    which of them suspend the task. *)
Structure iface := Iface {
  op : Type;
  ans : op → Type;
  awaits : op → bool;
}.

Section prog.
Context {I : iface}.

Inductive prog (A : Type) : Type :=
| Ret (a : A)
| Vis (o : op I) (k : ans I o → prog A).

Fixpoint prog_bind {A B} (f : A → prog B) (p : prog A) : prog B :=
  match p with
  | Ret _ a => f a
  | Vis _ o k => Vis B o (λ x, prog_bind f (k x))
  end.

(** One call and its answer. *)
Record event := Event { ev_op : op I; ev_ans : ans I ev_op }.
Abbreviation trace := (list event).

Fixpoint runs {A} (p : prog A) (tr : trace) (a : A) : Prop :=
  match p with
  | Ret _ b => tr = [] ∧ a = b
  | Vis _ o k => ∃ x tr', tr = Event o x :: tr' ∧ runs (k x) tr' a
  end.

Fixpoint reaches {A} (p : prog A) (tr : trace) (p' : prog A) : Prop :=
  (tr = [] ∧ p' = p) ∨
  match p with
  | Ret _ _ => False
  | Vis _ o k => ∃ x tr', tr = Event o x :: tr' ∧ reaches (k x) tr' p'
  end.

(** Every completed run satisfies [Q]: the form in which [runs] is proved. *)
Fixpoint wp {A} (p : prog A) (Q : trace → A → Prop) : Prop :=
  match p with
  | Ret _ a => Q [] a
  | Vis _ o k => ∀ x, wp (k x) (λ tr a, Q (Event o x :: tr) a)
  end.

(** Every prefix of every run satisfies [Q]. *)
Fixpoint always {A} (p : prog A) (Q : trace → Prop) : Prop :=
  Q [] ∧
  match p with
  | Ret _ _ => True
  | Vis _ o k => ∀ x, always (k x) (λ tr, Q (Event o x :: tr))
  end.

(** Runs [p] against an environment that answers as a function of its state:
    the result, the calls made and the final state. *)
Fixpoint exec {A S} (h : ∀ o, S → ans I o * S) (p : prog A) (s : S) : A * trace * S :=
  match p with
  | Ret _ a => (a, [], s)
  | Vis _ o k =>
      let '(x, s') := h o s in
      let '(a, tr, s'') := exec h (k x) s' in (a, Event o x :: tr, s'')
  end.

(** Runs [p] as long as it suspends, checking [q] before each suspension: a
    [Some c] from [q] drops [p] there. *)
Fixpoint interrupt {A C} (q : prog (option C)) (p : prog A) : prog (C + A) :=
  match p with
  | Ret _ a => Ret _ (inr a)
  | Vis _ o k =>
      if awaits I o then
        prog_bind (λ r : option C,
          match r with
          | Some c => Ret _ (inl c)
          | None => Vis _ o (λ x, interrupt q (k x))
          end) q
      else Vis _ o (λ x, interrupt q (k x))
  end.
End prog.

Arguments prog I A : clear implicits.
Arguments event I : clear implicits.
Arguments Ret {I A} a.
Arguments Vis {I A} o k.
Abbreviation trace I := (list (event I)).

(** One call, returning its answer. *)
Definition call {I : iface} (o : op I) : prog I (ans I o) := Vis o Ret.

#[export] Instance prog_ret I : MRet (prog I) := λ A a, Ret a.
#[export] Instance prog_mbind I : MBind (prog I) := λ A B f p, prog_bind f p.

(** [x <- p ;; q] for programs, and early return of an [Option]-returning
    function: [x <-? p ;; q] is [let x = p?; q]. *)
Notation "x '<-!' p ';;' q" := (prog_bind (λ x, q) p)
  (at level 100, p at next level, q at level 200, right associativity) : tunnel_scope.
Notation "x '<-?' p ';;' q" :=
  (prog_bind (λ r, match r with Some x => q | None => Ret None end) p)
  (at level 100, p at next level, q at level 200, right associativity) : tunnel_scope.
Notation "p ';;!' q" := (prog_bind (λ _, q) p)
  (at level 100, q at level 200, right associativity) : tunnel_scope.

(** ** Laws *)

Section laws.
Context {I : iface}.
Implicit Types (tr : trace I).

Lemma runs_wp {A} (p : prog I A) (Q : trace I → A → Prop) :
  wp p Q ↔ ∀ tr a, runs p tr a → Q tr a.
Proof.
  revert Q. induction p as [a|o k IH]; intros Q; simpl.
  - split; [by intros H tr b [-> ->]|]. intros H. by apply H.
  - split.
    + intros H tr a (x & tr' & -> & Hr). by apply (proj1 (IH x _) (H x)).
    + intros H x. apply IH. intros tr a Hr. apply H. eauto.
Qed.

Lemma always_reaches {A} (p : prog I A) (Q : trace I → Prop) :
  always p Q ↔ ∀ tr p', reaches p tr p' → Q tr.
Proof.
  revert Q. induction p as [a|o k IH]; intros Q; simpl.
  - split; [intros [H _] tr p' [[-> _]|[]]; done|]. intros H.
    split; [|done]. eapply H. by left.
  - split.
    + intros [H0 H] tr p' [[-> _]|(x & tr' & -> & Hr)]; [done|].
      by eapply (proj1 (IH x _) (H x)).
    + intros H. split; [eapply H; by left|]. intros x. apply IH.
      intros tr p' Hr. eapply H. right. eauto.
Qed.

Lemma wp_mono {A} (p : prog I A) (Q Q' : trace I → A → Prop) :
  (∀ tr a, Q tr a → Q' tr a) → wp p Q → wp p Q'.
Proof. rewrite !runs_wp. eauto. Qed.

Lemma runs_bind {A B} (p : prog I A) (f : A → prog I B) tr b :
  runs (prog_bind f p) tr b ↔
  ∃ tr1 tr2 a, tr = tr1 ++ tr2 ∧ runs p tr1 a ∧ runs (f a) tr2 b.
Proof.
  revert tr. induction p as [a|o k IH]; intros tr; simpl.
  - split; [intros H; by exists [], tr, a|]. by intros (? & ? & ? & -> & [-> ->] & ?).
  - split.
    + intros (x & tr' & -> & H). apply IH in H as (t1 & t2 & a & -> & H1 & H2).
      exists (Event o x :: t1), t2, a. split; [done|]. eauto.
    + intros (t1 & t2 & a & -> & (x & t1' & -> & H1) & H2).
      exists x, (t1' ++ t2). split; [done|]. apply IH. eauto 6.
Qed.

Lemma wp_bind {A B} (p : prog I A) (f : A → prog I B) (Q : trace I → B → Prop) :
  wp (prog_bind f p) Q ↔ wp p (λ tr a, wp (f a) (λ tr' b, Q (tr ++ tr') b)).
Proof.
  rewrite !runs_wp. setoid_rewrite runs_bind. setoid_rewrite runs_wp.
  naive_solver.
Qed.

Lemma wp_true {A} (p : prog I A) : wp p (λ _ _, True).
Proof. by apply runs_wp. Qed.

(** A property of the result alone, past a part whose result does not matter. *)
Lemma wp_after {A B} (p : prog I A) (f : A → prog I B) (R : B → Prop) :
  (∀ a, wp (f a) (λ _ b, R b)) → wp (prog_bind f p) (λ _ b, R b).
Proof. intros Hf. rewrite wp_bind. eapply wp_mono; [|apply wp_true]. intros tr a _. apply Hf. Qed.

(** A completed run is a run that reached its return. *)
Lemma runs_reaches {A} (p : prog I A) tr a : runs p tr a ↔ reaches p tr (Ret a).
Proof.
  revert tr. induction p as [b|o k IH]; intros tr; simpl.
  - split; [intros [-> ->]; by left|]. intros [[-> [= ->]]|[]]. done.
  - split; [intros (x & tr' & -> & H)|intros [[_ ?]|(x & tr' & -> & H)]]; [|done|].
    + right. exists x, tr'. split; [done|]. by apply IH.
    + exists x, tr'. split; [done|]. by apply IH.
Qed.

Lemma reaches_refl {A} (p : prog I A) : reaches p [] p.
Proof. destruct p; by left. Qed.

(** One more call extends the trace. *)
Lemma reaches_step {A} (p p' : prog I A) tr :
  reaches p tr p' →
  match p' with
  | Ret _ => True
  | Vis o k => ∀ x, reaches p (tr ++ [Event o x]) (k x)
  end.
Proof.
  revert tr. induction p as [b|o k IH]; intros tr; simpl.
  - by intros [[_ ->]|[]].
  - intros [[-> ->]|(y & tr' & -> & H)].
    + intros x. right. exists x, []. split; [done|]. apply reaches_refl.
    + specialize (IH y tr' H). destruct p' as [|o' k']; [done|].
      intros x. right. exists y, (tr' ++ [Event o' x]). by split.
Qed.

(** Where every call can be answered, a program that got somewhere can finish: its next
    call is answered, and so is the rest. *)
Lemma runs_somehow {A} (p : prog I A) :
  (∀ o, inhabited (ans I o)) → ∃ tr a, runs p tr a.
Proof.
  intros Hi. induction p as [a|o k IH]; [by exists [], a|].
  destruct (Hi o) as [x]. destruct (IH x) as (tr & a & Hr). exists (Event o x :: tr), a. simpl. eauto.
Qed.

Lemma reaches_completes {A} (p p' : prog I A) tr :
  (∀ o, inhabited (ans I o)) → reaches p tr p' →
  match p' with
  | Ret _ => True
  | Vis o k => ∃ x tr' a, runs p (tr ++ Event o x :: tr') a
  end.
Proof.
  intros Hi. revert tr. induction p as [b|o' k' IH]; intros tr; simpl.
  - by intros [[_ ->]|[]].
  - intros [[-> ->]|(y & tr' & -> & H)].
    + destruct (runs_somehow (Vis o' k') Hi) as (tr & a & (x & tr' & -> & Hr)).
      exists x, tr', a. simpl. eauto.
    + specialize (IH y tr' H). destruct p' as [|o k]; [done|].
      destruct IH as (x & tr2 & a & Hr). exists x, tr2, a. simpl. eauto.
Qed.

(** [exec] produces a run. *)
Lemma exec_runs {A S} (h : ∀ o, S → ans I o * S) (p : prog I A) s a tr s' :
  exec h p s = (a, tr, s') → runs p tr a.
Proof.
  revert s tr. induction p as [b|o k IH]; intros s tr; simpl; [by intros [= <- <- _]|].
  destruct (h o s) as [x s1], (exec h (k x) s1) as [[b tr1] s2] eqn:E.
  intros [= <- <- <-]. eauto.
Qed.

Lemma exec_bind {A B S} (h : ∀ o, S → ans I o * S) (p : prog I A) (f : A → prog I B) s :
  exec h (prog_bind f p) s =
  let '(a, tr, s1) := exec h p s in
  let '(b, tr', s2) := exec h (f a) s1 in (b, tr ++ tr', s2).
Proof.
  revert s. induction p as [a|o k IH]; intros s; simpl.
  - by destruct (exec h (f a) s) as [[? ?] ?].
  - destruct (h o s) as [x s1]. rewrite IH.
    destruct (exec h (k x) s1) as [[a tr1] s2]. by destruct (exec h (f a) s2) as [[? ?] ?].
Qed.

(** A canceller that never fires leaves the run as it was, up to its own calls. *)
Lemma exec_interrupt_never {A C S T} (h : ∀ o, S → ans I o * S) (obs : event I → option T)
    (q : prog I (option C)) (p : prog I A) s :
  (∀ s, ∃ tr, exec h q s = (None, tr, s) ∧ omap obs tr = []) →
  ∃ tr, exec h (interrupt q p) s = (inr (exec h p s).1.1, tr, (exec h p s).2) ∧
        omap obs tr = omap obs (exec h p s).1.2.
Proof.
  intros Hq. revert s. induction p as [a|o k IH]; intros s; cbn [interrupt].
  - by exists [].
  - assert (Hk : ∀ s, ∃ tr,
        exec h (Vis o (λ x, interrupt q (k x))) s
          = (inr (exec h (Vis o k) s).1.1, tr, (exec h (Vis o k) s).2) ∧
        omap obs tr = omap obs (exec h (Vis o k) s).1.2).
    { clear s. intros s. simpl. destruct (h o s) as [x s1].
      destruct (IH x s1) as (tr & -> & Htr), (exec h (k x) s1) as [[a tr'] s2].
      eexists. split; [done|]. cbn [fst snd] in *. by rewrite !omap_cons, Htr. }
    destruct (awaits I o); [|apply Hk].
    rewrite exec_bind. destruct (Hq s) as (tq & -> & Htq), (Hk s) as (tk & -> & Htk).
    eexists. split; [done|]. by rewrite omap_app, Htq, Htk.
Qed.
End laws.

(** ** Cancellation

    A property that does not mind the extra events of the canceller holds of the
    cancelled program when it holds of the program. *)

Section cancellation.
Context {I : iface} (neutral : event I → Prop).
Implicit Types (tr : trace I).

Lemma always_bind {A B} (p : prog I A) (f : A → prog I B) (Q : trace I → Prop) :
  always (prog_bind f p) Q ↔
  always p Q ∧ wp p (λ tr a, always (f a) (λ tr', Q (tr ++ tr'))).
Proof.
  revert Q. induction p as [a|o k IH]; intros Q; simpl.
  - split; [|naive_solver]. intros H. split; [|done]. destruct (f a); simpl in *; naive_solver.
  - setoid_rewrite IH. naive_solver.
Qed.

Lemma always_mono {A} (p : prog I A) (Q Q' : trace I → Prop) :
  (∀ tr, Q tr → Q' tr) → always p Q → always p Q'.
Proof. rewrite !always_reaches. eauto. Qed.

Lemma always_here {A} (p : prog I A) (Q : trace I → Prop) : always p Q → Q [].
Proof. destruct p; simpl; naive_solver. Qed.

(** A property of all prefixes holds of completed runs. *)
Lemma always_wp {A} (p : prog I A) (Q : trace I → Prop) :
  always p Q → wp p (λ tr _, Q tr).
Proof.
  rewrite always_reaches, runs_wp. intros H tr a Hr. by eapply H, runs_reaches.
Qed.

Lemma wp_and {A} (p : prog I A) (Q Q' : trace I → A → Prop) :
  wp p Q → wp p Q' → wp p (λ tr a, Q tr a ∧ Q' tr a).
Proof. rewrite !runs_wp. eauto. Qed.

(** Unaffected by neutral events. *)
Definition stable (Q : trace I → Prop) : Prop :=
  ∀ tr1 e tr2, neutral e → Q (tr1 ++ tr2) → Q (tr1 ++ e :: tr2).

Lemma stable_cons Q e : stable Q → stable (λ tr, Q (e :: tr)).
Proof. intros H tr1 e' tr2. apply (H (e :: tr1)). Qed.

Lemma stable_app Q tr tr' : stable Q → Forall neutral tr → Q tr' → Q (tr ++ tr').
Proof.
  intros HQ Htr. induction Htr as [|e tr He _ IH]; [done|].
  intros H. apply (HQ [] e); [done|]. by apply IH.
Qed.

(** A canceller that only makes neutral calls. *)
Definition neutral_prog {C} (q : prog I C) : Prop := always q (Forall neutral).

Lemma wp_interrupt {A C} (q : prog I (option C)) (p : prog I A)
    (Q : trace I → C + A → Prop) :
  neutral_prog q → (∀ r, stable (λ tr, Q tr r)) →
  wp p (λ tr a, Q tr (inr a)) → always p (λ tr, ∀ c, Q tr (inl c)) →
  wp (interrupt q p) Q.
Proof.
  intros Hq. revert Q. induction p as [a|o k IH]; intros Q HQ Hwp Hal; [done|].
  simpl in Hwp, Hal. destruct Hal as [H0 Hal]. cbn [interrupt].
  assert (Hk : ∀ tr, Forall neutral tr →
            ∀ x, wp (interrupt q (k x)) (λ tr' a, Q (tr ++ Event o x :: tr') a)).
  { intros tr Htr x. apply IH.
    - intros r tr1 e tr2 He H. cbn.
      change (tr ++ Event o x :: tr1 ++ e :: tr2) with (tr ++ (Event o x :: tr1) ++ e :: tr2).
      rewrite app_assoc. apply HQ; [done|]. by rewrite <-app_assoc.
    - eapply wp_mono; [|apply Hwp]. intros tr' a H. by apply (stable_app (λ t, Q t (inr a))).
    - eapply always_mono; [|apply Hal]. intros tr' H c. by apply (stable_app (λ t, Q t (inl c))). }
  destruct (awaits I o); [|intros x; apply (Hk []); constructor].
  rewrite wp_bind. eapply wp_mono; [|by apply always_wp, Hq].
  intros tr [c|] Htr; simpl; [|by apply Hk].
  by apply (stable_app (λ t, Q t (inl c))).
Qed.

(** The result of a program that was not cancelled is a result of the program. *)
Lemma wp_interrupt_result {A C} (q : prog I (option C)) (p : prog I A) (R : A → Prop) :
  wp p (λ _ a, R a) → wp (interrupt q p) (λ _ r, ∀ a, r = inr a → R a).
Proof.
  induction p as [a|o k IH]; simpl; intros Hp; [by intros ? [= <-]|].
  destruct (awaits I o); [|intros x; by apply IH].
  rewrite wp_bind. eapply wp_mono; [|apply wp_true]. intros tr [c|] _; simpl; [done|].
  intros x. by apply IH.
Qed.

Lemma always_interrupt {A C} (q : prog I (option C)) (p : prog I A) (Q : trace I → Prop) :
  neutral_prog q → stable Q → always p Q → always (interrupt q p) Q.
Proof.
  intros Hq. revert Q. induction p as [a|o k IH]; intros Q HQ Hal; [done|].
  simpl in Hal. destruct Hal as [H0 Hal]. cbn [interrupt].
  assert (Hk : ∀ tr, Forall neutral tr →
            ∀ x, always (interrupt q (k x)) (λ tr', Q (tr ++ Event o x :: tr'))).
  { intros tr Htr x. apply IH.
    - intros tr1 e tr2 He H. cbn.
      change (tr ++ Event o x :: tr1 ++ e :: tr2) with (tr ++ (Event o x :: tr1) ++ e :: tr2).
      rewrite app_assoc. apply HQ; [done|]. by rewrite <-app_assoc.
    - eapply always_mono; [|apply Hal]. intros tr' H. by apply stable_app. }
  destruct (awaits I o); [|split; [done|]; intros x; apply (Hk []); constructor].
  apply always_bind. split.
  - eapply always_mono; [|apply Hq]. intros tr Htr. rewrite <-(app_nil_r tr).
    by apply stable_app.
  - eapply wp_mono; [|by apply always_wp, Hq]. intros tr [c|] Htr; simpl.
    + split; [|done]. by apply stable_app.
    + split; [by apply stable_app|]. by apply Hk.
Qed.
End cancellation.

(** ** Which calls a program can make *)

Section only.
Context {I : iface}.

Fixpoint only {A} (S : op I → Prop) (p : prog I A) : Prop :=
  match p with
  | Ret _ => True
  | Vis o k => S o ∧ ∀ x, only S (k x)
  end.

Lemma only_bind {A B} S (p : prog I A) (f : A → prog I B) :
  only S p → (∀ a, only S (f a)) → only S (prog_bind f p).
Proof. intros Hp Hf. induction p as [a|o k IH]; simpl in *; [done|]. naive_solver. Qed.

(** The same when what follows is fine only for the results that can occur. *)
Lemma only_bind_wp {A B} S (p : prog I A) (f : A → prog I B) :
  only S p → wp p (λ _ a, only S (f a)) → only S (prog_bind f p).
Proof. induction p as [a|o k IH]; simpl; [done|]. naive_solver. Qed.

Lemma only_mono {A} (S S' : op I → Prop) (p : prog I A) :
  (∀ o, S o → S' o) → only S p → only S' p.
Proof. intros HS. induction p as [a|o k IH]; simpl; [done|]. naive_solver. Qed.

Lemma only_interrupt {A C} S (q : prog I (option C)) (p : prog I A) :
  only S q → only S p → only S (interrupt q p).
Proof.
  intros Hq. induction p as [a|o k IH]; [done|]. intros [Ho Hk]. cbn [interrupt].
  destruct (awaits I o); [|by split; eauto].
  apply only_bind; [done|]. intros [c|]; [done|]. split; eauto.
Qed.

Lemma only_always {A} S (p : prog I A) :
  only S p → always p (Forall (λ e, S (ev_op e))).
Proof.
  intros Hp. apply (always_reaches p). revert Hp.
  induction p as [a|o k IH]; simpl.
  - intros _ tr p' [[-> _]|[]]. constructor.
  - intros [Ho Hk] tr p' [[-> _]|(x & tr' & -> & Hr)]; [constructor|].
    constructor; [done|]. by eapply IH.
Qed.

Lemma only_wp {A} S (p : prog I A) :
  only S p → wp p (λ tr _, Forall (λ e, S (ev_op e)) tr).
Proof. intros. by apply always_wp, only_always. Qed.
End only.

(** ** One environment inside another

    A program over [I] as a program over [J], each of its calls made by [f]. *)

Section embed.
Context {I J : iface} (f : op I → op J) (cast : ∀ o, ans J (f o) → ans I o).

Fixpoint embed {A} (p : prog I A) : prog J A :=
  match p with
  | Ret a => Ret a
  | Vis o k => Vis (f o) (λ x, embed (k (cast o x)))
  end.

Lemma only_embed {A} (S : op J → Prop) (p : prog I A) : (∀ o, S (f o)) → only S (embed p).
Proof. intros Hf. induction p as [a|o k IH]; simpl; [done|]. by split. Qed.

Lemma wp_embed {A} (p : prog I A) (Q : A → Prop) :
  wp p (λ _ a, Q a) → wp (embed p) (λ _ a, Q a).
Proof. induction p as [a|o k IH]; simpl; [done|]. intros Hp x. apply IH, Hp. Qed.

Lemma wp_embed_trace {A} (p : prog I A) (Q : trace I → A → Prop) :
  wp p Q → wp (embed p) (λ tr a, ∃ tr', Q tr' a ∧
    ∀ e', e' ∈ tr' → ∃ o x, e' = Event o (cast o x) ∧ Event (f o) x ∈ tr).
Proof.
  revert Q. induction p as [a|o k IH]; simpl; intros Q Hp.
  { exists []. split; [done|]. by intros e' ?%not_elem_of_nil. }
  intros x. eapply wp_mono; [|apply IH, (Hp (cast o x))]. intros tr a (tr' & HQ & Hin).
  exists (Event o (cast o x) :: tr'). split; [done|]. intros e' [->|He]%elem_of_cons.
  - exists o, x. split; [done|by left].
  - destruct (Hin e' He) as (o' & x' & -> & ?). exists o', x'. split; [done|by right].
Qed.
End embed.

(** What a program does not do does not show. *)
Lemma only_unseen {I : iface} {A T} (obs : event I → option T) (p : prog I A) :
  only (λ o, ∀ x, obs (Event o x) = None) p → always p (λ tr, omap obs tr = []).
Proof.
  intros Hp. eapply always_mono; [|by apply only_always]. intros tr Htr. apply omap_nil_iff.
  eapply Forall_impl; [exact Htr|]. intros [o x] Ho. apply Ho.
Qed.

(** Opens a [wp] or [runs] goal of a concrete program: introduces the answers and
    splits on every test the program makes. *)
Ltac wp_go := repeat
  (progress simpl || intros || match goal with
   | |- wp (prog_bind _ _) _ => rewrite wp_bind
   | |- context [match ?x with _ => _ end] => destruct x eqn:?
   end).
