(* ===== verification/Duplex.v ===== *)
(** * Duplex.v: two programs that talk to each other

    A client and a relay run concurrently and in any order. Each half appends what it
    sends to a log that only it writes, and sees the log of the other; a call that needs
    something the other half has not sent yet does not answer: the half is blocked there.

    Since a half that can go on can still go on, with the same answer, after the other one
    has sent more, the order in which the two are scheduled does not matter: where one
    schedule leads to a state in which nothing is left to do, every schedule does, after
    as many steps, and none of them deadlocks on the way ([settles]). *)

From S2P Require Import Prelude Async.
Open Scope list_scope.

(** ** Strongly confluent systems *)

Section settles.
Context {S : Type} (step : relation S).

(** Any two next states are the same or have a common one next. *)
Definition joins : Prop :=
  ∀ s s1 s2, step s s1 → step s s2 → s1 = s2 ∨ ∃ s3, step s1 s3 ∧ step s2 s3.

Lemma joins_strip n s f s1 :
  joins → nsteps step n s f → (∀ s', ¬ step f s') → step s s1 →
  ∃ m, n = Datatypes.S m ∧ nsteps step m s1 f.
Proof.
  intros Hj Hn Hf. revert s s1 Hn. induction n as [|n IH]; intros s s1 Hn H1.
  { inversion Hn; subst. by destruct (Hf s1). }
  inversion Hn as [|? ? s2 ? H2 Hn2]; subst. exists n. split; [done|].
  destruct (Hj _ _ _ H1 H2) as [->|(s3 & H13 & H23)]; [done|].
  destruct (IH s2 s3 Hn2 H23) as (m & -> & Hm). by eapply nsteps_l.
Qed.

(** Every schedule ends in [f], after [n] steps. *)
Definition settles (s : S) (n : nat) (f : S) : Prop :=
  (∀ s', ¬ step f s') ∧
  ∀ k s', nsteps step k s s' → (k ≤ n)%nat ∧ nsteps step (n - k) s' f.

Lemma settles_run n s f :
  joins → nsteps step n s f → (∀ s', ¬ step f s') → settles s n f.
Proof.
  intros Hj Hn Hf. split; [done|]. intros k. revert n s Hn.
  induction k as [|k IH]; intros n s Hn s' Hk.
  { inversion Hk; subst. rewrite Nat.sub_0_r. split; [lia|done]. }
  inversion Hk as [|? ? s1 ? H1 Hk1]; subst.
  destruct (joins_strip n s f s1 Hj Hn Hf H1) as (m & -> & Hm).
  destruct (IH m s1 Hm s' Hk1) as [Hle Hr]. split; [lia|done].
Qed.

(** A schedule that has not ended can go on; one that has made [n] steps has ended. *)
Lemma settles_progress s n f k s' :
  settles s n f → nsteps step k s s' → (k < n)%nat → ∃ s'', step s' s''.
Proof.
  intros [_ Hs] Hk Hlt. destruct (Hs k s' Hk) as [_ Hr].
  destruct (n - k)%nat as [|m] eqn:E; [lia|]. inversion Hr; subst. eauto.
Qed.

Lemma settles_end s n f s' : settles s n f → nsteps step n s s' → s' = f.
Proof.
  intros [_ Hs] Hn. destruct (Hs n s' Hn) as [_ Hr]. rewrite Nat.sub_diag in Hr.
  by inversion Hr.
Qed.
End settles.

(** ** One half *)

(** What a half shows the other: its log, and once its program has returned whether its
    end of the connection is gone. *)
Record view (U : Type) := View { v_log : list U; v_ended : option bool }.
Arguments View {U} _ _.
Arguments v_log {U} _.
Arguments v_ended {U} _.

(** A later view of the same half: a returned program sends nothing more. *)
Definition later {U} (v v' : view U) : Prop :=
  v_log v `prefix_of` v_log v' ∧ (v_ended v ≠ None → v' = v).

Lemma later_refl {U} (v : view U) : later v v.
Proof. done. Qed.

(** What the connection answers to a call: its answer, the half's own position after it
    and what it sends; [None] while the call blocks. *)
Definition responder (I : iface) (U V P : Type) : Type :=
  ∀ o : op I, P → view V → option (ans I o * P * list U).
Definition monotone {I U V P} (f : responder I U V P) : Prop :=
  ∀ o p v v' z, later v v' → f o p v = Some z → f o p v' = Some z.

Record half (I : iface) (U P X A : Type) := Half {
  h_seen : list X;                      (** what was observed of its calls *)
  h_prog : prog I A;
  h_log : list U;
  h_pos : P;
}.
Arguments Half {I U P X A} _ _ _ _.
Arguments h_seen {I U P X A} _.
Arguments h_prog {I U P X A} _.
Arguments h_log {I U P X A} _.
Arguments h_pos {I U P X A} _.

Section half.
Context {I : iface} {U V P X A : Type}.
Context (f : responder I U V P) (obs : event I → option X) (gone : A → bool).

Definition view_of (h : half I U P X A) : view U :=
  View (h_log h) (match h_prog h with Ret a => Some (gone a) | Vis _ _ => None end).

Definition half_step (v : view V) (h : half I U P X A) : option (half I U P X A) :=
  match h_prog h with
  | Ret _ => None
  | Vis o k =>
      match f o (h_pos h) v with
      | None => None
      | Some (x, p, us) =>
          Some (Half (h_seen h ++ option_list (obs (Event o x))) (k x) (h_log h ++ us) p)
      end
  end.

Lemma half_step_later v h h' : half_step v h = Some h' → later (view_of h) (view_of h').
Proof.
  unfold half_step, later, view_of. destruct h as [xs [a|o k] us p]; simpl; [done|].
  destruct (f o p v) as [[[x p'] us']|]; [|done]. intros [= <-]. simpl.
  split; [by apply prefix_app_r|done].
Qed.

Lemma half_step_mono v v' h h' :
  monotone f → later v v' → half_step v h = Some h' → half_step v' h = Some h'.
Proof.
  intros Hm Hv. unfold half_step. destruct (h_prog h) as [a|o k]; [done|].
  destruct (f o (h_pos h) v) as [z|] eqn:E; [|done]. by rewrite (Hm _ _ _ _ _ Hv E).
Qed.
End half.

(** ** Both halves *)

Section duplex.
Context {I J : iface} {U V P Q X Y A B : Type}.
Context (f : responder I U V P) (obs : event I → option X) (gone : A → bool).
Context (g : responder J V U Q) (obs' : event J → option Y) (gone' : B → bool).
Abbreviation left := (half I U P X A).
Abbreviation right := (half J V Q Y B).

Inductive duplex_step : relation (left * right) :=
| step_left l l' r : half_step f obs (view_of gone' r) l = Some l' → duplex_step (l, r) (l', r)
| step_right l r r' : half_step g obs' (view_of gone l) r = Some r' → duplex_step (l, r) (l, r').

Context (Hf : monotone f) (Hg : monotone g).

Lemma duplex_joins : joins duplex_step.
Proof.
  intros s s1 s2 H1 H2. inversion H1 as [l l1 r E1|l r r1 E1]; subst;
    inversion H2 as [? l2 ? E2|? ? r2 E2]; subst; rewrite ?E1 in E2.
  - left. by simplify_eq.
  - right. exists (l1, r2). split; constructor.
    + eapply half_step_mono; [done|by eapply half_step_later|done].
    + eapply half_step_mono; [done|by eapply half_step_later|done].
  - right. exists (l2, r1). split; constructor.
    + eapply half_step_mono; [done|by eapply half_step_later|done].
    + eapply half_step_mono; [done|by eapply half_step_later|done].
  - left. by simplify_eq.
Qed.

(** Where one schedule ends with nothing left to do, all do. *)
Lemma duplex_settles s l r :
  rtc duplex_step s (l, r) →
  half_step f obs (view_of gone' r) l = None → half_step g obs' (view_of gone l) r = None →
  ∃ n, settles duplex_step s n (l, r).
Proof.
  intros [n Hn]%rtc_nsteps Hl Hr. exists n. apply settles_run; [apply duplex_joins|done|].
  intros s' Hs. inversion Hs; congruence.
Qed.
End duplex.

(** ** Runs of one half

    [goes v p q xs us p' q']: against the view [v] the program [p] at position [q] gets to
    [p'] and [q'], showing [xs] and sending [us]. *)

Section goes.
Context {I : iface} {U V P X : Type} (f : responder I U V P) (obs : event I → option X).

Definition goes {A} (v : view V) (p : prog I A) (q : P) (xs : list X) (us : list U)
    (p' : prog I A) (q' : P) : Prop :=
  ∀ xs0 us0, rtc (λ h h', half_step f obs v h = Some h')
    (Half xs0 p us0 q) (Half (xs0 ++ xs) p' (us0 ++ us) q').

Lemma goes_refl {A} v (p : prog I A) q : goes v p q [] [] p q.
Proof. intros xs us. rewrite !app_nil_r. apply rtc_refl. Qed.

Lemma goes_trans {A} v (p1 p2 p3 : prog I A) q1 q2 q3 xs us xs' us' :
  goes v p1 q1 xs us p2 q2 → goes v p2 q2 xs' us' p3 q3 →
  goes v p1 q1 (xs ++ xs') (us ++ us') p3 q3.
Proof. intros H1 H2 xs0 us0. etrans; [apply H1|]. rewrite !app_assoc. apply H2. Qed.

Lemma goes_call {A} v (o : op I) (k : ans I o → prog I A) q x q' us :
  f o q v = Some (x, q', us) → goes v (Vis o k) q (option_list (obs (Event o x))) us (k x) q'.
Proof. intros Ho xs0 us0. apply rtc_once. unfold half_step. simpl. by rewrite Ho. Qed.

(** The same for a whole run, call by call. *)
Lemma goes_step {A} v (o : op I) (k : ans I o → prog I A) q x q1 us1 xs us xs' us' p' q' :
  f o q v = Some (x, q1, us1) → xs = option_list (obs (Event o x)) ++ xs' → us = us1 ++ us' →
  goes v (k x) q1 xs' us' p' q' → goes v (Vis o k) q xs us p' q'.
Proof. intros Ho -> -> Hk. eapply goes_trans; [by apply goes_call|exact Hk]. Qed.

(** A program that got on inside a bind. *)
Lemma goes_bind {A B} v (p p' : prog I A) (k : A → prog I B) q q' xs us :
  goes v p q xs us p' q' → goes v (prog_bind k p) q xs us (prog_bind k p') q'.
Proof.
  intros Hp xs0 us0. specialize (Hp xs0 us0).
  assert (Hg : ∀ h h' : half I U P X A, rtc (λ h h', half_step f obs v h = Some h') h h' →
    rtc (λ h h', half_step f obs v h = Some h')
      (Half (h_seen h) (prog_bind k (h_prog h)) (h_log h) (h_pos h))
      (Half (h_seen h') (prog_bind k (h_prog h')) (h_log h') (h_pos h'))); [|exact (Hg _ _ Hp)].
  clear. induction 1 as [h|h h1 h' H1 _ IH]; [apply rtc_refl|]. eapply rtc_l; [|exact IH].
  unfold half_step in *. destruct (h_prog h) as [a|o k']; [done|]. simpl.
  destruct (f o (h_pos h) v) as [[[x q] us]|]; [|done]. by injection H1 as <-.
Qed.

(** A bind whose first program returns. *)
Lemma goes_then {A B} v (p : prog I A) (k : A → prog I B) a q q1 xs us r q2 xs' us' :
  goes v p q xs us (Ret a) q1 → goes v (k a) q1 xs' us' r q2 →
  goes v (prog_bind k p) q (xs ++ xs') (us ++ us') r q2.
Proof. intros H1 H2. eapply goes_trans; [by apply goes_bind|exact H2]. Qed.

Lemma goes_seq {A B} v (p : prog I A) (k : A → prog I B) a q q1 xs us xs1 us1 r q2 xs2 us2 :
  goes v p q xs1 us1 (Ret a) q1 → xs = xs1 ++ xs2 → us = us1 ++ us2 →
  goes v (k a) q1 xs2 us2 r q2 → goes v (prog_bind k p) q xs us r q2.
Proof. intros H1 -> ->. by apply goes_then. Qed.

(** A deadline that does not pass. *)
Lemma goes_interrupt {A C} v (c : prog I (option C)) (p p' : prog I A) q q' xs us :
  (∀ q, goes v c q [] [] (Ret None) q) →
  goes v p q xs us p' q' → goes v (interrupt c p) q xs us (interrupt c p') q'.
Proof.
  intros Hc Hp xs0 us0. specialize (Hp xs0 us0).
  assert (Hg : ∀ h h' : half I U P X A, rtc (λ h h', half_step f obs v h = Some h') h h' →
    rtc (λ h h', half_step f obs v h = Some h')
      (Half (h_seen h) (interrupt c (h_prog h)) (h_log h) (h_pos h))
      (Half (h_seen h') (interrupt c (h_prog h')) (h_log h') (h_pos h'))); [|exact (Hg _ _ Hp)].
  clear -Hc. induction 1 as [h|h h1 h' H1 _ IH]; [apply rtc_refl|]. etrans; [|exact IH].
  unfold half_step in H1. destruct h as [xs [a|o k] us q]; simpl in *; [done|].
  assert (Hk : rtc (λ h h', half_step f obs v h = Some h')
            (Half xs (Vis o (λ x, interrupt c (k x))) us q)
            (Half (h_seen h1) (interrupt c (h_prog h1)) (h_log h1) (h_pos h1))).
  { apply rtc_once. unfold half_step. simpl. destruct (f o q v) as [[[x q1] us1]|]; [|done].
    by injection H1 as <-. }
  destruct (awaits I o); [|exact Hk]. etrans; [|exact Hk].
  pose proof (goes_then v c (λ r : option C, match r with
    | Some c' => Ret (inl c') | None => Vis o (λ x, interrupt c (k x)) end)
    None q q [] [] _ q [] [] (Hc q) (goes_refl _ _ _) xs us) as Hr.
  by rewrite !app_nil_r in Hr.
Qed.
End goes.

(** Runs of one half are runs of the two. *)
Section both.
Context {I J : iface} {U V P Q X Y A B : Type}.
Context (f : responder I U V P) (obs : event I → option X) (gone : A → bool).
Context (g : responder J V U Q) (obs' : event J → option Y) (gone' : B → bool).
Abbreviation duplex_step := (duplex_step f obs gone g obs' gone').

Lemma duplex_left r l l' :
  rtc (λ h h', half_step f obs (view_of gone' r) h = Some h') l l' → rtc duplex_step (l, r) (l', r).
Proof.
  induction 1 as [l|l l1 l' H1 _ IH]; [apply rtc_refl|]. eapply rtc_l; [by constructor|exact IH].
Qed.

Lemma duplex_right l r r' :
  rtc (λ h h', half_step g obs' (view_of gone l) h = Some h') r r' → rtc duplex_step (l, r) (l, r').
Proof.
  induction 1 as [r|r r1 r' H1 _ IH]; [apply rtc_refl|]. eapply rtc_l; [by constructor|exact IH].
Qed.
End both.
