(* ===== verification/RustStr.v ===== *)
(** * RustStr.v: the [str] operations the sources use

    A [&str] or [String] is a Rocq [string] read as its UTF-8 bytes; the type's
    own invariant is [utf8] below. Splitting at an ASCII character acts on bytes
    exactly as it acts on characters. *)

From S2P Require Import Prelude.
From Stdlib Require Import Ascii.

Open Scope string_scope.

(** ** Splitting and matching *)

(** [s.split(c)]: at least one piece. *)
Fixpoint split (c : ascii) (s : string) : list string :=
  match s with
  | EmptyString => [""]
  | String a s' =>
      if Ascii.eqb a c then "" :: split c s'
      else match split c s' with
           | p :: ps => String a p :: ps
           | [] => [String a ""]
           end
  end.

(** [s.split(c).next()]. *)
Definition split_next (c : ascii) (s : string) : option string := head (split c s).

(** [s.split_once(c)]: at the first [c]. *)
Fixpoint split_once (c : ascii) (s : string) : option (string * string) :=
  match s with
  | EmptyString => None
  | String a s' =>
      if Ascii.eqb a c then Some ("", s')
      else match split_once c s' with
           | Some (p, q) => Some (String a p, q)
           | None => None
           end
  end.

(** [s.rsplit_once(c)]: at the last [c]. *)
Fixpoint rsplit_once (c : ascii) (s : string) : option (string * string) :=
  match s with
  | EmptyString => None
  | String a s' =>
      match rsplit_once c s' with
      | Some (p, q) => Some (String a p, q)
      | None => if Ascii.eqb a c then Some ("", s') else None
      end
  end.

(** [s.ends_with(t)]. *)
Fixpoint ends_with (s t : string) : bool :=
  String.eqb s t ||
  match s with EmptyString => false | String _ s' => ends_with s' t end.

Fixpoint contains_char (c : ascii) (s : string) : bool :=
  match s with
  | EmptyString => false
  | String a s' => Ascii.eqb a c || contains_char c s'
  end.

(** [s.chars().all(P)], on ASCII tests. *)
Fixpoint all_chars (P : ascii → bool) (s : string) : bool :=
  match s with EmptyString => true | String a s' => P a && all_chars P s' end.

(** Strips a literal prefix. *)
Fixpoint strip_prefix (p s : string) : option string :=
  match p, s with
  | EmptyString, _ => Some s
  | String a p', String b s' => if Ascii.eqb a b then strip_prefix p' s' else None
  | String _ _, EmptyString => None
  end.

(** [s.split_once("pat")] for a string pattern: the text before and after its
    first occurrence. *)
Fixpoint split_once_str (p s : string) : option (string * string) :=
  match strip_prefix p s with
  | Some rest => Some ("", rest)
  | None =>
      match s with
      | EmptyString => None
      | String a s' =>
          match split_once_str p s' with
          | Some (u, v) => Some (String a u, v)
          | None => None
          end
      end
  end.

(** [a.to_ascii_lowercase()] on one byte, and [s.eq_ignore_ascii_case(t)]. *)
Definition ascii_lower (a : ascii) : ascii :=
  let n := N_of_ascii a in
  if ((65 <=? n) && (n <=? 90))%N then ascii_of_N (n + 32) else a.
Fixpoint to_ascii_lowercase (s : string) : string :=
  match s with
  | EmptyString => ""
  | String a s' => String (ascii_lower a) (to_ascii_lowercase s')
  end.
Definition eq_ignore_ascii_case (s t : string) : bool :=
  String.eqb (to_ascii_lowercase s) (to_ascii_lowercase t).

(** ** UTF-8 *)

Definition in_range (lo hi : Z) (b : byte) : bool :=
  (lo <=? byte_to_Z b)%Z && (byte_to_Z b <=? hi)%Z.
Definition utf8_cont (b : byte) : bool := in_range 128 191 b.

(** Well-formed UTF-8 (no overlong forms, no surrogates, at most U+10FFFF). *)
Fixpoint utf8_valid (l : bytes) : bool :=
  match l with
  | [] => true
  | b0 :: r0 =>
      if in_range 0 127 b0 then utf8_valid r0
      else match r0 with
      | [] => false
      | b1 :: r1 =>
          if in_range 194 223 b0 then utf8_cont b1 && utf8_valid r1
          else match r1 with
          | [] => false
          | b2 :: r2 =>
              if in_range 224 239 b0 then
                (if in_range 224 224 b0 then in_range 160 191 b1
                 else if in_range 237 237 b0 then in_range 128 159 b1
                 else utf8_cont b1)
                && utf8_cont b2 && utf8_valid r2
              else match r2 with
              | [] => false
              | b3 :: r3 =>
                  in_range 240 244 b0
                  && (if in_range 240 240 b0 then in_range 144 191 b1
                      else if in_range 244 244 b0 then in_range 128 143 b1
                      else utf8_cont b1)
                  && utf8_cont b2 && utf8_cont b3 && utf8_valid r3
              end
          end
      end
  end.

(** [std::str::from_utf8] / [String::from_utf8]. *)
Definition from_utf8 (l : bytes) : option string :=
  if utf8_valid l then Some (of_bytes l) else None.

(** The UTF-8 forms of the characters with [char::is_whitespace]. *)
Definition spaces : list bytes :=
  [[x09]; [x0a]; [x0b]; [x0c]; [x0d]; [x20]; [xc2; x85]; [xc2; xa0]; [xe1; x9a; x80]] ++
  ((λ b, [xe2; x80; b]) <$>
     [x80; x81; x82; x83; x84; x85; x86; x87; x88; x89; x8a; xa8; xa9; xaf]) ++
  [[xe2; x81; x9f]; [xe3; x80; x80]].

(** What follows the first of [ps] that [l] starts with. *)
Fixpoint strip_any (ps : list bytes) (l : bytes) : option bytes :=
  match ps with
  | [] => None
  | p :: ps =>
      if bool_decide (take (length p) l = p) then Some (drop (length p) l) else strip_any ps l
  end.

(** A white space character at the front of the text, and at its end, given reversed. *)
Definition strip_space : bytes → option bytes := strip_any spaces.
Definition strip_space_rev : bytes → option bytes := strip_any (rev (A := byte) <$> spaces).

Fixpoint strip_all (strip : bytes → option bytes) (fuel : nat) (l : bytes) : bytes :=
  match fuel with
  | O => l
  | S fuel => match strip l with Some r => strip_all strip fuel r | None => l end
  end.

(** [s.trim()]; a strip removes at least a byte, so the length is fuel enough. *)
Definition trim (s : string) : string :=
  let l := strip_all strip_space (String.length s) (as_bytes s) in
  of_bytes (rev (strip_all strip_space_rev (length l) (rev l))).

(** The invariant of Rust's [String]. *)
Definition utf8 (s : string) : Prop := utf8_valid (as_bytes s) = true.

#[export] Instance utf8_dec s : Decision (utf8 s).
Proof. unfold utf8. apply _. Defined.

(** ** Lemmas *)

Lemma append_nil_r s : s +:+ "" = s.
Proof. induction s as [|a s IH]; simpl; [done|]. by rewrite IH. Qed.

Lemma append_assoc s t u : s +:+ (t +:+ u) = (s +:+ t) +:+ u.
Proof. induction s as [|a s IH]; simpl; [done|]. by rewrite IH. Qed.

Lemma all_chars_contains P c s :
  all_chars P s = true → P c = false → contains_char c s = false.
Proof.
  intros Hs Hc. induction s as [|a s IH]; simpl in *; [done|].
  apply andb_true_iff in Hs as [Ha Hs]. rewrite (IH Hs), orb_false_r.
  destruct (Ascii.eqb_spec a c); [congruence|done].
Qed.

Lemma all_chars_app P s t : all_chars P (s +:+ t) = all_chars P s && all_chars P t.
Proof. induction s as [|a s IH]; simpl; [done|]. by rewrite IH, andb_assoc. Qed.

Lemma split_nonempty c s : split c s ≠ [].
Proof. destruct s as [|a s]; simpl; [done|]. repeat case_match; done. Qed.

(** [split(c).next()] never fails: the [?] after it in the sources is inert. *)
Lemma split_next_is_Some c s : is_Some (split_next c s).
Proof.
  unfold split_next. destruct (split c s) eqn:E; [by apply split_nonempty in E|].
  simpl. eauto.
Qed.

Lemma split_next_cases c s :
  split_next c s = Some (match split_once c s with Some (p, _) => p | None => s end).
Proof.
  unfold split_next. induction s as [|a s IH]; [done|]. simpl.
  destruct (Ascii.eqb a c); [done|].
  destruct (split c s) as [|p ps] eqn:E; [by apply split_nonempty in E|].
  simpl in *. destruct (split_once c s) as [[? ?]|]; by simplify_eq.
Qed.

Lemma split_once_Some c s p q :
  split_once c s = Some (p, q) →
  s = p +:+ String c q ∧ contains_char c p = false.
Proof.
  revert p q. induction s as [|a s IH]; intros p q; simpl; [done|].
  destruct (Ascii.eqb a c) eqn:E.
  - intros [= <- <-]. apply Ascii.eqb_eq in E as ->. done.
  - destruct (split_once c s) as [[p' q']|] eqn:E'; [|done].
    intros [= <- <-]. destruct (IH p' q' eq_refl) as [-> H]. simpl.
    rewrite E, H. done.
Qed.

Lemma split_once_app c p q :
  contains_char c p = false → split_once c (p +:+ String c q) = Some (p, q).
Proof.
  induction p as [|a p IH]; simpl; intros H.
  - by rewrite Ascii.eqb_refl.
  - apply orb_false_iff in H as [-> H]. by rewrite IH.
Qed.

Lemma split_once_None c s : split_once c s = None ↔ contains_char c s = false.
Proof.
  induction s as [|a s IH]; simpl; [done|].
  destruct (Ascii.eqb a c); simpl; [done|].
  rewrite <-IH. destruct (split_once c s) as [[]|]; done.
Qed.

(** The first label of [id.rest] is [id]. *)
Lemma split_next_app c p q :
  contains_char c p = false → split_next c (p +:+ String c q) = Some p.
Proof. intros H. by rewrite split_next_cases, split_once_app. Qed.

Lemma split_next_no_char c s p : split_next c s = Some p → contains_char c p = false.
Proof.
  rewrite split_next_cases. intros [= <-].
  destruct (split_once c s) as [[p q]|] eqn:E.
  - by apply split_once_Some in E as [_ ?].
  - by apply split_once_None.
Qed.

Lemma rsplit_once_app c p q :
  contains_char c q = false → rsplit_once c (p +:+ String c q) = Some (p, q).
Proof.
  intros H. assert (Hq : rsplit_once c q = None).
  { clear p. induction q as [|a q IH]; simpl in *; [done|].
    apply orb_false_iff in H as [-> H]. by rewrite IH. }
  induction p as [|a p IH]; simpl.
  - rewrite Hq, Ascii.eqb_refl. done.
  - by rewrite IH.
Qed.

Lemma ends_with_app p q : ends_with (p +:+ q) q = true.
Proof.
  induction p as [|a p IH]; simpl.
  - destruct q; simpl; [done|]. by rewrite Ascii.eqb_refl, String.eqb_refl.
  - rewrite IH. apply orb_true_r.
Qed.

Lemma ends_with_spec s t : ends_with s t = true ↔ ∃ p, s = p +:+ t.
Proof.
  split; [|intros [p ->]; apply ends_with_app].
  induction s as [|a s IH].
  - destruct t; [by exists ""|done].
  - change (ends_with (String a s) t) with (String.eqb (String a s) t || ends_with s t).
    intros [H%String.eqb_eq|H]%orb_true_iff; [by exists ""|].
    destruct (IH H) as [p ->]. by exists (String a p).
Qed.

Lemma from_utf8_as_bytes s : utf8 s → from_utf8 (as_bytes s) = Some s.
Proof. unfold from_utf8, utf8. intros ->. by rewrite of_as_bytes. Qed.

Lemma from_utf8_Some l s : from_utf8 l = Some s → l = as_bytes s ∧ utf8 s.
Proof.
  unfold from_utf8, utf8. case_match; [|done]. intros [= <-].
  by rewrite as_of_bytes.
Qed.

#[export] Hint Resolve split_next_is_Some from_utf8_as_bytes ends_with_app : tunnel.
