(* ===== verification/RustNet.v ===== *)
(** * RustNet.v: [std::net] addresses as text

    [str::parse] for [IpAddr] and [SocketAddr], the parts of [std::net] whose outcome
    the sources branch on ([server_name_from_addr], [run_until]): the standard
    library's recursive descent parser, reader by reader. A reader takes what is left of the input; on failure it
    leaves it untouched ([read_atomically]). *)

From S2P Require Import Prelude RustStr.
From Stdlib Require Import Ascii.
Open Scope string_scope.
Open Scope Z_scope.
Open Scope list_scope.

Inductive IpAddr :=
| V4 (octets : list Z)
| V6 (groups : list Z).

(** ** Readers *)

Abbreviation reader A := (string → option (A * string)).

(** [char::to_digit(radix)] for radix at most 16. *)
Definition to_digit (radix : Z) (c : ascii) : option Z :=
  let n := Z.of_N (N_of_ascii c) in
  let d := if (48 <=? n) && (n <=? 57) then n - 48
           else if (97 <=? n) && (n <=? 102) then n - 87
           else if (65 <=? n) && (n <=? 70) then n - 55
           else 16 in
  if d <? radix then Some d else None.

Definition read_given_char (c : ascii) : reader unit := λ s,
  match s with
  | String a s' => if Ascii.eqb a c then Some (tt, s') else None
  | EmptyString => None
  end.

(** The digits at the head of the input: their value (continuing from [acc]), their
    number and the rest. *)
Fixpoint read_digits (radix acc : Z) (s : string) : Z * nat * string :=
  match s with
  | EmptyString => (acc, 0%nat, s)
  | String a s' =>
      match to_digit radix a with
      | Some d =>
          let '(v, n, rest) := read_digits radix (acc * radix + d) s' in (v, S n, rest)
      | None => (acc, 0%nat, s)
      end
  end.

Definition peeks (c : ascii) (s : string) : bool :=
  match s with String a _ => Ascii.eqb a c | EmptyString => false end.

(** [read_number::<T>(radix, Some(max_digits), allow_zero_prefix)], [T::MAX] given. *)
Definition read_number (radix : Z) (max_digits : nat) (allow_zero_prefix : bool) (t_max : Z) :
    reader Z := λ s,
  let has_leading_zero := peeks "0" s in
  let '(v, n, rest) := read_digits radix 0 s in
  if bool_decide (max_digits < n)%nat then None
  else if bool_decide (n = 0%nat) then None
  else if negb allow_zero_prefix && has_leading_zero && bool_decide (1 < n)%nat then None
  else if v <=? t_max then Some (v, rest) else None.

(** [read_separator(sep, index, inner)]: the separator goes before all but the first. *)
Definition read_separator {A} (sep : ascii) (index : nat) (inner : reader A) : reader A := λ s,
  match index with
  | O => inner s
  | S _ => '(_, s') ← read_given_char sep s; inner s'
  end.

(** [n] more octets, the first of them at [index]. *)
Fixpoint read_octets (n index : nat) : reader (list Z) := λ s,
  match n with
  | O => Some ([], s)
  | S n =>
      '(o, s) ← read_separator "." index (read_number 10 3 false 255) s;
      '(os, s) ← read_octets n (S index) s;
      Some (o :: os, s)
  end.

Definition read_ipv4_addr : reader (list Z) := read_octets 4 0.

(** [u16::from_be_bytes] of each half. *)
Definition v4_groups (octets : list Z) : list Z :=
  match octets with
  | [a; b; c; d] => [a * 256 + b; c * 256 + d]
  | _ => []
  end.

(** [read_groups] on [n] slots from [index] on: the groups read, and whether they end in
    an embedded IPv4 address, which needs two slots. *)
Fixpoint read_groups (n index : nat) (s : string) : list Z * bool * string :=
  match n with
  | O => ([], false, s)
  | S n =>
      match (if bool_decide (0 < n)%nat then read_separator ":" index read_ipv4_addr s else None) with
      | Some (octets, s) => (v4_groups octets, true, s)
      | None =>
          match read_separator ":" index (read_number 16 4 true 65535) s with
          | Some (g, s) =>
              let '(gs, v4, s) := read_groups n (S index) s in (g :: gs, v4, s)
          | None => ([], false, s)
          end
      end
  end.

Definition read_ipv6_addr : reader (list Z) := λ s,
  let '(head, head_ipv4, s) := read_groups 8 0 s in
  if bool_decide (length head = 8%nat) then Some (head, s)
  else if head_ipv4 : bool then None
  else
    '(_, s) ← read_given_char ":" s;
    '(_, s) ← read_given_char ":" s;
    let '(tail, _, s) := read_groups (7 - length head) 0 s in
    Some (head ++ replicate (8 - length head - length tail) 0 ++ tail, s).

Definition read_ip_addr : reader IpAddr := λ s,
  match read_ipv4_addr s with
  | Some (o, s) => Some (V4 o, s)
  | None => '(g, s) ← read_ipv6_addr s; Some (V6 g, s)
  end.

(** [s.parse::<IpAddr>().ok()]. *)
Definition parse_ip_addr (s : string) : option IpAddr :=
  '(ip, rest) ← read_ip_addr s;
  if bool_decide (rest = "") then Some ip else None.

(** [SocketAddr]: the scope id of an IPv6 address is 0 when absent. *)
Inductive SocketAddr :=
| SockV4 (octets : list Z) (port : Z)
| SockV6 (groups : list Z) (scope port : Z).

(** [read_number(10, None, true)] has no digit limit. *)
Definition read_unlimited (t_max : Z) : reader Z := λ s,
  read_number 10 (String.length s) true t_max s.

Definition read_port : reader Z := λ s,
  '(_, s) ← read_given_char ":" s; read_unlimited 65535 s.

Definition read_scope_id : reader Z := λ s,
  '(_, s) ← read_given_char "%" s; read_unlimited 4294967295 s.

Definition read_socket_addr_v4 : reader SocketAddr := λ s,
  '(o, s) ← read_ipv4_addr s;
  '(p, s) ← read_port s;
  Some (SockV4 o p, s).

Definition read_socket_addr_v6 : reader SocketAddr := λ s,
  '(_, s) ← read_given_char "[" s;
  '(g, s) ← read_ipv6_addr s;
  let '(scope, s) := default (0, s) (read_scope_id s) in
  '(_, s) ← read_given_char "]" s;
  '(p, s) ← read_port s;
  Some (SockV6 g scope p, s).

(** [s.parse::<SocketAddr>().ok()]. *)
Definition parse_socket_addr (s : string) : option SocketAddr :=
  '(a, rest) ← match read_socket_addr_v4 s with
               | Some r => Some r
               | None => read_socket_addr_v6 s
               end;
  if bool_decide (rest = "") then Some a else None.

Example parse_socket_v4 : parse_socket_addr "0.0.0.0:4433" = Some (SockV4 [0; 0; 0; 0] 4433).
Proof. vm_compute. reflexivity. Qed.
Example parse_socket_v6 : parse_socket_addr "[::1%2]:65535" = Some (SockV6 [0; 0; 0; 0; 0; 0; 0; 1] 2 65535).
Proof. vm_compute. reflexivity. Qed.
Example parse_socket_no_brackets : parse_socket_addr ":::4433" = None.
Proof. vm_compute. reflexivity. Qed.
Example parse_socket_big_port : parse_socket_addr "0.0.0.0:65536" = None.
Proof. vm_compute. reflexivity. Qed.

Example parse_loopback : parse_ip_addr "127.0.0.1" = Some (V4 [127; 0; 0; 1]).
Proof. vm_compute. reflexivity. Qed.
Example parse_no_octal : parse_ip_addr "127.0.0.01" = None.
Proof. vm_compute. reflexivity. Qed.
Example parse_v6 : parse_ip_addr "2001:db8::1" = Some (V6 [8193; 3512; 0; 0; 0; 0; 0; 1]).
Proof. vm_compute. reflexivity. Qed.
Example parse_v6_mapped :
  parse_ip_addr "::ffff:10.0.0.1" = Some (V6 [0; 0; 0; 0; 0; 65535; 2560; 1]).
Proof. vm_compute. reflexivity. Qed.
Example parse_bracketed : parse_ip_addr "[::1]" = None.
Proof. vm_compute. reflexivity. Qed.

(** ** What a parsed address is made of *)

Definition is_ip_char (c : ascii) : bool :=
  match to_digit 16 c with Some _ => true | None => Ascii.eqb c "." || Ascii.eqb c ":" end.

(** The reader consumes a prefix of address characters. *)
Definition consumed (s rest : string) : Prop :=
  ∃ p, s = p +:+ rest ∧ all_chars is_ip_char p = true.

Definition consumes {A} (r : reader A) : Prop :=
  ∀ s a rest, r s = Some (a, rest) → consumed s rest.

Lemma consumed_refl s : consumed s s.
Proof. by exists "". Qed.

Lemma consumed_trans s t u : consumed s t → consumed t u → consumed s u.
Proof.
  intros (p & -> & Hp) (q & -> & Hq). exists (p +:+ q).
  by rewrite append_assoc, all_chars_app, Hp, Hq.
Qed.

Lemma consumed_char c s : is_ip_char c = true → consumed (String c s) s.
Proof. intros Hc. exists (String c ""). simpl. by rewrite Hc. Qed.

Lemma consumes_given_char c : is_ip_char c = true → consumes (read_given_char c).
Proof.
  intros Hc [|a s] ? rest; simpl; [done|]. destruct (Ascii.eqb_spec a c) as [->|]; [|done].
  intros [= _ <-]. by apply consumed_char.
Qed.

Lemma to_digit_16 radix c d : radix ≤ 16 → to_digit radix c = Some d → is_ip_char c = true.
Proof.
  unfold is_ip_char, to_digit. intros Hr. repeat case_match; try done; lia.
Qed.

Lemma consumed_digits radix acc s v n rest :
  radix ≤ 16 → read_digits radix acc s = (v, n, rest) → consumed s rest.
Proof.
  intros Hr. revert acc v n. induction s as [|a s IH]; intros acc v n; simpl.
  - intros [= _ _ <-]. apply consumed_refl.
  - destruct (to_digit radix a) as [d|] eqn:Hd; [|intros [= _ _ <-]; apply consumed_refl].
    destruct (read_digits radix (acc * radix + d) s) as [[v' n'] rest'] eqn:E.
    intros [= _ _ <-]. eapply consumed_trans; [|by eapply IH].
    apply consumed_char. by eapply to_digit_16.
Qed.

Lemma consumes_number radix max z t : radix ≤ 16 → consumes (read_number radix max z t).
Proof.
  intros Hr s v rest. unfold read_number.
  destruct (read_digits radix 0 s) as [[v' n] rest'] eqn:E.
  repeat case_match; try done. intros [= _ <-]. by eapply consumed_digits.
Qed.

Lemma consumes_separator {A} c i (r : reader A) :
  is_ip_char c = true → consumes r → consumes (read_separator c i r).
Proof.
  intros Hc Hr s a rest. destruct i as [|i]; cbn [read_separator]; [apply Hr|].
  destruct (read_given_char c s) as [[u s']|] eqn:E; [|done]. simpl. intros H.
  eapply consumed_trans; [by eapply consumes_given_char|by eapply Hr].
Qed.

Lemma consumes_octets n i : consumes (read_octets n i).
Proof.
  revert i. induction n as [|n IH]; intros i s os rest; cbn [read_octets].
  - intros [= _ <-]. apply consumed_refl.
  - destruct (read_separator _ _ _ s) as [[o s1]|] eqn:E; [|done]. simpl.
    destruct (read_octets n (S i) s1) as [[os' s2]|] eqn:E'; [|done]. simpl.
    intros [= _ <-]. eapply consumed_trans; [|by eapply IH].
    eapply (consumes_separator "." i _ eq_refl); [|exact E]. by apply consumes_number.
Qed.

Lemma consumed_groups n i s gs v4 rest : read_groups n i s = (gs, v4, rest) → consumed s rest.
Proof.
  revert i s gs v4. induction n as [|n IH]; intros i s gs v4; cbn [read_groups].
  - intros [= _ _ <-]. apply consumed_refl.
  - destruct (if bool_decide (0 < n)%nat then _ else None) as [[os s1]|] eqn:E4.
    { intros [= _ _ <-]. case_bool_decide; [|done].
      eapply (consumes_separator ":" i _ eq_refl); [|exact E4]. apply consumes_octets. }
    destruct (read_separator ":" i (read_number 16 4 true 65535) s) as [[g s1]|] eqn:E.
    + destruct (read_groups n (S i) s1) as [[gs' v4'] s2] eqn:E'. intros [= _ _ <-].
      eapply consumed_trans; [|by eapply IH].
      eapply (consumes_separator ":" i _ eq_refl); [|exact E]. by apply consumes_number.
    + intros [= _ _ <-]. apply consumed_refl.
Qed.

Lemma consumes_ipv6 : consumes read_ipv6_addr.
Proof.
  intros s a rest. unfold read_ipv6_addr.
  destruct (read_groups 8 0 s) as [[hd v4] s1] eqn:E1. apply consumed_groups in E1.
  case_bool_decide; [by intros [= _ <-]|]. destruct v4; [done|].
  destruct (read_given_char ":" s1) as [[u s2]|] eqn:E2; [|done]. cbn.
  destruct (read_given_char ":" s2) as [[u' s3]|] eqn:E3; [|done]. cbn.
  apply consumes_given_char in E2; [|done]. apply consumes_given_char in E3; [|done].
  destruct (read_groups (7 - length hd) 0 s3) as [[tl v] s4] eqn:E4. apply consumed_groups in E4.
  intros [= _ <-]. eauto using consumed_trans.
Qed.

(** An address is made of hexadecimal digits, dots and colons only. *)
Lemma parse_ip_addr_chars s ip :
  parse_ip_addr s = Some ip → all_chars is_ip_char s = true.
Proof.
  unfold parse_ip_addr, read_ip_addr. intros E.
  assert (∃ a, consumed s "" ∧ a = ip) as (_ & (p & -> & Hp) & _).
  { destruct (read_ipv4_addr s) as [[o r]|] eqn:E4; cbn in E.
    - case_bool_decide as Hr; simplify_eq. apply consumes_octets in E4. eauto.
    - destruct (read_ipv6_addr s) as [[g r]|] eqn:E6; [|done]. cbn in E.
      case_bool_decide as Hr; simplify_eq. apply consumes_ipv6 in E6. eauto. }
  by rewrite append_nil_r.
Qed.

(** ** Dotted quads

    [Ipv4Addr]'s [Display], and that it parses back. *)

Definition digit_char (d : Z) : ascii := ascii_of_N (Z.to_N (48 + d)).

(** [u8]'s [Display]. *)
Definition show_octet (n : Z) : string :=
  if n <? 10 then String (digit_char n) ""
  else if n <? 100 then String (digit_char (n / 10)) (String (digit_char (n mod 10)) "")
  else String (digit_char (n / 100))
         (String (digit_char (n / 10 mod 10)) (String (digit_char (n mod 10)) "")).

Definition show_ipv4 (a b c d : Z) : string :=
  show_octet a +:+ "." +:+ show_octet b +:+ "." +:+ show_octet c +:+ "." +:+ show_octet d.

(** The input does not go on with a digit. *)
Definition stops (radix : Z) (s : string) : Prop :=
  match s with EmptyString => True | String a _ => to_digit radix a = None end.

Lemma read_digits_stops radix acc rest :
  stops radix rest → read_digits radix acc rest = (acc, 0%nat, rest).
Proof. destruct rest as [|a rest]; simpl; [done|]. by intros ->. Qed.

(** The text of an octet reads back, whatever follows it. *)
Definition octet_ok (n : Z) : bool :=
  let s := show_octet n in
  let '(v, k, rest) := read_digits 10 0 s in
  (v =? n) && bool_decide (k = String.length s) && bool_decide (rest = "") &&
  bool_decide (k ≤ 3)%nat && negb (bool_decide (k = 0%nat)) &&
  negb (peeks "0" s && bool_decide (1 < k)%nat).

Lemma octets_ok : forallb (λ n, octet_ok (Z.of_nat n)) (seq 0 256) = true.
Proof. vm_compute. reflexivity. Qed.

Lemma read_digits_app radix acc s rest v k :
  read_digits radix acc s = (v, k, "") → stops radix rest →
  read_digits radix acc (s +:+ rest) = (v, k, rest).
Proof.
  intros E Hr. revert acc v k E. induction s as [|a s IH]; intros acc v k; simpl.
  - intros [= <- <-]. by apply read_digits_stops.
  - destruct (to_digit radix a) as [d|]; [|done].
    destruct (read_digits radix (acc * radix + d) s) as [[v' k'] r'] eqn:E.
    intros [= <- <- ->]. by rewrite (IH _ _ _ E).
Qed.

Lemma read_show_octet n rest :
  0 ≤ n < 256 → stops 10 rest →
  read_number 10 3 false 255 (show_octet n +:+ rest) = Some (n, rest).
Proof.
  intros Hn Hr. pose proof octets_ok as H. rewrite forallb_forall in H.
  specialize (H (Z.to_nat n) ltac:(apply in_seq; lia)). rewrite Z2Nat.id in H by lia.
  unfold octet_ok in H. destruct (read_digits 10 0 (show_octet n)) as [[v k] r] eqn:E.
  apply andb_true_iff in H as [H Hz]. apply andb_true_iff in H as [H Hk0].
  apply andb_true_iff in H as [H Hk3]. apply andb_true_iff in H as [H Hrest].
  apply andb_true_iff in H as [Hv Hk]. apply Z.eqb_eq in Hv as ->.
  apply bool_decide_eq_true in Hrest as ->, Hk3, Hk. apply negb_true_iff in Hz, Hk0.
  unfold read_number. rewrite (read_digits_app _ _ _ _ _ _ E Hr).
  apply bool_decide_eq_false in Hk0.
  assert (Hp : peeks "0" (show_octet n +:+ rest) = peeks "0" (show_octet n)).
  { destruct (show_octet n); [simpl in Hk; lia|done]. }
  rewrite Hp, bool_decide_eq_false_2 by lia. rewrite bool_decide_eq_false_2 by done.
  cbn [negb andb]. rewrite Hz. by rewrite (proj2 (Z.leb_le n 255)) by lia.
Qed.

(** A printed IPv4 address parses to itself. *)
Lemma parse_show_ipv4 a b c d :
  0 ≤ a < 256 → 0 ≤ b < 256 → 0 ≤ c < 256 → 0 ≤ d < 256 →
  parse_ip_addr (show_ipv4 a b c d) = Some (V4 [a; b; c; d]).
Proof.
  intros Ha Hb Hc Hd. unfold parse_ip_addr, read_ip_addr, read_ipv4_addr, show_ipv4.
  cbn [read_octets read_separator]. rewrite read_show_octet by done. cbn.
  rewrite read_show_octet by done. cbn. rewrite read_show_octet by done. cbn.
  rewrite <-(append_nil_r (show_octet d)), read_show_octet by done. cbn. done.
Qed.
