(* ===== verification/Framing.v ===== *)
(** * Framing.v: tunnel-common/src/lib.rs

    The control-frame codec ([ctrl_read], [ctrl_write]), bounded collection of
    an H2 control body, the H2 stream adapters ([H2Send], [H2Recv]) and the PING
    liveness loop. *)

From S2P Require Import Prelude.

(** ** Constants *)

Definition REJECT_UNAUTHORIZED : Z := 1.
Definition CLOSE_TIMEOUT : Z := 2.
Definition CTRL_REJECT_PATH : string := "/_ctrl/reject".
Definition MAX_CTRL_FRAME : Z := 4096.

Definition H2_PING_INTERVAL : Z := from_secs 10.
Definition H2_PING_TIMEOUT : Z := from_secs 20.
Definition H2_DATA_STREAM_WINDOW : Z := 10000000.
Definition H2_DATA_CONN_WINDOW : Z := 10000000.
Definition QUIC_KEEP_ALIVE_INTERVAL : Z := from_secs 10.
Definition QUIC_MAX_IDLE_TIMEOUT : Z :=
  from_secs (as_secs H2_PING_INTERVAL + as_secs H2_PING_TIMEOUT).

(** ** Big-endian lengths *)

(** [(z as u32).to_be_bytes()]. *)
Definition u32_to_be_bytes (z : Z) : bytes :=
  [byte_of_Z (Z.shiftr z 24); byte_of_Z (Z.shiftr z 16);
   byte_of_Z (Z.shiftr z 8); byte_of_Z z].

(** [u32::from_be_bytes]. *)
Definition u32_from_be_bytes (l : bytes) : Z :=
  foldl (λ acc b, Z.lor (Z.shiftl acc 8) (byte_to_Z b)) 0 l.

(** ** Control frames *)

(** Transport failures ([std::io::Error]) are kept as a kind only. *)
Inductive io_error := UnexpectedEof | BrokenPipe.

(** [io_err(e)]: a [BrokenPipe] that carries [e]; nothing reads what it carries. *)
Definition io_err {E} (_ : E) : io_error := BrokenPipe.

Inductive ctrl_error :=
| CtrlIo (e : io_error)
| CtrlTooLong (len : Z)     (** exceeds [MAX_CTRL_FRAME] *)
| CtrlAlloc (len : Z).      (** [try_reserve_exact] failed *)

#[export] Instance io_error_eq_dec : EqDecision io_error.
Proof. solve_decision. Defined.
#[export] Instance ctrl_error_eq_dec : EqDecision ctrl_error.
Proof. solve_decision. Defined.

Section ctrl.
(** Any reader or writer: the monad is the one its calls live in. *)
Context {M : Type → Type} `{MRet M, MBind M}.

(** [try_reserve] answers [Vec::try_reserve_exact]. *)
Definition ctrl_read (try_reserve : Z → bool)
    (read_exact : nat → M (result io_error bytes)) : M (result ctrl_error bytes) :=
  r ← read_exact 4%nat;
  match r with
  | Err e => mret (Err (CtrlIo e))
  | Ok len_buf =>
      let len := u32_from_be_bytes len_buf in
      if MAX_CTRL_FRAME <? len then mret (Err (CtrlTooLong len))
      else if negb (try_reserve len) then mret (Err (CtrlAlloc len))
      else
        r ← read_exact (Z.to_nat len);
        match r with
        | Err e => mret (Err (CtrlIo e))
        | Ok buf => mret (Ok buf)
        end
  end.

Definition ctrl_write (write_all : bytes → M (result io_error unit))
    (data : bytes) : M (result ctrl_error unit) :=
  if Z.of_nat (length data) <=? MAX_CTRL_FRAME then
    r ← write_all (u32_to_be_bytes (Z.of_nat (length data)));
    match r with
    | Err e => mret (Err (CtrlIo e))
    | Ok _ =>
        r ← write_all data;
        match r with
        | Err e => mret (Err (CtrlIo e))
        | Ok _ => mret (Ok tt)
        end
    end
  else mret (Err (CtrlTooLong (Z.of_nat (length data)))).
End ctrl.

(** An in-memory reader: the bytes the peer delivers before the stream ends. *)
Definition mem_read_exact (n : nat) : state bytes (result io_error bytes) := λ r,
  if decide (n ≤ length r)%nat then (Ok (take n r), drop n r)
  else (Err UnexpectedEof, []).

(** An in-memory writer: what was written, and how much more it takes before the
    pipe breaks ([None]: without bound). *)
Record writer := Writer { w_out : bytes; w_room : option nat }.

Definition mem_write_all (d : bytes) : state writer (result io_error unit) := λ w,
  match w_room w with
  | None => (Ok tt, Writer (w_out w ++ d) None)
  | Some room =>
      if decide (length d ≤ room)%nat
      then (Ok tt, Writer (w_out w ++ d) (Some (room - length d)%nat))
      else (Err BrokenPipe, Writer (w_out w ++ take room d) (Some 0%nat))
  end.

(** The frame of [data] on the wire. *)
Definition frame (data : bytes) : bytes :=
  u32_to_be_bytes (Z.of_nat (length data)) ++ data.

(** ** Codec lemmas *)

Lemma length_u32_to_be_bytes z : length (u32_to_be_bytes z) = 4%nat.
Proof. done. Qed.

Lemma shl_lor_byte acc b : 0 ≤ acc →
  Z.lor (Z.shiftl acc 8) (byte_to_Z b) = acc * 256 + byte_to_Z b.
Proof.
  intros Hacc. pose proof (byte_to_Z_range b) as Hb.
  rewrite Z.shiftl_mul_pow2 by lia. symmetry. apply Z.add_nocarry_lor.
  apply Z.bits_inj'; intros i Hi. rewrite Z.land_spec, Z.bits_0.
  destruct (Z.ltb_spec i 8); [by rewrite Z.mul_pow2_bits_low by lia|].
  rewrite <-(Z.mod_small (byte_to_Z b) (2 ^ 8)) by (change (2 ^ 8) with 256; lia).
  rewrite Z.mod_pow2_bits_high by lia. apply andb_false_r.
Qed.

Lemma u32_from_be_bytes_unfold b0 b1 b2 b3 :
  u32_from_be_bytes [b0; b1; b2; b3] =
  ((byte_to_Z b0 * 256 + byte_to_Z b1) * 256 + byte_to_Z b2) * 256 + byte_to_Z b3.
Proof.
  unfold u32_from_be_bytes. simpl. rewrite Z.shiftl_0_l, Z.lor_0_l.
  pose proof (byte_to_Z_range b0). pose proof (byte_to_Z_range b1).
  pose proof (byte_to_Z_range b2).
  rewrite (shl_lor_byte (byte_to_Z b0)) by lia.
  rewrite (shl_lor_byte (byte_to_Z b0 * 256 + _)) by lia.
  by rewrite shl_lor_byte by lia.
Qed.

Lemma u32_from_to_be z : 0 ≤ z ≤ U32_MAX → u32_from_be_bytes (u32_to_be_bytes z) = z.
Proof.
  intros Hz. unfold u32_to_be_bytes. rewrite u32_from_be_bytes_unfold, !byte_to_of_Z.
  rewrite !Z.shiftr_div_pow2 by lia. unfold U32_MAX in Hz.
  change (2 ^ 24) with 16777216. change (2 ^ 16) with 65536. change (2 ^ 8) with 256.
  change (2 ^ 32 - 1) with 4294967295 in Hz.
  pose proof (Z.div_mod z 256 ltac:(lia)). pose proof (Z.div_mod (z / 256) 256 ltac:(lia)).
  pose proof (Z.div_mod (z / 65536) 256 ltac:(lia)).
  assert (z / 256 / 256 = z / 65536) by (by rewrite Z.div_div by lia).
  assert (z / 65536 / 256 = z / 16777216) by (by rewrite Z.div_div by lia).
  rewrite (Z.mod_small (z / 16777216)); [lia|].
  split; [apply Z.div_pos; lia|]. apply Z.div_lt_upper_bound; lia.
Qed.

Lemma u32_from_be_bytes_range l :
  length l = 4%nat → 0 ≤ u32_from_be_bytes l ≤ U32_MAX.
Proof.
  intros Hl. destruct l as [|b0 [|b1 [|b2 [|b3 [|]]]]]; simplify_eq/=.
  rewrite u32_from_be_bytes_unfold. unfold U32_MAX. change (2 ^ 32 - 1) with 4294967295.
  pose proof (byte_to_Z_range b0). pose proof (byte_to_Z_range b1).
  pose proof (byte_to_Z_range b2). pose proof (byte_to_Z_range b3). lia.
Qed.

Lemma u32_to_from_be l : length l = 4%nat → u32_to_be_bytes (u32_from_be_bytes l) = l.
Proof.
  intros Hl. destruct l as [|b0 [|b1 [|b2 [|b3 [|]]]]]; simplify_eq/=.
  rewrite u32_from_be_bytes_unfold. unfold u32_to_be_bytes.
  pose proof (byte_to_Z_range b0). pose proof (byte_to_Z_range b1).
  pose proof (byte_to_Z_range b2). pose proof (byte_to_Z_range b3).
  assert (Hb : ∀ b z q, z = q * 256 + byte_to_Z b → byte_of_Z z = b).
  { intros b z q ->. pose proof (byte_to_Z_range b).
    rewrite <-(byte_of_to_Z b) at 2. unfold byte_of_Z.
    rewrite Z.add_comm, Z_mod_plus_full. done. }
  rewrite !Z.shiftr_div_pow2 by lia.
  change (2 ^ 24) with 16777216. change (2 ^ 16) with 65536. change (2 ^ 8) with 256.
  repeat f_equal.
  - apply (Hb _ _ 0). symmetry. apply Z.div_unique_pos
      with (r := (byte_to_Z b1 * 256 + byte_to_Z b2) * 256 + byte_to_Z b3); lia.
  - apply (Hb _ _ (byte_to_Z b0)). symmetry.
    apply Z.div_unique_pos with (r := byte_to_Z b2 * 256 + byte_to_Z b3); lia.
  - apply (Hb _ _ (byte_to_Z b0 * 256 + byte_to_Z b1)). symmetry.
    apply Z.div_unique_pos with (r := byte_to_Z b3); lia.
  - by eapply Hb.
Qed.

(** Reading what a whole frame starts with. *)
Lemma read_frame alloc data rest :
  Z.of_nat (length data) ≤ MAX_CTRL_FRAME → alloc (Z.of_nat (length data)) = true →
  ctrl_read alloc mem_read_exact (frame data ++ rest) = (Ok data, rest).
Proof.
  intros Hlen Ha. unfold MAX_CTRL_FRAME in Hlen.
  unfold ctrl_read, mbind, state_bind, frame, mem_read_exact at 1.
  rewrite <-app_assoc, decide_True by (rewrite length_app; simpl; lia).
  rewrite take_app_length' by done. rewrite drop_app_length' by done.
  rewrite u32_from_to_be by (unfold U32_MAX; lia).
  destruct (Z.ltb_spec MAX_CTRL_FRAME (Z.of_nat (length data))); [unfold MAX_CTRL_FRAME in *; lia|].
  rewrite Ha. simpl. unfold mem_read_exact. rewrite Nat2Z.id.
  rewrite decide_True by (rewrite length_app; lia).
  rewrite take_app_length, drop_app_length. done.
Qed.

(** What a successful read consumed is one whole frame. *)
Lemma read_frame_inv alloc r data rest :
  ctrl_read alloc mem_read_exact r = (Ok data, rest) →
  r = frame data ++ rest ∧ Z.of_nat (length data) ≤ MAX_CTRL_FRAME.
Proof.
  unfold ctrl_read, mbind, state_bind, mem_read_exact at 1.
  case_decide as H4; [|done]. set (len := u32_from_be_bytes (take 4 r)).
  destruct (Z.ltb_spec MAX_CTRL_FRAME len) as [|Hmax]; [done|].
  destruct (alloc len); [|done]. simpl. unfold mem_read_exact. case_decide as Hn; [|done].
  intros [= <- <-].
  assert (Hr : length (take 4 r) = 4%nat) by (rewrite length_take; lia).
  pose proof (u32_from_be_bytes_range _ Hr) as Hrange. fold len in Hrange.
  assert (Hlen : length (take (Z.to_nat len) (drop 4 r)) = Z.to_nat len)
    by (rewrite length_take; lia).
  unfold frame. rewrite Hlen, Z2Nat.id by lia. split; [|lia].
  change (r = u32_to_be_bytes len ++ take (Z.to_nat len) (drop 4 r) ++ drop (Z.to_nat len) (drop 4 r)).
  rewrite take_drop. unfold len. rewrite u32_to_from_be by done.
  by rewrite take_drop.
Qed.

Lemma write_frame w data :
  w_room w = None → Z.of_nat (length data) ≤ MAX_CTRL_FRAME →
  ctrl_write mem_write_all data w = (Ok tt, Writer (w_out w ++ frame data) None).
Proof.
  intros Hw Hlen. unfold ctrl_write.
  destruct (Z.leb_spec (Z.of_nat (length data)) MAX_CTRL_FRAME); [|lia].
  unfold mbind, state_bind, mem_write_all. rewrite Hw. simpl.
  unfold frame. by rewrite <-app_assoc.
Qed.

(** ** Bounded H2 bodies *)

(** What [h2::RecvStream::data] yields in turn; the end of the list is [None]. *)
Abbreviation h2_body := (list (result io_error bytes)).

(** [collect_h2_body]: the body, and the flow-control capacity released. *)
Inductive body_error :=
| BodyIo (e : io_error)
| BodyTooLong (max : Z).

Fixpoint collect_loop (max : Z) (buf : bytes) (released : Z) (body : h2_body)
    : result body_error bytes * Z :=
  match body with
  | [] => (Ok buf, released)
  | Err e :: _ => (Err (BodyIo e), released)
  | Ok chunk :: rest =>
      if max <? Z.of_nat (length buf) + Z.of_nat (length chunk)
      then (Err (BodyTooLong max), released)
      else collect_loop max (buf ++ chunk) (released + Z.of_nat (length chunk)) rest
  end.

Definition collect_h2_body (body : h2_body) (max : Z) : result body_error bytes * Z :=
  collect_loop max [] 0 body.

Lemma collect_loop_spec max buf rel body :
  0 ≤ rel → Z.of_nat (length buf) ≤ max →
  match collect_loop max buf rel body with
  | (Ok b, r) => ∃ cs, body = Ok <$> cs ∧ b = buf ++ concat cs ∧
      Z.of_nat (length b) ≤ max ∧ r = rel + Z.of_nat (length (concat cs))
  | (Err e, r) => ∃ cs rest, body = (Ok <$> cs) ++ rest ∧
      Z.of_nat (length (buf ++ concat cs)) ≤ max ∧
      r = rel + Z.of_nat (length (concat cs)) ∧
      match rest with
      | Err io :: _ => e = BodyIo io
      | Ok c :: _ => e = BodyTooLong max ∧
          max < Z.of_nat (length (buf ++ concat cs ++ c))
      | [] => False
      end
  end.
Proof.
  revert buf rel. induction body as [|[c|e] body IH]; intros buf rel Hrel Hbuf; simpl.
  - exists []. simpl. rewrite app_nil_r. split_and!; (done || lia).
  - destruct (Z.ltb_spec max (Z.of_nat (length buf) + Z.of_nat (length c))).
    + exists [], (Ok c :: body). simpl. rewrite !app_nil_r, length_app. split_and!; (done || lia).
    + specialize (IH (buf ++ c) (rel + Z.of_nat (length c)) ltac:(lia)).
      rewrite length_app in IH. specialize (IH ltac:(lia)).
      destruct (collect_loop _ _ _ _) as [[b|e] r].
      * destruct IH as (cs & -> & -> & Hb & ->). exists (c :: cs). simpl.
        rewrite app_assoc, (length_app c). split_and!; (done || lia).
      * destruct IH as (cs & rest & -> & Hb & -> & Hr). exists (c :: cs), rest. simpl.
        rewrite (length_app c), <-!app_assoc in *. split_and!; [done|lia|lia|].
        destruct rest as [|[c'|e'] rest]; [done| |done].
        destruct Hr as [-> Hr]. split; [done|]. by rewrite !app_assoc in *.
  - exists [], (Err e :: body). simpl. rewrite app_nil_r. split_and!; (done || lia).
Qed.

(** A body that fits is returned whole. *)
Lemma collect_h2_body_complete chunks max :
  Z.of_nat (length (concat chunks)) ≤ max →
  collect_h2_body (Ok <$> chunks) max = (Ok (concat chunks), Z.of_nat (length (concat chunks))).
Proof.
  unfold collect_h2_body. intros Hmax.
  cut (∀ buf rel, Z.of_nat (length (buf ++ concat chunks)) ≤ max →
    collect_loop max buf rel (Ok <$> chunks)
      = (Ok (buf ++ concat chunks), rel + Z.of_nat (length (concat chunks)))).
  { intros H. by rewrite H. }
  clear Hmax. induction chunks as [|c cs IH]; intros buf rel Hmax; csimpl.
  - by rewrite app_nil_r, Z.add_0_r.
  - simpl in Hmax. rewrite !length_app in Hmax.
    destruct (Z.ltb_spec max (Z.of_nat (length buf) + Z.of_nat (length c))); [lia|].
    rewrite IH by (rewrite !length_app; lia). rewrite <-app_assoc, length_app, Nat2Z.inj_add.
    by rewrite Z.add_assoc.
Qed.

(** ** H2 stream adapters *)

Inductive poll (A : Type) := Ready (a : A) | Pending.
Arguments Ready {A} a.
Arguments Pending {A}.

Module H2Send.
(** What a call of [poll_capacity] reports: the capacity now assigned, a
    failure, or the end of the stream. A list of them that runs out is
    [Pending]. *)
Inductive cap_poll := CapReady (n : nat) | CapError | CapClosed.

(** [h2::SendStream] as the adapter sees it: assigned and requested capacity,
    the frames handed over (with [end_of_stream]) and whether [send_data] is
    still accepted. *)
Record t := SendStream {
  capacity : nat;
  requested : nat;
  frames : list (bytes * bool);
  open : bool;
}.

Definition send_data (s : t) (data : bytes) (eos : bool) : result io_error unit * t :=
  if open s then
    (Ok tt, SendStream (capacity s - length data) (requested s)
              (frames s ++ [(data, eos)]) (negb eos))
  else (Err BrokenPipe, s).

Fixpoint poll_write_loop (polls : list cap_poll) (s : t) (buf : bytes)
    : poll (result io_error nat) * t * list cap_poll :=
  let n := Nat.min (capacity s) (length buf) in
  if (0 <? n)%nat then
    match send_data s (take n buf) false with
    | (Ok _, s') => (Ready (Ok n), s', polls)
    | (Err e, s') => (Ready (Err e), s', polls)
    end
  else
    let s := SendStream (capacity s) (length buf) (frames s) (open s) in
    match polls with
    | [] => (Pending, s, [])
    | CapReady c :: rest =>
        poll_write_loop rest (SendStream c (requested s) (frames s) (open s)) buf
    | CapError :: rest => (Ready (Err (io_err CapError)), s, rest)
    | CapClosed :: rest => (Ready (Err (io_err "closed")), s, rest)
    end.

Definition poll_write (polls : list cap_poll) (s : t) (buf : bytes) :=
  match buf with
  | [] => (Ready (Ok 0%nat), s, polls)
  | _ => poll_write_loop polls s buf
  end.

Definition poll_flush (s : t) : poll (result io_error unit) * t := (Ready (Ok tt), s).

Definition poll_shutdown (s : t) : poll (result io_error unit) * t :=
  let '(r, s') := send_data s [] true in (Ready r, s').

(** The bytes handed to h2 so far, in order. *)
Definition sent (s : t) : bytes := concat (fst <$> frames s).

Lemma poll_write_loop_spec polls s buf :
  buf ≠ [] →
  let '(r, s', _) := poll_write_loop polls s buf in
  match r with
  | Ready (Ok n) => (0 < n ≤ length buf)%nat ∧
      ∃ c, (n ≤ c ∧ (c = capacity s ∨ CapReady c ∈ polls))%nat ∧ capacity s' = (c - n)%nat ∧
      frames s' = frames s ++ [(take n buf, false)]
  | _ => frames s' = frames s
  end.
Proof.
  intros Hbuf. assert (0 < length buf)%nat by (destruct buf; simpl; [done|lia]).
  revert s. induction polls as [|[c| |] polls IH]; intros s; simpl.
  all: destruct (Nat.ltb_spec 0 (Nat.min (capacity s) (length buf))) as [Hn|Hn];
    [unfold send_data; destruct (open s); simpl; [|done];
     split; [lia|]; exists (capacity s); rewrite length_take;
     split_and!; [lia|by left|lia|done]|].
  all: try done.
  specialize (IH (SendStream c (length buf) (frames s) (open s))). simpl in IH.
  destruct (poll_write_loop _ _ _) as [[[[n|e]|] s'] ?]; try done.
  destruct IH as [? (c' & [Hc [->|Hin]] & ? & ?)]; (split; [done|]);
    [exists c|exists c']; split_and!; try done; right; set_solver.
Qed.

(** [AsyncWriteExt::write_all] over the adapter: polls until everything is
    taken; each successful poll takes at least one byte, so the length of the
    buffer bounds the number of polls. *)
Fixpoint write_all_loop (fuel : nat) (polls : list cap_poll) (s : t) (buf : bytes)
    : poll (result io_error unit) * t * list cap_poll :=
  match buf, fuel with
  | [], _ => (Ready (Ok tt), s, polls)
  | _, O => (Pending, s, polls)
  | _, S fuel =>
      match poll_write polls s buf with
      | (Ready (Ok n), s', polls') => write_all_loop fuel polls' s' (drop n buf)
      | (Ready (Err e), s', polls') => (Ready (Err e), s', polls')
      | (Pending, s', polls') => (Pending, s', polls')
      end
  end.
Definition write_all (polls : list cap_poll) (s : t) (buf : bytes) :=
  write_all_loop (length buf) polls s buf.

Lemma poll_write_spec polls s buf :
  buf ≠ [] →
  let '(r, s', _) := poll_write polls s buf in
  match r with
  | Ready (Ok n) => (0 < n ≤ length buf)%nat ∧
      ∃ c, (n ≤ c ∧ (c = capacity s ∨ CapReady c ∈ polls))%nat ∧ capacity s' = (c - n)%nat ∧
      frames s' = frames s ++ [(take n buf, false)]
  | _ => frames s' = frames s
  end.
Proof. intros H. destruct buf; [done|]. by apply poll_write_loop_spec. Qed.

Lemma write_all_step fuel polls s buf :
  buf ≠ [] →
  write_all_loop (S fuel) polls s buf =
  match poll_write polls s buf with
  | (Ready (Ok n), s', polls') => write_all_loop fuel polls' s' (drop n buf)
  | (Ready (Err e), s', polls') => (Ready (Err e), s', polls')
  | (Pending, s', polls') => (Pending, s', polls')
  end.
Proof. by destruct buf. Qed.

(** New frames are non-empty and carry, in order, a prefix of the data. *)
Lemma write_all_loop_spec fuel polls s buf :
  (length buf ≤ fuel)%nat →
  let '(r, s', _) := write_all_loop fuel polls s buf in
  ∃ fs, frames s' = frames s ++ fs ∧ Forall (λ f, fst f ≠ [] ∧ snd f = false) fs ∧
    concat (fst <$> fs) `prefix_of` buf ∧
    (r = Ready (Ok tt) → concat (fst <$> fs) = buf).
Proof.
  revert polls s buf. induction fuel as [|fuel IH]; intros polls s buf Hlen.
  - destruct buf; simpl in *; [|lia]. exists []. rewrite app_nil_r. by split_and!.
  - destruct (decide (buf = [])) as [->|Hne]; [by exists []; rewrite app_nil_r; split_and!|].
    rewrite write_all_step by done. pose proof (poll_write_spec polls s buf Hne) as H.
    destruct (poll_write polls s buf) as [[[[n|e]|] s'] ps].
    + destruct H as [Hn (c & _ & _ & Hf)].
      specialize (IH ps s' (drop n buf)). rewrite length_drop in IH.
      specialize (IH ltac:(lia)).
      destruct (write_all_loop fuel ps s' (drop n buf)) as [[r s''] ps'].
      destruct IH as (fs & Hfs & Hfne & Hpre & Hall).
      exists ((take n buf, false) :: fs). split_and!.
      * rewrite Hfs, Hf, <-app_assoc. done.
      * constructor; [|done]. simpl. split; [|done]. destruct n, buf; simpl in *; [lia|lia|done|done].
      * csimpl. rewrite <-(take_drop n buf) at 2. by apply prefix_app.
      * intros Hr. csimpl. rewrite (Hall Hr). apply take_drop.
    + exists []. rewrite H, app_nil_r. split_and!; [done|done|apply prefix_nil|done].
    + exists []. rewrite H, app_nil_r. split_and!; [done|done|apply prefix_nil|done].
Qed.
End H2Send.

Module H2Recv.
(** What [poll_data] yields in turn; the end of the list is [None]. *)
Inductive data_poll := Data (b : bytes) | DataErr | DataPending.

Record t := RecvStream {
  body : list data_poll;
  buf : bytes;
  released : Z;      (** capacity handed back with [release_capacity] *)
}.

Definition new (body : list data_poll) : t := RecvStream body [] 0.

(** [poll_read] into a buffer with [room] bytes left: the bytes put into it. *)
Definition poll_read (s : t) (room : nat) : poll (result io_error bytes) * t :=
  if negb (bool_decide (buf s = [])) then
    let n := Nat.min room (length (buf s)) in
    (Ready (Ok (take n (buf s))), RecvStream (body s) (drop n (buf s)) (released s))
  else
    match body s with
    | Data d :: rest =>
        let rel := released s + Z.of_nat (length d) in
        let n := Nat.min room (length d) in
        (Ready (Ok (take n d)),
         RecvStream rest (if (n <? length d)%nat then drop n d else buf s) rel)
    | DataErr :: rest => (Ready (Err (io_err DataErr)), RecvStream rest (buf s) (released s))
    | DataPending :: rest => (Pending, RecvStream rest (buf s) (released s))
    | [] => (Ready (Ok []), s)
    end.

Definition data_of (p : data_poll) : bytes :=
  match p with Data b => b | _ => [] end.

(** The bytes not yet read. *)
Definition unread (s : t) : bytes := buf s ++ concat (data_of <$> body s).

(** Reads with the given buffer sizes, gathering what arrives. *)
Fixpoint read_loop (rooms : list nat) (s : t) : bytes * t :=
  match rooms with
  | [] => ([], s)
  | r :: rs =>
      let '(p, s') := poll_read s r in
      let got := match p with Ready (Ok b) => b | _ => [] end in
      let '(bs, s'') := read_loop rs s' in (got ++ bs, s'')
  end.

Lemma poll_read_unread s room :
  let '(p, s') := poll_read s room in
  unread s = match p with Ready (Ok b) => b | _ => [] end ++ unread s' ∧
  match p with Ready (Ok b) => (length b ≤ room)%nat | _ => True end.
Proof.
  destruct s as [body buf rel]. unfold poll_read, unread. simpl. case_bool_decide as Hb.
  - subst. destruct body as [|[d| |] body]; simpl; try done.
    + split; [done|lia].
    + split; [|rewrite length_take; lia].
      destruct (Nat.ltb_spec (Nat.min room (length d)) (length d)).
      * by rewrite app_assoc, take_drop.
      * simpl. rewrite take_ge by lia. done.
  - simpl. split; [by rewrite app_assoc, take_drop|rewrite length_take; lia].
Qed.

Lemma read_loop_unread rooms s bs s' :
  read_loop rooms s = (bs, s') → unread s = bs ++ unread s'.
Proof.
  revert s bs s'. induction rooms as [|r rooms IH]; intros s bs s'; simpl.
  - by intros [= <- <-].
  - pose proof (poll_read_unread s r) as Hs. destruct (poll_read s r) as [p s1].
    destruct (read_loop rooms s1) as [bs2 s2] eqn:E. intros [= <- <-].
    destruct Hs as [-> _]. by rewrite (IH _ _ _ E), app_assoc.
Qed.

(** Only data is left to come, in non-empty chunks. *)
Definition flowing (s : t) : Prop := Forall (λ p, ∃ b, p = Data b ∧ b ≠ []) (body s).

Lemma poll_read_progress s room :
  flowing s → (0 < room)%nat → unread s ≠ [] →
  let '(_, s') := poll_read s room in
  flowing s' ∧ (length (unread s') < length (unread s))%nat.
Proof.
  destruct s as [body buf rel]. unfold flowing, poll_read, unread. simpl.
  intros Hf Hroom Hne. case_bool_decide as Hb; simpl.
  - subst. destruct body as [|p body]; [done|].
    apply Forall_cons in Hf as [(d & -> & Hd) Hf]. csimpl. split; [done|].
    assert (0 < length d)%nat by (destruct d; simpl; [done|lia]).
    rewrite !length_app. destruct (Nat.ltb_spec (Nat.min room (length d)) (length d));
      rewrite ?length_drop; csimpl; lia.
  - split; [done|]. assert (0 < length buf)%nat by (destruct buf; simpl; [done|lia]).
    rewrite !length_app, length_drop. lia.
Qed.

Lemma read_loop_complete rooms s :
  flowing s → Forall (λ r, 0 < r)%nat rooms → (length (unread s) ≤ length rooms)%nat →
  (read_loop rooms s).1 = unread s.
Proof.
  revert s. induction rooms as [|r rooms IH]; intros s Hf Hr Hlen; simpl in *.
  - destruct (unread s); simpl in *; [done|lia].
  - apply Forall_cons in Hr as [Hr Hrs].
    pose proof (poll_read_unread s r) as Hu.
    destruct (decide (unread s = [])) as [He|He].
    + destruct (poll_read s r) as [p s1] eqn:Ep, (read_loop rooms s1) as [bs2 s2] eqn:E.
      destruct Hu as [Hu _]. rewrite He in Hu. symmetry in Hu.
      apply app_nil in Hu as [-> Hu]. apply read_loop_unread in E. rewrite Hu in E.
      symmetry in E. apply app_nil in E as [-> _]. by rewrite He.
    + pose proof (poll_read_progress s r Hf Hr He) as Hp.
      destruct (poll_read s r) as [p s1]. destruct Hp as [Hf1 Hlt], Hu as [Hu _].
      specialize (IH s1 Hf1 Hrs ltac:(lia)).
      destruct (read_loop rooms s1) as [bs2 s2]. simpl in *. by rewrite IH, <-Hu.
Qed.
End H2Recv.

(** ** Liveness *)

Module H2KeepAlive.
Record t := KeepAlive { interval : Z; timeout : Z }.

Definition default : t := KeepAlive H2_PING_INTERVAL H2_PING_TIMEOUT.

Inductive invalid := IntervalZero | TimeoutZero.

Definition validate (k : t) : result invalid unit :=
  _ ← ensure (negb (is_zero (interval k))) IntervalZero;
  _ ← ensure (negb (is_zero (timeout k))) TimeoutZero;
  Ok tt.

(** What the PING loop needs of it. *)
Definition usable (k : t) : Prop := interval k ≠ 0 ∧ timeout k ≠ 0.

Lemma keepalive_usable k : validate k = Ok tt → usable k.
Proof.
  unfold validate, ensure, is_zero, usable. intros Hv.
  destruct (Z.eqb_spec (interval k) 0); [done|]. destruct (Z.eqb_spec (timeout k) 0); done.
Qed.
End H2KeepAlive.

(** How the peer treats one PING: a PONG after [d], a failure after [d], or no
    answer. *)
Inductive ping_answer := Pong (d : Z) | PingErr (d : Z) | NoAnswer.

Inductive ping_cause := PingFailed | NoPong (within : Z).

(** [tokio::time::timeout(keepalive.timeout, ping)]. *)
Definition ping_once (k : H2KeepAlive.t) (a : ping_answer) : Z * option (option ping_cause) :=
  match a with
  | Pong d => if d <=? H2KeepAlive.timeout k then (d, Some None)
              else (H2KeepAlive.timeout k, None)
  | PingErr d => if d <=? H2KeepAlive.timeout k then (d, Some (Some PingFailed))
                 else (H2KeepAlive.timeout k, None)
  | NoAnswer => (H2KeepAlive.timeout k, None)
  end.

(** [h2_ping_loop] against a peer that answers in turn as listed: the cause, the
    number of PONGs before it, the time of the last PONG and of the verdict
    (both since the loop started). [None]: still pinging when the list ends. *)
Fixpoint h2_ping_loop (k : H2KeepAlive.t) (now : Z) (last : Z) (pongs : nat)
    (peer : list ping_answer) : option (ping_cause * nat * Z * Z) :=
  match peer with
  | [] => None
  | a :: rest =>
      let now := now + H2KeepAlive.interval k in
      match ping_once k a with
      | (d, Some None) => h2_ping_loop k (now + d) (now + d) (S pongs) rest
      | (d, Some (Some c)) => Some (c, pongs, last, now + d)
      | (d, None) => Some (NoPong (H2KeepAlive.timeout k), pongs, last, now + d)
      end
  end.

Lemma h2_ping_loop_bound k now pongs peer c n last' t :
  h2_ping_loop k now now pongs peer = Some (c, n, last', t) →
  t - last' ≤ H2KeepAlive.interval k + H2KeepAlive.timeout k.
Proof.
  revert now pongs. induction peer as [|a peer IH]; intros now pongs; simpl; [done|].
  unfold ping_once. destruct a as [d|d|].
  - destruct (Z.leb_spec d (H2KeepAlive.timeout k)); [apply IH|].
    intros [= <- <- <- <-]. lia.
  - destruct (Z.leb_spec d (H2KeepAlive.timeout k)); intros [= <- <- <- <-]; lia.
  - intros [= <- <- <- <-]. lia.
Qed.

(** ** Properties *)

(** Writes the messages one after the other; every answer. *)
Fixpoint write_msgs (msgs : list bytes) (w : writer) : list (result ctrl_error unit) * writer :=
  match msgs with
  | [] => ([], w)
  | m :: ms =>
      let '(r, w') := ctrl_write mem_write_all m w in
      let '(rs, w'') := write_msgs ms w' in (r :: rs, w'')
  end.

(** Reads [n] messages one after the other. *)
Fixpoint read_msgs (alloc : Z → bool) (n : nat) (r : bytes) : list (result ctrl_error bytes) * bytes :=
  match n with
  | O => ([], r)
  | S n =>
      let '(m, r') := ctrl_read alloc mem_read_exact r in
      let '(ms, r'') := read_msgs alloc n r' in (m :: ms, r'')
  end.

Lemma write_msgs_frames out msgs :
  Forall (λ m, Z.of_nat (length m) ≤ MAX_CTRL_FRAME) msgs →
  write_msgs msgs (Writer out None) =
    (const (Ok tt) <$> msgs, Writer (out ++ concat (frame <$> msgs)) None).
Proof.
  intros Hm. revert out. induction Hm as [|m ms Hm Hms IH]; intros out.
  - cbn. by rewrite app_nil_r.
  - cbn [write_msgs]. rewrite write_frame by done. cbn [w_out]. rewrite IH.
    by rewrite !fmap_cons, concat_cons, <-app_assoc.
Qed.

Lemma read_msgs_frames alloc msgs rest :
  (∀ n, n ≤ MAX_CTRL_FRAME → alloc n = true) →
  Forall (λ m, Z.of_nat (length m) ≤ MAX_CTRL_FRAME) msgs →
  read_msgs alloc (length msgs) (concat (frame <$> msgs) ++ rest) = (Ok <$> msgs, rest).
Proof.
  intros Ha Hm. induction Hm as [|m ms Hm Hms IH]; [done|].
  cbn [length read_msgs]. rewrite fmap_cons, concat_cons, <-app_assoc.
  rewrite read_frame by auto. by rewrite IH.
Qed.

(** a sequence of control messages of at most [MAX_CTRL_FRAME] bytes each,
    written with [ctrl_write], is read back by [ctrl_read] message for message,
    leaving exactly what follows it on the stream. *)
Theorem ctrl_roundtrip alloc msgs rest :
  (∀ n, n ≤ MAX_CTRL_FRAME → alloc n = true) →
  Forall (λ m, Z.of_nat (length m) ≤ MAX_CTRL_FRAME) msgs →
  ∃ w, write_msgs msgs (Writer [] None) = (const (Ok tt) <$> msgs, w) ∧
       read_msgs alloc (length msgs) (w_out w ++ rest) = (Ok <$> msgs, rest).
Proof.
  intros Ha Hm. exists (Writer ([] ++ concat (frame <$> msgs)) None).
  split; [by apply write_msgs_frames|by apply read_msgs_frames].
Qed.

Lemma ctrl_roundtrip_witness :
  (∀ n, n ≤ MAX_CTRL_FRAME → (λ n, n <=? 4096) n = true) ∧
  ∃ w, write_msgs [as_bytes "ab.localhost"; []; as_bytes "done"] (Writer [] None)
         = ([Ok tt; Ok tt; Ok tt], w) ∧
       read_msgs (λ n, n <=? 4096) 3 (w_out w ++ [x07])
         = ([Ok (as_bytes "ab.localhost"); Ok []; Ok (as_bytes "done")], [x07]).
Proof.
  split; [intros n Hn; apply Z.leb_le, Hn|].
  apply (ctrl_roundtrip (λ n, n <=? 4096)
           [as_bytes "ab.localhost"; []; as_bytes "done"] [x07]).
  - intros n Hn. apply Z.leb_le, Hn.
  - repeat constructor; vm_compute; discriminate.
Defined.

(** [ctrl_read] never lets the peer's length prefix drive an allocation above
    [MAX_CTRL_FRAME]: its outcome does not depend on how larger requests would be
    answered, and a longer announced frame is refused with its length after the
    four prefix bytes, before anything else is read. *)
Theorem ctrl_read_bounded alloc alloc' r :
  (∀ n, 0 ≤ n ≤ MAX_CTRL_FRAME → alloc n = alloc' n) →
  ctrl_read alloc mem_read_exact r = ctrl_read alloc' mem_read_exact r ∧
  ((4 ≤ length r)%nat → MAX_CTRL_FRAME < u32_from_be_bytes (take 4 r) →
   ctrl_read alloc mem_read_exact r =
     (Err (CtrlTooLong (u32_from_be_bytes (take 4 r))), drop 4 r)).
Proof.
  intros Ha. unfold ctrl_read, mbind, state_bind, mem_read_exact at 1 3 5.
  case_decide as H4; [|split; [done|lia]].
  assert (Hl : length (take 4 r) = 4%nat) by (rewrite length_take; lia).
  pose proof (u32_from_be_bytes_range _ Hl) as Hr.
  destruct (Z.ltb_spec MAX_CTRL_FRAME (u32_from_be_bytes (take 4 r))); [done|].
  split; [|lia]. by rewrite Ha by lia.
Qed.

Lemma ctrl_read_bounded_witness :
  ctrl_read (λ n, n <=? 4096) mem_read_exact [xff; xff; xff; xff]
    = (Err (CtrlTooLong 4294967295), []).
Proof.
  apply (ctrl_read_bounded (λ n, n <=? 4096) (λ n, n <=? 4096) [xff; xff; xff; xff]);
    [done|simpl; lia|done].
Defined.

(** [ctrl_write] only ever puts a prefix of the message's frame on the wire;
    it reports success exactly when the whole frame is out, and a message above
    [MAX_CTRL_FRAME] is refused with nothing emitted. *)
Theorem ctrl_write_prefix data w :
  let '(r, w') := ctrl_write mem_write_all data w in
  ∃ sent, w_out w' = w_out w ++ sent ∧ sent `prefix_of` frame data ∧
    (r = Ok tt → sent = frame data) ∧
    (MAX_CTRL_FRAME < Z.of_nat (length data) →
       r = Err (CtrlTooLong (Z.of_nat (length data))) ∧ sent = []).
Proof.
  unfold ctrl_write.
  destruct (Z.leb_spec (Z.of_nat (length data)) MAX_CTRL_FRAME); last first.
  { exists []. rewrite app_nil_r. split_and!; [done|apply prefix_nil|done|done]. }
  unfold mbind, state_bind, mret, state_ret, mem_write_all, frame.
  set (pre := u32_to_be_bytes _). clearbody pre.
  destruct w as [out [room|]]; cbn [w_room w_out].
  2: { exists (pre ++ data). rewrite <-app_assoc. split_and!; [done|done|done|lia]. }
  case_decide; cbn [w_room w_out]; cycle 1.
  { eexists. split_and!; [done|by apply prefix_app_r, prefix_take|done|lia]. }
  case_decide; cbn [w_room w_out].
  - exists (pre ++ data). rewrite <-app_assoc. split_and!; [done|done|done|lia].
  - exists (pre ++ take (room - length pre) data). rewrite <-app_assoc.
    split_and!; [done|by apply prefix_app, prefix_take|done|lia].
Qed.

(** [collect_h2_body] returns exactly the concatenated body when it fits in
    [max]; otherwise it stops at the first chunk that would exceed it or at the
    first transport error. Either way it holds, and hands back in flow-control
    capacity, at most [max] bytes. *)
Theorem collect_h2_body_bounded body max :
  0 ≤ max →
  match collect_h2_body body max with
  | (Ok b, released) => ∃ chunks, body = Ok <$> chunks ∧ b = concat chunks ∧
      released = Z.of_nat (length b) ∧ released ≤ max
  | (Err e, released) => ∃ chunks rest, body = (Ok <$> chunks) ++ rest ∧
      released = Z.of_nat (length (concat chunks)) ∧ released ≤ max ∧
      match rest with
      | Err io :: _ => e = BodyIo io
      | Ok c :: _ => e = BodyTooLong max ∧ max < Z.of_nat (length (concat chunks ++ c))
      | [] => False
      end
  end.
Proof.
  intros Hmax. pose proof (collect_loop_spec max [] 0 body ltac:(lia) Hmax) as H.
  unfold collect_h2_body. destruct (collect_loop max [] 0 body) as [[b|e] r].
  - destruct H as (cs & -> & -> & Hb & ->). exists cs. split_and!; (done || lia).
  - destruct H as (cs & rest & -> & Hb & -> & Hr). exists cs, rest. split_and!; (done || lia).
Qed.

Lemma collect_h2_body_bounded_witness :
  ∃ chunks, ([Ok [x61; x62]; Ok [x63]] : h2_body) = Ok <$> chunks ∧ [x61; x62; x63] = concat chunks ∧
    3 = Z.of_nat (length [x61; x62; x63]) ∧ 3 ≤ 4.
Proof.
  exact (collect_h2_body_bounded [Ok [x61; x62]; Ok [x63]] 4 ltac:(lia)).
Defined.

(** whatever capacity h2 assigns and however the reader sizes its buffers,
    data written through [H2Send] reaches the reader of [H2Recv] in order and
    without loss or duplication: what was read, then what is still buffered, is
    what was sent, itself a prefix of the data (all of it once [write_all]
    succeeds); and enough non-empty reads deliver everything that was sent. *)
Theorem h2_stream_in_order polls cap data rooms :
  let '(r, s, _) := H2Send.write_all polls (H2Send.SendStream cap 0 [] true) data in
  let recv := H2Recv.new (H2Recv.Data ∘ fst <$> H2Send.frames s) in
  let '(got, recv') := H2Recv.read_loop rooms recv in
  got ++ H2Recv.unread recv' = H2Send.sent s ∧
  H2Send.sent s `prefix_of` data ∧
  (r = Ready (Ok tt) → H2Send.sent s = data) ∧
  (Forall (λ n, 0 < n)%nat rooms → (length (H2Send.sent s) ≤ length rooms)%nat →
   got = H2Send.sent s).
Proof.
  pose proof (H2Send.write_all_loop_spec (length data) polls
                (H2Send.SendStream cap 0 [] true) data (Nat.le_refl _)) as H.
  unfold H2Send.write_all. destruct (H2Send.write_all_loop _ _ _ _) as [[r s] ?].
  destruct H as (fs & Hfs & Hne & Hpre & Hall). simpl in Hfs.
  set (recv := H2Recv.new _).
  assert (Hu : H2Recv.unread recv = H2Send.sent s).
  { unfold recv, H2Recv.unread, H2Send.sent, H2Recv.new. simpl.
    by rewrite <-list_fmap_compose. }
  assert (Hflow : H2Recv.flowing recv).
  { unfold recv, H2Recv.flowing, H2Recv.new. simpl. rewrite Hfs.
    apply Forall_fmap. eapply Forall_impl; [exact Hne|]. intros [b e] [Hb _]. by exists b. }
  pose proof (H2Recv.read_loop_complete rooms recv Hflow) as Hc.
  destruct (H2Recv.read_loop rooms recv) as [got recv'] eqn:E.
  apply H2Recv.read_loop_unread in E. unfold H2Send.sent in *. rewrite Hfs in *.
  split_and!; [by rewrite <-E|done|done|].
  intros Hr Hlen. simpl in Hc. rewrite <-Hu. apply Hc; [done|by rewrite Hu].
Qed.

(** a relay or client that stops answering PINGs is declared dead, and with
    the production settings that happens exactly [QUIC_MAX_IDLE_TIMEOUT] after
    its last PONG, so both transports detect a dead peer in the same time. *)
Theorem h2_dead_peer_window ds rest :
  Forall (λ d, 0 ≤ d ≤ H2_PING_TIMEOUT) ds →
  ∃ last t,
    h2_ping_loop H2KeepAlive.default 0 0 0 ((Pong <$> ds) ++ NoAnswer :: rest)
      = Some (NoPong H2_PING_TIMEOUT, length ds, last, t) ∧
    t - last = QUIC_MAX_IDLE_TIMEOUT.
Proof.
  intros Hds.
  cut (∀ now n, ∃ last t,
    h2_ping_loop H2KeepAlive.default now now n ((Pong <$> ds) ++ NoAnswer :: rest)
      = Some (NoPong H2_PING_TIMEOUT, (n + length ds)%nat, last, t) ∧
    t - last = QUIC_MAX_IDLE_TIMEOUT); [intros H; apply (H 0 0%nat)|].
  induction Hds as [|d ds Hd Hds IH]; intros now n; csimpl.
  - eexists _, _. rewrite Nat.add_0_r. split; [done|].
    assert (QUIC_MAX_IDLE_TIMEOUT = H2_PING_INTERVAL + H2_PING_TIMEOUT) as -> by done.
    cbn [H2KeepAlive.interval H2KeepAlive.timeout H2KeepAlive.default]. lia.
  - destruct (Z.leb_spec d H2_PING_TIMEOUT); [|lia].
    rewrite <-Nat.add_succ_comm. apply IH.
Qed.

Lemma h2_dead_peer_window_witness :
  ∃ last t,
    h2_ping_loop H2KeepAlive.default 0 0 0 [Pong (from_secs 1); Pong 0; NoAnswer]
      = Some (NoPong H2_PING_TIMEOUT, 2%nat, last, t) ∧
    t - last = QUIC_MAX_IDLE_TIMEOUT.
Proof.
  apply (h2_dead_peer_window [from_secs 1; 0] []).
  repeat constructor; vm_compute; discriminate.
Defined.
