(* ===== verification/IoAdapter.v ===== *)
(** * IoAdapter.v: [IO] of tunnel-common/src/lib.rs

    A tunnel stream as the proxying code sees it. [AsyncRead] and [AsyncWrite] are the
    tokio traits, as classes; [H2Recv] and [H2Send] of Framing.v implement them, and [IO]
    joins a reader and a writer into one stream. What a stream promises its user is in
    [ReadsInOrder] and [WritesInOrder], proved for the adapters and, for [IO], from its
    halves.

    The user of a stream ([copy_bidirectional], a TLS acceptor) is any sequence of
    polls. *)

From S2P Require Import Prelude Framing.

Class AsyncRead (R : Type) := {
  poll_read : R → nat → poll (result io_error bytes) * R;
}.

Class AsyncWrite (W : Type) := {
  poll_write : W → bytes → poll (result io_error nat) * W;
  poll_flush : W → poll (result io_error unit) * W;
  poll_shutdown : W → poll (result io_error unit) * W;
}.

(** ** [IO] *)

(** [Pin<Box<dyn ..>>] of each half, its type kept as a parameter. *)
Record IO (R W : Type) := MkIO { io_r : R; io_w : W }.
Arguments MkIO {R W} _ _.
Arguments io_r {R W} _.
Arguments io_w {R W} _.

Module IO.
Definition new {R W} (r : R) (w : W) : IO R W := MkIO r w.

Section poll.
Context `{AsyncRead R, AsyncWrite W}.

Definition poll_read (s : IO R W) (room : nat) : poll (result io_error bytes) * IO R W :=
  let '(p, r) := poll_read (io_r s) room in (p, MkIO r (io_w s)).
Definition poll_write (s : IO R W) (buf : bytes) : poll (result io_error nat) * IO R W :=
  let '(p, w) := poll_write (io_w s) buf in (p, MkIO (io_r s) w).
Definition poll_flush (s : IO R W) : poll (result io_error unit) * IO R W :=
  let '(p, w) := poll_flush (io_w s) in (p, MkIO (io_r s) w).
Definition poll_shutdown (s : IO R W) : poll (result io_error unit) * IO R W :=
  let '(p, w) := poll_shutdown (io_w s) in (p, MkIO (io_r s) w).
End poll.
End IO.

#[export] Instance IO_read `{AsyncRead R, AsyncWrite W} : AsyncRead (IO R W) :=
  {| poll_read := IO.poll_read |}.
#[export] Instance IO_write `{AsyncRead R, AsyncWrite W} : AsyncWrite (IO R W) :=
  {| poll_write := IO.poll_write; poll_flush := IO.poll_flush; poll_shutdown := IO.poll_shutdown |}.

(** ** The H2 halves *)

#[export] Instance H2Recv_read : AsyncRead H2Recv.t := {| poll_read := H2Recv.poll_read |}.

(** An [H2Send] with what its next calls of [poll_capacity] will report. *)
Record h2_writer := H2Writer { hw_send : H2Send.t; hw_polls : list H2Send.cap_poll }.

#[export] Instance H2Send_write : AsyncWrite h2_writer := {|
  poll_write w buf :=
    let '(p, s, polls) := H2Send.poll_write (hw_polls w) (hw_send w) buf in (p, H2Writer s polls);
  poll_flush w := let '(p, s) := H2Send.poll_flush (hw_send w) in (p, H2Writer s (hw_polls w));
  poll_shutdown w := let '(p, s) := H2Send.poll_shutdown (hw_send w) in (p, H2Writer s (hw_polls w));
|}.

(** ** What a stream promises *)

Definition bytes_read (p : poll (result io_error bytes)) : bytes :=
  match p with Ready (Ok b) => b | _ => [] end.
(** The part of [buf] a write took. *)
Definition bytes_taken (p : poll (result io_error nat)) (buf : bytes) : bytes :=
  match p with Ready (Ok n) => take n buf | _ => [] end.

(** A reader hands out what is left to read, in order, never more than there is room for. *)
Class ReadsInOrder R `{AsyncRead R} := {
  unread : R → bytes;
  read_in_order s room :
    let '(p, s') := poll_read s room in
    unread s = bytes_read p ++ unread s' ∧ (length (bytes_read p) ≤ room)%nat;
}.

(** A writer takes what it reports, in order, and nothing after a shutdown; flushing and
    shutting down take nothing. *)
Class WritesInOrder W `{AsyncWrite W} := {
  written : W → bytes;
  closed : W → bool;
  write_in_order s buf :
    let '(p, s') := poll_write s buf in
    written s' = written s ++ bytes_taken p buf ∧ closed s' = closed s ∧
    (closed s = true → bytes_taken p buf = []) ∧
    (∀ n, p = Ready (Ok n) → (n ≤ length buf)%nat ∧ (buf ≠ [] → 0 < n)%nat);
  flush_keeps s :
    written (poll_flush s).2 = written s ∧ closed (poll_flush s).2 = closed s;
  shutdown_closes s :
    let '(p, s') := poll_shutdown s in
    written s' = written s ∧ (p = Ready (Ok tt) → closed s' = true) ∧
    (closed s = true → closed s' = true);
}.

#[export] Program Instance H2Recv_in_order : ReadsInOrder H2Recv.t := {| unread := H2Recv.unread |}.
Next Obligation.
  intros s room. pose proof (H2Recv.poll_read_unread s room) as Hu. simpl.
  destruct (H2Recv.poll_read s room) as [[[b|e]|] s']; simpl in *; [done|..];
    destruct Hu as [Hu _]; (split; [done|lia]).
Qed.

Lemma H2Send_poll_write_closed polls s buf :
  H2Send.open s = false → buf ≠ [] →
  let '(p, s', _) := H2Send.poll_write polls s buf in bytes_taken p buf = [] ∧ H2Send.open s' = false.
Proof.
  intros Ho Hb. unfold H2Send.poll_write. destruct buf as [|b buf]; [done|]. clear Hb.
  revert s Ho. induction polls as [|[c| |] polls IH]; intros s Ho; cbn [H2Send.poll_write_loop].
  all: destruct (0 <? _)%nat; [unfold H2Send.send_data; rewrite Ho; cbn; by rewrite Ho|].
  all: try done.
  by apply IH.
Qed.

Lemma H2Send_poll_write_open polls s buf :
  let '(_, s', _) := H2Send.poll_write polls s buf in H2Send.open s' = H2Send.open s.
Proof.
  unfold H2Send.poll_write. destruct buf as [|b buf]; [done|].
  revert s. induction polls as [|[c| |] polls IH]; intros s; cbn [H2Send.poll_write_loop].
  all: destruct (0 <? _)%nat; [unfold H2Send.send_data; destruct (H2Send.open s) eqn:Ho; cbn; by rewrite ?Ho|].
  all: try done.
  specialize (IH (H2Send.SendStream c (length (b :: buf)) (H2Send.frames s) (H2Send.open s))).
  exact IH.
Qed.

#[export] Program Instance H2Send_in_order : WritesInOrder h2_writer := {|
  written w := H2Send.sent (hw_send w);
  closed w := negb (H2Send.open (hw_send w));
|}.
Next Obligation.
  intros [s polls] buf. simpl. pose proof (H2Send_poll_write_open polls s buf) as Ho.
  pose proof (H2Send_poll_write_closed polls s buf) as Hc.
  destruct (decide (buf = [])) as [->|Hb]; [simpl; rewrite app_nil_r; split_and!; try done; intros n [= <-]; by split|].
  pose proof (H2Send.poll_write_spec polls s buf Hb) as Hs.
  destruct (H2Send.poll_write polls s buf) as [[p s'] ps]. simpl. rewrite Ho. unfold H2Send.sent.
  assert (Hcl : negb (H2Send.open s) = true → bytes_taken p buf = []).
  { intros Hn. apply Hc; [by apply negb_true_iff|done]. }
  destruct p as [[n|e]|]; simpl.
  - destruct Hs as (Hn & c & _ & _ & ->). rewrite fmap_app, concat_app. simpl. rewrite app_nil_r.
    split_and!; [done..|]. intros n' [= <-]. lia.
  - rewrite Hs, app_nil_r. by split_and!.
  - rewrite Hs, app_nil_r. by split_and!.
Qed.
Next Obligation. done. Qed.
Next Obligation.
  intros [s polls]. simpl. unfold H2Send.poll_shutdown, H2Send.send_data.
  destruct (H2Send.open s) eqn:Ho; simpl; [|by rewrite Ho].
  unfold H2Send.sent. simpl. rewrite fmap_app, concat_app. simpl. by rewrite app_nil_r.
Qed.

#[export] Program Instance IO_reads_in_order `{ReadsInOrder R, WritesInOrder W} : ReadsInOrder (IO R W) :=
  {| unread s := unread (io_r s) |}.
Next Obligation.
  intros R ? ? W ? ? [r w] room. simpl. unfold IO.poll_read. simpl. pose proof (read_in_order r room) as Hr.
  by destruct (poll_read r room).
Qed.

#[export] Program Instance IO_writes_in_order `{ReadsInOrder R, WritesInOrder W} : WritesInOrder (IO R W) :=
  {| written s := written (io_w s); closed s := closed (io_w s) |}.
Next Obligation.
  intros R ? ? W ? ? [r w] buf. simpl. unfold IO.poll_write. simpl. pose proof (write_in_order w buf) as Hw.
  by destruct (poll_write w buf).
Qed.
Next Obligation.
  intros R ? ? W ? ? [r w]. simpl. unfold IO.poll_flush. simpl. pose proof (flush_keeps w) as Hw.
  by destruct (poll_flush w).
Qed.
Next Obligation.
  intros R ? ? W ? ? [r w]. simpl. unfold IO.poll_shutdown. simpl. pose proof (shutdown_closes w) as Hw.
  by destruct (poll_shutdown w).
Qed.

(** ** Any user of a stream *)

Inductive io_call := Read (room : nat) | Write (buf : bytes) | Flush | Shutdown.

(** The bytes the user got, the bytes it got rid of, and the stream after its calls. *)
Fixpoint drive {S} `{AsyncRead S, AsyncWrite S} (cs : list io_call) (s : S) : bytes * bytes * S :=
  match cs with
  | [] => ([], [], s)
  | Read room :: cs =>
      let '(p, s1) := poll_read s room in
      let '(got, put, s') := drive cs s1 in (bytes_read p ++ got, put, s')
  | Write buf :: cs =>
      let '(p, s1) := poll_write s buf in
      let '(got, put, s') := drive cs s1 in (got, bytes_taken p buf ++ put, s')
  | Flush :: cs => drive cs (poll_flush s).2
  | Shutdown :: cs => drive cs (poll_shutdown s).2
  end.

Definition rooms (cs : list io_call) : list nat :=
  omap (λ c, match c with Read n => Some n | _ => None end) cs.

Lemma drive_app {S} `{AsyncRead S, AsyncWrite S} cs cs' (s : S) :
  drive (cs ++ cs') s =
  let '(got, put, s1) := drive cs s in
  let '(got', put', s2) := drive cs' s1 in (got ++ got', put ++ put', s2).
Proof.
  revert s. induction cs as [|c cs IH]; intros s; simpl.
  - by destruct (drive cs' s) as [[? ?] ?].
  - destruct c as [n|b| |].
    + destruct (poll_read s n) as [p s1]. rewrite IH. destruct (drive cs s1) as [[? ?] s2].
      destruct (drive cs' s2) as [[? ?] ?]. by rewrite app_assoc.
    + destruct (poll_write s b) as [p s1]. rewrite IH. destruct (drive cs s1) as [[? ?] s2].
      destruct (drive cs' s2) as [[? ?] ?]. by rewrite app_assoc.
    + apply IH.
    + apply IH.
Qed.

Section transparent.
Context `{ReadsInOrder R, WritesInOrder W}.
Implicit Types s : IO R W.

(** Whatever its user does, an [IO] gives out what its reader has to give, in order, and
    its writer receives what the user got rid of, in order; the two directions do not
    mix. *)
Lemma drive_transparent cs s :
  let '(got, put, s') := drive cs s in
  unread (io_r s) = got ++ unread (io_r s') ∧ written (io_w s') = written (io_w s) ++ put ∧
  (closed (io_w s) = true → put = [] ∧ closed (io_w s') = true).
Proof.
  revert s. induction cs as [|c cs IH]; intros [r w]; simpl; [by rewrite app_nil_r|].
  destruct c as [n|b| |]; simpl.
  - unfold IO.poll_read. simpl. pose proof (read_in_order r n) as Hr. destruct (poll_read r n) as [p r1].
    specialize (IH (MkIO r1 w)). destruct (drive cs _) as [[got put] s']. simpl in IH.
    destruct Hr as [-> _], IH as (-> & ? & ?). by rewrite app_assoc.
  - unfold IO.poll_write. simpl. pose proof (write_in_order w b) as Hw. destruct (poll_write w b) as [p w1].
    specialize (IH (MkIO r w1)). destruct (drive cs _) as [[got put] s']. simpl in IH.
    destruct Hw as (Hw & Hc & Hn & _), IH as (? & Hw' & Hc'). split; [done|].
    split; [by rewrite Hw', Hw, app_assoc|]. intros Hcl. rewrite (Hn Hcl). simpl. apply Hc'. by rewrite Hc.
  - unfold IO.poll_flush. simpl. pose proof (flush_keeps w) as Hw. destruct (poll_flush w) as [p w1].
    specialize (IH (MkIO r w1)). simpl in *. destruct (drive cs _) as [[got put] s'].
    destruct Hw as [Hw Hc], IH as (? & Hw' & Hc'). by rewrite <-Hw, <-Hc.
  - unfold IO.poll_shutdown. simpl. pose proof (shutdown_closes w) as Hw. destruct (poll_shutdown w) as [p w1].
    specialize (IH (MkIO r w1)). simpl in *. destruct (drive cs _) as [[got put] s'].
    destruct Hw as (Hw & _ & Hc), IH as (? & Hw' & Hc'). rewrite <-Hw. split_and!; [done..|].
    intros Hcl. apply Hc', Hc, Hcl.
Qed.
End transparent.

(** ** Two ends of one H2 stream *)

(** The end of a stream: what h2 will deliver to it, and the capacity it will be given. *)
Definition h2_end (body : list H2Recv.data_poll) (cap : nat) (polls : list H2Send.cap_poll) :
    IO H2Recv.t h2_writer :=
  IO.new (H2Recv.new body) (H2Writer (H2Send.SendStream cap 0 [] true) polls).

Definition chunk (p : H2Recv.data_poll) : option bytes :=
  match p with H2Recv.Data b => Some b | _ => None end.

(** h2 delivers DATA frames in order, possibly not all of them, with pauses and errors in
    between. *)
Definition carries (frames : list (bytes * bool)) (body : list H2Recv.data_poll) : Prop :=
  omap chunk body `prefix_of` (fst <$> frames).

Lemma unread_chunks body : H2Recv.unread (H2Recv.new body) = concat (omap chunk body).
Proof.
  unfold H2Recv.unread. simpl. induction body as [|[b| |] body IH]; csimpl; [done| |done..]. by f_equal.
Qed.

Lemma concat_prefix (l l' : list bytes) : l `prefix_of` l' → concat l `prefix_of` concat l'.
Proof. intros [k ->]. rewrite concat_app. by apply prefix_app_r. Qed.

Lemma drive_reads cs body cap polls :
  (drive cs (h2_end body cap polls)).1.1 = (H2Recv.read_loop (rooms cs) (H2Recv.new body)).1.
Proof.
  unfold h2_end, IO.new. generalize (H2Recv.new body) as r, (H2Writer (H2Send.SendStream cap 0 [] true) polls) as w.
  induction cs as [|[n|b| |] cs IH]; intros r w; simpl; [done|..].
  - unfold IO.poll_read. simpl. destruct (H2Recv.poll_read r n) as [p r1].
    specialize (IH r1 w). destruct (drive cs _) as [[got put] s']. simpl in IH.
    change (omap (λ c, match c with Read n => Some n | _ => None end) cs) with (rooms cs).
    destruct (H2Recv.read_loop (rooms cs) r1) as [bs r2]. simpl in *. by rewrite IH.
  - unfold IO.poll_write. simpl. destruct (H2Send.poll_write _ _ b) as [[p s1] ps].
    specialize (IH r (H2Writer s1 ps)). by destruct (drive cs _) as [[got put] s'].
  - unfold IO.poll_flush. simpl. apply (IH r).
  - unfold IO.poll_shutdown. simpl. destruct (H2Send.poll_shutdown _) as [p s1]. apply (IH r).
Qed.

(** What one end gets of what the other got rid of. *)
Lemma one_way cs body cap polls cs' body' cap' polls' :
  let '(_, put, a) := drive cs (h2_end body cap polls) in
  let '(got, _, _) := drive cs' (h2_end body' cap' polls') in
  carries (H2Send.frames (hw_send (io_w a))) body' →
  got `prefix_of` put ∧
  (concat (omap chunk body') = put → H2Recv.flowing (H2Recv.new body') →
   Forall (λ n, 0 < n)%nat (rooms cs') → (length put ≤ length (rooms cs'))%nat → got = put).
Proof.
  pose proof (drive_transparent cs (h2_end body cap polls)) as Ha.
  pose proof (drive_transparent cs' (h2_end body' cap' polls')) as Hb.
  pose proof (drive_reads cs' body' cap' polls') as Hr.
  destruct (drive cs (h2_end body cap polls)) as [[? put] a].
  destruct (drive cs' (h2_end body' cap' polls')) as [[got ?] b]. intros Hc. simpl in *.
  destruct Ha as (_ & Hput & _), Hb as (Hgot & _). unfold H2Send.sent in Hput. simpl in Hput.
  rewrite unread_chunks in Hgot. split.
  - apply concat_prefix in Hc. rewrite Hput, Hgot in Hc. etrans; [|exact Hc]. by apply prefix_app_r.
  - intros Hall Hflow Hpos Hlen. rewrite <-unread_chunks in Hall. rewrite Hr, <-Hall in *.
    by apply H2Recv.read_loop_complete.
Qed.

(** Nothing is taken after a shutdown. *)
Lemma nothing_after_shutdown cs cs' body cap polls :
  (drive (cs ++ Shutdown :: cs') (h2_end body cap polls)).1.2 = (drive cs (h2_end body cap polls)).1.2.
Proof.
  rewrite drive_app. destruct (drive cs (h2_end body cap polls)) as [[got put] s]. cbn [drive].
  pose proof (drive_transparent cs' (poll_shutdown s).2) as Ht.
  assert (Hcl : closed (io_w (poll_shutdown s).2) = true).
  { destruct s as [r [snd ps]]. simpl. unfold IO.poll_shutdown, H2Send.poll_shutdown, H2Send.send_data. simpl.
    unfold H2Send.poll_shutdown, H2Send.send_data. destruct (H2Send.open snd) eqn:Ho; simpl; [done|by rewrite Ho]. }
  destruct (drive cs' (poll_shutdown s).2) as [[got' put'] s']. destruct Ht as (_ & _ & Ht).
  destruct (Ht Hcl) as [-> _]. apply app_nil_r.
Qed.

(** C36: a tunnel stream is a full-duplex pipe, whatever the two ends ([copy_bidirectional],
    a TLS acceptor) do with it and whatever capacity and pauses h2 gives them. With an
    [IO] over an H2 stream at each end, the bytes one end reads are, in order and without
    loss or duplication, a prefix of the bytes the other end got rid of, in both
    directions at once; nothing is sent after a shutdown; and once h2 delivered all of
    it, enough non-empty reads get it all. *)
Theorem tunnel_full_duplex cs body cap polls cs' body' cap' polls' :
  let '(got, put, a) := drive cs (h2_end body cap polls) in
  let '(got', put', b) := drive cs' (h2_end body' cap' polls') in
  carries (H2Send.frames (hw_send (io_w a))) body' →
  carries (H2Send.frames (hw_send (io_w b))) body →
  got' `prefix_of` put ∧ got `prefix_of` put' ∧
  (∀ cs1 cs2, cs = cs1 ++ Shutdown :: cs2 → put = (drive cs1 (h2_end body cap polls)).1.2) ∧
  (concat (omap chunk body') = put → H2Recv.flowing (H2Recv.new body') →
   Forall (λ n, 0 < n)%nat (rooms cs') → (length put ≤ length (rooms cs'))%nat → got' = put).
Proof.
  pose proof (one_way cs body cap polls cs' body' cap' polls') as H1.
  pose proof (one_way cs' body' cap' polls' cs body cap polls) as H2.
  destruct (drive cs (h2_end body cap polls)) as [[got put] a] eqn:E.
  destruct (drive cs' (h2_end body' cap' polls')) as [[got' put'] b]. intros Hc Hc'.
  destruct (H1 Hc) as [? ?], (H2 Hc') as [? _]. split_and!; [done..| |done].
  intros cs1 cs2 ->. by rewrite <-(nothing_after_shutdown cs1 cs2), E.
Qed.

(** The relay sends a request in two frames, the client reads it byte by byte and answers. *)
Lemma tunnel_full_duplex_witness :
  let user := [Write [x61; x62; x63]; Read 10; Write [x63]; Flush; Shutdown; Write [x64]] in
  let agent := [Read 1; Read 1; Write [x7a]; Read 1] in
  (drive user (h2_end [H2Recv.Data [x7a]] 2 [H2Send.CapReady 5])).1 = ([x7a], [x61; x62; x63]) ∧
  (drive agent (h2_end [H2Recv.Data [x61; x62]; H2Recv.Data [x63]] 9 [])).1.1 `prefix_of` [x61; x62; x63].
Proof.
  intros user agent. split; [vm_compute; reflexivity|].
  refine (proj1 (tunnel_full_duplex user [H2Recv.Data [x7a]] 2 [H2Send.CapReady 5]
    agent [H2Recv.Data [x61; x62]; H2Recv.Data [x63]] 9 [] _ _)).
  - exists [[]]. vm_compute. reflexivity.
  - exists []. vm_compute. reflexivity.
Defined.
