(* ===== verification/Registry.v ===== *)
(** * Registry.v: the relay's shared maps

    tunnel-server/src/lib.rs ([AgentPool], [PendingAlpnMap]) and
    tunnel-server/src/util.rs ([register]).

    Both maps are [DashMap]s shared by every connection task; one map call is one
    atomic step. The tasks that clean up after a connection run concurrently with
    new registrations, so each map is a transition system whose steps are the
    individual map calls. *)

From S2P Require Import Prelude.

(** Handles of connections: [quinn::Connection] and [h2::client::SendRequest]
    are reference-counted handles, known by identity only. *)
Abbreviation handle := nat.

(** ** Agent pools *)

Inductive Agent := AgentQuic (c : handle) | AgentH2 (s : handle).
#[export] Instance Agent_eq_dec : EqDecision Agent.
Proof. solve_decision. Defined.

Record AgentPool := Pool { counter : Z; agents : list (Z * Agent) }.

Module AgentPool.
(** [AgentPool::default()]. *)
Definition default : AgentPool := Pool 0 [].

Definition push (p : AgentPool) (uid : Z) (a : Agent) : AgentPool :=
  Pool (counter p) (agents p ++ [(uid, a)]).

(** [agents.retain(|(u, _)| *u != uid)]. *)
Definition remove (p : AgentPool) (uid : Z) : AgentPool :=
  Pool (counter p) (filter (λ x, x.1 ≠ uid) (agents p)).

Definition is_empty (p : AgentPool) : bool := bool_decide (agents p = []).

(** [next_agent]: the agent, and the pool with its [AtomicUsize] advanced
    ([fetch_add] wraps). *)
Definition next_agent (p : AgentPool) : option Agent * AgentPool :=
  if is_empty p then (None, p)
  else
    let idx := counter p mod Z.of_nat (length (agents p)) in
    (snd <$> agents p !! Z.to_nat idx,
     Pool ((counter p + 1) mod USIZE_MOD) (agents p)).

(** [k] requests in a row. *)
Fixpoint next_agents (k : nat) (p : AgentPool) : list (option Agent) * AgentPool :=
  match k with
  | O => ([], p)
  | S k =>
      let '(a, p') := next_agent p in
      let '(l, p'') := next_agents k p' in (a :: l, p'')
  end.
End AgentPool.

Section round_robin.
Implicit Types p : AgentPool.

Lemma next_agent_nonempty p :
  agents p ≠ [] → 0 ≤ counter p →
  ∃ x, agents p !! Z.to_nat (counter p mod Z.of_nat (length (agents p))) = Some x ∧
    AgentPool.next_agent p =
      (Some x.2, Pool ((counter p + 1) mod USIZE_MOD) (agents p)).
Proof.
  intros Hne Hc. assert (0 < Z.of_nat (length (agents p))).
  { destruct (agents p); simpl; [done|lia]. }
  pose proof (Z.mod_pos_bound (counter p) (Z.of_nat (length (agents p))) ltac:(done)).
  destruct (lookup_lt_is_Some_2 (agents p)
    (Z.to_nat (counter p mod Z.of_nat (length (agents p))))) as [x Hx]; [lia|].
  exists x. split; [done|]. unfold AgentPool.next_agent, AgentPool.is_empty.
  rewrite bool_decide_false by done. by rewrite Hx.
Qed.

(** The agents handed out by [k] requests, as long as the counter does not wrap. *)
Lemma next_agents_lookup k p :
  agents p ≠ [] → 0 ≤ counter p → counter p + Z.of_nat k < USIZE_MOD →
  AgentPool.next_agents k p =
  ((λ i, snd <$> agents p !! Z.to_nat ((counter p + Z.of_nat i) mod Z.of_nat (length (agents p))))
     <$> seq 0 k, Pool (counter p + Z.of_nat k) (agents p)).
Proof.
  revert p. induction k as [|k IH]; intros p Hne Hc Hw.
  - simpl. rewrite Z.add_0_r. by destruct p.
  - cbn [AgentPool.next_agents].
    destruct (next_agent_nonempty p Hne Hc) as (x & Hx & ->).
    rewrite Z.mod_small by lia.
    rewrite IH by (simpl; (done || lia)). cbn [counter agents].
    rewrite <-cons_seq, fmap_cons, Z.add_0_r, Hx. f_equal; [|f_equal; lia].
    simpl. f_equal. rewrite <-fmap_S_seq, <-list_fmap_compose.
    apply list_fmap_ext. intros i y _. simpl. do 4 f_equal. lia.
Qed.

Lemma rotate_lookup {A} (l : list A) (c i : nat) :
  (i < length l)%nat →
  (drop (c mod length l) l ++ take (c mod length l) l) !! i = l !! ((c + i) mod length l)%nat.
Proof.
  intros Hi. set (n := length l). set (r := (c mod n)%nat).
  assert (Hr : (r < n)%nat) by (apply Nat.mod_upper_bound; lia).
  assert (Hm : ((c + i) mod n = (r + i) mod n)%nat)
    by (unfold r; by rewrite Nat.Div0.add_mod_idemp_l).
  rewrite Hm. destruct (decide (r + i < n)%nat).
  - rewrite lookup_app_l by (rewrite length_drop; fold n; lia).
    rewrite lookup_drop, Nat.mod_small by done. done.
  - rewrite lookup_app_r by (rewrite length_drop; fold n; lia).
    rewrite length_drop. fold n.
    assert (((r + i) mod n = i - (n - r))%nat) as ->.
    { replace (r + i)%nat with ((i - (n - r)) + 1 * n)%nat by lia.
      rewrite Nat.Div0.mod_add. apply Nat.mod_small. lia. }
    rewrite lookup_take_lt by lia. done.
Qed.
End round_robin.

(** ** Registration and its cleanup task *)

Abbreviation AgentMap := (gmap string AgentPool).

(** [agents.entry(id).or_default().push(uid, agent)]. *)
Definition register (m : AgentMap) (id : string) (uid : Z) (a : Agent) : AgentMap :=
  <[id := AgentPool.push (default AgentPool.default (m !! id)) uid a]> m.

(** [if let Some(mut pool) = agents.get_mut(&id) { pool.remove(uid) }]. *)
Definition unregister_remove (m : AgentMap) (id : string) (uid : Z) : AgentMap :=
  alter (λ p, AgentPool.remove p uid) id m.

(** [agents.remove_if(&id, |_, pool| pool.is_empty())]. *)
Definition unregister_remove_if (m : AgentMap) (id : string) : AgentMap :=
  match m !! id with
  | Some p => if AgentPool.is_empty p then delete id m else m
  | None => m
  end.

Lemma unregister_remove_if_other m id id' :
  id ≠ id' → unregister_remove_if m id !! id' = m !! id'.
Proof.
  intros. unfold unregister_remove_if. repeat case_match; try done.
  by rewrite lookup_delete_ne.
Qed.

(** Where the task spawned by one [register] call stands: waiting for [done],
    about to remove the agent, about to drop an empty pool, finished. *)
Inductive link_pc := Live | Closing | Removed | Gone.
#[export] Instance link_pc_eq_dec : EqDecision link_pc.
Proof. solve_decision. Defined.

Record link := Link { l_id : string; l_uid : Z; l_agent : Agent; l_pc : link_pc }.

Definition set_pc (l : link) (pc : link_pc) : link :=
  Link (l_id l) (l_uid l) (l_agent l) pc.

(** The map and every registration so far, oldest first. *)
Record reg_state := Reg { reg_map : AgentMap; reg_links : list link }.

Definition reg_init : reg_state := Reg ∅ [].

Inductive reg_step : reg_state → reg_state → Prop :=
| reg_register m ls id uid a :
    reg_step (Reg m ls) (Reg (register m id uid a) (ls ++ [Link id uid a Live]))
| reg_done m l1 l l2 :                       (** [done.await] resolves *)
    l_pc l = Live →
    reg_step (Reg m (l1 ++ l :: l2)) (Reg m (l1 ++ set_pc l Closing :: l2))
| reg_remove m l1 l l2 :
    l_pc l = Closing →
    reg_step (Reg m (l1 ++ l :: l2))
      (Reg (unregister_remove m (l_id l) (l_uid l)) (l1 ++ set_pc l Removed :: l2))
| reg_remove_if m l1 l l2 :
    l_pc l = Removed →
    reg_step (Reg m (l1 ++ l :: l2))
      (Reg (unregister_remove_if m (l_id l)) (l1 ++ set_pc l Gone :: l2))
| reg_next m ls id p :                       (** a public request takes an agent *)
    m !! id = Some p →
    reg_step (Reg m ls) (Reg (<[id := (AgentPool.next_agent p).2]> m) ls).

(** The specification: a pool holds the agents of the connections for its id that
    have not been unregistered, in registration order. *)
Definition held (id : string) (l : link) : option (Z * Agent) :=
  if bool_decide (l_id l = id ∧ (l_pc l = Live ∨ l_pc l = Closing))
  then Some (l_uid l, l_agent l) else None.
Definition held_agents (id : string) (ls : list link) : list (Z * Agent) :=
  omap (held id) ls.

(** The random [uid]s of one client's connections are distinct. *)
Definition uids_distinct (ls : list link) : Prop :=
  NoDup ((λ l, (l_id l, l_uid l)) <$> ls).

Definition pool_agents (m : AgentMap) (id : string) : list (Z * Agent) :=
  default [] (agents <$> m !! id).

Definition reg_inv (s : reg_state) : Prop :=
  ∀ id, pool_agents (reg_map s) id = held_agents id (reg_links s) ∧
    (∀ p, reg_map s !! id = Some p → agents p = [] →
       ∃ l, l ∈ reg_links s ∧ l_id l = id ∧ l_pc l = Removed).

Lemma held_agents_app id l1 l2 :
  held_agents id (l1 ++ l2) = held_agents id l1 ++ held_agents id l2.
Proof. apply omap_app. Qed.

Lemma held_agents_cons id l ls :
  held_agents id (l :: ls) = option_list (held id l) ++ held_agents id ls.
Proof. unfold held_agents. simpl. by destruct (held id l). Qed.

Lemma held_agents_mid id l1 l l2 :
  held_agents id (l1 ++ l :: l2) =
  held_agents id l1 ++ option_list (held id l) ++ held_agents id l2.
Proof.
  by rewrite held_agents_app, held_agents_cons.
Qed.

Lemma set_pc_distinct l1 l l2 pc :
  uids_distinct (l1 ++ set_pc l pc :: l2) ↔ uids_distinct (l1 ++ l :: l2).
Proof. unfold uids_distinct. by rewrite !fmap_app, !fmap_cons. Qed.

(** No other registration of the client carries the [uid] being removed. *)
Lemma held_agents_remove id l1 l l2 :
  l_id l = id → uids_distinct (l1 ++ l :: l2) →
  filter (λ x, x.1 ≠ l_uid l) (held_agents id (l1 ++ l :: l2)) =
  held_agents id (l1 ++ set_pc l Removed :: l2).
Proof.
  intros Hid Hd. rewrite !held_agents_mid, !filter_app.
  assert (Hkeep : ∀ ls, Forall (λ l', (l_id l', l_uid l') ≠ (l_id l, l_uid l)) ls →
            filter (λ x : Z * Agent, x.1 ≠ l_uid l) (held_agents id ls) = held_agents id ls).
  { intros ls Hls. induction Hls as [|l' ls Hl' _ IH]; [done|].
    rewrite held_agents_cons. destruct (held id l') as [x|] eqn:Hh; [|exact IH].
    unfold held in Hh. case_bool_decide as Hc; [|done]. injection Hh as <-.
    simpl. rewrite filter_cons_True; [by rewrite IH|]. simpl. intros ?. apply Hl'.
    destruct Hc. congruence. }
  unfold uids_distinct in Hd. rewrite fmap_app, fmap_cons in Hd.
  apply NoDup_app in Hd as (_ & Hd1 & [Hd2 _]%NoDup_cons).
  rewrite !Hkeep; [f_equal| |].
  - unfold held at 2. rewrite (bool_decide_false (l_id _ = _ ∧ _)) by (simpl; naive_solver).
    unfold held. case_bool_decide; simpl; [|done].
    rewrite filter_cons_False by (simpl; naive_solver). done.
  - apply Forall_forall. intros l' Hl' Heq. apply Hd2. rewrite <-Heq.
    apply (list_elem_of_fmap_2 (λ l, (l_id l, l_uid l))). done.
  - apply Forall_forall. intros l' Hl' Heq.
    apply (Hd1 (l_id l', l_uid l')); [by apply (list_elem_of_fmap_2 (λ l, (l_id l, l_uid l)))|].
    rewrite Heq. by left.
Qed.

Lemma reg_inv_init : reg_inv reg_init.
Proof. intros id. by split. Qed.

Lemma held_other id l : l_id l ≠ id → held id l = None.
Proof. intros H. unfold held. rewrite bool_decide_false; naive_solver. Qed.

(** A link of another client, or one that is not [Removed], moves on: the
    witness for an empty pool is still there. *)
Lemma removed_witness_mono id l1 l l2 pc :
  (l_id l ≠ id ∨ l_pc l ≠ Removed) →
  (∃ l', l' ∈ l1 ++ l :: l2 ∧ l_id l' = id ∧ l_pc l' = Removed) →
  ∃ l', l' ∈ l1 ++ set_pc l pc :: l2 ∧ l_id l' = id ∧ l_pc l' = Removed.
Proof. intros H (l' & Hl' & ? & ?). exists l'. set_solver. Qed.

Section reg_steps.
Context (m : AgentMap) (id : string).
Implicit Types ls : list link.

(** The invariant at one id. *)
Definition reg_inv_at (s : reg_state) : Prop :=
  pool_agents (reg_map s) id = held_agents id (reg_links s) ∧
  (∀ p, reg_map s !! id = Some p → agents p = [] →
     ∃ l, l ∈ reg_links s ∧ l_id l = id ∧ l_pc l = Removed).

Lemma reg_inv_register ls id' uid a :
  reg_inv_at (Reg m ls) →
  reg_inv_at (Reg (register m id' uid a) (ls ++ [Link id' uid a Live])).
Proof.
  intros [Hag Hem]. unfold reg_inv_at, register, pool_agents in *. cbn [reg_map reg_links] in *.
  rewrite held_agents_app, held_agents_cons, <-Hag.
  destruct (decide (id' = id)) as [->|Hne].
  - rewrite lookup_insert_eq. unfold held. simpl. rewrite bool_decide_true by auto.
    split; [by destruct (m !! id)|]. intros p [= <-]. simpl. by intros [_ ?]%app_nil.
  - rewrite lookup_insert_ne, held_other by done. rewrite app_nil_r.
    split; [done|]. intros p Hp He. destruct (Hem p Hp He) as (l & ? & ?).
    exists l. set_solver.
Qed.

Lemma reg_inv_done l1 l l2 :
  l_pc l = Live →
  reg_inv_at (Reg m (l1 ++ l :: l2)) → reg_inv_at (Reg m (l1 ++ set_pc l Closing :: l2)).
Proof.
  intros Hpc [Hag Hem]. unfold reg_inv_at in *. cbn [reg_map reg_links] in *.
  rewrite held_agents_mid in *.
  assert (held id (set_pc l Closing) = held id l) as ->.
  { unfold held, set_pc. simpl. rewrite Hpc. repeat case_bool_decide; naive_solver. }
  split; [done|]. intros p Hp He. apply removed_witness_mono; [|by eapply Hem].
  right. by rewrite Hpc.
Qed.

Lemma reg_inv_remove l1 l l2 :
  l_pc l = Closing → uids_distinct (l1 ++ l :: l2) →
  reg_inv_at (Reg m (l1 ++ l :: l2)) →
  reg_inv_at (Reg (unregister_remove m (l_id l) (l_uid l)) (l1 ++ set_pc l Removed :: l2)).
Proof.
  intros Hpc Hd [Hag Hem]. unfold reg_inv_at, pool_agents, unregister_remove in *.
  cbn [reg_map reg_links] in *. destruct (decide (l_id l = id)) as [He|Hne].
  - rewrite He, lookup_alter_eq. split.
    + rewrite <-held_agents_remove, <-Hag by done. by destruct (m !! id).
    + intros. exists (set_pc l Removed). set_solver.
  - rewrite lookup_alter_ne by done. rewrite held_agents_mid in *.
    rewrite held_other in * by done. split; [done|]. intros p Hp He.
    apply removed_witness_mono; eauto.
Qed.

Lemma reg_inv_remove_if l1 l l2 :
  l_pc l = Removed →
  reg_inv_at (Reg m (l1 ++ l :: l2)) →
  reg_inv_at (Reg (unregister_remove_if m (l_id l)) (l1 ++ set_pc l Gone :: l2)).
Proof.
  intros Hpc [Hag Hem]. unfold reg_inv_at, pool_agents, unregister_remove_if in *.
  cbn [reg_map reg_links] in *. rewrite held_agents_mid in *.
  assert (held id (set_pc l Gone) = held id l) as ->.
  { unfold held, set_pc. simpl. rewrite Hpc. repeat case_bool_decide; naive_solver. }
  destruct (decide (l_id l = id)) as [He|Hne].
  - rewrite He. destruct (m !! id) as [p|] eqn:Hp; [|by rewrite Hp].
    unfold AgentPool.is_empty. case_bool_decide as Hemp.
    + rewrite lookup_delete_eq. split; [|done]. rewrite <-Hag. by simpl; rewrite Hemp.
    + rewrite Hp. split; [done|]. by intros ? [= <-].
  - fold (unregister_remove_if m (l_id l)). rewrite unregister_remove_if_other by done.
    split; [done|]. intros p Hp He.
    apply removed_witness_mono; eauto.
Qed.

Lemma reg_inv_next ls id' p :
  m !! id' = Some p →
  reg_inv_at (Reg m ls) → reg_inv_at (Reg (<[id' := (AgentPool.next_agent p).2]> m) ls).
Proof.
  intros Hp [Hag Hem]. unfold reg_inv_at, pool_agents in *. cbn [reg_map reg_links] in *.
  assert (Hs : agents (AgentPool.next_agent p).2 = agents p).
  { unfold AgentPool.next_agent. by case_match. }
  destruct (decide (id' = id)) as [->|]; [|by rewrite lookup_insert_ne].
  rewrite lookup_insert_eq. simpl. rewrite Hs. rewrite Hp in Hag. split; [done|].
  intros ? [= <-]. rewrite Hs. eauto.
Qed.
End reg_steps.

Lemma reg_inv_step s s' :
  reg_step s s' → uids_distinct (reg_links s') → reg_inv s → reg_inv s'.
Proof.
  intros Hstep Hd Hinv id. specialize (Hinv id). destruct Hstep.
  - by apply reg_inv_register.
  - by apply reg_inv_done.
  - apply reg_inv_remove; [done|by apply set_pc_distinct in Hd|done].
  - by apply reg_inv_remove_if.
  - by apply reg_inv_next.
Qed.

Lemma reg_step_distinct s s' :
  reg_step s s' → uids_distinct (reg_links s') → uids_distinct (reg_links s).
Proof.
  destruct 1; simpl; rewrite ?set_pc_distinct; try done.
  unfold uids_distinct. rewrite fmap_app. by intros [? _]%NoDup_app.
Qed.

Lemma reg_inv_reachable s :
  rtc reg_step reg_init s → uids_distinct (reg_links s) → reg_inv s.
Proof.
  apply (rtc_invariant _ (λ s, uids_distinct (reg_links s) → reg_inv s)).
  - intros _. apply reg_inv_init.
  - eauto using reg_inv_step, reg_step_distinct.
Qed.

(** What each call does to one client's pool. *)
Lemma pool_agents_register m id uid a id' :
  pool_agents (register m id uid a) id' =
  pool_agents m id' ++ (if decide (id = id') then [(uid, a)] else []).
Proof.
  unfold pool_agents, register. case_decide as Hid.
  - subst. rewrite lookup_insert_eq. by destruct (m !! id').
  - by rewrite lookup_insert_ne, app_nil_r.
Qed.

Lemma pool_agents_remove m id uid id' x :
  x ∈ pool_agents (unregister_remove m id uid) id' → x ∈ pool_agents m id'.
Proof.
  unfold pool_agents, unregister_remove. destruct (decide (id = id')) as [->|].
  - rewrite lookup_alter_eq. destruct (m !! id'); [|done]. simpl.
    by intros [_ ?]%list_elem_of_filter.
  - by rewrite lookup_alter_ne.
Qed.

Lemma pool_agents_remove_if m id id' :
  pool_agents (unregister_remove_if m id) id' = pool_agents m id'.
Proof.
  unfold pool_agents. destruct (decide (id = id')) as [->|]; [|by rewrite unregister_remove_if_other].
  unfold unregister_remove_if. destruct (m !! id') as [p|] eqn:Hp; [|by rewrite Hp].
  unfold AgentPool.is_empty. case_bool_decide as He; [|by rewrite Hp].
  rewrite lookup_delete_eq. simpl. by rewrite He.
Qed.

(** ** Pending TLS-ALPN-01 challenges *)

Inductive PendingAlpnConn := PendingQuic (c : handle) | PendingH2 (s : handle).
#[export] Instance PendingAlpnConn_eq_dec : EqDecision PendingAlpnConn.
Proof. solve_decision. Defined.

Record PendingAlpn := Pend { p_token : Z; p_conn : PendingAlpnConn }.

Abbreviation PendingAlpnMap := (gmap string PendingAlpn).

(** [pending_alpn_insert]: [PENDING_ALPN_TOKEN] is the process-wide [AtomicU64];
    the new counter, the map and the token. *)
Definition pending_alpn_insert (token : Z) (m : PendingAlpnMap) (id : string)
    (c : PendingAlpnConn) : Z * PendingAlpnMap * Z :=
  ((token + 1) mod 2 ^ 64, <[id := Pend token c]> m, token).

(** [pending_alpn_remove]: [remove_if(client_id, |_, e| e.token == token)]. *)
Definition pending_alpn_remove (m : PendingAlpnMap) (id : string) (token : Z) : PendingAlpnMap :=
  match m !! id with
  | Some e => if p_token e =? token then delete id m else m
  | None => m
  end.

Lemma pending_alpn_remove_other m id id' token :
  id ≠ id' → pending_alpn_remove m id token !! id' = m !! id'.
Proof.
  intros. unfold pending_alpn_remove. repeat case_match; try done.
  by rewrite lookup_delete_ne.
Qed.

(** One connection that services a challenge: registered, then removed. *)
Record waiter := Waiter { wt_id : string; wt_entry : PendingAlpn; wt_done : bool }.

Record pend_state := PendState {
  ps_token : Z; ps_map : PendingAlpnMap; ps_waiters : list waiter }.

Definition pend_init : pend_state := PendState 0 ∅ [].

Inductive pend_step : pend_state → pend_state → Prop :=
| pend_insert t m ws id c t' m' tok :
    pending_alpn_insert t m id c = (t', m', tok) →
    pend_step (PendState t m ws) (PendState t' m' (ws ++ [Waiter id (Pend tok c) false]))
| pend_remove t m w1 w w2 :
    wt_done w = false →
    pend_step (PendState t m (w1 ++ w :: w2))
      (PendState t (pending_alpn_remove m (wt_id w) (p_token (wt_entry w)))
         (w1 ++ Waiter (wt_id w) (wt_entry w) true :: w2)).

(** The most recent registration for [id]. *)
Definition latest (id : string) (ws : list waiter) : option waiter :=
  last (filter (λ w, wt_id w = id) ws).

Definition pend_inv (s : pend_state) : Prop :=
  ps_token s = Z.of_nat (length (ps_waiters s)) ∧
  (∀ i w, ps_waiters s !! i = Some w → p_token (wt_entry w) = Z.of_nat i) ∧
  ∀ id, ps_map s !! id =
    match latest id (ps_waiters s) with
    | Some w => if wt_done w then None else Some (wt_entry w)
    | None => None
    end.

Lemma latest_snoc id ws w :
  latest id (ws ++ [w]) = if decide (wt_id w = id) then Some w else latest id ws.
Proof.
  unfold latest. rewrite filter_app. case_decide.
  - rewrite filter_cons_True by done. simpl. apply last_snoc.
  - rewrite filter_cons_False by done. simpl. by rewrite app_nil_r.
Qed.

(** Marking one waiter done changes the latest of its client only if it is it. *)
Lemma latest_mark id w1 w w2 :
  latest id (w1 ++ Waiter (wt_id w) (wt_entry w) true :: w2) =
  match latest id w2 with
  | Some w' => Some w'
  | None => if decide (wt_id w = id) then Some (Waiter (wt_id w) (wt_entry w) true)
            else latest id w1
  end ∧
  latest id (w1 ++ w :: w2) =
  match latest id w2 with
  | Some w' => Some w'
  | None => if decide (wt_id w = id) then Some w else latest id w1
  end.
Proof.
  unfold latest. rewrite !filter_app, !last_app.
  split; (destruct (decide (wt_id w = id));
    [rewrite filter_cons_True by done; rewrite last_cons
    |rewrite filter_cons_False by done]); repeat case_match; simplify_eq; done.
Qed.

Lemma pend_inv_init : pend_inv pend_init.
Proof. by split_and!. Qed.

Lemma elem_of_latest id ws w :
  latest id ws = Some w → ∃ i, ws !! i = Some w ∧ wt_id w = id.
Proof.
  unfold latest. intros H%last_Some_elem_of. apply list_elem_of_filter in H as [Hid H].
  apply list_elem_of_lookup in H as [i Hi]. eauto.
Qed.

Lemma pend_inv_remove t m w1 w w2 :
  wt_done w = false →
  pend_inv (PendState t m (w1 ++ w :: w2)) →
  pend_inv (PendState t (pending_alpn_remove m (wt_id w) (p_token (wt_entry w)))
              (w1 ++ Waiter (wt_id w) (wt_entry w) true :: w2)).
Proof.
  intros Hd (Ht & Htok & Hm). unfold pend_inv in *. cbn [ps_token ps_map ps_waiters] in *.
  assert (Hw : p_token (wt_entry w) = Z.of_nat (length w1)).
  { apply Htok. by rewrite list_lookup_middle. }
  split_and!.
  - rewrite Ht, !length_app. done.
  - intros i w' Hi. destruct (decide (i = length w1)) as [->|Hne].
    + rewrite list_lookup_middle in Hi by done. simplify_eq/=. done.
    + apply Htok. rewrite <-Hi. rewrite !lookup_app. case_match; [done|].
      destruct (i - length w1)%nat eqn:?; [|done]. apply lookup_ge_None in H. lia.
  - intros id. specialize (Hm id). destruct (latest_mark id w1 w w2) as [-> Hl].
    rewrite Hl in Hm. unfold pending_alpn_remove.
    destruct (decide (wt_id w = id)) as [<-|Hne].
    + destruct (latest (wt_id w) w2) as [w'|] eqn:Hw2.
      * rewrite Hm. destruct (wt_done w'); [done|].
        destruct (elem_of_latest _ _ _ Hw2) as (i & Hi & _).
        assert (p_token (wt_entry w') = Z.of_nat (length w1 + S i)) as ->.
        { apply Htok. rewrite lookup_app_r by lia.
          by replace (length w1 + S i - length w1)%nat with (S i) by lia. }
        rewrite Hw. destruct (Z.eqb_spec (Z.of_nat (length w1 + S i)) (Z.of_nat (length w1))); [lia|].
        done.
      * rewrite Hd in Hm. rewrite Hm, Z.eqb_refl. simpl. apply lookup_delete_eq.
    + fold (pending_alpn_remove m (wt_id w) (p_token (wt_entry w))).
      by rewrite pending_alpn_remove_other.
Qed.

Lemma pend_inv_step s s' :
  pend_step s s' → Z.of_nat (length (ps_waiters s')) < 2 ^ 64 → pend_inv s → pend_inv s'.
Proof.
  destruct 1 as [t m ws id c t' m' tok Hins|t m w1 w w2 Hd].
  - intros Hlen (Ht & Htok & Hm). unfold pending_alpn_insert in Hins. simplify_eq.
    unfold pend_inv. cbn [ps_token ps_map ps_waiters] in *. rewrite length_app in *.
    simpl in *. split_and!.
    + rewrite Z.mod_small by lia. lia.
    + intros i w Hi. apply lookup_app_Some in Hi as [Hi|[Hge Hi]]; [by apply Htok|].
      apply list_lookup_singleton_Some in Hi as [? <-]. simpl. lia.
    + intros id'. rewrite latest_snoc. simpl. case_decide as Hid.
      * subst. by rewrite lookup_insert_eq.
      * by rewrite lookup_insert_ne.
  - intros _. by apply pend_inv_remove.
Qed.

Lemma pend_inv_reachable s :
  rtc pend_step pend_init s → Z.of_nat (length (ps_waiters s)) < 2 ^ 64 → pend_inv s.
Proof.
  apply (rtc_invariant _ (λ s, Z.of_nat (length (ps_waiters s)) < 2 ^ 64 → pend_inv s)).
  - intros _. apply pend_inv_init.
  - intros s1 s2 Hstep IH Hlen. eapply pend_inv_step; eauto. apply IH.
    assert (length (ps_waiters s1) ≤ length (ps_waiters s2))%nat; [|lia].
    destruct Hstep; simpl; rewrite !length_app; simpl; lia.
Qed.

(** ** Properties *)

(** C12: under any interleaving of registrations, cleanups and requests, each
    client's pool holds exactly the agents of its connections that have not been
    unregistered yet, in registration order: cleaning up after one connection
    never loses another one's agent, and once no cleanup is halfway, no empty
    pool is left behind. *)
Theorem registry_refines_links s :
  rtc reg_step reg_init s → uids_distinct (reg_links s) →
  (∀ id, pool_agents (reg_map s) id = held_agents id (reg_links s)) ∧
  (Forall (λ l, l_pc l ≠ Removed) (reg_links s) →
   ∀ id, is_Some (reg_map s !! id) ↔
     ∃ l, l ∈ reg_links s ∧ l_id l = id ∧ (l_pc l = Live ∨ l_pc l = Closing)).
Proof.
  intros Hr Hd. pose proof (reg_inv_reachable s Hr Hd) as Hinv. split; [apply Hinv|].
  intros Hq id. destruct (Hinv id) as [Hag Hem]. unfold pool_agents in Hag. split.
  - intros [p Hp]. rewrite Hp in Hag. simpl in Hag.
    destruct (agents p) as [|x l] eqn:Ha.
    + destruct (Hem p Hp Ha) as (l & Hl & _ & Hrm).
      rewrite Forall_forall in Hq. by destruct (Hq l Hl).
    + assert (Hx : x ∈ held_agents id (reg_links s)) by (rewrite <-Hag; by left).
      apply list_elem_of_omap in Hx as (l' & Hl' & Hh). unfold held in Hh.
      case_bool_decide as Hc; [|done]. naive_solver.
  - intros (l & Hl & Hid & Hpc). destruct (reg_map s !! id); [done|]. simpl in Hag.
    assert (Hx : (l_uid l, l_agent l) ∈ held_agents id (reg_links s)).
    { apply list_elem_of_omap. exists l. split; [done|]. unfold held.
      by rewrite bool_decide_true. }
    rewrite <-Hag in Hx. by apply not_elem_of_nil in Hx.
Qed.

(** Two connections of one client; the first closes while the second registers. *)
Definition race_final : reg_state :=
  Reg (unregister_remove_if (unregister_remove
         (register (register ∅ "ab" 7 (AgentQuic 1)) "ab" 9 (AgentH2 2)) "ab" 7) "ab")
      [Link "ab" 7 (AgentQuic 1) Gone; Link "ab" 9 (AgentH2 2) Live].

Lemma race_final_reachable : rtc reg_step reg_init race_final.
Proof.
  eapply rtc_l; [apply (reg_register _ [] "ab" 7 (AgentQuic 1))|].
  eapply rtc_l; [by apply (reg_done _ [] (Link "ab" 7 (AgentQuic 1) Live) [])|].
  eapply rtc_l; [apply (reg_register _ [Link "ab" 7 (AgentQuic 1) Closing] "ab" 9 (AgentH2 2))|].
  eapply rtc_l; [by apply (reg_remove _ [] (Link "ab" 7 (AgentQuic 1) Closing)
                             [Link "ab" 9 (AgentH2 2) Live])|].
  eapply rtc_l; [by apply (reg_remove_if _ [] (Link "ab" 7 (AgentQuic 1) Removed)
                             [Link "ab" 9 (AgentH2 2) Live])|].
  apply rtc_refl.
Qed.

Lemma registry_refines_links_witness :
  pool_agents (reg_map race_final) "ab" = [(9, AgentH2 2)].
Proof.
  refine (proj1 (registry_refines_links race_final race_final_reachable _) "ab").
  apply (bool_decide_unpack (NoDup _)). vm_compute. exact I.
Defined.

(** requests are spread round-robin: as long as its counter does not wrap, a
    pool of [n] agents hands out, in any [n] consecutive requests, each of them
    exactly once, in registration order starting from the next one due. *)
Theorem next_agent_round_robin p :
  agents p ≠ [] → 0 ≤ counter p →
  counter p + Z.of_nat (length (agents p)) < USIZE_MOD →
  let r := Z.to_nat (counter p mod Z.of_nat (length (agents p))) in
  (AgentPool.next_agents (length (agents p)) p).1 =
    (λ x, Some x.2) <$> drop r (agents p) ++ take r (agents p).
Proof.
  intros Hne Hc Hw r. rewrite next_agents_lookup by done. cbn [fst].
  assert (Hr : r = (Z.to_nat (counter p) mod length (agents p))%nat).
  { unfold r. rewrite Z2Nat.inj_mod by lia. by rewrite Nat2Z.id. }
  apply list_eq. intros i. rewrite !list_lookup_fmap.
  destruct (decide (i < length (agents p))%nat) as [Hi|Hi].
  - rewrite lookup_seq_lt by done. simpl. rewrite Hr, rotate_lookup by done.
    rewrite Z2Nat.inj_mod, Z2Nat.inj_add, !Nat2Z.id by lia.
    destruct (lookup_lt_is_Some_2 (agents p) ((Z.to_nat (counter p) + i) mod length (agents p)))
      as [x ->]; [|done]. apply Nat.mod_upper_bound. lia.
  - rewrite lookup_seq_ge by lia. simpl. rewrite lookup_ge_None_2; [done|].
    rewrite length_app, length_drop, length_take. lia.
Qed.

Lemma next_agent_round_robin_witness :
  (AgentPool.next_agents 3 (Pool 4 [(1, AgentQuic 10); (2, AgentH2 20); (3, AgentH2 30)])).1
  = [Some (AgentH2 20); Some (AgentH2 30); Some (AgentQuic 10)].
Proof.
  apply (next_agent_round_robin (Pool 4 [(1, AgentQuic 10); (2, AgentH2 20); (3, AgentH2 30)]));
    [done|simpl; lia|vm_compute; reflexivity].
Defined.

(** C13: under any interleaving, the challenge map routes a client to its most
    recently registered challenge connection for as long as that connection is
    waiting, and to nothing afterwards: a replaced connection's cleanup never
    removes the entry of the connection that replaced it, and no entry outlives
    its connection's wait. *)
Theorem pending_alpn_latest s id :
  rtc pend_step pend_init s → Z.of_nat (length (ps_waiters s)) < 2 ^ 64 →
  ps_map s !! id =
    match latest id (ps_waiters s) with
    | Some w => if wt_done w then None else Some (wt_entry w)
    | None => None
    end.
Proof. intros Hr Hl. by apply pend_inv_reachable. Qed.

Definition reconnect_final : pend_state :=
  PendState 2 (pending_alpn_remove
    (<["ab" := Pend 1 (PendingH2 2)]> (<["ab" := Pend 0 (PendingQuic 1)]> ∅)) "ab" 0)
    [Waiter "ab" (Pend 0 (PendingQuic 1)) true; Waiter "ab" (Pend 1 (PendingH2 2)) false].

Lemma reconnect_final_reachable : rtc pend_step pend_init reconnect_final.
Proof.
  eapply rtc_l; [by apply (pend_insert 0 ∅ [] "ab" (PendingQuic 1))|].
  eapply rtc_l; [by apply (pend_insert 1 _ [Waiter "ab" (Pend 0 (PendingQuic 1)) false]
                             "ab" (PendingH2 2))|].
  eapply rtc_l; [by apply (pend_remove 2 _ [] (Waiter "ab" (Pend 0 (PendingQuic 1)) false)
                             [Waiter "ab" (Pend 1 (PendingH2 2)) false])|].
  apply rtc_refl.
Qed.

Lemma pending_alpn_latest_witness :
  ps_map reconnect_final !! "ab" = Some (Pend 1 (PendingH2 2)).
Proof.
  exact (pending_alpn_latest reconnect_final "ab" reconnect_final_reachable ltac:(simpl; lia)).
Defined.
