(* ===== verification/Admission.v ===== *)
(** * Admission.v: tunnel-server/src/admission.rs

    The budget of accepted but unauthenticated connections of one listener, and
    the throttled refusal log. The accept loop ([try_admit]) runs concurrently
    with the connection tasks that give their permit back. *)

From S2P Require Import Prelude.

Definition MAX_UNAUTHENTICATED_CONNS : nat := 512.
Definition REFUSAL_LOG_INTERVAL : Z := from_secs 5.
Definition AUTH_EXCHANGE_TIMEOUT : Z := from_secs 30.
Definition KEY_AUTH_TIMEOUT : Z := from_secs 120.

(** [permits]: what the [Semaphore] has left; instants in nanoseconds. *)
Record Admission := Adm {
  proto : string;
  permits : nat;
  last_refusal_log : option Z;
}.

Inductive refusal_log := Warned | Debugged.

Module Admission.
Definition new (proto : string) : Admission := Adm proto MAX_UNAUTHENTICATED_CONNS None.

(** Whether the caller got a permit, and what was logged if not. *)
Definition try_admit (a : Admission) (now : Z) : (() + refusal_log) * Admission :=
  match permits a with
  | S n => (inl tt, Adm (proto a) n (last_refusal_log a))
  | O =>
      if (match last_refusal_log a with
          | None => true
          | Some t => REFUSAL_LOG_INTERVAL <=? now - t
          end)
      then (inr Warned, Adm (proto a) (permits a) (Some now))
      else (inr Debugged, a)
  end.

(** An [OwnedSemaphorePermit] is dropped. *)
Definition release (a : Admission) : Admission :=
  Adm (proto a) (S (permits a)) (last_refusal_log a).
End Admission.

(** A listener over time: its admission state, the connections holding a permit,
    the clock, and the times of its warnings, latest first. *)
Record adm_state := AdmState {
  as_adm : Admission; as_held : nat; as_clock : Z; as_warned : list Z }.

Definition adm_init (p : string) (t : Z) : adm_state := AdmState (Admission.new p) 0 t [].

Inductive adm_step : adm_state → adm_state → Prop :=
| adm_tick a h t w d : 0 ≤ d → adm_step (AdmState a h t w) (AdmState a h (t + d) w)
| adm_admit a a' h t w :
    Admission.try_admit a t = (inl tt, a') →
    adm_step (AdmState a h t w) (AdmState a' (S h) t w)
| adm_refuse a a' h t w l :
    Admission.try_admit a t = (inr l, a') →
    adm_step (AdmState a h t w)
      (AdmState a' h t (match l with Warned => t :: w | Debugged => w end))
| adm_release a h t w :
    adm_step (AdmState a (S h) t w) (AdmState (Admission.release a) h t w).

(** Consecutive warnings (latest first) are spaced out. *)
Definition spaced (w : list Z) : Prop :=
  Sorted (λ later earlier, REFUSAL_LOG_INTERVAL ≤ later - earlier) w.

Definition adm_inv (s : adm_state) : Prop :=
  (permits (as_adm s) + as_held s = MAX_UNAUTHENTICATED_CONNS)%nat ∧
  last_refusal_log (as_adm s) = head (as_warned s) ∧ spaced (as_warned s).

Lemma adm_inv_step s s' : adm_step s s' → adm_inv s → adm_inv s'.
Proof.
  unfold adm_inv. destruct 1 as [a h t w d Hd|a a' h t w Ht|a a' h t w l Ht|a h t w];
    unfold Admission.try_admit in *; cbn [as_adm as_held as_warned] in *;
    intros (Hp & Hl & Hs).
  - done.
  - destruct (permits a) eqn:E; [repeat case_match; simplify_eq|]. simplify_eq/=.
    split_and!; (done || unfold MAX_UNAUTHENTICATED_CONNS in *; lia).
  - destruct (permits a) eqn:E; [|done].
    destruct (last_refusal_log a) as [t0|] eqn:El.
    + destruct (Z.leb_spec REFUSAL_LOG_INTERVAL (t - t0)); simplify_eq/=.
      * split_and!; [by rewrite ?E|done|]. constructor; [done|].
        destruct w; simplify_eq/=. by constructor.
      * split_and!; [by rewrite ?E|by rewrite El|done].
    + simplify_eq/=. split_and!; [by rewrite ?E|done|].
      destruct w; [|done]. by repeat constructor.
  - simpl. split_and!; (done || unfold MAX_UNAUTHENTICATED_CONNS in *; lia).
Qed.

Lemma adm_inv_reachable p t s : rtc adm_step (adm_init p t) s → adm_inv s.
Proof.
  apply rtc_invariant; [|eauto using adm_inv_step].
  split_and!; [done|done|constructor].
Qed.

(** however connections come and go, at most [MAX_UNAUTHENTICATED_CONNS]
    unauthenticated ones are in flight; a new one is refused exactly when that
    many are, without waiting for any of them; and a flood of refusals warns at
    most once per [REFUSAL_LOG_INTERVAL]. *)
Theorem admission_bounded p t s :
  rtc adm_step (adm_init p t) s →
  (as_held s ≤ MAX_UNAUTHENTICATED_CONNS)%nat ∧
  ((Admission.try_admit (as_adm s) (as_clock s)).1 = inl tt ↔
     (as_held s < MAX_UNAUTHENTICATED_CONNS)%nat) ∧
  spaced (as_warned s).
Proof.
  intros (Hp & _ & Hs)%adm_inv_reachable. unfold Admission.try_admit.
  split_and!; [lia| |done].
  destruct (permits (as_adm s)) eqn:E; [|split; [lia|done]].
  destruct (match last_refusal_log (as_adm s) with
            | Some t0 => _ | None => true end); (split; [done|lia]).
Qed.

Lemma admission_bounded_witness :
  (Admission.try_admit (Admission.release (Adm "H2" 510 None)) 7).1 = inl tt.
Proof.
  assert (H : rtc adm_step (adm_init "H2" 5)
            (AdmState (Admission.release (Adm "H2" 510 None)) 1 7 [])).
  { eapply rtc_l; [by apply adm_admit|]. eapply rtc_l; [by apply adm_admit|].
    eapply rtc_l; [by apply (adm_tick _ _ _ _ 2)|].
    eapply rtc_l; [apply adm_release|]. apply rtc_refl. }
  apply (admission_bounded "H2" 5 _ H). simpl. unfold MAX_UNAUTHENTICATED_CONNS. lia.
Defined.
