(* ===== verification/Key.v ===== *)
(** * Key.v: tunnel-client/src/key.rs

    The remote-signing abstraction ([TunnelKey]), the in-process key
    ([RcgenKey]) and the adapters to rcgen and rustls. rcgen's key pairs and
    yasna's DER writer are other crates' code: the classes [Rcgen] and [Yasna]
    list the calls. *)

From S2P Require Import Prelude.

(** ** Algorithms *)

Inductive KeyAlgorithm := Ed25519 | EcdsaP256.
#[export] Instance KeyAlgorithm_eq_dec : EqDecision KeyAlgorithm.
Proof. solve_decision. Defined.

(** rcgen's and rustls' names; only the ones the sources mention. *)
Inductive RcgenSigAlg := PKCS_ED25519 | PKCS_ECDSA_P256_SHA256.
Inductive SignatureScheme := ED25519 | ECDSA_NISTP256_SHA256 | SchemeOther (code : Z).
Inductive RustlsSigAlg := AlgED25519 | AlgECDSA.
#[export] Instance SignatureScheme_eq_dec : EqDecision SignatureScheme.
Proof. solve_decision. Defined.

Module KeyAlg.
Definition rcgen_sig_alg (a : KeyAlgorithm) : RcgenSigAlg :=
  match a with Ed25519 => PKCS_ED25519 | EcdsaP256 => PKCS_ECDSA_P256_SHA256 end.

Definition rustls_scheme (a : KeyAlgorithm) : SignatureScheme :=
  match a with Ed25519 => ED25519 | EcdsaP256 => ECDSA_NISTP256_SHA256 end.

Definition rustls_alg (a : KeyAlgorithm) : RustlsSigAlg :=
  match a with Ed25519 => AlgED25519 | EcdsaP256 => AlgECDSA end.

Definition spki_oid (a : KeyAlgorithm) : list Z :=
  match a with
  | Ed25519 => [1; 3; 101; 112]
  | EcdsaP256 => [1; 2; 840; 10045; 2; 1]
  end.

Definition spki_curve_oid (a : KeyAlgorithm) : option (list Z) :=
  match a with
  | Ed25519 => None
  | EcdsaP256 => Some [1; 2; 840; 10045; 3; 1; 7]
  end.
End KeyAlg.

(** [dyn TunnelKey]. *)
Record TunnelKey := MkKey {
  algorithm : KeyAlgorithm;
  public_key_raw : bytes;
  sign : bytes → option bytes;      (** [None]: the signer failed *)
}.

(** ** Other crates *)

(** What is handed to yasna's writer. *)
Inductive der :=
| DerSequence (items : list der)
| DerOid (arcs : list Z)
| DerBitvec (b : bytes) (bits : Z)
| DerOctets (b : bytes)
| DerU8 (z : Z).

Class Yasna := {
  construct_der : der → bytes;
  parse_octet_string : bytes → option bytes;    (** [parse_der] of [read_bytes] *)
}.

Class YasnaOk `{Yasna} := {
  construct_der_inj d d' : construct_der d = construct_der d' → d = d';
  parse_construct_octets b : parse_octet_string (construct_der (DerOctets b)) = Some b;
}.

Class Rcgen := {
  KeyPair : Type;
  generate_for : RcgenSigAlg → Z → option KeyPair;   (** algorithm, randomness *)
  keypair_try_from : bytes → option KeyPair;
  is_compatible : KeyPair → RcgenSigAlg → bool;
  from_pkcs8_der_and_sign_algo : bytes → RcgenSigAlg → option KeyPair;
  keypair_public_key_raw : KeyPair → bytes;
  keypair_sign : KeyPair → bytes → option bytes;
  serialize_der : KeyPair → bytes;
}.

(** A key pair made for an algorithm is compatible with it, and its PKCS#8 form
    is read back. *)
Class RcgenOk `{Rcgen} := {
  generate_for_compatible alg seed kp :
    generate_for alg seed = Some kp → is_compatible kp alg = true;
  from_pkcs8_compatible der alg kp :
    from_pkcs8_der_and_sign_algo der alg = Some kp → is_compatible kp alg = true;
  try_from_serialized kp : keypair_try_from (serialize_der kp) = Some kp;
}.

(** ** SPKI and PKCS#8 *)

Section der.
Context `{Yasna}.

Definition ed25519_seed_to_pkcs8 (seed : bytes) : bytes :=
  construct_der (DerSequence
    [DerU8 0;
     DerSequence [DerOid (KeyAlg.spki_oid Ed25519)];
     DerOctets (construct_der (DerOctets seed))]).

Definition build_spki (alg : KeyAlgorithm) (raw_public_key : bytes) : bytes :=
  construct_der (DerSequence
    [DerSequence (DerOid (KeyAlg.spki_oid alg)
                    :: option_list (DerOid <$> KeyAlg.spki_curve_oid alg));
     DerBitvec raw_public_key (Z.of_nat (length raw_public_key) * 8)]).
End der.

(** ** [RcgenKey] *)

Inductive key_error :=
| GenerateFailed | Pkcs8Failed | UnsupportedAlgorithm | BadSeedLength (len : Z).

Section rcgen_key.
Context `{Rcgen, Yasna}.

Record RcgenKey := MkRcgenKey {
  rk_keypair : KeyPair; rk_algorithm : KeyAlgorithm; rk_raw_pub : bytes }.

Definition wrap (kp : KeyPair) (alg : KeyAlgorithm) : RcgenKey :=
  MkRcgenKey kp alg (keypair_public_key_raw kp).

Definition generate (alg : KeyAlgorithm) (seed : Z) : result key_error RcgenKey :=
  kp ← ok_or GenerateFailed (generate_for (KeyAlg.rcgen_sig_alg alg) seed);
  Ok (wrap kp alg).

Definition from_pkcs8_der (d : bytes) : result key_error RcgenKey :=
  kp ← ok_or Pkcs8Failed (keypair_try_from d);
  alg ← (if is_compatible kp PKCS_ECDSA_P256_SHA256 then Ok EcdsaP256
         else if is_compatible kp PKCS_ED25519 then Ok Ed25519
         else Err UnsupportedAlgorithm);
  Ok (wrap kp alg).

Definition from_ed25519_seed (seed : bytes) : result key_error RcgenKey :=
  if bool_decide (length seed ≠ 32%nat) then Err (BadSeedLength (Z.of_nat (length seed)))
  else
    kp ← ok_or Pkcs8Failed
           (from_pkcs8_der_and_sign_algo (ed25519_seed_to_pkcs8 seed) PKCS_ED25519);
    Ok (wrap kp Ed25519).

(** [impl TunnelKey for RcgenKey]. *)
Definition tunnel_key (k : RcgenKey) : TunnelKey :=
  MkKey (rk_algorithm k) (rk_raw_pub k) (keypair_sign (rk_keypair k)).
End rcgen_key.

(** ** Adapters *)

Section adapters.
Context `{Yasna}.

(** [RcgenRemoteKey]: what rcgen reads when it builds a certificate. *)
Record RcgenRemoteKey := MkRcgenRemote { rr_inner : TunnelKey; rr_raw_pub : bytes }.
Definition rcgen_remote_key (k : TunnelKey) : RcgenRemoteKey :=
  MkRcgenRemote k (public_key_raw k).
Definition rr_der_bytes (k : RcgenRemoteKey) : bytes := rr_raw_pub k.
Definition rr_algorithm (k : RcgenRemoteKey) : RcgenSigAlg :=
  KeyAlg.rcgen_sig_alg (algorithm (rr_inner k)).
Definition rr_sign (k : RcgenRemoteKey) (msg : bytes) : option bytes :=
  sign (rr_inner k) msg.

(** [RustlsRemoteKey] and its signer. *)
Record RustlsRemoteKey := MkRustlsRemote { rl_inner : TunnelKey; rl_spki : bytes }.
Record RustlsRemoteSigner := MkSigner { sg_inner : TunnelKey; sg_scheme : SignatureScheme }.

Definition rustls_remote_key (k : TunnelKey) : RustlsRemoteKey :=
  MkRustlsRemote k (build_spki (algorithm k) (public_key_raw k)).

Definition choose_scheme (k : RustlsRemoteKey) (offered : list SignatureScheme) :
    option RustlsRemoteSigner :=
  let scheme := KeyAlg.rustls_scheme (algorithm (rl_inner k)) in
  if bool_decide (scheme ∈ offered) then Some (MkSigner (rl_inner k) scheme) else None.

Definition rl_public_key (k : RustlsRemoteKey) : bytes := rl_spki k.
Definition rl_algorithm (k : RustlsRemoteKey) : RustlsSigAlg :=
  KeyAlg.rustls_alg (algorithm (rl_inner k)).
Definition sg_sign (s : RustlsRemoteSigner) (msg : bytes) : option bytes :=
  sign (sg_inner s) msg.
End adapters.

(** ** Properties *)

Section properties.
Context `{RcgenOk, YasnaOk}.

(** The key kept in memory is the one it says it is. *)
Definition key_consistent (k : RcgenKey) : Prop :=
  is_compatible (rk_keypair k) (KeyAlg.rcgen_sig_alg (rk_algorithm k)) = true ∧
  rk_raw_pub k = keypair_public_key_raw (rk_keypair k).

(** Every [RcgenKey] is built by one of the three constructors. *)
Inductive constructed : RcgenKey → Prop :=
| by_generate alg seed k : generate alg seed = Ok k → constructed k
| by_pkcs8 d k : from_pkcs8_der d = Ok k → constructed k
| by_seed seed k : from_ed25519_seed seed = Ok k → constructed k.

Lemma constructed_consistent k : constructed k → key_consistent k.
Proof.
  unfold key_consistent. destruct 1 as [alg seed k E|d k E|seed k E].
  - unfold generate in E. destruct (generate_for _ _) eqn:Hg; simplify_eq/=.
    eauto using generate_for_compatible.
  - unfold from_pkcs8_der in E. destruct (keypair_try_from d); simplify_eq/=.
    repeat case_match; simplify_eq/=; done.
  - unfold from_ed25519_seed in E. case_bool_decide; [done|].
    destruct (from_pkcs8_der_and_sign_algo _ _) eqn:Hg; simplify_eq/=.
    eauto using from_pkcs8_compatible.
Qed.

(** however an in-process key was made (generated, loaded from PKCS#8 or
    derived from a seed), the algorithm it reports is one its key pair signs
    with, and the TLS signer rustls obtains from it signs under that
    algorithm's scheme only, and only when the peer offered it. *)
Theorem rcgen_key_signs_as_announced k offered :
  constructed k →
  is_compatible (rk_keypair k) (rr_algorithm (rcgen_remote_key (tunnel_key k))) = true ∧
  match choose_scheme (rustls_remote_key (tunnel_key k)) offered with
  | Some s => sg_scheme s ∈ offered ∧
      sg_scheme s = KeyAlg.rustls_scheme (rk_algorithm k) ∧
      ∀ msg, sg_sign s msg = keypair_sign (rk_keypair k) msg
  | None => KeyAlg.rustls_scheme (rk_algorithm k) ∉ offered
  end.
Proof.
  intros [Hc _]%constructed_consistent. split; [done|].
  unfold choose_scheme. simpl. case_bool_decide; done.
Qed.

(** the SubjectPublicKeyInfo presented in TLS determines the key: two keys
    with the same SPKI have the same algorithm and the same raw public key. *)
Theorem build_spki_injective alg alg' raw raw' :
  build_spki alg raw = build_spki alg' raw' → alg = alg' ∧ raw = raw'.
Proof.
  intros Heq%construct_der_inj. by destruct alg, alg'; simplify_eq/=.
Qed.
End properties.

(** ** Concrete instances

    An injective byte encoding stands in for DER, and tagged bytes for key
    pairs, so that the theorems above can be evaluated. *)

Module ToyKey.
#[export] Instance byte_countable : Countable byte :=
  inj_countable' byte_to_Z byte_of_Z byte_of_to_Z.

Fixpoint pos_bytes (p : positive) : bytes :=
  match p with
  | xH => []
  | xO p => x00 :: pos_bytes p
  | xI p => x01 :: pos_bytes p
  end.
Fixpoint bytes_pos (l : bytes) : positive :=
  match l with
  | [] => xH
  | x00 :: l => xO (bytes_pos l)
  | _ :: l => xI (bytes_pos l)
  end.
Lemma bytes_pos_pos p : bytes_pos (pos_bytes p) = p.
Proof. induction p; simpl; by f_equal. Qed.

Abbreviation der_leaf := (list Z + bytes * Z + bytes + Z)%type.
Fixpoint der_tree (d : der) : gen_tree der_leaf :=
  match d with
  | DerSequence l => GenNode 0 (der_tree <$> l)
  | DerOid a => GenLeaf (inl (inl (inl a)))
  | DerBitvec b n => GenLeaf (inl (inl (inr (b, n))))
  | DerOctets b => GenLeaf (inl (inr b))
  | DerU8 z => GenLeaf (inr z)
  end.
Fixpoint tree_der (t : gen_tree der_leaf) : der :=
  match t with
  | GenNode _ l => DerSequence (tree_der <$> l)
  | GenLeaf (inl (inl (inl a))) => DerOid a
  | GenLeaf (inl (inl (inr (b, n)))) => DerBitvec b n
  | GenLeaf (inl (inr b)) => DerOctets b
  | GenLeaf (inr z) => DerU8 z
  end.
Fixpoint tree_der_tree (d : der) : tree_der (der_tree d) = d.
Proof.
  destruct d as [l| | | |]; try reflexivity. simpl. f_equal.
  induction l as [|d l IH]; [reflexivity|]. csimpl. by rewrite tree_der_tree, IH.
Qed.
#[export] Instance tree_countable : Countable (gen_tree der_leaf) := _.

#[export] Instance yasna : Yasna := {|
  construct_der d := pos_bytes (encode (der_tree d));
  parse_octet_string b :=
    t ← decode (bytes_pos b);
    match tree_der t with DerOctets o => Some o | _ => None end;
|}.

#[export] Instance yasna_ok : YasnaOk.
Proof.
  split.
  - intros d d' Heq%(f_equal bytes_pos). cbn [construct_der yasna] in Heq.
    rewrite !bytes_pos_pos in Heq. apply (inj encode) in Heq.
    by rewrite <-(tree_der_tree d), <-(tree_der_tree d'), Heq.
  - intros b. cbn [construct_der parse_octet_string yasna].
    by rewrite bytes_pos_pos, decode_encode.
Qed.

#[export] Instance alg_eq_dec : EqDecision RcgenSigAlg.
Proof. solve_decision. Defined.

#[export] Instance rcgen : Rcgen := {|
  KeyPair := RcgenSigAlg * bytes;
  generate_for alg seed := Some (alg, [byte_of_Z seed]);
  keypair_try_from d :=
    match d with
    | x00 :: l => Some (PKCS_ED25519, l)
    | x01 :: l => Some (PKCS_ECDSA_P256_SHA256, l)
    | _ => None
    end;
  is_compatible kp alg := bool_decide (kp.1 = alg);
  from_pkcs8_der_and_sign_algo d alg := Some (alg, d);
  keypair_public_key_raw kp := kp.2;
  keypair_sign kp msg := Some (kp.2 ++ msg);
  serialize_der kp := (match kp.1 with PKCS_ED25519 => x00 | PKCS_ECDSA_P256_SHA256 => x01 end) :: kp.2;
|}.

#[export] Instance rcgen_ok : RcgenOk.
Proof.
  split; simpl; [intros; simplify_eq; by apply bool_decide_eq_true..|]. by intros [[] l].
Qed.
End ToyKey.

Section witnesses.
Import ToyKey.

Lemma rcgen_key_signs_as_announced_witness :
  choose_scheme (rustls_remote_key (tunnel_key (wrap (PKCS_ED25519, [x07]) Ed25519)))
    [ECDSA_NISTP256_SHA256] = None ∧
  KeyAlg.rustls_scheme Ed25519 ∉ [ECDSA_NISTP256_SHA256].
Proof.
  split; [vm_compute; reflexivity|].
  exact (proj2 (rcgen_key_signs_as_announced (wrap (PKCS_ED25519, [x07]) Ed25519)
    [ECDSA_NISTP256_SHA256] (by_generate Ed25519 7 _ eq_refl))).
Defined.

Lemma build_spki_injective_witness :
  (EcdsaP256 = EcdsaP256 ∧ [x01] = [x01]) ∧
  build_spki Ed25519 [x01] ≠ build_spki EcdsaP256 [x01].
Proof.
  split; [exact (build_spki_injective EcdsaP256 EcdsaP256 [x01] [x01] eq_refl)|].
  vm_compute. discriminate.
Defined.
End witnesses.
