(* ===== verification/ClientTls.v ===== *)
(** * ClientTls.v: how the client connects to a relay

    tunnel-client/src/client.rs: [server_name_from_addr], [ca_roots_client_config],
    [TlsMode], [ClientTls] and the two connect functions under [connect_within].
    rustls and quinn configurations are records of what the sources set on them. *)

From S2P Require Import Prelude Async RustStr RustNet Framing Key.
From Stdlib Require Import Ascii.
Open Scope string_scope.
Open Scope Z_scope.
Open Scope list_scope.
Open Scope tunnel_scope.

(** ** Other crates *)

(** How a [rustls::ClientConfig] checks the server's certificate. *)
Inductive ServerVerifier :=
| CaRoots (roots : list bytes)         (** [with_root_certificates] *)
| NoVerify.                            (** [with_custom_certificate_verifier(NoVerify)] *)

Record RustlsClientConfig := MkRustls {
  rc_verifier : ServerVerifier;
  rc_cert : list bytes;                (** what the client certificate resolver presents *)
  rc_key : RustlsRemoteKey;            (** and the key it signs with *)
}.

Record QuinnClientConfig := MkQuinn {
  qc_crypto : RustlsClientConfig;
  qc_max_concurrent_bidi_streams : Z;
  qc_keep_alive_interval : option Z;
  qc_max_idle_timeout : option Z;      (** in milliseconds *)
}.

Class TlsLibs := {
  TLS_SERVER_ROOTS : list bytes;                     (** webpki-roots *)
  LE_STG_ROOT_X1 : string;                           (** the two files under certs/ *)
  LE_STG_ROOT_X2 : string;
  pem_certs : string → list (option bytes);          (** [rustls_pemfile::certs] *)
  root_accepted : bytes → bool;                      (** [RootCertStore::add(..).is_ok()] *)
  idle_timeout_try_from : Z → option Z;              (** [IdleTimeout::try_from(Duration)] *)
  quic_client_config_ok : RustlsClientConfig → bool; (** [QuicClientConfig::try_from(..).is_ok()] *)
  server_name_ok : string → bool;                    (** [ServerName::try_from(..).is_ok()] *)
}.

(** ** TLS configuration *)

Inductive tls_error := BadRootsPem | BadIdleTimeout | NoQuicSuite.

Record TlsMode := MkMode { tls : RustlsClientConfig; quic : QuinnClientConfig }.
Record ClientTls := MkClientTls { named : TlsMode; ip : TlsMode }.

(** [collect::<Result<Vec<_>, _>>()]. *)
Definition collect {A} (l : list (option A)) : option (list A) := mapM id l.

(** The part of a relay address before the last colon. *)
Definition host_of (addr : string) : string :=
  match rsplit_once ":" addr with Some (h, _) => h | None => addr end.

Definition server_name_from_addr (addr : string) : option string :=
  let host := host_of addr in
  match parse_ip_addr host with Some _ => None | None => Some host end.

Section tls.
Context `{TlsLibs, Yasna}.

Definition LE_STAGING_ROOTS_PEM : string :=
  LE_STG_ROOT_X1 +:+ String "010" "" +:+ LE_STG_ROOT_X2.

Definition parse_cert_chain_pem (pem : string) : option (list bytes) := collect (pem_certs pem).

(** [client_cert_resolver] and the builder calls around it. *)
Definition client_config (v : ServerVerifier) (cert : list bytes) (keypair : TunnelKey) :
    RustlsClientConfig :=
  MkRustls v cert (rustls_remote_key keypair).

Definition ca_roots_client_config (cert : list bytes) (keypair : TunnelKey) (acme_staging : bool) :
    result tls_error RustlsClientConfig :=
  let roots := TLS_SERVER_ROOTS in
  roots ← (if acme_staging then
             cs ← ok_or BadRootsPem (parse_cert_chain_pem LE_STAGING_ROOTS_PEM);
             Ok (roots ++ List.filter root_accepted cs)
           else Ok roots);
  Ok (client_config (CaRoots roots) cert keypair).

Definition tls_mode_new (tls : RustlsClientConfig) : result tls_error TlsMode :=
  idle ← ok_or BadIdleTimeout (idle_timeout_try_from QUIC_MAX_IDLE_TIMEOUT);
  _ ← ensure (quic_client_config_ok tls) NoQuicSuite;
  Ok (MkMode tls (MkQuinn tls 1000 (Some QUIC_KEEP_ALIVE_INTERVAL) (Some idle))).

Definition client_tls_new (cert : bytes) (keypair : TunnelKey) (acme_staging : bool) :
    result tls_error ClientTls :=
  named ← ca_roots_client_config [cert] keypair acme_staging;
  let ip := client_config NoVerify [cert] keypair in
  named ← tls_mode_new named;
  ip ← tls_mode_new ip;
  Ok (MkClientTls named ip).

(** [for_addr]: configuration and SNI for one relay address. *)
Definition for_addr (t : ClientTls) (addr : string) : TlsMode * string :=
  match server_name_from_addr addr with
  | Some name => (named t, name)
  | None => (ip t, "localhost")
  end.
End tls.

(** ** Connecting *)

Inductive cop :=
| CDeadline (d : Z)                    (** has [timeout(d, ..)] fired? *)
| CLookupHost (addr : string)
| CConnectWith (cfg : QuinnClientConfig) (to : string) (sni : string)
| CHandshake                           (** the QUIC handshake *)
| CTcpConnect (addr : string)
| CSetNodelay
| CTlsConnect (cfg : RustlsClientConfig) (sni : string)
| CH2Handshake (stream_window conn_window : Z)
| CPingPong.

(** A connection, by number. *)
Definition cans (o : cop) : Type :=
  match o with
  | CDeadline _ => bool
  | CLookupHost _ => option (list string)
  | CConnectWith _ _ _ | CSetNodelay => bool
  | CHandshake | CH2Handshake _ _ => option nat
  | CTcpConnect _ | CTlsConnect _ _ => bool
  | CPingPong => bool
  end.

Definition cawaits (o : cop) : bool :=
  match o with
  | CLookupHost _ | CHandshake | CTcpConnect _ | CTlsConnect _ _ | CH2Handshake _ _ => true
  | CDeadline _ | CConnectWith _ _ _ | CSetNodelay | CPingPong => false
  end.

Definition net : iface := Iface cop cans cawaits.

Inductive connect_error :=
| ConnectIo | NotResolved (addr : string) | InvalidServerName
| ConnectTimedOut (addr : string) (after : Z).

(** [ok?] on a call that answers whether it worked. *)
Definition require (o : cop) (k : cans o → bool) : prog net (result connect_error (cans o)) :=
  x <-! call (I := net) o ;; Ret (if k x then Ok x else Err ConnectIo).

Notation "x '<-c' p ';;' q" :=
  (prog_bind (λ r, match r with Ok x => q | Err e => Ret (Err e) end) p)
  (at level 100, p at next level, q at level 200, right associativity) : tunnel_scope.

Definition connect_within {A} (timeout : Z) (addr : string)
    (fut : prog net (result connect_error A)) : prog net (result connect_error A) :=
  r <-! interrupt (b <-! call (I := net) (CDeadline timeout) ;;
                   Ret (if (b : bool) then Some tt else None)) fut ;;
  Ret (match r with inl _ => Err (ConnectTimedOut addr timeout) | inr a => a end).

Section connect.
Context `{TlsLibs}.

Definition connect_quic (addr : string) (t : ClientTls) : prog net (result connect_error nat) :=
  let '(mode, sni) := for_addr t addr in
  found <-! call (I := net) (CLookupHost addr) ;;
  match (found : option (list string)) with
  | None => Ret (Err ConnectIo)
  | Some [] => Ret (Err (NotResolved addr))
  | Some (socket_addr :: _) =>
      _ <-c require (CConnectWith (quic mode) socket_addr sni) id ;;
      conn <-! call (I := net) CHandshake ;;
      Ret (ok_or ConnectIo (conn : option nat))
  end.

(** The connection and whether a [PingPong] came with it. *)
Definition connect_h2 (addr : string) (t : ClientTls) : prog net (result connect_error (nat * bool)) :=
  let '(mode, sni) := for_addr t addr in
  _ <-c require (CTcpConnect addr) id ;;
  _ <-c require CSetNodelay id ;;
  if negb (server_name_ok sni) then Ret (Err InvalidServerName)
  else
    _ <-c require (CTlsConnect (tls mode) sni) id ;;
    conn <-! call (I := net) (CH2Handshake H2_DATA_STREAM_WINDOW H2_DATA_CONN_WINDOW) ;;
    match (conn : option nat) with
    | None => Ret (Err ConnectIo)
    | Some conn =>
        ping_pong <-! call (I := net) CPingPong ;;
        Ret (Ok (conn, ping_pong))
    end.
End connect.

(** ** Who is trusted *)

(** The relay at [host] may be talked to with this configuration and this server
    name: authenticated against the CA roots under its own name, or, only when the
    host is an IP literal, not authenticated. Either way the client presents [cert]
    and signs with [key]. *)
Definition trusts `{TlsLibs, Yasna} (cert : bytes) (key : TunnelKey) (staging : bool)
    (host : string) (cfg : RustlsClientConfig) (sni : string) : Prop :=
  rc_cert cfg = [cert] ∧ rc_key cfg = rustls_remote_key key ∧
  match rc_verifier cfg with
  | CaRoots roots =>
      sni = host ∧ TLS_SERVER_ROOTS `prefix_of` roots ∧
      (staging = false → roots = TLS_SERVER_ROOTS) ∧ parse_ip_addr host = None
  | NoVerify =>
      sni = "localhost" ∧ is_Some (parse_ip_addr host) ∧ all_chars is_ip_char host = true
  end.

(** Every connection a run starts is started that way. *)
Definition trusting `{TlsLibs, Yasna} cert key staging host (e : event net) : Prop :=
  match ev_op e with
  | CConnectWith cfg _ sni =>
      trusts cert key staging host (qc_crypto cfg) sni ∧
      qc_keep_alive_interval cfg = Some QUIC_KEEP_ALIVE_INTERVAL ∧
      qc_max_idle_timeout cfg = idle_timeout_try_from QUIC_MAX_IDLE_TIMEOUT
  | CTlsConnect cfg sni => trusts cert key staging host cfg sni
  | _ => True
  end.

Section trust.
Context `{TlsLibs, Yasna}.

Lemma tls_mode_new_Ok cfg m :
  tls_mode_new cfg = Ok m →
  tls m = cfg ∧ qc_crypto (quic m) = cfg ∧
  qc_keep_alive_interval (quic m) = Some QUIC_KEEP_ALIVE_INTERVAL ∧
  qc_max_idle_timeout (quic m) = idle_timeout_try_from QUIC_MAX_IDLE_TIMEOUT.
Proof.
  unfold tls_mode_new. destruct (idle_timeout_try_from _) as [idle|]; [|done]. cbn.
  destruct (quic_client_config_ok cfg); [|done]. by intros [= <-].
Qed.

Lemma ca_roots_Ok cert key staging cfg :
  ca_roots_client_config cert key staging = Ok cfg →
  ∃ roots, cfg = client_config (CaRoots roots) cert key ∧
    TLS_SERVER_ROOTS `prefix_of` roots ∧ (staging = false → roots = TLS_SERVER_ROOTS).
Proof.
  unfold ca_roots_client_config. destruct staging; cbn.
  - destruct (parse_cert_chain_pem _) as [cs|]; [|done]. cbn. intros [= <-].
    eexists. split; [done|]. split; [by eexists|done].
  - intros [= <-]. by eexists.
Qed.

Lemma client_tls_new_Ok cert key staging t :
  client_tls_new cert key staging = Ok t →
  ∃ c, ca_roots_client_config [cert] key staging = Ok c ∧
    tls_mode_new c = Ok (named t) ∧ tls_mode_new (client_config NoVerify [cert] key) = Ok (ip t).
Proof.
  unfold client_tls_new. destruct (ca_roots_client_config _ _ _) as [c|]; [|done]. cbn.
  destruct (tls_mode_new c) as [n|] eqn:En; [|done]. cbn.
  destruct (tls_mode_new (client_config _ _ _)) as [i|] eqn:Ei; [|done]. cbn.
  intros [= <-]. eauto.
Qed.

Lemma for_addr_trusts cert key staging t addr mode sni :
  client_tls_new cert key staging = Ok t → for_addr t addr = (mode, sni) →
  trusts cert key staging (host_of addr) (tls mode) sni ∧ qc_crypto (quic mode) = tls mode ∧
  qc_keep_alive_interval (quic mode) = Some QUIC_KEEP_ALIVE_INTERVAL ∧
  qc_max_idle_timeout (quic mode) = idle_timeout_try_from QUIC_MAX_IDLE_TIMEOUT.
Proof.
  intros (c & Hc & Hn%tls_mode_new_Ok & Hi%tls_mode_new_Ok)%client_tls_new_Ok.
  apply ca_roots_Ok in Hc as (roots & -> & Hpre & Hst).
  unfold for_addr, server_name_from_addr, trusts.
  destruct (parse_ip_addr (host_of addr)) as [a|] eqn:Ea; intros [= <- <-].
  - destruct Hi as (-> & -> & ? & ?). cbn. split_and!; try done. by eapply parse_ip_addr_chars.
  - destruct Hn as (-> & -> & ? & ?). done.
Qed.
End trust.

(** Only calls of a set, in every prefix: lifted through the timeout. *)
Lemma only_connect_within {A} (S : cop → Prop) d addr (p : prog net (result connect_error A)) :
  S (CDeadline d) → only (I := net) S p → only (I := net) S (connect_within d addr p).
Proof.
  intros Hd Hp. unfold connect_within. apply only_bind; [|done].
  apply only_interrupt; [|done]. apply only_bind; [by split|done].
Qed.

Lemma only_require (S : cop → Prop) o k : S o → only (I := net) S (require o k).
Proof. intros Ho. apply only_bind; [by split|done]. Qed.

(** C10: the client never sends its traffic to a relay it has not authenticated, unless
    it was configured with an IP address. Whatever the network answers, and whenever the
    connect times out, every QUIC or H2 connection that [connect_quic] or [connect_h2]
    starts for an address checks the relay's certificate against the CA roots under the
    very host of that address (only the bundled roots, plus Let's Encrypt's staging
    roots in staging mode); verification is off only when the host parses as an IP
    address, hence consists of hexadecimal digits, dots and colons. In both cases the
    client presents its own agent certificate and key. *)
Theorem relay_authenticated `{TlsLibs, Yasna} cert key staging t addr d :
  client_tls_new cert key staging = Ok t →
  always (connect_within d addr (connect_quic addr t))
    (Forall (trusting cert key staging (host_of addr))) ∧
  always (connect_within d addr (connect_h2 addr t))
    (Forall (trusting cert key staging (host_of addr))).
Proof.
  intros Ht.
  pose (S := λ o : cop, ∀ x : cans o, trusting cert key staging (host_of addr) (Event (I := net) o x)).
  assert (HS : ∀ A (p : prog net A), only (I := net) S p →
            always p (Forall (trusting cert key staging (host_of addr)))).
  { intros A p Hp. eapply always_mono; [|by apply only_always]. intros tr Htr.
    eapply Forall_impl; [exact Htr|]. intros [o x] Ho. apply Ho. }
  destruct (for_addr t addr) as [mode sni] eqn:E.
  pose proof (for_addr_trusts _ _ _ _ _ _ _ Ht E) as (Htr & Hq & Hk & Hi).
  split; apply HS, only_connect_within; [done| |done|].
  - unfold connect_quic. rewrite E. apply only_bind; [by split|].
    intros [[|a l]|]; [done| |done]. apply only_bind; [apply only_require|].
    { intros x. cbn. by rewrite Hq. }
    intros [x|]; [|done]. apply only_bind; [by split|]. by intros ?.
  - unfold connect_h2. rewrite E. apply only_bind; [by apply only_require|].
    intros [x|]; [|done]. apply only_bind; [by apply only_require|].
    intros [y|]; [|done]. destruct (server_name_ok sni); cbn [negb]; [|done].
    apply only_bind; [apply only_require; intros ?; exact Htr|]. intros [z|]; [|done].
    apply only_bind; [by split|]. intros [c|]; [|done]. apply only_bind; [by split|]. by intros ?.
Qed.

(** *** Addresses with a port *)

Lemma host_of_port host port :
  contains_char ":" port = false → host_of (host +:+ String ":" port) = host.
Proof. intros Hp. unfold host_of. by rewrite rsplit_once_app. Qed.

(** A relay given by IPv4 address and port is reached without verification; one whose
    host has a character no address has is always verified under that host. *)
Lemma for_addr_ipv4 t a b c d port :
  0 ≤ a < 256 → 0 ≤ b < 256 → 0 ≤ c < 256 → 0 ≤ d < 256 → contains_char ":" port = false →
  for_addr t (show_ipv4 a b c d +:+ String ":" port) = (ip t, "localhost").
Proof.
  intros. unfold for_addr, server_name_from_addr. rewrite host_of_port by done.
  by rewrite parse_show_ipv4.
Qed.

Lemma for_addr_named t host port :
  contains_char ":" port = false → all_chars is_ip_char host = false →
  for_addr t (host +:+ String ":" port) = (named t, host).
Proof.
  intros Hp Hh. unfold for_addr, server_name_from_addr. rewrite host_of_port by done.
  destruct (parse_ip_addr host) as [a|] eqn:E; [|done].
  apply parse_ip_addr_chars in E. congruence.
Qed.

(** A bracketed IPv6 literal, the form a socket address has, does not count as an IP
    address: it is looked up as a server name, brackets included. *)
Lemma for_addr_bracketed t : for_addr t "[::1]:4433" = (named t, "[::1]").
Proof. reflexivity. Qed.

(** ** Concrete libraries *)

Module ToyTls.
#[export] Instance libs : TlsLibs := {|
  TLS_SERVER_ROOTS := [[x01]];
  LE_STG_ROOT_X1 := "x1";
  LE_STG_ROOT_X2 := "x2";
  pem_certs p := [Some (as_bytes p)];
  root_accepted _ := true;
  idle_timeout_try_from d := Some (as_millis d);
  quic_client_config_ok _ := true;
  server_name_ok s := negb (contains_char "[" s);
|}.
End ToyTls.

Section witnesses.
Import ToyTls ToyKey.

Lemma relay_authenticated_witness :
  ∃ t key, client_tls_new [x07] key true = Ok t ∧
    always (connect_within 1 "relay.example.com:4433" (connect_quic "relay.example.com:4433" t))
      (Forall (trusting [x07] key true "relay.example.com")) ∧
    always (connect_within 1 "relay.example.com:4433" (connect_h2 "relay.example.com:4433" t))
      (Forall (trusting [x07] key true "relay.example.com")).
Proof.
  set (key := MkKey Ed25519 [x02] Some).
  destruct (client_tls_new [x07] key true) as [t|e] eqn:E; [|discriminate E].
  exists t, key. split; [done|].
  apply (relay_authenticated [x07] key true t "relay.example.com:4433" 1 E).
Defined.
End witnesses.
