(* ===== verification/Identity.v ===== *)
(** * Identity.v: who a connection belongs to

    tunnel-server/src/util.rs (identity, suffix and TXT checks, certificate and
    ClientHello fields) and the client's side of the same contract in
    tunnel-client/src/client.rs ([build_connection], [sign_recoverable]).

    The cryptography and the parsers are other crates' code: the class [Crypto]
    lists the calls, [CryptoOk] the documented behaviour the protocol needs. *)

From S2P Require Import Prelude RustStr Key ClientTls.
From Stdlib Require Import Ascii.
Open Scope string_scope.
Open Scope Z_scope.
Open Scope list_scope.

(** ** Other crates *)

(** [x509_parser]: the fields the sources read. *)
Record X509 := Cert { subject_public_key : bytes; extensions : list (string * bytes) }.

(** [tls_parser]: a ClientHello's raw extensions, or another message. *)
Inductive TlsMessage := ClientHello (ext : option bytes) | OtherMessage.
Inductive TlsExtension :=
| ExtSNI (names : list (Z * bytes))
| ExtALPN (protos : list bytes)
| ExtOther.

Class Crypto := {
  sha256 : bytes → bytes;                        (** [Sha256::digest] *)
  hex_encode : bytes → string;                   (** [hex::encode] *)
  base64_encode : bytes → string;                (** [STANDARD.encode] *)
  VerifyingKey : Type;                           (** [p256::ecdsa::VerifyingKey] *)
  RecSignature : Type;                           (** [recoverable::Signature] *)
  EcdsaSignature : Type;                         (** [p256::ecdsa::Signature] *)
  from_sec1_bytes : bytes → option VerifyingKey;
  to_encoded_point_compressed : VerifyingKey → bytes;
  rec_try_from : bytes → option RecSignature;
  rec_bytes : RecSignature → bytes;              (** [as_ref()] *)
  recover_verifying_key : RecSignature → bytes → option VerifyingKey;
  sig_from_der : bytes → option EcdsaSignature;
  normalize_s : EcdsaSignature → option EcdsaSignature;
  from_trial_recovery : VerifyingKey → bytes → EcdsaSignature → option RecSignature;
  parse_x509_certificate : bytes → option X509;
  parse_tls_plaintext : bytes → option (list TlsMessage);
  parse_tls_extensions : bytes → option (list TlsExtension);
}.

Definition is_lower_hex (a : ascii) : bool :=
  let n := N_of_ascii a in
  ((48 <=? n) && (n <=? 57) || (97 <=? n) && (n <=? 102))%N.

Class CryptoOk `{Crypto} := {
  sha256_length b : length (sha256 b) = 32%nat;
  hex_encode_length b : String.length (hex_encode b) = (2 * length b)%nat;
  hex_encode_lower b : all_chars is_lower_hex (hex_encode b) = true;
  (** The wire form of a recoverable signature is its 65 bytes. *)
  rec_try_from_bytes r : rec_try_from (rec_bytes r) = Some r;
  rec_bytes_length r : length (rec_bytes r) = 65%nat;
  (** Trial recovery returns a signature from which the given key is recovered. *)
  trial_recovery_recovers vk msg sig r :
    from_trial_recovery vk msg sig = Some r → recover_verifying_key r msg = Some vk;
}.

(** ** tunnel-server/src/util.rs *)

Definition CUSTOM_DATA_EXT_OID_STR : string := "1.3.6.1.4.1.65535.1".
Definition ACME_TLS_ALPN : bytes := as_bytes "acme-tls/1".
Definition ZERO_DEPLOYMENT_SOURCE : bytes := replicate 64 x00.

Definition allowed_suffix (domain : string) (suffixes : list string) : bool :=
  match suffixes with
  | [] => true
  | _ => existsb (λ s, ends_with domain ("." +:+ s)) suffixes
  end.

Section util.
Context `{Crypto, Yasna}.

Definition id_from_pubkey (pubkey : bytes) : string :=
  hex_encode (take 8 (sha256 pubkey)).

Definition recover_identity_pubkey (domain : string) (sig : bytes) : option bytes :=
  rec_sig ← rec_try_from sig;
  vk ← recover_verifying_key rec_sig (as_bytes domain);
  let pubkey := to_encoded_point_compressed vk in
  id_target ← split_next "." domain;
  if String.eqb (id_from_pubkey pubkey) id_target then Some pubkey else None.

Definition pubkey_from_cert (der : bytes) : option bytes :=
  subject_public_key <$> parse_x509_certificate der.

Fixpoint find_custom_data (exts : list (string * bytes)) : option bytes :=
  match exts with
  | [] => None
  | (oid, value) :: rest =>
      if String.eqb oid CUSTOM_DATA_EXT_OID_STR then parse_octet_string value
      else find_custom_data rest
  end.

Definition custom_data_from_cert (der : bytes) : option bytes :=
  cert ← parse_x509_certificate der;
  find_custom_data (extensions cert).

Definition compute_txt_expected (deployment_source : bytes) (host : string) : string :=
  base64_encode (sha256 (deployment_source ++ as_bytes host)).

Definition txt_authorizes (values : list bytes) (deployment_source : bytes)
    (host : string) : bool :=
  let open := as_bytes (compute_txt_expected ZERO_DEPLOYMENT_SOURCE host) in
  let expected := as_bytes (compute_txt_expected deployment_source host) in
  match values with
  | [v] => bool_decide (v = open) || existsb (λ v, bool_decide (v = expected)) values
  | _ => existsb (λ v, bool_decide (v = expected)) values
  end.

(** One extension of the hello updates [(sni, is_acme)]. *)
Definition sni_alpn_step (st : option string * bool) (ext : TlsExtension) : option string * bool :=
  match ext with
  | ExtSNI names => (head names ≫= λ n, from_utf8 n.2, st.2)
  | ExtALPN protos => (st.1, existsb (λ p, bool_decide (p = ACME_TLS_ALPN)) protos)
  | ExtOther => st
  end.

Definition extract_sni_alpn (data : bytes) : option (string * bool) :=
  msgs ← parse_tls_plaintext data;
  msg ← head msgs;
  match msg with
  | ClientHello ext =>
      raw ← ext;
      exts ← parse_tls_extensions raw;
      let '(sni, is_acme) := foldl sni_alpn_step (None, false) exts in
      (λ s, (s, is_acme)) <$> sni
  | OtherMessage => None
  end.
End util.

(** ** tunnel-client/src/client.rs: the client's identity *)

(** rcgen's certificate parameters, as far as the sources set them. *)
Record CertParams := MkParams {
  subject_alt_names : list string;
  common_name : option string;
  custom_extensions : list (string * bytes);
}.

(** rcgen's certificates and certificate requests. *)
Class CertGen := {
  params_new : list string → option CertParams;      (** [CertificateParams::new] *)
  self_signed : CertParams → TunnelKey → option bytes;
  serialize_request : CertParams → TunnelKey → option bytes;
}.

(** What a parser reads from a certificate rcgen wrote: the signer's key, rcgen's
    own extensions, then the custom ones. *)
Class CertGenOk `{Crypto, CertGen} := {
  params_new_ok names p : params_new names = Some p →
    p = MkParams names None [];
  self_signed_parses p k d : self_signed p k = Some d →
    ∃ std, parse_x509_certificate d = Some (Cert (public_key_raw k) (std ++ custom_extensions p)) ∧
           Forall (λ e, e.1 ≠ CUSTOM_DATA_EXT_OID_STR) std;
}.

Record Connection := MkConn {
  client_id : string;
  domain : string;
  url : string;
  agent_cert : bytes;
  agent_keypair : TunnelKey;
  identity_keypair : TunnelKey;
  csr_der : option bytes;
  conn_tls : ClientTls;
}.

Inductive build_error :=
| BadEd25519Length (len : Z) | BadIdentityKey | RcgenFailed | TlsConfigFailed (e : tls_error).

Inductive sign_error :=
| SignFailed | BadSignatureDer | BadPubkey | TrialRecoveryFailed | BadRecoverableLength (len : Z).

Section client.
Context `{Crypto, Yasna, CertGen, TlsLibs}.

(** The bytes whose hash names the client. *)
Definition identity_id_bytes (identity : TunnelKey) : result build_error bytes :=
  let raw := public_key_raw identity in
  match algorithm identity with
  | Ed25519 =>
      _ ← ensure (bool_decide (length raw = 32%nat)) (BadEd25519Length (Z.of_nat (length raw)));
      Ok raw
  | EcdsaP256 =>
      vk ← ok_or BadIdentityKey (from_sec1_bytes raw);
      Ok (to_encoded_point_compressed vk)
  end.

Definition build_connection (agent identity : TunnelKey) (domain_suffix : string)
    (cert_extension : option bytes) (acme_staging need_csr : bool) :
    result build_error Connection :=
  id_bytes ← identity_id_bytes identity;
  let client_id := hex_encode (take 8 (sha256 id_bytes)) in
  let domain := client_id +:+ "." +:+ domain_suffix in
  let url := "https://" +:+ domain in
  params ← ok_or RcgenFailed (params_new ["agent"]);
  let params :=
    match cert_extension with
    | Some ext_bytes =>
        MkParams (subject_alt_names params) (common_name params)
          [(CUSTOM_DATA_EXT_OID_STR, construct_der (DerOctets ext_bytes))]
    | None => params
    end in
  agent_cert ← ok_or RcgenFailed (self_signed params agent);
  tls ← map_err TlsConfigFailed (client_tls_new agent_cert agent acme_staging);
  csr_der ← (if need_csr then
               p ← ok_or RcgenFailed (params_new [domain]);
               let p := MkParams (subject_alt_names p) (Some domain) (custom_extensions p) in
               csr ← ok_or RcgenFailed (serialize_request p identity);
               Ok (Some csr)
             else Ok None);
  Ok (MkConn client_id domain url agent_cert agent identity csr_der tls).

Definition sign_recoverable (identity : TunnelKey) (msg : bytes) : result sign_error bytes :=
  der ← ok_or SignFailed (sign identity msg);
  sig ← ok_or BadSignatureDer (sig_from_der der);
  let sig := default sig (normalize_s sig) in
  vk ← ok_or BadPubkey (from_sec1_bytes (public_key_raw identity));
  rec ← ok_or TrialRecoveryFailed (from_trial_recovery vk msg sig);
  let b := rec_bytes rec in
  if bool_decide (length b ≠ 65%nat) then Err (BadRecoverableLength (Z.of_nat (length b)))
  else Ok b.
End client.

(** ** Lemmas *)

Lemma allowed_suffix_spec d suffixes :
  allowed_suffix d suffixes = true ↔
  suffixes = [] ∨ ∃ s p, s ∈ suffixes ∧ d = p +:+ "." +:+ s.
Proof.
  unfold allowed_suffix. destruct suffixes as [|s0 ss]; [naive_solver|].
  rewrite existsb_exists. setoid_rewrite ends_with_spec.
  split; [intros (s & Hs%list_elem_of_In & p & ->); eauto|].
  intros [[=]|(s & p & Hs & ->)]. exists s. rewrite <-list_elem_of_In. eauto.
Qed.

Section lemmas.
Context `{CryptoOk, Yasna}.

Lemma id_from_pubkey_label pk c :
  is_lower_hex c = false → contains_char c (id_from_pubkey pk) = false.
Proof. intros. eapply all_chars_contains; [apply hex_encode_lower|done]. Qed.

Lemma id_from_pubkey_length pk : String.length (id_from_pubkey pk) = 16%nat.
Proof. unfold id_from_pubkey. by rewrite hex_encode_length, length_take, sha256_length. Qed.

Lemma recover_identity_pubkey_Some d sig pk :
  recover_identity_pubkey d sig = Some pk ↔
  ∃ r vk, rec_try_from sig = Some r ∧ recover_verifying_key r (as_bytes d) = Some vk ∧
    pk = to_encoded_point_compressed vk ∧ split_next "." d = Some (id_from_pubkey pk).
Proof.
  unfold recover_identity_pubkey. split.
  - destruct (rec_try_from sig) as [r|]; [|done]. simpl.
    destruct (recover_verifying_key r (as_bytes d)) as [vk|] eqn:Hv; [|done]. simpl.
    destruct (split_next "." d) as [l|]; [|done]. simpl.
    destruct (String.eqb_spec (id_from_pubkey (to_encoded_point_compressed vk)) l); [|done].
    intros [= <-]. subst. eauto 10.
  - intros (r & vk & -> & Hv & -> & Hs). simpl. rewrite Hv. simpl. rewrite Hs. simpl.
    by rewrite String.eqb_refl.
Qed.

Lemma find_custom_data_skip std rest :
  Forall (λ e, e.1 ≠ CUSTOM_DATA_EXT_OID_STR) std →
  find_custom_data (std ++ rest) = find_custom_data rest.
Proof.
  induction 1 as [|[oid v] l Hne _ IH]; [done|]. simpl in *.
  destruct (String.eqb_spec oid CUSTOM_DATA_EXT_OID_STR); done.
Qed.
End lemmas.

(** ** Properties *)

(** the TXT records of a zone admit a deployment source exactly when one of
    them is that source's value for the host, or the zone holds the open marker
    and nothing else. *)
Theorem txt_authorizes_spec `{Crypto} values source host :
  txt_authorizes values source host = true ↔
  as_bytes (compute_txt_expected source host) ∈ values ∨
  values = [as_bytes (compute_txt_expected ZERO_DEPLOYMENT_SOURCE host)].
Proof.
  unfold txt_authorizes.
  set (e := as_bytes (compute_txt_expected source host)).
  set (o := as_bytes (compute_txt_expected ZERO_DEPLOYMENT_SOURCE host)).
  assert (Hex : existsb (λ v, bool_decide (v = e)) values = true ↔ e ∈ values).
  { rewrite existsb_exists. setoid_rewrite bool_decide_eq_true.
    setoid_rewrite <-list_elem_of_In. naive_solver. }
  destruct values as [|v [|v' vs]]; try (rewrite Hex; naive_solver).
  rewrite orb_true_iff, bool_decide_eq_true, Hex. naive_solver.
Qed.

(** What of its arguments a connection keeps. *)
Lemma built_keys `{Crypto, Yasna, CertGen, TlsLibs} agent identity suffix ext staging csr conn :
  build_connection agent identity suffix ext staging csr = Ok conn →
  identity_keypair conn = identity ∧ agent_keypair conn = agent ∧ (csr = true → is_Some (csr_der conn)).
Proof.
  unfold build_connection, ok_or, ensure, mbind, result_bind. intros Hb. split_matches; done.
Qed.

Lemma built_tls `{Crypto, Yasna, CertGen, TlsLibs} agent identity suffix ext staging csr conn :
  build_connection agent identity suffix ext staging csr = Ok conn →
  client_tls_new (agent_cert conn) agent staging = Ok (conn_tls conn) ∧
  url conn = "https://" +:+ domain conn.
Proof.
  unfold build_connection, ok_or, ensure, map_err, mbind, result_bind. intros Hb. split_matches; done.
Qed.

Section end_to_end.
Context `{CryptoOk, !Yasna, !YasnaOk, !CertGen, !CertGenOk, !TlsLibs}.

Lemma build_connection_Ok agent identity suffix ext st csr conn :
  build_connection agent identity suffix ext st csr = Ok conn →
  ∃ id_bytes p, identity_id_bytes identity = Ok id_bytes ∧
    client_id conn = id_from_pubkey id_bytes ∧
    domain conn = client_id conn +:+ "." +:+ suffix ∧
    params_new ["agent"] = Some p ∧
    self_signed (match ext with
                 | Some e => MkParams (subject_alt_names p) (common_name p)
                     [(CUSTOM_DATA_EXT_OID_STR, construct_der (DerOctets e))]
                 | None => p end) agent = Some (agent_cert conn).
Proof.
  unfold build_connection. intros E. unfold mbind, result_bind in E.
  destruct (identity_id_bytes identity) as [idb|]; [|done].
  destruct (params_new ["agent"]) as [p|] eqn:Hp; [|done]. simpl in E.
  destruct (self_signed _ agent) as [cert|] eqn:Hs; [|done]. simpl in E.
  destruct (map_err _ _); [|done].
  match type of E with (match ?m with _ => _ end = _) => destruct m; [|done] end.
  simplify_eq/=. eauto 10.
Qed.

Lemma built_identity_accepted agent identity suffix ext st csr conn sig :
  build_connection agent identity suffix ext st csr = Ok conn →
  algorithm identity = EcdsaP256 →
  sign_recoverable identity (as_bytes (domain conn)) = Ok sig →
  (∃ pk, recover_identity_pubkey (domain conn) sig = Some pk ∧
         id_from_pubkey pk = client_id conn) ∧
  split_next "." (domain conn) = Some (client_id conn) ∧
  String.length (client_id conn) = 16%nat ∧
  length sig = 65%nat ∧
  ∀ suffixes, suffix ∈ suffixes → allowed_suffix (domain conn) suffixes = true.
Proof.
  intros (idb & p & Hid & Hcid & Hdom & _)%build_connection_Ok Halg Hsig.
  unfold identity_id_bytes in Hid. rewrite Halg in Hid. unfold sign_recoverable in Hsig.
  destruct (sign identity _) as [der|]; [|done]. simpl in Hsig.
  destruct (sig_from_der der) as [sg|]; [|done]. simpl in *.
  destruct (from_sec1_bytes _) as [vk|]; [|done]. simpl in *. simplify_eq.
  destruct (from_trial_recovery _ _ _) as [r|] eqn:Hr; [|done]. simpl in Hsig.
  case_bool_decide as Hl; simplify_eq.
  assert (Hlabel : split_next "." (domain conn) = Some (client_id conn)).
  { rewrite Hdom. apply split_next_app. rewrite Hcid. by apply id_from_pubkey_label. }
  split_and!; [|done|by rewrite Hcid, id_from_pubkey_length|apply rec_bytes_length|].
  - exists (to_encoded_point_compressed vk). split; [|done].
    apply recover_identity_pubkey_Some. exists r, vk.
    split_and!; [apply rec_try_from_bytes|by eapply trial_recovery_recovers|done|].
    by rewrite Hlabel, Hcid.
  - intros ss Hs. apply allowed_suffix_spec. right. exists suffix, (client_id conn). by rewrite Hdom.
Qed.

Lemma built_cert_fields agent identity suffix ext st csr conn :
  build_connection agent identity suffix ext st csr = Ok conn →
  pubkey_from_cert (agent_cert conn) = Some (public_key_raw agent) ∧
  custom_data_from_cert (agent_cert conn) = ext.
Proof.
  intros (_ & p & _ & _ & _ & Hp & Hs)%build_connection_Ok.
  apply params_new_ok in Hp as ->.
  apply self_signed_parses in Hs as (std & Hparse & Hstd).
  unfold pubkey_from_cert, custom_data_from_cert. rewrite Hparse. split; [done|].
  simpl. rewrite find_custom_data_skip by done. destruct ext as [e|]; simpl; [|done].
  apply parse_construct_octets.
Qed.
(** the two ends agree on identity. A P-256 client whose connection
    material was built by [build_connection] and whose domain proof was made by
    [sign_recoverable] is recognised by the relay: the signature recovers the
    identity key, the relay derives the client's own [client_id] as the id, and
    any allowlist holding the client's suffix lets the domain through. *)
Theorem client_identity_accepted agent identity suffix ext st csr conn sig :
  build_connection agent identity suffix ext st csr = Ok conn →
  algorithm identity = EcdsaP256 →
  sign_recoverable identity (as_bytes (domain conn)) = Ok sig →
  (∃ pk, recover_identity_pubkey (domain conn) sig = Some pk ∧
         id_from_pubkey pk = client_id conn) ∧
  split_next "." (domain conn) = Some (client_id conn) ∧
  String.length (client_id conn) = 16%nat ∧
  length sig = 65%nat ∧
  ∀ suffixes, suffix ∈ suffixes → allowed_suffix (domain conn) suffixes = true.
Proof. apply built_identity_accepted. Qed.

(** what the relay's auth handler is given is what the client put in its
    certificate: the agent's raw public key, and the custom extension bytes
    (or their absence) unwrapped from the DER OCTET STRING. *)
Theorem cert_extension_roundtrip agent identity suffix ext st csr conn :
  build_connection agent identity suffix ext st csr = Ok conn →
  pubkey_from_cert (agent_cert conn) = Some (public_key_raw agent) ∧
  custom_data_from_cert (agent_cert conn) = ext.
Proof. apply built_cert_fields. Qed.
End end_to_end.

(** ** Concrete instances *)

Module ToyCrypto.
Import ToyKey ToyTls.

Definition hex_digit (n : N) : ascii :=
  ascii_of_N (if (n <? 10)%N then 48 + n else 87 + n)%N.
Fixpoint hex (b : bytes) : string :=
  match b with
  | [] => ""
  | x :: b => String (hex_digit (Byte.to_N x / 16))
                (String (hex_digit (Byte.to_N x mod 16)) (hex b))
  end.

Definition pad (n : nat) (b : bytes) : bytes := take n (b ++ replicate n x00).
Lemma length_pad n b : length (pad n b) = n.
Proof. unfold pad. rewrite length_take, length_app, length_replicate. lia. Qed.

Definition rec_sig := dsig (λ l : bytes, length l = 65%nat).

(** The 65 bytes of a "signature" carry the key; a certificate is the DER of
    its fields. *)
#[export] Instance crypto : Crypto := {|
  sha256 b := pad 32 b;
  hex_encode := hex;
  base64_encode := of_bytes;
  VerifyingKey := bytes;
  RecSignature := rec_sig;
  EcdsaSignature := bytes;
  from_sec1_bytes b := if bool_decide (length b = 33%nat) then Some b else None;
  to_encoded_point_compressed vk := vk;
  rec_try_from b := match decide (length b = 65%nat) with left H => Some (dexist b H) | _ => None end;
  rec_bytes := proj1_sig;
  recover_verifying_key r msg := Some (take 33 (proj1_sig r));
  sig_from_der b := Some b;
  normalize_s b := None;
  from_trial_recovery vk msg sig :=
    match decide (length vk = 33%nat) with
    | left H => Some (dexist (pad 65 (vk ++ sig)) (length_pad 65 _))
    | _ => None
    end;
  parse_x509_certificate d :=
    match d with
    | x01 :: d => Some (Cert [x02] [(CUSTOM_DATA_EXT_OID_STR, d)])
    | x00 :: _ => Some (Cert [x02] [])
    | x04 :: d => Some (Cert (take 33 d) [])
    | x05 :: d => Some (Cert (take 33 d) [(CUSTOM_DATA_EXT_OID_STR, drop 33 d)])
    | _ => None
    end;
  parse_tls_plaintext d :=
    match d with
    | [x16] => Some [ClientHello (Some [])]
    | x16 :: d => Some [ClientHello (Some d)]
    | _ => None
    end;
  parse_tls_extensions d := Some [ExtSNI [(0%Z, d)]; ExtALPN [ACME_TLS_ALPN]];
|}.

Lemma hex_length b : String.length (hex b) = (2 * length b)%nat.
Proof. induction b as [|x b IH]; simpl; [done|]. rewrite IH. lia. Qed.
Lemma hex_lower b : all_chars is_lower_hex (hex b) = true.
Proof.
  induction b as [|x b IH]; [done|]. cbn [hex all_chars]. rewrite IH.
  by destruct x.
Qed.

#[export] Instance crypto_ok : CryptoOk.
Proof.
  split; cbn [crypto sha256 hex_encode rec_try_from rec_bytes RecSignature
              from_trial_recovery recover_verifying_key VerifyingKey EcdsaSignature].
  - intros. apply length_pad.
  - apply hex_length.
  - apply hex_lower.
  - intros [l Hl]. simpl. apply bool_decide_unpack in Hl as Hl'.
    destruct (decide (length l = 65%nat)); [|done]. f_equal. by apply dsig_eq.
  - intros [l Hl]. simpl. by apply bool_decide_unpack in Hl.
  - intros vk msg sig r. destruct (decide (length vk = 33%nat)) as [Hl|]; [|done].
    intros [= <-]. simpl. f_equal. unfold pad.
    rewrite take_take, <-!app_assoc, take_app_length'; [done|by rewrite Hl].
Qed.

#[export] Instance cert_gen : CertGen := {|
  params_new names := Some (MkParams names None []);
  self_signed p k :=
    if bool_decide (public_key_raw k = [x02]) then
      match custom_extensions p with
      | [] => Some [x00]
      | [(oid, d)] => if String.eqb oid CUSTOM_DATA_EXT_OID_STR then Some (x01 :: d) else None
      | _ => None
      end
    else if bool_decide (length (public_key_raw k) = 33%nat) then
      match custom_extensions p with
      | [] => Some (x04 :: public_key_raw k)
      | [(oid, d)] =>
          if String.eqb oid CUSTOM_DATA_EXT_OID_STR then Some (x05 :: public_key_raw k ++ d) else None
      | _ => None
      end
    else None;
  serialize_request p k := Some (public_key_raw k);
|}.

#[export] Instance cert_gen_ok : CertGenOk.
Proof.
  split; cbn [params_new self_signed cert_gen parse_x509_certificate crypto].
  - by intros names p [= <-].
  - intros p k d. destruct (bool_decide_reflect (public_key_raw k = [x02])) as [Hk|].
    + destruct (custom_extensions p) as [|[oid e] [|]]; intros Hd; simplify_eq.
      * exists []. by rewrite Hk.
      * destruct (String.eqb_spec oid CUSTOM_DATA_EXT_OID_STR) as [->|]; simplify_eq.
        exists []. by rewrite Hk.
    + case_bool_decide as Hl; [|done].
      destruct (custom_extensions p) as [|[oid e] [|]]; intros Hd; simplify_eq.
      * exists []. by rewrite take_ge by lia.
      * destruct (String.eqb_spec oid CUSTOM_DATA_EXT_OID_STR) as [->|]; simplify_eq.
        exists []. by rewrite take_app_length', drop_app_length' by done.
Qed.

Definition agent_key : TunnelKey := MkKey Ed25519 [x02] Some.
Definition identity_key : TunnelKey := MkKey EcdsaP256 (replicate 33 xab) Some.
Definition agent_mode (v : ServerVerifier) : TlsMode :=
  let cfg := client_config v [[x00]] agent_key in
  MkMode cfg (MkQuinn cfg 1000 (Some (from_secs 10)) (Some 30000)).
Definition conn : Connection :=
  MkConn "abababababababab" "abababababababab.example.com"
    "https://abababababababab.example.com" [x00] agent_key identity_key None
    (MkClientTls (agent_mode (CaRoots [[x01]])) (agent_mode NoVerify)).
Definition conn_sig : bytes := pad 65 (replicate 33 xab ++ as_bytes (domain conn)).
End ToyCrypto.

Section witnesses.
Import ToyKey ToyTls ToyCrypto.

Lemma client_identity_accepted_witness :
  (∃ pk, recover_identity_pubkey (domain conn) conn_sig = Some pk ∧
         id_from_pubkey pk = client_id conn) ∧
  split_next "." (domain conn) = Some (client_id conn) ∧
  String.length (client_id conn) = 16%nat ∧
  length conn_sig = 65%nat ∧
  ∀ suffixes, "example.com" ∈ suffixes → allowed_suffix (domain conn) suffixes = true.
Proof.
  apply (client_identity_accepted agent_key identity_key "example.com" None false false);
    vm_compute; reflexivity.
Defined.

Lemma cert_extension_roundtrip_witness :
  ∃ c, build_connection agent_key identity_key "example.com" (Some [x09; x08]) false false = Ok c ∧
    custom_data_from_cert (agent_cert c) = Some [x09; x08].
Proof.
  destruct (build_connection agent_key identity_key "example.com" (Some [x09; x08]) false false)
    as [c|e] eqn:E; [|by vm_compute in E].
  exists c. split; [done|]. exact (proj2 (cert_extension_roundtrip _ _ _ _ _ _ _ E)).
Defined.
End witnesses.
