(* ===== verification/Relay.v ===== *)
(** * Relay.v: the relay's connection handlers

    tunnel-server/src/quic.rs and tunnel-server/src/h2_listener.rs: from an
    accepted connection to a registered agent, on both transports.

    A handler is a [prog] over [relay], the calls it makes to the peer, the TLS
    stack, the resolver, the embedder's auth handler, the shared maps and the
    clock. [QReadExact] and [QWriteAll] are the QUIC control stream, the [H]
    operations the H2 connection on which the relay is the client. *)

From S2P Require Import Prelude Async RustStr Framing Registry Admission Key ClientTls Identity.
From Stdlib Require Import Ascii.
Open Scope string_scope.
Open Scope Z_scope.
Open Scope list_scope.
Open Scope tunnel_scope.

(** ** The handlers' environment *)

Inductive rop :=
(** shared *)
| ODeadline (d : Z)                    (** has the enclosing [timeout(d, ..)] fired? *)
| OAuthHandler (pubkey : bytes) (custom_data : option bytes)
| OTxtLookup (name : string)
| ODropPermit
| OPendingInsert (id : string) (conn : PendingAlpnConn)
| OPendingRemove (id : string) (token : Z)
| ORegister (id : string) (agent : Agent)
(** QUIC *)
| QIncoming                            (** [incoming.await] *)
| QPeerIdentity
| QClose (code : Z) (reason : string)
| QAcceptBi
| QReadExact (n : nat)
| QWriteAll (d : bytes)
| QDropCtrl                            (** [drop((ctrl_send, ctrl_recv))]: finishes the stream *)
(** H2 *)
| HTlsAccept
| HPeerCertificates
| HHandshake (stream_window conn_window : Z)
| HPingPong                            (** is there a [PingPong] to take? *)
| HSpawnDriver
| HSpawnSupervisor (ping_pong : bool)
| HSendRequest (path : string) (end_of_stream : bool)
| HResponse
| HBody
| HSendData (d : bytes) (end_of_stream : bool)
| HRaise                               (** [raise_tx.send(())] *)
| HAbort                               (** [conn_task.abort()] *)
| HConnEnded.                          (** did the driven connection end? *)

Definition rans (o : rop) : Type :=
  match o with
  | ODeadline _ => bool
  | OAuthHandler _ _ => option (option bytes)      (** [None]: denied *)
  | OTxtLookup _ => option (list (list bytes))     (** the records' [txt_data] *)
  | OPendingInsert _ _ => Z
  | ODropPermit | OPendingRemove _ _ | ORegister _ _ => unit
  | QIncoming | QAcceptBi => bool
  | QPeerIdentity => option (list bytes)
  | QClose _ _ | QDropCtrl => unit
  | QReadExact _ => result io_error bytes
  | QWriteAll _ => result io_error unit
  | HTlsAccept => bool
  | HPeerCertificates => option (list bytes)
  | HHandshake _ _ | HPingPong => bool
  | HSpawnDriver | HSpawnSupervisor _ => unit
  | HSendRequest _ _ | HResponse => bool
  | HBody => list (result io_error bytes)          (** the DATA chunks to come *)
  | HSendData _ _ => bool
  | HRaise | HAbort => unit
  | HConnEnded => bool
  end.

Definition rawaits (o : rop) : bool :=
  match o with
  | OTxtLookup _ | QIncoming | QAcceptBi | QReadExact _ | QWriteAll _
  | HTlsAccept | HHandshake _ _ | HResponse | HBody => true
  | _ => false
  end.

Definition relay : iface := Iface rop rans rawaits.

(** [tokio::time::timeout(d, p)]. *)
Definition expired (d : Z) : prog relay (option unit) :=
  b <-! call (I := relay) (ODeadline d) ;; Ret (if (b : bool) then Some tt else None).
Definition timeout {A} (d : Z) (p : prog relay A) : prog relay (option A) :=
  r <-! interrupt (expired d) p ;;
  Ret (match r with inl _ => None | inr a => Some a end).

(** What both listeners share ([ListenerCtx]); the maps are behind [relay]. *)
Record ListenerCtx := Ctx {
  domain_suffixes : list string;
  has_auth_handler : bool;            (** [auth_handler.is_some()] *)
  this_conn : handle;                 (** the connection being handled *)
}.

(** [lookup.iter().flat_map(|r| r.txt_data())]. *)
Definition txt_values (lookup : list (list bytes)) : list bytes := concat lookup.
Definition txt_host (domain : string) : string :=
  match split_once "." domain with Some (_, host) => host | None => "" end.
Definition txt_name (domain : string) : string := "_acu." +:+ txt_host domain +:+ ".".

(** [certs?.first()?]. *)
Definition first_cert (certs : option (list bytes)) : option bytes := certs ≫= head.

Lemma first_cert_Some certs c : first_cert certs = Some c → ∃ cs, certs = Some (c :: cs).
Proof. destruct certs as [[|c' cs]|]; simpl; [done| |done]. intros [= <-]. eauto. Qed.

(** ** quic.rs *)

Section quic.
Context `{Crypto, Yasna} (alloc : Z → bool).

Definition read_ctrl : prog relay (result ctrl_error bytes) :=
  ctrl_read alloc (λ n, call (I := relay) (QReadExact n)).

Definition reject_quic (reason : string) : prog relay unit :=
  call (I := relay) (QClose REJECT_UNAUTHORIZED reason).

Definition quic_auth_exchange (suffixes : list string) (auth_token : option bytes) :
    prog relay (option string) :=
  r <-! read_ctrl ;;
  match r with
  | Err _ => Ret None
  | Ok domain_bytes =>
      match from_utf8 domain_bytes with
      | None => Ret None
      | Some domain =>
          r <-! read_ctrl ;;
          match r with
          | Err _ => Ret None
          | Ok sig_bytes =>
              match recover_identity_pubkey domain sig_bytes with
              | None => reject_quic "unauthorized: identity signature" ;;! Ret None
              | Some _ =>
                  match split_next "." domain with
                  | None => Ret None
                  | Some id =>
                      if negb (allowed_suffix domain suffixes) then
                        reject_quic "unauthorized: domain suffix not allowed" ;;! Ret None
                      else
                        match auth_token with
                        | None => Ret (Some id)
                        | Some deployment_source =>
                            lookup <-! call (I := relay) (OTxtLookup (txt_name domain)) ;;
                            match (lookup : option (list (list bytes))) with
                            | None => Ret None
                            | Some l =>
                                if negb (txt_authorizes (txt_values l) deployment_source
                                           (txt_host domain)) then
                                  reject_quic "unauthorized: deployment source not authorized by TXT" ;;!
                                  Ret None
                                else Ret (Some id)
                            end
                        end
                  end
              end
          end
      end
  end.

(** The challenge has been acknowledged: wait for the client's report. *)
Definition quic_acme_done (id : string) (token : Z) : prog relay (option unit) :=
  read_ctrl ;;!
  call (I := relay) (OPendingRemove id token) ;;!
  Ret (Some tt).

Definition quic_acme_wait (conn : handle) (id : string) : prog relay (option unit) :=
  token <-! call (I := relay) (OPendingInsert id (PendingQuic conn)) ;;
  r <-! ctrl_write (λ d, call (I := relay) (QWriteAll d)) (as_bytes "ack") ;;
  match r with
  | Err _ => call (I := relay) (OPendingRemove id token) ;;! Ret None
  | Ok _ => quic_acme_done id token
  end.

(** The auth handler's verdict: [None] denies, after telling the peer. *)
Definition quic_auth_handler (ctx : ListenerCtx) (first_cert : bytes) :
    prog relay (option (option bytes)) :=
  if has_auth_handler ctx then
    match pubkey_from_cert first_cert with
    | None => reject_quic "unauthorized: client certificate" ;;! Ret None
    | Some pubkey =>
        v <-! call (I := relay) (OAuthHandler pubkey (custom_data_from_cert first_cert)) ;;
        match (v : option (option bytes)) with
        | Some token => Ret (Some token)
        | None => reject_quic "unauthorized: auth handler rejected" ;;! Ret None
        end
    end
  else Ret (Some None).

Definition quic_authenticate (ctx : ListenerCtx) (auth_token : option bytes) :
    prog relay (option string) :=
  ok <-! call (I := relay) QAcceptBi ;;
  if (ok : bool) then quic_auth_exchange (domain_suffixes ctx) auth_token else Ret None.

(** The agent is accepted: the control stream is finished and the agent registers. *)
Definition quic_register (ctx : ListenerCtx) (id : string) : prog relay (option unit) :=
  call (I := relay) QDropCtrl ;;!
  call (I := relay) (ORegister id (AgentQuic (this_conn ctx))) ;;!
  Ret (Some tt).

(** Steps after the identity is verified: the permit is returned, the key-auth
    frame decides whether a challenge is pending, and the agent registers. *)
Definition quic_serve (ctx : ListenerCtx) (id : string) : prog relay (option unit) :=
  call (I := relay) ODropPermit ;;!
  r <-! timeout KEY_AUTH_TIMEOUT read_ctrl ;;
  match r with
  | None | Some (Err _) => Ret None
  | Some (Ok key_auth) =>
      w <-! (if bool_decide (key_auth = []) then Ret (Some tt)
             else quic_acme_wait (this_conn ctx) id) ;;
      match w with
      | None => Ret None
      | Some _ => quic_register ctx id
      end
  end.

Definition handle_quic_connection (ctx : ListenerCtx) : prog relay (option unit) :=
  ok <-! call (I := relay) QIncoming ;;
  if negb (ok : bool) then Ret None
  else
    certs <-! call (I := relay) QPeerIdentity ;;
    match first_cert certs with
    | None => Ret None
    | Some cert =>
        auth <-! quic_auth_handler ctx cert ;;
        match auth with
        | None => Ret None
        | Some auth_token =>
            r <-! timeout AUTH_EXCHANGE_TIMEOUT (quic_authenticate ctx auth_token) ;;
            match r with
            | None =>
                call (I := relay) (QClose CLOSE_TIMEOUT "authentication exchange timeout") ;;!
                Ret None
            | Some None => Ret None
            | Some (Some id) => quic_serve ctx id
            end
        end
    end.
End quic.

(** ** h2_listener.rs *)

Definition TLS_HANDSHAKE_TIMEOUT : Z := from_secs 10.
Definition H2_HANDSHAKE_TIMEOUT : Z := from_secs 10.
Definition CTRL_STREAM_WINDOW : Z := 16 * 1024.
Definition CTRL_CONN_WINDOW : Z := 64 * 1024.
Definition REJECT_TIMEOUT : Z := from_secs 2.

Definition h2_send_reject (reason : string) : prog relay unit :=
  timeout REJECT_TIMEOUT (
    sent <-! call (I := relay) (HSendRequest CTRL_REJECT_PATH false) ;;
    if negb (sent : bool) then Ret None
    else
      ok <-! call (I := relay) (HSendData (as_bytes reason) true) ;;
      if negb (ok : bool) then Ret None
      else
        resp <-! call (I := relay) HResponse ;;
        Ret (if (resp : bool) then Some tt else None)) ;;!
  Ret tt.

(** The response to a control request, with its bounded body. *)
Definition h2_response : prog relay (option bytes) :=
  resp <-! call (I := relay) HResponse ;;
  if negb (resp : bool) then Ret None
  else
    body <-! call (I := relay) HBody ;;
    Ret (match collect_h2_body (body : list _) MAX_CTRL_FRAME with
         | (Ok b, _) => Some b
         | (Err _, _) => None
         end).

(** One control request. *)
Definition h2_get (path : string) : prog relay (option bytes) :=
  sent <-! call (I := relay) (HSendRequest path true) ;;
  if negb (sent : bool) then Ret None else h2_response.

Section h2.
Context `{Crypto, Yasna}.

(** The second half of [h2_auth_exchange]: the domain and its signature are there. *)
Definition h2_verify_identity (suffixes : list string) (auth_token : option bytes)
    (domain : string) (sig_bytes : bytes) : prog relay (option string) :=
  match recover_identity_pubkey domain sig_bytes with
  | None => h2_send_reject "unauthorized: identity signature" ;;! Ret None
  | Some _ =>
      match split_next "." domain with
      | None => Ret None
      | Some id =>
          if negb (allowed_suffix domain suffixes) then
            h2_send_reject "unauthorized: domain suffix not allowed" ;;! Ret None
          else
            match auth_token with
            | None => Ret (Some id)
            | Some deployment_source =>
                lookup <-! call (I := relay) (OTxtLookup (txt_name domain)) ;;
                match (lookup : option (list (list bytes))) with
                | None => Ret None
                | Some l =>
                    if negb (txt_authorizes (txt_values l) deployment_source
                               (txt_host domain)) then
                      h2_send_reject "unauthorized: deployment source not authorized by TXT" ;;!
                      Ret None
                    else Ret (Some id)
                end
            end
      end
  end.

(** The first half: the domain is there. *)
Definition h2_ask_signature (suffixes : list string) (auth_token : option bytes) (body : bytes) :
    prog relay (option string) :=
  match from_utf8 body with
  | None => Ret None
  | Some domain =>
      sig_bytes <-? h2_get "/_ctrl/sig" ;;
      h2_verify_identity suffixes auth_token domain sig_bytes
  end.

Definition h2_auth_exchange (suffixes : list string) (auth_token : option bytes) :
    prog relay (option string) :=
  body <-? h2_get "/_ctrl/domain" ;;
  h2_ask_signature suffixes auth_token body.

Definition h2_read_key_auth : prog relay (option bytes) := h2_get "/_ctrl/key_auth".

(** [/_ctrl/done] has been asked: wait for the client's answer. *)
Definition h2_acme_done (id : string) (token : Z) : prog relay (option unit) :=
  call (I := relay) HResponse ;;!
  call (I := relay) (OPendingRemove id token) ;;!
  Ret (Some tt).

Definition h2_acme_wait (conn : handle) (id : string) : prog relay (option unit) :=
  token <-! call (I := relay) (OPendingInsert id (PendingH2 conn)) ;;
  sent <-! call (I := relay) (HSendRequest "/_ctrl/done" true) ;;
  if negb (sent : bool) then
    call (I := relay) (OPendingRemove id token) ;;! Ret None
  else h2_acme_done id token.

(** The connection itself, driven alongside: it may end first. *)
Definition conn_ended : prog relay (option unit) :=
  b <-! call (I := relay) HConnEnded ;; Ret (if (b : bool) then Some tt else None).

Definition h2_reject (reason : string) : prog relay unit :=
  r <-! timeout H2_HANDSHAKE_TIMEOUT
          (call (I := relay) (HHandshake CTRL_STREAM_WINDOW CTRL_CONN_WINDOW)) ;;
  match (r : option bool) with
  | Some true => interrupt conn_ended (h2_send_reject reason) ;;! Ret tt
  | _ => Ret tt
  end.

Definition h2_auth_handler (ctx : ListenerCtx) (peer_cert : bytes) :
    prog relay (option (option bytes)) :=
  if has_auth_handler ctx then
    match pubkey_from_cert peer_cert with
    | None => h2_reject "unauthorized: client certificate" ;;! Ret None
    | Some pubkey =>
        v <-! call (I := relay) (OAuthHandler pubkey (custom_data_from_cert peer_cert)) ;;
        match (v : option (option bytes)) with
        | Some token => Ret (Some token)
        | None => h2_reject "unauthorized: auth handler rejected" ;;! Ret None
        end
    end
  else Ret (Some None).

(** The end of the challenge phase: the agent registers, or its connection is aborted. *)
Definition h2_register (ctx : ListenerCtx) (id : string) (w : option unit) : prog relay (option unit) :=
  match w with
  | None => call (I := relay) HAbort ;;! Ret None
  | Some _ =>
      call (I := relay) (ORegister id (AgentH2 (this_conn ctx))) ;;!
      Ret (Some tt)
  end.

(** The key authorization is there, or not in time. *)
Definition h2_challenge_phase (ctx : ListenerCtx) (id : string) (r : option (option bytes)) :
    prog relay (option unit) :=
  match r with
  | None | Some None => call (I := relay) HAbort ;;! Ret None
  | Some (Some key_auth) =>
      w <-! (if bool_decide (key_auth = []) then Ret (Some tt)
             else h2_acme_wait (this_conn ctx) id) ;;
      h2_register ctx id w
  end.

Definition h2_serve (ctx : ListenerCtx) (ping_pong : bool) (id : string) :
    prog relay (option unit) :=
  call (I := relay) HRaise ;;!
  call (I := relay) ODropPermit ;;!
  call (I := relay) (HSpawnSupervisor ping_pong) ;;!
  r <-! timeout KEY_AUTH_TIMEOUT h2_read_key_auth ;;
  h2_challenge_phase ctx id r.

(** The identity exchange is over, or cut off. *)
Definition h2_authenticated (ctx : ListenerCtx) (ping_pong : bool) (r : option (option string)) :
    prog relay (option unit) :=
  match r with
  | Some (Some id) => h2_serve ctx ping_pong id
  | _ => call (I := relay) HAbort ;;! Ret None
  end.

Definition handle_h2_connection (ctx : ListenerCtx) : prog relay (option unit) :=
  tls <-! timeout TLS_HANDSHAKE_TIMEOUT (call (I := relay) HTlsAccept) ;;
  match (tls : option bool) with
  | Some true =>
      certs <-! call (I := relay) HPeerCertificates ;;
      match first_cert certs with
      | None => Ret None
      | Some peer_cert =>
          auth <-! h2_auth_handler ctx peer_cert ;;
          match auth with
          | None => Ret None
          | Some auth_token =>
              hs <-! timeout H2_HANDSHAKE_TIMEOUT
                       (call (I := relay) (HHandshake CTRL_STREAM_WINDOW CTRL_CONN_WINDOW)) ;;
              match (hs : option bool) with
              | Some true =>
                  ping_pong <-! call (I := relay) HPingPong ;;
                  call (I := relay) HSpawnDriver ;;!
                  r <-! timeout AUTH_EXCHANGE_TIMEOUT
                          (h2_auth_exchange (domain_suffixes ctx) auth_token) ;;
                  h2_authenticated ctx ping_pong r
              | _ => Ret None
              end
          end
      end
  | _ => Ret None
  end.
End h2.

(** ** Which calls need authority *)

(** Calls that act for an authenticated client. *)
Definition privileged (o : rop) : bool :=
  match o with
  | ODropPermit | HRaise | HSpawnSupervisor _ | OPendingInsert _ _ | OPendingRemove _ _
  | ORegister _ _ => true
  | _ => false
  end.

(** The client a privileged call acts for, where it names one. *)
Definition acts_for (o : rop) (id : string) : Prop :=
  match o with
  | OPendingInsert i _ | OPendingRemove i _ | ORegister i _ => i = id
  | _ => True
  end.

Definition unprivileged (o : op relay) : Prop := privileged o = false.

Definition is_deadline (e : event relay) : Prop :=
  match ev_op e with ODeadline _ => True | _ => False end.

Lemma deadline_unprivileged e : is_deadline e → unprivileged (ev_op e).
Proof. destruct e as [[] ?]; done. Qed.

Lemma expired_neutral d : neutral_prog is_deadline (expired d).
Proof. split; [constructor|]. intros []; (split; [|done]); by repeat constructor. Qed.

Lemma only_timeout {A} (S : op relay → Prop) d (p : prog relay A) :
  S (ODeadline d) → only S p → only S (timeout d p).
Proof.
  intros Hd Hp. apply only_bind; [|by intros []]. apply only_interrupt; [|done].
  split; [done|]. by intros [].
Qed.

(** What a completed [timeout] says about the program under it. *)
Lemma wp_timeout {A} d (p : prog relay A) (Q : trace relay → option A → Prop) :
  (∀ r, stable is_deadline (λ tr, Q tr r)) →
  wp p (λ tr a, Q tr (Some a)) → always p (λ tr, Q tr None) →
  wp (timeout d p) Q.
Proof.
  intros HQ Hp Hal. unfold timeout. rewrite wp_bind.
  eapply (wp_mono _ (λ tr (r : unit + A), Q tr match r with inl _ => None | inr a => Some a end)).
  { intros tr r. simpl. by rewrite app_nil_r. }
  apply (wp_interrupt is_deadline); [apply expired_neutral|by intros []|done|].
  by eapply always_mono; [|apply Hal].
Qed.

(** Every branch of the handlers before authentication makes unprivileged calls
    only: walks the program. *)
Ltac only_go := repeat
  match goal with
  | |- only _ (prog_bind _ _) => apply only_bind; [|intros ?]
  | |- only _ (interrupt _ _) => apply only_interrupt
  | |- only _ (timeout _ _) => apply only_timeout; [done|]
  | |- only _ (Ret _) => exact I
  | |- only _ (call _) => split; [|by intros ?]
  | |- only _ (match ?x with _ => _ end) => destruct x
  | |- only _ (if ?x then _ else _) => destruct x
  end.

Section quic_safety.
Context `{Crypto, Yasna} (alloc : Z → bool).

Lemma only_read_ctrl (S : op relay → Prop) :
  (∀ n, S (QReadExact n)) → only S (read_ctrl alloc).
Proof.
  intros HS. unfold read_ctrl, ctrl_read. apply only_bind; [by split|].
  intros [b|e]; [|done]. destruct (MAX_CTRL_FRAME <? u32_from_be_bytes b)%Z, (alloc (u32_from_be_bytes b)); simpl; try done.
  split; [done|]. by intros [].
Qed.

Lemma only_write_ctrl (S : op relay → Prop) d :
  (∀ d, S (QWriteAll d)) →
  only S (ctrl_write (λ d, call (I := relay) (QWriteAll d)) d).
Proof.
  intros HS. unfold ctrl_write. destruct (_ <=? MAX_CTRL_FRAME)%Z; [|done].
  apply only_bind; [by split|]. intros [b|e]; [|done].
  apply only_bind; [by split|]. by intros [].
Qed.

Lemma only_quic_auth_exchange suffixes token :
  only unprivileged (quic_auth_exchange alloc suffixes token).
Proof.
  unfold quic_auth_exchange, reject_quic. only_go; try (by apply only_read_ctrl); done.
Qed.

Lemma only_quic_auth_handler ctx cert : only unprivileged (quic_auth_handler ctx cert).
Proof. unfold quic_auth_handler, reject_quic. only_go; done. Qed.

Lemma only_quic_authenticate ctx token : only unprivileged (quic_authenticate alloc ctx token).
Proof. unfold quic_authenticate. only_go; (done || apply only_quic_auth_exchange). Qed.

Lemma only_quic_serve ctx id :
  only (λ o : op relay, acts_for o id) (quic_serve alloc ctx id).
Proof.
  unfold quic_serve, quic_acme_wait, quic_acme_done, quic_register.
  only_go; try (by apply only_read_ctrl); try (by apply only_write_ctrl); done.
Qed.
End quic_safety.

Section h2_safety.
Context `{Crypto, Yasna}.

Lemma only_h2_get (S : op relay → Prop) path :
  S (HSendRequest path true) → S HResponse → S HBody → only S (h2_get path).
Proof. intros. unfold h2_get, h2_response. only_go; done. Qed.

Lemma only_h2_send_reject reason : only unprivileged (h2_send_reject reason).
Proof. unfold h2_send_reject. only_go; done. Qed.

Lemma only_h2_auth_exchange suffixes token :
  only unprivileged (h2_auth_exchange suffixes token).
Proof.
  unfold h2_auth_exchange, h2_ask_signature, h2_verify_identity. only_go;
    first [done | by apply only_h2_get | apply only_h2_send_reject].
Qed.

Lemma only_h2_auth_handler ctx cert : only unprivileged (h2_auth_handler ctx cert).
Proof.
  unfold h2_auth_handler, h2_reject, conn_ended.
  only_go; first [done | apply only_h2_send_reject].
Qed.

Lemma only_h2_serve ctx pp id : only (λ o : op relay, acts_for o id) (h2_serve ctx pp id).
Proof.
  unfold h2_serve, h2_challenge_phase, h2_register, h2_acme_wait, h2_acme_done, h2_read_key_auth. only_go; try (by apply only_h2_get); done.
Qed.
End h2_safety.

(** ** Evidence of authority *)

(** The peer sent [b] as one control message. *)
Definition quic_said (b : bytes) (tr : trace relay) : Prop :=
  ∃ n, Event (I := relay) (QReadExact n) (Ok b) ∈ tr.
Definition h2_said (b : bytes) (tr : trace relay) : Prop :=
  ∃ chunks released, Event (I := relay) HBody chunks ∈ tr ∧
    collect_h2_body chunks MAX_CTRL_FRAME = (Ok b, released).

Section evidence.
Context `{Crypto, Yasna}.
Context (said : bytes → trace relay → Prop).
Implicit Types tr : trace relay.

(** The peer announced a domain whose first label is [id], signed it with the
    key [id] is the hash of, the suffix is allowed, and the zone's TXT records
    admit the deployment source, if the auth handler named one. *)
Definition proved (suffixes : list string) (token : option bytes) tr (id : string) : Prop :=
  ∃ domain sig pk, said (as_bytes domain) tr ∧ said sig tr ∧ utf8 domain ∧
    recover_identity_pubkey domain sig = Some pk ∧
    split_next "." domain = Some id ∧
    allowed_suffix domain suffixes = true ∧
    ∀ source, token = Some source →
      ∃ l, Event (I := relay) (OTxtLookup (txt_name domain)) (Some l) ∈ tr ∧
           txt_authorizes (txt_values l) source (txt_host domain) = true.

(** The certificate's key and extension passed the auth handler, if there is one. *)
Definition vetted (ctx : ListenerCtx) (cert : bytes) tr (token : option bytes) : Prop :=
  if has_auth_handler ctx then
    ∃ pk, pubkey_from_cert cert = Some pk ∧
      Event (I := relay) (OAuthHandler pk (custom_data_from_cert cert)) (Some token) ∈ tr
  else token = None.

Definition authorized (presented : bytes → trace relay → Prop) (ctx : ListenerCtx)
    tr (id : string) : Prop :=
  ∃ cert token, presented cert tr ∧ vetted ctx cert tr token ∧
    proved (domain_suffixes ctx) token tr id.

(** Every privileged call so far was made for an authorized client. *)
Definition privileged_ok (presented : bytes → trace relay → Prop) (ctx : ListenerCtx)
    tr : Prop :=
  Forall (λ e : event relay, privileged (ev_op e) = true →
    ∃ id, acts_for (ev_op e) id ∧ authorized presented ctx tr id) tr.

Context (said_mono : ∀ b tr tr', tr ⊆ tr' → said b tr → said b tr').

Lemma proved_mono suffixes token tr tr' id :
  tr ⊆ tr' → proved suffixes token tr id → proved suffixes token tr' id.
Proof.
  intros Hs (d & sig & pk & ? & ? & ? & ? & ? & ? & Htxt).
  exists d, sig, pk. split_and!; eauto.
  intros src Hsrc. destruct (Htxt src Hsrc) as (l & ? & ?). eauto.
Qed.

(** Once authorized, calls for that client are fine; before, unprivileged ones. *)
Lemma privileged_ok_serve presented ctx id pre {A} (p : prog relay A) :
  (∀ c tr tr', tr ⊆ tr' → presented c tr → presented c tr') →
  Forall (λ e : event relay, unprivileged (ev_op e)) pre →
  authorized presented ctx pre id →
  only (λ o : op relay, acts_for o id) p →
  always p (λ tr, privileged_ok presented ctx (pre ++ tr)).
Proof.
  intros Hpm Hpre Hau Hp. eapply always_mono; [|by apply only_always].
  intros tr Htr.
  assert (Hau' : authorized presented ctx (pre ++ tr) id).
  { destruct Hau as (c & tok & Hc & Hv & Hpr). exists c, tok.
    assert (pre ⊆ pre ++ tr) by set_solver. split_and!; eauto using proved_mono.
    unfold vetted in *. destruct (has_auth_handler ctx); [|done]. set_solver. }
  apply Forall_app. split.
  - eapply Forall_impl; [exact Hpre|]. unfold unprivileged. intros e -> [=].
  - eapply Forall_impl; [exact Htr|]. simpl. eauto.
Qed.

Lemma privileged_ok_pre presented ctx pre {A} (p : prog relay A) :
  Forall (λ e : event relay, unprivileged (ev_op e)) pre → only unprivileged p →
  always p (λ tr, privileged_ok presented ctx (pre ++ tr)).
Proof.
  intros Hpre Hp. eapply always_mono; [|by apply only_always].
  intros tr Htr. eapply Forall_impl; [by apply Forall_app|].
  unfold unprivileged. intros e -> [=].
Qed.

(** An unprivileged stage, then the rest. *)
Lemma privileged_ok_bind presented ctx pre {A B} (p : prog relay A) (f : A → prog relay B)
    (Q : trace relay → A → Prop) :
  Forall (λ e : event relay, unprivileged (ev_op e)) pre → only unprivileged p → wp p Q →
  (∀ tr a, Forall (λ e : event relay, unprivileged (ev_op e)) (pre ++ tr) → Q tr a →
     always (f a) (λ tr', privileged_ok presented ctx ((pre ++ tr) ++ tr'))) →
  always (prog_bind f p) (λ tr, privileged_ok presented ctx (pre ++ tr)).
Proof.
  intros Hpre Hp Hwp Hf. apply always_bind. split; [by apply privileged_ok_pre|].
  eapply wp_mono; [|apply wp_and; [apply Hwp|by apply only_wp]].
  intros tr a [HQ Htr]. eapply always_mono; [|apply Hf; [by apply Forall_app|done]].
  intros tr'. cbn beta. by rewrite <-app_assoc.
Qed.
End evidence.

Lemma quic_said_mono b (tr tr' : trace relay) : tr ⊆ tr' → quic_said b tr → quic_said b tr'.
Proof. unfold quic_said. set_solver. Qed.
Lemma h2_said_mono b (tr tr' : trace relay) : tr ⊆ tr' → h2_said b tr → h2_said b tr'.
Proof. unfold h2_said. intros ? (c & r & ? & ?). exists c, r. set_solver. Qed.

Definition quic_presented (cert : bytes) (tr : trace relay) : Prop :=
  ∃ certs, Event (I := relay) QPeerIdentity (Some (cert :: certs)) ∈ tr.
Definition h2_presented (cert : bytes) (tr : trace relay) : Prop :=
  ∃ certs, Event (I := relay) HPeerCertificates (Some (cert :: certs)) ∈ tr.

Lemma quic_presented_mono c (tr tr' : trace relay) :
  tr ⊆ tr' → quic_presented c tr → quic_presented c tr'.
Proof. unfold quic_presented. set_solver. Qed.
Lemma h2_presented_mono c (tr tr' : trace relay) :
  tr ⊆ tr' → h2_presented c tr → h2_presented c tr'.
Proof. unfold h2_presented. set_solver. Qed.

(** The result of an identity exchange, possibly cut off by its deadline. *)
Definition exchange_post `{Crypto} (said : bytes → trace relay → Prop)
    (suffixes : list string) (token : option bytes) (tr : trace relay)
    (r : option (option string)) : Prop :=
  ∀ id, r = Some (Some id) → proved said suffixes token tr id.

Lemma exchange_post_stable `{Crypto} said suffixes token r :
  (∀ b (tr tr' : trace relay), tr ⊆ tr' → said b tr → said b tr') →
  stable is_deadline (λ tr, exchange_post said suffixes token tr r).
Proof.
  intros Hm tr1 e tr2 _ H' id Hr. eapply proved_mono; [done| |by apply H']. set_solver.
Qed.

(** The exchange bounded by its deadline. *)
Lemma wp_timeout_exchange `{Crypto} said suffixes token d (p : prog relay (option string)) :
  (∀ b (tr tr' : trace relay), tr ⊆ tr' → said b tr → said b tr') →
  wp p (λ tr r, exchange_post said suffixes token tr (Some r)) →
  wp (timeout d p) (exchange_post said suffixes token).
Proof.
  intros Hm Hp. apply wp_timeout; [|done|].
  - intros r. by apply exchange_post_stable.
  - apply always_reaches. intros tr p' _ id [=].
Qed.

Section quic_evidence.
Context `{Crypto, Yasna} (alloc : Z → bool).

Lemma wp_read_ctrl : wp (read_ctrl alloc) (λ tr r, ∀ b, r = Ok b → quic_said b tr).
Proof.
  unfold read_ctrl, ctrl_read. intros [lb|e]; [|done].
  simpl. destruct (MAX_CTRL_FRAME <? u32_from_be_bytes lb)%Z; [done|].
  destruct (alloc (u32_from_be_bytes lb)); [|done]. simpl.
  intros [b|e]; [|done]. intros b' [= <-].
  exists (Z.to_nat (u32_from_be_bytes lb)). by right; left.
Qed.

Lemma wp_quic_auth_exchange suffixes token :
  wp (quic_auth_exchange alloc suffixes token)
     (λ tr r, exchange_post quic_said suffixes token tr (Some r)).
Proof.
  unfold quic_auth_exchange. apply wp_bind.
  eapply wp_mono; [|apply wp_read_ctrl]. intros tr1 [db|e] H1; [|done].
  destruct (from_utf8 db) as [d|] eqn:Hd; [|done].
  apply from_utf8_Some in Hd as [-> Hutf]. apply wp_bind.
  eapply wp_mono; [|apply wp_read_ctrl]. intros tr2 [sig|e] H2; [|done].
  assert (quic_said (as_bytes d) (tr1 ++ tr2)) as Hs1.
  { eapply quic_said_mono; [|by apply H1]. set_solver. }
  assert (quic_said sig (tr1 ++ tr2)) as Hs2.
  { eapply quic_said_mono; [|by apply H2]. set_solver. }
  destruct (recover_identity_pubkey d sig) as [pk|] eqn:Hrec; [|done].
  destruct (split_next "." d) as [id|] eqn:Hid; [|done].
  destruct (allowed_suffix d suffixes) eqn:Hall; [|done]. simpl.
  destruct token as [src|]; simpl.
  - intros [l|]; [|done]. destruct (txt_authorizes _ _ _) eqn:Ht; [|done].
    simpl. intros ? [= <-].
    eapply (proved_mono _ quic_said_mono _ _ _ (tr1 ++ tr2 ++ [Event (I:=relay) (OTxtLookup _) (Some l)]));
      [done|].
    exists d, sig, pk. split_and!; try done; try (eapply quic_said_mono; [|done]; set_solver).
    intros ? [= <-]. exists l. set_solver.
  - intros ? [= <-]. rewrite app_nil_r. exists d, sig, pk. by split_and!.
Qed.

Lemma wp_quic_authenticate ctx token :
  wp (quic_authenticate alloc ctx token)
     (λ tr r, exchange_post quic_said (domain_suffixes ctx) token tr (Some r)).
Proof.
  unfold quic_authenticate. intros [|]; [|done].
  eapply wp_mono; [|apply wp_quic_auth_exchange]. intros tr r Hp id Hr.
  eapply proved_mono; [apply quic_said_mono| |by apply Hp]. set_solver.
Qed.

Lemma wp_quic_auth_handler ctx cert :
  wp (quic_auth_handler ctx cert)
     (λ tr r, ∀ token, r = Some token → vetted ctx cert tr token).
Proof.
  unfold quic_auth_handler, vetted. destruct (has_auth_handler ctx).
  - destruct (pubkey_from_cert cert) as [pk|]; [|done].
    intros [t|]; [|done]. simpl. intros ? [= <-]. exists pk. set_solver.
  - by intros ? [= <-].
Qed.
End quic_evidence.

Section h2_evidence.
Context `{Crypto, Yasna}.

Lemma wp_h2_get path : wp (h2_get path) (λ tr r, ∀ b, r = Some b → h2_said b tr).
Proof.
  unfold h2_get. intros [|]; [|done]. intros [|]; [|done]. simpl. intros chunks b.
  destruct (collect_h2_body chunks MAX_CTRL_FRAME) as [[b'|] rel] eqn:E; [|done].
  intros [= <-]. exists chunks, rel. split; [set_solver|done].
Qed.

Lemma wp_None {A B} (p : prog relay A) (f : A → prog relay (option B)) (Q : trace relay → option B → Prop) :
  (∀ tr, Q tr None) → (∀ a, f a = Ret None) → wp (prog_bind f p) Q.
Proof.
  intros HQ Hf. apply runs_wp. intros tr r (? & ? & a & -> & _ & Hr)%runs_bind.
  rewrite Hf in Hr. destruct Hr as [-> ->]. apply HQ.
Qed.

Lemma wp_h2_auth_exchange suffixes token :
  wp (h2_auth_exchange suffixes token)
     (λ tr r, exchange_post h2_said suffixes token tr (Some r)).
Proof.
  unfold h2_auth_exchange, h2_ask_signature, h2_verify_identity. apply wp_bind.
  eapply wp_mono; [|apply wp_h2_get]. intros tr1 [db|] H1; [|done].
  destruct (from_utf8 db) as [d|] eqn:Hd; [|done].
  apply from_utf8_Some in Hd as [-> Hutf]. apply wp_bind.
  eapply wp_mono; [|apply wp_h2_get]. intros tr2 [sig|] H2; [|done].
  assert (h2_said (as_bytes d) (tr1 ++ tr2)) as Hs1.
  { eapply h2_said_mono; [|by apply H1]. set_solver. }
  assert (h2_said sig (tr1 ++ tr2)) as Hs2.
  { eapply h2_said_mono; [|by apply H2]. set_solver. }
  destruct (recover_identity_pubkey d sig) as [pk|] eqn:Hrec; [|by apply wp_None].
  destruct (split_next "." d) as [id|] eqn:Hid; [|done].
  destruct (allowed_suffix d suffixes) eqn:Hall; [|by apply wp_None]. cbn [negb].
  destruct token as [src|].
  - intros [l|]; [|done]. cbn [prog_bind].
    destruct (txt_authorizes _ _ _) eqn:Ht; cbn [negb]; [|by apply wp_None].
    intros ? [= <-].
    eapply (proved_mono _ h2_said_mono _ _ _ (tr1 ++ tr2 ++ [Event (I:=relay) (OTxtLookup _) (Some l)]));
      [done|].
    exists d, sig, pk. split_and!; try done; try (eapply h2_said_mono; [|done]; set_solver).
    intros ? [= <-]. exists l. set_solver.
  - intros ? [= <-]. rewrite app_nil_r. exists d, sig, pk. by split_and!.
Qed.

Lemma wp_h2_auth_handler ctx cert :
  wp (h2_auth_handler ctx cert)
     (λ tr r, ∀ token, r = Some token → vetted ctx cert tr token).
Proof.
  unfold h2_auth_handler, vetted. destruct (has_auth_handler ctx).
  - destruct (pubkey_from_cert cert) as [pk|]; [|by apply wp_None].
    intros [t|]; cbn [prog_bind]; [|by apply wp_None].
    intros ? [= <-]. exists pk. set_solver.
  - by intros ? [= <-].
Qed.
End h2_evidence.

(** Closes the branches that return before authentication. *)
Ltac not_yet := apply privileged_ok_pre; [done|cbn beta iota; first [exact Logic.I|only_go; done]].

(** ** Peers in memory

    An environment in which no deadline fires: the QUIC control stream delivers
    the given bytes, H2 responses carry the given bodies in turn, the auth handler
    and the resolver answer as given. *)

Record peer := Peer { pr_stream : bytes; pr_bodies : list (list (result io_error bytes)) }.

Record world := World {
  wd_cert : bytes;
  wd_handler : bytes → option bytes → option (option bytes);
  wd_txt : string → option (list (list bytes));
  wd_token : Z;                     (** the challenge map's next token *)
}.

Definition answer (w : world) (o : op relay) (s : peer) : ans relay o * peer :=
  match o return rans o * peer with
  | ODeadline _ => (false, s)
  | OAuthHandler pk c => (wd_handler w pk c, s)
  | OTxtLookup n => (wd_txt w n, s)
  | OPendingInsert _ _ => (wd_token w, s)
  | ODropPermit | OPendingRemove _ _ | ORegister _ _ => (tt, s)
  | QIncoming | QAcceptBi => (true, s)
  | QPeerIdentity => (Some [wd_cert w], s)
  | QClose _ _ | QDropCtrl => (tt, s)
  | QReadExact n =>
      let '(r, rest) := mem_read_exact n (pr_stream s) in (r, Peer rest (pr_bodies s))
  | QWriteAll _ => (Ok tt, s)
  | HTlsAccept => (true, s)
  | HPeerCertificates => (Some [wd_cert w], s)
  | HHandshake _ _ | HPingPong => (true, s)
  | HSpawnDriver | HSpawnSupervisor _ => (tt, s)
  | HSendRequest _ _ | HResponse => (true, s)
  | HBody => (default [] (head (pr_bodies s)), Peer (pr_stream s) (tail (pr_bodies s)))
  | HSendData _ _ => (true, s)
  | HRaise | HAbort => (tt, s)
  | HConnEnded => (false, s)
  end.

(** What the peer and the rest of the relay get to see of a handler. *)
Inductive observed :=
| Rejected (reason : string)
| PermitReturned
| ChallengeOpened (id : string)
| ChallengeClosed (id : string)
| Registered (id : string) (a : Agent).

Definition observe (e : event relay) : option observed :=
  match ev_op e with
  | QClose c r => if bool_decide (c = REJECT_UNAUTHORIZED) then Some (Rejected r) else None
  | HSendData d _ => Some (Rejected (of_bytes d))
  | ODropPermit => Some PermitReturned
  | OPendingInsert id _ => Some (ChallengeOpened id)
  | OPendingRemove id _ => Some (ChallengeClosed id)
  | ORegister id a => Some (Registered id a)
  | _ => None
  end.

(** The run of [p] in the world [w]: its result, what was observed, the peer after. *)
Definition outcome {A} (w : world) (p : prog relay A) (s : peer) : A * list observed * peer :=
  let '(a, tr, s') := exec (answer w) p s in (a, omap observe tr, s').

Section outcome.
Context (w : world).

Lemma outcome_bind {A B} (p : prog relay A) (f : A → prog relay B) s :
  outcome w (prog_bind f p) s =
  let '(a, o, s1) := outcome w p s in
  let '(b, o', s2) := outcome w (f a) s1 in (b, o ++ o', s2).
Proof.
  unfold outcome. rewrite exec_bind. destruct (exec (answer w) p s) as [[a tr] s1].
  destruct (exec (answer w) (f a) s1) as [[b tr'] s2]. by rewrite omap_app.
Qed.

Lemma outcome_timeout {A} d (p : prog relay A) s :
  outcome w (timeout d p) s =
  let '(a, o, s') := outcome w p s in (Some a, o, s').
Proof.
  unfold timeout. rewrite outcome_bind. unfold outcome at 1.
  destruct (exec_interrupt_never (answer w) observe (expired d) p s) as (tr & -> & Htr).
  - intros s0. by eexists.
  - rewrite Htr. unfold outcome. destruct (exec (answer w) p s) as [[a tr'] s1]. simpl.
    by rewrite app_nil_r.
Qed.

Lemma outcome_read_ctrl alloc m rest bs :
  (∀ n, n ≤ MAX_CTRL_FRAME → alloc n = true) →
  Z.of_nat (length m) ≤ MAX_CTRL_FRAME →
  outcome w (read_ctrl alloc) (Peer (frame m ++ rest) bs) = (Ok m, [], Peer rest bs).
Proof.
  intros Ha Hm. pose proof (read_frame alloc m rest ltac:(auto) ltac:(auto)) as Hr.
  unfold outcome, read_ctrl, ctrl_read, mbind, state_bind, prog_mbind in *. cbn [call prog_bind exec answer].
  cbn [pr_stream pr_bodies]. destruct (mem_read_exact 4 (frame m ++ rest)) as [[b|e] r1]; [|done].
  cbn [prog_bind]. destruct (MAX_CTRL_FRAME <? u32_from_be_bytes b)%Z; [done|].
  destruct (alloc (u32_from_be_bytes b)); [|done]. cbn [negb call prog_bind exec answer pr_stream pr_bodies] in *.
  destruct (mem_read_exact (Z.to_nat (u32_from_be_bytes b)) r1) as [[b2|e] r2]; [|done].
  unfold mret, state_ret in Hr. by simplify_eq/=.
Qed.

Lemma outcome_h2_get path chunks bs st :
  Z.of_nat (length (concat chunks)) ≤ MAX_CTRL_FRAME →
  outcome w (h2_get path) (Peer st ((Ok <$> chunks) :: bs))
    = (Some (concat chunks), [], Peer st bs).
Proof.
  intros Hc. unfold outcome, h2_get. cbn -[collect_h2_body fmap MAX_CTRL_FRAME]. rewrite collect_h2_body_complete by done. done.
Qed.
End outcome.

(** ** Properties *)

Lemma wp_True {A} (p : prog relay A) : wp p (λ _ _, True).
Proof. by apply runs_wp. Qed.

Section properties.
Context `{Crypto, Yasna}.

(** Every prefix of a QUIC handler's run makes its privileged calls for an
    authorized client. *)
Lemma quic_privileged_ok alloc ctx :
  always (handle_quic_connection alloc ctx) (privileged_ok quic_said quic_presented ctx).
Proof.
  change (always ?p _) with (always p (λ tr, privileged_ok quic_said quic_presented ctx ([] ++ tr))).
  eapply privileged_ok_bind; [constructor|only_go; done|apply wp_True|].
  intros tr0 [|] Hu0 _; [|not_yet].
  eapply (privileged_ok_bind _ _ _ _ _ _ (λ tr c, tr = [Event (I:=relay) QPeerIdentity c]));
    [done|only_go; done|done|].
  intros trc certs Huc ->.
  destruct (first_cert certs) as [cert|] eqn:Hcert; [|not_yet].
  apply first_cert_Some in Hcert as [cs ->].
  eapply privileged_ok_bind; [done|apply only_quic_auth_handler|apply wp_quic_auth_handler|].
  intros tr1 [token|] Hu1 Hv; [|not_yet].
  eapply (privileged_ok_bind _ _ _ _ _ _ (exchange_post quic_said (domain_suffixes ctx) token));
    [done|apply only_timeout; [done|apply only_quic_authenticate]| |].
  { apply wp_timeout_exchange; [apply quic_said_mono|apply wp_quic_authenticate]. }
  intros tr2 [[id|]|] Hu2 Hx; [|not_yet..].
  apply (privileged_ok_serve _ quic_said_mono _ _ id); [apply quic_presented_mono|done| |apply only_quic_serve].
  exists cert, token. split_and!.
  - exists cs. set_solver.
  - specialize (Hv _ eq_refl). unfold vetted in *. destruct (has_auth_handler ctx); [|done]. set_solver.
  - eapply proved_mono; [apply quic_said_mono| |by apply Hx]. set_solver.
Qed.

Lemma h2_privileged_ok ctx :
  always (handle_h2_connection ctx) (privileged_ok h2_said h2_presented ctx).
Proof.
  change (always ?p _) with (always p (λ tr, privileged_ok h2_said h2_presented ctx ([] ++ tr))).
  eapply privileged_ok_bind; [constructor|apply only_timeout; [done|only_go; done]|apply wp_True|].
  intros tr0 tls Hu0 _. destruct tls as [[|]|]; [|not_yet..].
  eapply (privileged_ok_bind _ _ _ _ _ _ (λ tr c, tr = [Event (I:=relay) HPeerCertificates c]));
    [done|only_go; done|done|].
  intros trc certs Huc ->.
  destruct (first_cert certs) as [cert|] eqn:Hcert; [|not_yet].
  apply first_cert_Some in Hcert as [cs ->].
  eapply privileged_ok_bind; [done|apply only_h2_auth_handler|apply wp_h2_auth_handler|].
  intros tr1 [token|] Hu1 Hv; [|not_yet].
  eapply privileged_ok_bind; [done|apply only_timeout; [done|only_go; done]|apply wp_True|].
  intros trh hs Huh _. destruct hs as [[|]|]; [|not_yet..].
  eapply privileged_ok_bind; [done|only_go; done|apply wp_True|]. intros trp pp Hup _.
  eapply privileged_ok_bind; [done|only_go; done|apply wp_True|]. intros trs [] Hus _.
  eapply (privileged_ok_bind _ _ _ _ _ _ (exchange_post h2_said (domain_suffixes ctx) token));
    [done|apply only_timeout; [done|apply only_h2_auth_exchange]| |].
  { apply wp_timeout_exchange; [apply h2_said_mono|apply wp_h2_auth_exchange]. }
  intros tr2 [[id|]|] Hu2 Hx; [|not_yet..].
  apply (privileged_ok_serve _ h2_said_mono _ _ id); [apply h2_presented_mono|done| |apply only_h2_serve].
  exists cert, token. split_and!.
  - exists cs. set_solver.
  - specialize (Hv _ eq_refl). unfold vetted in *. destruct (has_auth_handler ctx); [|done]. set_solver.
  - eapply proved_mono; [apply h2_said_mono| |by apply Hx]. set_solver.
Qed.

(** C4: on QUIC, whatever the peer, the resolver, the auth handler and the
    clock do, and wherever the task is interrupted: releasing the
    unauthenticated-connection permit, entering the challenge map and
    registering an agent happen only for a client [id] that was authorized by
    then. That is: it presented a certificate the auth handler (if configured)
    accepted, it signed a domain with the key whose hash is [id], the domain's
    suffix is allowed, and the zone's TXT records admit the deployment source
    the handler named. *)
Theorem quic_agents_authorized alloc ctx tr p' :
  reaches (handle_quic_connection alloc ctx) tr p' →
  privileged_ok quic_said quic_presented ctx tr.
Proof. apply always_reaches, quic_privileged_ok. Qed.

(** C5: the same on H2, where a privileged call is in addition raising the
    connection's flow-control windows to data size and starting its supervisor. *)
Theorem h2_agents_authorized ctx tr p' :
  reaches (handle_h2_connection ctx) tr p' →
  privileged_ok h2_said h2_presented ctx tr.
Proof. apply always_reaches, h2_privileged_ok. Qed.
End properties.

(** ** Both transports give one verdict *)

(** What the relay decides about an announced domain and signature: the client
    id, or the rejection it tells the peer, or silence. *)
Definition auth_verdict `{Crypto} (txt : string → option (list (list bytes)))
    (suffixes : list string) (token : option bytes) (domain_bytes sig : bytes) :
    option string * list observed :=
  match from_utf8 domain_bytes with
  | None => (None, [])
  | Some domain =>
      match recover_identity_pubkey domain sig with
      | None => (None, [Rejected "unauthorized: identity signature"])
      | Some pk =>
          if negb (allowed_suffix domain suffixes) then
            (None, [Rejected "unauthorized: domain suffix not allowed"])
          else
            match token with
            | None => (split_next "." domain, [])
            | Some source =>
                match txt (txt_name domain) with
                | None => (None, [])
                | Some l =>
                    if txt_authorizes (txt_values l) source (txt_host domain)
                    then (split_next "." domain, [])
                    else (None, [Rejected "unauthorized: deployment source not authorized by TXT"])
                end
            end
      end
  end.

Section verdict.
Context `{Crypto, Yasna} (w : world) (alloc : Z → bool).
Context (alloc_ok : ∀ n, n ≤ MAX_CTRL_FRAME → alloc n = true).

Lemma outcome_h2_send_reject reason s :
  outcome w (h2_send_reject reason) s = (tt, [Rejected reason], s).
Proof.
  unfold h2_send_reject. rewrite outcome_bind, outcome_timeout.
  unfold outcome. cbn -[String.list_byte_of_string String.string_of_list_byte].
  by rewrite of_as_bytes.
Qed.

Lemma outcome_ret {A} (a : A) s : outcome w (Ret a) s = (a, [], s).
Proof. done. Qed.
Lemma outcome_call (o : op relay) s :
  outcome w (call o) s =
  let '(x, s') := answer w o s in (x, option_list (observe (Event o x)), s').
Proof.
  unfold outcome. cbn [call exec]. destruct (answer w o s) as [x s'].
  by rewrite omap_cons, app_nil_r.
Qed.

Lemma outcome_quic_auth_exchange suffixes token d sig rest bs :
  Z.of_nat (length d) ≤ MAX_CTRL_FRAME → Z.of_nat (length sig) ≤ MAX_CTRL_FRAME →
  outcome w (quic_auth_exchange alloc suffixes token) (Peer (frame d ++ frame sig ++ rest) bs) =
  match from_utf8 d with
  | None => (None, [], Peer (frame sig ++ rest) bs)
  | Some _ => (auth_verdict (wd_txt w) suffixes token d sig, Peer rest bs)
  end.
Proof.
  intros Hd Hsig. unfold quic_auth_exchange, reject_quic, auth_verdict.
  rewrite outcome_bind, outcome_read_ctrl by done.
  destruct (from_utf8 d) as [dom|]; [|done].
  rewrite outcome_bind, outcome_read_ctrl by done.
  destruct (recover_identity_pubkey dom sig); [|done].
  destruct (split_next_is_Some "." dom) as [id ->].
  destruct (allowed_suffix dom suffixes); [|done]. cbn [negb].
  destruct token as [src|]; [|done].
  rewrite outcome_bind, (outcome_call (OTxtLookup (txt_name dom))).
  cbn [answer observe option_list ev_op].
  destruct (wd_txt w (txt_name dom)) as [recs|]; [|done].
  by destruct (txt_authorizes _ _ _).
Qed.

Lemma outcome_h2_auth_exchange suffixes token dc sc bs st :
  Z.of_nat (length (concat dc)) ≤ MAX_CTRL_FRAME →
  Z.of_nat (length (concat sc)) ≤ MAX_CTRL_FRAME →
  outcome w (h2_auth_exchange suffixes token)
    (Peer st ((Ok <$> dc) :: (Ok <$> sc) :: bs)) =
  match from_utf8 (concat dc) with
  | None => (None, [], Peer st ((Ok <$> sc) :: bs))
  | Some _ => (auth_verdict (wd_txt w) suffixes token (concat dc) (concat sc), Peer st bs)
  end.
Proof.
  intros Hd Hsig. unfold h2_auth_exchange, h2_ask_signature, h2_verify_identity, auth_verdict.
  rewrite outcome_bind, outcome_h2_get by done.
  destruct (from_utf8 (concat dc)) as [dom|]; [|done].
  rewrite outcome_bind, outcome_h2_get by done.
  destruct (recover_identity_pubkey dom (concat sc));
    [|by rewrite outcome_bind, outcome_h2_send_reject].
  destruct (split_next_is_Some "." dom) as [id ->].
  destruct (allowed_suffix dom suffixes); cbn [negb];
    [|by rewrite outcome_bind, outcome_h2_send_reject].
  destruct token as [src|]; [|done].
  rewrite outcome_bind, (outcome_call (OTxtLookup (txt_name dom))).
  cbn [answer observe option_list ev_op].
  destruct (wd_txt w (txt_name dom)) as [recs|]; [|done].
  destruct (txt_authorizes _ _ _); cbn [negb]; [done|].
  by rewrite outcome_bind, outcome_h2_send_reject.
Qed.
End verdict.

Section transports.
Context `{Crypto, Yasna}.

(** C6: the transports agree. For any domain and signature of control-frame
    size, however H2 chunks them, the QUIC and the H2 exchange return the same
    verdict and tell the peer the same rejection reason: the one of
    [auth_verdict]. *)
Theorem transports_same_verdict w alloc suffixes token dc sc st rest bs :
  (∀ n, n ≤ MAX_CTRL_FRAME → alloc n = true) →
  Z.of_nat (length (concat dc)) ≤ MAX_CTRL_FRAME →
  Z.of_nat (length (concat sc)) ≤ MAX_CTRL_FRAME →
  (outcome w (quic_auth_exchange alloc suffixes token)
     (Peer (frame (concat dc) ++ frame (concat sc) ++ rest) bs)).1
  = auth_verdict (wd_txt w) suffixes token (concat dc) (concat sc) ∧
  (outcome w (h2_auth_exchange suffixes token)
     (Peer st ((Ok <$> dc) :: (Ok <$> sc) :: bs))).1
  = auth_verdict (wd_txt w) suffixes token (concat dc) (concat sc).
Proof.
  intros Ha Hd Hs. rewrite outcome_quic_auth_exchange, outcome_h2_auth_exchange by done.
  unfold auth_verdict. by destruct (from_utf8 (concat dc)).
Qed.
End transports.

(** ** Honest clients get through *)

(** What the challenge phase shows: nothing when the certificate is cached. *)
Definition challenge_phase (key_auth : bytes) (id : string) : list observed :=
  if bool_decide (key_auth = []) then [] else [ChallengeOpened id; ChallengeClosed id].

Section honest.
Context `{CryptoOk, !Yasna, !YasnaOk, !CertGen, !CertGenOk, !TlsLibs}.
Context (w : world) (ctx : ListenerCtx).
Context (agent identity : TunnelKey) (suffix : string) (ext : option bytes) (conn : Connection).

(** The auth handler, if there is one, lets the agent in without naming a
    deployment source. *)
Definition handler_admits : Prop :=
  wd_cert w = agent_cert conn ∧
  (has_auth_handler ctx = true → wd_handler w (public_key_raw agent) ext = Some None).
End honest.

(** ** The challenge map is left clean *)

(** The entries a handler put in the challenge map, and those it took out. *)
Definition opened (e : event relay) : option (string * Z) :=
  match e with
  | Event o x =>
      match o return rans o → option (string * Z) with
      | OPendingInsert id _ => λ token, Some (id, token)
      | _ => λ _, None
      end x
  end.
Definition closed (e : event relay) : option (string * Z) :=
  match ev_op e with OPendingRemove id token => Some (id, token) | _ => None end.

Definition balanced (tr : trace relay) : Prop := omap opened tr = omap closed tr.

Definition no_pending (o : op relay) : Prop :=
  match o with OPendingInsert _ _ | OPendingRemove _ _ => False | _ => True end.

Lemma no_pending_quiet (tr : trace relay) :
  Forall (λ e, no_pending (ev_op e)) tr → omap opened tr = [] ∧ omap closed tr = [].
Proof.
  induction 1 as [|[o x] tr Ho _ [IH1 IH2]]; [done|].
  rewrite !omap_cons, IH1, IH2. by destruct o.
Qed.

Section challenge_map.
Context `{Crypto, Yasna} (alloc : Z → bool).

Definition tidy {A} (p : prog relay A) : Prop := wp p (λ tr _, balanced tr).

Lemma tidy_bind {A B} (p : prog relay A) (f : A → prog relay B) :
  tidy p → (∀ a, tidy (f a)) → tidy (prog_bind f p).
Proof.
  unfold tidy. intros Hp Hf. rewrite wp_bind. eapply wp_mono; [|apply Hp].
  intros tr a Htr. eapply wp_mono; [|apply Hf]. intros tr' b Htr'.
  unfold balanced in *. by rewrite !omap_app, Htr, Htr'.
Qed.

Lemma tidy_only {A} (p : prog relay A) : only no_pending p → tidy p.
Proof.
  intros Hp. eapply wp_mono; [|by apply only_wp]. intros tr _ [H1 H2]%no_pending_quiet.
  unfold balanced. by rewrite H1, H2.
Qed.

Lemma tidy_quic_acme_wait conn id : tidy (quic_acme_wait alloc conn id).
Proof.
  unfold tidy, quic_acme_wait. rewrite wp_bind. cbn [call wp]. intros token. cbn [wp].
  rewrite wp_bind. eapply wp_mono; [|by apply (only_wp no_pending), only_write_ctrl].
  intros tr r [H1 H2]%no_pending_quiet. destruct r as [[]|e].
  - unfold quic_acme_done. rewrite wp_bind. eapply wp_mono; [|by apply (only_wp no_pending), only_read_ctrl].
    intros tr' r' [H3 H4]%no_pending_quiet. intros []. cbn [prog_bind wp]. unfold balanced.
    by rewrite !omap_app, H1, H2, H3, H4.
  - intros []. cbn [prog_bind wp]. unfold balanced. by rewrite !omap_app, H1, H2.
Qed.

Lemma tidy_h2_acme_wait conn id : tidy (h2_acme_wait conn id).
Proof. intros token [|]; [intros ? []|intros []]; done. Qed.

Lemma only_tidy_exchange A (p : prog relay A) : only unprivileged p → tidy p.
Proof.
  intros Hp. apply tidy_only. eapply only_mono; [|exact Hp]. by intros [].
Qed.

Lemma tidy_quic_serve ctx id : tidy (quic_serve alloc ctx id).
Proof.
  unfold quic_serve. apply tidy_bind; [by apply tidy_only; split|intros []].
  apply tidy_bind; [apply tidy_only, only_timeout; [done|by apply only_read_ctrl]|].
  intros [[ka|]|]; [|done..]. apply tidy_bind.
  - case_bool_decide; [done|apply tidy_quic_acme_wait].
  - intros [[]|]; [|done]. by intros [] [].
Qed.

Lemma tidy_h2_serve ctx pp id : tidy (h2_serve ctx pp id).
Proof.
  unfold h2_serve. do 3 (apply tidy_bind; [by apply tidy_only; split|intros []]).
  apply tidy_bind; [apply tidy_only, only_timeout; [done|by apply only_h2_get]|].
  intros [[ka|]|]; [|by intros []..]. apply tidy_bind.
  - case_bool_decide; [done|apply tidy_h2_acme_wait].
  - intros [[]|]; by intros [].
Qed.
Lemma tidy_quic ctx : tidy (handle_quic_connection alloc ctx).
Proof.
  unfold handle_quic_connection. apply tidy_bind; [by apply tidy_only; split|].
  intros [|]; [|done]. cbn [negb]. apply tidy_bind; [by apply tidy_only; split|].
  intros certs. destruct (first_cert certs) as [cert|]; [|done].
  apply tidy_bind; [apply only_tidy_exchange, only_quic_auth_handler|].
  intros [token|]; [|done].
  apply tidy_bind; [apply only_tidy_exchange, only_timeout; [done|apply only_quic_authenticate]|].
  intros [[id|]|]; [apply tidy_quic_serve|done|by intros []].
Qed.

Lemma tidy_h2 ctx : tidy (handle_h2_connection ctx).
Proof.
  unfold handle_h2_connection.
  apply tidy_bind; [apply only_tidy_exchange, only_timeout; [done|only_go; done]|].
  intros [[|]|]; [|done..]. apply tidy_bind; [by apply tidy_only; split|].
  intros certs. destruct (first_cert certs) as [cert|]; [|done].
  apply tidy_bind; [apply only_tidy_exchange, only_h2_auth_handler|].
  intros [token|]; [|done].
  apply tidy_bind; [apply only_tidy_exchange, only_timeout; [done|only_go; done]|].
  intros [[|]|]; [|done..]. apply tidy_bind; [by apply tidy_only; split|]. intros pp.
  apply tidy_bind; [by apply tidy_only; split|]. intros [].
  apply tidy_bind; [apply only_tidy_exchange, only_timeout; [done|apply only_h2_auth_exchange]|].
  intros [[id|]|]; [apply tidy_h2_serve|by intros []..].
Qed.
End challenge_map.

Section challenge_properties.
Context `{Crypto, Yasna}.

(** C11: whatever happens, by the time a handler returns it has taken out of
    the challenge map exactly the entries it put in, each with the token it was
    given, on both transports. *)
Theorem challenge_entries_removed alloc ctx tr r :
  runs (handle_quic_connection alloc ctx) tr r ∨ runs (handle_h2_connection ctx) tr r →
  omap opened tr = omap closed tr.
Proof.
  pose proof (tidy_quic alloc ctx) as Hq. pose proof (tidy_h2 ctx) as Hh.
  unfold tidy in *. rewrite runs_wp in Hq, Hh. intros [Hr|Hr]; [by eapply Hq|by eapply Hh].
Qed.
End challenge_properties.

(** ** Concrete runs *)

Section witnesses.
Import ToyKey ToyTls ToyCrypto.

Definition toy_world : world := World [x00] (λ _ _, Some None) (λ _, None) 0.
Definition toy_ctx : ListenerCtx := Ctx ["example.com"] true 7.
Definition toy_alloc (n : Z) : bool := n <=? MAX_CTRL_FRAME.
Definition toy_peer : peer :=
  Peer (frame (as_bytes (domain conn)) ++ frame conn_sig ++ frame (as_bytes "ka") ++ frame (as_bytes "done") ++ [])
    [Ok <$> [as_bytes (domain conn)]; Ok <$> [conn_sig]; Ok <$> [as_bytes "ka"]].

Definition registers (id : string) (e : event relay) : bool :=
  match ev_op e with ORegister i _ => String.eqb i id | _ => false end.

Lemma toy_alloc_ok n : n ≤ MAX_CTRL_FRAME → toy_alloc n = true.
Proof. apply Z.leb_le. Qed.

Lemma quic_agents_authorized_witness :
  ∃ tr, existsb (registers "abababababababab") tr = true ∧
    privileged_ok quic_said quic_presented toy_ctx tr.
Proof.
  set (p := handle_quic_connection toy_alloc toy_ctx).
  exists (exec (answer toy_world) p toy_peer).1.2. split; [vm_compute; reflexivity|].
  destruct (exec (answer toy_world) p toy_peer) as [[r tr] s] eqn:E.
  exact (quic_agents_authorized toy_alloc toy_ctx tr (Ret r)
           (proj1 (runs_reaches p tr r) (exec_runs _ _ _ _ _ _ E))).
Defined.

Lemma h2_agents_authorized_witness :
  ∃ tr, existsb (registers "abababababababab") tr = true ∧
    privileged_ok h2_said h2_presented toy_ctx tr.
Proof.
  set (p := handle_h2_connection toy_ctx).
  exists (exec (answer toy_world) p toy_peer).1.2. split; [vm_compute; reflexivity|].
  destruct (exec (answer toy_world) p toy_peer) as [[r tr] s] eqn:E.
  exact (h2_agents_authorized toy_ctx tr (Ret r)
           (proj1 (runs_reaches p tr r) (exec_runs _ _ _ _ _ _ E))).
Defined.

Lemma transports_same_verdict_witness :
  (outcome toy_world (h2_auth_exchange ["example.org"] None) (Peer [] [Ok <$> [as_bytes (domain conn)]; Ok <$> [conn_sig]])).1
  = (None, [Rejected "unauthorized: domain suffix not allowed"]).
Proof.
  refine (eq_trans (proj2 (transports_same_verdict toy_world toy_alloc ["example.org"] None
            [as_bytes (domain conn)] [conn_sig] [] [] [] toy_alloc_ok _ _)) _);
    vm_compute; (reflexivity || discriminate).
Defined.

Lemma challenge_entries_removed_witness :
  ∃ tr, omap opened tr = [("abababababababab", 0)] ∧ omap opened tr = omap closed tr.
Proof.
  set (p := handle_quic_connection toy_alloc toy_ctx).
  exists (exec (answer toy_world) p toy_peer).1.2. split; [vm_compute; reflexivity|].
  destruct (exec (answer toy_world) p toy_peer) as [[r tr] s] eqn:E.
  exact (challenge_entries_removed toy_alloc toy_ctx tr r (or_introl (exec_runs _ _ _ _ _ _ E))).
Defined.
End witnesses.
