(* ===== verification/RelayTasks.v ===== *)
(** * RelayTasks.v: the relay's background tasks

    The H2 connection driver and supervisor (tunnel-server/src/h2_listener.rs,
    [handle_h2_connection]'s spawned tasks and [raise_windows]) and the accept loops
    of both listeners. *)

From S2P Require Import Prelude Async Framing Admission.
Open Scope tunnel_scope.

(** ** The connection driver *)

Definition WINDOW_RAISE_RETRY : Z := from_millis 50.
Definition WINDOW_RAISE_ATTEMPTS : nat := 200.

Inductive dop :=
| DSelect                       (** [select!] of the connection and the raise signal *)
| DSetTargetWindow (z : Z)
| DSetInitialWindow (z : Z)
| DConnOrSleep (d : Z)          (** [select!] of the connection and a sleep *)
| DConn.                        (** [h2_conn.await] *)

Definition dans (o : dop) : Type :=
  match o with
  | DSelect => unit + bool      (** connection ended, or the signal: sent or dropped *)
  | DSetTargetWindow _ => unit
  | DSetInitialWindow _ => bool
  | DConnOrSleep _ => bool      (** did the connection end? *)
  | DConn => unit
  end.

Definition driver : iface :=
  Iface dop dans (λ o, match o with DSelect | DConnOrSleep _ | DConn => true | _ => false end).

(** [for attempt in 0..WINDOW_RAISE_ATTEMPTS], the attempts left. *)
Fixpoint raise_loop (attempts : nat) : prog driver bool :=
  match attempts with
  | O => Ret false
  | S n =>
      ok <-! call (I := driver) (DSetInitialWindow H2_DATA_STREAM_WINDOW) ;;
      if (ok : bool) then Ret true
      else
        ended <-! call (I := driver) (DConnOrSleep WINDOW_RAISE_RETRY) ;;
        if (ended : bool) then Ret true else raise_loop n
  end.

Definition raise_windows : prog driver bool :=
  call (I := driver) (DSetTargetWindow H2_DATA_CONN_WINDOW) ;;!
  raise_loop WINDOW_RAISE_ATTEMPTS.

(** The spawned driver: [true] when it gave the connection up itself. *)
Definition conn_driver : prog driver bool :=
  s <-! call (I := driver) DSelect ;;
  match (s : unit + bool) with
  | inl _ => Ret false
  | inr false => call (I := driver) DConn ;;! Ret false
  | inr true =>
      raised <-! raise_windows ;;
      if negb raised then Ret true
      else call (I := driver) DConn ;;! Ret false
  end.

(** ** The supervisor *)

Inductive sop :=
| SJoin                          (** [conn_task.await] *)
| SSelect                        (** [select!] of [conn_task] and [h2_ping_loop] *)
| SAbort.
Definition sans (o : sop) : Type :=
  match o with SSelect => option ping_cause | _ => unit end.
Definition supervision : iface :=
  Iface sop sans (λ o, match o with SAbort => false | _ => true end).

Definition supervisor (ping_pong : bool) : prog supervision unit :=
  if negb ping_pong then call (I := supervision) SJoin
  else
    r <-! call (I := supervision) SSelect ;;
    match (r : option ping_cause) with
    | None => Ret tt
    | Some _ => call (I := supervision) SAbort
    end.

(** ** Accept loops *)

Definition ACCEPT_ERROR_BACKOFF : Z := from_millis 100.

(** What an accept loop sees: a connection, a failed [accept], or a permit that a
    connection task gave back meanwhile. *)
Inductive lst_event := LAccept (now : Z) | LAcceptErr | LReturned.
#[export] Instance lst_event_eq_dec : EqDecision lst_event.
Proof. solve_decision. Defined.
Inductive lst_action := LSpawn | LRefuse (log : refusal_log) | LSleep (d : Z).

Fixpoint listen (adm : Admission) (evs : list lst_event) : list lst_action * Admission :=
  match evs with
  | [] => ([], adm)
  | LReturned :: evs => listen (Admission.release adm) evs
  | LAcceptErr :: evs =>
      let '(acts, adm') := listen adm evs in (LSleep ACCEPT_ERROR_BACKOFF :: acts, adm')
  | LAccept now :: evs =>
      let '(r, adm1) := Admission.try_admit adm now in
      let '(acts, adm') := listen adm1 evs in
      (match r with inl _ => LSpawn | inr log => LRefuse log end :: acts, adm')
  end.

(** QUIC's [endpoint.accept()] cannot fail; it ends with the endpoint. *)
Definition run_quic_listener (evs : list lst_event) : list lst_action * Admission :=
  listen (Admission.new "QUIC") (filter (λ e, e ≠ LAcceptErr) evs).
Definition run_h2_listener (evs : list lst_event) : list lst_action * Admission :=
  listen (Admission.new "H2") evs.

(** ** Lemmas *)

(** Events of the driver: an attempt to raise the stream window, a call that
    changes a window, the time spent asleep between attempts. *)
Definition is_attempt (e : event driver) : bool :=
  match ev_op e with DSetInitialWindow _ => true | _ => false end.
Definition changes_window (e : event driver) : bool :=
  match ev_op e with DSetInitialWindow _ | DSetTargetWindow _ => true | _ => false end.
Definition slept (e : event driver) : Z :=
  match e with
  | Event o x =>
      match o return dans o → Z with
      | DConnOrSleep d => λ ended, if ended then 0 else d
      | _ => λ _, 0
      end x
  end.
Definition total_slept (tr : trace driver) : Z := foldr (λ e z, slept e + z) 0 tr.
Definition attempts (tr : trace driver) : nat := length (List.filter is_attempt tr).

Lemma attempts_app tr tr' : attempts (tr ++ tr') = (attempts tr + attempts tr')%nat.
Proof. unfold attempts. by rewrite List.filter_app, length_app. Qed.
Lemma total_slept_app tr tr' : total_slept (tr ++ tr') = total_slept tr + total_slept tr'.
Proof. unfold total_slept. induction tr as [|e tr IH]; simpl; [done|]. rewrite IH. lia. Qed.

Lemma attempts_cons e tr : attempts (e :: tr) = (Nat.b2n (is_attempt e) + attempts tr)%nat.
Proof. unfold attempts. simpl. by destruct (is_attempt e). Qed.
Lemma total_slept_cons e tr : total_slept (e :: tr) = slept e + total_slept tr.
Proof. done. Qed.

Definition raise_post (n : nat) (tr : trace driver) (r : bool) : Prop :=
  (attempts tr ≤ n)%nat ∧ 0 ≤ total_slept tr ≤ WINDOW_RAISE_RETRY * Z.of_nat n ∧
  (r = false → attempts tr = n ∧ total_slept tr = WINDOW_RAISE_RETRY * Z.of_nat n).

Lemma raise_loop_post n : wp (raise_loop n) (raise_post n).
Proof.
  unfold raise_post, WINDOW_RAISE_RETRY, from_millis.
  induction n as [|n IH]; [simpl; unfold attempts; simpl; lia|].
  intros [|]; [unfold attempts; simpl; lia|]. intros [|]; [unfold attempts; simpl; lia|].
  eapply wp_mono; [|exact IH]. intros tr r (H1 & H2 & H3).
  unfold attempts in *. cbn [List.filter is_attempt ev_op length total_slept foldr slept].
  fold (total_slept tr). unfold WINDOW_RAISE_RETRY, from_millis.
  split_and!; [lia|lia|lia|]. intros Hr. specialize (H3 Hr). lia.
Qed.

(** ** Properties *)

(** an H2 connection's driver touches the flow-control windows only after the
    handler signalled that the peer is authenticated; it tries to raise the
    stream window at most [WINDOW_RAISE_ATTEMPTS] times over at most 10 s, and it
    drops a live connection only after every attempt failed and the 10 s are up. *)
Theorem driver_raises_when_signalled tr gave_up :
  runs conn_driver tr gave_up →
  (existsb changes_window tr = true → Event (I := driver) DSelect (inr true) ∈ tr) ∧
  (attempts tr ≤ WINDOW_RAISE_ATTEMPTS)%nat ∧
  total_slept tr ≤ from_secs 10 ∧
  (gave_up = true → attempts tr = WINDOW_RAISE_ATTEMPTS ∧ total_slept tr = from_secs 10).
Proof.
  revert tr gave_up. apply runs_wp.
  assert (H10 : from_secs 10 = WINDOW_RAISE_RETRY * Z.of_nat WINDOW_RAISE_ATTEMPTS) by done.
  rewrite H10. unfold conn_driver. intros [[]|[|]].
  - unfold WINDOW_RAISE_RETRY, from_millis. split_and!; (done || unfold attempts; simpl; lia).
  - cbn [prog_bind call]. intros []. cbn [prog_bind]. rewrite wp_bind.
    eapply wp_mono; [|apply raise_loop_post]. intros tr raised (H1 & H2 & H3).
    destruct raised; [intros []|]; cbn [wp prog_bind app negb];
      rewrite !attempts_cons, !total_slept_cons, attempts_app, total_slept_app;
      cbn [is_attempt ev_op slept Nat.b2n].
    + change (attempts [_]) with 0%nat; change (total_slept [_]) with 0.
      split_and!; [intros _; by left|lia|lia|done].
    + change (attempts []) with 0%nat; change (total_slept []) with 0.
      split_and!; [intros _; by left|lia|lia|]. intros _. specialize (H3 eq_refl). lia.
  - intros []. unfold WINDOW_RAISE_RETRY, from_millis.
    split_and!; (done || unfold attempts; simpl; lia).
Qed.

(** Connections spawned minus permits returned. *)
Definition spawned (acts : list lst_action) : nat :=
  length (List.filter (λ a, match a with LSpawn => true | _ => false end) acts).
Definition returned (evs : list lst_event) : nat :=
  length (List.filter (λ e, match e with LReturned => true | _ => false end) evs).
Definition accepts (evs : list lst_event) : nat :=
  length (List.filter (λ e, match e with LReturned => false | _ => true end) evs).

Lemma listen_spec adm evs :
  let '(acts, adm') := listen adm evs in
  (permits adm' + spawned acts = permits adm + returned evs)%nat ∧
  length acts = accepts evs.
Proof.
  revert adm. induction evs as [|[now| |] evs IH]; intros adm; simpl; [unfold spawned, returned, accepts; simpl; lia| | |].
  - destruct (Admission.try_admit adm now) as [r adm1] eqn:E. specialize (IH adm1).
    destruct (listen adm1 evs) as [acts adm']. unfold spawned, returned, accepts in *. simpl.
    unfold Admission.try_admit in E. destruct (permits adm) eqn:Hp.
    + destruct r as [|log]; [repeat case_match; done|]. simpl.
      assert (permits adm1 = 0)%nat by (repeat case_match; by simplify_eq/=). lia.
    + simplify_eq/=. lia.
  - specialize (IH adm). destruct (listen adm evs) as [acts adm'].
    unfold spawned, returned, accepts in *. simpl. lia.
  - specialize (IH (Admission.release adm)). destruct (listen (Admission.release adm) evs) as [acts adm'].
    unfold spawned, returned, accepts in *. simpl in *. lia.
Qed.

(** an accept loop never stalls: it answers every connection attempt, refusing
    instead of queueing; and as long as permits are given back at most once, the
    connections in flight and the permits left always add up to
    [MAX_UNAUTHENTICATED_CONNS]. *)
Theorem listener_accounts_for_permits evs :
  let '(acts, adm) := run_h2_listener evs in
  length acts = accepts evs ∧
  (permits adm + spawned acts = MAX_UNAUTHENTICATED_CONNS + returned evs)%nat ∧
  let '(qacts, qadm) := run_quic_listener evs in
  (permits qadm + spawned qacts = MAX_UNAUTHENTICATED_CONNS + returned evs)%nat.
Proof.
  unfold run_h2_listener, run_quic_listener.
  pose proof (listen_spec (Admission.new "H2") evs) as Hh.
  pose proof (listen_spec (Admission.new "QUIC") (filter (λ e, e ≠ LAcceptErr) evs)) as Hq.
  destruct (listen (Admission.new "H2") evs) as [acts adm].
  destruct (listen (Admission.new "QUIC") _) as [qacts qadm].
  assert (Hr : returned (filter (λ e, e ≠ LAcceptErr) evs) = returned evs).
  { clear. unfold returned. induction evs as [|[] evs IH]; [done|..]; simpl; rewrite ?IH; done. }
  rewrite Hr in Hq. naive_solver.
Qed.

Lemma driver_raises_when_signalled_witness :
  let tr := [Event (I := driver) DSelect (inr true);
             Event (I := driver) (DSetTargetWindow H2_DATA_CONN_WINDOW) tt;
             Event (I := driver) (DSetInitialWindow H2_DATA_STREAM_WINDOW) true;
             Event (I := driver) DConn tt] in
  existsb changes_window tr = true ∧ Event (I := driver) DSelect (inr true) ∈ tr.
Proof.
  split; [reflexivity|].
  refine (proj1 (driver_raises_when_signalled _ false _) _); [|reflexivity].
  cbn. repeat (eexists; eexists; split; [reflexivity|]; cbn). done.
Defined.
