(* ===== verification/PublicPort.v ===== *)
(** * PublicPort.v: tunnel-server/src/public.rs and tunnel-server/src/alpn.rs

    Port 443: sniffing the ClientHello, and routing user connections to a
    registered agent and ACME TLS-ALPN-01 challenges to the relay's own
    challenge or to the client waiting for one. *)

From S2P Require Import Prelude Async RustStr Registry Key Identity.
From Stdlib Require Import Ascii.
Open Scope string_scope.
Open Scope Z_scope.
Open Scope list_scope.
Open Scope tunnel_scope.

Definition PEEK_BUF_INIT : Z := 4096.
Definition PEEK_BUF_MAX : Z := 16 * 1024.
Definition ACCEPT_ERROR_BACKOFF : Z := from_millis 100.
Definition PEEK_TIMEOUT : Z := from_secs 10.
Definition TUNNEL_OPEN_TIMEOUT : Z := from_secs 10.
Definition PEEK_POLL_MIN : Z := from_millis 1.
Definition PEEK_POLL_MAX : Z := from_millis 50.

(** ** Sniffing *)

Section peek.
Context `{Crypto}.

(** [Waiting]: the socket was not polled further; the loop is still asleep. *)
Inductive peeked := Sniffed (r : option (string * bool)) | Waiting (slept : Z).

(** [&buf[..n]] of a stream that starts with [data]. *)
Definition prefix (n : Z) (data : bytes) : bytes := take (Z.to_nat n) data.

(** The loop of [peek_sni_alpn]. [data] is what the peer sends; each poll finds
    so many bytes of it in the socket ([None]: [peek] fails). *)
Fixpoint peek_loop (data : bytes) (buf_len seen : Z) (backoff slept : Z)
    (polls : list (option Z)) : peeked :=
  match polls with
  | [] => Waiting slept
  | None :: _ => Sniffed None
  | Some avail :: polls =>
      let n := Z.min avail buf_len in
      if n =? 0 then Sniffed None
      else if seen <? n then
        match extract_sni_alpn (prefix n data) with
        | Some r => Sniffed (Some r)
        | None =>
            if buf_len <=? n then
              if PEEK_BUF_MAX <=? buf_len then Sniffed None
              else peek_loop data (Z.min (buf_len * 2) PEEK_BUF_MAX) 0 PEEK_POLL_MIN slept polls
            else
              peek_loop data buf_len n (Z.min (PEEK_POLL_MIN * 2) PEEK_POLL_MAX)
                (slept + PEEK_POLL_MIN) polls
        end
      else
        peek_loop data buf_len seen (Z.min (backoff * 2) PEEK_POLL_MAX) (slept + backoff) polls
  end.

Definition peek_sni_alpn (data : bytes) (polls : list (option Z)) : peeked :=
  peek_loop data PEEK_BUF_INIT 0 PEEK_POLL_MIN 0 polls.

(** Only prefixes that fit the largest buffer are ever parsed. *)
Lemma peek_loop_sound data buf seen b s polls r :
  buf ≤ PEEK_BUF_MAX →
  peek_loop data buf seen b s polls = Sniffed (Some r) →
  ∃ n, n ≤ PEEK_BUF_MAX ∧ extract_sni_alpn (prefix n data) = Some r.
Proof.
  revert buf seen b s. induction polls as [|[a|] polls IH]; intros buf seen b s Hb; simpl; [done| |done].
  destruct (Z.eqb_spec (Z.min a buf) 0); [done|].
  destruct (Z.ltb_spec seen (Z.min a buf)); [|by apply IH].
  destruct (extract_sni_alpn (prefix (Z.min a buf) data)) as [r'|] eqn:E.
  - intros [= <-]. exists (Z.min a buf). split; [lia|done].
  - destruct (buf <=? Z.min a buf); [destruct (PEEK_BUF_MAX <=? buf); [done|]|]; apply IH; lia.
Qed.

(** The sniffing loop against a hello that parses once its first [k] bytes are
    there. *)
Context (data : bytes) (k : Z) (r : string * bool).
Context (k_small : 0 < k ≤ PEEK_BUF_MAX).
Context (parses : ∀ n, extract_sni_alpn (prefix n data) = if k <=? n then Some r else None).

(** How often the buffer must still grow. *)
Definition growths (buf : Z) : Z :=
  if k <=? buf then 0 else if k <=? buf * 2 then 1 else 2.

Definition peek_inv (buf seen : Z) : Prop :=
  PEEK_BUF_INIT ≤ buf ≤ PEEK_BUF_MAX ∧ 0 ≤ seen < k ∧ seen < buf.

(** One poll that sees something: the hello is found, or the loop goes on, with
    a larger buffer when the poll filled it. *)
Lemma peek_loop_step buf seen b s a polls :
  peek_inv buf seen → 0 < a →
  peek_loop data buf seen b s (Some a :: polls) = Sniffed (Some r) ∨
  ∃ buf' seen' b' s', peek_inv buf' seen' ∧
    peek_loop data buf seen b s (Some a :: polls) = peek_loop data buf' seen' b' s' polls ∧
    growths buf' ≤ growths buf ∧ (k ≤ a → growths buf' < growths buf).
Proof using k_small parses.
  unfold peek_inv, growths, PEEK_BUF_INIT, PEEK_BUF_MAX in *. intros (Hb & Hs & Hsb) Ha.
  cbn [peek_loop]. unfold PEEK_BUF_MAX.
  destruct (Z.eqb_spec (Z.min a buf) 0); [lia|].
  destruct (Z.ltb_spec seen (Z.min a buf)).
  - rewrite parses. destruct (Z.leb_spec k (Z.min a buf)); [by left|right].
    destruct (Z.leb_spec buf (Z.min a buf)).
    + destruct (Z.leb_spec (16 * 1024) buf); [lia|]. do 4 eexists. split; [|split; [done|]]; [lia|].
      destruct (Z.leb_spec k (Z.min (buf * 2) (16 * 1024))),
        (Z.leb_spec k (Z.min (buf * 2) (16 * 1024) * 2)),
        (Z.leb_spec k buf), (Z.leb_spec k (buf * 2)); lia.
    + do 4 eexists. split; [|split; [done|]]; lia.
  - right. do 4 eexists. split; [|split; [done|]]; lia.
Qed.

Lemma peek_loop_arrived buf seen b s polls late :
  peek_inv buf seen →
  Forall (λ p, ∃ a, p = Some a ∧ 0 < a) polls →
  Forall (λ p, ∃ a, p = Some a ∧ k ≤ a) late →
  growths buf < Z.of_nat (length late) →
  peek_loop data buf seen b s (polls ++ late) = Sniffed (Some r).
Proof using k_small parses.
  intros Hi Hp Hl. revert buf seen b s Hi.
  induction Hp as [|p polls (a & -> & Ha) _ IH]; intros buf seen b s Hi Hg; simpl app.
  - revert buf seen b s Hi Hg.
    induction Hl as [|p late (a & -> & Ha) _ IH]; intros buf seen b s Hi Hg.
    { unfold growths in Hg. simpl in Hg. repeat case_match; lia. }
    destruct (peek_loop_step buf seen b s a late Hi ltac:(lia))
      as [->|(buf' & seen' & b' & s' & Hi' & -> & _ & Hlt)]; [done|].
    apply IH; [done|]. specialize (Hlt Ha). simpl in Hg. lia.
  - destruct (peek_loop_step buf seen b s a (polls ++ late) Hi Ha)
      as [->|(buf' & seen' & b' & s' & Hi' & -> & Hle & _)]; [done|].
    apply IH; [done|lia].
Qed.
End peek.

(** ** Routing *)

(** The agent for a host label: [agents.get(client_id)?], the emptiness check and
    [next_agent] under one shard lock. *)
Definition pick_agent (m : AgentMap) (client_id : string) : option Agent * AgentMap :=
  match m !! client_id with
  | None => (None, m)
  | Some pool =>
      if AgentPool.is_empty pool then (None, m)
      else let '(a, pool') := AgentPool.next_agent pool in (a, <[client_id := pool']> m)
  end.

(** A stream to a tunnel client. *)
Inductive tunnel := ViaQuic (c : handle) | ViaH2 (s : handle).
Definition agent_tunnel (a : Agent) : tunnel :=
  match a with AgentQuic c => ViaQuic c | AgentH2 s => ViaH2 s end.
Definition pending_tunnel (c : PendingAlpnConn) : tunnel :=
  match c with PendingQuic c => ViaQuic c | PendingH2 s => ViaH2 s end.

Inductive pop :=
| PDeadline (d : Z)
| PPeek                                   (** [peek_sni_alpn(&stream)] *)
| PNextAgent (client_id : string)         (** [pick_agent] on the shared map *)
| PPendingGet (client_id : string)
| PServerChallenge                        (** the domain of the relay's own challenge *)
| PServeOwn                               (** [acceptor.accept(tcp)] *)
| POpenBi (c : handle)
| PSendRequest (s : handle) (path : string)
| PResponse
| PCopy (t : tunnel).                     (** [copy_bidirectional] with the user *)

Definition pans (o : pop) : Type :=
  match o with
  | PDeadline _ => bool
  | PPeek => option (string * bool)
  | PNextAgent _ => option Agent
  | PPendingGet _ => option PendingAlpnConn
  | PServerChallenge => option string
  | POpenBi _ | PSendRequest _ _ | PResponse => bool
  | PServeOwn | PCopy _ => unit
  end.

Definition pawaits (o : pop) : bool :=
  match o with
  | PPeek | PServerChallenge | PServeOwn | POpenBi _ | PResponse | PCopy _ => true
  | _ => false
  end.

Definition port : iface := Iface pop pans pawaits.

Definition pexpired (d : Z) : prog port (option unit) :=
  b <-! call (I := port) (PDeadline d) ;; Ret (if (b : bool) then Some tt else None).
Definition ptimeout {A} (d : Z) (p : prog port A) : prog port (option A) :=
  r <-! interrupt (pexpired d) p ;;
  Ret (match r with inl _ => None | inr a => Some a end).

Definition handle_public (host : string) : prog port (option unit) :=
  match split_next "." host with
  | None => Ret None
  | Some client_id =>
      a <-! call (I := port) (PNextAgent client_id) ;;
      match (a : option Agent) with
      | None => Ret None
      | Some (AgentQuic conn) =>
          r <-! ptimeout TUNNEL_OPEN_TIMEOUT (call (I := port) (POpenBi conn)) ;;
          match (r : option bool) with
          | Some true => call (I := port) (PCopy (ViaQuic conn)) ;;! Ret (Some tt)
          | _ => Ret None
          end
      | Some (AgentH2 sender) =>
          sent <-! call (I := port) (PSendRequest sender "/") ;;
          if negb (sent : bool) then Ret None
          else
            r <-! ptimeout TUNNEL_OPEN_TIMEOUT (call (I := port) PResponse) ;;
            match (r : option bool) with
            | Some true => call (I := port) (PCopy (ViaH2 sender)) ;;! Ret (Some tt)
            | _ => Ret None
            end
      end
  end.

Definition handle_acme (host : string) : prog port (option unit) :=
  own <-! call (I := port) PServerChallenge ;;
  if match (own : option string) with Some domain => String.eqb host domain | None => false end then
    call (I := port) PServeOwn ;;! Ret (Some tt)
  else
    match split_next "." host with
    | None => Ret None
    | Some client_id =>
        c <-! call (I := port) (PPendingGet client_id) ;;
        match (c : option PendingAlpnConn) with
        | None => Ret None
        | Some (PendingQuic qconn) =>
            r <-! ptimeout TUNNEL_OPEN_TIMEOUT (call (I := port) (POpenBi qconn)) ;;
            match (r : option bool) with
            | Some true => call (I := port) (PCopy (ViaQuic qconn)) ;;! Ret (Some tt)
            | _ => Ret None
            end
        | Some (PendingH2 sender) =>
            sent <-! call (I := port) (PSendRequest sender "/_ctrl/alpn") ;;
            if negb (sent : bool) then Ret None
            else
              r <-! ptimeout TUNNEL_OPEN_TIMEOUT (call (I := port) PResponse) ;;
              match (r : option bool) with
              | Some true => call (I := port) (PCopy (ViaH2 sender)) ;;! Ret (Some tt)
              | _ => Ret None
              end
        end
    end.

(** The task [run_public_listener] spawns per connection. *)
Definition public_connection : prog port (option unit) :=
  r <-! ptimeout PEEK_TIMEOUT (call (I := port) PPeek) ;;
  match (r : option (option (string * bool))) with
  | Some (Some (host, is_acme)) => if is_acme then handle_acme host else handle_public host
  | _ => Ret None
  end.

(** What a listener does with one [accept]. *)
Inductive accept_action := SpawnConnection | SleepThenRetry (d : Z).
Definition public_accept (accepted : bool) : accept_action :=
  if accepted then SpawnConnection else SleepThenRetry ACCEPT_ERROR_BACKOFF.

(** ** Lemmas *)

Lemma pick_agent_spec m id :
  match pick_agent m id with
  | (Some a, _) => ∃ uid, (uid, a) ∈ pool_agents m id
  | (None, m') => pool_agents m id = [] ∧ m' = m
  end.
Proof.
  unfold pick_agent, pool_agents. destruct (m !! id) as [p|]; [|done]. simpl.
  unfold AgentPool.next_agent, AgentPool.is_empty. case_bool_decide as He; [done|].
  set (i := Z.to_nat _). assert (Hi : (i < length (agents p))%nat).
  { assert (0 < Z.of_nat (length (agents p))) by (destruct (agents p); simpl; [done|lia]).
    pose proof (Z.mod_pos_bound (counter p) (Z.of_nat (length (agents p))) ltac:(done)). lia. }
  destruct (lookup_lt_is_Some_2 _ _ Hi) as [[uid a] Hx]. rewrite Hx. simpl.
  exists uid. by eapply list_elem_of_lookup_2.
Qed.

(** A request leaves every pool's members alone, and is a request step of the registry. *)
Lemma pick_agent_members m id id' : pool_agents (pick_agent m id).2 id' = pool_agents m id'.
Proof.
  unfold pick_agent, pool_agents. destruct (m !! id) as [p|] eqn:Hp; [|done].
  unfold AgentPool.next_agent. destruct (AgentPool.is_empty p); [done|].
  destruct (decide (id = id')) as [->|]; simpl; [by rewrite lookup_insert_eq, Hp|].
  by rewrite lookup_insert_ne.
Qed.

Lemma pick_agent_step m ls id : rtc reg_step (Reg m ls) (Reg (pick_agent m id).2 ls).
Proof.
  unfold pick_agent. destruct (m !! id) as [p|] eqn:Hm; [|apply rtc_refl].
  destruct (AgentPool.is_empty p); [apply rtc_refl|].
  pose proof (reg_next m ls id p Hm) as Hn. destruct (AgentPool.next_agent p). by apply rtc_once.
Qed.

(** Where proxied bytes may go, given what the task has learnt. *)
Definition routed (tr : trace port) : Prop :=
  (∀ t, Event (I := port) (PCopy t) tt ∈ tr →
    ∃ host is_acme id, Event (I := port) PPeek (Some (host, is_acme)) ∈ tr ∧
      split_next "." host = Some id ∧
      if (is_acme : bool) then
        ∃ c, Event (I := port) (PPendingGet id) (Some c) ∈ tr ∧ t = pending_tunnel c ∧
             Event (I := port) PServerChallenge (Some host) ∉ tr
      else ∃ a, Event (I := port) (PNextAgent id) (Some a) ∈ tr ∧ t = agent_tunnel a) ∧
  (Event (I := port) PServeOwn tt ∈ tr →
    ∃ host, Event (I := port) PPeek (Some (host, true)) ∈ tr ∧
            Event (I := port) PServerChallenge (Some host) ∈ tr).

(** Calls that send nothing on. *)
Definition plain (e : event port) : bool :=
  match ev_op e with PCopy _ | PServeOwn => false | _ => true end.

Lemma routed_plain tr : forallb plain tr = true → routed tr.
Proof.
  rewrite forallb_forall. intros H. split.
  - intros t Ht. apply list_elem_of_In, H in Ht. done.
  - intros Ht. apply list_elem_of_In, H in Ht. done.
Qed.

(** Appending one proxying call to a plain trace. *)
Lemma routed_copy tr t rest :
  forallb plain tr = true → rest = [Event (I := port) (PCopy t) tt] →
  (∃ host is_acme id, Event (I := port) PPeek (Some (host, is_acme)) ∈ tr ∧
      split_next "." host = Some id ∧
      if (is_acme : bool) then
        ∃ c, Event (I := port) (PPendingGet id) (Some c) ∈ tr ∧ t = pending_tunnel c ∧
             Event (I := port) PServerChallenge (Some host) ∉ tr
      else ∃ a, Event (I := port) (PNextAgent id) (Some a) ∈ tr ∧ t = agent_tunnel a) →
  routed (tr ++ rest).
Proof.
  rewrite forallb_forall. intros Hpl -> (host & acme & id & Hp & Hs & Hr). split.
  - intros t' [Ht|Ht]%elem_of_app; [by apply list_elem_of_In, Hpl in Ht|].
    apply list_elem_of_singleton in Ht. apply (f_equal (@ev_op port)) in Ht.
    simpl in Ht. injection Ht as ->.
    exists host, acme, id. split_and!; [set_solver|done|].
    destruct acme; [|set_solver]. destruct Hr as (c & Hc & -> & Hn). exists c.
    split_and!; [set_solver|done|]. intros [?|Hx]%elem_of_app; [done|].
    apply list_elem_of_singleton in Hx. by apply (f_equal (@ev_op port)) in Hx.
  - intros [Ht|Ht]%elem_of_app; [by apply list_elem_of_In, Hpl in Ht|].
    apply list_elem_of_singleton in Ht. by apply (f_equal (@ev_op port)) in Ht.
Qed.

(** The answer to [PServerChallenge], if that is what the event is. *)
Definition own_challenge (e : event port) : option (option string) :=
  match e with
  | Event o x =>
      match o return pans o → option (option string) with
      | PServerChallenge => λ own, Some own
      | _ => λ _, None
      end x
  end.

Lemma not_own host (tr : trace port) :
  Forall (λ e, own_challenge e ≠ Some (Some host)) tr →
  Event (I := port) PServerChallenge (Some host) ∉ tr.
Proof. intros Hf Hin. rewrite Forall_forall in Hf. by apply (Hf _ Hin). Qed.

(** Opens one call after another; every stop before the last is plain. *)
Ltac walk := repeat
  match goal with
  | x : bool |- always _ _ => destruct x; cbn
  | |- routed _ ∧ True => split; [|done]
  | |- routed _ ∧ _ => split; [by apply routed_plain|intros ?]
  | |- always _ _ => progress cbn
  | |- routed _ => by apply routed_plain
  end.

(** The trace so far, then the proxying call. *)
Ltac last_copy :=
  repeat match goal with x : unit |- _ => destruct x end;
  match goal with |- routed ?tr =>
    let n := eval cbn in (length tr - 1)%nat in
    rewrite <-(take_drop n tr); eapply routed_copy; [reflexivity|reflexivity|]; cbn [take]
  end.

Lemma handle_public_routed host :
  always (handle_public host)
    (λ tr, routed (Event (I := port) (PDeadline PEEK_TIMEOUT) false ::
                   Event (I := port) PPeek (Some (host, false)) :: tr)).
Proof.
  unfold handle_public. destruct (split_next "." host) as [id|] eqn:Hid; [|walk].
  split; [by apply routed_plain|]. intros [a|]; cbn [prog_bind]; [|walk].
  destruct a as [c|s]; walk; last_copy; exists host, false, id;
    (split_and!; [set_solver|done|]).
  - exists (AgentQuic c). split; [set_solver|done].
  - exists (AgentH2 s). split; [set_solver|done].
Qed.

Lemma handle_acme_routed host :
  always (handle_acme host)
    (λ tr, routed (Event (I := port) (PDeadline PEEK_TIMEOUT) false ::
                   Event (I := port) PPeek (Some (host, true)) :: tr)).
Proof.
  unfold handle_acme. split; [by apply routed_plain|]. intros own. cbn [prog_bind].
  destruct (match (own : option string) with Some d => String.eqb host d | None => false end) eqn:Hown.
  - destruct own as [d|]; [|done]. apply String.eqb_eq in Hown as ->. cbn.
    split; [by apply routed_plain|]. intros []. split; [|done]. split.
    + intros t Ht. rewrite !elem_of_cons in Ht.
      destruct Ht as [Ht|[Ht|[Ht|[Ht|Ht]]]]; [by apply (f_equal (@ev_op port)) in Ht..|by apply not_elem_of_nil in Ht].
    + intros _. exists d. set_solver.
  - assert (Hno : own ≠ Some host).
    { intros ->. by rewrite String.eqb_refl in Hown. }
    destruct (split_next "." host) as [id|] eqn:Hid; [|walk].
    split; [by apply routed_plain|]. intros [c|]; cbn [prog_bind]; [|walk].
    destruct c as [c|s]; walk; last_copy; exists host, true, id;
      (split_and!; [set_solver|done|]).
    + exists (PendingQuic c). split_and!; [set_solver|done|]. apply not_own.
      repeat constructor; simpl; congruence.
    + exists (PendingH2 s). split_and!; [set_solver|done|]. apply not_own.
      repeat constructor; simpl; congruence.
Qed.

(** ** Properties *)

(** C39: a ClientHello that parses once its first [k] bytes have arrived, and fits
    one TLS record, is recognised however the peer's packets split it: whatever
    was seen before, three polls after those bytes arrived the host and the ALPN
    flag are known. Nothing longer than the 16 KiB buffer is ever parsed. *)
Theorem client_hello_sniffed `{Crypto} data k r polls late :
  0 < k ≤ PEEK_BUF_MAX →
  (∀ n, extract_sni_alpn (prefix n data) = if k <=? n then Some r else None) →
  Forall (λ p, ∃ a, p = Some a ∧ 0 < a) polls →
  Forall (λ p, ∃ a, p = Some a ∧ k ≤ a) late →
  (3 ≤ length late)%nat →
  peek_sni_alpn data (polls ++ late) = Sniffed (Some r) ∧
  ∀ polls' r', peek_sni_alpn data polls' = Sniffed (Some r') →
    ∃ n, n ≤ PEEK_BUF_MAX ∧ extract_sni_alpn (prefix n data) = Some r'.
Proof.
  intros Hk Hparse Hp Hl Hlen. split.
  - apply (peek_loop_arrived data k r Hk Hparse); [|done|done|].
    + unfold peek_inv, PEEK_BUF_INIT, PEEK_BUF_MAX in *. lia.
    + unfold growths. repeat case_match; lia.
  - intros polls' r'. apply peek_loop_sound. vm_compute. discriminate.
Qed.

Lemma public_connection_routed : always public_connection routed.
Proof.
  unfold public_connection. walk. destruct x as [[host [|]]|].
  - apply handle_acme_routed.
  - apply handle_public_routed.
  - walk.
Qed.

(** at every point of a public connection's life, bytes are proxied only to
    the tunnel the registry returned for the first label of the peeked SNI, or,
    for an ACME connection, to the client waiting for a challenge under that
    label; the relay terminates TLS itself only for the domain of its own pending
    challenge, which then takes precedence. *)
Theorem public_port_routes tr p' : reaches public_connection tr p' → routed tr.
Proof. apply always_reaches, public_connection_routed. Qed.

(** In every reachable state of the registry, a public request for a client is given an
    agent of one of that client's connections that has not been unregistered, and is
    refused only when there is none. *)
Lemma request_reaches_owner s id :
  rtc reg_step reg_init s → uids_distinct (reg_links s) →
  match pick_agent (reg_map s) id with
  | (Some a, m') => (∃ l, l ∈ reg_links s ∧ l_id l = id ∧ l_agent l = a ∧
                       (l_pc l = Live ∨ l_pc l = Closing)) ∧
                    reg_step s (Reg m' (reg_links s))
  | (None, m') => (∀ l, l ∈ reg_links s → l_id l = id → l_pc l ≠ Live) ∧ m' = reg_map s
  end.
Proof.
  intros Hr Hd. destruct (reg_inv_reachable s Hr Hd id) as [Hag _].
  pose proof (pick_agent_spec (reg_map s) id) as Hp. rewrite Hag in Hp.
  destruct (pick_agent (reg_map s) id) as [[a|] m'] eqn:E.
  - destruct Hp as [uid Hin]. apply list_elem_of_omap in Hin as (l & Hl & Hh).
    unfold held in Hh. case_bool_decide as Hc; [|done]. injection Hh as <- <-.
    split; [exists l; naive_solver|]. unfold pick_agent in E.
    destruct s as [m ls]. simpl in *. destruct (m !! id) as [p|] eqn:Hm; [|done].
    destruct (AgentPool.is_empty p); [done|].
    pose proof (reg_next m ls id p Hm) as Hn.
    destruct (AgentPool.next_agent p) as [a' p']. by simplify_eq/=.
  - destruct Hp as [Hnil ->]. split; [|done]. intros l Hl Hid Hlive.
    assert (Hx : (l_uid l, l_agent l) ∈ held_agents id (reg_links s)).
    { apply list_elem_of_omap. exists l. split; [done|]. unfold held.
      rewrite bool_decide_true by auto. done. }
    rewrite Hnil in Hx. by apply not_elem_of_nil in Hx.
Qed.

(** ** Concrete runs *)

Section witnesses.
Import ToyKey.

(** A parser whose hello is complete from 5000 bytes on. *)
Definition hello_crypto : Crypto := {|
  sha256 := id; hex_encode _ := ""; base64_encode _ := "";
  VerifyingKey := unit; RecSignature := unit; EcdsaSignature := unit;
  from_sec1_bytes _ := None; to_encoded_point_compressed _ := [];
  rec_try_from _ := None; rec_bytes _ := []; recover_verifying_key _ _ := None;
  sig_from_der _ := None; normalize_s _ := None; from_trial_recovery _ _ _ := None;
  parse_x509_certificate _ := None;
  parse_tls_plaintext d :=
    if 5000 <=? Z.of_nat (length d) then Some [ClientHello (Some [])] else None;
  parse_tls_extensions _ := Some [ExtSNI [(0, as_bytes "ab.example.com")]];
|}.

Lemma hello_parses n :
  @extract_sni_alpn hello_crypto (prefix n (replicate (Z.to_nat 6000) x16)) =
  if 5000 <=? n then Some ("ab.example.com", false) else None.
Proof.
  unfold extract_sni_alpn, prefix. cbn [parse_tls_plaintext hello_crypto].
  rewrite length_take, length_replicate.
  destruct (Z.leb_spec 5000 n), (Z.leb_spec 5000 (Z.of_nat (Nat.min (Z.to_nat n) (Z.to_nat 6000))));
    try lia; done.
Qed.

Lemma client_hello_sniffed_witness :
  @peek_sni_alpn hello_crypto (replicate (Z.to_nat 6000) x16)
    ([Some 100; Some 100; Some 4096] ++ [Some 5000; Some 6000; Some 6000])
  = Sniffed (Some ("ab.example.com", false)).
Proof.
  refine (proj1 (@client_hello_sniffed hello_crypto (replicate (Z.to_nat 6000) x16) 5000
    ("ab.example.com", false) [Some 100; Some 100; Some 4096]
    [Some 5000; Some 6000; Some 6000] _ hello_parses _ _ _)).
  - unfold PEEK_BUF_MAX. lia.
  - repeat constructor; eexists; (split; [reflexivity|lia]).
  - repeat constructor; eexists; (split; [reflexivity|lia]).
  - simpl. lia.
Defined.

Lemma public_port_routes_witness :
  routed [Event (I := port) (PDeadline PEEK_TIMEOUT) false;
          Event (I := port) PPeek (Some ("ab.example.com", false));
          Event (I := port) (PNextAgent "ab") (Some (AgentQuic 3));
          Event (I := port) (PDeadline TUNNEL_OPEN_TIMEOUT) false;
          Event (I := port) (POpenBi 3) true;
          Event (I := port) (PCopy (ViaQuic 3)) tt].
Proof.
  eapply (public_port_routes _ (Ret (Some tt))). apply runs_reaches.
  cbn. repeat (eexists; eexists; split; [reflexivity|]; cbn). done.
Defined.
End witnesses.
