(* ===== verification/Retry.v ===== *)
(** * Retry.v: the client's reconnect loop

    tunnel-client/src/client.rs: [ReconnectPolicy], [RetryState], [quic_session],
    [quic_attempt] and [connection_run]. The sessions themselves are elsewhere;
    here each iteration is told how they ended. *)

From S2P Require Import Prelude.

(** ** Policy *)

Record ReconnectPolicy := Policy {
  max_attempts : Z;       (** [u32]; 0 is unlimited *)
  base_backoff : Z;
  max_backoff : Z;
  connect_timeout : Z;
}.

Module ReconnectPolicy.
Definition default : ReconnectPolicy :=
  Policy 5 (from_secs 2) (from_secs 32) (from_secs 10).

Definition mobile : ReconnectPolicy :=
  Policy 0 (from_secs 2) (from_secs 60) (from_secs 10).

Definition exhausted (p : ReconnectPolicy) (attempts : Z) : bool :=
  negb (max_attempts p =? 0) && (max_attempts p <=? attempts).

Inductive invalid := BaseZero | BaseAboveMax (base max : Z) | ConnectTimeoutZero.

Definition validate (p : ReconnectPolicy) : result invalid unit :=
  _ ← ensure (negb (is_zero (base_backoff p))) BaseZero;
  _ ← ensure (base_backoff p <=? max_backoff p) (BaseAboveMax (base_backoff p) (max_backoff p));
  _ ← ensure (negb (is_zero (connect_timeout p))) ConnectTimeoutZero;
  Ok tt.

(** What the loops need of a policy. *)
Definition usable (p : ReconnectPolicy) : Prop :=
  base_backoff p ≠ 0 ∧ base_backoff p ≤ max_backoff p ∧ connect_timeout p ≠ 0.

Lemma validate_usable p : validate p = Ok tt → usable p.
Proof.
  unfold validate, ensure, is_zero, usable. intros Hv.
  destruct (Z.eqb_spec (base_backoff p) 0); [done|].
  destruct (Z.leb_spec (base_backoff p) (max_backoff p)); [|done].
  destruct (Z.eqb_spec (connect_timeout p) 0); [done|]. done.
Qed.
End ReconnectPolicy.

(** ** Attempts and backoff *)

Record RetryState := Retry { policy : ReconnectPolicy; attempts : Z; backoff : Z }.

Module RetryState.
Definition new (p : ReconnectPolicy) : RetryState := Retry p 0 (base_backoff p).

Definition next_attempt (r : RetryState) : Z := u32_saturating_add (attempts r) 1.

Definition failed (r : RetryState) : RetryState :=
  Retry (policy r) (u32_saturating_add (attempts r) 1) (backoff r).

Definition rejected (r : RetryState) : RetryState :=
  failed (Retry (policy r) (attempts r) (max_backoff (policy r))).

Definition recovered (r : RetryState) : RetryState :=
  Retry (policy r) 0 (base_backoff (policy r)).

Definition exhausted (r : RetryState) : bool :=
  ReconnectPolicy.exhausted (policy r) (attempts r).

(** [wait]: how long it sleeps, and the state once the sleep is over ([None]:
    stopped meanwhile). *)
Definition wait (r : RetryState) (delay : option Z) (stop : bool) : Z * option RetryState :=
  let d := default (backoff r) delay in
  if stop then (d, None)
  else
    (d, Some (match delay with
              | None => Retry (policy r) (attempts r)
                          (Z.min (saturating_mul (backoff r) 2) (max_backoff (policy r)))
              | Some _ => r
              end)).
End RetryState.

(** ** Sessions *)

Record AttemptFailure := Failure { cause : string; rate_limited_until : option Z }.

Inductive SessionOutcome := Stopped | Lost | NeverUp (f : AttemptFailure).

Inductive Transport := Quic | H2.

(** [ConnectionEvent]s of one connection ([tag] and [server_addr] are fixed). *)
Inductive ConnectionEvent :=
| Established (t : Transport)
| LostEvent (t : Transport) (cause : string)
| AttemptFailed (attempt : Z) (cause : string) (retry_in : Z)
| GaveUp (cause : string).

(** [quic_session] after its connect: [ended] is what [quic_loop] returned. *)
Definition quic_session (connected : bool) (ended : result AttemptFailure unit)
    (stopped ctrl_completed : bool) : option SessionOutcome * list ConnectionEvent :=
  if negb connected then (None, [])
  else
    let failure := match ended with
                   | Err f => f
                   | Ok _ => Failure "connection closed" None
                   end in
    if stopped then (Some Stopped, [])
    else if ctrl_completed then (Some Lost, [LostEvent Quic (cause failure)])
    else (Some (NeverUp failure), []).

(** [quic_attempt]: the outcome and whether an endpoint is bound afterwards.
    [session] is what [quic_session] would return on it. *)
Definition quic_attempt (force_h2 bound bind_ok : bool) (session : option SessionOutcome) :
    option SessionOutcome * bool :=
  if force_h2 then (None, bound)
  else
    let bound := bound || bind_ok in
    if bound then (session, bound) else (None, bound).

(** ** The loop *)

(** How one iteration goes, as far as it is decided outside the loop. *)
Record iteration := Iter {
  it_stopped : bool;                     (** [self.stopped()] at the loop head *)
  it_bind_ok : bool;
  it_quic : option SessionOutcome;       (** [None]: the connect failed *)
  it_h2 : SessionOutcome;
  it_reject : option string;             (** the rejection slot after the session *)
  it_now : Z;                            (** [SystemTime::now()] *)
  it_stop_in_wait : bool;
}.

Inductive run_end :=
| EndedOk                                (** [Ok(())]: stopped *)
| GaveUpAfter (attempts : Z) (rejected : option string)
| Running (r : RetryState).              (** no further iteration listed *)

(** What one completed iteration did: the event it emitted, the time it waited. *)
Record step := Step { st_event : option ConnectionEvent; st_wait : Z }.

(** Bookkeeping after a session: the retry state, the cause to report, the delay. *)
Definition after_session (r : RetryState) (it : iteration) (failure : option AttemptFailure) :
    result (Z * option string) (RetryState * option string * option Z) :=
  match it_reject it with
  | Some reason =>
      let r := RetryState.rejected r in
      if RetryState.exhausted r then Err (attempts r, Some reason)
      else Ok (r, Some ("rejected by relay: " +:+ reason), None)
  | None =>
      match failure with
      | Some f =>
          match rate_limited_until f with
          | Some until =>
              Ok (r, Some (cause f),
                  Some (Z.max (Z.max (until - it_now it) 0) (base_backoff (policy r))))
          | None =>
              let r := RetryState.failed r in
              if RetryState.exhausted r then Err (attempts r, None)
              else Ok (r, Some (cause f), None)
          end
      | None => Ok (RetryState.recovered r, None, None)
      end
  end.

(** The session an iteration ends up with, and whether QUIC stays bound. *)
Definition session_of (force_h2 bound : bool) (it : iteration) : SessionOutcome * bool :=
  let '(o, bound) := quic_attempt force_h2 bound (it_bind_ok it) (it_quic it) in
  match o with Some outcome => (outcome, bound) | None => (it_h2 it, false) end.

Inductive iter_end :=
| Halt (s : option step)                       (** the loop returns [Ok(())] *)
| Quit (attempts : Z) (rejected : option string)
| Again (r : RetryState) (bound : bool) (s : step).

(** One pass through the loop body. *)
Definition iterate (force_h2 : bool) (r : RetryState) (bound : bool) (it : iteration) : iter_end :=
  if it_stopped it then Halt None
  else
    let attempt := RetryState.next_attempt r in
    let '(outcome, bound) := session_of force_h2 bound it in
    match outcome with
    | Stopped => Halt None
    | _ =>
        let failure := match outcome with NeverUp f => Some f | _ => None end in
        match after_session r it failure with
        | Err (n, reason) => Quit n reason
        | Ok (r, cause, delay) =>
            let retry_in := default (backoff r) delay in
            let ev := (λ c, AttemptFailed attempt c retry_in) <$> cause in
            match RetryState.wait r delay (it_stop_in_wait it) with
            | (d, None) => Halt (Some (Step ev d))
            | (d, Some r) => Again r bound (Step ev d)
            end
        end
    end.

Fixpoint connection_loop (force_h2 : bool) (r : RetryState) (bound : bool)
    (its : list iteration) : list step * run_end :=
  match its with
  | [] => ([], Running r)
  | it :: its =>
      match iterate force_h2 r bound it with
      | Halt s => (option_list s, EndedOk)
      | Quit n reason => ([], GaveUpAfter n reason)
      | Again r bound s =>
          let '(steps, e) := connection_loop force_h2 r bound its in (s :: steps, e)
      end
  end.

Definition connection_run (p : ReconnectPolicy) (force_h2 : bool) (its : list iteration) :
    list step * run_end :=
  connection_loop force_h2 (RetryState.new p) false its.

(** ** Specification *)

(** What one iteration means for the budget. *)
Inductive verdict :=
| Counts        (** never carried traffic, or rejected *)
| Neutral       (** rate limited by the ACME CA *)
| Resets.       (** carried traffic, then lost *)

Definition verdict_of (it : iteration) (o : SessionOutcome) : verdict :=
  match it_reject it, o with
  | Some _, _ => Counts
  | None, NeverUp f => match rate_limited_until f with Some _ => Neutral | None => Counts end
  | None, _ => Resets
  end.

Fixpoint verdicts (force_h2 bound : bool) (its : list iteration) : list verdict :=
  match its with
  | [] => []
  | it :: its =>
      let '(o, bound) := session_of force_h2 bound it in
      verdict_of it o :: verdicts force_h2 bound its
  end.

(** Nobody calls [stop()]. *)
Fixpoint unstopped (force_h2 bound : bool) (its : list iteration) : Prop :=
  match its with
  | [] => True
  | it :: its =>
      let '(o, bound) := session_of force_h2 bound it in
      it_stopped it = false ∧ it_stop_in_wait it = false ∧ o ≠ Stopped ∧
      unstopped force_h2 bound its
  end.

(** The iteration (from 1) at which [m] counted failures in a row are reached,
    starting from [streak] of them. *)
Fixpoint streak_reaches (m streak : Z) (vs : list verdict) : option nat :=
  match vs with
  | [] => None
  | Counts :: vs => if m <=? streak + 1 then Some 1%nat else S <$> streak_reaches m (streak + 1) vs
  | Neutral :: vs => S <$> streak_reaches m streak vs
  | Resets :: vs => S <$> streak_reaches m 0 vs
  end.

(** The budget as the loop applies it: 0 is never used up. *)
Definition budget_spent (p : ReconnectPolicy) (streak : Z) (vs : list verdict) : option nat :=
  if max_attempts p =? 0 then None else streak_reaches (max_attempts p) streak vs.

Definition u32_policy (p : ReconnectPolicy) : Prop :=
  0 ≤ max_attempts p ≤ U32_MAX ∧ 0 < base_backoff p ≤ max_backoff p ∧
  max_backoff p ≤ DURATION_MAX.

Lemma validate_u32_policy p :
  0 ≤ max_attempts p ≤ U32_MAX → 0 ≤ base_backoff p → max_backoff p ≤ DURATION_MAX →
  ReconnectPolicy.validate p = Ok tt → u32_policy p.
Proof.
  unfold ReconnectPolicy.validate, ensure, is_zero. intros Hm Hb Hd.
  destruct (Z.eqb_spec (base_backoff p) 0); [done|]. simpl.
  destruct (Z.leb_spec (base_backoff p) (max_backoff p)); [|done].
  intros _. split_and!; lia.
Qed.

(** ** Lemmas *)

(** The state of the budget after an iteration that goes on. *)
Definition next_streak (v : verdict) (n : Z) : Z :=
  match v with Counts => u32_saturating_add n 1 | Neutral => n | Resets => 0 end.

Lemma u32_saturating_add_1 n : 0 ≤ n → n < U32_MAX → u32_saturating_add n 1 = n + 1.
Proof. unfold u32_saturating_add. lia. Qed.

Lemma exhausted_spec p n :
  ReconnectPolicy.exhausted p n = true ↔ max_attempts p ≠ 0 ∧ max_attempts p ≤ n.
Proof.
  unfold ReconnectPolicy.exhausted. rewrite andb_true_iff, negb_true_iff, Z.eqb_neq, Z.leb_le.
  done.
Qed.

(** How long an iteration waits, and the backoff it leaves. *)
Definition wait_ok (r r' : RetryState) (it : iteration) (v : verdict) (s : step) : Prop :=
  let p := policy r in
  match v with
  | Counts =>
      st_wait s = (match it_reject it with Some _ => max_backoff p | None => backoff r end) ∧
      (∃ c, st_event s = Some (AttemptFailed (RetryState.next_attempt r) c (st_wait s))) ∧
      backoff r' = Z.min (st_wait s * 2) (max_backoff p)
  | Neutral =>
      base_backoff p ≤ st_wait s ∧
      (∃ c, st_event s = Some (AttemptFailed (RetryState.next_attempt r) c (st_wait s))) ∧
      backoff r' = backoff r
  | Resets =>
      st_wait s = base_backoff p ∧ st_event s = None ∧
      backoff r' = Z.min (base_backoff p * 2) (max_backoff p)
  end.

(** One pass that is not stopped: it gives up exactly on a counted failure that
    uses the budget up, and otherwise waits and updates the state. *)
Lemma iterate_spec force_h2 r bound it o b :
  max_backoff (policy r) ≤ DURATION_MAX →
  session_of force_h2 bound it = (o, b) → o ≠ Stopped →
  it_stopped it = false → it_stop_in_wait it = false →
  let v := verdict_of it o in
  let n := next_streak v (attempts r) in
  match iterate force_h2 r bound it with
  | Halt _ => False
  | Quit k _ => v = Counts ∧ k = n ∧ ReconnectPolicy.exhausted (policy r) n = true
  | Again r' b' s =>
      b' = b ∧ policy r' = policy r ∧ attempts r' = n ∧
      (v = Counts → ReconnectPolicy.exhausted (policy r) n = false) ∧ wait_ok r r' it v s
  end.
Proof.
  intros Hmax Hs Ho H1 H2. unfold iterate. rewrite H1, Hs, H2.
  unfold after_session, verdict_of, wait_ok, RetryState.wait, RetryState.rejected,
    RetryState.failed, RetryState.exhausted.
  destruct (it_reject it) as [reason|]; destruct o as [| |f]; try done; simpl.
  - destruct (ReconnectPolicy.exhausted _ _) eqn:He; simpl; [done|].
    rewrite saturating_mul_min by done. split_and!; try done; by eexists.
  - destruct (ReconnectPolicy.exhausted _ _) eqn:He; simpl; [done|].
    rewrite saturating_mul_min by done. split_and!; try done; by eexists.
  - rewrite saturating_mul_min by done. split_and!; try done; by eexists.
  - destruct (rate_limited_until f) as [u|]; simpl.
    + split_and!; try done; [lia|by eexists].
    + destruct (ReconnectPolicy.exhausted _ _) eqn:He; simpl; [done|].
      rewrite saturating_mul_min by done. split_and!; try done; by eexists.
Qed.

Definition budget_left (r : RetryState) : Prop :=
  u32_policy (policy r) ∧ 0 ≤ attempts r ∧
  (max_attempts (policy r) ≠ 0 → attempts r < max_attempts (policy r)).

Lemma next_streak_left r v :
  budget_left r →
  (v = Counts → ReconnectPolicy.exhausted (policy r) (next_streak v (attempts r)) = false) →
  0 ≤ next_streak v (attempts r) ∧
  (max_attempts (policy r) ≠ 0 → next_streak v (attempts r) < max_attempts (policy r)).
Proof.
  intros (Hp & H0 & Hlt) Hex. unfold u32_policy, U32_MAX in Hp.
  destruct v; cbn [next_streak] in *; [|lia|lia].
  specialize (Hex eq_refl). rewrite <-not_true_iff_false, exhausted_spec in Hex.
  unfold u32_saturating_add, U32_MAX in *. lia.
Qed.

(** The loop gives up exactly when its specification says so. *)
Lemma connection_loop_budget force_h2 r bound its :
  budget_left r → unstopped force_h2 bound its →
  match budget_spent (policy r) (attempts r) (verdicts force_h2 bound its) with
  | Some k =>
      let '(steps, e) := connection_loop force_h2 r bound its in
      S (length steps) = k ∧ ∃ reason, e = GaveUpAfter (max_attempts (policy r)) reason
  | None =>
      let '(steps, e) := connection_loop force_h2 r bound its in
      length steps = length its ∧ ∃ r', e = Running r'
  end.
Proof.
  revert r bound. induction its as [|it its IH]; intros r bound Hr Hu.
  { unfold budget_spent. simpl. destruct (max_attempts (policy r) =? 0); eauto. }
  cbn [verdicts unstopped connection_loop] in *.
  destruct (session_of force_h2 bound it) as [o b] eqn:Hses.
  destruct Hu as (Hst & Hw & Ho & Hu). destruct Hr as (Hp & H0 & Hlt).
  pose proof (iterate_spec force_h2 r bound it o b ltac:(apply Hp) Hses Ho Hst Hw) as Hs.
  cbn zeta in Hs. destruct (iterate force_h2 r bound it) as [?|k reason|r' b' s]; [done|..].
  - destruct Hs as (-> & -> & [Hm Hle]%exhausted_spec). cbn [next_streak] in *.
    rewrite u32_saturating_add_1 in * by (unfold u32_policy in Hp; lia).
    unfold budget_spent. destruct (Z.eqb_spec (max_attempts (policy r)) 0); [done|].
    cbn [streak_reaches]. destruct (Z.leb_spec (max_attempts (policy r)) (attempts r + 1)); [|lia].
    split; [done|]. exists reason. f_equal. specialize (Hlt Hm). lia.
  - destruct Hs as (-> & Hpol & Hatt & Hcnt & _).
    destruct (next_streak_left r (verdict_of it o)) as [Hn0 Hn]; [done|done|].
    specialize (IH r' b). rewrite Hpol, Hatt in IH.
    specialize (IH ltac:(unfold budget_left; rewrite Hpol, Hatt; done) Hu).
    destruct (connection_loop force_h2 r' b its) as [steps e].
    unfold budget_spent in *. destruct (Z.eqb_spec (max_attempts (policy r)) 0) as [Hz|Hz].
    { destruct IH as [? ?]. simpl. auto. }
    specialize (Hn Hz). destruct (verdict_of it o); cbn [streak_reaches next_streak] in *.
    + rewrite u32_saturating_add_1 in * by (unfold u32_policy in Hp; lia).
      destruct (Z.leb_spec (max_attempts (policy r)) (attempts r + 1)); [lia|].
      destruct (streak_reaches _ _ _); simpl; destruct IH as [<- ?]; auto.
    + destruct (streak_reaches _ _ _); simpl; destruct IH as [<- ?]; auto.
    + destruct (streak_reaches _ _ _); simpl; destruct IH as [<- ?]; auto.
Qed.

(** The wait after a session, by what the session meant. *)
Definition wait_bounds (p : ReconnectPolicy) (itv : iteration * verdict) (s : step) : Prop :=
  base_backoff p ≤ st_wait s ∧
  (itv.2 ≠ Neutral → st_wait s ≤ max_backoff p) ∧
  (itv.2 = Resets → st_wait s = base_backoff p ∧ st_event s = None) ∧
  (itv.2 ≠ Resets → ∃ n c, st_event s = Some (AttemptFailed n c (st_wait s))) ∧
  (∀ reason, it_reject itv.1 = Some reason → st_wait s = max_backoff p).

Lemma verdict_reject it o reason : it_reject it = Some reason → verdict_of it o = Counts.
Proof. unfold verdict_of. by intros ->. Qed.

Lemma connection_loop_waits force_h2 r bound its :
  u32_policy (policy r) → base_backoff (policy r) ≤ backoff r ≤ max_backoff (policy r) →
  unstopped force_h2 bound its →
  let steps := (connection_loop force_h2 r bound its).1 in
  Forall2 (wait_bounds (policy r))
    (take (length steps) (zip its (verdicts force_h2 bound its))) steps.
Proof.
  revert r bound. induction its as [|it its IH]; intros r bound Hp Hb Hu; [constructor|].
  cbn [verdicts unstopped connection_loop] in *.
  destruct (session_of force_h2 bound it) as [o b] eqn:Hses. destruct Hu as (Hst & Hw & Ho & Hu).
  pose proof (iterate_spec force_h2 r bound it o b ltac:(apply Hp) Hses Ho Hst Hw) as Hs.
  cbn zeta in Hs. destruct (iterate force_h2 r bound it) as [?|k reason|r' b' s]; [done|constructor|].
  destruct Hs as (-> & Hpol & _ & _ & Hwait).
  assert (Hthis : base_backoff (policy r) ≤ backoff r' ≤ max_backoff (policy r) ∧
                  wait_bounds (policy r) (it, verdict_of it o) s).
  { unfold wait_bounds. cbn [fst snd].
    pose proof (λ reason, verdict_reject it o reason) as Hrej. unfold u32_policy in Hp.
    destruct (verdict_of it o); cbn in Hwait.
    - destruct Hwait as (Hd & [c Hc] & Hb'). destruct (it_reject it) as [reason|];
        (split; [lia|split_and!; [lia|intros; lia|done|eauto|by intros; try lia]]).
    - destruct Hwait as (Hd & [c Hc] & Hb'). split; [lia|]. split_and!; [lia|done|done|eauto|].
      intros reason Hr. by specialize (Hrej reason Hr).
    - destruct Hwait as (Hd & Hc & Hb'). split; [lia|]. split_and!; [lia|lia|done|done|].
      intros reason Hr. by specialize (Hrej reason Hr). }
  destruct Hthis as [Hb' Hthis]. specialize (IH r' b). rewrite Hpol in IH.
  specialize (IH Hp Hb' Hu). destruct (connection_loop force_h2 r' b its) as [steps e].
  simpl in *. by constructor.
Qed.

(** Waits of a run of plain failures, from backoff [d]. *)
Lemma connection_loop_schedule force_h2 r bound its i :
  budget_left r →
  backoff r = Z.min (base_backoff (policy r) * 2 ^ i) (max_backoff (policy r)) → 0 ≤ i →
  unstopped force_h2 bound its →
  Forall (λ v, v = Counts) (verdicts force_h2 bound its) →
  Forall (λ it, it_reject it = None) its →
  (max_attempts (policy r) = 0 ∨ attempts r + Z.of_nat (length its) < max_attempts (policy r)) →
  st_wait <$> (connection_loop force_h2 r bound its).1 =
  (λ j, Z.min (base_backoff (policy r) * 2 ^ (i + Z.of_nat j)) (max_backoff (policy r)))
    <$> seq 0 (length its).
Proof.
  revert r bound i. induction its as [|it its IH]; intros r bound i Hr Hb Hi Hu Hv Hrej Hm; [done|].
  cbn [verdicts unstopped connection_loop] in *.
  destruct (session_of force_h2 bound it) as [o b] eqn:Hses. destruct Hu as (Hst & Hw & Ho & Hu).
  apply Forall_cons in Hv as [Hv Hvs], Hrej as [Hr0 Hrej]. pose proof Hr as (Hp & H0 & Hlt).
  pose proof (iterate_spec force_h2 r bound it o b ltac:(apply Hp) Hses Ho Hst Hw) as Hs.
  cbn zeta in Hs. rewrite Hv in Hs. cbn [next_streak] in Hs.
  assert (Hn : u32_saturating_add (attempts r) 1 ≤ attempts r + 1) by (unfold u32_saturating_add; lia).
  cbn [length] in *. destruct (iterate force_h2 r bound it) as [?|k reason|r' b' s]; [done|..].
  { destruct Hs as (_ & _ & [? ?]%exhausted_spec). lia. }
  destruct Hs as (-> & Hpol & Hatt & Hcnt & Hwait). cbn in Hwait. rewrite Hr0 in Hwait.
  destruct Hwait as (Hd & _ & Hb').
  destruct (next_streak_left r Counts) as [Hn0 Hn1]; [done|done|]. cbn [next_streak] in *.
  specialize (IH r' b (i + 1)). rewrite Hpol, Hatt in IH.
  assert (Hback : backoff r' = Z.min (base_backoff (policy r) * 2 ^ (i + 1)) (max_backoff (policy r))).
  { rewrite Hb', Hd, Hb, Z.pow_add_r by lia. change (2 ^ 1) with 2. unfold u32_policy in Hp. lia. }
  specialize (IH ltac:(unfold budget_left; rewrite Hpol, Hatt; done) Hback ltac:(lia) Hu Hvs Hrej ltac:(lia)).
  destruct (connection_loop force_h2 r' b its) as [steps e]. cbn [fst] in *.
  rewrite <-cons_seq, !fmap_cons, IH, Hd, Hb, Z.add_0_r. f_equal.
  rewrite <-fmap_S_seq, <-list_fmap_compose.
  apply list_fmap_ext. intros j x _. simpl. do 3 f_equal. lia.
Qed.

(** ** Properties *)

(** C19: the reconnect loop gives up exactly when its specification says so: at the
    iteration where [max_attempts] counted failures (attempts that never carried
    traffic, or that the relay rejected) have followed one another without a
    session that carried traffic in between; an ACME rate limit neither counts nor
    resets; a budget of 0 never runs out. Until then it keeps reconnecting. *)
Theorem connection_run_gives_up_at_budget p force_h2 its :
  u32_policy p → unstopped force_h2 false its →
  match budget_spent p 0 (verdicts force_h2 false its) with
  | Some k =>
      let '(steps, e) := connection_run p force_h2 its in
      S (length steps) = k ∧ ∃ reason, e = GaveUpAfter (max_attempts p) reason
  | None =>
      let '(steps, e) := connection_run p force_h2 its in
      length steps = length its ∧ ∃ r', e = Running r'
  end.
Proof.
  intros Hp Hu. apply (connection_loop_budget force_h2 (RetryState.new p) false its); [|done].
  unfold budget_left, RetryState.new, u32_policy in *. cbn [policy attempts]. lia.
Qed.

(** C20: successive plain failures wait [base_backoff], doubled each time and capped
    at [max_backoff], with exactly one wait between two attempts. *)
Theorem backoff_doubles p force_h2 its :
  u32_policy p → unstopped force_h2 false its →
  Forall (λ v, v = Counts) (verdicts force_h2 false its) →
  Forall (λ it, it_reject it = None) its →
  (max_attempts p = 0 ∨ Z.of_nat (length its) < max_attempts p) →
  st_wait <$> (connection_run p force_h2 its).1 =
  (λ j, Z.min (base_backoff p * 2 ^ Z.of_nat j) (max_backoff p)) <$> seq 0 (length its).
Proof.
  intros Hp Hu Hv Hr Hm. apply (connection_loop_schedule force_h2 (RetryState.new p) false its 0);
    [|cbn; unfold u32_policy in Hp; lia|lia|done|done|done|cbn; lia].
  unfold budget_left, RetryState.new, u32_policy in *. cbn [policy attempts]. lia.
Qed.

(** every wait of the loop is at least [base_backoff], and at most
    [max_backoff] unless the ACME CA named a time; a rejection waits exactly
    [max_backoff]; a session that carried traffic is followed by exactly
    [base_backoff] and no event; every other wait is reported as an
    [AttemptFailed] with that very delay. *)
Theorem waits_bounded p force_h2 its :
  u32_policy p → unstopped force_h2 false its →
  let steps := (connection_run p force_h2 its).1 in
  Forall2 (wait_bounds p) (take (length steps) (zip its (verdicts force_h2 false its))) steps.
Proof.
  intros Hp Hu. apply (connection_loop_waits force_h2 (RetryState.new p) false its); [done| |done].
  cbn. unfold u32_policy in Hp. lia.
Qed.

(** ** Concrete runs *)

Definition failing : iteration :=
  Iter false false None (NeverUp (Failure "refused" None)) None 0 false.
Definition losing : iteration := Iter false true (Some Lost) Stopped None 0 false.
Definition rejecting : iteration :=
  Iter false true (Some (NeverUp (Failure "closed" None))) Stopped (Some "unauthorized") 0 false.

Lemma default_u32_policy : u32_policy ReconnectPolicy.default.
Proof. vm_compute. split_and!; discriminate || reflexivity. Qed.

Lemma connection_run_gives_up_at_budget_witness :
  let '(steps, e) := connection_run ReconnectPolicy.default false
                       [failing; losing; failing; failing; failing; rejecting; failing; failing] in
  S (length steps) = 7%nat ∧ ∃ reason, e = GaveUpAfter 5 reason.
Proof.
  refine (connection_run_gives_up_at_budget ReconnectPolicy.default false
    [failing; losing; failing; failing; failing; rejecting; failing; failing] default_u32_policy _).
  cbn. split_and!; (reflexivity || discriminate || exact I).
Defined.

(** With the default policy a connection that never comes up waits 2, 4, 8 and
    16 s; the fifth failure ends it without a fifth wait. *)
Lemma backoff_doubles_witness :
  st_wait <$> (connection_run ReconnectPolicy.default false [failing; failing; failing; failing]).1
  = [from_secs 2; from_secs 4; from_secs 8; from_secs 16].
Proof.
  refine (backoff_doubles ReconnectPolicy.default false [failing; failing; failing; failing]
    default_u32_policy _ _ _ _).
  - cbn. split_and!; (reflexivity || discriminate || exact I).
  - repeat constructor.
  - repeat constructor.
  - right. vm_compute. reflexivity.
Defined.

Lemma waits_bounded_witness :
  Forall2 (wait_bounds ReconnectPolicy.default)
    [(failing, Counts); (rejecting, Counts); (losing, Resets)]
    (connection_run ReconnectPolicy.default false [failing; rejecting; losing]).1.
Proof.
  refine (waits_bounded ReconnectPolicy.default false [failing; rejecting; losing]
    default_u32_policy _).
  cbn. split_and!; (reflexivity || discriminate || exact I).
Defined.

(** The five attempts of the default policy never wait [max_backoff]. *)
Lemma default_policy_waits :
  st_wait <$> (connection_run ReconnectPolicy.default false (replicate 5 failing)).1
  = [from_secs 2; from_secs 4; from_secs 8; from_secs 16] ∧
  (connection_run ReconnectPolicy.default false (replicate 5 failing)).2 = GaveUpAfter 5 None.
Proof. split; vm_compute; reflexivity. Qed.
