(* ===== verification/Pool.v ===== *)
(** * Pool.v: the client's H2 connection pool

    tunnel-client/src/client.rs: [PoolLiveness], [H2Pooled::drive] and
    [attempt] (as far as they touch the shared state), [H2Shared]'s failure slot
    and the session loop of [h2_pool].

    The members are tasks that run concurrently; each [PoolLiveness] call is one
    step, made under its lock; the stop flag a member passes to [down] was read before
    and may have been set since. *)

From S2P Require Import Prelude Retry.

(** ** Shared state *)

(** [PoolState] plus what [PoolLiveness] and [H2Shared] keep beside it. A
    [Notify] holds at most one permit; the events are those emitted so far,
    latest first. *)
Record pool := MkPool {
  live : nat;
  ever_up : bool;
  parked : nat;
  came_up : nat;                          (** the [watch] value *)
  went_down : bool;
  all_parked : bool;
  failed : option AttemptFailure;
  rejected_slot : option string;
  events : list ConnectionEvent;
}.

Definition pool_new : pool := MkPool 0 false 0 0 false false None None [].

Module PoolLiveness.
Definition up (p : pool) : pool :=
  let n := S (live p) in
  if bool_decide (n = 1%nat) then
    MkPool n true (parked p) (S (came_up p)) (went_down p) (all_parked p)
      (failed p) (rejected_slot p) (Established H2 :: events p)
  else
    MkPool n true (parked p) (came_up p) (went_down p) (all_parked p)
      (failed p) (rejected_slot p) (events p).

Definition down (p : pool) (cause : string) (stopped : bool) : pool :=
  let n := (live p - 1)%nat in
  if bool_decide (n = 0%nat) then
    MkPool n (ever_up p) (parked p) (came_up p) true (all_parked p)
      (failed p) (rejected_slot p)
      (if stopped then events p else LostEvent H2 cause :: events p)
  else
    MkPool n (ever_up p) (parked p) (came_up p) (went_down p) (all_parked p)
      (failed p) (rejected_slot p) (events p).

(** The version the receiver has seen, or [None] when a sibling is up. *)
Definition park (size : nat) (p : pool) : option nat * pool :=
  if bool_decide (0 < live p)%nat then (None, p)
  else
    let n := S (parked p) in
    (Some (came_up p),
     MkPool (live p) (ever_up p) n (came_up p) (went_down p)
       (all_parked p || bool_decide (size ≤ n)%nat) (failed p) (rejected_slot p) (events p)).

Definition unpark (p : pool) : pool :=
  MkPool (live p) (ever_up p) (parked p - 1)%nat (came_up p) (went_down p) (all_parked p)
    (failed p) (rejected_slot p) (events p).

(** [wait_all_parked] and [wait_down] resolve while their [Notify] holds a permit. *)
Definition wait_all_parked (p : pool) : bool := all_parked p.
Definition wait_down (p : pool) : bool := went_down p.
Definition ever_up (p : pool) : bool := ever_up p.
End PoolLiveness.

(** Why an attempt never came up: an error to record, or the relay's rejection. *)
Inductive attempt_error := AttemptError (f : AttemptFailure) | AttemptRejected (reason : string).

(** [record_failure], or [rejected.send_replace]. *)
Definition record_failure (p : pool) (e : attempt_error) : pool :=
  match e with
  | AttemptError f =>
      MkPool (live p) (ever_up p) (parked p) (came_up p) (went_down p) (all_parked p)
        (Some f) (rejected_slot p) (events p)
  | AttemptRejected r =>
      MkPool (live p) (ever_up p) (parked p) (came_up p) (went_down p) (all_parked p)
        (failed p) (Some r) (events p)
  end.

Definition take_failure (p : pool) : AttemptFailure :=
  default (Failure "no pooled connection came up" None) (failed p).

(** ** Members *)

(** Where a member's [drive] stands. *)
Inductive member :=
| Attempting                 (** in [attempt], not up *)
| Failed                     (** [attempt] returned [false]; about to [park] *)
| Serving                    (** up, accepting streams *)
| Parked (seen : nat)        (** awaiting [came_up] with this version *)
| Waking (woke : bool)       (** about to [unpark] *)
| Checking                   (** the attempt is over; about to read [stopped()] *)
| Resting                    (** backoff before the next attempt *)
| Returned.

Record pool_world := PW { pw_pool : pool; pw_members : list member; pw_stopped : bool }.

Definition pool_init (size : nat) : pool_world := PW pool_new (replicate size Attempting) false.

Inductive pool_step (size : nat) : pool_world → pool_world → Prop :=
| step_stop p ms b :
    pool_step size (PW p ms b) (PW p ms true)
| step_attempt_fails p m1 m2 b e :
    pool_step size (PW p (m1 ++ Attempting :: m2) b)
                   (PW (record_failure p e) (m1 ++ Failed :: m2) b)
| step_up p m1 m2 b :
    pool_step size (PW p (m1 ++ Attempting :: m2) b)
                   (PW (PoolLiveness.up p) (m1 ++ Serving :: m2) b)
| step_down p m1 m2 b cause stopped :
    (stopped = true → b = true) →         (** [self.stopped()], read before [down] locks *)
    pool_step size (PW p (m1 ++ Serving :: m2) b)
                   (PW (PoolLiveness.down p cause stopped) (m1 ++ Checking :: m2) b)
| step_park p p' m1 m2 b r :
    PoolLiveness.park size p = (r, p') →
    pool_step size (PW p (m1 ++ Failed :: m2) b)
                   (PW p' (m1 ++ (match r with
                                  | Some seen => Parked seen
                                  | None => Checking
                                  end) :: m2) b)
| step_check p m1 m2 b :
    pool_step size (PW p (m1 ++ Checking :: m2) b)
                   (PW p (m1 ++ (if b then Returned else Resting) :: m2) b)
| step_wake p m1 m2 b seen :
    (seen < came_up p)%nat →
    pool_step size (PW p (m1 ++ Parked seen :: m2) b) (PW p (m1 ++ Waking true :: m2) b)
| step_wake_stop p m1 m2 seen :
    pool_step size (PW p (m1 ++ Parked seen :: m2) true) (PW p (m1 ++ Waking false :: m2) true)
| step_unpark p m1 m2 b woke :
    pool_step size (PW p (m1 ++ Waking woke :: m2) b)
                   (PW (PoolLiveness.unpark p)
                      (m1 ++ (if woke then Checking else Returned) :: m2) b)
| step_rested p m1 m2 b :
    pool_step size (PW p (m1 ++ Resting :: m2) b) (PW p (m1 ++ Attempting :: m2) b)
| step_rest_stop p m1 m2 :
    pool_step size (PW p (m1 ++ Resting :: m2) true) (PW p (m1 ++ Returned :: m2) true).

(** The session loop of [h2_pool]: the arms of its [select!]. *)
Inductive session_ends : pool_world → SessionOutcome → Prop :=
| ends_stopped p ms : session_ends (PW p ms true) Stopped
| ends_rejected p ms b r :
    rejected_slot p = Some r → session_ends (PW p ms b) (NeverUp (take_failure p))
| ends_down p ms b :
    PoolLiveness.wait_down p = true → session_ends (PW p ms b) Lost
| ends_parked p ms b :
    PoolLiveness.wait_all_parked p = true →
    session_ends (PW p ms b) (if PoolLiveness.ever_up p then Lost else NeverUp (take_failure p))
| ends_joined p ms b :
    Forall (eq Returned) ms →
    session_ends (PW p ms b) (if PoolLiveness.ever_up p then Lost else NeverUp (take_failure p)).

(** ** Invariant *)

Definition is_serving (m : member) : bool := match m with Serving => true | _ => false end.
Definition is_parked (m : member) : bool :=
  match m with Parked _ | Waking _ => true | _ => false end.
Definition count (f : member → bool) (ms : list member) : nat := length (List.filter f ms).

Lemma count_mid f m1 m m2 :
  count f (m1 ++ m :: m2) = (count f m1 + Nat.b2n (f m) + count f m2)%nat.
Proof.
  unfold count. rewrite List.filter_app, length_app. simpl. destruct (f m); simpl; lia.
Qed.

Lemma count_le f ms : (count f ms ≤ length ms)%nat.
Proof. apply List.filter_length_le. Qed.

Lemma count_full f ms : count f ms = length ms → Forall (λ m, f m = true) ms.
Proof.
  induction ms as [|m ms IH]; [done|]. unfold count in *. simpl.
  destruct (f m) eqn:E; simpl; intros Hc; [constructor; auto|].
  pose proof (count_le f ms). unfold count in *. lia.
Qed.

(** Some attempt's failure was recorded. *)
Definition has_cause (p : pool) : Prop := is_Some (failed p) ∨ is_Some (rejected_slot p).

(** What a member's position says about the shared state. *)
Definition member_ok (p : pool) (stopped : bool) (m : member) : Prop :=
  match m with
  | Failed => has_cause p
  | Parked seen => has_cause p ∧ (seen ≤ came_up p)%nat ∧ ((0 < live p)%nat → (seen < came_up p)%nat)
  | Waking woke => has_cause p ∧ (if woke then (0 < came_up p)%nat else stopped = true)
  | Returned => stopped = true
  | _ => True
  end.

(** [Established] and [Lost] in turn, latest first; whether the last one is
    [Established]. *)
Fixpoint alternating (l : list ConnectionEvent) : Prop :=
  match l with
  | [] => True
  | Established _ :: l => alternating l ∧ match l with Established _ :: _ => False | _ => True end
  | LostEvent _ _ :: l => alternating l ∧ match l with Established _ :: _ => True | _ => False end
  | _ :: _ => False
  end.
Definition last_is_up (l : list ConnectionEvent) : bool :=
  match l with Established _ :: _ => true | _ => false end.

Record pool_inv (size : nat) (w : pool_world) : Prop := {
  inv_size : length (pw_members w) = size;
  inv_live : live (pw_pool w) = count is_serving (pw_members w);
  inv_parked : parked (pw_pool w) = count is_parked (pw_members w);
  inv_ever_up : ever_up (pw_pool w) = bool_decide (0 < came_up (pw_pool w))%nat;
  inv_live_up : (0 < live (pw_pool w))%nat → ever_up (pw_pool w) = true;
  inv_members : Forall (member_ok (pw_pool w) (pw_stopped w)) (pw_members w);
  inv_fired : (0 < size)%nat → (size ≤ parked (pw_pool w))%nat → all_parked (pw_pool w) = true;
  inv_all_parked : pw_stopped w = false → ever_up (pw_pool w) = false →
    all_parked (pw_pool w) = true → (size ≤ parked (pw_pool w))%nat;
  inv_established : ever_up (pw_pool w) = true ↔ Established H2 ∈ events (pw_pool w);
  inv_alternating : pw_stopped w = false →
    alternating (events (pw_pool w)) ∧
    last_is_up (events (pw_pool w)) = bool_decide (0 < live (pw_pool w))%nat;
  inv_down : went_down (pw_pool w) = true → ever_up (pw_pool w) = true;
}.

Lemma member_ok_mono p p' b b' m :
  (came_up p ≤ came_up p')%nat →
  ((0 < live p')%nat → (0 < live p)%nat ∨ (came_up p < came_up p')%nat) →
  (has_cause p → has_cause p') → (b = true → b' = true) →
  member_ok p b m → member_ok p' b' m.
Proof.
  intros Hc Hl Hh Hb. destruct m as [| | |s|[]| | |]; simpl; try tauto.
  - intros (H1 & H2 & H3). split_and!; [tauto|lia|]. intros Hlive.
    destruct (Hl Hlive); [specialize (H3 ltac:(lia))|]; lia.
  - intros [H1 H2]. split; [tauto|lia].
Qed.

(** The invariant after one member moved and the pool changed, given what changed. *)
Lemma members_ok_step p p' b b' m1 m m' m2 :
  (came_up p ≤ came_up p')%nat →
  ((0 < live p')%nat → (0 < live p)%nat ∨ (came_up p < came_up p')%nat) →
  (has_cause p → has_cause p') → (b = true → b' = true) →
  (member_ok p b m → member_ok p' b' m') →
  Forall (member_ok p b) (m1 ++ m :: m2) → Forall (member_ok p' b') (m1 ++ m' :: m2).
Proof.
  intros Hc Hl Hh Hb Hm. rewrite !Forall_app, !Forall_cons. intros (H1 & H2 & H3).
  split_and!; [|by apply Hm|]; (eapply Forall_impl; [done|]); intros x;
    by apply member_ok_mono.
Qed.

Lemma pool_inv_init size : pool_inv size (pool_init size).
Proof.
  assert (Hs : ∀ f, f Attempting = false → count f (replicate size Attempting) = 0%nat).
  { intros f Hf. unfold count. induction size as [|n IH]; simpl; [done|]. by rewrite Hf. }
  split; simpl; try done.
  - apply length_replicate.
  - by rewrite Hs.
  - by rewrite Hs.
  - lia.
  - apply Forall_replicate. exact I.
  - intros. lia.
  - split; [done|]. by intros ?%not_elem_of_nil.
Qed.

Ltac pool_open :=
  intros [Hsize Hlive Hparked Hever Hlup Hmem Hfired Hall Hest Halt Hdown];
  cbn [pw_pool pw_members pw_stopped] in *;
  rewrite ?length_app in Hsize; rewrite ?count_mid in Hlive; rewrite ?count_mid in Hparked;
  cbn [is_serving is_parked Nat.b2n length] in *.
Ltac pool_close :=
  cbn [pw_pool pw_members pw_stopped live ever_up parked came_up went_down all_parked failed
       rejected_slot events];
  rewrite ?length_app, ?count_mid; cbn [is_serving is_parked Nat.b2n length].

Section pool_steps.
Context (size : nat).

(** Steps that only move a member between positions of the same count. *)
Lemma inv_move p m1 m m' m2 b :
  is_serving m' = is_serving m → is_parked m' = is_parked m →
  (member_ok p b m → member_ok p b m') →
  pool_inv size (PW p (m1 ++ m :: m2) b) → pool_inv size (PW p (m1 ++ m' :: m2) b).
Proof.
  intros Hs Hp Hm. pool_open. split; pool_close; try done.
  - by rewrite Hs.
  - by rewrite Hp.
  - eapply members_ok_step; eauto.
Qed.

Lemma inv_stop p ms b : pool_inv size (PW p ms b) → pool_inv size (PW p ms true).
Proof.
  pool_open. split; pool_close; try done.
  eapply Forall_impl; [exact Hmem|]. intros m. apply member_ok_mono; auto.
Qed.

Lemma inv_record p m1 m2 b e :
  pool_inv size (PW p (m1 ++ Attempting :: m2) b) →
  pool_inv size (PW (record_failure p e) (m1 ++ Failed :: m2) b).
Proof.
  pool_open. destruct e as [f|r]; (split; pool_close; try done);
    (eapply members_ok_step; [| | | | |exact Hmem]; simpl; auto; unfold has_cause; simpl; eauto).
Qed.

Lemma inv_up p m1 m2 b :
  pool_inv size (PW p (m1 ++ Attempting :: m2) b) →
  pool_inv size (PW (PoolLiveness.up p) (m1 ++ Serving :: m2) b).
Proof.
  pool_open. unfold PoolLiveness.up. destruct (bool_decide_reflect (S (live p) = 1%nat)) as [H1|H1]; (split; pool_close; try done; try lia).
  - eapply members_ok_step; [| | | | |exact Hmem]; simpl; auto with lia.
  - split; [by left|done].
  - intros Hb. destruct (Halt Hb) as [Ha Hl]. rewrite (bool_decide_true (0 < S _)%nat) by lia.
    split; [|done]. simpl. split; [done|]. rewrite bool_decide_false in Hl by lia.
    by destruct (events p) as [|[] ?].
  - rewrite <-Hever. symmetry. apply Hlup. lia.
  - eapply members_ok_step; [| | | | |exact Hmem]; simpl; auto with lia.
  - split; [|done]. intros _. apply Hest, Hlup. lia.
  - intros Hb. destruct (Halt Hb) as [Ha Hl]. split; [done|]. rewrite Hl.
    apply bool_decide_ext. lia.
Qed.

Lemma inv_down_step p m1 m2 b cause stopped m' :
  (stopped = true → b = true) → m' = Checking →
  pool_inv size (PW p (m1 ++ Serving :: m2) b) →
  pool_inv size (PW (PoolLiveness.down p cause stopped) (m1 ++ m' :: m2) b).
Proof.
  intros Hst Hm'. pool_open. assert (Hup : ever_up p = true) by (apply Hlup; lia).
  assert (Hs : is_serving m' = false ∧ is_parked m' = false ∧ ∀ q, member_ok q b m')
    by (by subst m'). destruct Hs as (Hs1 & Hs2 & Hs3).
  unfold PoolLiveness.down.
  destruct (bool_decide_reflect ((live p - 1)%nat = 0%nat)) as [H1|H1]; (split; pool_close; rewrite ?Hs1, ?Hs2; cbn [Nat.b2n]; try done; try lia).
  - eapply members_ok_step; [| | | | |exact Hmem]; simpl; auto with lia.
  - destruct stopped; [done|]. rewrite Hest. split; [by right|]. intros [?|?]%elem_of_cons; done.
  - intros ->. destruct stopped; [by discriminate Hst|]. destruct (Halt eq_refl) as [Ha Hl]. rewrite bool_decide_true in Hl by lia.
    rewrite bool_decide_false by lia. simpl. split; [|done]. split; [done|].
    by destruct (events p) as [|[] ?].
  - eapply members_ok_step; [| | | | |exact Hmem]; simpl; auto with lia.
  - intros Hb. destruct (Halt Hb) as [Ha Hl]. split; [done|]. rewrite Hl.
    apply bool_decide_ext. lia.
Qed.

Lemma inv_park p p' r m1 m2 b :
  PoolLiveness.park size p = (r, p') →
  pool_inv size (PW p (m1 ++ Failed :: m2) b) →
  pool_inv size (PW p' (m1 ++ (match r with
                               | Some seen => Parked seen
                               | None => Checking end) :: m2) b).
Proof.
  unfold PoolLiveness.park. case_bool_decide as Hl; intros [= <- <-].
  - by apply inv_move.
  - pool_open. split; pool_close; try done; try lia.
    + eapply members_ok_step; [| | | | |exact Hmem]; simpl; auto with lia.
    + intros _ Hge. rewrite bool_decide_true by done. apply orb_true_r.
    + intros Hb Hne [Ha|Ha%bool_decide_eq_true]%orb_true_iff; [|done].
      specialize (Hall Hb Hne Ha). lia.
Qed.

Lemma inv_unpark p m1 m2 b woke m' :
  (m' = Returned ∧ b = true) ∨ m' = Checking →
  pool_inv size (PW p (m1 ++ Waking woke :: m2) b) →
  pool_inv size (PW (PoolLiveness.unpark p) (m1 ++ m' :: m2) b).
Proof.
  intros Hm'. pool_open.
  assert (Hs : is_serving m' = false ∧ is_parked m' = false ∧ ∀ q, member_ok q b m')
    by (destruct Hm' as [[-> ->] | ->]; done). destruct Hs as (Hs1 & Hs2 & Hs3).
  assert (Hw : member_ok p b (Waking woke)).
  { apply Forall_app in Hmem as [_ Hmem]. by apply Forall_cons in Hmem as [? _]. }
  unfold PoolLiveness.unpark. split; pool_close; rewrite ?Hs1, ?Hs2; cbn [Nat.b2n]; try done; try lia.
  - eapply members_ok_step; [| | | | |exact Hmem]; simpl; auto with lia.
  - intros Hsz Hge. apply Hfired; lia.
  - intros Hb Hne Ha. exfalso. destruct Hw as [_ Hw]. rewrite Hever in Hne.
    apply bool_decide_eq_false in Hne. destruct woke; [lia|congruence].
Qed.

Lemma pool_inv_step w w' : pool_step size w w' → pool_inv size w → pool_inv size w'.
Proof.
  destruct 1.
  - apply inv_stop.
  - apply inv_record.
  - apply inv_up.
  - by apply inv_down_step.
  - by apply inv_park.
  - apply inv_move; by destruct b.
  - apply inv_move; [done|done|]. simpl. intros (? & ? & ?). split; [done|lia].
  - apply inv_move; [done|done|]. simpl. by intros (? & ? & ?).
  - intros Hinv. eapply inv_unpark; [|done].
    destruct woke; [by right|]. destruct Hinv as [_ _ _ _ _ Hmem _ _ _ _ _].
    apply Forall_app in Hmem as [_ [[_ Hw] _]%Forall_cons]. by left.
  - by apply inv_move.
  - by apply inv_move.
Qed.

Lemma pool_inv_reachable w : rtc (pool_step size) (pool_init size) w → pool_inv size w.
Proof. apply rtc_invariant; [apply pool_inv_init|eauto using pool_inv_step]. Qed.
End pool_steps.

(** ** Properties *)

(** A member that can move on by itself, without [stop()]. *)
Definition can_move (p : pool) (m : member) : bool :=
  match m with
  | Parked seen => bool_decide (seen < came_up p)%nat
  | Returned => false
  | _ => true
  end.

Lemma can_move_step size p ms m :
  m ∈ ms → can_move p m = true →
  ∃ w', pool_step size (PW p ms false) w' ∧ pw_stopped w' = false.
Proof.
  intros (m1 & m2 & ->)%list_elem_of_split Hm. destruct m as [| | |seen|woke| | |]; simpl in Hm.
  - eexists. split; [apply step_up|done].
  - destruct (PoolLiveness.park size p) as [r p'] eqn:E.
    eexists. split; [by eapply step_park|done].
  - eexists. split; [by apply (step_down size p m1 m2 false "closed" false)|done].
  - apply bool_decide_eq_true in Hm. eexists. split; [by apply step_wake|done].
  - eexists. split; [apply step_unpark|done].
  - eexists. split; [apply step_check|done].
  - eexists. split; [apply step_rested|done].
  - done.
Qed.

(** the pool's counters are exact at every point of every interleaving:
    [live] counts the members that are serving and [parked] those waiting for a
    sibling (so neither subtraction ever saturates); and no wake-up is lost: while
    any member is serving, every parked one has a change to wake up on. *)
Theorem pool_counters_exact size w :
  rtc (pool_step size) (pool_init size) w →
  live (pw_pool w) = count is_serving (pw_members w) ∧
  parked (pw_pool w) = count is_parked (pw_members w) ∧
  (Serving ∈ pw_members w → ∀ seen, Parked seen ∈ pw_members w → (seen < came_up (pw_pool w))%nat).
Proof.
  intros [_ Hlive Hparked _ _ Hmem _ _ _ _ _]%pool_inv_reachable. split_and!; [done|done|].
  intros Hs seen Hp. rewrite Forall_forall in Hmem. destruct (Hmem _ Hp) as (_ & _ & Hlt).
  apply Hlt. rewrite Hlive. apply list_elem_of_split in Hs as (m1 & m2 & ->).
  rewrite count_mid. simpl. lia.
Qed.

(** until [stop()], consumers see [Established] and [Lost] strictly in turn,
    starting with [Established], and the last one tells whether any pooled
    connection is serving. *)
Theorem pool_events_alternate size w :
  rtc (pool_step size) (pool_init size) w → pw_stopped w = false →
  alternating (events (pw_pool w)) ∧
  (last_is_up (events (pw_pool w)) = true ↔ Serving ∈ pw_members w).
Proof.
  intros [_ Hlive _ _ _ _ _ _ _ Halt _]%pool_inv_reachable Hb.
  destruct (Halt Hb) as [Ha Hl]. split; [done|]. rewrite Hl, bool_decide_eq_true, Hlive.
  split.
  - intros Hc. unfold count in Hc. destruct (List.filter is_serving (pw_members w)) as [|m l] eqn:E; [simpl in Hc; lia|].
    assert (Hin : In m (m :: l)) by (by left). rewrite <-E in Hin.
    apply List.filter_In in Hin as [Hin Hm]. apply list_elem_of_In in Hin. by destruct m.
  - intros (m1 & m2 & ->)%list_elem_of_split. rewrite count_mid. simpl. lia.
Qed.

(** C14: the pool never hangs: as long as nobody stopped it, some member can still
    move on by itself, or the session loop has a reason to end. In particular,
    when every attempt has failed and all members wait for each other, the session
    ends. *)
Theorem pool_never_hangs size w :
  (0 < size)%nat → rtc (pool_step size) (pool_init size) w → pw_stopped w = false →
  (∃ w', pool_step size w w' ∧ pw_stopped w' = false) ∨ (∃ o, session_ends w o).
Proof.
  intros Hsz Hr Hb. pose proof (pool_inv_reachable size w Hr) as
    [Hsize Hlive Hparked Hever Hlup Hmem Hfired Hall Hest Halt Hdown].
  destruct w as [p ms b]. simpl in *. subst b.
  destruct (decide (Exists (λ m, can_move p m = true) ms)) as [Hx|Hx].
  - left. apply Exists_exists in Hx as (m & Hin & Hm). by eapply can_move_step.
  - right. apply not_Exists_Forall in Hx; [|intros; apply _].
    assert (Hpk : Forall (λ m, is_parked m = true) ms).
    { rewrite Forall_forall in *. intros m Hm. specialize (Hx m Hm). specialize (Hmem m Hm).
      destruct m as [| | |?|?| | |]; simpl in *; done || by destruct Hx. }
    exists (if ever_up p then Lost else NeverUp (take_failure p)). apply ends_parked.
    apply Hfired; [done|]. rewrite Hparked.
    assert (Hc : count is_parked ms = length ms).
    { clear -Hpk. induction Hpk as [|m ms Hm _ IH]; [done|]. unfold count in *. simpl.
      by rewrite Hm; simpl; rewrite IH. }
    rewrite Hc, Hsize. done.
Qed.

(** Without a rejection. *)
Lemma unrejected_outcome size w o :
  (0 < size)%nat → rtc (pool_step size) (pool_init size) w → session_ends w o →
  rejected_slot (pw_pool w) = None →
  (o = Lost → Established H2 ∈ events (pw_pool w)) ∧
  (∀ f, o = NeverUp f → Established H2 ∉ events (pw_pool w) ∧
     (pw_stopped w = false → failed (pw_pool w) = Some f)).
Proof.
  intros Hsz Hr He Hrej. pose proof (pool_inv_reachable size w Hr) as
    [Hsize Hlive Hparked Hever Hlup Hmem Hfired Hall Hest Halt Hdown].
  assert (Hcause : ∀ m, m ∈ pw_members w → is_parked m = true → is_Some (failed (pw_pool w))).
  { intros m Hm Hp. rewrite Forall_forall in Hmem. specialize (Hmem m Hm).
    destruct m; try done; destruct Hmem as [[?|[? Hx]] _]; try done; by rewrite Hrej in Hx. }
  assert (Hsome : ∀ f, is_Some (failed (pw_pool w)) → take_failure (pw_pool w) = f →
            failed (pw_pool w) = Some f).
  { unfold take_failure. intros f [f' ->] <-. done. }
  destruct He as [p ms|p ms b r Hrj|p ms b Hd|p ms b Hp|p ms b Hj]; simpl in *;
    try unfold PoolLiveness.ever_up.
  - done.
  - congruence.
  - split; [|done]. intros _. by apply Hest, Hdown.
  - destruct (ever_up p) eqn:Eu; (split; [|intros f]); [intros _; by apply Hest|done|done|].
    intros [= Hf]. split; [by intros ?%Hest|]. intros ->.
    specialize (Hall eq_refl eq_refl Hp). rewrite Hparked in Hall.
    pose proof (count_le is_parked ms). apply Hsome; [|done].
    destruct (count_full is_parked ms ltac:(lia)) as [|m ms Hm _]; [simpl in *; lia|].
    eapply Hcause; [|done]. by left.
  - destruct (ever_up p) eqn:Eu; (split; [|intros f]); [intros _; by apply Hest|done|done|].
    intros [= Hf]. split; [by intros ?%Hest|]. intros ->. exfalso.
    destruct ms as [|m ms]; [simpl in *; lia|].
    apply Forall_cons in Hj as [<- _], Hmem as [Hm _]. done.
Qed.

(** C15: the outcome the retry budget sees is truthful. A pool session that ends as
    [Stopped] was stopped; one that ends as [Lost] did carry traffic ([Established] was
    reported); one that ends as [NeverUp] did not, and then, unless stopped, it reports a
    failure that one of its members recorded. The one exception is a rejection by the
    relay, which ends the session as [NeverUp] also when a sibling had been up. *)
Theorem pool_outcome_truthful size w o :
  (0 < size)%nat → rtc (pool_step size) (pool_init size) w → session_ends w o →
  match o with
  | Stopped => pw_stopped w = true
  | Lost => Established H2 ∈ events (pw_pool w)
  | NeverUp f =>
      is_Some (rejected_slot (pw_pool w)) ∨
      Established H2 ∉ events (pw_pool w) ∧ (pw_stopped w = false → failed (pw_pool w) = Some f)
  end.
Proof.
  intros Hsz Hr He. destruct (rejected_slot (pw_pool w)) as [r|] eqn:Hrej.
  { pose proof (pool_inv_reachable size w Hr) as [_ _ _ _ _ _ _ _ Hest _ Hdown].
    destruct He as [p ms|p ms b r' Hrj|p ms b Hd|p ms b Hp|p ms b Hj]; simpl in *; eauto;
      try (by apply Hest, Hdown); unfold PoolLiveness.ever_up; destruct (ever_up p); eauto;
      by apply Hest. }
  pose proof (unrejected_outcome size w o Hsz Hr He Hrej). destruct o; [|tauto|right; naive_solver].
  by inversion He; repeat case_match.
Qed.

(** ** Concrete runs *)

(** Two members: the first fails and parks, the second comes up. *)
Definition refused : attempt_error := AttemptError (Failure "refused" None).
Definition one_up : pool_world :=
  PW (PoolLiveness.up (PoolLiveness.park 2 (record_failure pool_new refused)).2)
     [Parked 0; Serving] false.

Lemma one_up_reachable : rtc (pool_step 2) (pool_init 2) one_up.
Proof.
  eapply rtc_l; [apply (step_attempt_fails 2 pool_new [] [Attempting] false refused)|].
  eapply rtc_l; [by eapply (step_park 2 _ _ [] [Attempting] false)|].
  eapply rtc_l; [apply (step_up 2 _ [Parked 0] [] false)|]. apply rtc_refl.
Qed.

(** A pool of one whose only attempt failed. *)
Definition none_up : pool_world :=
  PW (PoolLiveness.park 1 (record_failure pool_new refused)).2 [Parked 0] false.

Lemma none_up_reachable : rtc (pool_step 1) (pool_init 1) none_up.
Proof.
  eapply rtc_l; [apply (step_attempt_fails 1 pool_new [] [] false refused)|].
  eapply rtc_l; [by eapply (step_park 1 _ _ [] [] false)|]. apply rtc_refl.
Qed.

Lemma pool_counters_exact_witness : (0 < came_up (pw_pool one_up))%nat.
Proof.
  refine (proj2 (proj2 (pool_counters_exact 2 one_up one_up_reachable)) _ 0%nat _).
  - right. left.
  - left.
Defined.

Lemma pool_events_alternate_witness :
  alternating (events (pw_pool one_up)) ∧
  (last_is_up (events (pw_pool one_up)) = true ↔ Serving ∈ pw_members one_up).
Proof. exact (pool_events_alternate 2 one_up one_up_reachable eq_refl). Defined.

Lemma pool_never_hangs_witness :
  (∃ w', pool_step 1 none_up w' ∧ pw_stopped w' = false) ∨ (∃ o, session_ends none_up o).
Proof. exact (pool_never_hangs 1 none_up ltac:(lia) none_up_reachable eq_refl). Defined.

(** A pool of two: one member is up when the relay rejects the other. *)
Definition up_then_rejected : pool_world :=
  PW (record_failure (PoolLiveness.up pool_new) (AttemptRejected "unauthorized")) [Serving; Failed] false.

Lemma up_then_rejected_reachable : rtc (pool_step 2) (pool_init 2) up_then_rejected.
Proof.
  eapply rtc_l; [apply (step_up 2 pool_new [] [Attempting] false)|].
  eapply rtc_l; [apply (step_attempt_fails 2 _ [Serving] [] false (AttemptRejected "unauthorized"))|].
  apply rtc_refl.
Qed.

(** Its session ends as [NeverUp] although it carried traffic. *)
Lemma never_up_after_traffic :
  rtc (pool_step 2) (pool_init 2) up_then_rejected ∧
  session_ends up_then_rejected (NeverUp (Failure "no pooled connection came up" None)) ∧
  Established H2 ∈ events (pw_pool up_then_rejected).
Proof.
  split; [apply up_then_rejected_reachable|]. split; [|by left].
  exact (ends_rejected (pw_pool up_then_rejected) [Serving; Failed] false "unauthorized" eq_refl).
Qed.

Lemma pool_outcome_truthful_witness :
  is_Some (rejected_slot (pw_pool none_up)) ∨
  Established H2 ∉ events (pw_pool none_up) ∧
  (pw_stopped none_up = false → failed (pw_pool none_up) = Some (Failure "refused" None)).
Proof.
  refine (pool_outcome_truthful 1 none_up (NeverUp (Failure "refused" None)) ltac:(lia) none_up_reachable _).
  exact (ends_parked (pw_pool none_up) [Parked 0] false eq_refl).
Defined.
