(* ===== verification/AcmeOrder.v ===== *)
(** * AcmeOrder.v: tunnel-common/src/acme.rs

    [finalize_order]: waits for an ACME order to become ready, submits the CSR and
    downloads the certificate. The ACME server and the clock are the environment of
    the [acme] interface. *)

From S2P Require Import Prelude Async.
Open Scope string_scope.
Open Scope Z_scope.
Open Scope list_scope.
Open Scope tunnel_scope.

Definition ORDER_READY_ROUNDS : nat := 12.
Definition CERT_POLL_ROUNDS : nat := 30.
Definition CERT_POLL_INTERVAL : Z := from_secs 2.
Definition READY_DELAY_MAX : Z := from_secs 15.

Inductive OrderStatus := Ready | Valid | Invalid | Undecided.

Inductive acme_op :=
| ASleep (d : Z)
| ARefresh                          (** [order.refresh()] *)
| AAuthorizations                   (** [order.authorizations()] read to its end, and [order.state().error] *)
| AFinalizeCsr (csr : bytes)
| ACertificate.                     (** [order.certificate()] *)

Definition acme_ans (o : acme_op) : Type :=
  match o with
  | ASleep _ => unit
  | ARefresh => option OrderStatus  (** [None]: the request failed *)
  | AAuthorizations => list (option (list (option string))) * option string
  | AFinalizeCsr _ => bool
  | ACertificate => option (option string)
  end.

Definition acme : iface := Iface acme_op acme_ans (λ _, true).

Inductive order_error :=
| OrderRequest                      (** an ACME request failed *)
| OrderInvalid (reason : string)
| NeverReady
| NotIssued.

(** [invalid_reason]: the authorizations in order, each with its challenges' errors
    ([None]: fetching it failed, which ends the loop), and the order's own error. *)
Fixpoint invalid_reason (authzs : list (option (list (option string)))) (order_error : option string)
    : string :=
  match authzs with
  | Some challenges :: rest =>
      match omap id challenges with
      | problem :: _ => problem
      | [] => invalid_reason rest order_error
      end
  | None :: _ | [] => match order_error with Some problem => problem | None => "no reason given" end
  end.

(** The readiness poll, [rounds] left. *)
Fixpoint poll_ready (rounds : nat) (delay : Z) : prog acme (result order_error bool) :=
  match rounds with
  | O => Ret (Ok false)
  | S n =>
      call (I := acme) (ASleep delay) ;;!
      s <-! call (I := acme) ARefresh ;;
      match (s : option OrderStatus) with
      | None => Ret (Err OrderRequest)
      | Some Ready | Some Valid => Ret (Ok true)
      | Some Invalid =>
          a <-! call (I := acme) AAuthorizations ;;
          let '(authzs, err) := (a : list (option (list (option string))) * option string) in
          Ret (Err (OrderInvalid (invalid_reason authzs err)))
      | Some Undecided => poll_ready n (Z.min (saturating_mul delay 2) READY_DELAY_MAX)
      end
  end.

(** The download poll, [rounds] left. *)
Fixpoint poll_cert (rounds : nat) : prog acme (result order_error string) :=
  match rounds with
  | O => Ret (Err NotIssued)
  | S n =>
      call (I := acme) (ASleep CERT_POLL_INTERVAL) ;;!
      c <-! call (I := acme) ACertificate ;;
      match (c : option (option string)) with
      | None => Ret (Err OrderRequest)
      | Some (Some pem) => Ret (Ok pem)
      | Some None => poll_cert n
      end
  end.

Definition finalize_order (csr_der : bytes) : prog acme (result order_error string) :=
  ready <-! poll_ready ORDER_READY_ROUNDS (from_secs 2) ;;
  match ready with
  | Err e => Ret (Err e)
  | Ok false => Ret (Err NeverReady)
  | Ok true =>
      ok <-! call (I := acme) (AFinalizeCsr csr_der) ;;
      if negb (ok : bool) then Ret (Err OrderRequest)
      else poll_cert CERT_POLL_ROUNDS
  end.

Definition aslept (e : event acme) : Z := match ev_op e with ASleep d => d | _ => 0 end.
Definition time_slept (tr : trace acme) : Z := foldr (λ e z, aslept e + z) 0 tr.
(** The requests that drive the order: refresh, finalize, download. *)
Definition drives (o : acme_op) : bool :=
  match o with ARefresh | AFinalizeCsr _ | ACertificate => true | _ => false end.
Definition requests (tr : trace acme) : nat :=
  length (List.filter (λ e : event acme, drives (ev_op e)) tr).

Lemma time_slept_app tr tr' : time_slept (tr ++ tr') = time_slept tr + time_slept tr'.
Proof. unfold time_slept. induction tr as [|e tr IH]; simpl; [done|]. rewrite IH. lia. Qed.
Lemma time_slept_cons e tr : time_slept (e :: tr) = aslept e + time_slept tr.
Proof. done. Qed.
Lemma requests_app tr tr' : requests (tr ++ tr') = (requests tr + requests tr')%nat.
Proof. unfold requests. by rewrite List.filter_app, length_app. Qed.
Lemma requests_cons e tr :
  requests (e :: tr) =
  ((if drives (ev_op e) then 1 else 0) + requests tr)%nat.
Proof. unfold requests. simpl. by destruct (drives (ev_op e)). Qed.

(** Counts the requests and waits of a concrete trace prefix. *)
Ltac acme_count :=
  rewrite ?requests_app, ?requests_cons, ?time_slept_app, ?time_slept_cons;
  cbn [ev_op aslept drives];
  change (requests []) with 0%nat; change (time_slept []) with 0.

(** The time [n] readiness rounds take when none decides. *)
Fixpoint ready_budget (n : nat) (delay : Z) : Z :=
  match n with
  | O => 0
  | S n => delay + ready_budget n (Z.min (delay * 2) READY_DELAY_MAX)
  end.

Lemma ready_budget_nonneg n d : 0 ≤ d → 0 ≤ ready_budget n d.
Proof.
  revert d. induction n as [|n IH]; intros d Hd; simpl; [lia|].
  specialize (IH (Z.min (d * 2) READY_DELAY_MAX)). unfold READY_DELAY_MAX, from_secs, NANOS_PER_SEC in *. lia.
Qed.

Lemma poll_ready_post n d :
  0 ≤ d →
  wp (poll_ready n d) (λ tr r,
    (requests tr ≤ n)%nat ∧ time_slept tr ≤ ready_budget n d ∧
    (r = Ok false → time_slept tr = ready_budget n d) ∧
    (r = Ok true → Event (I := acme) ARefresh (Some Ready) ∈ tr ∨
                   Event (I := acme) ARefresh (Some Valid) ∈ tr)).
Proof.
  revert d. induction n as [|n IH]; intros d Hd.
  { cbn [poll_ready wp ready_budget]. acme_count. split_and!; (done || lia). }
  pose proof (ready_budget_nonneg n (Z.min (d * 2) READY_DELAY_MAX)) as Hb.
  cbn [poll_ready ready_budget]. rewrite saturating_mul_min by (vm_compute; discriminate).
  assert (Hm : 0 ≤ Z.min (d * 2) READY_DELAY_MAX)
    by (unfold READY_DELAY_MAX, from_secs, NANOS_PER_SEC; lia).
  specialize (Hb Hm). intros []. cbn [prog_bind]. intros [[]|]; cbn [prog_bind wp].
  - acme_count. split_and!; [lia|lia|done|]. intros _. left. set_solver.
  - acme_count. split_and!; [lia|lia|done|]. intros _. right. set_solver.
  - intros [authzs err]. cbn [prog_bind wp]. acme_count. split_and!; (done || lia).
  - eapply wp_mono; [|by apply IH]. intros tr r (H1 & H2 & H3 & H4). acme_count.
    split_and!; [lia|lia|intros Hr; specialize (H3 Hr); lia|].
    intros Hr. destruct (H4 Hr); [left|right]; set_solver.
  - acme_count. split_and!; (done || lia).
Qed.

Lemma poll_cert_post n :
  wp (poll_cert n) (λ tr r,
    (requests tr ≤ n)%nat ∧ time_slept tr ≤ CERT_POLL_INTERVAL * Z.of_nat n ∧
    (∀ pem, r = Ok pem → Event (I := acme) ACertificate (Some (Some pem)) ∈ tr)).
Proof.
  assert (Hi : 0 ≤ CERT_POLL_INTERVAL) by (vm_compute; discriminate).
  induction n as [|n IH]; [cbn [poll_cert wp]; acme_count; split_and!; (done || lia)|].
  cbn [poll_cert]. intros []. cbn [prog_bind]. intros [[pem|]|]; cbn [prog_bind wp].
  - acme_count. split_and!; [lia|nia|]. intros ? [= <-]. set_solver.
  - eapply wp_mono; [|exact IH]. intros tr r (H1 & H2 & H3). acme_count.
    split_and!; [lia|nia|]. intros pem Hp. specialize (H3 pem Hp). set_solver.
  - acme_count. split_and!; (done || lia || nia).
Qed.

Lemma finalize_order_wp csr :
  wp (finalize_order csr) (λ tr r,
    (requests tr ≤ 43)%nat ∧ time_slept tr ≤ from_secs 209 ∧
    ∀ pem, r = Ok pem →
      (Event (I := acme) ARefresh (Some Ready) ∈ tr ∨ Event (I := acme) ARefresh (Some Valid) ∈ tr) ∧
      Event (I := acme) (AFinalizeCsr csr) true ∈ tr ∧
      Event (I := acme) ACertificate (Some (Some pem)) ∈ tr).
Proof.
  unfold finalize_order. rewrite wp_bind.
  assert (Hb : ready_budget ORDER_READY_ROUNDS (from_secs 2) = from_secs 149) by (vm_compute; reflexivity).
  eapply wp_mono; [|apply poll_ready_post; vm_compute; discriminate].
  intros tr1 ready (H1 & H2 & _ & H4). rewrite Hb in H2.
  unfold ORDER_READY_ROUNDS, from_secs, NANOS_PER_SEC in *.
  destruct ready as [[|]|e]; cbn [wp]; [|rewrite app_nil_r; split_and!; (done || lia)..].
  intros [|]; cbn [prog_bind negb wp].
  - eapply wp_mono; [|apply poll_cert_post]. intros tr2 r (H5 & H6 & H7).
    unfold CERT_POLL_ROUNDS, CERT_POLL_INTERVAL, from_secs, NANOS_PER_SEC in *. acme_count.
    split_and!; [lia|lia|]. intros pem Hp. specialize (H7 pem Hp). set_solver.
  - acme_count. split_and!; [lia|lia|done].
Qed.

Lemma finalize_order_post csr :
  wp (finalize_order csr) (λ tr r, ∀ pem, r = Ok pem →
    (Event (I := acme) ARefresh (Some Ready) ∈ tr ∨ Event (I := acme) ARefresh (Some Valid) ∈ tr) ∧
    Event (I := acme) (AFinalizeCsr csr) true ∈ tr ∧
    Event (I := acme) ACertificate (Some (Some pem)) ∈ tr).
Proof. eapply wp_mono; [|apply finalize_order_wp]. by intros tr r (_ & _ & ?). Qed.

(** C26: finalizing an ACME order always ends: after at most 43 requests driving the order and 209 s of
    waiting, whatever the server answers; and it returns a certificate only when the
    order became ready, the CSR was accepted and the server handed that certificate
    out. *)
Theorem finalize_order_bounded csr tr r :
  runs (finalize_order csr) tr r →
  (requests tr ≤ 43)%nat ∧ time_slept tr ≤ from_secs 209 ∧
  ∀ pem, r = Ok pem →
    (Event (I := acme) ARefresh (Some Ready) ∈ tr ∨ Event (I := acme) ARefresh (Some Valid) ∈ tr) ∧
    Event (I := acme) (AFinalizeCsr csr) true ∈ tr ∧
    Event (I := acme) ACertificate (Some (Some pem)) ∈ tr.
Proof. revert tr r. apply runs_wp, finalize_order_wp. Qed.

Lemma finalize_order_bounded_witness :
  ∃ tr, runs (finalize_order [x01]) tr (Ok "PEM") ∧
    Event (I := acme) (AFinalizeCsr [x01]) true ∈ tr.
Proof.
  assert (Hr : runs (finalize_order [x01])
    [Event (I := acme) (ASleep (from_secs 2)) tt; Event (I := acme) ARefresh (Some Ready);
     Event (I := acme) (AFinalizeCsr [x01]) true;
     Event (I := acme) (ASleep (from_secs 2)) tt; Event (I := acme) ACertificate (Some (Some "PEM"))]
    (Ok "PEM")).
  { cbn. repeat (eexists; eexists; split; [reflexivity|]; cbn). done. }
  eexists. split; [exact Hr|].
  exact (proj1 (proj2 (proj2 (proj2 (finalize_order_bounded [x01] _ _ Hr)) "PEM" eq_refl))).
Defined.
