(* ===== verification/CertProvisioner.v ===== *)
(** * CertProvisioner.v: tunnel-client/src/acme.rs

    The client's certificate provisioning: which certificates may be seeded, when
    a certificate is due, and the leader/follower coordination of the concurrent
    [prepare]/[finalize] callers over the shared [cache] and [in_flight] maps.

    A caller is a task with a program counter ([pc]); [advance] executes one lock
    acquisition or channel operation of it, taking from [input] what the clock and
    the ACME server answer, so an execution interleaves the callers at exactly the
    points where the maps and channels are touched. A future dropped at an
    [.await] is the input [Cancelled]. *)

From S2P Require Import Prelude RustStr.
Open Scope string_scope.
Open Scope Z_scope.
Open Scope list_scope.
Open Scope tunnel_scope.

(** ** Certificates

    rustls_pemfile, x509-parser, p256 and the [time] crate are other crates'
    code. *)

Record Leaf := MkLeaf {
  dns_names : list string;          (** the [DNSName]s of the subjectAltName *)
  leaf_key : bytes;
  not_before : Z;                   (** seconds since the epoch, [i64] *)
  not_after : Z;
}.

Class Pem := {
  first_cert : string → option bytes;     (** [rustls_pemfile::certs(pem).next()] *)
  parse_leaf : bytes → option Leaf;       (** [parse_x509_certificate] *)
  sec1_point : bytes → option bytes;      (** [VerifyingKey::from_sec1_bytes], as its canonical encoding *)
}.

(** The two clocks: [SystemTime] in seconds since the epoch, [Instant] in
    nanoseconds since the process started. *)
Record Now := MkNow { unix_secs : Z; instant : Z }.

Definition DEFAULT_RENEW_AFTER : Z := from_secs (60 * 24 * 3600).

Section leaf.
Context `{Pem}.

Definition renew_at (now : Now) (pem : string) : option Z :=
  der ← first_cert pem;
  cert ← parse_leaf der;
  let due := not_after cert - (not_after cert - not_before cert) `quot` 3 in
  Some (instant now + from_secs (Z.max (due - unix_secs now) 0)).

Definition same_public_key (a b : bytes) : bool :=
  match sec1_point a, sec1_point b with
  | Some p, Some q => bool_decide (p = q)
  | _, _ => bool_decide (a = b)
  end.

Inductive mismatch := NoCertificate | Unparseable | OtherName | OtherKey.

Definition seed_mismatch (domain : string) (public_key : bytes) (pem : string) : option mismatch :=
  match first_cert pem with
  | None => Some NoCertificate
  | Some der =>
      match parse_leaf der with
      | None => Some Unparseable
      | Some cert =>
          if negb (existsb (λ d, eq_ignore_ascii_case d domain) (dns_names cert)) then Some OtherName
          else if negb (same_public_key (leaf_key cert) public_key) then Some OtherKey
          else None
      end
  end.
End leaf.

(** ** Rate limits *)

Definition RATE_LIMITED : string := "urn:ietf:params:acme:error:rateLimited".

(** [s.get(..n)]: [None] past the end or inside a character. *)
Definition get_to (n : nat) (s : string) : option string :=
  let b := as_bytes s in
  if (length b <? n)%nat then None
  else match b !! n with
       | Some c => if utf8_cont c then None else Some (of_bytes (take n b))
       | None => Some s
       end.

(** One link of an [anyhow::Error]'s chain. *)
Inductive chain_link := Api (type detail : option string) | OtherError.

Section rate_limit.
(** [PrimitiveDateTime::parse] with the fixed format, read as UTC. *)
Context (parse_utc : string → option Z).

Definition retry_after_in (detail : string) : option Z :=
  '(_, rest) ← split_once_str "retry after " detail;
  get_to 23 rest ≫= parse_utc.

Definition rate_limited_until (chain : list chain_link) : option Z :=
  '(type, detail) ← head (omap (λ l, match l with Api t d => Some (t, d) | OtherError => None end) chain);
  if bool_decide (type = Some RATE_LIMITED) then detail ≫= retry_after_in else None.

(** Other problems never delay a retry, whatever their text says. *)
Lemma other_problem_not_rate_limited t d chain :
  t ≠ Some RATE_LIMITED → rate_limited_until (Api t d :: chain) = None.
Proof. intros Ht. unfold rate_limited_until. cbn. by rewrite bool_decide_false. Qed.
End rate_limit.

(** ** Shared state *)

(** A [tokio::sync::watch] channel: the value, how often it was sent and whether
    the sender is alive. Every receiver of the model was created with the channel
    and has seen nothing. *)
Record watch := Watch { w_val : option string; w_version : nat; w_open : bool }.

Module Watch.
Definition channel : watch := Watch None 0 true.
Definition send (v : string) (w : watch) : watch := Watch (Some v) (S (w_version w)) (w_open w).
Definition drop_tx (w : watch) : watch := Watch (w_val w) (w_version w) false.
(** [rx.has_changed().is_err()]. *)
Definition closed (w : watch) : bool := negb (w_open w).
(** [rx.changed()]: [None] is pending, [Some true] is [Ok]. *)
Definition changed (w : watch) : option bool :=
  if (0 <? w_version w)%nat then Some true
  else if w_open w then None else Some false.
End Watch.

Record CacheEntry := MkCache { cert_pem : string; cache_renew_at : Z }.
(** An entry is shared by the map and by every caller that cloned its receivers:
    callers hold its index in [entries]. *)
Record InFlightEntry := MkEntry { if_domain : string; key_auth : watch; cert : watch }.

Record provisioner := MkProv {
  cache : gmap string CacheEntry;
  in_flight : gmap string nat;
  entries : list InFlightEntry;
  issued : list (string * string);  (** the calls of [on_cert_issued], with the domain *)
  seeded : list (string * string);  (** the certificates [seed] accepted *)
}.

Definition new : provisioner := MkProv ∅ ∅ [] [] [].

Definition remove (d : string) (s : provisioner) : provisioner :=
  MkProv (cache s) (delete d (in_flight s)) (entries s) (issued s) (seeded s).
Definition cache_insert (d : string) (c : CacheEntry) (s : provisioner) : provisioner :=
  MkProv (<[d := c]> (cache s)) (in_flight s) (entries s) (issued s) (seeded s).
Definition on_entry (f : InFlightEntry → InFlightEntry) (e : nat) (s : provisioner) : provisioner :=
  MkProv (cache s) (in_flight s) (alter f e (entries s)) (issued s) (seeded s).
Definition on_key_auth (f : watch → watch) (x : InFlightEntry) : InFlightEntry :=
  MkEntry (if_domain x) (f (key_auth x)) (cert x).
Definition on_cert (f : watch → watch) (x : InFlightEntry) : InFlightEntry :=
  MkEntry (if_domain x) (key_auth x) (f (cert x)).

(** [seed]. *)
Definition seed `{Pem} (now : Now) (d : string) (public_key : bytes) (pem : string)
    (s : provisioner) : provisioner :=
  match seed_mismatch d public_key pem with
  | Some _ => s
  | None =>
      match renew_at now pem with
      | Some t =>
          if instant now <? t then
            let s := cache_insert d (MkCache pem t) s in
            MkProv (cache s) (in_flight s) (entries s) (issued s) ((d, pem) :: seeded s)
          else s
      | None => s
      end
  end.

(** ** The ACME order's authorizations *)

(** An authorization as fetched: its status and its TLS-ALPN-01 challenge. *)
Record Authorization := MkAuthz {
  authz_valid : bool;
  tls_alpn_01 : option (string * string);   (** key authorization, url *)
}.

(** The loop of [prepare]'s setup, with the values found so far; [None] elements
    are failed requests, a [None] result is the error. *)
Fixpoint order_challenge (authzs : list (option Authorization)) (key_authorization url : string)
    : option (string * string) :=
  match authzs with
  | [] => Some (key_authorization, url)
  | None :: _ => None
  | Some a :: rest =>
      if authz_valid a then order_challenge rest key_authorization url
      else match tls_alpn_01 a with
           | None => None
           | Some (k, u) => order_challenge rest k u
           end
  end.

(** Authorizations the server still holds valid contribute nothing. *)
Lemma order_challenge_valid authzs ka url :
  Forall (λ a, ∃ x, a = Some x ∧ authz_valid x = true) authzs →
  order_challenge authzs ka url = Some (ka, url).
Proof. intros Hv. induction Hv as [|a l (x & -> & Hx) _ IH]; cbn; [done|]. by rewrite Hx. Qed.

(** The loop of [finalize]: whether it ends without an error, [set_ready_ok] being
    the answer to the one [set_ready] request it can make. *)
Fixpoint signal_ready (authzs : list (option Authorization)) (set_ready_ok : bool) : bool :=
  match authzs with
  | [] => true
  | None :: _ => false
  | Some a :: rest =>
      if authz_valid a then signal_ready rest set_ready_ok
      else match tls_alpn_01 a with
           | Some _ => set_ready_ok
           | None => signal_ready rest set_ready_ok
           end
  end.

(** ** Callers *)

Inductive pc :=
| Lookup                              (** the cache probe at the top of [prepare]'s loop *)
| Probe                               (** [in_flight.get(domain)] *)
| Existing (e : nat)                  (** [cert_rx.has_changed()] *)
| Peek (e : nat)                      (** [key_auth_rx.borrow()] *)
| WaitKeyAuth (e : nat)               (** [key_auth_rx.changed().await] *)
| Stale                               (** [in_flight.remove(domain)] before a retry *)
| Claim                               (** the insert under the lock *)
| Setup (e : nat)                     (** the order, at the ACME server *)
| SetupFailed (e : nat)               (** [in_flight.remove(domain)] after it *)
| SetupDrop (e : nat)                 (** dropping both senders *)
| Leader (e : nat) (ka url : string)  (** [prepare] returned; up to [finalize_order]'s result *)
| Store (e : nat) (pem : string)      (** [finalize]: the cache *)
| Broadcast (e : nat) (pem : string)  (** [finalize]: the followers *)
| Unregister (e : nat) (r : option string)   (** [finalize]: [in_flight.remove(domain)] *)
| Release (e : nat) (r : option string)      (** [pending] dropped *)
| Follower (e : nat) (ka : string)    (** awaiting [cert_rx.changed()] *)
| Done (r : option string).           (** the certificate, or an error *)

Record task := MkTask { t_domain : string; t_pc : pc }.

(** What the environment answers to the caller's next operation. *)
Inductive input :=
| Go
| At (now : Now)
| OrderSetup (r : option (list (option Authorization)))  (** [None]: no account or no order *)
| OrderEnd (authzs : list (option Authorization)) (set_ready_ok : bool) (r : option string)
    (** the authorizations of [finalize] and [finalize_order]'s result *)
| Cancelled.

(** The entry whose senders the caller holds. *)
Definition owns (p : pc) : option nat :=
  match p with
  | Setup e | SetupFailed e | SetupDrop e | Leader e _ _ | Store e _ | Broadcast e _
  | Unregister e _ | Release e _ => Some e
  | _ => None
  end.

(** The callers suspended at an [.await]; the others are between two of them. *)
Definition suspended (p : pc) : bool :=
  match p with
  | Existing _ | Peek _ | SetupDrop _ | Broadcast _ _ | Release _ _ | Done _ => false
  | _ => true
  end.

(** The senders dropped with the caller. *)
Definition drop_senders (p : pc) (s : provisioner) : provisioner :=
  match owns p with
  | Some e => on_entry (on_key_auth Watch.drop_tx ∘ on_cert Watch.drop_tx) e s
  | None => s
  end.

Section advance.
Context `{Pem}.

(** [prepare]'s loop, one operation. [None]: the operation is pending, or the
    input does not answer it. *)
Definition prepare_step (d : string) (i : input) (s : provisioner) (p : pc)
    : option (provisioner * pc) :=
  match p, i with
  | Lookup, At now =>
      match cache s !! d with
      | Some c => if instant now <? cache_renew_at c then Some (s, Done (Some (cert_pem c)))
                  else Some (s, Probe)
      | None => Some (s, Probe)
      end
  | Probe, Go =>
      match in_flight s !! d with
      | Some e => Some (s, Existing e)
      | None => Some (s, Claim)
      end
  | Existing e, Go =>
      x ← entries s !! e;
      Some (s, if Watch.closed (cert x) then Stale else Peek e)
  | Peek e, Go =>
      x ← entries s !! e;
      Some (s, match w_val (key_auth x) with
               | Some ka => Follower e ka
               | None => WaitKeyAuth e
               end)
  | WaitKeyAuth e, Go =>
      x ← entries s !! e;
      r ← Watch.changed (key_auth x);
      Some (s, if (r : bool) then
                 match w_val (key_auth x) with Some ka => Follower e ka | None => Stale end
               else Stale)
  | Stale, Go => Some (remove d s, Lookup)
  | Claim, Go =>
      match in_flight s !! d with
      | Some _ => Some (s, Lookup)
      | None =>
          let e := length (entries s) in
          Some (MkProv (cache s) (<[d := e]> (in_flight s))
                  (entries s ++ [MkEntry d Watch.channel Watch.channel]) (issued s) (seeded s),
                Setup e)
      end
  | Setup e, OrderSetup r =>
      match authzs ← r; order_challenge authzs "" "" with
      | Some (ka, url) =>
          (* published, then [key_auth_tx] goes out of scope *)
          Some (on_entry (on_key_auth (Watch.drop_tx ∘ Watch.send ka)) e s, Leader e ka url)
      | None => Some (s, SetupFailed e)
      end
  | SetupFailed e, Go => Some (remove d s, SetupDrop e)
  | SetupDrop e, Go => Some (drop_senders (SetupDrop e) s, Done None)
  | _, _ => None
  end.

(** [finalize], one operation. *)
Definition finalize_step (d : string) (i : input) (s : provisioner) (p : pc)
    : option (provisioner * pc) :=
  match p, i with
  | Leader e ka url, OrderEnd authzs set_ready_ok r =>
      if bool_decide (url = "") || signal_ready authzs set_ready_ok then
        match r with
        | Some pem =>
            Some (MkProv (cache s) (in_flight s) (entries s) ((d, pem) :: issued s) (seeded s),
                  Store e pem)
        | None => Some (s, Unregister e None)
        end
      else Some (s, Unregister e None)
  | Store e pem, At now =>
      let t := default (instant now + DEFAULT_RENEW_AFTER) (renew_at now pem) in
      Some (cache_insert d (MkCache pem t) s, Broadcast e pem)
  | Broadcast e pem, Go => Some (on_entry (on_cert (Watch.send pem)) e s, Unregister e (Some pem))
  | Unregister e r, Go => Some (remove d s, Release e r)
  | Release e r, Go => Some (drop_senders (Release e r) s, Done r)
  | _, _ => None
  end.

(** The follower's wait for the leader's certificate (client.rs). *)
Definition follower_step (i : input) (s : provisioner) (p : pc) : option (provisioner * pc) :=
  match p, i with
  | Follower e ka, Go =>
      x ← entries s !! e;
      r ← Watch.changed (cert x);
      Some (s, Done (if (r : bool) then w_val (cert x) else None))
  | _, _ => None
  end.

Definition advance (d : string) (i : input) (s : provisioner) (p : pc)
    : option (provisioner * pc) :=
  match i with
  | Cancelled => if suspended p then Some (drop_senders p s, Done None) else None
  | _ =>
      match p with
      | Leader _ _ _ | Store _ _ | Broadcast _ _ | Unregister _ _ | Release _ _ =>
          finalize_step d i s p
      | Follower _ _ => follower_step i s p
      | _ => prepare_step d i s p
      end
  end.

(** ** The system: one provisioner, any number of callers *)

Record system := MkSys { shared : provisioner; tasks : list task }.
Definition boot : system := MkSys new [].

#[export] Instance pc_eq_dec : EqDecision pc.
Proof. solve_decision. Defined.

Inductive prov_event :=
| Spawn (d : string)                  (** a connection calls [prepare(d)] *)
| Seed (now : Now) (d : string) (public_key : bytes) (pem : string)
| Step (t : nat) (i : input).

Definition apply (ev : prov_event) (y : system) : option system :=
  match ev with
  | Spawn d => Some (MkSys (shared y) (tasks y ++ [MkTask d Lookup]))
  | Seed now d k pem => Some (MkSys (seed now d k pem (shared y)) (tasks y))
  | Step t i =>
      x ← tasks y !! t;
      '(s', p') ← advance (t_domain x) i (shared y) (t_pc x);
      Some (MkSys s' (<[t := MkTask (t_domain x) p']> (tasks y)))
  end.

Fixpoint execute (evs : list prov_event) (y : system) : option system :=
  match evs with
  | [] => Some y
  | ev :: evs => apply ev y ≫= execute evs
  end.

Definition sys_step (y y' : system) : Prop := ∃ ev, apply ev y = Some y'.
Definition reachable (y : system) : Prop := rtc sys_step boot y.

(** The step by which a caller deletes the map entry it found stale. *)
Definition removes_stale (ev : prov_event) (y : system) : bool :=
  match ev with
  | Step t Go => bool_decide (t_pc <$> tasks y !! t = Some Stale)
  | _ => false
  end.
Definition calm_step (y y' : system) : Prop :=
  ∃ ev, apply ev y = Some y' ∧ removes_stale ev y = false.

Fixpoint calm (evs : list prov_event) (y : system) : bool :=
  match evs with
  | [] => true
  | ev :: evs =>
      negb (removes_stale ev y) &&
      match apply ev y with Some y' => calm evs y' | None => true end
  end.
End advance.

(** ** Invariant *)

(** A certificate that this process obtained for [d], or was given at start. *)
Definition genuine (s : provisioner) (d pem : string) : Prop :=
  (d, pem) ∈ issued s ∨ (d, pem) ∈ seeded s.

(** A channel carries a value exactly when it was sent. *)
Definition watch_ok (w : watch) : Prop :=
  match w_val w with Some _ => (0 < w_version w)%nat | None => w_version w = 0%nat end.

Record entry_ok (s : provisioner) (x : InFlightEntry) : Prop := {
  eo_key_auth : watch_ok (key_auth x);
  eo_cert : watch_ok (cert x);
  (* an unpublished key authorization and the certificate have one owner *)
  eo_open : w_val (key_auth x) = None → w_open (key_auth x) = w_open (cert x);
  eo_issued pem : w_val (cert x) = Some pem → (if_domain x, pem) ∈ issued s;
}.

(** What the holder of an entry's senders knows of it. *)
Definition owner_view (p : pc) (x : InFlightEntry) : Prop :=
  w_open (cert x) = true ∧
  match p with
  | Setup _ | SetupFailed _ | SetupDrop _ => x = MkEntry (if_domain x) Watch.channel Watch.channel
  | Leader _ ka _ => w_val (key_auth x) = Some ka
  | _ => is_Some (w_val (key_auth x))
  end.

(** The entry a caller waits for. *)
Definition watches (p : pc) : option nat :=
  match p with
  | Existing e | Peek e | WaitKeyAuth e | Follower e _ => Some e
  | _ => None
  end.

(** The certificate a caller has in hand. *)
Definition holds (p : pc) : option string :=
  match p with
  | Store _ pem | Broadcast _ pem => Some pem
  | Unregister _ r | Release _ r | Done r => r
  | _ => None
  end.

Record task_ok (s : provisioner) (d : string) (p : pc) : Prop := {
  tk_owns e : owns p = Some e →
    ∃ x, entries s !! e = Some x ∧ if_domain x = d ∧ owner_view p x;
  tk_watches e : watches p = Some e →
    ∃ x, entries s !! e = Some x ∧ if_domain x = d ∧
         ∀ ka, p = Follower e ka → w_val (key_auth x) = Some ka;
  tk_holds pem : holds p = Some pem → genuine s d pem;
  tk_issued pem : (∃ e, p = Broadcast e pem) ∨ (∃ e, p = Store e pem) → (d, pem) ∈ issued s;
}.

Record prov_ok (s : provisioner) : Prop := {
  po_entries e x : entries s !! e = Some x → entry_ok s x;
  po_in_flight d e : in_flight s !! d = Some e → ∃ x, entries s !! e = Some x ∧ if_domain x = d;
  po_cache d c : cache s !! d = Some c → genuine s d (cert_pem c);
}.

Record sys_ok (y : system) : Prop := {
  so_prov : prov_ok (shared y);
  so_task t x : tasks y !! t = Some x → task_ok (shared y) (t_domain x) (t_pc x);
  so_unique t1 t2 x1 x2 e :
    tasks y !! t1 = Some x1 → tasks y !! t2 = Some x2 →
    owns (t_pc x1) = Some e → owns (t_pc x2) = Some e → t1 = t2;
  so_owner e x : entries (shared y) !! e = Some x → w_open (cert x) = true →
    ∃ t k, tasks y !! t = Some k ∧ owns (t_pc k) = Some e;
}.

(** How the shared state may change under a caller that owns [o]. *)
Record evolves (o : option nat) (s s' : provisioner) : Prop := {
  ev_kept e x : entries s !! e = Some x → ∃ x', entries s' !! e = Some x' ∧
    if_domain x' = if_domain x ∧
    (∀ ka, w_val (key_auth x) = Some ka → w_val (key_auth x') = Some ka) ∧
    (o ≠ Some e → x' = x);
  ev_issued dp : dp ∈ issued s → dp ∈ issued s';
  ev_seeded dp : dp ∈ seeded s → dp ∈ seeded s';
}.

Lemma genuine_evolves o s s' d pem : evolves o s s' → genuine s d pem → genuine s' d pem.
Proof. intros [_ H1 H2] [|]; [left|right]; auto. Qed.

(** A caller is not disturbed by another one's step. *)
Lemma task_ok_evolves o s s' d p :
  evolves o s s' → (∀ e, owns p = Some e → o ≠ Some e) → task_ok s d p → task_ok s' d p.
Proof.
  intros He Ho [H1 H2 H3 H4]. split.
  - intros e Hp. destruct (H1 e Hp) as (x & Hx & Hd & Hv).
    destruct (ev_kept _ _ _ He e x Hx) as (x' & Hx' & _ & _ & Heq).
    rewrite Heq in Hx' by eauto. eauto.
  - intros e Hp. destruct (H2 e Hp) as (x & Hx & Hd & Hv).
    destruct (ev_kept _ _ _ He e x Hx) as (x' & Hx' & Hd' & Hk & _).
    exists x'. split_and!; [done|congruence|eauto].
  - eauto using genuine_evolves.
  - intros pem Hp. eapply ev_issued; eauto.
Qed.

Lemma evolves_refl o s : evolves o s s.
Proof. split; eauto. Qed.

Lemma evolves_same_entries o s s' :
  entries s' = entries s → issued s' = issued s → seeded s' = seeded s → evolves o s s'.
Proof. intros He Hi Hs. split; rewrite ?He, ?Hi, ?Hs; eauto. Qed.

Lemma evolves_on_entry f e s :
  (∀ x, entries s !! e = Some x → if_domain (f x) = if_domain x ∧
     ∀ ka, w_val (key_auth x) = Some ka → w_val (key_auth (f x)) = Some ka) →
  evolves (Some e) s (on_entry f e s).
Proof.
  intros Hf. split; [|done..]. intros e' x Hx. cbn. destruct (decide (e = e')) as [<-|Hne].
  - rewrite list_lookup_alter_eq, Hx. cbn. destruct (Hf x Hx) as [Hd Hk].
    exists (f x). split_and!; [done|done|exact Hk|done].
  - rewrite list_lookup_alter_ne by done. exists x. split_and!; eauto.
Qed.

(** *** The primitive updates keep the provisioner well formed *)

Lemma genuine_remove s d d' pem : genuine (remove d s) d' pem ↔ genuine s d' pem.
Proof. done. Qed.

Lemma entry_ok_issued s s' x :
  (∀ dp, dp ∈ issued s → dp ∈ issued s') → entry_ok s x → entry_ok s' x.
Proof. intros Hi [? ? ? ?]. split; eauto. Qed.

Lemma prov_ok_remove d s : prov_ok s → prov_ok (remove d s).
Proof.
  intros [H1 H2 H3]. split; cbn.
  - intros e x Hx. eapply entry_ok_issued; [|eauto]. done.
  - intros d' e. rewrite lookup_delete_Some. intros [_ ?]. eauto.
  - eauto.
Qed.

Lemma prov_ok_cache d c s : genuine s d (cert_pem c) → prov_ok s → prov_ok (cache_insert d c s).
Proof.
  intros Hg [H1 H2 H3]. split; cbn; [|done|].
  - intros e x Hx. eapply entry_ok_issued; [|eauto]. done.
  - intros d' c'. rewrite lookup_insert_Some. intros [[<- <-]|[_ ?]]; [done|]. by apply H3.
Qed.

Lemma prov_ok_on_entry f e s :
  (∀ x, entries s !! e = Some x → entry_ok s x → if_domain (f x) = if_domain x ∧ entry_ok s (f x)) →
  prov_ok s → prov_ok (on_entry f e s).
Proof.
  intros Hf [H1 H2 H3]. split; cbn; [| |done].
  - intros e' x. destruct (decide (e = e')) as [<-|Hne].
    + rewrite list_lookup_alter_eq. destruct (entries s !! e) as [x0|] eqn:E; [|done].
      cbn. intros [= <-]. destruct (Hf x0) as [_ Hk]; eauto.
      eapply entry_ok_issued; [|exact Hk]. done.
    + rewrite list_lookup_alter_ne by done. intros Hx. eapply entry_ok_issued; [|eauto]. done.
  - intros d e' He. destruct (H2 d e' He) as (x & Hx & Hd).
    destruct (decide (e = e')) as [<-|Hne].
    + rewrite list_lookup_alter_eq, Hx. cbn. destruct (Hf x) as [Hk _]; eauto.
      eexists. split; [done|]. congruence.
    + rewrite list_lookup_alter_ne by done. eauto.
Qed.

Lemma prov_ok_issue dp s :
  prov_ok s → prov_ok (MkProv (cache s) (in_flight s) (entries s) (dp :: issued s) (seeded s)).
Proof.
  intros [H1 H2 H3]. split; cbn; [|done|].
  - intros e x Hx. eapply entry_ok_issued; [|eauto]. intros ? ?. cbn. set_solver.
  - intros d c Hc. destruct (H3 d c Hc); [left|right]; cbn; set_solver.
Qed.

Lemma entry_ok_fresh s d : entry_ok s (MkEntry d Watch.channel Watch.channel).
Proof. by split. Qed.

Lemma prov_ok_claim d s :
  prov_ok s →
  prov_ok (MkProv (cache s) (<[d := length (entries s)]> (in_flight s))
             (entries s ++ [MkEntry d Watch.channel Watch.channel]) (issued s) (seeded s)).
Proof.
  intros [H1 H2 H3]. split; cbn; [| |done].
  - intros e x. rewrite lookup_app_Some, list_lookup_singleton_Some.
    intros [Hx|[_ [_ <-]]]; [|apply entry_ok_fresh].
    eapply entry_ok_issued; [|eauto]. done.
  - intros d' e. rewrite lookup_insert_Some. intros [[<- <-]|[_ He]].
    + rewrite lookup_app_r by lia. rewrite Nat.sub_diag. by eexists.
    + destruct (H2 d' e He) as (x & Hx & Hd). exists x.
      by rewrite lookup_app_l by eauto using lookup_lt_Some.
Qed.

Lemma evolves_claim o d s :
  evolves o s (MkProv (cache s) (<[d := length (entries s)]> (in_flight s))
             (entries s ++ [MkEntry d Watch.channel Watch.channel]) (issued s) (seeded s)).
Proof.
  split; [|done..]. intros e x Hx. exists x. cbn.
  by rewrite lookup_app_l by eauto using lookup_lt_Some.
Qed.

(** *** One operation of one caller *)

Record advanced (d : string) (s s' : provisioner) (p p' : pc) : Prop := {
  av_evolves : evolves (owns p) s s';
  av_prov : prov_ok s';
  av_task : task_ok s' d p';
  av_open e x' : entries s' !! e = Some x' → w_open (cert x') = true →
    owns p' = Some e ∨ ∃ x, entries s !! e = Some x ∧ w_open (cert x) = true ∧ owns p ≠ Some e;
  av_owns e : owns p' = Some e → owns p = Some e ∨ entries s !! e = None;
}.

(** The caller's new program counter names nothing the state does not have. *)
Lemma task_ok_idle s d p :
  owns p = None → watches p = None → holds p = None → task_ok s d p.
Proof.
  intros H1 H2 H3. split; try congruence. by intros pem [[e ->]|[e ->]].
Qed.

Lemma advanced_same d s s' p p' :
  entries s' = entries s → issued s' = issued s → seeded s' = seeded s → owns p' = owns p →
  prov_ok s' → task_ok s' d p' → advanced d s s' p p'.
Proof.
  intros He Hi Hs Ho Hp Ht. split; [by apply evolves_same_entries|done|done| |].
  - intros e x'. rewrite He. intros Hx Hw.
    destruct (decide (owns p = Some e)); [left; congruence|right; eauto].
  - intros e. rewrite Ho. by left.
Qed.

Lemma advanced_read d s p p' :
  prov_ok s → owns p = None → owns p' = None → task_ok s d p' → advanced d s s p p'.
Proof. intros. apply advanced_same; congruence || done. Qed.

(** The owner writes to its entry and stays its owner. *)
Lemma advanced_entry d s f e p p' :
  owns p = Some e → owns p' = Some e → prov_ok s →
  (∀ x, entries s !! e = Some x → entry_ok s x → if_domain (f x) = if_domain x ∧ entry_ok s (f x) ∧
     ∀ ka, w_val (key_auth x) = Some ka → w_val (key_auth (f x)) = Some ka) →
  task_ok (on_entry f e s) d p' →
  advanced d s (on_entry f e s) p p'.
Proof.
  intros Ho Ho' Hp Hf Ht. split; [|apply prov_ok_on_entry; [|done]|done| |].
  - rewrite Ho. apply evolves_on_entry. intros x Hx.
    destruct (Hf x Hx) as (? & _ & ?); [by eapply po_entries|]. done.
  - intros x Hx Hk. destruct (Hf x Hx Hk) as (? & ? & _). done.
  - intros e' x'. cbn. destruct (decide (e = e')) as [<-|Hne]; [by left|].
    rewrite list_lookup_alter_ne by done. intros Hx Hw. right. exists x'.
    split_and!; [done|done|]. congruence.
  - intros e'. rewrite Ho, Ho'. by left.
Qed.

(** The owner's senders are dropped. *)
Lemma entry_ok_drop s x :
  entry_ok s x → entry_ok s ((on_key_auth Watch.drop_tx ∘ on_cert Watch.drop_tx) x).
Proof. by intros [? ? ? ?]. Qed.

Lemma advanced_drop d s p r :
  prov_ok s → (∀ pem, r = Some pem → genuine s d pem) →
  advanced d s (drop_senders p s) p (Done r).
Proof.
  intros Hp Hr.
  assert (Ht : ∀ s', (∀ pem, genuine s d pem → genuine s' d pem) → task_ok s' d (Done r)).
  { intros s' Hs. split; cbn; try done; [eauto|]. by intros pem [[e ?]|[e ?]]. }
  unfold drop_senders. destruct (owns p) as [e|] eqn:Ho; [|by apply advanced_read; auto].
  split; [rewrite Ho; by apply evolves_on_entry| |by apply Ht| |done].
  - apply prov_ok_on_entry; [|done]. intros x _ Hx. split; [done|]. by apply entry_ok_drop.
  - intros e' x'. cbn. destruct (decide (e = e')) as [<-|Hne].
    + rewrite list_lookup_alter_eq. destruct (entries s !! e); cbn; [|done]. by intros [= <-].
    + rewrite list_lookup_alter_ne by done. intros Hx Hw. right. exists x'.
      split_and!; [done|done|]. congruence.
Qed.

Lemma advanced_claim d s :
  prov_ok s →
  advanced d s
    (MkProv (cache s) (<[d := length (entries s)]> (in_flight s))
       (entries s ++ [MkEntry d Watch.channel Watch.channel]) (issued s) (seeded s))
    Claim (Setup (length (entries s))).
Proof.
  intros Hp. split; [apply evolves_claim|by apply prov_ok_claim| | |].
  - split; cbn; try done; [|by intros pem [[e ?]|[e ?]]].
    intros e [= <-]. rewrite lookup_app_r, Nat.sub_diag by lia. by eexists.
  - intros e x'. cbn. rewrite lookup_app_Some, list_lookup_singleton_Some.
    intros [Hx|[Hl [He <-]]] Hw; [right; eauto|]. left. f_equal. lia.
  - cbn. intros e [= <-]. right. apply lookup_ge_None. lia.
Qed.

Lemma task_ok_watch s d p e x :
  watches p = Some e → owns p = None → holds p = None →
  entries s !! e = Some x → if_domain x = d →
  (∀ ka, p = Follower e ka → w_val (key_auth x) = Some ka) → task_ok s d p.
Proof.
  intros Hw Ho Hh Hx Hd Hk. split; [congruence| |congruence|by intros pem [[? ->]|[? ->]]].
  intros e' He. simplify_eq. eauto.
Qed.

Lemma task_ok_own s d p e x :
  owns p = Some e → entries s !! e = Some x → if_domain x = d → owner_view p x →
  (∀ pem, holds p = Some pem → (d, pem) ∈ issued s) → task_ok s d p.
Proof.
  intros Ho Hx Hd Hv Hh. split.
  - intros e' He. simplify_eq. eauto.
  - by destruct p.
  - intros pem Hp. left. eauto.
  - by intros pem [[? ->]|[? ->]]; apply Hh.
Qed.

Lemma entry_ok_publish s d ka :
  entry_ok s (on_key_auth (Watch.drop_tx ∘ Watch.send ka) (MkEntry d Watch.channel Watch.channel)).
Proof. split; cbn; try done. unfold watch_ok. cbn. lia. Qed.

Section steps.
Context `{Pem}.

Ltac idle := apply advanced_read; [done..|by apply task_ok_idle].

Lemma prepare_step_ok d i s p s' p' :
  prov_ok s → task_ok s d p → prepare_step d i s p = Some (s', p') → advanced d s s' p p'.
Proof.
  intros Hp Ht. unfold prepare_step.
  destruct p, i; try done; intros Hs.
  - destruct (cache s !! d) as [c|] eqn:E; [case_match|]; simplify_eq; [|idle..].
    apply advanced_read; [done..|]. split; cbn; try done; [|by intros pem [[e ?]|[e ?]]].
    intros pem [= <-]. by eapply po_cache.
  - destruct (in_flight s !! d) as [e|] eqn:E; simplify_eq; [|idle].
    destruct (po_in_flight _ Hp d e E) as (x & Hx & Hd).
    apply advanced_read; [done..|]. by eapply task_ok_watch.
  - destruct (tk_watches _ _ _ Ht e eq_refl) as (x & Hx & Hd & _). rewrite Hx in Hs.
    simplify_option_eq. case_match; [idle|]. apply advanced_read; [done..|]. by eapply task_ok_watch.
  - destruct (tk_watches _ _ _ Ht e eq_refl) as (x & Hx & Hd & _). rewrite Hx in Hs.
    simplify_option_eq. case_match; apply advanced_read; try done; eapply task_ok_watch; try done.
    by intros ka [= <-].
  - destruct (tk_watches _ _ _ Ht e eq_refl) as (x & Hx & Hd & _). rewrite Hx in Hs.
    cbn in Hs. destruct (Watch.changed (key_auth x)) as [r|]; [|done]. cbn in Hs. simplify_eq.
    destruct r; [|idle]. case_match; [|idle]. apply advanced_read; [done..|].
    eapply task_ok_watch; try done. by intros ka [= <-].
  - simplify_eq. apply advanced_same; try done; [by apply prov_ok_remove|by apply task_ok_idle].
  - destruct (in_flight s !! d) as [e|] eqn:E; simplify_eq; [idle|]. by apply advanced_claim.
  - destruct (tk_owns _ _ _ Ht e eq_refl) as (x & Hx & Hd & Hw & Hv).
    destruct (r ≫= _) as [[ka url]|]; simplify_eq.
    + apply advanced_entry; try done.
      * intros y Hy _. simplify_eq. rewrite Hv. split_and!; [done|by apply entry_ok_publish|done].
      * eapply (task_ok_own _ _ _ e); [done| |..].
        { cbn. by rewrite list_lookup_alter_eq, Hx. }
        all: by rewrite Hv.
    + apply advanced_same; try done. by eapply task_ok_own.
  - simplify_eq. destruct (tk_owns _ _ _ Ht e eq_refl) as (x & Hx & Hd & Hv).
    apply advanced_same; try done; [by apply prov_ok_remove|]. by eapply task_ok_own.
  - simplify_eq. by apply advanced_drop.
Qed.

Lemma finalize_step_ok d i s p s' p' :
  prov_ok s → task_ok s d p → finalize_step d i s p = Some (s', p') → advanced d s s' p p'.
Proof.
  intros Hp Ht. unfold finalize_step.
  destruct p, i; try done; intros Hs;
    destruct (tk_owns _ _ _ Ht e eq_refl) as (x & Hx & Hd & Hw & Hv); cbn in Hv.
  - assert (Hf : advanced d s s (Leader e ka url) (Unregister e None)).
    { apply advanced_same; try done. by eapply task_ok_own. }
    destruct (_ || _); [|by simplify_eq]. destruct r as [pem|]; simplify_eq; [|done].
    split.
    + split; cbn; eauto; set_solver.
    + by apply prov_ok_issue.
    + eapply (task_ok_own _ _ _ e x); [done..| |].
      { split; [done|]. by eexists. }
      cbn. intros ? [= <-]. set_solver.
    + intros e' x' Hx' Hw'. destruct (decide (e = e')); [left; cbn; congruence|].
      right. exists x'. cbn. split_and!; [done|done|congruence].
    + by left.
  - simplify_eq. assert (Hi : (if_domain x, pem) ∈ issued s) by (eapply (tk_issued _ _ _ Ht); eauto).
    apply advanced_same; try done; [apply prov_ok_cache; [by left|done]|].
    eapply task_ok_own; try done. cbn. by intros ? [= <-].
  - simplify_eq. assert (Hi : (if_domain x, pem) ∈ issued s) by (eapply (tk_issued _ _ _ Ht); eauto).
    apply advanced_entry; try done.
    + intros y Hy [? ? ? ?]. simplify_eq. split_and!; [done| |done].
      split; cbn; try done; [lia|]. by intros ? [= <-].
    + eapply (task_ok_own _ _ _ e); [done| |..].
      { cbn. by rewrite list_lookup_alter_eq, Hx. }
      all: try done. cbn. by intros ? [= <-].
  - simplify_eq. apply advanced_same; try done; [by apply prov_ok_remove|].
    split; cbn; try done; [|apply (tk_holds _ _ _ Ht)|by intros pem [[? ?]|[? ?]]].
    intros ? [= <-]. by exists x.
  - simplify_eq. apply advanced_drop; [done|]. intros pem ->. by apply (tk_holds _ _ _ Ht).
Qed.

Lemma follower_step_ok d i s p s' p' :
  prov_ok s → task_ok s d p → follower_step i s p = Some (s', p') → advanced d s s' p p'.
Proof.
  intros Hp Ht. unfold follower_step. destruct p, i; try done; intros Hs.
  destruct (tk_watches _ _ _ Ht e eq_refl) as (x & Hx & Hd & _). rewrite Hx in Hs.
  cbn in Hs. destruct (Watch.changed (cert x)) as [r|]; [|done]. cbn in Hs. simplify_eq.
  apply advanced_read; [done..|]. split; cbn; try done; [|by intros pem [[? ?]|[? ?]]].
  destruct r; [|done]. intros pem Hv. left. eapply (eo_issued _ x); [by eapply po_entries|done].
Qed.

Lemma advance_ok d i s p s' p' :
  prov_ok s → task_ok s d p → advance d i s p = Some (s', p') → advanced d s s' p p'.
Proof.
  intros Hp Ht Hs.
  assert (prepare_step d i s p = Some (s', p') ∨ finalize_step d i s p = Some (s', p') ∨
          follower_step i s p = Some (s', p') ∨ i = Cancelled) as [H1|[H1|[H1| ->]]]
    by (destruct i, p; auto).
  - by eapply prepare_step_ok.
  - by eapply finalize_step_ok.
  - by eapply follower_step_ok.
  - cbn in Hs. destruct (suspended p); [|done]. simplify_eq. by apply advanced_drop.
Qed.

Lemma boot_ok : sys_ok boot.
Proof. split; [split|..]; cbn; intros; simplify_map_eq. Qed.

Lemma seed_ok now d k pem s :
  prov_ok s → prov_ok (seed now d k pem s) ∧ evolves None s (seed now d k pem s) ∧
  entries (seed now d k pem s) = entries s.
Proof.
  intros Hp. unfold seed. destruct (seed_mismatch d k pem); [eauto using evolves_refl|].
  destruct (renew_at now pem) as [t|]; [|eauto using evolves_refl].
  case_match; [|eauto using evolves_refl]. destruct Hp as [H1 H2 H3]. split_and!; [|split|]; cbn; eauto.
  - split; cbn; [|done|].
    + intros e x Hx. eapply entry_ok_issued; [|eauto]. done.
    + intros d' c. rewrite lookup_insert_Some. unfold genuine. cbn. intros [[<- <-]|[_ Hc]]; [set_solver|].
      destruct (H3 d' c Hc); set_solver.
  - set_solver.
Qed.

Lemma step_ok t i x y s' p' :
  sys_ok y → tasks y !! t = Some x → advance (t_domain x) i (shared y) (t_pc x) = Some (s', p') →
  sys_ok (MkSys s' (<[t := MkTask (t_domain x) p']> (tasks y))).
Proof.
  intros [Hp Ht Hu Ho] Hx Hs.
  destruct (advance_ok _ _ _ _ _ _ Hp (Ht _ _ Hx) Hs) as [He Hp' Ht' Hopen Howns].
  assert (Hl : (t < length (tasks y))%nat) by eauto using lookup_lt_Some.
  assert (Hold : ∀ t' k e, tasks y !! t' = Some k → owns (t_pc k) = Some e →
            is_Some (entries (shared y) !! e)).
  { intros t' k e Hk Hke. destruct (tk_owns _ _ _ (Ht _ _ Hk) e Hke) as (? & ? & _). by eexists. }
  split; cbn [shared tasks]; [done| | |].
  - intros t' k. destruct (decide (t = t')) as [<-|Hne].
    + rewrite list_lookup_insert_eq by done. by intros [= <-].
    + rewrite list_lookup_insert_ne by done. intros Hk. eapply task_ok_evolves; [done| |eauto].
      intros e Hke Hoe. apply Hne. by eapply Hu.
  - intros t1 t2 x1 x2 e. setoid_rewrite list_lookup_insert_Some.
    intros [(<- & <- & _)|[Hn1 Hk1]] [(<- & <- & _)|[Hn2 Hk2]] H1 H2; cbn in *; [done|..|by eapply Hu].
    + destruct (Howns e H1) as [H1'|Hf]; [by eapply Hu|]. destruct (Hold _ _ _ Hk2 H2). congruence.
    + destruct (Howns e H2) as [H2'|Hf]; [by eapply Hu|]. destruct (Hold _ _ _ Hk1 H1). congruence.
  - intros e x' Hx' Hw. destruct (Hopen e x' Hx' Hw) as [Hp''|(x0 & Hx0 & Hw0 & Hne)].
    + exists t, (MkTask (t_domain x) p'). by rewrite list_lookup_insert_eq by done.
    + destruct (Ho e x0 Hx0 Hw0) as (t' & k & Hk & Hke). exists t', k.
      rewrite list_lookup_insert_ne; [done|]. intros <-. congruence.
Qed.

Lemma apply_ok ev y y' : sys_ok y → apply ev y = Some y' → sys_ok y'.
Proof.
  intros Hy. destruct ev as [d|now d k pem|t i]; cbn.
  - intros [= <-]. destruct Hy as [Hp Ht Hu Ho]. split; cbn [shared tasks]; [done|..].
    + intros t x. rewrite lookup_app_Some, list_lookup_singleton_Some.
      intros [Hx|(_ & _ & <-)]; [eauto|]. by apply task_ok_idle.
    + intros t1 t2 x1 x2 e. rewrite !lookup_app_Some, !list_lookup_singleton_Some.
      intros [Hx1|(_ & _ & <-)] [Hx2|(_ & _ & <-)] H1 H2; try done. by eapply Hu.
    + intros e x Hx Hw. destruct (Ho e x Hx Hw) as (t & k & Hk & Hke). exists t, k.
      by rewrite lookup_app_l by eauto using lookup_lt_Some.
  - intros [= <-]. destruct Hy as [Hp Ht Hu Ho].
    destruct (seed_ok now d k pem (shared y) Hp) as (Hp' & He & Hent).
    split; cbn [shared tasks]; [done| |done|].
    + intros t x Hx. eapply task_ok_evolves; [done|done|eauto].
    + rewrite Hent. done.
  - destruct (tasks y !! t) as [x|] eqn:Hx; [|done]. cbn.
    destruct (advance _ _ _ _) as [[s' p']|] eqn:Hs; [|done]. intros [= <-]. by eapply step_ok.
Qed.

Lemma reachable_ok y : reachable y → sys_ok y.
Proof.
  apply rtc_invariant; [apply boot_ok|]. intros y1 y2 [ev Hev] Hy. by eapply apply_ok.
Qed.

Lemma execute_reachable evs y y' : execute evs y = Some y' → rtc sys_step y y'.
Proof.
  revert y. induction evs as [|ev evs IH]; cbn; intros y; [by intros [= <-]|].
  destruct (apply ev y) as [y1|] eqn:E; [|done]. cbn. intros Hx.
  eapply rtc_l; [by exists ev|eauto].
Qed.

(** C21: callers that work on one ACME order agree on it: a follower offers its relay
    exactly the key authorization its leader obtained, for the leader's domain, and so
    do all followers of that leader; and whatever certificate a caller ends up with was
    issued to this process for the caller's own domain or accepted as a seed for it. *)
Theorem followers_share_order y :
  reachable y →
  (∀ t1 t2 d1 d2 e ka1 ka2 url,
     tasks y !! t1 = Some (MkTask d1 (Leader e ka1 url)) →
     tasks y !! t2 = Some (MkTask d2 (Follower e ka2)) → d1 = d2 ∧ ka1 = ka2) ∧
  (∀ t1 t2 d1 d2 e ka1 ka2,
     tasks y !! t1 = Some (MkTask d1 (Follower e ka1)) →
     tasks y !! t2 = Some (MkTask d2 (Follower e ka2)) → d1 = d2 ∧ ka1 = ka2) ∧
  (∀ t d pem, tasks y !! t = Some (MkTask d (Done (Some pem))) → genuine (shared y) d pem).
Proof.
  intros Hr. pose proof (so_task _ (reachable_ok y Hr)) as Ht. split_and!.
  - intros t1 t2 d1 d2 e ka1 ka2 url H1 H2.
    destruct (tk_owns _ _ _ (Ht _ _ H1) e eq_refl) as (x & Hx & Hd & _ & Hv).
    destruct (tk_watches _ _ _ (Ht _ _ H2) e eq_refl) as (x' & Hx' & Hd' & Hv').
    specialize (Hv' ka2 eq_refl). cbn in *. split; congruence.
  - intros t1 t2 d1 d2 e ka1 ka2 H1 H2.
    destruct (tk_watches _ _ _ (Ht _ _ H1) e eq_refl) as (x & Hx & Hd & Hv).
    destruct (tk_watches _ _ _ (Ht _ _ H2) e eq_refl) as (x' & Hx' & Hd' & Hv').
    specialize (Hv' ka2 eq_refl). specialize (Hv ka1 eq_refl). cbn in *. split; congruence.
  - intros t d pem H1. by apply (tk_holds _ _ _ (Ht _ _ H1)).
Qed.

(** The inputs that answer the caller's next operation. *)
Definition answers (p : pc) (i : input) : bool :=
  match p, i with
  | (Lookup | Store _ _), At _ => true
  | Setup _, OrderSetup _ => true
  | Leader _ _ _, OrderEnd _ _ _ => true
  | (Lookup | Store _ _ | Setup _ | Leader _ _ _), _ => false
  | _, Go => true
  | _, _ => false
  end.

(** The operations that may stay pending. *)
Definition waits (p : pc) : option nat :=
  match p with WaitKeyAuth e | Follower e _ => Some e | _ => None end.

Lemma advances s d p i :
  task_ok s d p → waits p = None → (∀ r, p ≠ Done r) → answers p i = true →
  is_Some (advance d i s p).
Proof.
  intros Ht Hw Hd Ha. destruct p, i; try done; cbn.
  all: try (destruct (tk_watches _ _ _ Ht e eq_refl) as (x & Hx & _ & _); rewrite Hx).
  all: try by destruct (Hd r).
  all: split_matches; by eexists.
Qed.

(** C22: no caller is stranded. A caller that has not returned proceeds on any answer to
    its next operation, unless it waits for a leader's key authorization or certificate;
    then either the channel has already decided and it proceeds too, or another caller
    still holds that order's senders and itself waits for nobody. In particular a leader
    that failed, or was dropped, never leaves a follower waiting. *)
Theorem no_caller_stranded y t d p :
  reachable y → tasks y !! t = Some (MkTask d p) → (∀ r, p ≠ Done r) →
  (∀ i, answers p i = true → is_Some (advance d i (shared y) p)) ∨
  ∃ e t' d' p', waits p = Some e ∧ t' ≠ t ∧ tasks y !! t' = Some (MkTask d' p') ∧
    owns p' = Some e ∧
    ∀ i, answers p' i = true → is_Some (advance d' i (shared y) p').
Proof.
  intros Hr Hp Hd. pose proof (reachable_ok y Hr) as Hy. pose proof (so_task _ Hy) as Ht.
  destruct (waits p) as [e|] eqn:Hw; [|left; intros i Ha; by apply (advances _ _ _ _ (Ht _ _ Hp))].
  assert (watches p = Some e) as Hwp by (destruct p; by simplify_eq/=).
  destruct (tk_watches _ _ _ (Ht _ _ Hp) e Hwp) as (x & Hx & _ & Hk).
  destruct (po_entries _ (so_prov _ Hy) e x Hx) as [H1 H2 H3 _].
  destruct (w_open (cert x)) eqn:Hopen.
  - right. destruct (so_owner _ Hy e x Hx Hopen) as (t' & [d' p'] & Ht' & Ho). cbn in Ho.
    exists e, t', d', p'. split_and!; [done| |done|done|].
    + intros ->. rewrite Hp in Ht'. simplify_eq. by destruct p'.
    + intros i. apply (advances _ _ _ _ (Ht _ _ Ht')); [by destruct p'|by destruct p'].
  - left. intros i Ha. destruct p, i; try done; cbn; simplify_eq/=; rewrite Hx; cbn.
    + unfold Watch.changed, watch_ok in *.
      destruct (w_val (key_auth x)) as [ka|]; [by destruct (w_version (key_auth x)); [lia|]|].
      rewrite H1, (H3 eq_refl). by eexists.
    + unfold Watch.changed. rewrite Hopen. by case_match.
Qed.

(** ** Seeding *)

(** Fit to be seeded, with its leaf. *)
Definition seed_fits (now : Now) (d : string) (k : bytes) (pem : string) (leaf : Leaf) : Prop :=
  first_cert pem ≫= parse_leaf = Some leaf ∧
  (∃ n, n ∈ dns_names leaf ∧ to_ascii_lowercase n = to_ascii_lowercase d) ∧
  same_public_key (leaf_key leaf) k = true ∧
  unix_secs now < not_after leaf - (not_after leaf - not_before leaf) `quot` 3.

(** Exactly then [seed] has something to store: the certificate and its renewal point. *)
Lemma seed_fits_iff now d k pem :
  (∃ leaf, seed_fits now d k pem leaf) ↔
  ∃ t, seed_mismatch d k pem = None ∧ renew_at now pem = Some t ∧ instant now < t.
Proof.
  unfold seed_fits, seed_mismatch, renew_at, from_secs, NANOS_PER_SEC.
  destruct (first_cert pem) as [der|]; cbn; [|naive_solver].
  destruct (parse_leaf der) as [leaf|]; cbn; [|naive_solver].
  destruct (existsb _ _) eqn:En; cbn.
  - apply existsb_exists in En as (n & Hn & Hnd). apply list_elem_of_In in Hn. apply String.eqb_eq in Hnd.
    destruct (same_public_key (leaf_key leaf) k) eqn:Ek; cbn;
      [|split; [intros (? & [= <-] & _ & ? & _); congruence|by intros (? & ? & _)]].
    split.
    + intros (? & [= <-] & _ & _ & ?). eexists. split_and!; [done..|]. lia.
    + intros (t & _ & [= <-] & ?). exists leaf. split_and!; eauto. lia.
  - split; [|by intros (? & ? & _)]. intros (? & [= <-] & (n & Hn & Hnd) & _).
    apply not_true_iff_false in En. destruct En. apply existsb_exists. exists n.
    split; [by apply list_elem_of_In|]. by apply String.eqb_eq.
Qed.

(** C25: a seeded certificate is used exactly when it is fit, and exactly until it is due.
    [seed] stores it iff its leaf parses, names the domain (case-insensitively), carries
    the client's key and still has more than a third of its lifetime ahead; a [prepare]
    that finds it returns it, without touching [in_flight] or the ACME server, precisely
    as long as that third is ahead, and goes on to an order from that moment; otherwise
    seeding changes nothing. *)
Theorem seed_used_iff_fit now d k pem s :
  (∀ leaf, seed_fits now d k pem leaf →
     let due := not_after leaf - (not_after leaf - not_before leaf) `quot` 3 in
     ∀ now', prepare_step d (At now') (seed now d k pem s) Lookup =
       Some (seed now d k pem s,
             if instant now' <? instant now + from_secs (due - unix_secs now) then Done (Some pem) else Probe)) ∧
  (~ (∃ leaf, seed_fits now d k pem leaf) → seed now d k pem s = s).
Proof.
  split.
  - intros leaf Hf due now'. destruct (proj1 (seed_fits_iff now d k pem)) as (t & Hm & Ht & Hlt); [by exists leaf|].
    unfold seed, prepare_step. rewrite Hm, Ht. apply Z.ltb_lt in Hlt. rewrite Hlt.
    cbn [cache cache_insert]. rewrite lookup_insert_eq. cbn [cache_renew_at cert_pem].
    assert (t = instant now + from_secs (due - unix_secs now)) as ->; [|by case_match].
    destruct Hf as (Hleaf & _ & _ & Hdue). unfold renew_at in Ht.
    destruct (first_cert pem) as [der|]; [|done]. cbn in *. rewrite Hleaf in Ht. cbn in Ht.
    injection Ht as <-. f_equal. f_equal. apply Z.max_l. subst due. lia.
  - intros Hn. unfold seed. destruct (seed_mismatch d k pem) eqn:Hm; [done|].
    destruct (renew_at now pem) as [t|] eqn:Ht; [|done].
    destruct (Z.ltb_spec (instant now) t); [|done]. destruct Hn. apply seed_fits_iff. eauto.
Qed.

(** ** One leader per domain *)

(** The leaders whose entry has not been taken out of the map again. *)
Definition leads (p : pc) : option nat :=
  match p with
  | Setup e | SetupFailed e | Leader e _ _ | Store e _ | Broadcast e _ | Unregister e _ => Some e
  | _ => None
  end.

Definition registered (y : system) : Prop :=
  ∀ t x e, tasks y !! t = Some x → leads (t_pc x) = Some e →
    in_flight (shared y) !! t_domain x = Some e.

Lemma leads_owns p e : leads p = Some e → owns p = Some e.
Proof. by destruct p. Qed.

(** What an operation other than the removal of a stale entry does to the map. *)
Lemma advance_in_flight d i s p s' p' :
  advance d i s p = Some (s', p') → p ≠ Stale ∨ i = Cancelled →
  (in_flight s' = in_flight s ∧ ∀ e, leads p' = Some e → leads p = Some e) ∨
  (in_flight s !! d = None ∧ ∃ e, in_flight s' = <[d := e]> (in_flight s) ∧ leads p' = Some e) ∨
  (is_Some (leads p) ∧ leads p' = None ∧ in_flight s' = delete d (in_flight s)).
Proof.
  intros Hs Hst. destruct i; cbn in Hs.
  5: { destruct (suspended p); [|done]. simplify_eq. left. split; [|done].
       unfold drop_senders. by destruct (owns p). }
  all: destruct Hst as [Hst|]; [|done]; destruct p; try done; cbn in Hs;
    simplify_option_eq; split_matches; eauto 10.
  all: try (by left); try (by right; right; split_and!; [eexists|..]);
    try (right; left; split; [done|]; eexists; by split).
Qed.

Lemma registered_step ev y y' :
  sys_ok y → registered y → apply ev y = Some y' → removes_stale ev y = false → registered y'.
Proof.
  intros Hy Hreg. destruct ev as [d|now d k pem|t i]; cbn [apply].
  - intros [= <-] _ t x e. cbn. rewrite lookup_app_Some, list_lookup_singleton_Some.
    intros [Hx|(_ & _ & <-)]; [|done]. intros He. by apply (Hreg t).
  - intros [= <-] _ t x e Hx He. cbn in *. specialize (Hreg t x e Hx He).
    unfold seed. by repeat case_match.
  - destruct (tasks y !! t) as [x|] eqn:Hx; [|done]. cbn [mbind option_bind].
    destruct (advance _ _ _ _) as [[s' p']|] eqn:Hs; [|done]. intros [= <-] Hst.
    assert (t_pc x ≠ Stale ∨ i = Cancelled) as Hns.
    { destruct i; try (left; by intros E; rewrite E in Hs); [|by right].
      left. intros E. cbn in Hst. rewrite Hx in Hst. cbn in Hst. rewrite E in Hst.
      by rewrite bool_decide_true in Hst by done. }
    intros t' k e. cbn. rewrite list_lookup_insert_Some. intros Hk He.
    destruct (advance_in_flight _ _ _ _ _ _ Hs Hns) as
      [[-> Hl]|[(Hnone & e0 & -> & Hl)|([e0 Hl] & Hl' & ->)]].
    + destruct Hk as [(<- & <- & _)|[_ Hk]]; [|by eapply Hreg]. cbn in *. eapply (Hreg t); eauto.
    + destruct Hk as [(<- & <- & _)|[_ Hk]]; cbn in *.
      * simplify_eq. by rewrite lookup_insert_eq.
      * pose proof (Hreg _ _ _ Hk He) as Hm. rewrite lookup_insert_ne; [done|]. congruence.
    + destruct Hk as [(<- & <- & _)|[Hne Hk]]; cbn in *; [congruence|].
      pose proof (Hreg _ _ _ Hk He) as Hm. pose proof (Hreg _ _ _ Hx Hl) as Hm0.
      rewrite lookup_delete_ne; [done|]. intros Hd. rewrite Hd in Hm0. simplify_eq.
      apply Hne. eapply (so_unique _ Hy); eauto using leads_owns.
Qed.

Lemma calm_registered y : rtc calm_step boot y → sys_ok y ∧ registered y.
Proof.
  intros Hc. apply (rtc_invariant calm_step (λ y, sys_ok y ∧ registered y) boot); [| |done].
  - split; [apply boot_ok|]. by intros t x e.
  - intros y1 y2 (ev & Hev & Hcalm) [Hy Hr]. split; [by eapply apply_ok|by eapply registered_step].
Qed.

(** as long as no caller takes the retry path that deletes an entry it found stale,
    at most one caller at a time leads an order for a domain, and the entry the others
    find in [in_flight] is that leader's. *)
Theorem single_leader_while_calm y t1 t2 x1 x2 e1 e2 :
  rtc calm_step boot y →
  tasks y !! t1 = Some x1 → tasks y !! t2 = Some x2 →
  leads (t_pc x1) = Some e1 → leads (t_pc x2) = Some e2 → t_domain x1 = t_domain x2 →
  t1 = t2 ∧ in_flight (shared y) !! t_domain x1 = Some e1.
Proof.
  intros Hc Hx1 Hx2 H1 H2 Hd. destruct (calm_registered y Hc) as [Hy Hr].
  pose proof (Hr _ _ _ Hx1 H1) as Hm1. pose proof (Hr _ _ _ Hx2 H2) as Hm2.
  split; [|done]. rewrite Hd in Hm1. simplify_eq.
  eapply (so_unique _ Hy); eauto using leads_owns.
Qed.

Definition one_authz (ka : string) : list (option Authorization) :=
  [Some (MkAuthz false (Some (ka, "https://acme/chall")))].

(** Three callers; the first one's order setup fails while the other two wait for its
    key authorization, and both then retry. *)
Definition two_leaders : list prov_event :=
  let now := At (MkNow 0 0) in
  [Spawn "a"; Spawn "a"; Spawn "a"; Step 0 now; Step 1 now; Step 2 now;
   Step 0 Go; Step 0 Go; Step 1 Go; Step 1 Go; Step 1 Go; Step 2 Go; Step 2 Go; Step 2 Go;
   Step 0 (OrderSetup None); Step 0 Go; Step 0 Go;
   (* the first follower wakes, retries and claims *)
   Step 1 Go; Step 1 Go; Step 1 now; Step 1 Go; Step 1 Go;
   (* the second one deletes that claim, and claims as well *)
   Step 2 Go; Step 2 Go; Step 2 now; Step 2 Go; Step 2 Go;
   Step 1 (OrderSetup (Some (one_authz "ka1"))); Step 2 (OrderSetup (Some (one_authz "ka2")))].

(** C23: the retry path breaks the single-leader promise: [prepare] removes "the stale
    entry" by domain, so a follower woken by a failed leader deletes the entry another
    woken follower has claimed since. Two callers then lead two orders for the same
    domain at once, with different key authorizations. *)
Theorem stale_removal_elects_two_leaders :
  ∃ y e1 e2 u, reachable y ∧
    tasks y !! 1%nat = Some (MkTask "a" (Leader e1 "ka1" u)) ∧
    tasks y !! 2%nat = Some (MkTask "a" (Leader e2 "ka2" u)).
Proof.
  eexists _, _, _, _. split; [|split].
  - apply (execute_reachable two_leaders). vm_compute. reflexivity.
  - vm_compute. reflexivity.
  - vm_compute. reflexivity.
Qed.
End steps.

(** ** Concrete instances *)

Module ToyPem.
(** Every PEM is a certificate for a.example under key [01], valid for 300 s. *)
#[export] Instance toy_pem : Pem := {|
  first_cert s := Some (as_bytes s);
  parse_leaf _ := Some (MkLeaf ["A.example"] [x01] 0 300);
  sec1_point _ := None;
|}.

(** A leader, and a follower that shares its key authorization. *)
Definition shared_order : list prov_event :=
  let now := At (MkNow 0 0) in
  [Spawn "a"; Spawn "a"; Step 0 now; Step 0 Go; Step 0 Go; Step 1 now; Step 1 Go; Step 1 Go; Step 1 Go;
   Step 0 (OrderSetup (Some (one_authz "ka"))); Step 1 Go].
End ToyPem.
#[local] Existing Instance ToyPem.toy_pem.

(** Let's Encrypt's message, read as its test in acme.rs expects. *)
Example retry_after_read :
  rate_limited_until (λ s, if bool_decide (s = "2026-09-24 13:00:43 UTC") then Some 1790254843 else None)
    [OtherError; Api (Some RATE_LIMITED) (Some "too many failed authorizations (5) in the last 1h0m0s, retry after 2026-09-24 13:00:43 UTC: see https://letsencrypt.org/docs/rate-limits/")]
  = Some 1790254843.
Proof. vm_compute. reflexivity. Qed.

Lemma followers_share_order_witness :
  ∃ y u, reachable y ∧ tasks y !! 0%nat = Some (MkTask "a" (Leader 0 "ka" u)) ∧
    tasks y !! 1%nat = Some (MkTask "a" (Follower 0 "ka")) ∧ "ka" = "ka".
Proof.
  assert (Hr : reachable (default boot (execute ToyPem.shared_order boot))).
  { apply (execute_reachable ToyPem.shared_order). vm_compute. reflexivity. }
  eexists _, _. split; [exact Hr|]. split; [vm_compute; reflexivity|].
  split; [vm_compute; reflexivity|].
  exact (proj2 (proj1 (followers_share_order _ Hr) 0%nat 1%nat "a" "a" 0%nat "ka" "ka" "https://acme/chall"
                  ltac:(vm_compute; reflexivity) ltac:(vm_compute; reflexivity))).
Defined.

Lemma no_caller_stranded_witness :
  ∃ y, reachable y ∧ tasks y !! 1%nat = Some (MkTask "a" (WaitKeyAuth 0)) ∧
    ∃ t' d' p', tasks y !! t' = Some (MkTask d' p') ∧ owns p' = Some 0%nat.
Proof.
  set (evs := take 9 ToyPem.shared_order).
  assert (Hr : reachable (default boot (execute evs boot))).
  { apply (execute_reachable evs). vm_compute. reflexivity. }
  eexists. split; [exact Hr|]. split; [vm_compute; reflexivity|].
  destruct (no_caller_stranded _ 1 "a" (WaitKeyAuth 0) Hr ltac:(vm_compute; reflexivity)
              ltac:(intros; discriminate)) as [Hn|(e & t' & d' & p' & [= <-] & _ & Ht & Ho & _)].
  - specialize (Hn Go eq_refl). vm_compute in Hn. destruct Hn as [? Hn]. discriminate.
  - by exists t', d', p'.
Defined.

Lemma calm_execute `{Pem} evs y y' :
  execute evs y = Some y' → calm evs y = true → rtc calm_step y y'.
Proof.
  revert y. induction evs as [|ev evs IH]; cbn; intros y; [by intros [= <-]|].
  destruct (apply ev y) as [y1|] eqn:E; [|done]. cbn. intros Hx [Hc Hr]%andb_true_iff.
  eapply rtc_l; [exists ev; split; [done|by apply negb_true_iff]|eauto].
Qed.

Lemma single_leader_while_calm_witness :
  ∃ y, rtc calm_step boot y ∧ in_flight (shared y) !! "a" = Some 0%nat.
Proof.
  assert (Hc : rtc calm_step boot (default boot (execute ToyPem.shared_order boot))).
  { apply (calm_execute ToyPem.shared_order); vm_compute; reflexivity. }
  eexists. split; [exact Hc|].
  exact (proj2 (single_leader_while_calm _ 0 0
    (MkTask "a" (Leader 0 "ka" "https://acme/chall")) (MkTask "a" (Leader 0 "ka" "https://acme/chall"))
    0 0 Hc ltac:(vm_compute; reflexivity) ltac:(vm_compute; reflexivity) eq_refl eq_refl eq_refl)).
Defined.

Lemma seed_used_iff_fit_witness :
  let s := seed (MkNow 100 0) "a.example" [x01] "PEM" new in
  prepare_step "a.example" (At (MkNow 199 (from_secs 99))) s Lookup = Some (s, Done (Some "PEM")) ∧
  prepare_step "a.example" (At (MkNow 200 (from_secs 100))) s Lookup = Some (s, Probe).
Proof.
  set (now := MkNow 100 0).
  assert (Hf : ∃ leaf, seed_fits now "a.example" [x01] "PEM" leaf).
  { eexists. split; [reflexivity|]. split; [|split; [reflexivity|vm_compute; reflexivity]].
    exists "A.example". split; [left|reflexivity]. }
  destruct Hf as [leaf Hf]. pose proof (proj1 Hf) as Hl. vm_compute in Hl. injection Hl as <-.
  split; rewrite (proj1 (seed_used_iff_fit now "a.example" [x01] "PEM" new) _ Hf); vm_compute; reflexivity.
Defined.
