(* ===== verification/ClientErrors.v ===== *)
(** * ClientErrors.v: what a failed attempt means to the reconnect loop

    tunnel-client/src/client.rs: [AttemptFailure], [RelayRejected] and the names used in
    logs and events; [format_error_chain] of tunnel-client-ffi/src/ffi/mod.rs. Joins the
    rate-limit parsing of CertProvisioner.v to the loop of Retry.v. *)

From S2P Require Import Prelude RustStr CertProvisioner Retry Pool.
From stdpp Require Import pretty.
Open Scope string_scope.
Open Scope Z_scope.
Open Scope list_scope.

(** ** Errors *)

(** An [anyhow::Error]: its chain, outermost first, each link as it prints and what the
    code can downcast it to. *)
Record error_link := MkLink { link_text : string; link_kind : chain_link }.
Record anyhow_error := MkError { outermost : error_link; causes : list error_link }.
Definition chain (e : anyhow_error) : list error_link := outermost e :: causes e.

(** [format!("{e:#}")]: anyhow's alternate form, the chain joined by ": ". *)
Definition alternate (e : anyhow_error) : string := String.concat ": " (link_text <$> chain e).

(** The loop of [format_error_chain]. *)
Fixpoint push_causes (out : string) (parts : list string) : string :=
  match parts with
  | [] => out
  | cause :: parts => push_causes (out +:+ ": " +:+ cause) parts
  end.
Definition format_error_chain (e : anyhow_error) : string :=
  match link_text <$> chain e with
  | [] => ""
  | first :: parts => push_causes first parts
  end.

(** [RelayRejected(reason)] as it prints. *)
Definition relay_rejected (reason : string) : string := "rejected by relay: " +:+ reason.

(** ** Names *)

Definition budget_label (p : ReconnectPolicy) : string :=
  if max_attempts p =? 0 then "unlimited" else pretty (max_attempts p).

Definition transport_as_str (t : Transport) : string :=
  match t with Quic => "quic" | H2 => "h2" end.

(** ** [AttemptFailure] *)

Module AttemptFailure.
Definition new (cause : string) : AttemptFailure := Failure cause None.

Section from_error.
(** [time]'s parser of the date in a problem's detail, in seconds. *)
Context (parse_utc : string → option Z).

Definition from_error (e : anyhow_error) : AttemptFailure :=
  Failure (alternate e)
    (from_secs <$> CertProvisioner.rate_limited_until parse_utc (link_kind <$> chain e)).
End from_error.
End AttemptFailure.

(** ** Lemmas *)

Lemma concat_cons sep x y (l : list string) :
  String.concat sep (x :: y :: l) = x +:+ sep +:+ String.concat sep (y :: l).
Proof. done. Qed.

Lemma push_causes_concat out parts :
  push_causes out parts = String.concat ": " (out :: parts).
Proof.
  revert out. induction parts as [|c parts IH]; intros out; [done|].
  cbn [push_causes]. rewrite IH, concat_cons. destruct parts as [|d parts]; [done|].
  rewrite !concat_cons, !append_assoc. done.
Qed.

(** The string that crosses the FFI is the one the client logs. *)
Lemma format_error_chain_alternate e : format_error_chain e = alternate e.
Proof. unfold format_error_chain, alternate. cbn. apply push_causes_concat. Qed.

(** The first ACME problem of the chain is the one that counts. *)
Lemma rate_limited_first parse_utc pre type detail post :
  Forall (λ l, link_kind l = OtherError) pre →
  CertProvisioner.rate_limited_until parse_utc
    (link_kind <$> pre ++ MkLink type (Api (Some RATE_LIMITED) (Some detail)) :: post)
  = retry_after_in parse_utc detail.
Proof.
  intros Hpre. induction Hpre as [|[txt k] pre Hl _ IH]; cbn in *.
  - unfold CertProvisioner.rate_limited_until. cbn. by rewrite bool_decide_true.
  - subst k. exact IH.
Qed.

(** ** Properties *)

(** C38: an ACME rate limit is waited out. When an attempt on either transport fails with
    an error whose chain holds the CA's rate-limit problem and a readable "retry after"
    date, and the relay did not reject the agent, the loop neither gives up nor uses up
    budget, whatever budget is left: it reports the failure with the delay it then
    sleeps, which is at least [base_backoff] and ends no earlier than the date the CA
    named. *)
Theorem rate_limit_respected parse_utc force_h2 r bound it e pre text detail post until outcome b :
  chain e = pre ++ MkLink text (Api (Some RATE_LIMITED) (Some detail)) :: post →
  Forall (λ l, link_kind l = OtherError) pre →
  retry_after_in parse_utc detail = Some until →
  session_of force_h2 bound it = (outcome, b) →
  outcome = NeverUp (AttemptFailure.from_error parse_utc e) →
  it_reject it = None → it_stopped it = false → it_stop_in_wait it = false →
  ∃ s, iterate force_h2 r bound it = Again r b s ∧
    st_event s = Some (AttemptFailed (RetryState.next_attempt r) (alternate e) (st_wait s)) ∧
    base_backoff (policy r) ≤ st_wait s ∧ from_secs until ≤ it_now it + st_wait s.
Proof.
  intros Hch Hpre Hret Hses -> Hrej Hst Hw.
  assert (Hu : rate_limited_until (AttemptFailure.from_error parse_utc e) = Some (from_secs until)).
  { cbn [AttemptFailure.from_error rate_limited_until]. by rewrite Hch, rate_limited_first, Hret. }
  unfold iterate. rewrite Hst, Hses. unfold after_session. rewrite Hrej, Hu, Hw. cbn.
  eexists. split_and!; [done|done|cbn; lia|cbn; lia].
Qed.

(** ** Witness *)

Definition le_error : anyhow_error :=
  MkError (MkLink "ACME order for ab.example.com" OtherError)
    [MkLink "API error" (Api (Some RATE_LIMITED)
       (Some "too many failed authorizations (5), retry after 2026-09-24 13:00:43 UTC: see the docs"))].
Definition le_clock (s : string) : option Z :=
  if bool_decide (s = "2026-09-24 13:00:43 UTC") then Some 1790254843 else None.
Definition limited : iteration :=
  Iter false true (Some (NeverUp (AttemptFailure.from_error le_clock le_error))) Stopped None
    (from_secs 1790250000) false.

(** With the budget one failure away from its end the client sleeps until the CA's date. *)
Lemma rate_limit_respected_witness :
  let r := Retry ReconnectPolicy.default 4 (from_secs 32) in
  ∃ s, iterate false r true limited = Again r true s ∧ st_wait s = from_secs 4843 ∧
    from_secs 1790254843 ≤ it_now limited + st_wait s.
Proof.
  intros r.
  destruct (rate_limit_respected le_clock false r true limited le_error [outermost le_error] "API error"
    "too many failed authorizations (5), retry after 2026-09-24 13:00:43 UTC: see the docs" []
    1790254843 (NeverUp (AttemptFailure.from_error le_clock le_error)) true)
    as (s & Hi & _ & _ & Hd); try reflexivity.
  - by repeat constructor.
  - exists s. split; [exact Hi|]. split; [|exact Hd]. vm_compute in Hi. injection Hi as <-. reflexivity.
Defined.

(** ** A pool can forget a rate limit *)

(** Two pooled connections fail: the first on the CA's rate limit, the second because the
    relay closed it. *)
Definition limited_then_closed : pool_world :=
  let p := record_failure pool_new (AttemptError (AttemptFailure.from_error le_clock le_error)) in
  let p := (PoolLiveness.park 2 p).2 in
  let p := record_failure p (AttemptError (AttemptFailure.new "closed by relay")) in
  PW (PoolLiveness.park 2 p).2 [Parked 0; Parked 0] false.

Lemma limited_then_closed_reachable : rtc (pool_step 2) (pool_init 2) limited_then_closed.
Proof.
  eapply rtc_l; [apply (step_attempt_fails 2 pool_new [] [Attempting] false
                     (AttemptError (AttemptFailure.from_error le_clock le_error)))|].
  eapply rtc_l; [eapply (step_park 2 _ _ [] [Attempting] false); reflexivity|].
  eapply rtc_l; [apply (step_attempt_fails 2 _ [Parked 0] [] false
                     (AttemptError (AttemptFailure.new "closed by relay")))|].
  eapply rtc_l; [eapply (step_park 2 _ _ [Parked 0] [] false); reflexivity|]. apply rtc_refl.
Qed.

(** The failure slot keeps only the latest failure of a pool session: in a session in which
    one member was rate limited by the CA and another then failed for another reason, the
    loop is told of the latter only, so the session counts against the budget and is
    retried after the ordinary backoff. *)
Theorem pool_forgets_rate_limit :
  ∃ w f it, rtc (pool_step 2) (pool_init 2) w ∧ session_ends w (NeverUp f) ∧
    AttemptFailure.from_error le_clock le_error = Failure (alternate le_error) (Some (from_secs 1790254843)) ∧
    it = Iter false false None (NeverUp f) None (from_secs 1790250000) false ∧
    verdict_of it (NeverUp f) = Counts ∧
    ∃ r b s, iterate true (RetryState.new ReconnectPolicy.default) false it = Again r b s ∧
      it_now it + st_wait s < from_secs 1790254843.
Proof.
  exists limited_then_closed, (AttemptFailure.new "closed by relay"). eexists.
  split; [apply limited_then_closed_reachable|].
  split; [exact (ends_parked (pw_pool limited_then_closed) [Parked 0; Parked 0] false eq_refl)|].
  split; [vm_compute; reflexivity|]. split; [reflexivity|]. split; [reflexivity|].
  eexists _, _, _. split; [reflexivity|]. vm_compute. reflexivity.
Qed.
