(* ===== verification/ServerCert.v ===== *)
(** * ServerCert.v: tunnel-server/src/cert.rs

    The relay's own certificate: provisioning over ACME ([provision_acme_cert],
    [determine_cert]) as programs over the file system, the ACME server and the
    challenge slot, and [DiskCertResolver], whose handshakes and background renewals
    run concurrently, as a transition system over the resolver's shared fields. *)

From S2P Require Import Prelude Async Framing AcmeOrder CertProvisioner.
Open Scope string_scope.
Open Scope Z_scope.
Open Scope list_scope.
Open Scope tunnel_scope.

(** ** Configuration *)

Record AcmeDirectory := MkDirectory {
  staging : bool;
  directory_url : option string;
  root_ca_path : option string;
}.

(** [auth_handler] is given by whether it is set. *)
Record ServerConfig := MkConfig {
  bind_addr : string;
  api_port : Z;                         (** [u16] *)
  pub_port : Z;                         (** [u16] *)
  cfg_domain_suffixes : list string;
  cfg_cert_path : option string;
  cfg_key_path : option string;
  acme_domain : option string;
  acme_email : option string;
  acme_staging : bool;
  acme_directory_url : option string;
  acme_root_ca_path : option string;
  acme_creds_path : string;
  acme_renew_days_before_expiry : Z;    (** [u32] *)
  cfg_auth_handler : bool;
  cfg_h2_keepalive : H2KeepAlive.t;
}.

Definition from_config (config : ServerConfig) : AcmeDirectory :=
  MkDirectory (acme_staging config) (acme_directory_url config) (acme_root_ca_path config).

(** rcgen's key pairs and requests, serde's account credentials, rustls' private
    keys and Let's Encrypt's directory addresses are other crates' code. *)
Class ServerLibs := {
  key_pair : Type;
  key_from_pem : string → option key_pair;
  serialize_pem : key_pair → string;
  serialize_request : string → key_pair → option bytes;   (** the CSR for a domain *)
  credentials : Type;
  creds_from_str : string → option credentials;
  creds_to_string : credentials → string;
  staging_url : string;
  production_url : string;
}.

Section url.
Context `{ServerLibs}.
Definition url (d : AcmeDirectory) : string :=
  match directory_url d with
  | Some u => u
  | None => if staging d then staging_url else production_url
  end.
End url.

(** ** The environment *)

Section env.
Context `{ServerLibs}.

Inductive srv_op :=
| SExists (path : string)
| SReadFile (path : string)
| SWriteFile (path contents : string)
| SRename (from to : string)
| SNowUnix
| SGenerateKey
| SAccountFromCredentials (root : option string) (c : credentials)
| SCreateAccount (root : option string) (contact : option string) (directory : string)
| SNewOrder (domain : string)
| SOrderAuthorizations                   (** the authorizations fetched one by one *)
| SBuildAlpnAcceptor (domain key_authorization : string)
| SSetChallenge (c : option (string * string))
| SSetReady                              (** [challenge.set_ready()] *)
| SAcme (o : acme_op).                   (** the calls of [finalize_order] *)

Definition srv_ans (o : srv_op) : Type :=
  match o with
  | SExists _ => bool
  | SReadFile _ => option string
  | SWriteFile _ _ | SRename _ _ => bool
  | SNowUnix => Z
  | SGenerateKey => option key_pair
  | SAccountFromCredentials _ _ => bool
  | SCreateAccount _ _ _ => option credentials
  | SNewOrder _ => bool
  | SOrderAuthorizations => list (option Authorization)
  | SBuildAlpnAcceptor _ _ => bool
  | SSetChallenge _ => unit
  | SSetReady => bool
  | SAcme o => acme_ans o
  end.

Definition srv : iface := Iface srv_op srv_ans (λ _, true).

(** [finalize_order] with its calls made by the relay. *)
Fixpoint lift {A} (p : prog acme A) : prog srv A :=
  match p with
  | Ret a => Ret a
  | Vis o k => Vis (I := srv) (SAcme o) (λ x, lift (k x))
  end.

(** ** Provisioning *)

Definition mailto (email : option string) : option string :=
  match email with Some e => Some (String.append "mailto:" e) | None => None end.

Definition write_atomic (path contents : string) : prog srv bool :=
  let tmp := String.append path ".tmp" in
  ok <-! call (I := srv) (SWriteFile tmp contents) ;;
  if (ok : bool) then call (I := srv) (SRename tmp path) else Ret false.

Definition load_or_generate_keypair (path : string) : prog srv (option key_pair) :=
  there <-! call (I := srv) (SExists path) ;;
  if (there : bool) then
    pem <-! call (I := srv) (SReadFile path) ;;
    Ret ((pem : option string) ≫= key_from_pem)
  else
    kp <-! call (I := srv) SGenerateKey ;;
    match (kp : option key_pair) with
    | None => Ret None
    | Some kp =>
        ok <-! call (I := srv) (SWriteFile path (serialize_pem kp)) ;;
        Ret (if (ok : bool) then Some kp else None)
    end.

Definition acme_load_or_create_account (email : option string) (directory : AcmeDirectory)
    (path : string) : prog srv bool :=
  there <-! call (I := srv) (SExists path) ;;
  if (there : bool) then
    json <-! call (I := srv) (SReadFile path) ;;
    match (json : option string) ≫= creds_from_str with
    | None => Ret false
    | Some c => call (I := srv) (SAccountFromCredentials (root_ca_path directory) c)
    end
  else
    r <-! call (I := srv) (SCreateAccount (root_ca_path directory) (mailto email) (url directory)) ;;
    match (r : option credentials) with
    | None => Ret false
    | Some c => call (I := srv) (SWriteFile path (creds_to_string c))
    end.

(** The challenge loop of [finalize_acme_order]. *)
Fixpoint set_challenge_ready (authzs : list (option Authorization)) : prog srv bool :=
  match authzs with
  | [] => Ret true
  | None :: _ => Ret false
  | Some a :: rest =>
      if authz_valid a then set_challenge_ready rest
      else match tls_alpn_01 a with
           | Some _ => call (I := srv) SSetReady
           | None => set_challenge_ready rest
           end
  end.

Definition finalize_acme_order (csr_der : bytes) : prog srv (option string) :=
  authzs <-! call (I := srv) SOrderAuthorizations ;;
  ready <-! set_challenge_ready authzs ;;
  if negb ready then Ret None
  else r <-! lift (finalize_order csr_der) ;; Ret (ok r).

Definition provision_acme_cert (domain : string) (email : option string) (directory : AcmeDirectory)
    (creds_path cert_path key_path : string) : prog srv (option unit) :=
  keypair <-? load_or_generate_keypair key_path ;;
  match serialize_request domain keypair with
  | None => Ret None
  | Some csr_der =>
      account <-! acme_load_or_create_account email directory creds_path ;;
      if negb account then Ret None
      else
        order <-! call (I := srv) (SNewOrder domain) ;;
        if negb (order : bool) then Ret None
        else
          authzs <-! call (I := srv) SOrderAuthorizations ;;
          match order_challenge authzs "" "" with
          | None => Ret None
          | Some (key_authorization, _) =>
              acceptor <-! call (I := srv) (SBuildAlpnAcceptor domain key_authorization) ;;
              if negb (acceptor : bool) then Ret None
              else
                call (I := srv) (SSetChallenge (Some (domain, key_authorization))) ;;!
                issued <-! finalize_acme_order csr_der ;;
                call (I := srv) (SSetChallenge None) ;;!
                match issued with
                | None => Ret None
                | Some cert_chain_pem =>
                    ok <-! write_atomic key_path (serialize_pem keypair) ;;
                    if negb (ok : bool) then Ret None
                    else
                      ok <-! write_atomic cert_path cert_chain_pem ;;
                      Ret (if (ok : bool) then Some tt else None)
                end
          end
  end.

Definition is_cert_expired `{Pem} (path : string) : prog srv bool :=
  pem <-! call (I := srv) (SReadFile path) ;;
  match (s ← (pem : option string); d ← first_cert s; parse_leaf d) with
  | None => Ret true
  | Some cert => now <-! call (I := srv) SNowUnix ;; Ret (not_after cert <? now)
  end.

(** [Ok(Some((cert_path, key_path, is_acme_managed)))], [Ok(None)] for the self-signed
    fallback. *)
Definition determine_cert `{Pem} (config : ServerConfig) :
    prog srv (result unit (option (string * string * bool))) :=
  let is_acme := bool_decide (is_Some (acme_domain config)) in
  if bool_decide (cfg_cert_path config = None) && negb is_acme then Ret (Ok None)
  else
    let cert_p := default "server_cert.pem" (cfg_cert_path config) in
    let key_p := default "server.key" (cfg_key_path config) in
    expired <-! is_cert_expired cert_p ;;
    if negb expired then Ret (Ok (Some (cert_p, key_p, is_acme)))
    else
      match acme_domain config with
      | Some domain =>
          r <-! provision_acme_cert domain (acme_email config) (from_config config)
                  (acme_creds_path config) cert_p key_p ;;
          Ret (match r with Some _ => Ok (Some (cert_p, key_p, true)) | None => Err tt end)
      | None => Ret (Ok None)
      end.

(** The renewal settings [build_server_tls_config] gives the resolver. *)
Record AcmeRenewalConfig := MkRenewal {
  rn_domain : string;
  rn_email : option string;
  rn_directory : AcmeDirectory;
  rn_creds_path : string;
  rn_cert_path : string;
  rn_key_path : string;
  renew_before_secs : Z;
}.

Definition renewal_config (config : ServerConfig) (cert_paths : string * string * bool)
    : option AcmeRenewalConfig :=
  let '(cert_path, key_path, is_acme) := cert_paths in
  if is_acme then
    (λ domain, MkRenewal domain (acme_email config) (from_config config) (acme_creds_path config)
                 cert_path key_path (acme_renew_days_before_expiry config * 86400)) <$> acme_domain config
  else None.

(** What a run read of the certificate at [path], [seen] being its calls and answers: a
    certificate that had not expired, or none that can be used. *)
Definition leaf_read `{Pem} (pem : option string) : option Leaf :=
  s ← pem; d ← first_cert s; parse_leaf d.
Definition cert_usable `{Pem} (path : string) (seen : event srv → Prop) : Prop :=
  ∃ pem cert now, seen (Event (I := srv) (SReadFile path) pem) ∧ leaf_read pem = Some cert ∧
    seen (Event (I := srv) SNowUnix now) ∧ now ≤ not_after cert.
Definition cert_unusable `{Pem} (path : string) (seen : event srv → Prop) : Prop :=
  ∃ pem, seen (Event (I := srv) (SReadFile path) pem) ∧
    (leaf_read pem = None ∨
     ∃ cert now, leaf_read pem = Some cert ∧ seen (Event (I := srv) SNowUnix now) ∧ not_after cert < now).

(** The configured certificate and key, or their default paths. *)
Definition configured_cert (config : ServerConfig) : string := default "server_cert.pem" (cfg_cert_path config).
Definition configured_key (config : ServerConfig) : string := default "server.key" (cfg_key_path config).

(** The certificate a relay is to serve: with an ACME domain the configured paths, managed
    by ACME; with only a certificate path that certificate, or the self-signed fallback
    when it cannot be used; with neither the self-signed one. *)
Definition cert_choice `{Pem} (config : ServerConfig) (seen : event srv → Prop)
    (c : option (string * string * bool)) : Prop :=
  match acme_domain config, cfg_cert_path config with
  | Some _, _ => c = Some (configured_cert config, configured_key config, true)
  | None, None => c = None
  | None, Some path =>
      c = Some (path, configured_key config, false) ∧ cert_usable path seen ∨
      c = None ∧ cert_unusable path seen
  end.

Lemma is_cert_expired_read `{Pem} path :
  wp (is_cert_expired path) (λ tr r,
    if (r : bool) then cert_unusable path (.∈ tr) else cert_usable path (.∈ tr)).
Proof.
  unfold is_cert_expired. cbn [prog_bind call wp]. intros pem. cbn [prog_bind].
  change (pem ≫= _) with (leaf_read pem).
  destruct (leaf_read pem) as [cert|] eqn:E; cbn [wp prog_bind call].
  - intros now. destruct (Z.ltb_spec (not_after cert) now).
    + exists pem. split; [set_solver|]. right. exists cert, now. split_and!; [done|set_solver|done].
    + exists pem, cert, now. split_and!; [set_solver|done|set_solver|done].
  - exists pem. split; [set_solver|by left].
Qed.

Lemma determine_cert_choice `{Pem} config :
  wp (determine_cert config) (λ tr r, ∀ c, r = Ok c → cert_choice config (.∈ tr) c).
Proof.
  unfold determine_cert, cert_choice, configured_cert, configured_key.
  destruct (acme_domain config) as [d|] eqn:Hd.
  - rewrite andb_comm, bool_decide_true by by eexists. cbn [negb andb]. rewrite wp_bind.
    eapply wp_mono; [|apply wp_true]. intros tr [|] _; cbn [negb].
    + rewrite wp_bind. eapply wp_mono; [|apply wp_true]. intros tr' [[]|] _ c; by intros [= <-].
    + by intros c [= <-].
  - rewrite (bool_decide_false (is_Some None)) by by intros []. cbn [negb].
    destruct (cfg_cert_path config) as [path|]; cbn [bool_decide andb default from_option].
    + rewrite bool_decide_false by done. cbn [andb]. rewrite wp_bind.
      eapply wp_mono; [|apply is_cert_expired_read].
      intros tr [|] Hx c; cbn [negb]; intros [= <-]; rewrite app_nil_r; [by right|by left].
    + rewrite bool_decide_true by done. by intros c [= <-].
Qed.
End env.

(** ** What provisioning leaves on disk *)

(** File contents by path; [Some None] is a file torn by a failed write. *)
Abbreviation disk_state := (gmap string (option string)).

Section disk.
Context `{ServerLibs}.

Definition disk_step (m : disk_state) (e : event srv) : disk_state :=
  match e with
  | Event (SWriteFile p c) ok => <[p := if (ok : bool) then Some c else None]> m
  | Event (SRename a b) ok =>
      if (ok : bool) then match m !! a with Some v => <[b := v]> (delete a m) | None => m end else m
  | _ => m
  end.
Definition disk (tr : trace srv) (m : disk_state) : disk_state := foldl disk_step m tr.

Lemma disk_app tr tr' m : disk (tr ++ tr') m = disk tr' (disk tr m).
Proof. apply foldl_app. Qed.

(** The operation does not change the file [p]. *)
Definition quiet (p : string) (o : srv_op) : Prop :=
  match o with
  | SWriteFile q _ => q ≠ p
  | SRename a b => a ≠ p ∧ b ≠ p
  | _ => True
  end.

Lemma disk_step_quiet p m (e : event srv) : quiet p (ev_op e) → disk_step m e !! p = m !! p.
Proof.
  destruct e as [[] x]; cbn; try done.
  - intros. by rewrite lookup_insert_ne.
  - intros [Ha Hb]. destruct x; [|done]. destruct (m !! from); [|done].
    by rewrite lookup_insert_ne, lookup_delete_ne.
Qed.

Lemma disk_quiet p (tr : trace srv) m : Forall (λ e : event srv, quiet p (ev_op e)) tr → disk tr m !! p = m !! p.
Proof.
  intros Hq. revert m. induction Hq as [|e tr He _ IH]; intros m; [done|].
  change (disk (e :: tr) m) with (disk tr (disk_step m e)). rewrite IH. by apply disk_step_quiet.
Qed.

(** No file is touched at all. *)
Definition no_files (o : srv_op) : Prop :=
  match o with SWriteFile _ _ | SRename _ _ => False | _ => True end.

Lemma only_lift {A} (S : srv_op → Prop) (p : prog acme A) :
  (∀ o, S (SAcme o)) → only (I := srv) S (lift p).
Proof. intros HS. induction p as [a|o k IH]; [done|]. cbn. eauto. Qed.

Lemma wp_lift {A} (p : prog acme A) (Q : trace acme → A → Prop) :
  wp p Q → wp (lift p) (λ tr a, ∃ tr', tr = (λ e : event acme, Event (I := srv) (SAcme (ev_op e)) (ev_ans e)) <$> tr' ∧ Q tr' a).
Proof.
  revert Q. induction p as [a|o k IH]; intros Q Hw; cbn in *; [by exists []|].
  intros x. eapply wp_mono; [|apply IH, Hw]. intros tr a (tr' & -> & HQ).
  by exists (Event (I := acme) o x :: tr').
Qed.

Lemma only_set_challenge_ready authzs :
  only (I := srv) (λ o, o = SSetReady) (set_challenge_ready authzs).
Proof.
  induction authzs as [|[a|] rest IH]; cbn; [done| |done].
  destruct (authz_valid a); [done|]. by destruct (tls_alpn_01 a).
Qed.

Lemma only_finalize csr :
  only (I := srv) (λ o, match o with SOrderAuthorizations | SSetReady | SAcme _ => True | _ => False end)
    (finalize_acme_order csr).
Proof.
  unfold finalize_acme_order. cbn [prog_bind call]. split; [done|]. intros authzs. cbn [prog_bind].
  apply only_bind; [eapply only_mono; [|apply only_set_challenge_ready]; by intros ? ->|].
  intros [|]; cbn [negb]; [|done]. apply only_bind; [by apply only_lift|done].
Qed.

(** A certificate comes with the submitted request. *)
Lemma finalize_acme_order_post csr :
  wp (finalize_acme_order csr) (λ tr r, ∀ pem, r = Some pem →
    Event (I := srv) (SAcme (AFinalizeCsr csr)) true ∈ tr ∧
    Event (I := srv) (SAcme ACertificate) (Some (Some pem)) ∈ tr).
Proof.
  unfold finalize_acme_order. cbn [prog_bind call]. intros authzs. cbn [prog_bind]. rewrite wp_bind.
  eapply wp_mono; [|apply (proj2 (runs_wp _ (λ _ _, True))); done].
  intros tr1 [|] _; cbn [negb]; [|done]. rewrite wp_bind.
  eapply wp_mono; [|apply wp_lift, finalize_order_post].
  intros tr r (tr' & -> & H') pem Hp. destruct r as [pem'|]; [|done]. cbn in Hp. simplify_eq.
  destruct (H' pem eq_refl) as (_ & H1 & H2). rewrite app_nil_r.
  split; right; apply elem_of_app; right.
  - by apply (list_elem_of_fmap_2 (λ e : event acme, Event (I := srv) (SAcme (ev_op e)) (ev_ans e))) in H1.
  - by apply (list_elem_of_fmap_2 (λ e : event acme, Event (I := srv) (SAcme (ev_op e)) (ev_ans e))) in H2.
Qed.
End disk.

Section provisioning.
Context `{ServerLibs}.
Context (domain : string) (email : option string) (directory : AcmeDirectory).
Context (creds_path cert_path key_path : string) (m0 : disk_state).
Abbreviation tmp p := (String.append p ".tmp").
Context (Hpaths : NoDup [cert_path; tmp cert_path; key_path; tmp key_path; creds_path]).

(** The key pair the run works with. *)
Definition key_read (tr : trace srv) (kp : key_pair) : Prop :=
  ∃ s, Event (I := srv) (SReadFile key_path) (Some s) ∈ tr ∧ key_from_pem s = Some kp.
Definition run_key (tr : trace srv) (kp : key_pair) : Prop :=
  Event (I := srv) SGenerateKey (Some kp) ∈ tr ∨ key_read tr kp.
Definition key_existed (tr : trace srv) : Prop :=
  Event (I := srv) (SExists key_path) true ∈ tr.

(** The certificate file is the old one, or complete, issued in this run and paired
    with the key its request was made with; a key that existed is kept. *)
Definition disk_safe (tr : trace srv) : Prop :=
  let m := disk tr m0 in
  (m !! cert_path = m0 !! cert_path ∨
   ∃ pem kp csr, m !! cert_path = Some (Some pem) ∧ m !! key_path = Some (Some (serialize_pem kp)) ∧
     run_key tr kp ∧ serialize_request domain kp = Some csr ∧
     Event (I := srv) (SAcme (AFinalizeCsr csr)) true ∈ tr ∧
     Event (I := srv) (SAcme ACertificate) (Some (Some pem)) ∈ tr) ∧
  (key_existed tr →
   m !! key_path = m0 !! key_path ∨
   ∃ kp, key_read tr kp ∧ m !! key_path = Some (Some (serialize_pem kp))).

(** A torn key file: it was there before, or no key was, and the certificate is the old one. *)
Lemma disk_safe_torn tr :
  disk_safe tr → disk tr m0 !! key_path = Some None →
  disk tr m0 !! cert_path = m0 !! cert_path ∧ (key_existed tr → m0 !! key_path = Some None).
Proof.
  intros [Hc Hk] Ht. split.
  - destruct Hc as [Hc|(pem & kp & csr & _ & Hkey & _)]; [done|]. by rewrite Ht in Hkey.
  - intros Hx. destruct (Hk Hx) as [Hk'|(kp & _ & Hk')]; congruence.
Qed.

(** Up to the first rename: neither file has been replaced. *)
Record before_write (kp : key_pair) (tr : trace srv) : Prop := {
  bw_cert : Forall (λ e : event srv, quiet cert_path (ev_op e)) tr;
  bw_key : key_existed tr → Forall (λ e : event srv, quiet key_path (ev_op e)) tr;
  bw_run : run_key tr kp;
  bw_read : key_existed tr → key_read tr kp;
}.

(** Operations that leave both files alone. *)
Definition aside (o : srv_op) : Prop :=
  quiet cert_path o ∧ quiet key_path o ∧ o ≠ SExists key_path.

Lemma run_key_app tr tr' kp : run_key tr kp → run_key (tr ++ tr') kp.
Proof.
  intros [Hg|(s & Hs & Hk)]; [left|right; exists s; split; [|done]]; apply elem_of_app; by left.
Qed.

Lemma key_existed_app tr tr' :
  Forall (λ e : event srv, ev_op e ≠ SExists key_path) tr' → key_existed (tr ++ tr') → key_existed tr.
Proof.
  intros Hq [Hx|Hx]%elem_of_app; [done|]. rewrite Forall_forall in Hq. by destruct (Hq _ Hx).
Qed.

Lemma key_existed_aside tr tr' :
  Forall (λ e : event srv, aside (ev_op e)) tr' → key_existed (tr ++ tr') → key_existed tr.
Proof.
  intros Hq. apply key_existed_app. eapply Forall_impl; [done|]. by intros e (_ & _ & ?).
Qed.

Lemma before_write_aside kp tr tr' :
  before_write kp tr → Forall (λ e : event srv, aside (ev_op e)) tr' → before_write kp (tr ++ tr').
Proof.
  intros [H1 H2 H3 H4] Hq. split.
  - apply Forall_app. split; [done|]. eapply Forall_impl; [done|]. by intros e (? & _).
  - intros Hx%key_existed_aside; [|done]. apply Forall_app. split; [auto|].
    eapply Forall_impl; [done|]. by intros e (_ & ? & _).
  - by apply run_key_app.
  - intros Hx%key_existed_aside; [|done]. destruct (H4 Hx) as (s & Hs & Hk).
    exists s. split; [|done]. apply elem_of_app. by left.
Qed.

Lemma before_write_safe kp tr : before_write kp tr → disk_safe tr.
Proof.
  intros [H1 H2 H3 H4]. split; [left; by apply disk_quiet|].
  intros Hx. left. by apply disk_quiet, H2.
Qed.

(** [p] runs after [pre], safe throughout. *)
Definition safe_after {A} (pre : trace srv) (p : prog srv A) : Prop :=
  always p (λ tr, disk_safe (pre ++ tr)).

Lemma safe_after_ret {A} pre (a : A) : disk_safe pre → safe_after pre (Ret a).
Proof. intros Hs. split; [|done]. by rewrite app_nil_r. Qed.

Lemma safe_after_vis {A} pre (o : op srv) (k : ans srv o → prog srv A) :
  disk_safe pre → (∀ x, safe_after (pre ++ [Event o x]) (k x)) → safe_after pre (Vis o k).
Proof.
  intros Hs Hk. split; [by rewrite app_nil_r|]. intros x.
  eapply always_mono; [|apply Hk]. intros tr HH. cbn in HH. by rewrite <-app_assoc in HH.
Qed.

Lemma safe_after_bind {A B} kp pre (p : prog srv A) (f : A → prog srv B) R :
  before_write kp pre → only (I := srv) aside p → wp p R →
  (∀ tr a, R tr a → before_write kp (pre ++ tr) → safe_after (pre ++ tr) (f a)) →
  safe_after pre (prog_bind f p).
Proof.
  intros Hb Ho Hr Hf. apply always_bind. split.
  - eapply always_mono; [|by apply only_always]. intros tr Hq.
    by eapply before_write_safe, before_write_aside.
  - eapply wp_mono; [|exact (wp_and _ _ _ Hr (only_wp _ _ Ho))]. intros tr a [HR Hq].
    eapply always_mono; [|apply (Hf tr a HR); by apply before_write_aside].
    intros tr' HH. cbn in *. by rewrite app_assoc.
Qed.

Lemma paths_neq :
  cert_path ≠ tmp cert_path ∧ cert_path ≠ key_path ∧ cert_path ≠ tmp key_path ∧
  cert_path ≠ creds_path ∧ key_path ≠ tmp cert_path ∧ key_path ≠ tmp key_path ∧
  key_path ≠ creds_path ∧ tmp key_path ≠ tmp cert_path.
Proof.
  revert Hpaths. rewrite !NoDup_cons, !not_elem_of_cons. naive_solver.
Qed.

Lemma aside_any o : no_files o → o ≠ SExists key_path → aside o.
Proof. intros Hf Hne. split_and!; [| |done]; by destruct o. Qed.

(** Loading or generating the key. *)
Lemma load_safe {A} (f : option key_pair → prog srv A) :
  (∀ tr, disk_safe tr → safe_after tr (f None)) →
  (∀ kp tr, before_write kp tr → safe_after tr (f (Some kp))) →
  safe_after [] (prog_bind f (load_or_generate_keypair key_path)).
Proof.
  pose proof paths_neq as Hne. intros Hn Hf.
  unfold load_or_generate_keypair. cbn [prog_bind call].
  apply safe_after_vis; [by split; left|]. intros there. cbn [app].
  assert (H0 : disk_safe [Event (I := srv) (SExists key_path) there]) by (by split; left).
  destruct there; cbn [prog_bind]; (apply safe_after_vis; [done|]); cbn [app prog_bind].
  - intros [pem|]; [|by apply Hn; split; left]. cbn [mbind option_bind].
    destruct (key_from_pem pem) as [kp|] eqn:Hk; [|by apply Hn; split; left].
    assert (Hr : key_read [Event (I := srv) (SExists key_path) true;
                           Event (I := srv) (SReadFile key_path) (Some pem)] kp)
      by (exists pem; split; [set_solver|done]).
    apply Hf. split; [|intros _|by right|done]; by repeat constructor.
  - intros [kp|]; [|by apply Hn; split; left]. cbn [prog_bind].
    apply safe_after_vis; [by split; left|]. intros ok. cbn [app prog_bind].
    assert (Hx : ¬ key_existed [Event (I := srv) (SExists key_path) false;
                              Event (I := srv) SGenerateKey (Some kp);
                              Event (I := srv) (SWriteFile key_path (serialize_pem kp)) ok]).
    { unfold key_existed. rewrite !elem_of_cons, elem_of_nil.
      intros [He|[He|[He|[]]]]; try discriminate He.
      by apply (f_equal (λ e : event srv, match e with Event (SExists _) b => b | _ => false end)) in He. }
    assert (Hb : before_write kp [Event (I := srv) (SExists key_path) false;
                              Event (I := srv) SGenerateKey (Some kp);
                              Event (I := srv) (SWriteFile key_path (serialize_pem kp)) ok]).
    { split; [|done|left; set_solver|done]. repeat constructor. cbn. naive_solver. }
    destruct ok; cbn [prog_bind]; [by apply Hf|]. by eapply Hn, before_write_safe.
Qed.

Lemma only_account :
  only (I := srv) aside (acme_load_or_create_account email directory creds_path).
Proof.
  pose proof paths_neq as Hne. unfold acme_load_or_create_account. cbn [prog_bind call].
  split; [apply aside_any; [done|]; naive_solver|]. intros [|]; cbn [prog_bind].
  - split; [by apply aside_any|]. intros json. cbn [prog_bind].
    destruct (_ ≫= _); [|done]. by split; [apply aside_any|].
  - split; [by apply aside_any|]. intros [c|]; [|done]. cbn [prog_bind].
    split; [|done]. split_and!; cbn; naive_solver.
Qed.

Lemma write_atomic_disk path contents tr m :
  path ≠ tmp path →
  disk (tr ++ [Event (I := srv) (SWriteFile (tmp path) contents) true;
               Event (I := srv) (SRename (tmp path) path) true]) m
  = <[path := Some contents]> (delete (tmp path) (<[tmp path := Some contents]> (disk tr m))).
Proof. intros Hne. rewrite disk_app. cbn. by rewrite lookup_insert_eq. Qed.

(** The key is in place: writing the certificate. *)
Lemma cert_write_safe kp csr pem pre :
  serialize_request domain kp = Some csr →
  Forall (λ e : event srv, quiet cert_path (ev_op e)) pre →
  run_key pre kp → (key_existed pre → key_read pre kp) →
  disk pre m0 !! key_path = Some (Some (serialize_pem kp)) →
  Event (I := srv) (SAcme (AFinalizeCsr csr)) true ∈ pre →
  Event (I := srv) (SAcme ACertificate) (Some (Some pem)) ∈ pre →
  safe_after pre
    (ok <-! write_atomic cert_path pem ;; Ret (if (ok : bool) then Some tt else None)).
Proof.
  pose proof paths_neq as (N1 & N2 & N3 & N4 & N5 & N6 & N7 & N8).
  intros Hcsr Hqc Hrun Hread Hkey H1 H2.
  assert (Hsafe : ∀ w, Forall (λ e : event srv, ev_op e ≠ SExists key_path) w →
            Forall (λ e : event srv, quiet key_path (ev_op e)) w →
            (disk (pre ++ w) m0 !! cert_path = m0 !! cert_path ∨
             disk (pre ++ w) m0 !! cert_path = Some (Some pem)) →
            disk_safe (pre ++ w)).
  { intros w Hw Hqk Hc.
    assert (Hk : disk (pre ++ w) m0 !! key_path = Some (Some (serialize_pem kp)))
      by (by rewrite disk_app, disk_quiet).
    split.
    - destruct Hc as [Hc|Hc]; [by left|].
      right. exists pem, kp, csr. split_and!; [done..|by apply run_key_app|done| |];
        apply elem_of_app; by left.
    - intros Hx%key_existed_app; [|done]. right. exists kp. split; [|done].
      destruct (Hread Hx) as (s & Hs & Hks). exists s. split; [|done]. apply elem_of_app. by left. }
  unfold write_atomic. cbn [prog_bind call].
  assert (Hpre : disk pre m0 !! cert_path = m0 !! cert_path) by (by apply disk_quiet).
  apply safe_after_vis.
  { rewrite <-(app_nil_r pre). apply Hsafe; [constructor..|]. left. by rewrite app_nil_r. }
  intros ok. cbn [prog_bind].
  assert (Hs1 : disk_safe (pre ++ [Event (I := srv) (SWriteFile (tmp cert_path) pem) ok])).
  { apply Hsafe; [repeat constructor; cbn; congruence..|]. left.
    rewrite disk_app, disk_quiet; [done|]. repeat constructor; cbn; congruence. }
  destruct ok; cbn [prog_bind]; [|by apply safe_after_ret].
  apply safe_after_vis; [done|]. intros ok. rewrite <-app_assoc. cbn [app prog_bind].
  apply safe_after_ret, Hsafe; [by repeat constructor|repeat constructor; cbn; congruence|].
  destruct ok; [right|left].
  - rewrite write_atomic_disk by done. by rewrite lookup_insert_eq.
  - rewrite disk_app. cbn. by rewrite lookup_insert_ne by congruence.
Qed.

(** The two writes at the end. *)
Lemma writes_safe kp csr pem pre :
  before_write kp pre → serialize_request domain kp = Some csr →
  Event (I := srv) (SAcme (AFinalizeCsr csr)) true ∈ pre →
  Event (I := srv) (SAcme ACertificate) (Some (Some pem)) ∈ pre →
  safe_after pre
    (ok <-! write_atomic key_path (serialize_pem kp) ;;
     if negb (ok : bool) then Ret None
     else ok <-! write_atomic cert_path pem ;; Ret (if (ok : bool) then Some tt else None)).
Proof.
  pose proof paths_neq as (N1 & N2 & N3 & N4 & N5 & N6 & N7 & N8).
  intros Hb Hcsr H1 H2. unfold write_atomic. cbn [prog_bind call].
  apply safe_after_vis; [by eapply before_write_safe|]. intros ok. cbn [prog_bind].
  assert (Hb1 : before_write kp (pre ++ [Event (I := srv) (SWriteFile (tmp key_path) (serialize_pem kp)) ok])).
  { apply before_write_aside; [done|]. repeat constructor; cbn; done || naive_solver. }
  destruct ok; cbn [prog_bind negb]; [|by eapply safe_after_ret, before_write_safe].
  apply safe_after_vis; [by eapply before_write_safe|]. intros ok. rewrite <-app_assoc. cbn [app].
  set (w1 := [_; _]) in |- *.
  assert (Hpre : key_existed (pre ++ w1) → key_existed pre) by (apply key_existed_app; by repeat constructor).
  assert (Hqc : Forall (λ e : event srv, quiet cert_path (ev_op e)) (pre ++ w1)).
  { apply Forall_app. split; [apply (bw_cert _ _ Hb)|]. repeat constructor; cbn; congruence. }
  destruct ok; cbn [prog_bind negb].
  2: { apply safe_after_ret. split; [left; by apply disk_quiet|]. intros Hx. left.
       rewrite disk_app. subst w1. cbn. rewrite lookup_insert_ne by congruence.
       by apply disk_quiet, (bw_key _ _ Hb), Hpre. }
  apply (cert_write_safe kp csr); [done|done|apply run_key_app, (bw_run _ _ Hb)| | |apply elem_of_app; by left..].
  - intros Hx%Hpre. destruct (bw_read _ _ Hb Hx) as (s & Hs & Hk). exists s.
    split; [|done]. apply elem_of_app. by left.
  - subst w1. rewrite write_atomic_disk by done. by rewrite lookup_insert_eq.
Qed.

Lemma provision_safe :
  safe_after [] (provision_acme_cert domain email directory creds_path cert_path key_path).
Proof.
  unfold provision_acme_cert.
  apply load_safe; [intros tr Hs; by apply safe_after_ret|]. intros kp tr Hb.
  destruct (serialize_request domain kp) as [csr|] eqn:Hcsr;
    [|by eapply safe_after_ret, before_write_safe].
  assert (Hcall : ∀ pre (o : op srv) {A} (k : ans srv o → prog srv A),
            before_write kp pre → aside o →
            (∀ x, before_write kp (pre ++ [Event o x]) → safe_after (pre ++ [Event o x]) (k x)) →
            safe_after pre (Vis o k)).
  { intros pre o A k Hpre Ho Hk. apply safe_after_vis; [by eapply before_write_safe|].
    intros x. apply Hk, before_write_aside; [done|]. by apply Forall_singleton. }
  eapply (safe_after_bind kp _ _ _ (λ _ _, True)); [done|apply only_account|by apply runs_wp|].
  intros t1 account _ H1. destruct account; cbn [negb]; [|by eapply safe_after_ret, before_write_safe].
  cbn [prog_bind call]. apply Hcall; [done|by apply aside_any|]. intros [|] H2; cbn [prog_bind negb];
    [|by eapply safe_after_ret, before_write_safe].
  apply Hcall; [done|by apply aside_any|]. intros authzs H3; cbn [prog_bind].
  destruct (order_challenge authzs "" "") as [[ka u]|]; [|by eapply safe_after_ret, before_write_safe].
  apply Hcall; [done|by apply aside_any|]. intros [|] H4; cbn [prog_bind negb];
    [|by eapply safe_after_ret, before_write_safe].
  apply Hcall; [done|by apply aside_any|]. intros [] H5; cbn [prog_bind].
  eapply (safe_after_bind kp); [done| |apply finalize_acme_order_post|].
  { eapply only_mono; [|apply only_finalize]. intros o Ho. apply aside_any; by destruct o. }
  intros t2 issued Hissued H6. apply Hcall; [done|by apply aside_any|]. intros [] H7; cbn [prog_bind].
  destruct issued as [pem|]; [|by eapply safe_after_ret, before_write_safe].
  destruct (Hissued pem eq_refl) as [E1 E2].
  apply (writes_safe kp csr); [done|done|..]; apply elem_of_app; left; apply elem_of_app; by right.
Qed.

(** The challenge slot at the end of a run. *)
Definition slot_step (c : option (string * string)) (e : event srv) : option (string * string) :=
  match ev_op e with SSetChallenge c' => c' | _ => c end.
Definition slot_after (tr : trace srv) (c : option (string * string)) : option (string * string) :=
  foldl slot_step c tr.

Definition no_slot (o : srv_op) : Prop := match o with SSetChallenge _ => False | _ => True end.

Lemma slot_app tr tr' c : slot_after (tr ++ tr') c = slot_after tr' (slot_after tr c).
Proof. apply foldl_app. Qed.

Lemma slot_quiet (tr : trace srv) c :
  Forall (λ e : event srv, no_slot (ev_op e)) tr → slot_after tr c = c.
Proof.
  intros Hq. revert c. induction Hq as [|e tr He _ IH]; intros c; [done|].
  change (slot_after (e :: tr) c) with (slot_after tr (slot_step c e)). rewrite IH.
  unfold slot_step. by destruct (ev_op e).
Qed.

Lemma slot_wp {A} (p : prog srv A) c : only (I := srv) no_slot p → wp p (λ tr _, slot_after tr c = c).
Proof. intros Ho. eapply wp_mono; [|by apply only_wp]. intros tr a Hq. by apply slot_quiet. Qed.

Lemma no_slot_load : only (I := srv) no_slot (load_or_generate_keypair key_path).
Proof. cbn. split; [done|]. intros [|]; cbn; (split; [done|]); [done|]. by intros [|]. Qed.

Lemma no_slot_account : only (I := srv) no_slot (acme_load_or_create_account email directory creds_path).
Proof.
  cbn. split; [done|]. intros [|]; cbn; (split; [done|]).
  - intros json. cbn. by destruct (json ≫= creds_from_str).
  - by intros [|].
Qed.

Lemma no_slot_write path c : only (I := srv) no_slot (write_atomic path c).
Proof. cbn. split; [done|]. by intros [|]. Qed.

(** Replaces the certificate last. *)
Definition cert_written (tr : trace srv) : Prop :=
  ∃ tr' pem, tr = tr' ++ [Event (I := srv) (SWriteFile (tmp cert_path) pem) true;
                          Event (I := srv) (SRename (tmp cert_path) cert_path) true].

Lemma provision_slot :
  wp (provision_acme_cert domain email directory creds_path cert_path key_path)
    (λ tr r, slot_after tr None = None ∧ (r = Some tt → cert_written tr)).
Proof.
  unfold provision_acme_cert. rewrite wp_bind. eapply wp_mono; [|apply (slot_wp _ None), no_slot_load].
  intros t1 [kp|] H1; [|by cbn [wp]; rewrite app_nil_r].
  destruct (serialize_request domain kp) as [csr|]; [|by cbn [wp]; rewrite app_nil_r].
  rewrite wp_bind. eapply wp_mono; [|apply (slot_wp _ None), no_slot_account].
  intros t2 [|] H2; cbn [negb wp]; [|by rewrite app_nil_r, slot_app, H1].
  cbn [prog_bind call]. intros [|]; cbn [prog_bind negb wp]; [|by rewrite !slot_app, H1, H2].
  intros authzs. cbn [prog_bind].
  destruct (order_challenge authzs "" "") as [[ka u]|]; cbn [wp]; [|by rewrite !slot_app, H1, H2].
  intros [|]; cbn [prog_bind negb wp]; [|by rewrite !slot_app, H1, H2].
  intros []. cbn [prog_bind]. rewrite wp_bind.
  eapply wp_mono; [|apply (slot_wp _ (Some (domain, ka))); eapply only_mono; [|apply only_finalize];
    by intros []].
  intros t3 issued H3. cbn [prog_bind wp]. intros [].
  assert (Hend : ∀ tr', slot_after tr' None = None →
    slot_after (t1 ++ t2 ++ Event (I := srv) (SNewOrder domain) true
      :: Event (I := srv) SOrderAuthorizations authzs
      :: Event (I := srv) (SBuildAlpnAcceptor domain ka) true
      :: Event (I := srv) (SSetChallenge (Some (domain, ka))) tt
      :: t3 ++ Event (I := srv) (SSetChallenge None) tt :: tr') None = None).
  { intros tr' Ht. rewrite !slot_app, H1, H2. cbn. unfold slot_after in *.
    rewrite foldl_app, H3. cbn. done. }
  destruct issued as [pem|]; cbn [wp]; [|by apply (conj (Hend [] eq_refl))].
  rewrite wp_bind. eapply wp_mono; [|apply (slot_wp _ None), no_slot_write].
  intros t4 [|] H4; cbn [negb wp]; [|rewrite app_nil_r; by apply (conj (Hend t4 H4))].
  unfold write_atomic. cbn [prog_bind call wp]. intros [|]; cbn [prog_bind wp].
  - intros ok. cbn [prog_bind wp]. split; [apply Hend; by rewrite slot_app, H4|].
    destruct ok; [|done]. intros _. eexists (t1 ++ t2 ++ _ :: _ :: _ :: _ :: t3 ++ _ :: t4), pem.
    rewrite <- !app_assoc. cbn. rewrite <- !app_assoc. done.
  - split; [|done]. apply Hend. by rewrite slot_app, H4.
Qed.
End provisioning.

(** C27: provisioning the relay's certificate keeps the certificate and an existing key.
    With distinct paths, at every point of a run, so also after a crash or a failed write: the certificate
    file is the old one or a complete chain issued in this run, and in the latter case
    the key file holds, complete, the key pair whose request was submitted; a private
    key that existed is never torn or replaced by another. The first creation of the key
    is a plain write, so a key file can be torn only where there was none (or it was
    torn before), and then the certificate is still the old one. When the run returns,
    the challenge slot is empty, whatever went wrong; when it succeeds, the new
    certificate is in place. *)
Theorem provisioning_safe `{ServerLibs} domain email directory creds_path cert_path key_path m0 :
  NoDup [cert_path; String.append cert_path ".tmp"; key_path; String.append key_path ".tmp"; creds_path] →
  (∀ tr p', reaches (provision_acme_cert domain email directory creds_path cert_path key_path) tr p' →
     disk_safe domain cert_path key_path m0 tr ∧
     (disk tr m0 !! key_path = Some None →
      disk tr m0 !! cert_path = m0 !! cert_path ∧
      (key_existed key_path tr → m0 !! key_path = Some None))) ∧
  (∀ tr r, runs (provision_acme_cert domain email directory creds_path cert_path key_path) tr r →
     slot_after tr None = None ∧
     (r = Some tt → ∃ pem, disk tr m0 !! cert_path = Some (Some pem))).
Proof.
  intros Hp. split.
  - apply always_reaches. eapply always_mono; [|exact (provision_safe _ _ _ _ _ _ m0 Hp)].
    intros tr Hs. cbn [app] in Hs. split; [done|]. by eapply disk_safe_torn.
  - apply runs_wp. eapply wp_mono; [|apply provision_slot]. intros tr r [Hs Hr]. split; [done|].
    intros (tr' & pem & ->)%Hr. exists pem. rewrite write_atomic_disk.
    + by rewrite lookup_insert_eq.
    + apply NoDup_cons_1_1 in Hp. rewrite !not_elem_of_cons in Hp. naive_solver.
Qed.

(** The first creation of the key is not atomic: a write that fails half-way leaves a
    torn key file beside the old certificate, and every later run stops at the key that
    does not parse, without ever replacing it. *)
Lemma torn_key_reachable `{ServerLibs} domain email directory creds_path cert_path key_path kp m0 :
  cert_path ≠ key_path →
  let tr := [Event (I := srv) (SExists key_path) false; Event (I := srv) SGenerateKey (Some kp);
             Event (I := srv) (SWriteFile key_path (serialize_pem kp)) false] in
  runs (provision_acme_cert domain email directory creds_path cert_path key_path) tr None ∧
  disk tr m0 !! key_path = Some None ∧ disk tr m0 !! cert_path = m0 !! cert_path ∧
  ∀ pem, key_from_pem pem = None →
    runs (provision_acme_cert domain email directory creds_path cert_path key_path)
      [Event (I := srv) (SExists key_path) true; Event (I := srv) (SReadFile key_path) (Some pem)] None.
Proof.
  intros Hne tr. split_and!.
  - exists false. eexists. split; [done|]. exists (Some kp). eexists. split; [done|].
    exists false. eexists. by split.
  - cbn. by rewrite lookup_insert_eq.
  - cbn. by rewrite lookup_insert_ne.
  - intros pem Hp. exists true. eexists. split; [done|]. exists (Some pem). eexists.
    split; [done|]. cbn. by rewrite Hp.
Qed.

(** ** The resolver *)

(** rustls' private keys and PEM reader. *)
Class RustlsKeys := {
  signing_key : Type;
  pem_certs : string → option (list bytes);          (** [None]: a malformed block *)
  cert_not_after : bytes → option Z;
  private_key : string → option (option bytes);
  any_supported_type : bytes → option signing_key;
}.

Definition RENEWAL_RETRY_BASE : Z := from_secs (5 * 60).
Definition RENEWAL_RETRY_MAX : Z := from_secs (6 * 60 * 60).
Definition CACHE_TTL : Z := from_secs 60.

Definition renewal_retry_delay (failures : Z) : Z :=
  let exp := Z.min (u32_saturating_sub failures 1) 16 in
  Z.min (saturating_mul RENEWAL_RETRY_BASE (Z.shiftl 1 exp)) RENEWAL_RETRY_MAX.

Record RenewalBackoff := MkBackoff { failures : Z; retry_at : option Z }.

Module Backoff.
Definition default : RenewalBackoff := MkBackoff 0 None.
Definition record_failure (now : Z) (b : RenewalBackoff) : Z * RenewalBackoff :=
  let n := u32_saturating_add (failures b) 1 in
  let delay := renewal_retry_delay n in
  (delay, MkBackoff n (Some (now + delay))).
End Backoff.

(** The delay doubles from five minutes and stays at six hours; the cap on the
    exponent is never what limits it. *)
Lemma renewal_retry_delay_spec n :
  1 ≤ n → renewal_retry_delay n = Z.min (RENEWAL_RETRY_BASE * 2 ^ (n - 1)) RENEWAL_RETRY_MAX.
Proof.
  intros Hn. unfold renewal_retry_delay, u32_saturating_sub.
  rewrite saturating_mul_min by (vm_compute; discriminate).
  rewrite Z.max_l, Z.shiftl_1_l by lia. destruct (Z.le_gt_cases (n - 1) 16) as [Hle|Hgt].
  - by rewrite (Z.min_l (n - 1) 16) by lia.
  - rewrite (Z.min_r (n - 1) 16) by lia.
    assert (2 ^ 16 ≤ 2 ^ (n - 1)) by (apply Z.pow_le_mono_r; lia).
    unfold RENEWAL_RETRY_BASE, RENEWAL_RETRY_MAX, from_secs, NANOS_PER_SEC in *.
    change (2 ^ 16) with 65536 in *. generalize dependent (2 ^ (n - 1)). intros. lia.
Qed.

(** A saturated failure count changes nothing. *)
Lemma renewal_retry_delay_saturated n :
  1 ≤ n → renewal_retry_delay (Z.min n U32_MAX) = renewal_retry_delay n.
Proof.
  intros Hn. unfold renewal_retry_delay, u32_saturating_sub, U32_MAX.
  by replace (Z.min (Z.max (Z.min n (2 ^ 32 - 1) - 1) 0) 16) with (Z.min (Z.max (n - 1) 0) 16) by lia.
Qed.

Lemma renewal_retry_delay_bounds n :
  1 ≤ n → RENEWAL_RETRY_BASE ≤ renewal_retry_delay n ≤ RENEWAL_RETRY_MAX.
Proof.
  intros Hn. rewrite renewal_retry_delay_spec by done.
  assert (1 ≤ 2 ^ (n - 1)) by (pose proof (Z.pow_pos_nonneg 2 (n - 1)); lia).
  unfold RENEWAL_RETRY_BASE, RENEWAL_RETRY_MAX, from_secs, NANOS_PER_SEC in *.
  generalize dependent (2 ^ (n - 1)). intros. lia.
Qed.

Section resolver.
Context `{RustlsKeys}.

Definition certified_key : Type := list bytes * signing_key.

(** [load_certified_key_from_paths], given what the two files hold. *)
Definition load_certified_key (cert_file key_file : option string) : option (certified_key * Z) :=
  cert_pem ← cert_file;
  key_pem ← key_file;
  certs ← pem_certs cert_pem;
  first ← head certs;
  let na := default 0 (cert_not_after first) in
  key ← private_key key_pem;
  k ← key;
  sk ← any_supported_type k;
  Some ((certs, sk), na).

Record cached := MkCached { c_key : certified_key; c_loaded_at : Z; c_not_after : Z }.

(** A TLS handshake in [resolve]; between two constructors it holds no lock. *)
Inductive handshake :=
| HResolve
| HWindow (ck : certified_key)          (** [maybe_trigger_renewal]: reads the cached expiry *)
| HBackoff (ck : certified_key)         (** reads [retry_at] *)
| HCas (ck : certified_key)             (** [renewing.compare_exchange] *)
| HServed (r : option certified_key).

(** The spawned renewal task. *)
Inductive renewal :=
| RProvision
| RRecord (r : option (certified_key * Z))   (** the result, before the locks are taken *)
| RRelease                                   (** recorded; the guard still alive *)
| REnded.

Record resolver := MkResolver {
  rs_cache : option cached;
  rs_renewing : bool;
  rs_backoff : RenewalBackoff;
  rs_handshakes : list handshake;
  rs_renewals : list renewal;
  rs_loaded : list certified_key;       (** every key pair read from disk so far *)
  rs_failed : list Z;                   (** failed renewals since the last success, newest first *)
}.

Definition resolver_new : resolver := MkResolver None false Backoff.default [] [] [] [].

Definition set_handshake (t : nat) (h : handshake) (s : resolver) : resolver :=
  MkResolver (rs_cache s) (rs_renewing s) (rs_backoff s) (<[t := h]> (rs_handshakes s))
    (rs_renewals s) (rs_loaded s) (rs_failed s).
Definition set_renewal (t : nat) (r : renewal) (s : resolver) : resolver :=
  MkResolver (rs_cache s) (rs_renewing s) (rs_backoff s) (rs_handshakes s)
    (<[t := r]> (rs_renewals s)) (rs_loaded s) (rs_failed s).

(** [resolve] under the cache lock. *)
Definition resolve (now : Now) (files : option string * option string) (s : resolver)
    : resolver * handshake :=
  let reload :=
    match load_certified_key files.1 files.2 with
    | Some (ck, na) =>
        (MkResolver (Some (MkCached ck (instant now) na)) (rs_renewing s) (rs_backoff s)
           (rs_handshakes s) (rs_renewals s) (ck :: rs_loaded s) (rs_failed s), HWindow ck)
    | None => (s, HServed (c_key <$> rs_cache s))
    end in
  match rs_cache s with
  | Some c => if instant now - c_loaded_at c <? CACHE_TTL then (s, HWindow (c_key c)) else reload
  | None => reload
  end.

(** [maybe_trigger_renewal], one access at a time; [renew_before] is the renewal
    configuration's [renew_before_secs], if there is one. *)
Definition trigger (renew_before : option Z) (now : Now) (s : resolver) (h : handshake)
    : option (resolver * handshake) :=
  match h with
  | HWindow ck =>
      Some (s, match renew_before with
               | None => HServed (Some ck)
               | Some before =>
                   let na := match rs_cache s with Some c => c_not_after c | None => I64_MAX end in
                   if before <=? na - unix_secs now then HServed (Some ck) else HBackoff ck
               end)
  | HBackoff ck =>
      Some (s, match retry_at (rs_backoff s) with
               | Some t => if instant now <? t then HServed (Some ck) else HCas ck
               | None => HCas ck
               end)
  | HCas ck =>
      Some (if rs_renewing s then s
            else MkResolver (rs_cache s) true (rs_backoff s) (rs_handshakes s)
                   (rs_renewals s ++ [RProvision]) (rs_loaded s) (rs_failed s), HServed (Some ck))
  | _ => None
  end.

(** The drop of the [RenewingGuard]. *)
Definition drop_renewing_guard (s : resolver) : resolver :=
  MkResolver (rs_cache s) false (rs_backoff s) (rs_handshakes s) (rs_renewals s)
    (rs_loaded s) (rs_failed s).

(** The spawned task: the result of [provision_acme_cert] and the reload, then the
    update under the locks, then the guard's drop. *)
Definition renew (now : Now) (provisioned : bool) (files : option string * option string)
    (s : resolver) (r : renewal) : option (resolver * renewal) :=
  match r with
  | RProvision =>
      Some (s, RRecord (if provisioned then load_certified_key files.1 files.2 else None))
  | RRecord (Some (ck, na)) =>
      Some (MkResolver (Some (MkCached ck (instant now) na)) (rs_renewing s) Backoff.default
              (rs_handshakes s) (rs_renewals s) (ck :: rs_loaded s) [], RRelease)
  | RRecord None =>
      Some (MkResolver (rs_cache s) (rs_renewing s) (Backoff.record_failure (instant now) (rs_backoff s)).2
              (rs_handshakes s) (rs_renewals s) (rs_loaded s) (instant now :: rs_failed s), RRelease)
  | RRelease =>
      Some (drop_renewing_guard s, REnded)
  | REnded => None
  end.

Inductive resolver_event :=
| Handshake
| Serve (t : nat) (now : Now) (files : option string * option string)
| Renew (t : nat) (now : Now) (provisioned : bool) (files : option string * option string)
| RenewAborted (t : nat).             (** a panic, or the runtime going away *)

Definition resolver_apply (renew_before : option Z) (e : resolver_event) (s : resolver)
    : option resolver :=
  match e with
  | Handshake =>
      Some (MkResolver (rs_cache s) (rs_renewing s) (rs_backoff s) (rs_handshakes s ++ [HResolve])
              (rs_renewals s) (rs_loaded s) (rs_failed s))
  | Serve t now files =>
      h ← rs_handshakes s !! t;
      '(s', h') ← match h with
                  | HResolve => Some (resolve now files s)
                  | _ => trigger renew_before now s h
                  end;
      Some (set_handshake t h' s')
  | Renew t now provisioned files =>
      r ← rs_renewals s !! t;
      '(s', r') ← renew now provisioned files s r;
      Some (set_renewal t r' s')
  | RenewAborted t =>
      r ← rs_renewals s !! t;
      match r with
      | RProvision | RRecord _ =>
          Some (set_renewal t REnded (drop_renewing_guard s))
      | _ => None
      end
  end.

Definition resolver_step (renew_before : option Z) (s s' : resolver) : Prop :=
  ∃ e, resolver_apply renew_before e s = Some s'.

(** *** Invariant *)

Definition active (r : renewal) : bool := match r with REnded => false | _ => true end.
Definition carries (h : handshake) : option certified_key :=
  match h with
  | HResolve => None
  | HWindow ck | HBackoff ck | HCas ck => Some ck
  | HServed r => r
  end.

Record resolver_ok (s : resolver) : Prop := {
  ro_one : length (List.filter active (rs_renewals s)) = Nat.b2n (rs_renewing s);
  ro_cache c : rs_cache s = Some c → c_key c ∈ rs_loaded s;
  ro_carries t h ck : rs_handshakes s !! t = Some h → carries h = Some ck → ck ∈ rs_loaded s;
  ro_failures : failures (rs_backoff s) = Z.min (Z.of_nat (length (rs_failed s))) U32_MAX;
  ro_retry_at : retry_at (rs_backoff s) =
    (λ t, t + renewal_retry_delay (failures (rs_backoff s))) <$> head (rs_failed s);
}.

Lemma active_insert t r r' l :
  l !! t = Some r →
  (length (List.filter active (<[t := r']> l)) + Nat.b2n (active r) =
   length (List.filter active l) + Nat.b2n (active r'))%nat.
Proof.
  revert t. induction l as [|x l IH]; intros [|t] Hx; try done.
  - injection Hx as ->. cbn. destruct (active r), (active r'); cbn; lia.
  - specialize (IH t Hx). change (<[S t := r']> (x :: l)) with (x :: <[t := r']> l).
    cbn [List.filter]. destruct (active x); cbn [length]; lia.
Qed.

Lemma resolve_ok now files s s' h :
  resolver_ok s → resolve now files s = (s', h) →
  resolver_ok s' ∧ rs_handshakes s' = rs_handshakes s ∧ (∀ ck, ck ∈ rs_loaded s → ck ∈ rs_loaded s') ∧
  (∀ ck, carries h = Some ck → ck ∈ rs_loaded s') ∧ (rs_cache s ≠ None → h ≠ HServed None).
Proof.
  intros Hs. unfold resolve.
  assert (Hre : ∀ ck na, load_certified_key files.1 files.2 = Some (ck, na) →
     resolver_ok (MkResolver (Some (MkCached ck (instant now) na)) (rs_renewing s) (rs_backoff s)
           (rs_handshakes s) (rs_renewals s) (ck :: rs_loaded s) (rs_failed s))).
  { intros ck na _. destruct Hs as [H1 H2 H3 H4 H5]. split; cbn; [done| | |done|done].
    - intros c [= <-]. by left.
    - intros t h' ck' Ht Hc. right. eauto. }
  destruct (rs_cache s) as [c|] eqn:Ec.
  - pose proof (ro_cache _ Hs c Ec) as Hl. destruct (_ <? _).
    { intros [= <- <-]. split_and!; [done|done|done| |done]. cbn. by intros ? [= <-]. }
    destruct (load_certified_key _ _) as [[ck na]|]; intros [= <- <-].
    + split_and!; [by eapply Hre|done|by right| |done]. cbn. intros ? [= <-]. by left.
    + split_and!; [done|done|done| |done]. cbn. by intros ? [= <-].
  - destruct (load_certified_key _ _) as [[ck na]|]; intros [= <- <-].
    + split_and!; [by eapply Hre|done|by right| |done]. cbn. intros ? [= <-]. by left.
    + split_and!; [done|done|done|done|done].
Qed.

Lemma trigger_ok rb now s h s' h' :
  resolver_ok s → trigger rb now s h = Some (s', h') →
  resolver_ok s' ∧ rs_handshakes s' = rs_handshakes s ∧ rs_loaded s' = rs_loaded s ∧
  carries h' = carries h.
Proof.
  intros Hs. unfold trigger. destruct h as [|ck|ck|ck|r]; try done; intros [= <- <-].
  - split_and!; [done..|]. by repeat case_match.
  - split_and!; [done..|]. by repeat case_match.
  - destruct (rs_renewing s) eqn:E; [done|]. split_and!; [|done..].
    destruct Hs as [H1 H2 H3 H4 H5]. split; cbn; try done.
    rewrite List.filter_app, length_app, H1, E. done.
Qed.

Lemma renew_ok now pr files t r s s' r' :
  resolver_ok s → rs_renewals s !! t = Some r → renew now pr files s r = Some (s', r') →
  resolver_ok (set_renewal t r' s').
Proof.
  intros [H1 H2 H3 H4 H5] Ht. pose proof (active_insert t r r' _ Ht) as Hc.
  destruct r as [|[[ck na]|]| |]; intros [= <- <-]; cbn in Hc; split; cbn; eauto; try lia.
  - intros c [= <-]. by left.
  - intros t' h ck' Ht' Hk. right. eauto.
  - rewrite H4. unfold u32_saturating_add, U32_MAX. lia.
  - assert (Hone : (length (List.filter active (<[t:=REnded]> (rs_renewals s))) + 1 =
                    Nat.b2n (rs_renewing s))%nat) by lia.
    destruct (rs_renewing s); cbn in Hone; lia.
Qed.

Lemma resolver_apply_ok rb e s s' :
  resolver_ok s → resolver_apply rb e s = Some s' → resolver_ok s'.
Proof.
  intros Hs. destruct e as [|t now files|t now pr files|t]; cbn.
  - intros [= <-]. destruct Hs as [H1 H2 H3 H4 H5]. split; cbn; try done.
    intros t h ck. rewrite lookup_app_Some, list_lookup_singleton_Some.
    intros [Ht|(_ & _ & <-)]; [eauto|done].
  - destruct (rs_handshakes s !! t) as [h|] eqn:Ht; [|done]. cbn.
    assert (Hset : ∀ s1 h1, resolver_ok s1 → (∀ ck, carries h1 = Some ck → ck ∈ rs_loaded s1) →
              resolver_ok (set_handshake t h1 s1)).
    { intros s1 h1 [H1 H2 H3 H4 H5] Hc. split; cbn; try done. intros t' h' ck.
      rewrite list_lookup_insert_Some. intros [(<- & <- & _)|[_ Ht']]; eauto. }
    destruct h as [|ck|ck|ck|r].
    1: { cbn. destruct (resolve now files s) as [s1 h1] eqn:E. intros [= <-].
         destruct (resolve_ok _ _ _ _ _ Hs E) as (? & ? & _ & ? & _). by apply Hset. }
    all: destruct (trigger rb now s _) as [[s1 h1]|] eqn:E; [|done]; intros [= <-];
      destruct (trigger_ok _ _ _ _ _ _ Hs E) as (Hs1 & _ & Hl & Hc); apply Hset; [done|];
      rewrite Hc, Hl; intros; by eapply ro_carries.
  - destruct (rs_renewals s !! t) as [r|] eqn:Ht; [|done]. cbn.
    destruct (renew now pr files s r) as [[s1 r1]|] eqn:E; [|done]. intros [= <-]. by eapply renew_ok.
  - destruct (rs_renewals s !! t) as [r|] eqn:Ht; [|done]. cbn.
    pose proof (active_insert t r REnded _ Ht) as Hc. destruct Hs as [H1 H2 H3 H4 H5].
    destruct r; try done; intros [= <-]; split; cbn; try done; cbn in Hc;
      destruct (rs_renewing s); cbn in *; lia.
Qed.

Lemma active_exists l :
  (0 < length (List.filter active l))%nat ↔ ∃ t r, l !! t = Some r ∧ r ≠ REnded.
Proof.
  split.
  - destruct (List.filter active l) as [|r l'] eqn:E; cbn; [lia|]. intros _.
    assert (Hin : List.In r (List.filter active l)) by (rewrite E; by left).
    apply List.filter_In in Hin as [Hin Ha].
    apply list_elem_of_In, list_elem_of_lookup in Hin as [t Ht].
    exists t, r. split; [done|]. by intros ->.
  - intros (t & r & Ht & Hr). pose proof (active_insert t r REnded l Ht) as Hc.
    cbn in Hc. destruct r; cbn in *; try lia. done.
Qed.

(** A run of the resolver, as the list of its events. *)
Fixpoint resolver_execute (rb : option Z) (es : list resolver_event) (s : resolver) : option resolver :=
  match es with
  | [] => Some s
  | e :: es => resolver_apply rb e s ≫= resolver_execute rb es
  end.

Lemma resolver_execute_rtc rb es s s' :
  resolver_execute rb es s = Some s' → rtc (resolver_step rb) s s'.
Proof.
  revert s. induction es as [|e es IH]; cbn; intros s; [by intros [= <-]|].
  destruct (resolver_apply rb e s) as [s1|] eqn:E; [|done]. cbn. intros Hx.
  eapply rtc_l; [by exists e|eauto].
Qed.

Lemma resolver_execute_app rb es es' s :
  resolver_execute rb (es ++ es') s = resolver_execute rb es s ≫= resolver_execute rb es'.
Proof.
  revert s. induction es as [|e es IH]; cbn; intros s; [done|].
  destruct (resolver_apply rb e s); [apply IH|done].
Qed.

(** A handshake gets past the backoff only where [retry_at] has passed. *)
Lemma reaches_cas rb e s s' t ck :
  resolver_apply rb e s = Some s' → rs_handshakes s' !! t = Some (HCas ck) →
  rs_handshakes s !! t = Some (HCas ck) ∨
  ∃ now files, e = Serve t now files ∧ ∀ r, retry_at (rs_backoff s) = Some r → r ≤ instant now.
Proof.
  destruct e as [|t' now files|t' now pr files|t']; cbn; intros He Hc.
  - injection He as <-. cbn in Hc. apply lookup_app_Some in Hc as [Hc|[_ Hc]]; [by left|].
    by apply list_lookup_singleton_Some in Hc as [_ ?].
  - destruct (rs_handshakes s !! t') as [h|] eqn:Ht; [|done]. cbn in He.
    assert (Hset : ∀ s1 h1, rs_handshakes s1 = rs_handshakes s →
              rs_handshakes (set_handshake t' h1 s1) !! t = Some (HCas ck) →
              rs_handshakes s !! t = Some (HCas ck) ∨ t' = t ∧ h1 = HCas ck).
    { intros s1 h1 Hh. cbn. rewrite Hh, list_lookup_insert_Some. naive_solver. }
    assert (Hs : ∃ s1 h1, s' = set_handshake t' h1 s1 ∧ rs_handshakes s1 = rs_handshakes s ∧
              (h1 = HCas ck → ∀ r, retry_at (rs_backoff s) = Some r → r ≤ instant now)).
    { destruct h as [|c|c|c|r]; cbn in He; simplify_eq; try by eexists _, _; split_and!.
      - destruct (resolve now files s) as [s1 h1] eqn:E. injection He as <-. exists s1, h1.
        revert E. unfold resolve. repeat case_match; intros [= <- <-]; by split_and!.
      - eexists _, _; split_and!; [done..|]. by repeat case_match.
      - eexists _, _; split_and!; [done..|].
        destruct (retry_at _) as [r|]; [|done]. destruct (Z.ltb_spec (instant now) r); [done|].
        intros _ ? [= <-]. done.
      - eexists _, _; split_and!; [done| |done]. by destruct (rs_renewing s). }
    destruct Hs as (s1 & h1 & -> & Hh & Hr). destruct (Hset _ _ Hh Hc) as [|[-> ?]]; eauto 6.
  - left. destruct (rs_renewals s !! t') as [r|]; [|done]. cbn in He.
    destruct r as [|[[? ?]|]| |]; cbn in He; simplify_eq; done.
  - left. destruct (rs_renewals s !! t') as [[]|]; cbn in He; simplify_eq; done.
Qed.

Lemma cas_checked rb es s t ck :
  resolver_execute rb es resolver_new = Some s → rs_handshakes s !! t = Some (HCas ck) →
  ∃ es1 now1 f1 es2 s1, es = es1 ++ Serve t now1 f1 :: es2 ∧
    resolver_execute rb es1 resolver_new = Some s1 ∧
    ∀ r, retry_at (rs_backoff s1) = Some r → r ≤ instant now1.
Proof.
  revert s. induction es as [|e es IH] using rev_ind; intros s.
  { intros [= <-]. done. }
  rewrite resolver_execute_app. destruct (resolver_execute rb es resolver_new) as [s0|] eqn:E; [|done].
  cbn. destruct (resolver_apply rb e s0) as [s'|] eqn:Ee; [|done]. cbn. intros [= ->] Hc.
  destruct (reaches_cas _ _ _ _ _ _ Ee Hc) as [Hc0|(now & files & -> & Hr)].
  - destruct (IH s0 eq_refl Hc0) as (es1 & now1 & f1 & es2 & s1 & -> & H1 & H2).
    exists es1, now1, f1, (es2 ++ [e]), s1. split_and!; [by rewrite <-app_assoc|done|done].
  - by exists es, now, files, [], s0.
Qed.

(** Only a handshake past both checks starts a renewal. *)
Lemma starts_renewal rb e s s' :
  resolver_apply rb e s = Some s' → (length (rs_renewals s) < length (rs_renewals s'))%nat →
  ∃ t now files ck, e = Serve t now files ∧ rs_handshakes s !! t = Some (HCas ck).
Proof.
  destruct e as [|t now files|t now pr files|t]; cbn; intros He Hl.
  - injection He as <-. cbn in Hl. lia.
  - destruct (rs_handshakes s !! t) as [[|c|c|c|r]|] eqn:Ht; cbn in He; simplify_eq; cbn in Hl;
      try (cbn in Hl; lia); [|by eauto 8].
    destruct (resolve now files s) as [s1 h1] eqn:E. injection He as <-. revert Hl. cbn.
    revert E. unfold resolve. repeat case_match; intros [= <- <-]; cbn; lia.
  - destruct (rs_renewals s !! t) as [r|]; [|done]. cbn in He.
    destruct r as [|[[? ?]|]| |]; cbn in He; simplify_eq; cbn in Hl; rewrite length_insert in Hl; lia.
  - destruct (rs_renewals s !! t) as [[]|]; cbn in He; simplify_eq; cbn in Hl;
      rewrite length_insert in Hl; lia.
Qed.

(** The instants at which the events of a run read the clock. *)
Definition event_instant (e : resolver_event) : option Z :=
  match e with
  | Serve _ now _ | Renew _ now _ _ => Some (instant now)
  | _ => None
  end.
Definition clock_runs (es : list resolver_event) : Prop :=
  StronglySorted Z.le (omap event_instant es).

Lemma clock_runs_le es1 e1 es2 e2 i1 i2 :
  clock_runs ((es1 ++ e1 :: es2) ++ [e2]) → event_instant e1 = Some i1 → event_instant e2 = Some i2 → i1 ≤ i2.
Proof.
  unfold clock_runs. rewrite omap_app. intros (Hc & _ & _)%StronglySorted_app E1 E2.
  apply (Hc i1 i2); apply list_elem_of_omap; [exists e1|exists e2]; (split; [set_solver|done]).
Qed.

Lemma resolver_reachable_ok rb s : rtc (resolver_step rb) resolver_new s → resolver_ok s.
Proof.
  apply rtc_invariant.
  - split; cbn; try done.
  - intros s1 s2 [e He] Hs. by eapply resolver_apply_ok.
Qed.

Lemma retry_at_spec s now :
  resolver_ok s → head (rs_failed s) = Some now →
  retry_at (rs_backoff s) =
    Some (now + Z.min (RENEWAL_RETRY_BASE * 2 ^ (Z.of_nat (length (rs_failed s)) - 1)) RENEWAL_RETRY_MAX).
Proof.
  intros Hs Hh. rewrite (ro_retry_at _ Hs), Hh, (ro_failures _ Hs). cbn. f_equal. f_equal.
  destruct (rs_failed s) as [|x l]; [done|]. cbn [length]. clear.
  rewrite <-renewal_retry_delay_spec by lia. apply renewal_retry_delay_saturated. lia.
Qed.

(** At [now], the wait after the last of the consecutive failures is over. *)
Definition spaced (s : resolver) (now : Z) : Prop :=
  ∀ tf, head (rs_failed s) = Some tf →
    tf + Z.min (RENEWAL_RETRY_BASE * 2 ^ (Z.of_nat (length (rs_failed s)) - 1)) RENEWAL_RETRY_MAX ≤ now.

Lemma retry_at_spaced s now :
  resolver_ok s → (∀ r, retry_at (rs_backoff s) = Some r → r ≤ now) → spaced s now.
Proof. intros Hs Hr tf Htf. by apply Hr, retry_at_spec. Qed.

End resolver.

(** ** Concrete instances *)

Module ToyServer.
#[export] Instance libs : ServerLibs := {|
  key_pair := string; key_from_pem := Some; serialize_pem := λ k, k;
  serialize_request := λ d k, Some (as_bytes k);
  credentials := string; creds_from_str := Some; creds_to_string := λ c, c;
  staging_url := "https://staging"; production_url := "https://prod";
|}.

(** A PEM is its own single certificate; "OLD" expires at 100, anything else at 10000. *)
#[export] Instance keys : RustlsKeys := {|
  signing_key := bytes;
  pem_certs := λ s, Some [as_bytes s];
  cert_not_after := λ c, Some (if bool_decide (c = as_bytes "OLD") then 100 else 10000);
  private_key := λ s, Some (Some (as_bytes s));
  any_supported_type := Some;
|}.

(** A fresh disk and an ACME server that issues "CERT". *)
Definition env (o : srv_op) (s : unit) : srv_ans o * unit :=
  (match o return srv_ans o with
   | SExists _ => false
   | SReadFile _ => None
   | SWriteFile _ _ | SRename _ _ => true
   | SNowUnix => 0
   | SGenerateKey => Some "KEY"
   | SAccountFromCredentials _ _ => true
   | SCreateAccount _ _ _ => Some "creds"
   | SNewOrder _ => true
   | SOrderAuthorizations => one_authz "ka"
   | SBuildAlpnAcceptor _ _ => true
   | SSetChallenge _ => tt
   | SSetReady => true
   | SAcme (ASleep _) => tt
   | SAcme ARefresh => Some Ready
   | SAcme AAuthorizations => ([], None)
   | SAcme (AFinalizeCsr _) => true
   | SAcme ACertificate => Some (Some "CERT")
   end, s).

Definition run := exec (I := srv) env (provision_acme_cert "relay.example" None (MkDirectory true None None)
                         "creds.json" "cert.pem" "key.pem") tt.

(** Two handshakes find the certificate due; the second has read [retry_at] when the
    first one's renewal fails. *)
Definition race : list resolver_event :=
  let now := MkNow 0 0 in let f := (Some "OLD", Some "K") in
  [Handshake; Handshake; Serve 0 now f; Serve 0 now f; Serve 1 now f; Serve 1 now f;
   Serve 0 now f; Serve 1 now f; Serve 0 now f;
   Renew 0 now false f; Renew 0 now false f; Renew 0 now false f; Serve 1 now f].
End ToyServer.
#[local] Existing Instance ToyServer.libs.
#[local] Existing Instance ToyServer.keys.

Lemma provisioning_safe_witness :
  ∃ tr, runs (provision_acme_cert "relay.example" None (MkDirectory true None None)
                "creds.json" "cert.pem" "key.pem") tr (Some tt) ∧
    slot_after tr None = None ∧
    ∃ pem, disk tr ∅ !! "cert.pem" = Some (Some pem).
Proof.
  assert (Hr : runs (provision_acme_cert "relay.example" None (MkDirectory true None None)
                "creds.json" "cert.pem" "key.pem") ToyServer.run.1.2 (Some tt)).
  { apply (exec_runs (I := srv) ToyServer.env _ tt _ _ tt). vm_compute. reflexivity. }
  eexists. split; [exact Hr|].
  assert (Hp : NoDup ["cert.pem"; "cert.pem.tmp"; "key.pem"; "key.pem.tmp"; "creds.json"]).
  { apply (bool_decide_unpack _). vm_compute. exact I. }
  destruct (proj2 (provisioning_safe "relay.example" None (MkDirectory true None None)
              "creds.json" "cert.pem" "key.pem" ∅ Hp) _ _ Hr) as [Hs Hd].
  split; [exact Hs|exact (Hd eq_refl)].
Defined.

(** [retry_at] is read before [renewing] is claimed, so a renewal that fails in between
    is followed at once by another one, five minutes before [retry_at]. *)
Lemma renewal_before_retry_at :
  ∃ s, rtc (resolver_step (Some 1000)) resolver_new s ∧
    rs_renewals s = [REnded; RProvision] ∧ rs_failed s = [0] ∧
    retry_at (rs_backoff s) = Some RENEWAL_RETRY_BASE.
Proof.
  eexists. split; [apply (resolver_execute_rtc _ ToyServer.race); vm_compute; reflexivity|].
  vm_compute. done.
Qed.

