(* ===== verification/AcmeAccount.v ===== *)
(** * AcmeAccount.v: the client's ACME account

    tunnel-client/src/acme.rs: [load_or_create_account], reached through
    [CertProvisioner::account] when a certificate has to be ordered. It makes the same
    calls as the relay's version, whose environment (ServerCert.v) it shares. The
    cell in [account] lets one caller at a time do so, for all. *)

From S2P Require Import Prelude Async CertProvisioner AcmeOrder ServerCert.
Open Scope string_scope.
Open Scope Z_scope.
Open Scope list_scope.
Open Scope tunnel_scope.

Section account.
Context `{ServerLibs}.

Definition load_or_create_account (email : option string) (staging : bool) (path : string) :
    prog srv bool :=
  there <-! call (I := srv) (SExists path) ;;
  if (there : bool) then
    json <-! call (I := srv) (SReadFile path) ;;
    match (json : option string) ≫= creds_from_str with
    | None => Ret false
    | Some creds => call (I := srv) (SAccountFromCredentials None creds)
    end
  else
    let contact := mailto email in
    let url := if staging then staging_url else production_url in
    r <-! call (I := srv) (SCreateAccount None contact url) ;;
    match (r : option credentials) with
    | None => Ret false
    | Some credentials => call (I := srv) (SWriteFile path (creds_to_string credentials))
    end.

(** The client's account is the one a relay without a directory or root CA of its own
    would use. *)
Lemma account_as_relay email staging path :
  load_or_create_account email staging path =
  acme_load_or_create_account email (MkDirectory staging None None) path.
Proof. reflexivity. Qed.

(** Calls that make an account, and the answers a disk with [contents] at [path] allows. *)
Definition creates (e : event srv) : bool :=
  match ev_op e with SCreateAccount _ _ _ => true | _ => false end.
Definition answers_from (path contents : string) (e : event srv) : Prop :=
  match e with
  | Event o x =>
      match o return srv_ans o → Prop with
      | SExists p => λ b, p = path → b = true
      | SReadFile p => λ r, p = path → r = Some contents
      | _ => λ _, True
      end x
  end.

(** Once an account was created and saved, later runs log in with those very credentials
    and create no other. *)
Lemma account_reused (creds_roundtrip : ∀ c, creds_from_str (creds_to_string c) = Some c)
    email staging path c tr ok :
  runs (load_or_create_account email staging path) tr ok →
  Forall (answers_from path (creds_to_string c)) tr →
  existsb creates tr = false ∧
  Event (I := srv) (SAccountFromCredentials None c) ok ∈ tr.
Proof.
  intros (b & tr1 & -> & Hr) [Hb Htr]%Forall_cons. cbn in Hb. rewrite (Hb eq_refl) in Hr |- *.
  destruct Hr as (r & tr2 & -> & Hr). apply Forall_cons in Htr as [Hread Htr].
  cbn in Hread. rewrite (Hread eq_refl) in Hr |- *. cbn in Hr. rewrite creds_roundtrip in Hr.
  destruct Hr as (y & tr3 & -> & -> & <-). split; [done|]. set_solver.
Qed.

(** What a fresh run saves is what the ACME server returned. *)
Lemma account_saved email staging path m :
  wp (load_or_create_account email staging path) (λ tr ok,
    ok = true → existsb creates tr = true →
    ∃ c, disk tr m !! path = Some (Some (creds_to_string c))).
Proof.
  intros [|]; cbn.
  - intros [json|]; cbn; [|done]. destruct (creds_from_str json); cbn; [by intros [|]|done].
  - intros [c|]; cbn; [|done]. intros [|]; cbn; [|done]. intros _ _. exists c.
    by rewrite lookup_insert_eq.
Qed.
End account.

(** ** One account for all callers

    [CertProvisioner::account]: a [tokio::sync::OnceCell] around [load_or_create_account].
    Leaders of different domains call it at once. A step is one access to the cell, one
    acquisition of its permit, one call of the initialiser, or a caller being dropped. *)

Section cell.
Context `{ServerLibs} (email : option string) (staging : bool) (path : string).

(** The credentials file, the accounts the ACME server made (oldest first), and whether
    one of them could be lost: its file was not written, or its caller was dropped. *)
Record acc_world := MkWorld {
  aw_file : option string;
  aw_created : list credentials;
  aw_lost : bool;
}.

(** A call of the initialiser: [x] is what the environment makes of it, [torn] what a
    failed write leaves in the file. *)
Definition account_call (o : srv_op) (x : srv_ans o) (torn : option string) (w : acc_world) :
    srv_ans o * acc_world :=
  match o return srv_ans o → srv_ans o * acc_world with
  | SExists _ => λ _, (match aw_file w with Some _ => true | None => false end, w)
  | SReadFile _ => λ r, (match r with Some _ => aw_file w | None => None end, w)
  | SWriteFile _ s => λ ok,
      (ok, if ok then MkWorld (Some s) (aw_created w) (aw_lost w)
           else MkWorld torn (aw_created w) true)
  | SCreateAccount _ _ _ => λ r,
      (r, MkWorld (aw_file w) (aw_created w ++ option_list r) (aw_lost w))
  | _ => λ x, (x, w)
  end x.

(** The account an initialiser has built: from credentials, or freshly created. *)
Definition account_seen (a : option credentials) (e : event srv) : option credentials :=
  match e with
  | Event o x =>
      match o return srv_ans o → option credentials with
      | SAccountFromCredentials _ c => λ ok, if ok then Some c else None
      | SCreateAccount _ _ _ => λ r, r
      | _ => λ _, a
      end x
  end.

Inductive acc_pc :=
| AccStart                                  (** about to look at the cell *)
| AccWaiting                                (** found it empty; awaits the permit *)
| AccInit (a : option credentials) (p : prog srv bool)   (** in the initialiser *)
| AccDone (r : option credentials).

Record acc_state := MkAcc {
  ac_cell : option credentials;
  ac_permit : option nat;
  ac_world : acc_world;
  ac_callers : list acc_pc;
}.

Definition acc_new (file : option string) : acc_state := MkAcc None None (MkWorld file [] false) [].

Inductive acc_event :=
| AccCall                                   (** another caller *)
| AccMove (i : nat) (x : ∀ o, srv_ans o) (torn : option string)
| AccDrop (i : nat).

Definition acc_set (i : nat) (p : acc_pc) (s : acc_state) : acc_state :=
  MkAcc (ac_cell s) (ac_permit s) (ac_world s) (<[i := p]> (ac_callers s)).

Definition acc_apply (e : acc_event) (s : acc_state) : option acc_state :=
  match e with
  | AccCall => Some (MkAcc (ac_cell s) (ac_permit s) (ac_world s) (ac_callers s ++ [AccStart]))
  | AccMove i x torn =>
      p ← ac_callers s !! i;
      match p with
      | AccStart =>
          Some (acc_set i (match ac_cell s with Some c => AccDone (Some c) | None => AccWaiting end) s)
      | AccWaiting =>
          match ac_cell s, ac_permit s with
          | Some c, _ => Some (acc_set i (AccDone (Some c)) s)     (** the cell was set meanwhile *)
          | None, None =>
              Some (MkAcc None (Some i) (ac_world s)
                      (<[i := AccInit None (load_or_create_account email staging path)]> (ac_callers s)))
          | None, Some _ => None
          end
      | AccInit a (Vis o k) =>
          let '(y, w) := account_call o (x o) torn (ac_world s) in
          Some (MkAcc (ac_cell s) (ac_permit s) w
                  (<[i := AccInit (account_seen a (Event (I := srv) o y)) (k y)]> (ac_callers s)))
      | AccInit a (Ret true) => Some (MkAcc a None (ac_world s) (<[i := AccDone a]> (ac_callers s)))
      | AccInit _ (Ret false) =>
          Some (MkAcc (ac_cell s) None (ac_world s) (<[i := AccDone None]> (ac_callers s)))
      | AccDone _ => None
      end
  | AccDrop i =>
      p ← ac_callers s !! i;
      match p with
      | AccDone _ => None
      | AccInit _ _ =>
          Some (MkAcc (ac_cell s) None (MkWorld (aw_file (ac_world s)) (aw_created (ac_world s)) true)
                  (<[i := AccDone None]> (ac_callers s)))
      | _ => Some (acc_set i (AccDone None) s)
      end
  end.

Definition acc_step (s s' : acc_state) : Prop := ∃ e, acc_apply e s = Some s'.

(** *** Invariant *)

Context (creds_roundtrip : ∀ c, creds_from_str (creds_to_string c) = Some c).
Context (file0 : option string).

(** Between initialisers: the file is the one there was, or holds the one account made. *)
Definition settled (w : acc_world) : Prop :=
  (aw_created w = [] ∧ aw_file w = file0) ∨
  (file0 = None ∧ ∃ c, aw_created w = [c] ∧ aw_file w = Some (creds_to_string c)).

Definition saved (c : credentials) (w : acc_world) : Prop := aw_file w ≫= creds_from_str = Some c.

(** Whatever the environment answers, an initialiser that loses nothing ends settled, with
    the account that is in the file. *)
Fixpoint ends_settled (p : prog srv bool) (a : option credentials) (w : acc_world) : Prop :=
  aw_lost w = false →
  match p with
  | Ret ok => settled w ∧ (ok = true → ∃ c, a = Some c ∧ saved c w)
  | Vis o k =>
      ∀ x torn, let '(y, w') := account_call o x torn w in
        ends_settled (k y) (account_seen a (Event (I := srv) o y)) w'
  end.

Lemma load_or_create_settled w :
  (aw_lost w = false → settled w) → ends_settled (load_or_create_account email staging path) None w.
Proof using creds_roundtrip.
  intros Hw Hl x torn. specialize (Hw Hl). destruct w as [[s|] cs lost]; simpl in Hl; subst lost; cbn.
  - intros _ [r|] _; cbn; [|done]. destruct (creds_from_str s) as [c|] eqn:Ec; cbn; [|done].
    intros _ ok _ _. split; [done|]. intros ->. by exists c.
  - assert (Hcs : cs = [] ∧ file0 = None).
    { destruct Hw as [[? ?]|(? & c & _ & ?)]; [by split|done]. }
    destruct Hcs as [-> Hf]. intros _ [c|] _; cbn; [|by intros _; split; [left|]].
    intros _ [|] torn'; cbn; [|done]. intros _. split.
    + right. split; [done|]. by exists c.
    + intros _. exists c. split; [done|]. unfold saved. simpl. apply creds_roundtrip.
Qed.

Definition acc_caller_ok (s : acc_state) (i : nat) (p : acc_pc) : Prop :=
  match p with
  | AccInit a q => ac_permit s = Some i ∧ ac_cell s = None ∧ ends_settled q a (ac_world s)
  | AccDone (Some c) => ac_cell s = Some c
  | _ => True
  end.

Record acc_inv (s : acc_state) : Prop := {
  ai_callers : ∀ i p, ac_callers s !! i = Some p → acc_caller_ok s i p;
  ai_holder : ∀ i, ac_permit s = Some i → ∃ a q, ac_callers s !! i = Some (AccInit a q);
  ai_settled : ac_permit s = None → aw_lost (ac_world s) = false → settled (ac_world s);
  ai_cell : ∀ c, ac_cell s = Some c → ac_permit s = None ∧ (aw_lost (ac_world s) = false → saved c (ac_world s));
}.

Lemma ends_settled_call o k a w x torn y w' :
  account_call o x torn w = (y, w') → ends_settled (Vis (I := srv) o k) a w →
  ends_settled (k y) (account_seen a (Event (I := srv) o y)) w'.
Proof.
  intros Hcall He. assert (Hl : aw_lost w' = false → aw_lost w = false).
  { destruct o; simpl in Hcall; simplify_eq; try done. by destruct y. }
  assert (Hgo : aw_lost w' = false → ends_settled (k y) (account_seen a (Event (I := srv) o y)) w').
  { intros Hw'. specialize (He (Hl Hw') x torn). by rewrite Hcall in He. }
  destruct (k y); intros Hw'; by apply Hgo.
Qed.

(** An answer to every call, under which nothing is lost. *)
Definition mild (o : srv_op) : srv_ans o :=
  match o return srv_ans o with
  | SExists _ | SWriteFile _ _ | SRename _ _ | SAccountFromCredentials _ _ | SNewOrder _
  | SBuildAlpnAcceptor _ _ | SSetReady => true
  | SReadFile _ | SGenerateKey | SCreateAccount _ _ _ => None
  | SNowUnix => 0
  | SOrderAuthorizations => []
  | SSetChallenge _ => tt
  | SAcme o =>
      match o return acme_ans o with
      | ASleep _ => tt
      | ARefresh | ACertificate => None
      | AAuthorizations => ([], None)
      | AFinalizeCsr _ => true
      end
  end.

Lemma account_call_mild o torn w :
  let '(_, w') := account_call o (mild o) torn w in
  aw_lost w' = aw_lost w ∧ aw_created w `prefix_of` aw_created w'.
Proof. destruct o; simpl; try done. by rewrite app_nil_r. Qed.

(** In the middle of an initialiser no more was created than there is at its end. *)
Lemma ends_settled_now q a w :
  ends_settled q a w → aw_lost w = false → ∃ w', settled w' ∧ aw_created w `prefix_of` aw_created w'.
Proof.
  revert a w. induction q as [ok|o k IH]; intros a w He Hl; simpl in He.
  - exists w. split; [by apply He|done].
  - specialize (He Hl (mild o) None). pose proof (account_call_mild o None w) as Hm.
    destruct (account_call o (mild o) None w) as [y w1]. destruct Hm as [Hl1 Hpre].
    destruct (IH y _ _ He ltac:(by rewrite Hl1)) as (w' & Hs & Hp). exists w'. split; [done|]. by etrans.
Qed.

Lemma acc_inv_new : acc_inv (acc_new file0).
Proof. split; [done|done|by left|done]. Qed.

(** A caller outside the initialiser moves on. *)
Lemma acc_inv_set s i p p' :
  acc_inv s → ac_callers s !! i = Some p → (∀ a q, p ≠ AccInit a q) → (∀ a q, p' ≠ AccInit a q) →
  acc_caller_ok s i p' → acc_inv (acc_set i p' s).
Proof.
  intros [Hc Hh Hs Hce] Hp Hn Hn' Hok. split; cbn; [| |done..].
  - intros j q [(<- & <- & _)|[Hne Hj]]%list_lookup_insert_Some; [|by apply Hc]. by destruct p'.
  - intros j Hj. destruct (Hh j Hj) as (a & q & Hq). exists a, q. rewrite list_lookup_insert_ne; [done|].
    intros ->. simplify_eq. by destruct (Hn a q).
Qed.

(** The holder of the permit leaves the initialiser. *)
Lemma acc_inv_leave s i a q r c w :
  acc_inv s → ac_callers s !! i = Some (AccInit a q) →
  (r = c ∨ r = None ∧ c = None) → (aw_lost w = false → settled w) →
  (∀ x, c = Some x → aw_lost w = false → saved x w) →
  acc_inv (MkAcc c None w (<[i := AccDone r]> (ac_callers s))).
Proof.
  intros [Hc Hh Hs Hce] Hi Hr Hset Hsav. destruct (Hc _ _ Hi) as (Hp & Hnone & _). split; cbn; [|done|done|by auto].
  intros j p [(<- & <- & _)|[Hne Hj]]%list_lookup_insert_Some.
  - destruct r as [x|]; cbn; [|done]. by destruct Hr as [<-|[? _]].
  - pose proof (Hc _ _ Hj) as Hok. destruct p as [| |a' q'|[x|]]; cbn in *; [done|done| | |done].
    + destruct Hok as (Hpj & _). congruence.
    + congruence.
Qed.

Lemma acc_inv_move s i x torn s' : acc_inv s → acc_apply (AccMove i x torn) s = Some s' → acc_inv s'.
Proof using creds_roundtrip.
  intros Hinv Hs. simpl in Hs. destruct (ac_callers s !! i) as [p|] eqn:Hi; [|done]. simpl in Hs.
  pose proof (ai_callers s Hinv _ _ Hi) as Hok. destruct p as [| |a q|r]; [| | |done].
  - injection Hs as <-. apply (acc_inv_set s i AccStart); [done..| |]; by destruct (ac_cell s) eqn:Hc; cbn.
  - destruct (ac_cell s) as [c|] eqn:Hc; [|destruct (ac_permit s) eqn:Hp; [done|]]; injection Hs as <-.
    + by apply (acc_inv_set s i AccWaiting).
    + pose proof Hinv as [Hcs _ Hset _]. split; cbn; [| |done|done].
      * intros j p [(<- & <- & _)|[Hne Hj]]%list_lookup_insert_Some.
        { cbn. split_and!; [done..|]. by apply load_or_create_settled, Hset. }
        pose proof (Hcs _ _ Hj) as Hj'. destruct p as [| |a q|[c|]]; cbn in *; try done.
        -- destruct Hj' as [? _]. congruence.
        -- congruence.
      * intros j [= <-]. eexists _, _. by rewrite list_lookup_insert_eq by (by eapply lookup_lt_Some).
  - destruct Hok as (Hp & Hc & He). destruct q as [[|]|o k].
    + injection Hs as <-. apply (acc_inv_leave s i a (Ret true)); [done..|by left| |].
      * intros Hl. by apply He.
      * intros c -> Hl. destruct (He Hl) as [_ Hx]. destruct (Hx eq_refl) as (c' & [= <-] & Hsv). done.
    + injection Hs as <-. rewrite Hc. apply (acc_inv_leave s i a (Ret false)); [done..|by left| |done].
      intros Hl. by apply He.
    + destruct (account_call o (x o) torn (ac_world s)) as [y w] eqn:Hcall. injection Hs as <-.
      pose proof Hinv as [Hcs Hh _ _]. split; cbn; [| |by rewrite Hp|by rewrite Hc].
      * intros j p [(<- & <- & _)|[Hne Hj]]%list_lookup_insert_Some.
        { cbn. split_and!; [done..|]. by eapply ends_settled_call. }
        pose proof (Hcs _ _ Hj) as Hj'. destruct p as [| |a' q'|[c|]]; cbn in *; try done.
        destruct Hj' as [? _]. congruence.
      * intros j Hj. assert (j = i) as -> by congruence. eexists _, _. by rewrite list_lookup_insert_eq by (by eapply lookup_lt_Some).
Qed.

Lemma acc_inv_step e s s' : acc_apply e s = Some s' → acc_inv s → acc_inv s'.
Proof using creds_roundtrip.
  intros Hs Hinv. destruct e as [|i x torn|i]; [| |].
  - injection Hs as <-. pose proof Hinv as [Hc Hh Hset Hcell]. split; cbn; [| |done..].
    + intros j p [Hj|[_ Hj]]%lookup_app_Some; [by apply Hc|].
      by apply list_lookup_singleton_Some in Hj as [_ <-].
    + intros j Hj. destruct (Hh j Hj) as (a & q & Hq). exists a, q. by apply lookup_app_l_Some.
  - by eapply acc_inv_move.
  - simpl in Hs. destruct (ac_callers s !! i) as [p|] eqn:Hi; [|done]. simpl in Hs.
    destruct p as [| |a q|r]; [| | |done]; injection Hs as <-.
    + by apply (acc_inv_set s i AccStart).
    + by apply (acc_inv_set s i AccWaiting).
    + destruct (ai_callers s Hinv _ _ Hi) as (_ & Hc & _). rewrite Hc.
      apply (acc_inv_leave s i a q); [done..|by left|done|done].
Qed.

(** What was created so far, wherever the callers are. *)
Lemma acc_inv_created s :
  acc_inv s → aw_lost (ac_world s) = false →
  ∃ w, settled w ∧ aw_created (ac_world s) `prefix_of` aw_created w.
Proof.
  intros Hinv Hl. destruct (ac_permit s) as [i|] eqn:Hp.
  - destruct (ai_holder s Hinv i Hp) as (a & q & Hi). destruct (ai_callers s Hinv _ _ Hi) as (_ & _ & He).
    by eapply ends_settled_now.
  - exists (ac_world s). split; [by apply (ai_settled s Hinv)|done].
Qed.

Lemma acc_progress s i p :
  acc_inv s → ac_callers s !! i = Some p → (∀ r, p ≠ AccDone r) →
  ∃ j p' x torn s', ac_callers s !! j = Some p' ∧ acc_apply (AccMove j x torn) s = Some s'.
Proof.
  intros Hinv Hi Hn. assert (Hinit : ∀ j a q, ac_callers s !! j = Some (AccInit a q) →
    ∃ s', acc_apply (AccMove j mild None) s = Some s').
  { intros j a q Hj. simpl. rewrite Hj. simpl. destruct q as [[|]|o k]; [eauto..|].
    destruct (account_call o (mild o) None (ac_world s)). eauto. }
  destruct p as [| |a q|r]; [| | |by destruct (Hn r)].
  - exists i, AccStart, mild, None. simpl. rewrite Hi. simpl. eauto.
  - destruct (ac_cell s) as [c|] eqn:Hc; [|destruct (ac_permit s) as [j|] eqn:Hp].
    + exists i, AccWaiting, mild, None. simpl. rewrite Hi. simpl. rewrite Hc. eauto.
    + destruct (ai_holder s Hinv j Hp) as (a & q & Hj). destruct (Hinit j a q Hj) as [s' Hs'].
      exists j, (AccInit a q), mild, None, s'. by split.
    + exists i, AccWaiting, mild, None. simpl. rewrite Hi. simpl. rewrite Hc, Hp. eauto.
  - destruct (Hinit i a q Hi) as [s' Hs']. exists i, (AccInit a q), mild, None, s'. by split.
Qed.

Lemma acc_inv_reachable s : rtc acc_step (acc_new file0) s → acc_inv s.
Proof using creds_roundtrip.
  apply (rtc_invariant _ acc_inv); [apply acc_inv_new|]. intros s1 s2 [e He]. by eapply acc_inv_step.
Qed.
End cell.

Fixpoint acc_execute `{ServerLibs} email staging path (es : list acc_event) (s : acc_state) : option acc_state :=
  match es with
  | [] => Some s
  | e :: es => s ← acc_apply email staging path e s; acc_execute email staging path es s
  end.

Lemma acc_execute_rtc `{ServerLibs} email staging path es s s' :
  acc_execute email staging path es s = Some s' → rtc (acc_step email staging path) s s'.
Proof.
  revert s. induction es as [|e es IH]; intros s; simpl; [by intros [= ->]|].
  destruct (acc_apply email staging path e s) as [s1|] eqn:E; [|done]. simpl. intros Hr.
  eapply rtc_l; [by exists e|]. by apply IH.
Qed.

(** C37: however many callers ask for the ACME account at once, are dropped, or fail: every
    caller that gets one gets the same one; no two load or create it at the same time;
    unless an account was lost (its file could not be written, or the caller creating it
    was dropped), at most one is ever created, none when credentials were already there,
    and the account in use is the one the file holds; and as long as some caller waits,
    some caller can go on, so a failed or dropped one never strands the others. *)
Theorem account_shared `{ServerLibs} email staging path file s :
  (∀ c, creds_from_str (creds_to_string c) = Some c) →
  rtc (acc_step email staging path) (acc_new file) s →
  (∀ i c, ac_callers s !! i = Some (AccDone (Some c)) → ac_cell s = Some c) ∧
  (∀ i j a q a' q', ac_callers s !! i = Some (AccInit a q) → ac_callers s !! j = Some (AccInit a' q') → i = j) ∧
  (aw_lost (ac_world s) = false →
   (length (aw_created (ac_world s)) ≤ 1)%nat ∧
   (is_Some file → aw_created (ac_world s) = []) ∧
   (∀ c, ac_cell s = Some c → aw_file (ac_world s) ≫= creds_from_str = Some c)) ∧
  (∀ i p, ac_callers s !! i = Some p → (∀ r, p ≠ AccDone r) →
     ∃ j p' x torn s', ac_callers s !! j = Some p' ∧ acc_apply email staging path (AccMove j x torn) s = Some s').
Proof.
  intros Hrt Hr. pose proof (acc_inv_reachable email staging path Hrt file s Hr) as Hinv. split_and!.
  - intros i c Hi. exact (ai_callers _ s Hinv _ _ Hi).
  - intros i j a q a' q' Hi Hj. destruct (ai_callers _ s Hinv _ _ Hi) as [Hpi _].
    destruct (ai_callers _ s Hinv _ _ Hj) as [Hpj _]. congruence.
  - intros Hl. destruct (acc_inv_created _ s Hinv Hl) as (w & Hset & [rest Hpre]).
    split_and!; [| |intros c Hc; by apply (ai_cell _ s Hinv)].
    + destruct Hset as [[Hw _]|(_ & c & Hw & _)]; rewrite Hw in Hpre;
        apply (f_equal length) in Hpre; rewrite length_app in Hpre; simpl in Hpre; lia.
    + intros [f Hf]. destruct Hset as [[Hw _]|(Hnone & _)]; [|by rewrite Hf in Hnone].
      rewrite Hw in Hpre. symmetry in Hpre. by apply app_nil in Hpre as [-> _].
  - intros i p. by apply (acc_progress _ _ _ file).
Qed.

(** ** Witness *)

Section witnesses.
Import ToyServer.

(** Two leaders ask at once: the first creates the account, the second and a later caller
    share it. *)
Definition toy_env (o : srv_op) : srv_ans o :=
  match o return srv_ans o with SCreateAccount _ _ _ => Some "acct-1" | o => mild o end.
Definition toy_calls : list acc_event :=
  let go i := AccMove i toy_env None in
  [AccCall; AccCall; go 0; go 1; go 0; go 0; go 0; go 0; go 0; go 1; AccCall; go 2]%nat.

Lemma account_shared_witness :
  ∃ s, acc_execute None true "creds.json" toy_calls (acc_new None) = Some s ∧
    ac_callers s !! 2%nat = Some (AccDone (Some "acct-1")) ∧ ac_cell s = Some "acct-1" ∧
    (length (aw_created (ac_world s)) ≤ 1)%nat.
Proof.
  destruct (acc_execute None true "creds.json" toy_calls (acc_new None)) as [s|] eqn:E;
    [|vm_compute in E; discriminate E].
  exists s. split; [done|].
  destruct (account_shared None true "creds.json" None s (λ c, eq_refl) (acc_execute_rtc _ _ _ _ _ _ E))
    as (Hsame & _ & Hone & _).
  assert (H2 : ac_callers s !! 2%nat = Some (AccDone (Some "acct-1")) ∧ aw_lost (ac_world s) = false).
  { vm_compute in E. injection E as <-. by split. }
  destruct H2 as [H2 Hl]. split; [exact H2|]. split; [exact (Hsame _ _ H2)|exact (proj1 (Hone Hl))].
Defined.
End witnesses.
