(* ===== verification/RelayTls.v ===== *)
(** * RelayTls.v: certificates and verifiers of the relay and of TLS-ALPN-01

    tunnel-common/src/lib.rs: [cert], [build_alpn_acceptor] with its resolver, and the
    certificate verifiers [NoVerify] and [SelfSignedVerifier];
    tunnel-server/src/cert.rs: [build_server_tls_config];
    tunnel-server/src/lib.rs: [quic_transport_config].

    rcgen's certificates, rustls' signature checks and its handshake are other
    crates' code: the classes list the calls and what is documented of them. *)

From S2P Require Import Prelude RustStr Framing Key ClientTls Identity ServerCert.
From Stdlib Require Import Ascii.
Open Scope string_scope.
Open Scope Z_scope.
Open Scope list_scope.
Open Scope tunnel_scope.

(** ** Other crates *)

(** [rcgen::CustomExtension] and the parameters the challenge certificate sets. *)
Record CustomExtension := MkExt { ext_oid : list Z; ext_critical : bool; ext_content : bytes }.
Record ChallengeParams := MkChallengeParams {
  ch_names : list string;
  ch_extensions : list CustomExtension;
}.

(** A certificate as the ACME server's validator reads it. *)
Record ChallengeCert := MkChallengeCert {
  cc_dns_names : list string;
  cc_extensions : list CustomExtension;
  cc_public_key : bytes;
}.

(** [rustls::DigitallySignedStruct]. *)
Record DigitallySigned := MkSigned { ds_scheme : SignatureScheme; ds_sig : bytes }.

Class ChallengeGen `{Rcgen, RustlsKeys} := {
  generate_simple_self_signed : Z → list string → option (bytes * KeyPair);
  challenge_params_new : list string → option ChallengeParams;
  challenge_self_signed : ChallengeParams → KeyPair → option bytes;
  parse_challenge_cert : bytes → option ChallengeCert;
  signing_key_public : signing_key → bytes;
  single_cert_ok : list bytes → bytes → bool;        (** [with_single_cert(..).is_ok()] *)
}.

Definition ACME_IDENTIFIER_OID : list Z := [1; 3; 6; 1; 5; 5; 7; 1; 31].

(** What rcgen writes is what a parser reads, its own extensions before the custom ones;
    a loaded private key has the public key it was saved with. *)
Class ChallengeGenOk `{ChallengeGen} := {
  challenge_params_new_ok names p :
    challenge_params_new names = Some p → p = MkChallengeParams names [];
  challenge_cert_parses p kp d :
    challenge_self_signed p kp = Some d →
    ∃ std, parse_challenge_cert d = Some (MkChallengeCert (ch_names p)
             (std ++ ch_extensions p) (keypair_public_key_raw kp)) ∧
      Forall (λ e, ext_oid e ≠ ACME_IDENTIFIER_OID) std;
  supported_key_public kp sk :
    any_supported_type (serialize_der kp) = Some sk →
    signing_key_public sk = keypair_public_key_raw kp;
}.

Class WebPki := {
  WebPkiSupportedAlgorithms : Type;
  signature_verification_algorithms : WebPkiSupportedAlgorithms;   (** of ring's provider *)
  supported_schemes : WebPkiSupportedAlgorithms → list SignatureScheme;
  crypto_verify_tls12 : bytes → bytes → DigitallySigned → WebPkiSupportedAlgorithms → bool;
  crypto_verify_tls13 : bytes → bytes → DigitallySigned → WebPkiSupportedAlgorithms → bool;
  (** The signature of a message checks under a public key. *)
  signature_valid : bytes → DigitallySigned → bytes → bool;
}.

(** rustls reads the certificate's public key and checks the signature with it, under
    a scheme of the given set only. *)
Class WebPkiOk `{Crypto, WebPki} := {
  crypto_verify_tls12_sound msg c dss algs :
    crypto_verify_tls12 msg c dss algs = true →
    ∃ x, parse_x509_certificate c = Some x ∧ ds_scheme dss ∈ supported_schemes algs ∧
      signature_valid (subject_public_key x) dss msg = true;
  crypto_verify_tls13_sound msg c dss algs :
    crypto_verify_tls13 msg c dss algs = true →
    ∃ x, parse_x509_certificate c = Some x ∧ ds_scheme dss ∈ supported_schemes algs ∧
      signature_valid (subject_public_key x) dss msg = true;
}.

(** ** Verifiers *)

(** [dyn ClientCertVerifier] and [dyn ServerCertVerifier]; [true] is [Ok]. *)
Record ClientCertVerifier := MkClientVerifier {
  root_hint_subjects : list bytes;
  verify_client_cert : bytes → list bytes → bool;
  cv_verify_tls12_signature : bytes → bytes → DigitallySigned → bool;
  cv_verify_tls13_signature : bytes → bytes → DigitallySigned → bool;
  cv_supported_verify_schemes : list SignatureScheme;
}.

Record ServerCertVerifier := MkServerVerifier {
  verify_server_cert : bytes → list bytes → string → bool;
  sv_verify_tls12_signature : bytes → bytes → DigitallySigned → bool;
  sv_verify_tls13_signature : bytes → bytes → DigitallySigned → bool;
  sv_supported_verify_schemes : list SignatureScheme;
}.

(** RSA-PSS with SHA-256 and ECDSA P-384 by their TLS code points. *)
Definition SCHEMES : list SignatureScheme :=
  [SchemeOther 2052; ED25519; ECDSA_NISTP256_SHA256; SchemeOther 1283].

Definition no_verify_server : ServerCertVerifier :=
  MkServerVerifier (λ _ _ _, true) (λ _ _ _, true) (λ _ _ _, true) SCHEMES.

Definition no_verify_client : ClientCertVerifier :=
  MkClientVerifier [] (λ _ _, true) (λ _ _ _, true) (λ _ _ _, true) SCHEMES.

Section verifier.
Context `{WebPki}.

(** [SelfSignedVerifier::new] and its [ClientCertVerifier]. *)
Definition self_signed_verifier : ClientCertVerifier :=
  let algorithms := signature_verification_algorithms in
  MkClientVerifier []
    (λ _ _, true)
    (λ message cert dss, crypto_verify_tls12 message cert dss algorithms)
    (λ message cert dss, crypto_verify_tls13 message cert dss algorithms)
    (supported_schemes algorithms).
End verifier.

(** ** Server configurations *)

(** Where a [rustls::ServerConfig] takes its certificate from. *)
Inductive CertSource `{RustlsKeys} :=
| DiskCertResolver (cert_path key_path : string) (renewal : option AcmeRenewalConfig)
| SingleCert (chain : list bytes) (key : bytes)
| AlpnCertResolver (ck : certified_key).
Arguments DiskCertResolver {_} _ _ _.
Arguments SingleCert {_} _ _.
Arguments AlpnCertResolver {_} _.

Record RustlsServerConfig `{RustlsKeys} := MkServerConfig {
  sc_client_auth : option ClientCertVerifier;   (** [None]: [with_no_client_auth] *)
  sc_certs : CertSource;
  sc_alpn_protocols : list bytes;
}.
Arguments MkServerConfig {_} _ _ _.

Section certs.
Context `{Crypto, ChallengeGen}.

(** [cert]: [None] is the panic of [unwrap]. *)
Definition cert (seed : Z) (name : string) : option (bytes * bytes) :=
  '(c, kp) ← generate_simple_self_signed seed [name];
  Some (c, serialize_der kp).

Inductive alpn_error := AlpnKeygen | AlpnParams | AlpnSign | UnsupportedKeyType.

(** [seed] is the randomness of [KeyPair::generate]. *)
Definition build_alpn_acceptor (seed : Z) (domain key_authorization : string) :
    result alpn_error RustlsServerConfig :=
  let thumbprint := sha256 (as_bytes key_authorization) in
  let ext_val := [x04; x20] ++ thumbprint in
  let ext := MkExt ACME_IDENTIFIER_OID true ext_val in
  keypair ← ok_or AlpnKeygen (generate_for PKCS_ECDSA_P256_SHA256 seed);
  params ← ok_or AlpnParams (challenge_params_new [domain]);
  let params := MkChallengeParams (ch_names params) [ext] in
  cert_der ← ok_or AlpnSign (challenge_self_signed params keypair);
  let key_der := serialize_der keypair in
  signing_key ← ok_or UnsupportedKeyType (any_supported_type key_der);
  let certified_key := ([cert_der], signing_key) in
  Ok (MkServerConfig None (AlpnCertResolver certified_key) [as_bytes "acme-tls/1"]).

(** [AlpnCertResolver::resolve]: the same key whatever the client asks for. *)
Definition alpn_resolve (ck : certified_key) (server_name : option string) : option certified_key :=
  Some ck.
End certs.

Inductive server_tls_error := SelfSignedPanic | BadSingleCert.

Section server.
Context `{ChallengeGen, WebPki}.

Definition build_server_tls_config (seed : Z) (config : ServerConfig)
    (cert_paths : option (string * string * bool)) : result server_tls_error RustlsServerConfig :=
  let verifier := self_signed_verifier in
  match cert_paths with
  | Some (cert_path, key_path, is_acme) =>
      let renewal := renewal_config config (cert_path, key_path, is_acme) in
      Ok (MkServerConfig (Some verifier) (DiskCertResolver cert_path key_path renewal) [])
  | None =>
      '(c, k) ← ok_or SelfSignedPanic (cert seed "tunnel");
      if single_cert_ok [c] k
      then Ok (MkServerConfig (Some verifier) (SingleCert [c] k) [])
      else Err BadSingleCert
  end.
End server.

(** ** QUIC transport parameters *)

Definition QUIC_MAX_BIDI_STREAMS : Z := 256.
Definition QUIC_MAX_UNI_STREAMS : Z := 0.
Definition QUIC_STREAM_RECEIVE_WINDOW : Z := 1024 * 1024.
Definition QUIC_RECEIVE_WINDOW : Z := 16 * 1024 * 1024.

Record TransportConfig := MkTransport {
  max_concurrent_bidi_streams : Z;
  max_concurrent_uni_streams : Z;
  stream_receive_window : Z;
  receive_window : Z;
  max_idle_timeout : option Z;
  keep_alive_interval : option Z;
}.

Definition quic_transport_config `{TlsLibs} : option TransportConfig :=
  idle ← idle_timeout_try_from QUIC_MAX_IDLE_TIMEOUT;
  Some (MkTransport QUIC_MAX_BIDI_STREAMS QUIC_MAX_UNI_STREAMS QUIC_STREAM_RECEIVE_WINDOW
          QUIC_RECEIVE_WINDOW (Some idle) (Some QUIC_KEEP_ALIVE_INTERVAL)).

(** Both ends of a QUIC connection give it up after the same silence, the one the H2
    transport allows too, and send keep-alives well within it. *)
Lemma quic_idle_agrees `{TlsLibs, Yasna} cfg m t :
  tls_mode_new cfg = Ok m → quic_transport_config = Some t →
  max_idle_timeout t = qc_max_idle_timeout (quic m) ∧
  keep_alive_interval t = qc_keep_alive_interval (quic m) ∧
  QUIC_MAX_IDLE_TIMEOUT = H2_PING_INTERVAL + H2_PING_TIMEOUT ∧
  2 * QUIC_KEEP_ALIVE_INTERVAL < QUIC_MAX_IDLE_TIMEOUT.
Proof.
  intros (_ & _ & -> & ->)%tls_mode_new_Ok. unfold quic_transport_config.
  destruct (idle_timeout_try_from _); [|done]. by intros [= <-].
Qed.

(** ** TLS-ALPN-01 validation *)

(** A DER OCTET STRING in short form. *)
Definition octet_string (b : bytes) : option bytes :=
  match b with
  | x04 :: len :: body =>
      if bool_decide (byte_to_Z len < 128 ∧ byte_to_Z len = Z.of_nat (length body))
      then Some body else None
  | _ => None
  end.

Section validation.
Context `{Crypto, ChallengeGen}.

Definition is_acme_identifier (e : CustomExtension) : bool :=
  bool_decide (ext_oid e = ACME_IDENTIFIER_OID).

(** RFC 8737, section 3: the certificate names the domain and nothing else, and has
    one acmeIdentifier extension, critical, holding the digest of the key
    authorization. *)
Definition validates (domain key_authorization : string) (c : ChallengeCert) : bool :=
  bool_decide (cc_dns_names c = [domain]) &&
  match List.filter is_acme_identifier (cc_extensions c) with
  | [e] => ext_critical e &&
           bool_decide (octet_string (ext_content e) = Some (sha256 (as_bytes key_authorization)))
  | _ => false
  end.

Context `{!CryptoOk, !ChallengeGenOk}.

Lemma octet_string_digest ka :
  octet_string ([x04; x20] ++ sha256 (as_bytes ka)) = Some (sha256 (as_bytes ka)).
Proof.
  cbn [octet_string app]. rewrite bool_decide_eq_true_2; [done|].
  by rewrite sha256_length.
Qed.

Lemma filter_acme_identifier std e :
  Forall (λ e, ext_oid e ≠ ACME_IDENTIFIER_OID) std → ext_oid e = ACME_IDENTIFIER_OID →
  List.filter is_acme_identifier (std ++ [e]) = [e].
Proof.
  intros Hstd He. rewrite List.filter_app. induction Hstd as [|x l Hx _ IH]; cbn.
  - unfold is_acme_identifier. by rewrite bool_decide_eq_true_2.
  - unfold is_acme_identifier at 1. by rewrite bool_decide_eq_false_2.
Qed.

Lemma build_alpn_acceptor_Ok seed domain ka acc :
  build_alpn_acceptor seed domain ka = Ok acc →
  ∃ c sk x, acc = MkServerConfig None (AlpnCertResolver ([c], sk)) [as_bytes "acme-tls/1"] ∧
    parse_challenge_cert c = Some x ∧ cc_public_key x = signing_key_public sk ∧
    cc_dns_names x = [domain] ∧
    List.filter is_acme_identifier (cc_extensions x) =
      [MkExt ACME_IDENTIFIER_OID true ([x04; x20] ++ sha256 (as_bytes ka))].
Proof.
  unfold build_alpn_acceptor. destruct (generate_for _ _) as [kp|]; [|done]. cbn.
  destruct (challenge_params_new _) as [p|] eqn:Ep; [|done]. cbn.
  apply challenge_params_new_ok in Ep as ->.
  destruct (challenge_self_signed _ kp) as [c|] eqn:Ec; [|done]. cbn.
  destruct (any_supported_type _) as [sk|] eqn:Ek; [|done]. cbn. intros [= <-].
  apply challenge_cert_parses in Ec as (std & Hp & Hstd). apply supported_key_public in Ek.
  eexists c, sk, _. split_and!; [done|done|done|done|]. cbn [cc_extensions ch_extensions].
  by apply filter_acme_identifier.
Qed.
End validation.

(** C29: the acceptor the client and the relay build to answer a TLS-ALPN-01 challenge
    passes RFC 8737 validation for its order and for no other. Whatever server name the
    validator asks for, the acceptor negotiates only [acme-tls/1], asks for no client
    certificate and presents one certificate, whose key it holds; the validator accepts
    that certificate for exactly the domain it was built for and for key authorizations
    with the digest of the one it was built for. *)
Theorem challenge_certificate_valid `{CryptoOk, ChallengeGenOk} seed domain ka acc :
  build_alpn_acceptor seed domain ka = Ok acc →
  sc_alpn_protocols acc = [ACME_TLS_ALPN] ∧ sc_client_auth acc = None ∧
  ∃ ck, sc_certs acc = AlpnCertResolver ck ∧
  ∀ server_name, ∃ c x sk,
    alpn_resolve ck server_name = Some ([c], sk) ∧ parse_challenge_cert c = Some x ∧
    cc_public_key x = signing_key_public sk ∧
    ∀ domain' ka', validates domain' ka' x = true ↔
      domain' = domain ∧ sha256 (as_bytes ka') = sha256 (as_bytes ka).
Proof.
  intros (c & sk & x & -> & Hp & Hk & Hn & He)%build_alpn_acceptor_Ok.
  split_and!; [done|done|]. eexists. split; [done|]. intros name.
  exists c, x, sk. split_and!; [done|done|done|]. intros domain' ka'.
  unfold validates. rewrite He, Hn. cbn [ext_critical ext_content andb].
  rewrite octet_string_digest, andb_true_iff, !bool_decide_eq_true.
  split; [intros [[= ->] [= Heq]]; by split|by intros [-> ->]].
Qed.

(** ** Who the relay talks to *)

Section handshake.
Context `{RustlsKeys}.

(** rustls' server side of a handshake: the peer's certificate chain when it completes.
    What the client must sign is the transcript. *)
Class ServerHandshake := {
  client_flight : Type;
  transcript : client_flight → bytes;
  server_handshake : RustlsServerConfig → client_flight → option (list bytes);
}.

(** Client authentication is mandatory by default: with a verifier installed, a handshake
    completes only with a certificate it accepts and a signature it accepts, made with
    the version's format. *)
Class ServerHandshakeOk `{ServerHandshake} := {
  handshake_verified cfg v fl certs :
    sc_client_auth cfg = Some v → server_handshake cfg fl = Some certs →
    ∃ c rest dss, certs = c :: rest ∧ verify_client_cert v c rest = true ∧
      (cv_verify_tls12_signature v (transcript fl) c dss = true ∨
       cv_verify_tls13_signature v (transcript fl) c dss = true);
}.
End handshake.

Lemma server_tls_client_auth `{ChallengeGen, WebPki} seed config paths cfg :
  build_server_tls_config seed config paths = Ok cfg →
  sc_client_auth cfg = Some self_signed_verifier.
Proof.
  unfold build_server_tls_config. destruct paths as [[[cp kp] ac]|]; [by intros [= <-]|].
  destruct (cert seed "tunnel") as [[c k]|]; [|done]. cbn.
  destruct (single_cert_ok [c] k); [|done]. by intros [= <-].
Qed.

(** C9: every peer the relay completes a TLS handshake with holds the private key of the
    certificate it presented. Whichever certificate the relay itself uses (from disk, ACME
    managed or self-signed), a completed handshake has a first peer certificate, the public
    key the relay reads from it for its identity checks is the one the signature over this
    handshake's transcript verifies under, and the scheme is one of ring's; no certificate
    is refused for who issued it. *)
Theorem relay_peer_holds_key `{WebPkiOk, ChallengeGen, !ServerHandshake, !ServerHandshakeOk}
    seed config paths cfg fl certs :
  build_server_tls_config seed config paths = Ok cfg →
  server_handshake cfg fl = Some certs →
  (∃ c rest pk dss, certs = c :: rest ∧ pubkey_from_cert c = Some pk ∧
    signature_valid pk dss (transcript fl) = true ∧
    ds_scheme dss ∈ supported_schemes signature_verification_algorithms) ∧
  ∃ v, sc_client_auth cfg = Some v ∧ ∀ c rest, verify_client_cert v c rest = true.
Proof.
  intros Hb%server_tls_client_auth Hh. split; [|by eexists].
  destruct (handshake_verified _ _ _ _ Hb Hh) as (c & rest & dss & -> & _ & Hv).
  assert (∃ x, parse_x509_certificate c = Some x ∧
      ds_scheme dss ∈ supported_schemes signature_verification_algorithms ∧
      signature_valid (subject_public_key x) dss (transcript fl) = true) as (x & Hx & Hs & Hok).
  { destruct Hv; [by eapply crypto_verify_tls12_sound|by eapply crypto_verify_tls13_sound]. }
  exists c, rest, (subject_public_key x), dss. unfold pubkey_from_cert. by rewrite Hx.
Qed.

(** ** Witnesses *)

Module ToyRelay.
Import ToyKey ToyServer ToyTls ToyCrypto.

(** The challenge certificate for domain "d" under the toy digest of "ka" is the key
    pair's bytes followed by the digest's first two bytes. *)
#[export] Instance challenge : ChallengeGen := {|
  generate_simple_self_signed seed names :=
    Some ([x00], (PKCS_ECDSA_P256_SHA256, [byte_of_Z seed]));
  challenge_params_new names := Some (MkChallengeParams names []);
  challenge_self_signed p kp :=
    match ch_names p, ch_extensions p, kp.2 with
    | ["d"], [MkExt oid true (x04 :: x20 :: digest)], [k] =>
        if bool_decide (oid = ACME_IDENTIFIER_OID) then Some (k :: digest) else None
    | _, _, _ => None
    end;
  parse_challenge_cert c :=
    match c with
    | k :: digest =>
        Some (MkChallengeCert ["d"]
                [MkExt [2; 5; 29; 17] false []; MkExt ACME_IDENTIFIER_OID true (x04 :: x20 :: digest)] [k])
    | [] => None
    end;
  signing_key_public sk := drop 1 sk;
  single_cert_ok c k := true;
|}.

#[export] Instance challenge_ok : ChallengeGenOk.
Proof.
  split; cbn.
  - by intros names p [= <-].
  - intros [names exts] [alg kp] d. cbn. repeat (case_match; try done). intros [= <-].
    simplify_eq. match goal with H : bool_decide _ = true |- _ => apply bool_decide_eq_true in H as -> end.
    exists [MkExt [2; 5; 29; 17] false []]. split; [done|]. by constructor.
  - intros [alg kp] sk [= <-]. done.
Qed.

(** A signature is the public key followed by the message. *)
Definition toy_valid (pk : bytes) (dss : DigitallySigned) (msg : bytes) : bool :=
  bool_decide (ds_sig dss = pk ++ msg).
Definition toy_verify (msg c : bytes) (dss : DigitallySigned) (algs : list SignatureScheme) : bool :=
  match parse_x509_certificate c with
  | Some x => bool_decide (ds_scheme dss ∈ algs) && toy_valid (subject_public_key x) dss msg
  | None => false
  end.
#[export] Instance webpki : WebPki := {|
  WebPkiSupportedAlgorithms := list SignatureScheme;
  signature_verification_algorithms := [ED25519; ECDSA_NISTP256_SHA256];
  supported_schemes := id;
  crypto_verify_tls12 := toy_verify;
  crypto_verify_tls13 := toy_verify;
  signature_valid := toy_valid;
|}.

Lemma toy_verify_sound msg c dss algs :
  toy_verify msg c dss algs = true →
  ∃ x, parse_x509_certificate c = Some x ∧ ds_scheme dss ∈ algs ∧
    toy_valid (subject_public_key x) dss msg = true.
Proof.
  unfold toy_verify. destruct (parse_x509_certificate c) as [x|]; [|done].
  intros [Hs%bool_decide_eq_true ?]%andb_true_iff. eauto.
Qed.

#[export] Instance webpki_ok : WebPkiOk.
Proof. split; exact toy_verify_sound. Qed.

(** A flight: the transcript, the certificate and the signature. *)
#[export] Instance hs : ServerHandshake := {|
  client_flight := bytes * bytes * DigitallySigned;
  transcript fl := fl.1.1;
  server_handshake cfg fl :=
    match sc_client_auth cfg with
    | None => Some []
    | Some v =>
        if verify_client_cert v fl.1.2 [] && cv_verify_tls13_signature v fl.1.1 fl.1.2 fl.2
        then Some [fl.1.2] else None
    end;
|}.

#[export] Instance hs_ok : ServerHandshakeOk.
Proof.
  split. intros cfg v [[msg c] dss] certs Hv. cbn. rewrite Hv.
  destruct (verify_client_cert v c []) eqn:Hc; [|done].
  destruct (cv_verify_tls13_signature v msg c dss) eqn:Hs; [|done].
  intros [= <-]. eauto 10.
Qed.

Definition flight : client_flight :=
  ([x07], [x00], MkSigned ED25519 [x02; x07]).
Definition config : ServerConfig :=
  MkConfig "0.0.0.0" 4433 443 [] None None None None false None None "creds.json" 30 false
    H2KeepAlive.default.
End ToyRelay.

Section witnesses.
Import ToyKey ToyServer ToyTls ToyCrypto ToyRelay.

Lemma challenge_certificate_valid_witness :
  ∃ acc, build_alpn_acceptor 7 "d" "ka" = Ok acc ∧ sc_alpn_protocols acc = [ACME_TLS_ALPN].
Proof.
  eexists. split; [vm_compute; reflexivity|].
  refine (proj1 (challenge_certificate_valid 7 "d" "ka" _ _)). vm_compute. reflexivity.
Defined.

(** A relay with a self-signed certificate completes a handshake with a client that signs,
    and not with one that replays the certificate of another. *)
Lemma relay_peer_holds_key_witness :
  ∃ cfg, build_server_tls_config 7 config None = Ok cfg ∧
    server_handshake cfg flight = Some [[x00]] ∧
    server_handshake cfg ([x08], [x00], MkSigned ED25519 [x02; x07]) = None ∧
    ∃ v, sc_client_auth cfg = Some v ∧ ∀ c rest, verify_client_cert v c rest = true.
Proof.
  eexists. split; [reflexivity|]. split; [vm_compute; reflexivity|].
  split; [vm_compute; reflexivity|].
  refine (proj2 (relay_peer_holds_key 7 config None _ flight [[x00]] _ _)); vm_compute; reflexivity.
Defined.
End witnesses.
