(* ===== verification/RelayMain.v ===== *)
(** * RelayMain.v: the relay from its command line to its shutdown

    relay/src/main.rs ([Args], [main], [shutdown_signal]) and [run] and [run_until]
    of tunnel-server/src/lib.rs: binding the ports, choosing the certificate, starting
    the listeners and cleaning up on every way out, cancellation included. *)

From S2P Require Import Prelude Async RustStr RustNet Framing Key ClientTls Identity.
From S2P Require Import CertProvisioner ServerCert RelayTls.
From stdpp Require Import pretty.
Open Scope string_scope.
Open Scope Z_scope.
Open Scope list_scope.
Open Scope tunnel_scope.

(** ** Command line *)

Record Args := MkArgs {
  arg_bind_addr : string;
  arg_api_port : Z;
  arg_pub_port : Z;
  arg_domain_suffix : list string;
  arg_tls_cert : option string;
  arg_tls_key : option string;
  arg_acme_domain : option string;
  arg_acme_email : option string;
  arg_acme_creds_path : string;
  arg_acme_staging : bool;
  arg_acme_directory_url : option string;
  arg_acme_root_ca : option string;
  arg_acme_renew_days : Z;
}.

(** No flag given. *)
Definition default_args : Args :=
  MkArgs "0.0.0.0" 4433 443 [] None None None None "server_acme_creds.json" false None None 30.

Definition args_config (args : Args) : ServerConfig :=
  MkConfig (arg_bind_addr args) (arg_api_port args) (arg_pub_port args) (arg_domain_suffix args)
    (arg_tls_cert args) (arg_tls_key args) (arg_acme_domain args) (arg_acme_email args)
    (arg_acme_staging args) (arg_acme_directory_url args) (arg_acme_root_ca args)
    (arg_acme_creds_path args) (arg_acme_renew_days args) false H2KeepAlive.default.

(** ** [run_until] *)

Definition SHUTDOWN_FLUSH : Z := from_secs 2.
Definition SHUTDOWN_REASON : string := "relay shutting down".

(** What the listeners take of [ListenerCtx]; the maps are behind Relay.v's calls. *)
Record SharedCtx := MkShared { lc_domain_suffixes : list string; lc_auth_handler : bool }.

(** How the public task ended: a panic, or what it returned. *)
Inductive joined := JoinError | Returned (ok : bool).
Inductive signal := SIGINT | SIGTERM.

Inductive main_error :=
| PublicBind | CertFailed | TlsConfig (e : server_tls_error) | NoQuicSuite | BadTransport
| BadApiAddr | QuicBind | ApiBind | PublicJoin | PublicFailed.

Inductive utask_kind := TPublic | TQuic | TH2.
#[export] Instance utask_kind_eq_dec : EqDecision utask_kind.
Proof. solve_decision. Defined.

Section main.
Context `{ServerLibs, Pem, Yasna, TlsLibs, ChallengeGen, WebPki}.

Inductive utask :=
| PublicListener
| QuicListener (ctx : SharedCtx)
| H2Listener (tls : RustlsServerConfig) (ctx : SharedCtx) (keepalive : H2KeepAlive.t).

Definition kind (t : utask) : utask_kind :=
  match t with PublicListener => TPublic | QuicListener _ => TQuic | H2Listener _ _ _ => TH2 end.

Inductive uop :=
| UBindTcp (addr : string)
| USpawn (t : utask)
| UCert (o : srv_op)                    (** the calls of [determine_cert] *)
| UQuicServer (tls : RustlsServerConfig) (transport : TransportConfig) (addr : SocketAddr)
| USelect                               (** [select!] of the public task and [shutdown] *)
| UJoinPublic                           (** the public task alone *)
| UCloseEndpoint (code : Z) (reason : string)
| UWaitIdle (d : Z)                     (** [timeout(d, endpoint.wait_idle())] *)
| UAbort (t : utask_kind)               (** an [AbortOnDrop] goes out of scope *)
| USigTerm                              (** [signal(SignalKind::terminate())] *)
| UCtrlC                                (** [ctrl_c().await] *)
| UCtrlCOrTerm.                         (** [select!] of both signals *)

Definition uans (o : uop) : Type :=
  match o with
  | UBindTcp _ | UQuicServer _ _ _ | USigTerm => bool
  | UCert o => srv_ans o
  | USelect => joined + unit
  | UJoinPublic => joined
  | UCtrlCOrTerm => signal
  | USpawn _ | UCloseEndpoint _ _ | UWaitIdle _ | UAbort _ | UCtrlC => unit
  end.

Definition relay_main : iface :=
  Iface uop uans (λ o, match o with
                       | UBindTcp _ | UCert _ | USelect | UJoinPublic | UWaitIdle _ | UCtrlC
                       | UCtrlCOrTerm => true
                       | _ => false
                       end).

(** Resolves on the first termination signal the platform can deliver. *)
Definition shutdown_signal : prog relay_main signal :=
  term <-! call (I := relay_main) USigTerm ;;
  if (term : bool) then call (I := relay_main) UCtrlCOrTerm
  else call (I := relay_main) UCtrlC ;;! Ret SIGINT.

(** The same where there are no unix signals. *)
Definition shutdown_signal_other : prog relay_main signal :=
  call (I := relay_main) UCtrlC ;;! Ret SIGINT.

(** What the drop of the locals does, latest first. *)
Inductive guard := AbortOnDrop (t : utask_kind) | CloseOnDrop.
Definition drop_guard (g : guard) : prog relay_main unit :=
  match g with
  | AbortOnDrop t => call (I := relay_main) (UAbort t)
  | CloseOnDrop => call (I := relay_main) (UCloseEndpoint 0 SHUTDOWN_REASON)
  end.

Abbreviation outcome := (result main_error unit).

Fixpoint leave (gs : list guard) (r : outcome) : prog relay_main outcome :=
  match gs with
  | [] => Ret r
  | g :: gs => drop_guard g ;;! leave gs r
  end.

(** [?] on a value already there, and on a call: on failure, drop what is alive and
    return the error. *)
Definition try {A} (gs : list guard) (x : result main_error A) (k : A → prog relay_main outcome) :
    prog relay_main outcome :=
  match x with Ok a => k a | Err e => leave gs (Err e) end.
Definition try_call (gs : list guard) (o : uop) (as_bool : uans o → bool) (e : main_error)
    (k : prog relay_main outcome) : prog relay_main outcome :=
  x <-! call (I := relay_main) o ;;
  if as_bool x then k else leave gs (Err e).

Context (quic_server_config_ok : RustlsServerConfig → bool).  (** [QuicServerConfig::try_from] *)

Definition api_addr (config : ServerConfig) : string := bind_addr config +:+ ":" +:+ pretty (api_port config).
Definition pub_addr (config : ServerConfig) : string := bind_addr config +:+ ":" +:+ pretty (pub_port config).

(** The [select!] at the end; [pending()] as the shutdown never resolves. *)
Definition select_end (shutdown : bool) : prog relay_main (joined + unit) :=
  if shutdown then call (I := relay_main) USelect
  else j <-! call (I := relay_main) UJoinPublic ;; Ret (inl (j : joined)).

(** After the certificate is chosen: the TLS configuration, the endpoint and the
    listeners. *)
Definition start_listeners (shutdown : bool) (seed : Z) (config : ServerConfig)
    (cert_paths : option (string * string * bool)) : prog relay_main outcome :=
  let gs := [AbortOnDrop TPublic] in
  try gs (map_err TlsConfig (build_server_tls_config seed config cert_paths)) (λ server_tls,
  try gs (if quic_server_config_ok server_tls then Ok tt else Err NoQuicSuite) (λ _,
  try gs (ok_or BadTransport quic_transport_config) (λ transport,
  try gs (ok_or BadApiAddr (parse_socket_addr (api_addr config))) (λ addr,
  try_call gs (UQuicServer server_tls transport addr) id QuicBind (
  try_call gs (UBindTcp (api_addr config)) id ApiBind (
  let ctx := MkShared (cfg_domain_suffixes config) (cfg_auth_handler config) in
  call (I := relay_main) (USpawn (QuicListener ctx)) ;;!
  call (I := relay_main) (USpawn (H2Listener server_tls ctx (cfg_h2_keepalive config))) ;;!
  r <-! select_end shutdown ;;
  let gs := [CloseOnDrop; AbortOnDrop TH2; AbortOnDrop TQuic; AbortOnDrop TPublic] in
  match (r : joined + unit) with
  | inl JoinError => leave gs (Err PublicJoin)
  | inl (Returned true) => leave gs (Ok tt)
  | inl (Returned false) => leave gs (Err PublicFailed)
  | inr _ =>
      call (I := relay_main) (UCloseEndpoint 0 SHUTDOWN_REASON) ;;!
      call (I := relay_main) (UWaitIdle SHUTDOWN_FLUSH) ;;!
      leave gs (Ok tt)
  end)))))).

(** [run_until] for a shutdown that can resolve, or cannot. [seed] is the randomness of a
    self-signed certificate. *)
Definition run_with (shutdown : bool) (seed : Z) (config : ServerConfig) : prog relay_main outcome :=
  try_call [] (UBindTcp (pub_addr config)) id PublicBind (
  call (I := relay_main) (USpawn PublicListener) ;;!
  r <-! embed (I := srv) (J := relay_main) UCert (λ _ x, x) (determine_cert config) ;;
  match r with
  | Err _ => leave [AbortOnDrop TPublic] (Err CertFailed)
  | Ok cert_paths => start_listeners shutdown seed config cert_paths
  end).

Definition run_until : Z → ServerConfig → prog relay_main outcome := run_with true.
Definition run : Z → ServerConfig → prog relay_main outcome := run_with false.

(** ** Dropping the future *)

(** The guard variables that come into scope with a call: [endpoint] right after the H2
    listener is spawned, the others when their task is. *)
Definition guards_of (e : event relay_main) : list guard :=
  match ev_op e with
  | USpawn PublicListener => [AbortOnDrop TPublic]
  | USpawn (QuicListener _) => [AbortOnDrop TQuic]
  | USpawn (H2Listener _ _ _) => [CloseOnDrop; AbortOnDrop TH2]
  | _ => []
  end.

(** The guards alive after the calls [tr], latest first. *)
Definition alive (tr : trace relay_main) : list guard := reverse tr ≫= guards_of.

Fixpoint drop_guards (gs : list guard) : prog relay_main unit :=
  match gs with
  | [] => Ret tt
  | g :: gs => drop_guard g ;;! drop_guards gs
  end.

(** The future is dropped at an [await]: what it had done, then the drops. *)
Definition cancelled (p : prog relay_main outcome) (tr : trace relay_main) : Prop :=
  ∃ tr1 tr2 o k, tr = tr1 ++ tr2 ∧ reaches p tr1 (Vis o k) ∧ awaits relay_main o = true ∧
    runs (drop_guards (alive tr1)) tr2 tt.

(** relay/src/main.rs: [main] once the arguments are parsed. *)
Definition main (seed : Z) (args : Args) : prog relay_main outcome := run_until seed (args_config args).
End main.

(** ** What a run of the relay does *)

Section order.
Context {I : iface}.

(** Every [a] is followed by a [b]. *)
Fixpoint followed (a b : event I → bool) (tr : trace I) : bool :=
  match tr with
  | [] => true
  | e :: tr => (if a e then existsb b tr else true) && followed a b tr
  end.
(** Every [b] is preceded by an [a]. *)
Fixpoint preceded (seen : bool) (a b : event I → bool) (tr : trace I) : bool :=
  match tr with
  | [] => true
  | e :: tr => (if b e then seen else true) && preceded (seen || a e) a b tr
  end.

(** Every [a] is followed at once by a [b]. *)
Fixpoint adjacent (a b : event I → bool) (tr : trace I) : bool :=
  match tr with
  | [] => true
  | e :: tr => (if a e then match tr with e' :: _ => b e' | [] => false end else true) && adjacent a b tr
  end.

Lemma adjacent_split a b tr1 e tr2 :
  adjacent a b (tr1 ++ e :: tr2) = true → b e = false →
  existsb a tr1 = true → existsb b tr1 = true.
Proof.
  intros Hadj He. induction tr1 as [|e1 tr1 IH]; simpl in *; [done|].
  apply andb_true_iff in Hadj as [H1 H2]. specialize (IH H2). intros Ha. destruct (a e1) eqn:E; simpl in *.
  - destruct tr1 as [|e2 tr1]; simpl in *; [by rewrite H1 in He|]. rewrite H1. by rewrite orb_true_r.
  - rewrite (IH Ha). apply orb_true_r.
Qed.

Lemma adjacent_quiet a b tr tr' :
  Forall (λ e, a e = false) tr → adjacent a b (tr ++ tr') = adjacent a b tr'.
Proof. induction 1 as [|e tr He _ IH]; cbn; [done|]. by rewrite He, IH. Qed.

(** A trace cut short and continued by other means. *)
Lemma followed_cut a b tr tr' :
  Forall (λ e, a e = false) tr' → (existsb a tr = true → existsb b tr' = true) →
  followed a b (tr ++ tr') = true.
Proof.
  intros Hq Hb. induction tr as [|e tr IH]; simpl in *.
  - clear Hb. induction Hq as [|e tr' He _ IH]; simpl; [done|]. by rewrite He.
  - rewrite IH by (intros Ha; apply Hb; by rewrite Ha, orb_true_r).
    destruct (a e); [|done]. rewrite existsb_app, (Hb eq_refl), orb_true_r. done.
Qed.

Lemma preceded_cut seen a b tr tr1 tr' :
  Forall (λ e, b e = false) tr' → preceded seen a b (tr ++ tr1) = true →
  preceded seen a b (tr ++ tr') = true.
Proof.
  intros Hq. revert seen. induction tr as [|e tr IH]; intros seen; simpl.
  - intros _. revert seen. induction Hq as [|e tr' He _ IH]; intros seen; simpl; [done|]. by rewrite He, IH.
  - intros [-> H]%andb_true_iff. by apply IH.
Qed.

Lemma followed_quiet a b tr tr' :
  Forall (λ e, a e = false) tr → followed a b (tr ++ tr') = followed a b tr'.
Proof. induction 1 as [|e tr He _ IH]; cbn; [done|]. by rewrite He, IH. Qed.

Lemma preceded_seen a b tr : preceded true a b tr = true.
Proof. induction tr as [|e tr IH]; cbn; [done|]. rewrite IH. by destruct (b e). Qed.

Lemma existsb_app_r (f : event I → bool) tr tr' : existsb f tr' = true → existsb f (tr ++ tr') = true.
Proof. intros Hf. rewrite existsb_app, Hf. by destruct (existsb f tr). Qed.
End order.

Section properties.
Context `{ServerLibs, Pem, Yasna, TlsLibs, ChallengeGen, WebPki}.

Abbreviation relay_event := (event relay_main).
Definition spawns (k : utask_kind) (e : relay_event) : bool :=
  match ev_op e with USpawn t => bool_decide (kind t = k) | _ => false end.
Definition aborts (k : utask_kind) (e : relay_event) : bool :=
  match ev_op e with UAbort t => bool_decide (t = k) | _ => false end.
Definition closes (e : relay_event) : bool :=
  match ev_op e with UCloseEndpoint 0 r => String.eqb r SHUTDOWN_REASON | _ => false end.
Definition certifies (e : relay_event) : bool :=
  match ev_op e with UCert _ => true | _ => false end.

(** Nothing that was started outlives the run, and the public listener is up before the
    certificate is looked for. *)
Definition tidy (tr : trace relay_main) : Prop :=
  (∀ k, followed (spawns k) (aborts k) tr = true) ∧
  followed (spawns TQuic) closes tr = true ∧
  preceded false (spawns TPublic) certifies tr = true.

(** What a run did and was answered while it looked for the certificate. *)
Definition cert_seen (tr : trace relay_main) (e : event srv) : Prop :=
  Event (I := relay_main) (UCert (ev_op e)) (ev_ans e) ∈ tr.

(** The TLS configuration a relay may serve agents with after the calls [tr]: it
    authenticates them, and it serves the certificate the configuration asks for
    ([cert_choice]): the file at the configured path with the key at the configured path,
    renewed over ACME for the configured domain when there is one, or the self-signed
    certificate where the configuration and the file call for it. *)
Definition tls_for (seed : Z) (config : ServerConfig) (tr : trace relay_main)
    (tls : RustlsServerConfig) : Prop :=
  sc_client_auth tls = Some self_signed_verifier ∧
  ∃ choice, cert_choice config (cert_seen tr) choice ∧
    match choice with
    | Some (cert_path, key_path, _) =>
        sc_certs tls = DiskCertResolver cert_path key_path
          ((λ domain, MkRenewal domain (acme_email config) (from_config config)
              (acme_creds_path config) cert_path key_path
              (acme_renew_days_before_expiry config * 86400)) <$> acme_domain config)
    | None => ∃ c k, cert seed "tunnel" = Some (c, k) ∧ sc_certs tls = SingleCert [c] k
    end.

(** An operation after the calls [tr] serves the configuration. *)
Definition serves (seed : Z) (config : ServerConfig) (tr : trace relay_main) (e : relay_event) : Prop :=
  match ev_op e with
  | UQuicServer tls transport addr =>
      tls_for seed config tr tls ∧
      parse_socket_addr (bind_addr config +:+ ":" +:+ pretty (api_port config)) = Some addr ∧
      max_concurrent_uni_streams transport = 0 ∧
      max_idle_timeout transport = idle_timeout_try_from QUIC_MAX_IDLE_TIMEOUT
  | USpawn (QuicListener ctx) =>
      ctx = MkShared (cfg_domain_suffixes config) (cfg_auth_handler config)
  | USpawn (H2Listener tls ctx keepalive) =>
      tls_for seed config tr tls ∧
      ctx = MkShared (cfg_domain_suffixes config) (cfg_auth_handler config) ∧
      keepalive = cfg_h2_keepalive config
  | _ => True
  end.

(** Each operation of a run, after those before it. *)
Fixpoint serves_from (seed : Z) (config : ServerConfig) (before tr : trace relay_main) : Prop :=
  match tr with
  | [] => True
  | e :: tr => serves seed config before e ∧ serves_from seed config (before ++ [e]) tr
  end.

Lemma cert_choice_mono config (S S' : event srv → Prop) c :
  (∀ e, S e → S' e) → cert_choice config S c → cert_choice config S' c.
Proof.
  intros HS. unfold cert_choice, cert_usable, cert_unusable.
  destruct (acme_domain config), (cfg_cert_path config); naive_solver.
Qed.

Lemma tls_for_mono seed config tr tr' tls :
  tr ⊆ tr' → tls_for seed config tr tls → tls_for seed config tr' tls.
Proof.
  intros Htr [Ha (c & Hc & Hm)]. split; [done|]. exists c. split; [|done].
  eapply cert_choice_mono; [|exact Hc]. intros e. apply Htr.
Qed.

Lemma serves_mono seed config tr tr' e :
  tr ⊆ tr' → serves seed config tr e → serves seed config tr' e.
Proof.
  intros Htr. unfold serves. destruct (ev_op e) as [|[]| | | | | | | | | |]; naive_solver eauto using tls_for_mono.
Qed.

Lemma serves_from_Forall seed config before before' tr :
  before ⊆ before' → Forall (serves seed config before) tr → serves_from seed config before' tr.
Proof.
  intros Hb Hf. revert before' Hb. induction Hf as [|e tr He _ IH]; intros before' Hb; [done|].
  split; [by eapply serves_mono|]. apply IH. set_solver.
Qed.

Lemma serves_from_app seed config before tr tr' :
  serves_from seed config before (tr ++ tr') ↔
  serves_from seed config before tr ∧ serves_from seed config (before ++ tr) tr'.
Proof.
  revert before. induction tr as [|e tr IH]; intros before; simpl.
  - rewrite app_nil_r. tauto.
  - rewrite IH, <-app_assoc. simpl. tauto.
Qed.

Lemma tls_for_built seed config tr paths tls :
  cert_choice config (cert_seen tr) paths →
  build_server_tls_config seed config paths = Ok tls → tls_for seed config tr tls.
Proof.
  intros Hc Hb. split; [by eapply server_tls_client_auth|]. exists paths. split; [done|].
  destruct paths as [[[cp kp] ac]|].
  - cbn [build_server_tls_config renewal_config] in Hb. injection Hb as <-. cbn.
    unfold cert_choice in Hc. destruct (acme_domain config) as [d|], (cfg_cert_path config); simplify_eq; try done.
    destruct Hc as [[? _]|[? _]]; by simplify_eq.
  - unfold build_server_tls_config in Hb. destruct (cert seed "tunnel") as [[c k]|]; [|done].
    cbn in Hb. destruct (single_cert_ok [c] k); [|done]. injection Hb as <-. by exists c, k.
Qed.

(** What a finished start-up adds to a trace that has spawned the public listener. *)
Definition tail_ok (seed : Z) (config : ServerConfig) (before tr : trace relay_main) : Prop :=
  (∀ k, followed (spawns k) (aborts k) tr = true) ∧ followed (spawns TQuic) closes tr = true ∧
  existsb (aborts TPublic) tr = true ∧ Forall (serves seed config before) tr ∧
  adjacent (spawns TQuic) (spawns TH2) tr = true.

Lemma start_listeners_tail quic_server_config_ok shutdown seed config before paths :
  (∀ tls, build_server_tls_config seed config paths = Ok tls → tls_for seed config before tls) →
  wp (start_listeners quic_server_config_ok shutdown seed config paths)
    (λ tr _, tail_ok seed config before tr).
Proof.
  intros Htls. unfold start_listeners, try, try_call, select_end.
  destruct (build_server_tls_config seed config paths) as [tls|e]; cbn [map_err].
  2: { intros []. split_and!; [by intros []|done|done|by repeat constructor|done]. }
  specialize (Htls tls eq_refl).
  destruct (quic_server_config_ok tls).
  2: { intros []. split_and!; [by intros []|done|done|by repeat constructor|done]. }
  destruct quic_transport_config as [tc|] eqn:Et; cbn [ok_or].
  2: { intros []. split_and!; [by intros []|done|done|by repeat constructor|done]. }
  destruct (parse_socket_addr _) as [addr|] eqn:Haddr; cbn [ok_or].
  2: { intros []. split_and!; [by intros []|done|done|by repeat constructor|done]. }
  assert (Htc : max_concurrent_uni_streams tc = 0 ∧
                max_idle_timeout tc = idle_timeout_try_from QUIC_MAX_IDLE_TIMEOUT).
  { unfold quic_transport_config in Et. destruct (idle_timeout_try_from _); by simplify_eq/=. }
  repeat (cbn; match goal with
    | |- ∀ x : bool, _ => intros [|]
    | |- ∀ x : unit, _ => intros []
    | |- ∀ x : joined + unit, _ => intros [[|[|]]|[]]
    | |- ∀ x : joined, _ => intros [|[|]]
    | |- context [if shutdown then _ else _] => destruct shutdown
    end); cbn; (split_and!; [by intros []|done|done| |done]);
    repeat first [apply List.Forall_nil | apply List.Forall_cons]; cbn;
    first [done | destruct Htc; by split_and!].
Qed.

Lemma only_cert config :
  wp (embed (I := srv) (J := relay_main) UCert (λ _ x, x) (determine_cert config))
    (λ tr _, Forall (λ e : relay_event, certifies e = true) tr).
Proof.
  eapply wp_mono; [|apply (only_wp (I := relay_main) (λ o, ∃ s, o = UCert s)), only_embed; eauto].
  intros tr a Htr. eapply Forall_impl; [exact Htr|]. intros [o x] [s Hs].
  cbn in Hs. by subst o.
Qed.

(** A run that got past the public bind: what start-up adds comes after the certificate
    calls. *)
Lemma assembled seed config trc tr :
  Forall (λ e : relay_event, certifies e = true) trc → tail_ok seed config trc tr →
  let whole := Event (I := relay_main) (UBindTcp (pub_addr config)) true ::
               Event (I := relay_main) (USpawn PublicListener) tt :: trc ++ tr in
  tidy whole ∧ serves_from seed config [] whole ∧ adjacent (spawns TQuic) (spawns TH2) whole = true.
Proof.
  intros Hc (Hf & Hq & Hp & Hs & Had).
  assert (Hspawns : ∀ k, Forall (λ e, spawns k e = false) trc).
  { intros k. eapply Forall_impl; [exact Hc|]. intros [[] x]; done. }
  split; [split_and!|split].
  - intros k. cbn. rewrite followed_quiet, Hf, andb_true_r by done.
    case_bool_decide as Hk; [subst k; by apply existsb_app_r|done].
  - cbn. by rewrite followed_quiet.
  - cbn. apply preceded_seen.
  - do 2 (split; [done|]). apply serves_from_app. split.
    + apply (serves_from_Forall _ _ []); [set_solver|]. eapply Forall_impl; [exact Hc|].
      intros [[] x]; done.
    + eapply serves_from_Forall; [|exact Hs]. set_solver.
  - cbn. by rewrite adjacent_quiet.
Qed.

(** [determine_cert] made by the relay: only its own calls, and the certificate asked for. *)
Lemma embedded_cert config :
  wp (embed (I := srv) (J := relay_main) UCert (λ _ x, x) (determine_cert config)) (λ tr r,
    Forall (λ e : relay_event, certifies e = true) tr ∧
    ∀ c, r = Ok c → cert_choice config (cert_seen tr) c).
Proof.
  apply wp_and; [exact (only_cert config)|].
  eapply wp_mono; [|exact (wp_embed_trace (I := srv) (J := relay_main) UCert (λ _ x, x) _ _
                             (determine_cert_choice config))].
  intros tr r (tr' & Hc & Hin) c Hr. eapply cert_choice_mono; [|exact (Hc c Hr)].
  intros e He. by destruct (Hin e He) as (o & x & -> & ?).
Qed.
End properties.

Section cleanup.
Context `{ServerLibs, Pem, Yasna, TlsLibs, ChallengeGen, WebPki}.

(** What every completed run has done. *)
Lemma run_with_ok quic_ok shutdown seed config tr r :
  runs (run_with quic_ok shutdown seed config) tr r →
  tidy tr ∧ serves_from seed config [] tr ∧ adjacent (spawns TQuic) (spawns TH2) tr = true.
Proof.
  revert tr r. apply runs_wp. unfold run_with, try_call. intros [|]; cbn [prog_bind id].
  2: { split; [split_and!; by try intros []|by split; repeat constructor]. }
  intros []. cbn [prog_bind]. rewrite wp_bind. eapply wp_mono; [|exact (embedded_cert config)].
  intros trc [paths|e] [Hc Hchoice].
  - eapply wp_mono; [|apply (start_listeners_tail _ _ _ _ trc)].
    + intros tr r Htr. by apply assembled.
    + intros tls. by apply tls_for_built, Hchoice.
  - intros []. cbn. apply (assembled seed config trc); [done|].
    split_and!; [by intros []|done|done|by repeat constructor|done].
Qed.

Lemma uans_inhabited (o : uop) : inhabited (uans o).
Proof.
  destruct o as [| |o| | | | | | | | |]; try (by repeat constructor).
  destruct o as [| | | | | | | | | | | | |o]; try (by repeat constructor); try exact (inhabits None).
  destruct o; first [by repeat constructor|exact (inhabits None)].
Qed.

(** What dropping the guards does. *)
Lemma drop_guards_trace gs tr :
  runs (drop_guards gs) tr tt →
  Forall (λ e : event relay_main, ∀ seed config,
    serves seed config [] e ∧ (∀ k, spawns k e = false) ∧ certifies e = false) tr ∧
  (∀ k, AbortOnDrop k ∈ gs → existsb (aborts k) tr = true) ∧
  (CloseOnDrop ∈ gs → existsb closes tr = true).
Proof.
  revert tr. induction gs as [|g gs IH]; intros tr; simpl.
  - intros [-> _]. split; [constructor|]. split; [by intros k ?%not_elem_of_nil|by intros ?%not_elem_of_nil].
  - rewrite runs_bind. intros (t1 & t2 & [] & -> & Hg & (Hs & Ha & Hc)%IH).
    destruct g as [k0|]; simpl in Hg; destruct Hg as ([] & t' & -> & -> & _); simpl.
    + split; [by constructor|]. split.
      * intros k [Hk|Hk]%elem_of_cons; [|by rewrite Ha, orb_true_r by done].
        injection Hk as ->. unfold aborts at 1. simpl. by rewrite bool_decide_true.
      * intros [?|Hk]%elem_of_cons; [done|]. by apply Hc.
    + split; [by constructor|]. split; [|done]. intros k [?|Hk]%elem_of_cons; [done|]. by apply Ha.
Qed.

Lemma alive_spawned tr :
  (∀ k, existsb (spawns k) tr = true → AbortOnDrop k ∈ alive tr) ∧
  (existsb (spawns TH2) tr = true → CloseOnDrop ∈ alive tr).
Proof.
  assert (Hin : ∀ k e, e ∈ tr → spawns k e = true →
    AbortOnDrop k ∈ alive tr ∧ (k = TH2 → CloseOnDrop ∈ alive tr)).
  { intros k [o x] He Hk. unfold alive.
    assert (Hg : ∀ g, g ∈ guards_of (Event o x) → g ∈ reverse tr ≫= guards_of).
    { intros g Hg. apply list_elem_of_bind. exists (Event o x). split; [done|]. by apply elem_of_reverse. }
    destruct o as [|t| | | | | | | | | |]; try done. unfold spawns in Hk. simpl in Hk.
    apply bool_decide_eq_true in Hk as <-. destruct t; simpl in *; split; intros; try done; apply Hg; set_solver. }
  split; [intros k|]; intros (e & He & Hk)%existsb_exists; apply list_elem_of_In in He; by eapply Hin.
Qed.

(** The same for a future that is dropped. *)
Lemma run_with_cancelled quic_ok shutdown seed config tr :
  cancelled (run_with quic_ok shutdown seed config) tr → tidy tr ∧ serves_from seed config [] tr.
Proof.
  intros (tr1 & tr2 & o & k & -> & Hr & Haw & Hd).
  destruct (reaches_completes (I := relay_main) _ _ _ uans_inhabited Hr) as (x & tr' & r & Hrun).
  destruct (run_with_ok _ _ _ _ _ _ Hrun) as ((_ & _ & Hpre) & Hserves & Hadj).
  destruct (drop_guards_trace _ _ Hd) as (Hq & Hab & Hcl).
  destruct (alive_spawned tr1) as [Hal Hal2].
  assert (Hh2 : existsb (spawns TQuic) tr1 = true → existsb (spawns TH2) tr1 = true).
  { eapply adjacent_split; [exact Hadj|]. by destruct o. }
  split; [split_and!|].
  - intros k'. apply followed_cut; [|intros; by apply Hab, Hal].
    eapply Forall_impl; [exact Hq|]. intros e He. by apply (He seed config).
  - apply followed_cut; [|intros; by apply Hcl, Hal2, Hh2].
    eapply Forall_impl; [exact Hq|]. intros e He. by apply (He seed config).
  - eapply preceded_cut; [|exact Hpre]. eapply Forall_impl; [exact Hq|]. intros e He. by apply (He seed config).
  - apply serves_from_app in Hserves as [Hs _]. apply serves_from_app. split; [done|].
    apply (serves_from_Forall _ _ []); [set_solver|].
    eapply Forall_impl; [exact Hq|]. intros e He. by apply (He seed config).
Qed.
End cleanup.

(** C30: however a run of the relay ends (a failed start-up step, the public listener
    ending or panicking, a shutdown, the caller dropping its future at any [await]), each
    task that was spawned is aborted afterwards and, once the QUIC listener runs, its
    endpoint is closed with the shutdown reason; the public listener accepts before any
    call that looks for the certificate, so that the relay's own challenge can be answered.
    And whatever is started serves the configuration: the QUIC endpoint and the H2 listener
    have a TLS configuration that authenticates agents by their handshake signature and
    serves the certificate and key at the configured paths (or their defaults): with an
    ACME domain always, renewed for that domain with the configured account; with only a
    certificate path when the file the run read there had not expired, and the self-signed
    certificate when it had or could not be read; without either the self-signed one. The
    endpoint is bound to the configured address, and both listeners get the configured
    suffixes and authentication callback. *)
Theorem run_until_cleans_up `{ServerLibs, Pem, Yasna, TlsLibs, ChallengeGen, WebPki}
    quic_ok seed config p tr :
  p = run_until quic_ok seed config ∨ p = run quic_ok seed config →
  (∃ r, runs p tr r) ∨ cancelled p tr →
  ((∀ k, followed (spawns k) (aborts k) tr = true) ∧
   followed (spawns TQuic) closes tr = true ∧
   preceded false (spawns TPublic) certifies tr = true) ∧
  serves_from seed config [] tr.
Proof.
  intros [-> | ->] [[r Hr]|Hc]; first [by eapply run_with_cancelled|by apply run_with_ok in Hr as (? & ? & _)].
Qed.

(** ** Witness *)

Module ToyMain.
Import ToyKey ToyServer ToyTls ToyCrypto ToyRelay.

(** Everything works, the ACME server included, and a signal comes. *)
Definition env (o : uop) (s : unit) : uans o * unit :=
  (match o return uans o with
   | UBindTcp _ | UQuicServer _ _ _ | USigTerm => true
   | UCert o => (ToyServer.env o tt).1
   | USelect => inr tt
   | UJoinPublic => Returned true
   | UCtrlCOrTerm => SIGTERM
   | USpawn _ | UCloseEndpoint _ _ | UWaitIdle _ | UAbort _ | UCtrlC => tt
   end, s).

Definition args : Args :=
  MkArgs "0.0.0.0" 4433 443 ["example.com"] None None (Some "relay.example") None
    "server_acme_creds.json" true None None 30.
#[export] Existing Instance ToyPem.toy_pem.
Definition run := exec (I := relay_main) env (main (λ _, true) 7 args) tt.

Lemma toy_runs : runs (main (λ _, true) 7 args) run.1.2 run.1.1.
Proof. destruct run as [[r tr] s] eqn:E. by eapply exec_runs. Qed.
Lemma toy_ok : run.1.1 = Ok tt.
Proof. vm_compute. reflexivity. Qed.
End ToyMain.

Section witnesses.
Import ToyKey ToyServer ToyTls ToyCrypto ToyRelay ToyMain.

(** A relay with an ACME domain starts, is stopped by a signal and leaves nothing behind. *)
Lemma run_until_cleans_up_witness :
  runs (main (λ _, true) 7 args) ToyMain.run.1.2 (Ok tt) ∧
  existsb (spawns TH2) ToyMain.run.1.2 = true ∧
  serves_from 7 (args_config args) [] ToyMain.run.1.2.
Proof.
  pose proof toy_runs as Hr. rewrite toy_ok in Hr.
  split; [exact Hr|]. split; [vm_compute; reflexivity|].
  exact (proj2 (run_until_cleans_up (λ _, true) 7 (args_config args) _ _ (or_introl eq_refl)
                  (or_introl (ex_intro _ _ Hr)))).
Defined.

(** Without flags the relay has an address its QUIC endpoint can bind. *)
Lemma default_args_start :
  parse_socket_addr (api_addr (args_config default_args)) = Some (SockV4 [0; 0; 0; 0] 4433).
Proof. vm_compute. reflexivity. Qed.
End witnesses.
