(* ===== verification/RelaySystem.v ===== *)
(** * RelaySystem.v: the relay as one concurrent system

    What [run_until] starts and what its listeners spawn, running together: any number of
    agent connections ([handle_quic_connection] and [handle_h2_connection] of Relay.v,
    behind the admission control of their listener), of public connections
    ([public_connection] of PublicPort.v) and of cleanup tasks ([register]'s, a [link] of
    Registry.v each), over one agent map and one challenge map.

    A step is chosen by a scheduler ([choice]): a listener accepts, or one task makes the
    call it is at. The calls on the shared maps get the maps' answer, every other call
    gets whatever the environment says. Each map call is one atomic step; the [fetch_add]
    inside [pending_alpn_insert] is a step of its own in the code, but its result is only
    ever compared for equality, and no other call reads the counter. *)

From S2P Require Import Prelude Async RustStr Framing Registry Admission Key ClientTls Identity Relay RelayTasks.
From S2P Require Import PublicPort RelayMain.
From Stdlib Require Import Ascii.
Open Scope string_scope.
Open Scope Z_scope.
Open Scope list_scope.
Open Scope tunnel_scope.

Inductive transport := OnQuic | OnH2.
#[export] Instance transport_eq_dec : EqDecision transport.
Proof. solve_decision. Defined.

(** The connection [c] as the maps hold it, and as bytes are sent to it. *)
Definition agent_of (t : transport) (c : handle) : Agent :=
  match t with OnQuic => AgentQuic c | OnH2 => AgentH2 c end.
Definition pending_of (t : transport) (c : handle) : PendingAlpnConn :=
  match t with OnQuic => PendingQuic c | OnH2 => PendingH2 c end.
Definition tunnel_of (t : transport) (c : handle) : tunnel :=
  match t with OnQuic => ViaQuic c | OnH2 => ViaH2 c end.

(** A spawned task: the calls it made, and what is left of it. *)
Inductive task :=
| AgentTask (t : transport) (tr : trace relay) (p : prog relay (option unit))
| PublicTask (tr : trace port) (p : prog port (option unit)).

(** The maps of [run_until]; [sh_reg] holds the agents and the cleanup tasks. *)
Record shared := Shared { sh_reg : reg_state; sh_token : Z; sh_pending : PendingAlpnMap }.

Record sys := Sys {
  s_shared : shared;
  s_quic : Admission;
  s_h2 : Admission;
  s_tasks : list task;
}.

Definition sys_init : sys :=
  Sys (Shared reg_init 0 ∅) (Admission.new "QUIC") (Admission.new "H2") [].

(** ** Calls on the shared maps *)

(** The answer to a handler's call, and the maps after it: [x] is the environment's
    answer, used where the call is not one on the maps; [uid] is [register]'s random
    number. *)
Definition agent_call (o : rop) (uid : Z) (x : rans o) (s : shared) : rans o * shared :=
  match o return rans o → rans o * shared with
  | ORegister id a => λ _,
      (tt, Shared (Reg (register (reg_map (sh_reg s)) id uid a)
                       (reg_links (sh_reg s) ++ [Link id uid a Live]))
             (sh_token s) (sh_pending s))
  | OPendingInsert id c => λ _,
      let '(t, m, token) := pending_alpn_insert (sh_token s) (sh_pending s) id c in
      (token, Shared (sh_reg s) t m)
  | OPendingRemove id token => λ _,
      (tt, Shared (sh_reg s) (sh_token s) (pending_alpn_remove (sh_pending s) id token))
  | _ => λ x, (x, s)
  end x.

Definition public_call (o : pop) (x : pans o) (s : shared) : pans o * shared :=
  match o return pans o → pans o * shared with
  | PNextAgent id => λ _,
      let '(a, m) := pick_agent (reg_map (sh_reg s)) id in
      (a, Shared (Reg m (reg_links (sh_reg s))) (sh_token s) (sh_pending s))
  | PPendingGet id => λ _, (p_conn <$> sh_pending s !! id, s)
  | _ => λ x, (x, s)
  end x.

(** One step of the cleanup task of the [j]-th registration. *)
Definition cleanup (j : nat) (r : reg_state) : option reg_state :=
  l ← reg_links r !! j;
  match l_pc l with
  | Live => Some (Reg (reg_map r) (<[j := set_pc l Closing]> (reg_links r)))
  | Closing => Some (Reg (unregister_remove (reg_map r) (l_id l) (l_uid l))
                         (<[j := set_pc l Removed]> (reg_links r)))
  | Removed => Some (Reg (unregister_remove_if (reg_map r) (l_id l))
                         (<[j := set_pc l Gone]> (reg_links r)))
  | Gone => None
  end.

(** ** Permits *)

Definition drops_permit (e : event relay) : bool :=
  match ev_op e with ODropPermit => true | _ => false end.

(** The task holds an [OwnedSemaphorePermit] of that listener: it drops it with
    [drop(permit)], or when it returns. *)
Definition holds (t : transport) (k : task) : bool :=
  match k with
  | AgentTask t' tr (Vis _ _) => bool_decide (t' = t) && negb (existsb drops_permit tr)
  | _ => false
  end.

Definition adm_of (s : sys) (t : transport) : Admission :=
  match t with OnQuic => s_quic s | OnH2 => s_h2 s end.
Definition set_adm (s : sys) (t : transport) (a : Admission) : sys :=
  match t with
  | OnQuic => Sys (s_shared s) a (s_h2 s) (s_tasks s)
  | OnH2 => Sys (s_shared s) (s_quic s) a (s_tasks s)
  end.

(** A permit that is no longer held goes back to the semaphore. *)
Definition settle (t : transport) (before after : task) (a : Admission) : Admission :=
  if holds t before && negb (holds t after) then Admission.release a else a.

(** ** Steps *)

Inductive choice :=
| AcceptAgent (t : transport) (now : Z)      (** a listener's [accept] and [try_admit] *)
| AcceptPublic
| AgentCall (i : nat) (uid : Z) (x : ∀ o, rans o)
| PublicCall (i : nat) (x : ∀ o, pans o)
| Cleanup (j : nat).

Section system.
Context `{Crypto, Yasna} (alloc : Z → bool) (shared_ctx : SharedCtx).

(** A connection is known by the number of its task. *)
Definition ctx_of (i : nat) : ListenerCtx :=
  Ctx (lc_domain_suffixes shared_ctx) (lc_auth_handler shared_ctx) i.
Definition handler (t : transport) (i : nat) : prog relay (option unit) :=
  match t with
  | OnQuic => handle_quic_connection alloc (ctx_of i)
  | OnH2 => handle_h2_connection (ctx_of i)
  end.

Definition with_tasks (s : sys) (ts : list task) : sys :=
  Sys (s_shared s) (s_quic s) (s_h2 s) ts.
Definition with_shared (s : sys) (sh : shared) : sys :=
  Sys sh (s_quic s) (s_h2 s) (s_tasks s).

Definition step (c : choice) (s : sys) : option sys :=
  match c with
  | AcceptAgent t now =>
      let '(r, a) := Admission.try_admit (adm_of s t) now in
      let s := set_adm s t a in
      Some (match r with
            | inl _ => with_tasks s (s_tasks s ++ [AgentTask t [] (handler t (length (s_tasks s)))])
            | inr _ => s
            end)
  | AcceptPublic => Some (with_tasks s (s_tasks s ++ [PublicTask [] public_connection]))
  | AgentCall i uid x =>
      k ← s_tasks s !! i;
      match k with
      | AgentTask t tr (Vis o p) =>
          let '(y, sh) := agent_call o uid (x o) (s_shared s) in
          let k' := AgentTask t (tr ++ [Event (I := relay) o y]) (p y) in
          Some (with_tasks (with_shared (set_adm s t (settle t k k' (adm_of s t))) sh)
                  (<[i := k']> (s_tasks s)))
      | _ => None
      end
  | PublicCall i x =>
      k ← s_tasks s !! i;
      match k with
      | PublicTask tr (Vis o p) =>
          let '(y, sh) := public_call o (x o) (s_shared s) in
          Some (with_tasks (with_shared s sh)
                  (<[i := PublicTask (tr ++ [Event (I := port) o y]) (p y)]> (s_tasks s)))
      | _ => None
      end
  | Cleanup j =>
      r ← cleanup j (sh_reg (s_shared s));
      Some (with_shared s (Shared r (sh_token (s_shared s)) (sh_pending (s_shared s))))
  end.

Definition sys_step (s s' : sys) : Prop := ∃ c, step c s = Some s'.
Definition reachable (s : sys) : Prop := rtc sys_step sys_init s.

(** A whole schedule; a choice that is not possible is skipped. *)
Fixpoint run (cs : list choice) (s : sys) : sys :=
  match cs with
  | [] => s
  | c :: cs => run cs (default s (step c s))
  end.

Lemma run_reachable cs s : reachable s → reachable (run cs s).
Proof.
  revert s. induction cs as [|c cs IH]; intros s Hs; [done|]. simpl. apply IH.
  destruct (step c s) as [s'|] eqn:E; [|done]. simpl. eapply rtc_r; [exact Hs|]. by exists c.
Qed.
End system.

(** ** What the handlers do to the maps *)

Section handlers.
Context `{Crypto, Yasna} (alloc : Z → bool) (shared_ctx : SharedCtx).
Abbreviation handler := (handler alloc shared_ctx).
Abbreviation ctx_of := (ctx_of shared_ctx).

(** A handler enters only its own connection. *)
Definition own (t : transport) (c : handle) (o : op relay) : Prop :=
  match o with
  | ORegister _ a => a = agent_of t c
  | OPendingInsert _ p => p = pending_of t c
  | _ => True
  end.

Lemma unprivileged_own {A} t c (p : prog relay A) : only unprivileged p → only (own t c) p.
Proof. apply only_mono. by intros []. Qed.

Lemma own_quic_serve i id : only (own OnQuic i) (quic_serve alloc (ctx_of i) id).
Proof.
  unfold quic_serve, quic_acme_wait, quic_acme_done, quic_register.
  only_go; try (by apply only_read_ctrl); try (by apply only_write_ctrl); done.
Qed.

Lemma own_h2_serve i pp id : only (own OnH2 i) (h2_serve (ctx_of i) pp id).
Proof.
  unfold h2_serve, h2_challenge_phase, h2_register, h2_acme_wait, h2_acme_done, h2_read_key_auth. only_go; try (by apply only_h2_get); done.
Qed.

Lemma handler_own t i : only (own t i) (handler t i).
Proof.
  destruct t; cbn [RelaySystem.handler].
  - unfold handle_quic_connection. apply only_bind; [by split|intros [|]; [|done]].
    apply only_bind; [by split|intros certs]. destruct (first_cert certs) as [cert|]; [|done].
    apply only_bind; [apply unprivileged_own, only_quic_auth_handler|intros [token|]; [|done]].
    apply only_bind; [apply unprivileged_own, only_timeout; [done|apply only_quic_authenticate]|].
    intros [[id|]|]; [apply own_quic_serve|done|by split].
  - unfold handle_h2_connection. apply only_bind; [apply only_timeout; [done|by split]|].
    intros [[|]|]; [|done..]. apply only_bind; [by split|intros certs].
    destruct (first_cert certs) as [cert|]; [|done].
    apply only_bind; [apply unprivileged_own, only_h2_auth_handler|intros [token|]; [|done]].
    apply only_bind; [apply only_timeout; [done|by split]|intros [[|]|]; [|done..]].
    apply only_bind; [by split|intros pp]. apply only_bind; [by split|intros []].
    apply only_bind; [apply unprivileged_own, only_timeout; [done|apply only_h2_auth_exchange]|].
    intros [[id|]|]; [apply own_h2_serve|by split..].
Qed.

(** The evidence Relay.v asks for before a handler acts for a client. *)
Definition vouched (t : transport) (i : nat) (tr : trace relay) (id : string) : Prop :=
  match t with
  | OnQuic => authorized quic_said quic_presented (ctx_of i) tr id
  | OnH2 => authorized h2_said h2_presented (ctx_of i) tr id
  end.

Lemma privileged_vouched t i tr p o y :
  reaches (handler t i) tr p → Event (I := relay) o y ∈ tr → privileged o = true →
  ∃ id, acts_for o id ∧ vouched t i tr id.
Proof.
  destruct t; cbn [RelaySystem.handler vouched]; intros Hr He Hp.
  - pose proof (proj1 (always_reaches _ _) (quic_privileged_ok alloc (ctx_of i)) _ _ Hr) as Hok.
    by apply (proj1 (Forall_forall _ _) Hok _ He).
  - pose proof (proj1 (always_reaches _ _) (h2_privileged_ok (ctx_of i)) _ _ Hr) as Hok.
    by apply (proj1 (Forall_forall _ _) Hok _ He).
Qed.

(** The challenge entries a task has opened and not closed, at any point of its run: at
    most one. *)
Definition opens (tr : trace relay) : list (string * Z) :=
  drop (length (omap closed tr)) (omap opened tr).
Definition nested (tr : trace relay) : Prop :=
  omap opened tr = omap closed tr ++ opens tr ∧ (length (opens tr) ≤ 1)%nat.

Lemma nested_balanced tr tr' : balanced tr → nested tr' → nested (tr ++ tr') ∧ opens (tr ++ tr') = opens tr'.
Proof.
  unfold nested, opens, balanced. intros Hb [Ho Hl]. rewrite !omap_app, Hb, length_app.
  rewrite drop_app_add. split; [split; [|done]|done]. by rewrite <-app_assoc, <-Ho.
Qed.

Lemma nested_quiet tr : Forall (λ e : event relay, no_pending (ev_op e)) tr → nested tr.
Proof. intros [H1 H2]%no_pending_quiet. unfold nested, opens. rewrite H1, H2. split; simpl; (done || lia). Qed.

Lemma nested_bind {A B} (p : prog relay A) (f : A → prog relay B) :
  Relay.tidy p → always p nested → (∀ a, always (f a) nested) → always (prog_bind f p) nested.
Proof.
  intros Ht Hp Hf. apply always_bind. split; [done|]. eapply wp_mono; [|exact Ht].
  intros tr a Hb. eapply always_mono; [|apply Hf]. intros tr' Hn. by apply nested_balanced.
Qed.

Lemma nested_only {A} (p : prog relay A) : only no_pending p → always p nested.
Proof. intros Hp. eapply always_mono; [|by apply only_always]. apply nested_quiet. Qed.

Lemma nested_unprivileged {A} (p : prog relay A) : only unprivileged p → always p nested.
Proof. intros Hp. apply nested_only. eapply only_mono; [|exact Hp]. by intros []. Qed.

(** An opened entry, then quiet calls, then its removal. *)
Lemma nested_open id c token tr :
  Forall (λ e : event relay, no_pending (ev_op e)) tr →
  nested (Event (I := relay) (OPendingInsert id c) token :: tr) ∧
  nested (Event (I := relay) (OPendingInsert id c) token :: tr ++
          [Event (I := relay) (OPendingRemove id token) tt]).
Proof.
  intros [H1 H2]%no_pending_quiet. unfold nested, opens.
  rewrite !omap_cons, !omap_app, H1, H2. simpl. split; split; (done || lia).
Qed.

Lemma nested_close id c token tr {A} (a : A) :
  Forall (λ e : event relay, no_pending (ev_op e)) tr →
  always (call (I := relay) (OPendingRemove id token) ;;! Ret a)
    (λ tr', nested (Event (I := relay) (OPendingInsert id c) token :: tr ++ tr')).
Proof.
  intros Htr. destruct (nested_open id c token tr Htr) as [H1 H2]. cbn.
  split; [by rewrite app_nil_r|]. intros []. by split.
Qed.

(** A challenge entry around calls that leave the map alone. *)
Lemma nested_wait {A B} id c token pre (p : prog relay A) (f : A → prog relay B) :
  Forall (λ e : event relay, no_pending (ev_op e)) pre → only no_pending p →
  (∀ a tr, Forall (λ e : event relay, no_pending (ev_op e)) tr →
     always (f a) (λ tr', nested (Event (I := relay) (OPendingInsert id c) token :: tr ++ tr'))) →
  always (prog_bind f p)
    (λ tr', nested (Event (I := relay) (OPendingInsert id c) token :: pre ++ tr')).
Proof.
  intros Hpre Hp Hf. apply always_bind. split.
  - eapply always_mono; [|by apply (only_always no_pending)]. intros tr Htr.
    apply nested_open. by apply Forall_app.
  - eapply wp_mono; [|by apply (only_wp no_pending)]. intros tr a Htr.
    eapply always_mono; [|apply (Hf a (pre ++ tr)); by apply Forall_app].
    intros tr'. cbn beta. by rewrite <-app_assoc.
Qed.

Lemma nested_quic_acme_wait conn id : always (quic_acme_wait alloc conn id) nested.
Proof.
  unfold quic_acme_wait. cbn [call prog_bind always]. split; [by apply nested_quiet|]. intros token.
  apply (nested_wait id (PendingQuic conn) token []); [done|by apply only_write_ctrl|].
  intros [[]|e] tr Htr; [|by apply nested_close].
  apply nested_wait; [done|by apply only_read_ctrl|]. intros r tr' Htr'. by apply nested_close.
Qed.

Lemma nested_h2_acme_wait conn id : always (h2_acme_wait conn id) nested.
Proof.
  unfold h2_acme_wait. cbn [call prog_bind always]. split; [by apply nested_quiet|]. intros token.
  apply (nested_wait id (PendingH2 conn) token [] (call (I := relay) (HSendRequest _ _))); [done|by split|].
  intros [|] tr Htr; cbn [negb]; [|by apply nested_close].
  apply (nested_wait id (PendingH2 conn) token tr (call (I := relay) HResponse)); [done|by split|].
  intros r tr' Htr'. by apply nested_close.
Qed.

(** Walks a handler: every part but the challenge wait leaves the map alone. *)
Ltac nested_part := first [by apply tidy_only; split | by apply nested_only; split].

Lemma nested_quic_serve i id : always (quic_serve alloc (ctx_of i) id) nested.
Proof.
  unfold quic_serve. apply nested_bind; [nested_part..|intros []].
  apply nested_bind; [apply tidy_only, only_timeout; [done|by apply only_read_ctrl]| |].
  { apply nested_only, only_timeout; [done|by apply only_read_ctrl]. }
  intros [[ka|]|]; [|by apply nested_only..].
  apply nested_bind.
  - case_bool_decide; [done|apply tidy_quic_acme_wait].
  - case_bool_decide; [by apply nested_only|apply nested_quic_acme_wait].
  - intros [[]|]; by apply nested_only.
Qed.

Lemma nested_h2_serve i pp id : always (h2_serve (ctx_of i) pp id) nested.
Proof.
  unfold h2_serve. do 3 (apply nested_bind; [nested_part..|intros []]).
  apply nested_bind; [apply tidy_only, only_timeout; [done|by apply only_h2_get]| |].
  { apply nested_only, only_timeout; [done|by apply only_h2_get]. }
  intros [[ka|]|]; [|by apply nested_only..].
  apply nested_bind.
  - case_bool_decide; [done|apply tidy_h2_acme_wait].
  - case_bool_decide; [by apply nested_only|apply nested_h2_acme_wait].
  - intros [[]|]; by apply nested_only.
Qed.
Lemma handler_nested t i : always (handler t i) nested.
Proof.
  destruct t; cbn [RelaySystem.handler].
  - unfold handle_quic_connection. apply nested_bind; [nested_part..|intros [|]; [|by apply nested_only]].
    apply nested_bind; [nested_part..|intros certs]. destruct (first_cert certs) as [cert|]; [|by apply nested_only].
    apply nested_bind; [apply only_tidy_exchange, only_quic_auth_handler
                       |apply nested_unprivileged, only_quic_auth_handler|].
    intros [token|]; [|by apply nested_only].
    assert (Hx : only unprivileged (timeout AUTH_EXCHANGE_TIMEOUT (quic_authenticate alloc (ctx_of i) token)))
      by (apply only_timeout; [done|apply only_quic_authenticate]).
    apply nested_bind; [by apply only_tidy_exchange|by apply nested_unprivileged|].
    intros [[id|]|]; [apply nested_quic_serve|by apply nested_only|by apply nested_only; split].
  - unfold handle_h2_connection.
    apply nested_bind; [apply only_tidy_exchange, only_timeout; [done|by split]
                       |apply nested_unprivileged, only_timeout; [done|by split]|].
    intros [[|]|]; [|by apply nested_only..]. apply nested_bind; [nested_part..|intros certs].
    destruct (first_cert certs) as [cert|]; [|by apply nested_only].
    apply nested_bind; [apply only_tidy_exchange, only_h2_auth_handler
                       |apply nested_unprivileged, only_h2_auth_handler|].
    intros [token|]; [|by apply nested_only].
    apply nested_bind; [apply only_tidy_exchange, only_timeout; [done|by split]
                       |apply nested_unprivileged, only_timeout; [done|by split]|].
    intros [[|]|]; [|by apply nested_only..]. apply nested_bind; [nested_part..|intros pp].
    apply nested_bind; [nested_part..|intros []].
    assert (Hx : only unprivileged (timeout AUTH_EXCHANGE_TIMEOUT (h2_auth_exchange (domain_suffixes (ctx_of i)) token)))
      by (apply only_timeout; [done|apply only_h2_auth_exchange]).
    apply nested_bind; [by apply only_tidy_exchange|by apply nested_unprivileged|].
    intros [[id|]|]; [apply nested_h2_serve|by apply nested_only; split..].
Qed.
End handlers.

(** ** Who is behind the maps' entries *)

Section authority.
Context `{Crypto, Yasna} (alloc : Z → bool) (shared_ctx : SharedCtx).
Abbreviation handler := (handler alloc shared_ctx).
Abbreviation step := (step alloc shared_ctx).
Abbreviation reachable := (reachable alloc shared_ctx).
Implicit Types ts : list task.

(** The handler of connection [c] has made the call [o]. *)
Definition made ts (t : transport) (c : handle) (o : rop) : Prop :=
  ∃ tr p y, ts !! c = Some (AgentTask t tr p) ∧ Event (I := relay) o y ∈ tr.

Definition registered ts (id : string) (a : Agent) : Prop :=
  ∃ t c, a = agent_of t c ∧ made ts t c (ORegister id a).
Definition pended ts (id : string) (p : PendingAlpnConn) : Prop :=
  ∃ t c, p = pending_of t c ∧ made ts t c (OPendingInsert id p).

(** Tasks only go on: nothing a task did is undone. *)
Definition extends (k k' : task) : Prop :=
  match k, k' with
  | AgentTask t tr _, AgentTask t' tr' _ => t = t' ∧ tr ⊆ tr'
  | PublicTask tr _, PublicTask tr' _ => tr ⊆ tr'
  | _, _ => False
  end.
Definition grows ts ts' : Prop :=
  ∀ i k, ts !! i = Some k → ∃ k', ts' !! i = Some k' ∧ extends k k'.

Lemma extends_refl k : extends k k.
Proof. destruct k; simpl; set_solver. Qed.

Lemma grows_app ts ks : grows ts (ts ++ ks).
Proof. intros i k Hk. exists k. split; [by apply lookup_app_l_Some|apply extends_refl]. Qed.

Lemma grows_insert ts i k k' : ts !! i = Some k → extends k k' → grows ts (<[i := k']> ts).
Proof.
  intros Hk He j kj Hj. destruct (decide (i = j)) as [<-|Hne].
  - simplify_eq. exists k'. split; [|done]. apply list_lookup_insert_eq. by eapply lookup_lt_Some.
  - exists kj. rewrite list_lookup_insert_ne by done. split; [done|apply extends_refl].
Qed.

Lemma made_grows ts ts' t c o : grows ts ts' → made ts t c o → made ts' t c o.
Proof.
  intros Hg (tr & p & y & Hc & He). destruct (Hg _ _ Hc) as ([t' tr' p'|] & Hc' & Hx); [|done].
  destruct Hx as [<- Hs]. exists tr', p', y. set_solver.
Qed.
Lemma registered_grows ts ts' id a : grows ts ts' → registered ts id a → registered ts' id a.
Proof. intros Hg (t & c & Ha & Hm). exists t, c. eauto using made_grows. Qed.
Lemma pended_grows ts ts' id p : grows ts ts' → pended ts id p → pended ts' id p.
Proof. intros Hg (t & c & Ha & Hm). exists t, c. eauto using made_grows. Qed.

(** Every agent in a pool and every challenge entry was entered by its own handler. *)
Definition shared_ok ts (sh : shared) : Prop :=
  (∀ id uid a, (uid, a) ∈ pool_agents (reg_map (sh_reg sh)) id → registered ts id a) ∧
  (∀ id e, sh_pending sh !! id = Some e → pended ts id (p_conn e)).

(** Every task is somewhere in its program; what a public connection was handed had
    been entered by then. *)
Definition task_ok ts (i : nat) (k : task) : Prop :=
  match k with
  | AgentTask t tr p => reaches (handler t i) tr p
  | PublicTask tr p =>
      reaches public_connection tr p ∧
      (∀ id a, Event (I := port) (PNextAgent id) (Some a) ∈ tr → registered ts id a) ∧
      (∀ id c, Event (I := port) (PPendingGet id) (Some c) ∈ tr → pended ts id c)
  end.

Definition sys_inv (s : sys) : Prop :=
  (∀ i k, s_tasks s !! i = Some k → task_ok (s_tasks s) i k) ∧ shared_ok (s_tasks s) (s_shared s).

Lemma task_ok_grows ts ts' i k : grows ts ts' → task_ok ts i k → task_ok ts' i k.
Proof.
  intros Hg. destruct k as [t tr p|tr p]; [done|]. simpl. intros (Hr & Ha & Hp).
  split_and!; eauto using registered_grows, pended_grows.
Qed.

Lemma shared_ok_grows ts ts' sh : grows ts ts' → shared_ok ts sh → shared_ok ts' sh.
Proof. intros Hg [Ha Hp]. split; eauto using registered_grows, pended_grows. Qed.

Lemma agent_call_ok ts o uid x sh y sh' :
  agent_call o uid x sh = (y, sh') → shared_ok ts sh →
  (∀ id a, o = ORegister id a → registered ts id a) →
  (∀ id c, o = OPendingInsert id c → pended ts id c) → shared_ok ts sh'.
Proof.
  intros Hc [Ha Hp] Hreg Hins. destruct o; simpl in Hc; simplify_eq; try done.
  - split; [done|]. simpl. intros id' e. destruct (decide (id = id')) as [<-|].
    + rewrite lookup_insert_eq. intros [= <-]. by apply Hins.
    + rewrite lookup_insert_ne by done. apply Hp.
  - split; [done|]. simpl. intros id' e. destruct (decide (id = id')) as [<-|].
    + unfold pending_alpn_remove. destruct (sh_pending sh !! id) as [e'|] eqn:He; [|by rewrite He].
      destruct (p_token e' =? token); [by rewrite lookup_delete_eq|]. rewrite He. intros [= <-]. eauto.
    + rewrite pending_alpn_remove_other by done. apply Hp.
  - split; [|done]. simpl. intros id' uid' a'. rewrite pool_agents_register.
    intros [Hin|Hin]%elem_of_app; [by eapply Ha|]. case_decide; [|by apply not_elem_of_nil in Hin].
    apply list_elem_of_singleton in Hin. simplify_eq. by apply Hreg.
Qed.

Lemma public_call_ok ts o x sh y sh' :
  public_call o x sh = (y, sh') → shared_ok ts sh → shared_ok ts sh'.
Proof.
  intros Hc [Ha Hp]. destruct o; simpl in Hc; simplify_eq; try done.
  destruct (pick_agent (reg_map (sh_reg sh)) client_id) as [a m] eqn:E. simplify_eq.
  split; [|done]. simpl. intros id uid b Hb. eapply Ha.
  rewrite <-(pick_agent_members _ client_id), E. exact Hb.
Qed.

(** What a public connection is handed. *)
Lemma public_call_handed ts o x sh y sh' :
  public_call o x sh = (y, sh') → shared_ok ts sh →
  (∀ id a, Event (I := port) (PNextAgent id) (Some a) = Event (I := port) o y → registered ts id a) ∧
  (∀ id c, Event (I := port) (PPendingGet id) (Some c) = Event (I := port) o y → pended ts id c).
Proof.
  intros Hc [Ha Hp]. split; intros id z Heq.
  - apply (f_equal (λ e : event port, match e with
      | Event o y => match o return pans o → option (string * option Agent) with
                     | PNextAgent id => λ a, Some (id, a) | _ => λ _, None end y end)) in Heq.
    destruct o; try done. simpl in Heq, Hc. simplify_eq. pose proof (pick_agent_spec (reg_map (sh_reg sh)) client_id) as Hs.
    destruct (pick_agent _ _) as [a m]. simplify_eq. destruct Hs as [uid Hs]. eauto.
  - apply (f_equal (λ e : event port, match e with
      | Event o y => match o return pans o → option (string * option PendingAlpnConn) with
                     | PPendingGet id => λ a, Some (id, a) | _ => λ _, None end y end)) in Heq.
    destruct o; try done. simpl in Heq, Hc. simplify_eq.
    destruct (sh_pending sh' !! client_id) as [e|] eqn:He; simplify_eq/=. eauto.
Qed.

Lemma cleanup_ok ts j r r' tok m :
  cleanup j r = Some r' → shared_ok ts (Shared r tok m) → shared_ok ts (Shared r' tok m).
Proof.
  unfold cleanup. destruct (reg_links r !! j) as [l|]; [|done]. simpl.
  intros Hc [Ha Hp]. split; [|done]. simpl in *.
  destruct (l_pc l); simplify_eq; simpl; [done|..]; intros id uid a Hin.
  - eapply Ha. by eapply pool_agents_remove.
  - rewrite pool_agents_remove_if in Hin. by eapply Ha.
Qed.
Lemma tasks_ok_app ts k :
  (∀ i k, ts !! i = Some k → task_ok ts i k) → task_ok (ts ++ [k]) (length ts) k →
  ∀ i k', (ts ++ [k]) !! i = Some k' → task_ok (ts ++ [k]) i k'.
Proof.
  intros Hts Hk i k' [Hi|[Hge Hi]]%lookup_app_Some.
  - eapply task_ok_grows; [apply grows_app|eauto].
  - apply list_lookup_singleton_Some in Hi as [Hi <-].
    by replace i with (length ts) by lia.
Qed.

Lemma tasks_ok_insert ts i k k' :
  (∀ i k, ts !! i = Some k → task_ok ts i k) → ts !! i = Some k → extends k k' →
  task_ok (<[i := k']> ts) i k' →
  ∀ j kj, <[i := k']> ts !! j = Some kj → task_ok (<[i := k']> ts) j kj.
Proof.
  intros Hts Hi He Hk j kj Hj. destruct (decide (i = j)) as [<-|Hne].
  - rewrite list_lookup_insert_eq in Hj by (by eapply lookup_lt_Some). by simplify_eq.
  - rewrite list_lookup_insert_ne in Hj by done.
    eapply task_ok_grows; [by eapply grows_insert|eauto].
Qed.

(** A handler's own call, seen in the tasks after it. *)
Lemma made_now ts i t tr p o y p' :
  ts !! i = Some (AgentTask t tr p) →
  made (<[i := AgentTask t (tr ++ [Event (I := relay) o y]) p']> ts) t i o.
Proof.
  intros Hi. eexists _, _, y. rewrite list_lookup_insert_eq by (by eapply lookup_lt_Some).
  split; [done|]. set_solver.
Qed.

Lemma set_adm_fields s t a :
  s_tasks (set_adm s t a) = s_tasks s ∧ s_shared (set_adm s t a) = s_shared s.
Proof. by destruct t. Qed.

Lemma sys_inv_agent_call s i t tr o p uid x y sh :
  sys_inv s → s_tasks s !! i = Some (AgentTask t tr (Vis o p)) →
  agent_call o uid x (s_shared s) = (y, sh) →
  let ts := <[i := AgentTask t (tr ++ [Event (I := relay) o y]) (p y)]> (s_tasks s) in
  (∀ j k, ts !! j = Some k → task_ok ts j k) ∧ shared_ok ts sh.
Proof.
  intros [Hts Hsh] Hi Hc ts. pose proof (Hts _ _ Hi) as Hr. simpl in Hr.
  assert (He : extends (AgentTask t tr (Vis o p)) (AgentTask t (tr ++ [Event (I := relay) o y]) (p y)))
    by (simpl; set_solver).
  assert (Hown : own t i o).
  { pose proof (proj1 (always_reaches _ _) (only_always _ _ (handler_own alloc shared_ctx t i)) _ _
      (reaches_step _ _ _ Hr y)) as Hf. by apply Forall_app in Hf as [_ [? _]%Forall_cons]. }
  split.
  - apply (tasks_ok_insert _ _ _ _ Hts Hi He). exact (reaches_step _ _ _ Hr y).
  - eapply (agent_call_ok _ o uid x (s_shared s)); [exact Hc|by eapply shared_ok_grows, Hsh; eapply grows_insert| |].
    + intros id a ->. exists t, i. split; [done|]. by eapply made_now.
    + intros id c ->. exists t, i. split; [done|]. by eapply made_now.
Qed.

Lemma sys_inv_public_call s i tr o p x y sh :
  sys_inv s → s_tasks s !! i = Some (PublicTask tr (Vis o p)) →
  public_call o x (s_shared s) = (y, sh) →
  let ts := <[i := PublicTask (tr ++ [Event (I := port) o y]) (p y)]> (s_tasks s) in
  (∀ j k, ts !! j = Some k → task_ok ts j k) ∧ shared_ok ts sh.
Proof.
  intros [Hts Hsh] Hi Hc ts. destruct (Hts _ _ Hi) as (Hr & Ha & Hp).
  assert (He : extends (PublicTask tr (Vis o p)) (PublicTask (tr ++ [Event (I := port) o y]) (p y)))
    by (simpl; set_solver).
  assert (Hg : grows (s_tasks s) ts) by (by eapply grows_insert).
  destruct (public_call_handed _ _ _ _ _ _ Hc Hsh) as [Ha' Hp'].
  split; [apply (tasks_ok_insert _ _ _ _ Hts Hi He)|].
  - split_and!; [exact (reaches_step _ _ _ Hr y)| |].
    + intros id a [Hin|Hin]%elem_of_app; [eauto using registered_grows|].
      apply list_elem_of_singleton in Hin. eauto using registered_grows.
    + intros id c [Hin|Hin]%elem_of_app; [eauto using pended_grows|].
      apply list_elem_of_singleton in Hin. eauto using pended_grows.
  - eapply shared_ok_grows; [exact Hg|]. by eapply public_call_ok.
Qed.

Lemma sys_inv_step s c s' : step c s = Some s' → sys_inv s → sys_inv s'.
Proof.
  intros Hs Hinv. pose proof Hinv as [Hts Hsh]. destruct c as [t now| |i uid x|i x|j]; simpl in Hs.
  - destruct (Admission.try_admit (adm_of s t) now) as [r a].
    destruct (set_adm_fields s t a) as [Ht Hm]. destruct r; simplify_eq;
      unfold sys_inv; cbn [with_tasks s_tasks s_shared]; rewrite Ht, Hm; [|done].
    split; [apply tasks_ok_app; [done|apply reaches_refl]|].
    eapply shared_ok_grows; [apply grows_app|done].
  - simplify_eq. split; cbn [with_tasks s_tasks s_shared].
    + apply tasks_ok_app; [done|]. split_and!; [apply reaches_refl| |]; by intros ? ? ?%not_elem_of_nil.
    + eapply shared_ok_grows; [apply grows_app|done].
  - destruct (s_tasks s !! i) as [[t tr [|o p]|]|] eqn:Hi; try done. simpl in Hs.
    destruct (agent_call o uid (x o) (s_shared s)) as [y sh] eqn:Hc. injection Hs as <-.
    by eapply sys_inv_agent_call.
  - destruct (s_tasks s !! i) as [[|tr [|o p]]|] eqn:Hi; try done. simpl in Hs.
    destruct (public_call o (x o) (s_shared s)) as [y sh] eqn:Hc. injection Hs as <-.
    by eapply sys_inv_public_call.
  - destruct (cleanup j _) as [r|] eqn:Hc; [|done]. simpl in Hs. injection Hs as <-.
    split; [exact Hts|]. destruct (s_shared s). by eapply cleanup_ok.
Qed.

Lemma sys_inv_reachable s : reachable s → sys_inv s.
Proof.
  apply rtc_invariant; [|intros ? ? [c Hc]; by eapply sys_inv_step].
  split; [done|]. split; [|done]. intros id uid a Hin. by apply not_elem_of_nil in Hin.
Qed.
End authority.

(** ** The maps refine their specifications *)

Section refinement.
Context `{Crypto, Yasna} (alloc : Z → bool) (shared_ctx : SharedCtx).
Abbreviation handler := (handler alloc shared_ctx).
Abbreviation step := (step alloc shared_ctx).
Abbreviation reachable := (reachable alloc shared_ctx).
Abbreviation sys_inv := (sys_inv alloc shared_ctx).

(** The challenge entries task [i] waits behind, and all it ever made. *)
Definition entries (i : nat) (k : task) : list (string * PendingAlpn) :=
  match k with
  | AgentTask t tr _ => (λ x, (x.1, Pend x.2 (pending_of t i))) <$> opens tr
  | PublicTask _ _ => []
  end.
Definition entered (_ : nat) (k : task) : list (string * Z) :=
  match k with AgentTask _ tr _ => omap opened tr | PublicTask _ _ => [] end.

Definition still_waiting (w : waiter) : option (string * PendingAlpn) :=
  if wt_done w then None else Some (wt_id w, wt_entry w).
Definition waiting (ws : list waiter) : list (string * PendingAlpn) := omap still_waiting ws.

(** The agent map and its cleanup tasks are a run of the registry's specification; the
    challenge map is a run of its specification in which those still waiting are the
    handlers that have an entry open. *)
Definition maps_refine (s : sys) : Prop :=
  rtc reg_step reg_init (sh_reg (s_shared s)) ∧
  ∃ ws, rtc pend_step pend_init (PendState (sh_token (s_shared s)) (sh_pending (s_shared s)) ws) ∧
    waiting ws ≡ₚ flat entries (s_tasks s) ∧ length ws = length (flat entered (s_tasks s)).

Lemma opens_snoc tr (e : event relay) :
  nested tr → nested (tr ++ [e]) →
  match opened e, closed e with
  | Some x, None => opens (tr ++ [e]) = opens tr ++ [x]
  | None, Some x => opens tr = [x] ∧ opens (tr ++ [e]) = []
  | None, None => opens (tr ++ [e]) = opens tr
  | Some _, Some _ => True
  end.
Proof.
  intros [Ho Hl] [Ho' Hl']. destruct (opened e) as [x|] eqn:E1, (closed e) as [x'|] eqn:E2; [done|..].
  - unfold opens. rewrite !omap_app. cbn [omap list_omap]. rewrite E1, E2, app_nil_r.
    rewrite drop_app_le; [done|]. rewrite Ho, length_app. lia.
  - rewrite !omap_app in Ho'. cbn [omap list_omap] in Ho'. rewrite E1, E2, app_nil_r, Ho, <-app_assoc in Ho'.
    apply app_inv_head in Ho'. destruct (opens tr) as [|y [|]]; simplify_eq/=; [done|lia].
  - unfold opens. rewrite !omap_app. cbn [omap list_omap]. by rewrite E1, E2, !app_nil_r.
Qed.

Lemma agent_call_reg o uid x sh y sh' :
  agent_call o uid x sh = (y, sh') → rtc reg_step (sh_reg sh) (sh_reg sh').
Proof.
  destruct o; simpl; intros; simplify_eq; try apply rtc_refl.
  destruct (sh_reg sh) as [m ls]. apply rtc_once, reg_register.
Qed.

Lemma public_call_reg o x sh y sh' :
  public_call o x sh = (y, sh') →
  rtc reg_step (sh_reg sh) (sh_reg sh') ∧ sh_token sh' = sh_token sh ∧ sh_pending sh' = sh_pending sh.
Proof.
  destruct o; simpl; intros Hc; simplify_eq; try (split_and!; [apply rtc_refl|done..]).
  destruct (sh_reg sh) as [m ls]. pose proof (pick_agent_step m ls client_id) as Hs. simpl in Hc.
  destruct (pick_agent m client_id). by simplify_eq.
Qed.

Lemma cleanup_reg j r r' : cleanup j r = Some r' → reg_step r r'.
Proof.
  destruct r as [m ls]. unfold cleanup. cbn [reg_links reg_map].
  destruct (ls !! j) as [l|] eqn:Hj; [|done]. simpl.
  assert (Hi : (j < length ls)%nat) by eauto using lookup_lt_Some.
  destruct (l_pc l) eqn:Hpc; intros; simplify_eq; rewrite insert_take_drop by done;
    rewrite <-(take_drop_middle ls j l Hj) at 1; by constructor.
Qed.

(** A handler's calls on the challenge map. *)
Lemma pend_insert_waiting tok m ws id c :
  let '(tok', m', t) := pending_alpn_insert tok m id c in
  pend_step (PendState tok m ws) (PendState tok' m' (ws ++ [Waiter id (Pend t c) false])) ∧
  waiting (ws ++ [Waiter id (Pend t c) false]) = waiting ws ++ [(id, Pend t c)].
Proof. split; [by constructor|]. unfold waiting. by rewrite omap_app. Qed.

Lemma pend_remove_waiting tok m ws id e rest :
  waiting ws ≡ₚ (id, e) :: rest →
  ∃ ws', pend_step (PendState tok m ws) (PendState tok (pending_alpn_remove m id (p_token e)) ws') ∧
    waiting ws' ≡ₚ rest ∧ length ws' = length ws.
Proof.
  intros Hp. assert (Hin : (id, e) ∈ waiting ws) by (rewrite Hp; by left).
  apply list_elem_of_omap in Hin as (w & Hw & Hd). unfold still_waiting in Hd.
  destruct (wt_done w) eqn:Hdone; [done|]. injection Hd as <- <-.
  apply list_elem_of_split in Hw as (w1 & w2 & ->).
  exists (w1 ++ Waiter (wt_id w) (wt_entry w) true :: w2). split_and!; [by constructor| |].
  - apply (Permutation_cons_inv (a := (wt_id w, wt_entry w))). rewrite <-Hp. unfold waiting.
    rewrite !omap_app, !omap_cons. unfold still_waiting at 2 5. rewrite Hdone. simpl.
    apply Permutation_middle.
  - by rewrite !length_app.
Qed.
(** The waiters after one call of handler [i], from those before it. *)
Lemma agent_call_pend ts i t tr o p uid x sh y sh' ws :
  ts !! i = Some (AgentTask t tr (Vis o p)) → own t i o →
  nested tr → nested (tr ++ [Event (I := relay) o y]) →
  agent_call o uid x sh = (y, sh') →
  waiting ws ≡ₚ flat entries ts → length ws = length (flat entered ts) →
  let ts' := <[i := AgentTask t (tr ++ [Event (I := relay) o y]) (p y)]> ts in
  ∃ ws', rtc pend_step (PendState (sh_token sh) (sh_pending sh) ws)
                       (PendState (sh_token sh') (sh_pending sh') ws') ∧
    waiting ws' ≡ₚ flat entries ts' ∧ length ws' = length (flat entered ts').
Proof.
  intros Hi Hown Hn Hn' Hc Hw Hlen ts'.
  set (k' := AgentTask t (tr ++ [Event (I := relay) o y]) (p y)) in ts'.
  destruct (flat_insert entries ts i _ k' Hi) as (rest & He & He').
  destruct (flat_insert entered ts i _ k' Hi) as (rest' & Hd & Hd').
  unfold ts'. setoid_rewrite He'. setoid_rewrite Hd'. rewrite He in Hw. rewrite Hd in Hlen.
  pose proof (opens_snoc _ _ Hn Hn') as Hs. subst k'. cbn [entries entered] in *.
  rewrite omap_app. assert (Hquiet : no_pending o → sh_token sh' = sh_token sh ∧ sh_pending sh' = sh_pending sh).
  { destruct o; simpl in Hc; intros []; by simplify_eq/=. }
  destruct (decide (opened (Event (I := relay) o y) = None ∧ closed (Event (I := relay) o y) = None)) as [[E1 E2]|Hne].
  - rewrite E1, E2 in Hs. rewrite Hs. cbn [omap list_omap]. rewrite E1, app_nil_r. exists ws.
    destruct Hquiet as [-> ->]; [by destruct o|]. split_and!; [apply rtc_refl|done..].
  - destruct o; try (by destruct Hne); simpl in Hc, Hs, Hown; simplify_eq; cbn [sh_token sh_pending].
    + pose proof (pend_insert_waiting (sh_token sh) (sh_pending sh) ws id (pending_of t i)) as [Hst Hwt].
      eexists. split_and!; [apply rtc_once, Hst| |].
      * rewrite Hwt, Hs, fmap_app, Hw, <- !app_assoc. simpl. by rewrite (Permutation_app_comm rest).
      * rewrite !length_app in *. simpl. lia.
    + destruct Hs as [Hs1 Hs2]. rewrite Hs1 in Hw. rewrite Hs2. simpl in Hw.
      destruct (pend_remove_waiting (sh_token sh) (sh_pending sh) ws id _ _ Hw) as (ws' & Hst & Hwt & Hl).
      exists ws'. split_and!; [apply rtc_once, Hst|done|]. rewrite Hl, Hlen. simpl. by rewrite app_nil_r.
Qed.

Lemma maps_refine_step s c s' : step c s = Some s' → sys_inv s → maps_refine s → maps_refine s'.
Proof.
  intros Hs [Hts _] (Hr & ws & Hp & Hw & Hl). destruct c as [t now| |i uid x|i x|j]; simpl in Hs.
  - destruct (Admission.try_admit (adm_of s t) now) as [r a].
    destruct (set_adm_fields s t a) as [Ht Hm]. destruct r; simplify_eq;
      unfold maps_refine; cbn [with_tasks s_tasks s_shared]; rewrite Ht, Hm; (split; [done|]); exists ws; [|done].
    by rewrite !flat_snoc, !app_nil_r.
  - simplify_eq. split; [done|]. exists ws. cbn [with_tasks s_tasks s_shared].
    by rewrite !flat_snoc, !app_nil_r.
  - destruct (s_tasks s !! i) as [[t tr [|o p]|]|] eqn:Hi; try done. simpl in Hs.
    destruct (agent_call o uid (x o) (s_shared s)) as [y sh] eqn:Hc. injection Hs as <-.
    pose proof (Hts _ _ Hi) as Hk. cbn [task_ok] in Hk. pose proof (reaches_step _ _ _ Hk y) as Hk'.
    assert (Hown : own t i o).
    { pose proof (proj1 (always_reaches _ _) (only_always _ _ (handler_own alloc shared_ctx t i)) _ _ Hk') as Hf.
      by apply Forall_app in Hf as [_ [? _]%Forall_cons]. }
    pose proof (proj1 (always_reaches _ _) (handler_nested alloc shared_ctx t i)) as Hnest.
    destruct (agent_call_pend (s_tasks s) i t tr o p uid (x o) (s_shared s) y sh ws Hi Hown
      (Hnest _ _ Hk) (Hnest _ _ Hk') Hc Hw Hl) as (ws' & Hp' & Hw' & Hl').
    split; [etrans; [exact Hr|by eapply agent_call_reg]|]. exists ws'. split_and!; [|done..].
    etrans; [exact Hp|exact Hp'].
  - destruct (s_tasks s !! i) as [[|tr [|o p]]|] eqn:Hi; try done. simpl in Hs.
    destruct (public_call o (x o) (s_shared s)) as [y sh] eqn:Hc. injection Hs as <-.
    destruct (public_call_reg _ _ _ _ _ Hc) as (Hreg & Ht & Hm).
    split; [by etrans|]. exists ws. cbn [with_tasks with_shared s_tasks s_shared]. rewrite Ht, Hm.
    split; [done|]. set (k' := PublicTask _ _).
    destruct (flat_insert entries _ i _ k' Hi) as (rest & He & He').
    destruct (flat_insert entered _ i _ k' Hi) as (rest' & Hd & Hd').
    by rewrite He', <-He, Hd', <-Hd.
  - destruct (cleanup j _) as [r|] eqn:Hc; [|done]. simpl in Hs. injection Hs as <-.
    split; [eapply rtc_r; [exact Hr|by eapply cleanup_reg]|]. by exists ws.
Qed.

Lemma maps_refine_reachable s : reachable s → maps_refine s.
Proof.
  intros Hs. assert (Hboth : sys_inv s ∧ maps_refine s); [|tauto]. revert Hs.
  apply (rtc_invariant _ (λ s, sys_inv s ∧ maps_refine s)).
  - split; [apply (sys_inv_reachable alloc shared_ctx), rtc_refl|]. split; [apply rtc_refl|].
    exists []. split_and!; [apply rtc_refl|done..].
  - intros s1 s2 [c Hc] [H1 H2]. eauto using sys_inv_step, maps_refine_step.
Qed.
End refinement.

(** ** Permits *)

Section permits.
Context `{Crypto, Yasna} (alloc : Z → bool) (shared_ctx : SharedCtx).
Abbreviation step := (step alloc shared_ctx).
Abbreviation reachable := (reachable alloc shared_ctx).

(** The tasks that hold a permit of listener [t]. *)
Definition holders (t : transport) (ts : list task) : list nat :=
  flat (λ i k, if holds t k then [i] else []) ts.

Definition permits_inv (s : sys) : Prop :=
  ∀ t, (permits (adm_of s t) + length (holders t (s_tasks s)))%nat = MAX_UNAUTHENTICATED_CONNS.

Lemma adm_of_set s t t' a : adm_of (set_adm s t a) t' = if decide (t = t') then a else adm_of s t'.
Proof. by destruct t, t'. Qed.

Lemma holders_snoc t ts k :
  length (holders t (ts ++ [k])) = (length (holders t ts) + Nat.b2n (holds t k))%nat.
Proof. unfold holders. rewrite flat_snoc, length_app. by destruct (holds t k). Qed.

Lemma holders_insert t ts i k k' :
  ts !! i = Some k →
  (length (holders t (<[i := k']> ts)) + Nat.b2n (holds t k) =
   length (holders t ts) + Nat.b2n (holds t k'))%nat.
Proof.
  intros Hi. destruct (flat_insert (λ i k, if holds t k then [i] else []) ts i k k' Hi) as (rest & H1 & H2).
  unfold holders. rewrite H1, H2, !length_app. destruct (holds t k), (holds t k'); simpl; lia.
Qed.

(** A new handler has the permit it was admitted with. *)
Lemma holds_new t t' i :
  holds t' (AgentTask t [] (handler alloc shared_ctx t i)) = bool_decide (t = t').
Proof. destruct t; simpl; apply andb_true_r. Qed.

(** A call never makes a task hold a permit it did not hold. *)
Lemma holds_call t t' tr o (p : rans o → prog relay (option unit)) y :
  holds t (AgentTask t' (tr ++ [Event (I := relay) o y]) (p y)) = true →
  holds t (AgentTask t' tr (Vis (I := relay) o p)) = true.
Proof.
  simpl. destruct (p y); [done|]. rewrite existsb_app.
  destruct (bool_decide (t' = t)), (existsb drops_permit tr); done.
Qed.

Lemma permits_inv_call s i t tr o p y sh :
  permits_inv s → s_tasks s !! i = Some (AgentTask t tr (Vis o p)) →
  let k := AgentTask t tr (Vis o p) in
  let k' := AgentTask t (tr ++ [Event (I := relay) o y]) (p y) in
  permits_inv (with_tasks (with_shared (set_adm s t (settle t k k' (adm_of s t))) sh)
                 (<[i := k']> (s_tasks s))).
Proof.
  intros Hinv Hi k k' t'. specialize (Hinv t').
  pose proof (holders_insert t' _ _ _ k' Hi) as Hh. fold k in Hh.
  pose proof (holds_call t' t tr o p y) as Hc. fold k k' in Hc.
  assert (adm_of (with_tasks (with_shared (set_adm s t (settle t k k' (adm_of s t))) sh)
            (<[i := k']> (s_tasks s))) t' = adm_of (set_adm s t (settle t k k' (adm_of s t))) t') as ->.
  { by destruct t'. }
  cbn [with_tasks s_tasks]. rewrite adm_of_set. case_decide as Ht.
  - subst t'. unfold settle. destruct (holds t k), (holds t k'); simpl in *;
      try (specialize (Hc eq_refl)); (done || lia).
  - assert (holds t' k = false ∧ holds t' k' = false) as [E1 E2].
    { unfold k, k'. simpl. destruct (p y); by rewrite ?bool_decide_false. }
    rewrite E1, E2 in Hh. simpl in Hh. lia.
Qed.

Lemma permits_inv_step s c s' : step c s = Some s' → permits_inv s → permits_inv s'.
Proof.
  intros Hs Hinv. destruct c as [t now| |i uid x|i x|j]; simpl in Hs.
  - destruct (Admission.try_admit (adm_of s t) now) as [r a] eqn:Hadm.
    destruct (set_adm_fields s t a) as [Ht _]. intros t'. specialize (Hinv t').
    unfold Admission.try_admit in Hadm. pose proof (adm_of_set s t t' a) as Ha. destruct r as [[]|log]; simplify_eq.
    + assert (adm_of (with_tasks (set_adm s t a) _) t' = adm_of (set_adm s t a) t') as -> by (by destruct t').
      cbn [with_tasks s_tasks]. rewrite Ht, Ha, holders_snoc, holds_new.
      destruct (permits (adm_of s t)) eqn:Hp; [by repeat case_match|]. simplify_eq.
      case_decide as Htt; [subst t'; rewrite bool_decide_true by done|rewrite bool_decide_false by done];
        simpl in *; lia.
    + rewrite Ht, Ha. case_decide as Htt; [|done]. subst t'.
      destruct (permits (adm_of s t)) eqn:Hp; [|done].
      case_match; simplify_eq/=; rewrite ?Hp; done.
  - simplify_eq. intros t. cbn [with_tasks s_tasks]. rewrite holders_snoc. simpl.
    rewrite Nat.add_0_r. apply Hinv.
  - destruct (s_tasks s !! i) as [[t tr [|o p]|]|] eqn:Hi; try done. simpl in Hs.
    destruct (agent_call o uid (x o) (s_shared s)) as [y sh] eqn:Hc. injection Hs as <-.
    by apply permits_inv_call.
  - destruct (s_tasks s !! i) as [[|tr [|o p]]|] eqn:Hi; try done. simpl in Hs.
    destruct (public_call o (x o) (s_shared s)) as [y sh] eqn:Hc. injection Hs as <-.
    intros t. specialize (Hinv t). pose proof (holders_insert t _ _ _ (PublicTask (tr ++ [Event (I := port) o y]) (p y)) Hi) as Hh.
    cbn [with_tasks with_shared s_tasks]. simpl in Hh. rewrite !Nat.add_0_r in Hh. rewrite Hh. by destruct t.
  - destruct (cleanup j _) as [r|] eqn:Hc; [|done]. simpl in Hs. injection Hs as <-.
    intros t. specialize (Hinv t). by destruct t.
Qed.

Lemma permits_inv_reachable s : reachable s → permits_inv s.
Proof.
  apply rtc_invariant; [by intros []|]. intros ? ? [c Hc]. by eapply permits_inv_step.
Qed.

Lemma elem_of_holders t ts i : i ∈ holders t ts ↔ ∃ k, ts !! i = Some k ∧ holds t k = true.
Proof.
  unfold holders. rewrite elem_of_flat. split.
  - intros (j & k & Hk & Hi). destruct (holds t k) eqn:Hh; [|by apply not_elem_of_nil in Hi].
    apply list_elem_of_singleton in Hi as ->. eauto.
  - intros (k & Hk & Hh). exists i, k. rewrite Hh. split; [done|]. by apply list_elem_of_singleton.
Qed.
End permits.

(** ** Properties *)

Section properties.
Context `{Crypto, Yasna} (alloc : Z → bool) (shared_ctx : SharedCtx).
Abbreviation handler := (handler alloc shared_ctx).

(** A handler that has returned waits behind no challenge entry. *)
Lemma returned_opens t i tr r : reaches (handler t i) tr (Ret r) → opens tr = [].
Proof.
  intros Hr%runs_reaches. assert (Hb : balanced tr).
  { destruct t; cbn [RelaySystem.handler] in Hr.
    - by apply (proj1 (runs_wp _ _) (tidy_quic alloc (ctx_of shared_ctx i)) _ _ Hr).
    - by apply (proj1 (runs_wp _ _) (tidy_h2 (ctx_of shared_ctx i)) _ _ Hr). }
  unfold opens, balanced in *. rewrite <-Hb. apply drop_all.
Qed.

(** What the handler of [c] has done when it is behind a registered agent, and behind a
    challenge entry. *)
Lemma made_vouched s t c o id :
  sys_inv alloc shared_ctx s → made (s_tasks s) t c o → privileged o = true →
  (∀ id', acts_for o id' → id' = id) →
  ∃ tr p y, s_tasks s !! c = Some (AgentTask t tr p) ∧ Event (I := relay) o y ∈ tr ∧
    vouched shared_ctx t c tr id.
Proof.
  intros [Hts _] (tr & p & y & Hc & He) Hp Hid. exists tr, p, y. split_and!; [done..|].
  destruct (privileged_vouched alloc shared_ctx t c tr p o y (Hts _ _ Hc) He Hp) as (id' & Ha & Hv).
  by rewrite <-(Hid id' Ha).
Qed.

(** An open entry was put in by a call of the handler. *)
Lemma opens_vouched t i tr p id token :
  reaches (handler t i) tr p → (id, token) ∈ opens tr → vouched shared_ctx t i tr id.
Proof.
  intros Hr Hin. assert (Ho : (id, token) ∈ omap opened tr).
  { unfold opens in Hin. rewrite <-(take_drop (length (omap closed tr))). set_solver. }
  apply list_elem_of_omap in Ho as ([o y] & He & Ho). destruct o; try done. simpl in Ho. simplify_eq.
  destruct (privileged_vouched alloc shared_ctx t i tr p _ _ Hr He eq_refl) as (id' & Ha & Hv).
  simpl in Ha. by subst.
Qed.

Lemma tunnel_of_agent t c : agent_tunnel (agent_of t c) = tunnel_of t c.
Proof. by destruct t. Qed.
Lemma tunnel_of_pending t c : pending_tunnel (pending_of t c) = tunnel_of t c.
Proof. by destruct t. Qed.

(** C2: whatever the scheduler, the peers and the environment do, bytes of a public
    connection are proxied only to an agent connection that proved the client id in the
    connection's SNI: the connection's own handler holds the evidence (a certificate the
    auth handler accepted, a domain with that id signed by the key the id is the hash of,
    an allowed suffix, the zone's TXT records), and then registered it as an agent or, for
    an ACME connection, entered it in the challenge map. *)
Theorem public_bytes_reach_prover s i tr p tun :
  reachable alloc shared_ctx s → s_tasks s !! i = Some (PublicTask tr p) →
  Event (I := port) (PCopy tun) tt ∈ tr →
  ∃ host is_acme id t c tr' p' y,
    Event (I := port) PPeek (Some (host, is_acme)) ∈ tr ∧ split_next "." host = Some id ∧
    tun = tunnel_of t c ∧ s_tasks s !! c = Some (AgentTask t tr' p') ∧
    vouched shared_ctx t c tr' id ∧
    Event (I := relay) (if (is_acme : bool) then OPendingInsert id (pending_of t c)
                        else ORegister id (agent_of t c)) y ∈ tr'.
Proof.
  intros Hr Hi Hcopy. pose proof (sys_inv_reachable alloc shared_ctx s Hr) as Hinv.
  destruct (proj1 Hinv _ _ Hi) as (Hp & Ha & Hpend).
  destruct (proj1 (always_reaches _ _) public_connection_routed _ _ Hp) as [Hroute _].
  destruct (Hroute tun Hcopy) as (host & acme & id & Hpeek & Hid & Hto). destruct acme.
  - destruct Hto as (c & Hget & -> & _). destruct (Hpend _ _ Hget) as (t & n & -> & Hm).
    destruct (made_vouched s t n _ id Hinv Hm eq_refl) as (tr' & p' & y & Hn & He & Hv); [done|].
    exists host, true, id, t, n, tr', p', y. by rewrite tunnel_of_pending.
  - destruct Hto as (a & Hget & ->). destruct (Ha _ _ Hget) as (t & n & -> & Hm).
    destruct (made_vouched s t n _ id Hinv Hm eq_refl) as (tr' & p' & y & Hn & He & Hv); [done|].
    exists host, false, id, t, n, tr', p', y. by rewrite tunnel_of_agent.
Qed.

(** C3: the running relay's maps are current. A public request for a client that has a
    live registration is given an agent, always one whose registration has not been
    cleaned up; and an entry of the challenge map belongs to a handler that is running
    and waiting behind that very entry, for an id its peer proved: none outlives its
    handler, and none is lost to the cleanup of another connection of the client. *)
Theorem relay_routes_current s :
  reachable alloc shared_ctx s →
  uids_distinct (reg_links (sh_reg (s_shared s))) →
  Z.of_nat (length (flat entered (s_tasks s))) < 2 ^ 64 →
  (∀ id, match (pick_agent (reg_map (sh_reg (s_shared s))) id).1 with
         | Some a => ∃ l, l ∈ reg_links (sh_reg (s_shared s)) ∧ l_id l = id ∧ l_agent l = a ∧
                       (l_pc l = Live ∨ l_pc l = Closing)
         | None => ∀ l, l ∈ reg_links (sh_reg (s_shared s)) → l_id l = id → l_pc l ≠ Live
         end) ∧
  (∀ id e, sh_pending (s_shared s) !! id = Some e →
     ∃ i t tr o k, s_tasks s !! i = Some (AgentTask t tr (Vis o k)) ∧
       p_conn e = pending_of t i ∧ opens tr = [(id, p_token e)] ∧ vouched shared_ctx t i tr id).
Proof.
  intros Hr Hd Hlen. destruct (maps_refine_reachable alloc shared_ctx s Hr) as (Hreg & ws & Hp & Hw & Hl).
  pose proof (sys_inv_reachable alloc shared_ctx s Hr) as [Hts _]. split.
  - intros id. pose proof (request_reaches_owner _ id Hreg Hd) as Ho.
    destruct (pick_agent _ id) as [[a|] m]; tauto.
  - intros id e He. destruct (pend_inv_reachable _ Hp) as (_ & _ & Hm); [simpl; lia|]. specialize (Hm id).
    cbn [ps_map ps_waiters] in Hm. rewrite He in Hm.
    destruct (latest id ws) as [w|] eqn:Hlat; [|done]. destruct (elem_of_latest _ _ _ Hlat) as (n & Hn & <-).
    destruct (wt_done w) eqn:Hdone; [done|]. injection Hm as ->.
    assert (Hin : (wt_id w, wt_entry w) ∈ flat entries (s_tasks s)).
    { rewrite <-Hw. apply list_elem_of_omap. exists w. split; [by eapply list_elem_of_lookup_2|].
      unfold still_waiting. by rewrite Hdone. }
    apply elem_of_flat in Hin as (i & [t tr p|] & Hi & Hin); [|by apply not_elem_of_nil in Hin].
    apply list_elem_of_fmap in Hin as ([id tok] & Heq & Hin). cbn [fst snd] in Heq.
    injection Heq as -> ->. pose proof (Hts _ _ Hi) as Hk. cbn [task_ok] in Hk.
    destruct (proj1 (always_reaches _ _) (handler_nested alloc shared_ctx t i) _ _ Hk) as [Hop Hone].
    destruct p as [r|o k]; [by rewrite (returned_opens _ _ _ _ Hk) in Hin; apply not_elem_of_nil in Hin|].
    destruct (opens tr) as [|x [|]] eqn:Ho; [by apply not_elem_of_nil in Hin| |simpl in Hone; lia].
    apply list_elem_of_singleton in Hin as <-. exists i, t, tr, o, k. split_and!; [done..|].
    eapply opens_vouched; [exact Hk|]. rewrite Ho. by left.
Qed.

(** C35: each listener has at most [MAX_UNAUTHENTICATED_CONNS] connections whose peer has
    not proved an identity, however many there are of those that have; and a connection
    is refused exactly when that many handlers run that have not yet returned their
    permit. *)
Theorem unauthenticated_bounded s t conns :
  reachable alloc shared_ctx s → NoDup conns →
  (∀ i, i ∈ conns → ∃ tr o k, s_tasks s !! i = Some (AgentTask t tr (Vis o k)) ∧
     ∀ id, ¬ vouched shared_ctx t i tr id) →
  (length conns ≤ MAX_UNAUTHENTICATED_CONNS)%nat ∧
  ∀ now, (Admission.try_admit (adm_of s t) now).1 = inl tt ↔
    (length (holders t (s_tasks s)) < MAX_UNAUTHENTICATED_CONNS)%nat.
Proof.
  intros Hr Hnd Hun. pose proof (sys_inv_reachable alloc shared_ctx s Hr) as [Hts _].
  pose proof (permits_inv_reachable alloc shared_ctx s Hr t) as Hp. split.
  - assert (Hsub : conns ⊆ holders t (s_tasks s)).
    { intros i Hi. destruct (Hun i Hi) as (tr & o & k & Hk & Hv). apply elem_of_holders.
      eexists. split; [exact Hk|]. cbn [holds]. rewrite bool_decide_true by done.
      destruct (existsb drops_permit tr) eqn:Hd; [|done].
      apply existsb_exists in Hd as ([o' y] & He & Hd). destruct o'; try done.
      apply list_elem_of_In in He.
      destruct (privileged_vouched alloc shared_ctx t i tr _ _ _ (Hts _ _ Hk) He eq_refl) as (id & _ & Hid).
      by destruct (Hv id). }
    pose proof (submseteq_length _ _ (NoDup_submseteq _ _ Hnd Hsub)). lia.
  - intros now. unfold Admission.try_admit. destruct (permits (adm_of s t)) eqn:E; [|split; [lia|done]].
    case_match; (split; [done|lia]).
Qed.
End properties.

(** ** Concrete runs *)

Section witnesses.
Import ToyKey ToyTls ToyCrypto.

Definition toy_shared : SharedCtx := MkShared ["example.com"] true.
Abbreviation toy_step := (step toy_alloc toy_shared).

(** Task [i] makes its next [n] calls, against the peer of Relay.v. *)
Fixpoint agent_script (n i : nat) (pr : peer) (s : sys) : list choice :=
  match n with
  | O => []
  | S n =>
      match s_tasks s !! i with
      | Some (AgentTask _ _ (Vis o _)) =>
          let c := AgentCall i 5 (λ o, (answer toy_world o pr).1) in
          c :: agent_script n i (answer toy_world o pr).2 (default s (toy_step c s))
      | _ => []
      end
  end.

(** A user that asks for the toy client. *)
Definition toy_user (o : pop) : pans o :=
  match o return pans o with
  | PDeadline _ => false
  | PPeek => Some ("abababababababab.example.com", false)
  | PNextAgent _ | PPendingGet _ | PServerChallenge => None
  | POpenBi _ | PSendRequest _ _ | PResponse => true
  | PServeOwn | PCopy _ => tt
  end.

Definition accepted : sys := run toy_alloc toy_shared [AcceptAgent OnH2 0] sys_init.
(** The agent waits for its challenge. *)
Definition challenged : sys := run toy_alloc toy_shared (agent_script 28 0 toy_peer accepted) accepted.
(** The agent is registered and a user connection goes through. *)
Definition served : sys :=
  run toy_alloc toy_shared
    (agent_script 100 0 toy_peer accepted ++ AcceptPublic :: replicate 10 (PublicCall 1 toy_user)) accepted.

Lemma accepted_reachable : reachable toy_alloc toy_shared accepted.
Proof. apply run_reachable, rtc_refl. Qed.

Definition copies (t : tunnel) (e : event port) : bool :=
  match ev_op e, t with
  | PCopy (ViaQuic c), ViaQuic c' => Nat.eqb c c'
  | PCopy (ViaH2 c), ViaH2 c' => Nat.eqb c c'
  | _, _ => false
  end.
Definition proxied (s : sys) (i : nat) (t : tunnel) : bool :=
  match s_tasks s !! i with Some (PublicTask tr _) => existsb (copies t) tr | _ => false end.

Lemma proxied_spec s i t :
  proxied s i t = true →
  ∃ tr p, s_tasks s !! i = Some (PublicTask tr p) ∧ Event (I := port) (PCopy t) tt ∈ tr.
Proof.
  unfold proxied. destruct (s_tasks s !! i) as [[|tr p]|]; try done. intros Hc.
  exists tr, p. split; [done|]. apply existsb_exists in Hc as ([o x] & He & Hc).
  apply list_elem_of_In in He. unfold copies in Hc. simpl in Hc.
  destruct o as [| | | | | | | | |[]], t; try done; apply Nat.eqb_eq in Hc as ->; by destruct x.
Qed.

(** A user's bytes reach the connection that proved the id. *)
Lemma public_bytes_reach_prover_witness :
  proxied served 1 (ViaH2 0) = true ∧
  ∃ id t c tr' p', ViaH2 0 = tunnel_of t c ∧ s_tasks served !! c = Some (AgentTask t tr' p') ∧
    vouched toy_shared t c tr' id.
Proof.
  assert (Hp : proxied served 1 (ViaH2 0) = true) by (vm_compute; reflexivity).
  split; [exact Hp|]. destruct (proxied_spec _ _ _ Hp) as (tr & p & Hi & Hc).
  destruct (public_bytes_reach_prover toy_alloc toy_shared served 1 tr p (ViaH2 0)
              (run_reachable _ _ _ _ accepted_reachable) Hi Hc)
    as (host & acme & id & t & c & tr' & p' & y & _ & _ & Ht & Hk & Hv & _).
  exists id, t, c, tr', p'. split; [exact Ht|]. split; [exact Hk|exact Hv].
Defined.

(** The entry of the waiting agent. *)
Lemma relay_routes_current_witness :
  sh_pending (s_shared challenged) !! "abababababababab" = Some (Pend 0 (PendingH2 0)) ∧
  ∃ i t tr o k, s_tasks challenged !! i = Some (AgentTask t tr (Vis o k)) ∧
    PendingH2 0 = pending_of t i ∧ opens tr = [("abababababababab", 0)] ∧
    vouched toy_shared t i tr "abababababababab".
Proof.
  assert (He : sh_pending (s_shared challenged) !! "abababababababab" = Some (Pend 0 (PendingH2 0)))
    by (vm_compute; reflexivity).
  split; [exact He|].
  refine (proj2 (relay_routes_current toy_alloc toy_shared challenged
    (run_reachable _ _ _ _ accepted_reachable) _ _) _ _ He).
  - apply (bool_decide_unpack (NoDup _)). vm_compute. exact I.
  - vm_compute. reflexivity.
Defined.

Lemma unauthenticated_bounded_witness :
  (length [0%nat] ≤ MAX_UNAUTHENTICATED_CONNS)%nat ∧
  ∀ now, (Admission.try_admit (adm_of accepted OnH2) now).1 = inl tt ↔
    (length (holders OnH2 (s_tasks accepted)) < MAX_UNAUTHENTICATED_CONNS)%nat.
Proof.
  refine (unauthenticated_bounded toy_alloc toy_shared accepted OnH2 [0%nat] accepted_reachable _ _).
  - repeat constructor. set_solver.
  - intros i Hi. apply list_elem_of_singleton in Hi as ->. exists [].
    do 2 eexists. split; [reflexivity|]. intros id (cert & token & [certs Hin] & _).
    by apply not_elem_of_nil in Hin.
Defined.
End witnesses.
