(* ===== verification/Ffi.v ===== *)
(** * Ffi.v: tunnel-client-ffi/src/ffi/mod.rs

    The foreign surface of the client: configuration conversions, the primary key,
    and [TunnelClient::run] with its event queue, its handler calls and its
    [TerminalGuard], as a transition system in which the tunnel, the foreign handler
    and a foreign cancellation act at any time. *)

From S2P Require Import Prelude Key Retry.
Open Scope string_scope.
Open Scope Z_scope.
Open Scope list_scope.
Open Scope tunnel_scope.

(** ** Conversions *)

Record ReconnectConfig := MkReconnect {
  rc_max_attempts : Z;
  rc_base_backoff_ms : Z;
  rc_max_backoff_ms : Z;
  rc_connect_timeout_ms : Z;
}.

(** [as u64] of a [u128]. *)
Definition as_u64 (z : Z) : Z := z mod 2 ^ 64.

Module Reconnect.
Definition default : ReconnectConfig :=
  let p := ReconnectPolicy.mobile in
  MkReconnect (max_attempts p) (as_u64 (as_millis (base_backoff p)))
    (as_u64 (as_millis (max_backoff p))) (as_u64 (as_millis (connect_timeout p))).

Definition into (c : ReconnectConfig) : ReconnectPolicy :=
  Policy (rc_max_attempts c) (from_millis (rc_base_backoff_ms c))
    (from_millis (rc_max_backoff_ms c)) (from_millis (rc_connect_timeout_ms c)).

(** The defaults survive the round trip through milliseconds. *)
Lemma into_default : into default = ReconnectPolicy.mobile.
Proof. reflexivity. Qed.
End Reconnect.

Record PrimaryKey := MkPrimary { pk_algorithm : KeyAlgorithm; pk_bytes : bytes }.

Definition primary_key `{Rcgen, Yasna} (primary : PrimaryKey) : result key_error RcgenKey :=
  match pk_algorithm primary with
  | Ed25519 =>
      if bool_decide (length (pk_bytes primary) = 32%nat) then from_ed25519_seed (pk_bytes primary)
      else from_pkcs8_der (pk_bytes primary)
  | EcdsaP256 => from_pkcs8_der (pk_bytes primary)
  end.

(** The chain of an error, outermost first. *)
Definition format_error_chain (chain : list string) : string :=
  foldl (λ out cause, String.append (String.append out ": ") cause) (default "" (head chain)) (tail chain).

(** ** Events *)

Inductive TunnelEvent :=
| Started
| StoppedEvent
| CertIssued (pem : string)
| ConnectionEstablished (tag server_addr transport : string)
| ConnectionLost (tag server_addr transport cause : string)
| ConnectionAttemptFailed (tag server_addr : string) (attempt : Z) (cause : string) (retry_in_ms : Z)
| ConnectionGaveUp (tag server_addr cause : string)
| FailedEvent (cause : string).

(** What is queued; a connection event carries its tag and relay address. *)
Inductive Inner :=
| Cert (pem : string)
| Conn (tag server_addr : string) (ev : ConnectionEvent).

Definition transport_to_string (t : Transport) : string :=
  match t with Quic => "quic" | H2 => "h2" end.

(** [impl From<ConnectionEvent> for TunnelEvent]. *)
Definition from_connection_event (tag addr : string) (ev : ConnectionEvent) : TunnelEvent :=
  match ev with
  | Established t => ConnectionEstablished tag addr (transport_to_string t)
  | LostEvent t cause => ConnectionLost tag addr (transport_to_string t) cause
  | AttemptFailed n cause retry_in =>
      ConnectionAttemptFailed tag addr n cause (Z.min (as_millis retry_in) U64_MAX)
  | GaveUp cause => ConnectionGaveUp tag addr cause
  end.

Definition event_of (i : Inner) : TunnelEvent :=
  match i with
  | Cert pem => CertIssued pem
  | Conn tag addr ev => from_connection_event tag addr ev
  end.

Definition is_established (i : Inner) : bool :=
  match i with Conn _ _ (Established _) => true | _ => false end.

Definition is_terminal (e : TunnelEvent) : bool :=
  match e with StoppedEvent | FailedEvent _ => true | _ => false end.

(** ** The client *)

(** How the tunnel task ended. *)
Inductive joined := JoinedOk | JoinedErr (chain : list string) | Panicked (cause : string).

Definition terminal_event (j : joined) : TunnelEvent :=
  match j with
  | JoinedOk => StoppedEvent
  | JoinedErr chain => FailedEvent (format_error_chain chain)
  | Panicked cause => FailedEvent cause
  end.

Inductive tunnel_task := NotSpawned | TunnelRunning | TunnelEnded (j : joined).

(** Where [run], or the guard's tail after it, stands. The constructors with
    an item or an event are inside an [on_event] call of the handler. *)
Inductive rpc :=
| NotCalled
| Begin                          (** the guard is in place *)
| Loop                           (** at the [select!] *)
| LoopStarted (i : Inner)        (** delivering [Started] before [i] *)
| LoopEvent (i : Inner)
| Drain (e : TunnelEvent)        (** the tunnel ended: emptying the queue before [e] *)
| DrainStarted (e : TunnelEvent) (i : Inner)
| DrainEvent (e : TunnelEvent) (i : Inner)
| Terminal (e : TunnelEvent)
| RunReturned
| TailShutdown                   (** the guard was dropped: [tunnel.shutdown().await] *)
| TailDrain
| TailStarted (i : Inner)
| TailEvent (i : Inner)
| TailTerminal
| TailDone
| NoTail.                        (** no runtime and no thread for the tail *)

(** A handler call and whether it returned. *)
Definition hcall : Type := TunnelEvent * bool.

Record ffi := MkFfi {
  queue : list Inner;
  sent : list Inner;             (** everything ever queued *)
  f_started : bool;
  f_stopped : bool;
  announced : bool;
  terminal : bool;
  tunnel : tunnel_task;
  run_pc : rpc;
  cancelled : bool;
  calls : list hcall;            (** the handler's calls, in order *)
}.

Definition client_new : ffi := MkFfi [] [] false false false false NotSpawned NotCalled false [].

(** ** Field updates *)

Definition goto (p : rpc) (s : ffi) : ffi :=
  MkFfi (queue s) (sent s) (f_started s) (f_stopped s) (announced s) (terminal s) (tunnel s) p
    (cancelled s) (calls s).
(** [handler.on_event(e)] is called. *)
Definition enter (e : TunnelEvent) (s : ffi) : ffi :=
  MkFfi (queue s) (sent s) (f_started s) (f_stopped s) (announced s) (terminal s) (tunnel s)
    (run_pc s) (cancelled s) (calls s ++ [(e, false)]).
(** The call in progress returns. *)
Definition leave (e : TunnelEvent) (s : ffi) : ffi :=
  MkFfi (queue s) (sent s) (f_started s) (f_stopped s) (announced s) (terminal s) (tunnel s)
    (run_pc s) (cancelled s) (removelast (calls s) ++ [(e, true)]).
Definition pop (q : list Inner) (s : ffi) : ffi :=
  MkFfi q (sent s) (f_started s) (f_stopped s) (announced s) (terminal s) (tunnel s)
    (run_pc s) (cancelled s) (calls s).
Definition set_announced (s : ffi) : ffi :=
  MkFfi (queue s) (sent s) (f_started s) (f_stopped s) true (terminal s) (tunnel s)
    (run_pc s) (cancelled s) (calls s).
Definition set_terminal (s : ffi) : ffi :=
  MkFfi (queue s) (sent s) (f_started s) (f_stopped s) (announced s) true (tunnel s)
    (run_pc s) (cancelled s) (calls s).
Definition set_tunnel (t : tunnel_task) (s : ffi) : ffi :=
  MkFfi (queue s) (sent s) (f_started s) (f_stopped s) (announced s) (terminal s) t
    (run_pc s) (cancelled s) (calls s).

(** ** Steps *)

(** The first handler call of [deliver] for the item at the head of the queue;
    [st] and [ev] are where the caller then stands. *)
Definition deliver (i : Inner) (q : list Inner) (st ev : rpc) (s : ffi) : ffi :=
  let s := pop q s in
  if is_established i && negb (announced s) then goto st (enter Started s)
  else goto ev (enter (event_of i) s).

(** The rest of [deliver] once the call for [Started] has returned. *)
Definition deliver_announced (i : Inner) (ev : rpc) (s : ffi) : ffi :=
  goto ev (enter (event_of i) (set_announced (leave Started s))).

(** [run] or the tail is polled: up to the next [.await]. [runtime] is what
    [tunnel_runtime()] answers. [None]: pending. The queue's senders live in the
    client, which outlives its [run], so [recv] never reports them gone. *)
Definition poll (runtime : result string unit) (s : ffi) : option ffi :=
  match run_pc s with
  | Begin =>
      if f_stopped s then Some (goto (Terminal StoppedEvent) (enter StoppedEvent s))
      else match runtime with
           | Err cause => Some (goto (Terminal (FailedEvent cause)) (enter (FailedEvent cause) s))
           | Ok _ => Some (goto Loop (set_tunnel TunnelRunning s))
           end
  | Loop =>
      match queue s with
      | i :: q => Some (deliver i q (LoopStarted i) (LoopEvent i) s)
      | [] =>
          match tunnel s with
          | TunnelEnded j => Some (goto (Drain (terminal_event j)) s)
          | _ => None
          end
      end
  | Drain e =>
      match queue s with
      | i :: q => Some (deliver i q (DrainStarted e i) (DrainEvent e i) s)
      | [] => Some (goto (Terminal e) (enter e s))
      end
  | TailShutdown =>
      Some (goto TailDrain (match tunnel s with
                            | TunnelRunning => set_tunnel (TunnelEnded (Panicked "cancelled")) s
                            | _ => s
                            end))
  | TailDrain =>
      match queue s with
      | i :: q => Some (deliver i q (TailStarted i) (TailEvent i) s)
      | [] => Some (goto TailTerminal (enter StoppedEvent s))
      end
  | _ => None
  end.

(** The handler's current call returns, and its caller runs on to its next [.await]. *)
Definition returns (s : ffi) : option ffi :=
  match run_pc s with
  | LoopStarted i => Some (deliver_announced i (LoopEvent i) s)
  | LoopEvent i => Some (goto Loop (leave (event_of i) s))
  | DrainStarted e i => Some (deliver_announced i (DrainEvent e i) s)
  | DrainEvent e i => Some (goto (Drain e) (leave (event_of i) s))
  | Terminal e => Some (goto RunReturned (set_terminal (leave e s)))
  | TailStarted i => Some (deliver_announced i (TailEvent i) s)
  | TailEvent i => Some (goto TailDrain (leave (event_of i) s))
  | TailTerminal => Some (goto TailDone (set_terminal (leave StoppedEvent s)))
  | _ => None
  end.

(** [run]'s future is dropped at one of its [.await]s: the guard's [drop]. *)
Definition cancel (spawned : bool) (s : ffi) : option ffi :=
  match run_pc s with
  | Loop | LoopStarted _ | LoopEvent _ | DrainStarted _ _ | DrainEvent _ _ | Terminal _ =>
      let s := MkFfi (queue s) (sent s) (f_started s) (f_stopped s) (announced s) (terminal s)
                 (tunnel s) (run_pc s) true (calls s) in
      if terminal s then Some s
      else Some (goto (if spawned then TailShutdown else NoTail) s)
  | _ => None
  end.

Inductive ffi_event :=
| Send (i : Inner)                    (** a callback of the tunnel queues an item *)
| CallRun
| CallStop
| TunnelEnds (j : joined)
| Poll (runtime : result string unit)
| HandlerReturns
| Cancel (spawned : bool).

Definition ffi_apply (e : ffi_event) (s : ffi) : option ffi :=
  match e with
  | Send i =>
      Some (MkFfi (queue s ++ [i]) (sent s ++ [i]) (f_started s) (f_stopped s) (announced s)
              (terminal s) (tunnel s) (run_pc s) (cancelled s) (calls s))
  | CallRun =>
      (* a second call is refused and changes nothing *)
      if f_started s then Some s
      else Some (MkFfi (queue s) (sent s) true (f_stopped s) (announced s) (terminal s) (tunnel s)
                   Begin (cancelled s) (calls s))
  | CallStop =>
      Some (MkFfi (queue s) (sent s) (f_started s) true (announced s) (terminal s) (tunnel s)
              (run_pc s) (cancelled s) (calls s))
  | TunnelEnds j =>
      match tunnel s with TunnelRunning => Some (set_tunnel (TunnelEnded j) s) | _ => None end
  | Poll runtime => poll runtime s
  | HandlerReturns => returns s
  | Cancel spawned => cancel spawned s
  end.

Definition ffi_step (s s' : ffi) : Prop := ∃ e, ffi_apply e s = Some s'.

Fixpoint ffi_execute (es : list ffi_event) (s : ffi) : option ffi :=
  match es with
  | [] => Some s
  | e :: es => ffi_apply e s ≫= ffi_execute es
  end.

Lemma ffi_execute_rtc es s s' : ffi_execute es s = Some s' → rtc ffi_step s s'.
Proof.
  revert s. induction es as [|e es IH]; cbn; intros s; [by intros [= <-]|].
  destruct (ffi_apply e s) as [s1|] eqn:E; [|done]. cbn. intros Hx.
  eapply rtc_l; [by exists e|eauto].
Qed.

(** ** The event stream *)

(** The events the handler should see for a sequence of items; [a]: whether
    [Started] has been announced. *)
Fixpoint announce (a : bool) (items : list Inner) : list TunnelEvent :=
  match items with
  | [] => []
  | i :: rest =>
      (if is_established i && negb a then [Started] else []) ++
      event_of i :: announce (a || is_established i) rest
  end.

Definition returned (l : list TunnelEvent) : list hcall := (λ e, (e, true)) <$> l.

(** A well-formed call sequence: connections are reported only after [Started] was
    delivered, [Started] is delivered at most once, and nothing follows a delivered
    terminal event. *)
Fixpoint stream_ok (a : bool) (l : list hcall) : Prop :=
  match l with
  | [] => True
  | (e, b) :: l =>
      match e with
      | ConnectionEstablished _ _ _ => a = true
      | Started => a = false
      | StoppedEvent | FailedEvent _ => b = true → l = []
      | _ => True
      end ∧ stream_ok (match e with Started => b || a | _ => a end) l
  end.

(** [Started] was delivered. *)
Definition started_in (a : bool) (l : list hcall) : bool :=
  foldl (λ a c, match c with (Started, b) => b || a | _ => a end) a l.
(** A terminal event was delivered. *)
Definition ended_in (l : list hcall) : bool := existsb (λ c, is_terminal c.1 && c.2) l.

Lemma stream_ok_app a l1 l2 :
  ended_in l1 = false → stream_ok a l1 → stream_ok (started_in a l1) l2 → stream_ok a (l1 ++ l2).
Proof.
  revert a. induction l1 as [|[e b] l1 IH]; intros a; [done|].
  unfold ended_in. cbn. intros [Ht Hl]%orb_false_iff [Hc Hs] H2.
  destruct e; (split; [|apply IH; done]); try done; intros ->; done.
Qed.

Lemma started_in_app a l1 l2 : started_in a (l1 ++ l2) = started_in (started_in a l1) l2.
Proof. apply foldl_app. Qed.

Lemma ended_in_app l1 l2 : ended_in (l1 ++ l2) = ended_in l1 || ended_in l2.
Proof. apply existsb_app. Qed.

Lemma event_of_established i :
  is_established i = true ↔ ∃ tag addr t, event_of i = ConnectionEstablished tag addr t.
Proof.
  destruct i as [pem|tag addr []]; cbn; (split; [intros; try done; by repeat eexists|]);
    by intros (? & ? & ? & ?).
Qed.

(** One item's event, with [Started] delivered before if it is the first connection. *)
Lemma stream_ok_event a i b :
  (is_established i = true → a = true) → stream_ok a [(event_of i, b)].
Proof. destruct i as [pem|tag addr []]; cbn; auto. Qed.

Lemma started_in_event a i b : started_in a [(event_of i, b)] = a.
Proof. by destruct i as [pem|tag addr []]. Qed.

Lemma ended_in_event i b : ended_in [(event_of i, b)] = false.
Proof. by destruct i as [pem|tag addr []]. Qed.

Lemma announce_facts a items :
  stream_ok a (returned (announce a items)) ∧
  started_in a (returned (announce a items)) = a || existsb is_established items ∧
  ended_in (returned (announce a items)) = false.
Proof.
  revert a. induction items as [|i items IH]; intros a; cbn [announce existsb].
  { by rewrite orb_false_r. }
  destruct (IH (a || is_established i)) as (H1 & H2 & H3).
  assert (Hgo : ∀ l, stream_ok a l → started_in a l = a || is_established i → ended_in l = false →
    stream_ok a (l ++ returned (announce (a || is_established i) items)) ∧
    started_in a (l ++ returned (announce (a || is_established i) items))
      = a || (is_established i || existsb is_established items) ∧
    ended_in (l ++ returned (announce (a || is_established i) items)) = false).
  { intros l Hl Hs He. rewrite started_in_app, ended_in_app, Hs, H2, H3, He, orb_assoc.
    split_and!; [|done..]. apply stream_ok_app; [done|done|]. by rewrite Hs. }
  destruct (is_established i) eqn:Ei, a; cbn [andb negb orb app] in *.
  - apply (Hgo [(event_of i, true)]); [by apply stream_ok_event|apply started_in_event|apply ended_in_event].
  - apply (Hgo [(Started, true); (event_of i, true)]).
    + split; [done|]. by apply (stream_ok_event true).
    + change (started_in true [(event_of i, true)] = true). apply started_in_event.
    + change (ended_in [(event_of i, true)] = false). apply ended_in_event.
  - apply (Hgo [(event_of i, true)]); [by apply stream_ok_event|apply started_in_event|apply ended_in_event].
  - apply (Hgo [(event_of i, true)]); [apply stream_ok_event; congruence|apply started_in_event|apply ended_in_event].
Qed.

Lemma announce_app a l i :
  announce a (l ++ [i]) =
  announce a l ++ (if is_established i && negb (a || existsb is_established l) then [Started] else [])
    ++ [event_of i].
Proof.
  revert a. induction l as [|x l IH]; intros a; cbn [announce app existsb].
  { by rewrite orb_false_r. }
  rewrite IH, orb_assoc. by rewrite <-app_assoc.
Qed.

(** ** Invariant *)

(** Where a delivering task stands. *)
Inductive phase := Idle | InStarted (i : Inner) | InEvent (i : Inner) | InTerm (e : TunnelEvent)
| Fin (e : TunnelEvent).

Definition phase_of (p : rpc) : phase :=
  match p with
  | LoopStarted i | DrainStarted _ i | TailStarted i => InStarted i
  | LoopEvent i | DrainEvent _ i | TailEvent i => InEvent i
  | Terminal e => InTerm e
  | TailTerminal => InTerm StoppedEvent
  | _ => Idle
  end.

(** The calls one task has made: [handled] completely delivered, [fl] in delivery;
    [a0] and [a]: whether [Started] had been announced when it began and is now. *)
Definition segment (a0 : bool) (handled : list Inner) (ph : phase) (c : list hcall) (a : bool)
    (fl : list Inner) : Prop :=
  let before := a0 || existsb is_established handled in
  match ph with
  | Idle => c = returned (announce a0 handled) ∧ a = before ∧ fl = []
  | InStarted i =>
      c = returned (announce a0 handled) ++ [(Started, false)] ∧ a = before ∧ a = false ∧
      is_established i = true ∧ fl = [i]
  | InEvent i =>
      c = returned (announce a0 handled ++
                    (if is_established i && negb before then [Started] else [])) ++ [(event_of i, false)] ∧
      a = before || is_established i ∧ fl = [i]
  | InTerm e =>
      c = returned (announce a0 handled) ++ [(e, false)] ∧ a = before ∧ is_terminal e = true ∧ fl = []
  | Fin e =>
      c = returned (announce a0 handled ++ [e]) ∧ a = before ∧ is_terminal e = true ∧ fl = []
  end.

Lemma returned_app l1 l2 : returned (l1 ++ l2) = returned l1 ++ returned l2.
Proof. apply fmap_app. Qed.

Lemma segment_facts a0 h ph c a fl :
  segment a0 h ph c a fl →
  stream_ok a0 c ∧ started_in a0 c = a ∧ ended_in c = match ph with Fin _ => true | _ => false end.
Proof.
  destruct (announce_facts a0 h) as (H1 & H2 & H3). destruct ph as [|i|i|e|e]; cbn [segment].
  - by intros (-> & -> & _).
  - intros (-> & Ha & Hf & Hi & _). rewrite started_in_app, ended_in_app, H2, H3.
    split_and!; [|by rewrite <-Ha, Hf|done]. apply stream_ok_app; [done..|].
    rewrite H2, <-Ha, Hf. by split.
  - intros (-> & -> & _). rewrite returned_app, <-app_assoc. rewrite !started_in_app, !ended_in_app, H2, H3.
    destruct (is_established i) eqn:Ei, (a0 || existsb is_established h) eqn:Eb; cbn [andb negb returned fmap list_fmap app].
    all: rewrite ?started_in_event, ?ended_in_event; cbn.
    all: split_and!; try done; apply stream_ok_app; [done..|]; rewrite H2, ?Eb.
    + by apply stream_ok_event.
    + split; [done|]. by apply (stream_ok_event true).
    + by apply stream_ok_event.
    + apply stream_ok_event. congruence.
  - intros (-> & -> & He & _). rewrite started_in_app, ended_in_app, H2, H3.
    split_and!; [|by destruct e|by destruct e]. apply stream_ok_app; [done..|]. by destruct e.
  - intros (-> & -> & He & _). rewrite returned_app, started_in_app, ended_in_app, H2, H3.
    split_and!; [|by destruct e|by destruct e]. apply stream_ok_app; [done..|]. by destruct e.
Qed.

Definition phase_ok (p : rpc) (ph : phase) : Prop :=
  match p with
  | RunReturned => ∃ e, ph = Fin e
  | TailDone => ph = Fin StoppedEvent
  | _ => ph = phase_of p
  end.

(** The event a task will close the stream with is a terminal one. *)
Definition closing_ok (p : rpc) : Prop :=
  match p with
  | Drain e | DrainStarted e _ | DrainEvent e _ | Terminal e => is_terminal e = true
  | _ => True
  end.

Definition after_cancel (p : rpc) : bool :=
  match p with
  | TailShutdown | TailDrain | TailStarted _ | TailEvent _ | TailTerminal | TailDone | NoTail => true
  | _ => false
  end.

Definition finished (ph : phase) : bool := match ph with Fin _ => true | _ => false end.

(** What [run] had done when it was dropped: its calls [B], the items [I] it took
    from the queue and [announced]. *)
Definition base (cancelled : bool) (B : list hcall) (I : list Inner) (a0 : bool) : Prop :=
  if cancelled then
    ∃ pre ph fl, segment false pre ph B a0 fl ∧ finished ph = false ∧ I = pre ++ fl
  else B = [] ∧ I = [] ∧ a0 = false.

Record ffi_ok (s : ffi) B I a0 handled ph c fl : Prop := {
  fo_base : base (cancelled s) B I a0;
  fo_phase : phase_ok (run_pc s) ph;
  fo_closing : closing_ok (run_pc s);
  fo_calls : calls s = B ++ c;
  fo_segment : segment a0 handled ph c (announced s) fl;
  fo_sent : sent s = I ++ handled ++ fl ++ queue s;
  fo_terminal : terminal s = finished ph;
  fo_cancelled : after_cancel (run_pc s) = cancelled s;
  fo_started : f_started s = false → run_pc s = NotCalled;
}.

Definition ffi_inv (s : ffi) : Prop := ∃ B I a0 handled ph c fl, ffi_ok s B I a0 handled ph c fl.

(** *** Delivery *)

Lemma segment_deliver a0 h c a i :
  segment a0 h Idle c a [] →
  if is_established i && negb a then segment a0 h (InStarted i) (c ++ [(Started, false)]) a [i]
  else segment a0 h (InEvent i) (c ++ [(event_of i, false)]) a [i].
Proof.
  intros (-> & -> & _). destruct (is_established i) eqn:Ei,
    (a0 || existsb is_established h) eqn:Eb; cbn; rewrite ?Ei, ?Eb; cbn; rewrite ?app_nil_r;
    by split_and!.
Qed.

Lemma segment_announced a0 h c a i :
  segment a0 h (InStarted i) c a [i] →
  segment a0 h (InEvent i) ((removelast c ++ [(Started, true)]) ++ [(event_of i, false)]) true [i].
Proof.
  intros (-> & Ha & Hf & Hi & _). cbn. rewrite <-Ha, Hf, Hi. cbn.
  rewrite removelast_last, returned_app. by split_and!.
Qed.

Lemma segment_delivered a0 h c a i :
  segment a0 h (InEvent i) c a [i] →
  segment a0 (h ++ [i]) Idle (removelast c ++ [(event_of i, true)]) a [].
Proof.
  intros (-> & -> & _). cbn. rewrite removelast_last, announce_app, existsb_app. cbn.
  rewrite !returned_app, orb_false_r, orb_assoc, <-app_assoc. by split_and!.
Qed.

Lemma segment_closing a0 h c a e :
  is_terminal e = true → segment a0 h Idle c a [] → segment a0 h (InTerm e) (c ++ [(e, false)]) a [].
Proof. intros He (-> & -> & _). by split_and!. Qed.

Lemma segment_closed a0 h c a e :
  segment a0 h (InTerm e) c a [] → segment a0 h (Fin e) (removelast c ++ [(e, true)]) a [].
Proof. intros (-> & -> & He & _). cbn. rewrite removelast_last, returned_app. by split_and!. Qed.

(** The calls of a segment in which one is in progress. *)
Lemma removelast_app_calls (B c : list hcall) :
  c ≠ [] → removelast (B ++ c) = B ++ removelast c.
Proof. apply removelast_app. Qed.

Lemma segment_nonempty a0 h ph c a fl :
  segment a0 h ph c a fl → ph ≠ Idle → c ≠ [].
Proof.
  destruct ph; cbn; try done; intros (-> & _) _ E; try by apply app_eq_nil in E as [_ ?].
  rewrite returned_app in E. by apply app_eq_nil in E as [_ ?].
Qed.

Lemma terminal_event_terminal j : is_terminal (terminal_event j) = true.
Proof. by destruct j. Qed.

Lemma phase_ok_of p : phase_of p ≠ Idle → phase_ok p (phase_of p).
Proof. by destruct p. Qed.

Lemma deliver_ok s B I a0 h c i q st ev :
  ffi_ok s B I a0 h Idle c [] → queue s = i :: q → f_started s = true →
  phase_of st = InStarted i → phase_of ev = InEvent i → closing_ok st → closing_ok ev →
  after_cancel st = cancelled s → after_cancel ev = cancelled s →
  ffi_inv (deliver i q st ev s).
Proof.
  intros [H1 H2 H3 H4 H5 H6 H7 H8 H9] Hq Hs Pst Pev Cst Cev Ast Aev.
  assert (Hsent : sent s = I ++ h ++ [i] ++ q) by (by rewrite H6, Hq).
  pose proof (segment_deliver _ _ _ _ i H5) as Hd. unfold deliver. cbn [announced pop].
  destruct (is_established i && negb (announced s)).
  - exists B, I, a0, h, (InStarted i), (c ++ [(Started, false)]), [i].
    split; cbn; try done; [|by rewrite H4, <-app_assoc|congruence].
    rewrite <-Pst. apply phase_ok_of. by rewrite Pst.
  - exists B, I, a0, h, (InEvent i), (c ++ [(event_of i, false)]), [i].
    split; cbn; try done; [|by rewrite H4, <-app_assoc|congruence].
    rewrite <-Pev. apply phase_ok_of. by rewrite Pev.
Qed.

Lemma announced_ok s B I a0 h c i ev :
  ffi_ok s B I a0 h (InStarted i) c [i] → f_started s = true →
  phase_of ev = InEvent i → closing_ok ev → after_cancel ev = cancelled s →
  ffi_inv (deliver_announced i ev s).
Proof.
  intros [H1 H2 H3 H4 H5 H6 H7 H8 H9] Hs Pev Cev Aev.
  pose proof (segment_announced _ _ _ _ _ H5) as Hd.
  exists B, I, a0, h, (InEvent i),
    ((removelast c ++ [(Started, true)]) ++ [(event_of i, false)]), [i].
  split; cbn; try done; [| |congruence].
  - rewrite <-Pev. apply phase_ok_of. by rewrite Pev.
  - rewrite H4, removelast_app_calls by (by eapply segment_nonempty). by rewrite <- !app_assoc.
Qed.

Lemma delivered_ok s B I a0 h c i p :
  ffi_ok s B I a0 h (InEvent i) c [i] → f_started s = true →
  phase_ok p Idle → closing_ok p → after_cancel p = cancelled s →
  ffi_inv (goto p (leave (event_of i) s)).
Proof.
  intros [H1 H2 H3 H4 H5 H6 H7 H8 H9] Hs Pp Cp Ap.
  exists B, I, a0, (h ++ [i]), Idle, (removelast c ++ [(event_of i, true)]), [].
  split; cbn; try done; [|by eapply segment_delivered|by rewrite H6, <-app_assoc|congruence].
  rewrite H4, removelast_app_calls by (by eapply segment_nonempty). by rewrite <-app_assoc.
Qed.

Lemma closing_entered_ok s B I a0 h c e p :
  ffi_ok s B I a0 h Idle c [] → f_started s = true → is_terminal e = true →
  phase_ok p (InTerm e) → closing_ok p → after_cancel p = cancelled s →
  ffi_inv (goto p (enter e s)).
Proof.
  intros [H1 H2 H3 H4 H5 H6 H7 H8 H9] Hs He Pp Cp Ap.
  exists B, I, a0, h, (InTerm e), (c ++ [(e, false)]), [].
  split; cbn; try done; [by rewrite H4, <-app_assoc|by apply segment_closing|congruence].
Qed.

Lemma closed_ok s B I a0 h c e p :
  ffi_ok s B I a0 h (InTerm e) c [] → f_started s = true →
  phase_ok p (Fin e) → closing_ok p → after_cancel p = cancelled s →
  ffi_inv (goto p (set_terminal (leave e s))).
Proof.
  intros [H1 H2 H3 H4 H5 H6 H7 H8 H9] Hs Pp Cp Ap.
  exists B, I, a0, h, (Fin e), (removelast c ++ [(e, true)]), [].
  split; cbn; try done; [|by eapply segment_closed|congruence].
  rewrite H4, removelast_app_calls by (by eapply segment_nonempty). by rewrite <-app_assoc.
Qed.

(** A step that makes no handler call and takes nothing from the queue. *)
Lemma idle_ok s s' B I a0 h c :
  ffi_ok s B I a0 h Idle c [] → f_started s' = true →
  phase_ok (run_pc s') Idle → closing_ok (run_pc s') → after_cancel (run_pc s') = cancelled s' →
  cancelled s' = cancelled s → calls s' = calls s → announced s' = announced s →
  sent s' = sent s → queue s' = queue s → terminal s' = terminal s → ffi_inv s'.
Proof.
  intros [H1 H2 H3 H4 H5 H6 H7 H8 H9] Hs Pp Cp Ap Ec Eca Ea Es Eq Et.
  exists B, I, a0, h, Idle, c, []. split; try congruence.
Qed.

Lemma segment_in_flight a0 h ph c a fl :
  segment a0 h ph c a fl →
  fl = match ph with InStarted i | InEvent i => [i] | _ => [] end.
Proof. destruct ph; cbn; naive_solver. Qed.

Lemma poll_ok rt s s' : ffi_inv s → poll rt s = Some s' → ffi_inv s'.
Proof.
  intros (B & I & a0 & h & ph & c & fl & Hok) Hp.
  pose proof (segment_in_flight _ _ _ _ _ _ (fo_segment _ _ _ _ _ _ _ _ Hok)) as ->.
  assert (Hs : f_started s = true).
  { destruct (f_started s) eqn:E; [done|]. unfold poll in Hp. by rewrite (fo_started _ _ _ _ _ _ _ _ Hok E) in Hp. }
  pose proof (fo_phase _ _ _ _ _ _ _ _ Hok) as Hph.
  pose proof (fo_closing _ _ _ _ _ _ _ _ Hok) as Hcl.
  pose proof (fo_cancelled _ _ _ _ _ _ _ _ Hok) as Hca.
  unfold poll in Hp. destruct (run_pc s) eqn:Epc; try done; cbn in Hph, Hcl, Hca; subst ph.
  - destruct (f_stopped s); [|destruct rt]; simplify_eq.
    + by eapply closing_entered_ok.
    + by eapply idle_ok.
    + by eapply closing_entered_ok.
  - destruct (queue s) as [|i q] eqn:Eq; simplify_eq; [|by eapply deliver_ok].
    destruct (tunnel s); simplify_eq. eapply idle_ok; try done. cbn. apply terminal_event_terminal.
  - destruct (queue s) as [|i q] eqn:Eq; simplify_eq; [by eapply closing_entered_ok|by eapply deliver_ok].
  - simplify_eq. eapply idle_ok; try done; by destruct (tunnel s).
  - destruct (queue s) as [|i q] eqn:Eq; simplify_eq; [by eapply closing_entered_ok|by eapply deliver_ok].
Qed.

Lemma returns_ok s s' : ffi_inv s → returns s = Some s' → ffi_inv s'.
Proof.
  intros (B & I & a0 & h & ph & c & fl & Hok) Hp.
  pose proof (segment_in_flight _ _ _ _ _ _ (fo_segment _ _ _ _ _ _ _ _ Hok)) as ->.
  assert (Hs : f_started s = true).
  { destruct (f_started s) eqn:E; [done|]. unfold returns in Hp. by rewrite (fo_started _ _ _ _ _ _ _ _ Hok E) in Hp. }
  pose proof (fo_phase _ _ _ _ _ _ _ _ Hok) as Hph.
  pose proof (fo_closing _ _ _ _ _ _ _ _ Hok) as Hcl.
  pose proof (fo_cancelled _ _ _ _ _ _ _ _ Hok) as Hca.
  unfold returns in Hp. destruct (run_pc s) eqn:Epc; try done; cbn in Hph, Hcl, Hca; subst ph; simplify_eq.
  all: first [by eapply announced_ok|by eapply delivered_ok|eapply closed_ok; try done].
  by eexists.
Qed.

Lemma cancel_ok sp s s' : ffi_inv s → cancel sp s = Some s' → ffi_inv s'.
Proof.
  intros (B & I & a0 & h & ph & c & fl & Hok) Hp.
  destruct Hok as [H1 H2 H3 H4 H5 H6 H7 H8 H9]. unfold cancel in Hp. cbn [terminal] in Hp.
  assert (Hc : cancelled s = false ∧ finished ph = false ∧
    s' = goto (if sp then TailShutdown else NoTail)
           (MkFfi (queue s) (sent s) (f_started s) (f_stopped s) (announced s) (terminal s)
              (tunnel s) (run_pc s) true (calls s))).
  { destruct (run_pc s); try done; cbn in H2, H8; subst ph; cbn in H7; rewrite H7 in Hp;
      injection Hp as <-; rewrite ?H7; by split_and!. }
  destruct Hc as (Hc & Hf & ->). rewrite Hc in H1. destruct H1 as (-> & -> & ->). cbn in H4.
  exists (calls s), (h ++ fl), (announced s), [], Idle, [], [].
  split; cbn; try done; try (by destruct sp).
  - exists h, ph, fl. by rewrite H4.
  - by rewrite app_nil_r.
  - by rewrite orb_false_r.
  - by rewrite H6, <-app_assoc.
  - by rewrite H7.
  - intros E. specialize (H9 E). by rewrite H9 in Hp.
Qed.

Lemma ffi_apply_ok e s s' : ffi_inv s → ffi_apply e s = Some s' → ffi_inv s'.
Proof.
  intros Hinv. destruct e as [i| | |j|rt| |sp]; cbn.
  - intros [= <-]. destruct Hinv as (B & I & a0 & h & ph & c & fl & [H1 H2 H3 H4 H5 H6 H7 H8 H9]).
    exists B, I, a0, h, ph, c, fl. split; cbn; try done. by rewrite H6, <- !app_assoc.
  - destruct (f_started s) eqn:Es; intros [= <-]; [done|].
    destruct Hinv as (B & I & a0 & h & ph & c & fl & Hok).
    pose proof (fo_started _ _ _ _ _ _ _ _ Hok Es) as Epc.
    destruct Hok as [H1 H2 H3 H4 H5 H6 H7 H8 H9]. rewrite Epc in *. cbn in *. subst ph.
    exists B, I, a0, h, Idle, c, fl. by split.
  - intros [= <-]. destruct Hinv as (B & I & a0 & h & ph & c & fl & [H1 H2 H3 H4 H5 H6 H7 H8 H9]).
    exists B, I, a0, h, ph, c, fl. by split.
  - destruct (tunnel s); intros [= <-].
    destruct Hinv as (B & I & a0 & h & ph & c & fl & [H1 H2 H3 H4 H5 H6 H7 H8 H9]).
    exists B, I, a0, h, ph, c, fl. by split.
  - by apply poll_ok.
  - by apply returns_ok.
  - by apply cancel_ok.
Qed.

Lemma ffi_reachable_inv s : rtc ffi_step client_new s → ffi_inv s.
Proof.
  apply rtc_invariant; [|intros s1 s2 [e He] Hs; by eapply ffi_apply_ok].
  exists [], [], false, [], Idle, [], []. by split.
Qed.

Lemma stream_ok_announced l b : stream_ok true l → (Started, b) ∉ l.
Proof.
  induction l as [|[e b'] l IH]; [set_solver|]. cbn. intros [Hc Hs].
  rewrite elem_of_cons. intros [[= <- <-]|Hin]; [done|].
  apply IH; [|done]. by destruct e.
Qed.

Lemma stream_ok_inv a l1 e b l2 :
  stream_ok a (l1 ++ (e, b) :: l2) →
  match e with
  | ConnectionEstablished _ _ _ => a = true ∨ (Started, true) ∈ l1
  | Started => (Started, true) ∉ l1
  | _ => is_terminal e && b = true → l2 = []
  end.
Proof.
  revert a. induction l1 as [|[e1 b1] l1 IH]; intros a; cbn [app stream_ok].
  - intros [Hc _]. destruct e; cbn; try done; [set_solver|by left].
  - intros [Hc Hs]. specialize (IH _ Hs). destruct e; try done.
    + rewrite elem_of_cons. intros [[= <- <-]|Hin]; [|done].
      eapply (stream_ok_announced (l1 ++ (Started, b) :: l2) b); [done|set_solver].
    + destruct IH as [Ha|Hin]; [|right; by right].
      destruct e1; try by left. destruct b1; [right; by left|by left].
Qed.

Lemma ffi_stream_ok s : ffi_inv s → stream_ok false (calls s).
Proof.
  intros (B & I & a0 & h & ph & c & fl & [H1 H2 H3 H4 H5 H6 H7 H8 H9]). rewrite H4.
  destruct (segment_facts _ _ _ _ _ _ H5) as (Hs & _ & _).
  destruct (cancelled s); cbn in H1; [|by destruct H1 as (-> & -> & ->)].
  destruct H1 as (pre & ph0 & fl0 & Hb & Hf & _).
  destruct (segment_facts _ _ _ _ _ _ Hb) as (Hs0 & Ha0 & He0).
  apply stream_ok_app; [by rewrite He0; destruct ph0|done|]. by rewrite Ha0.
Qed.

(** What a cancellation strikes while [run] delivers, [a] being whether [Started] had been
    delivered: nothing, the call of a terminal event, or one item taken off the queue, in
    the call of [Started] that announces it or in its own. *)
Definition struck (a : bool) (lost : list Inner) (cut : list hcall) : Prop :=
  lost = [] ∧ (cut = [] ∨ ∃ e, is_terminal e = true ∧ cut = [(e, false)]) ∨
  ∃ i, lost = [i] ∧
    (is_established i && negb a = true ∧ cut = [(Started, false)] ∨
     cut = returned (if is_established i && negb a then [Started] else []) ++ [(event_of i, false)]).

Lemma segment_struck pre ph B a fl :
  segment false pre ph B a fl → finished ph = false →
  ∃ cut, B = returned (announce false pre) ++ cut ∧ struck (existsb is_established pre) fl cut ∧
    a = started_in false B.
Proof.
  intros Hb Hf. pose proof (segment_facts _ _ _ _ _ _ Hb) as (_ & Ha & _). unfold struck.
  destruct ph as [|i|i|e|e]; cbn in Hb, Hf; [..|done]; destruct Hb as (-> & Hb).
  - exists []. rewrite app_nil_r. destruct Hb as [_ ->]. split_and!; [done|by left; eauto|done].
  - destruct Hb as (Hp & Hfa & Hi & ->). eexists. split_and!; [done| |done]. right. exists i.
    split; [done|]. left. by rewrite Hi, <-Hp, Hfa.
  - rewrite returned_app, <-app_assoc in *. destruct Hb as [_ ->]. eexists. split_and!; [done| |done].
    right. exists i. split; [done|]. by right.
  - destruct Hb as (_ & He & ->). eexists. split_and!; [done| |done]. left. eauto 6.
Qed.


(** ** A cancellation that loses an event *)

Definition up : Inner := Conn "PRI" "relay:4433" (Established Quic).

(** The first connection comes up; the run is cancelled while the handler is in
    [Started]. *)
Definition cancelled_in_started : list ffi_event :=
  [CallRun; Poll (Ok tt); Send up; Poll (Ok tt); Cancel true; Poll (Ok tt); Poll (Ok tt); HandlerReturns].

(** C33: [deliver] takes the item off the queue before it announces [Started], so a
    cancellation that strikes during that call loses the connection event: the handler
    is never called with it, and [Started] is not delivered either. *)
Theorem cancel_in_started_loses_event :
  ∃ s, rtc ffi_step client_new s ∧ run_pc s = TailDone ∧ sent s = [up] ∧ queue s = [] ∧
    calls s = [(Started, false); (StoppedEvent, true)].
Proof.
  eexists. split; [apply (ffi_execute_rtc cancelled_in_started); vm_compute; reflexivity|].
  vm_compute. by split_and!.
Qed.

(** An undisturbed run: up, stopped. *)
Definition plain_run : list ffi_event :=
  [CallRun; Poll (Ok tt); Send up; Poll (Ok tt); HandlerReturns; HandlerReturns; TunnelEnds JoinedOk;
   Poll (Ok tt); Poll (Ok tt); HandlerReturns].

