(* ===== verification/ClientExchange.v ===== *)
(** * ClientExchange.v: the client's half of the control exchange

    tunnel-client/src/client.rs: [quic_loop] and [quic_loop_inner], the challenge
    and forwarding loops, [build_tls_acceptor], [check_reject], [accept_ctrl] and
    [h2_ctrl_exchange], as programs over the connection, the certificate provisioner
    and the ACME challenge streams. How they meet the relay's half (Relay.v) is in
    QuicExchange.v and H2Exchange.v. *)

From Stdlib Require Import Ascii.
From S2P Require Import Prelude Async RustStr CertProvisioner Framing Registry Admission Key ClientTls Identity Relay.
Open Scope string_scope.
Open Scope Z_scope.
Open Scope list_scope.
Open Scope tunnel_scope.

(** ** The environment *)

(** What [provisioner.prepare(domain)] answers ([PrepareResult]). *)
Inductive prepared := Cached (pem : string) | LeaderChallenge (ka : string) | FollowerChallenge (ka : string).

(** [tokio_rustls::TlsAcceptor], as [build_tls_acceptor] makes it: the chain it presents
    and the key its [RustlsRemoteKey] signs with. *)
Record TlsAcceptor := MkAcceptor { acc_certs : list bytes; acc_keypair : TunnelKey }.

(** What can happen while a QUIC session serves streams. *)
Inductive stream_event := NewStream | PipeFinished.

Inductive kop :=
| KOpenBi
| KWriteAll (d : bytes)
| KReadExact (n : nat)
| KReadToEnd (limit : Z)
| KDeadline (d : Z)
| KPrepare (domain : string)
| KBuildAlpn (domain ka : string)
| KSpawnFinalize (domain : string) (csr : bytes)
| KServeUntilCert (leader : bool)      (** the streams accepted until the certificate is there *)
| KSpawnChallenge                      (** [spawn_challenge] *)
| KUp (acc : TlsAcceptor)              (** [ctrl_completed] set, [Established] emitted *)
| KStopped                             (** [self.stopped()] *)
| KStreams                             (** what happens on the connection until its end *)
| KSpawnPipe (acc : TlsAcceptor) (target : string)
(** H2: the client is the HTTP/2 server *)
| KAccept                              (** [h2_conn.accept()] *)
| KRequestBody
| KRespond (end_of_stream : bool)      (** [resp.send_response(..)] *)
| KRespondChallenge                    (** [resp.send_response(..)] for a challenge stream *)
| KSendData (d : bytes)
| KRounds                              (** a bound on the requests the connection still carries *)
| KAcceptOrCert.                       (** [select!] of [h2_conn.accept()] and the certificate *)

(** An accepted request: its path, or an error. *)
Abbreviation incoming := (option string).

Definition kans (o : kop) : Type :=
  match o with
  | KOpenBi => bool
  | KWriteAll _ => result io_error unit
  | KReadExact _ => result io_error bytes
  | KReadToEnd _ => bool
  | KDeadline _ => bool
  | KPrepare _ => option prepared
  | KBuildAlpn _ _ => bool
  | KSpawnFinalize _ _ => unit
  | KServeUntilCert _ => list bool * option string   (** accepted or connection error *)
  | KSpawnChallenge | KUp _ | KSpawnPipe _ _ => unit
  | KStopped => bool
  | KStreams => list stream_event * result unit unit
  | KAccept => option incoming         (** [None]: the relay hung up *)
  | KRequestBody => list (result io_error bytes)
  | KRespond _ | KRespondChallenge | KSendData _ => bool
  | KRounds => nat
  | KAcceptOrCert => option incoming + option string
  end.

Definition kawaits (o : kop) : bool :=
  match o with
  | KDeadline _ | KBuildAlpn _ _ | KSpawnFinalize _ _ | KSpawnChallenge | KUp _ | KStopped
  | KSpawnPipe _ _ | KRespond _ | KRespondChallenge | KSendData _ | KRounds => false
  | _ => true
  end.

Definition cli : iface := Iface kop kans kawaits.

Inductive client_error :=
| ConnFailed                            (** the connection, or a stream of it, failed *)
| CtrlFailed (e : ctrl_error)
| SignError (e : sign_error)
| PrepareFailed | AlpnAcceptor | NoCsr | CertFailed | BadChain
| NotAccepted                           (** no acceptance within [QUIC_ACCEPT_TIMEOUT] *)
| RelayRejected (reason : string)
| UnexpectedPath (path : string).

Definition QUIC_ACCEPT_TIMEOUT : Z := from_secs 40.

(** Early return of [anyhow::Result]s. *)
Notation "x '<-e' p ';;' q" :=
  (prog_bind (λ r, match r with Ok x => q | Err e => Ret (Err e) end) p)
  (at level 100, p at next level, q at level 200, right associativity) : tunnel_scope.

Definition build_tls_acceptor (keypair : TunnelKey) (certs : list bytes) :
    result client_error TlsAcceptor :=
  Ok (MkAcceptor certs keypair).

Section quic_client.
Context `{Crypto} (alloc : Z → bool).
(** [rustls_pemfile::certs], all of them. *)
Context (parse_cert_chain_pem : string → option (list bytes)).

Definition k_write (d : bytes) : prog cli (result client_error unit) :=
  r <-! ctrl_write (λ d, call (I := cli) (KWriteAll d)) d ;;
  Ret (map_err CtrlFailed r).

Definition k_read : prog cli (result client_error bytes) :=
  r <-! ctrl_read alloc (λ n, call (I := cli) (KReadExact n)) ;;
  Ret (map_err CtrlFailed r).

(** [quic_serve_challenges_until]: the streams that arrive before the certificate. *)
Fixpoint quic_serve_challenges_until (streams : list bool) (pem : option string) :
    prog cli (result client_error string) :=
  match streams with
  | [] => Ret (ok_or CertFailed pem)
  | false :: _ => Ret (Err ConnFailed)
  | true :: streams => call (I := cli) KSpawnChallenge ;;! quic_serve_challenges_until streams pem
  end.

(** A leader finalizes its order concurrently. *)
Definition spawn_finalize (domain : string) (csr : option bytes) (leader : bool) :
    prog cli (result client_error unit) :=
  if leader then
    match csr with
    | None => Ret (Err NoCsr)
    | Some csr => call (I := cli) (KSpawnFinalize domain csr) ;;! Ret (Ok tt)
    end
  else Ret (Ok tt).

(** Once the relay has acknowledged a challenge: serve until the certificate is there,
    report done. *)
Definition quic_acknowledged (conn : Connection) (leader : bool) : prog cli (result client_error string) :=
  _ <-e spawn_finalize (domain conn) (csr_der conn) leader ;;
  r <-! call (I := cli) (KServeUntilCert leader) ;;
  pem <-e quic_serve_challenges_until (fst (r : list bool * option string)) (snd r) ;;
  _ <-e k_write (as_bytes "done") ;;
  Ret (Ok pem).

(** The certificate of a challenge that this client serves as leader or follower:
    announce it, wait for the acknowledgement. *)
Definition quic_challenge (conn : Connection) (leader : bool) (ka : string) :
    prog cli (result client_error string) :=
  ok <-! call (I := cli) (KBuildAlpn (domain conn) ka) ;;
  if negb (ok : bool) then Ret (Err AlpnAcceptor)
  else
    _ <-e k_write (as_bytes ka) ;;
    _ <-e k_read ;;
    quic_acknowledged conn leader.

(** Step 3 of the exchange: the chain for tunnel TLS. *)
Definition quic_tunnel_certs (conn : Connection) (provisioner : bool) :
    prog cli (result client_error (list bytes)) :=
  if negb provisioner then
    _ <-e k_write [] ;; Ret (Ok [agent_cert conn])
  else
    p <-! call (I := cli) (KPrepare (domain conn)) ;;
    pem <-e match (p : option prepared) with
            | None => Ret (Err PrepareFailed)
            | Some (Cached pem) => _ <-e k_write [] ;; Ret (Ok pem)
            | Some (LeaderChallenge ka) => quic_challenge conn true ka
            | Some (FollowerChallenge ka) => quic_challenge conn false ka
            end ;;
    Ret (ok_or BadChain (parse_cert_chain_pem pem)).

Definition k_expired (d : Z) : prog cli (option unit) :=
  b <-! call (I := cli) (KDeadline d) ;; Ret (if (b : bool) then Some tt else None).

(** The serving loop: every accepted stream is forwarded, finished forwards are reaped. *)
Fixpoint quic_forward (acc : TlsAcceptor) (target : string) (evs : list stream_event)
    (ended : result unit unit) : prog cli (result client_error unit) :=
  match evs with
  | [] => Ret (map_err (λ _, ConnFailed) ended)
  | NewStream :: evs => call (I := cli) (KSpawnPipe acc target) ;;! quic_forward acc target evs ended
  | PipeFinished :: evs => quic_forward acc target evs ended
  end.

(** From the control exchange on: the session counts as up, then serves streams. *)
Definition quic_up (acc : TlsAcceptor) (target : string) : prog cli (result client_error unit) :=
  call (I := cli) (KUp acc) ;;!
  stopped <-! call (I := cli) KStopped ;;
  if (stopped : bool) then Ret (Ok tt)
  else
    r <-! call (I := cli) KStreams ;;
    quic_forward acc target (fst (r : list stream_event * result unit unit)) (snd r).

(** Once the exchange is over: the relay finishes the control stream when it has accepted
    the agent. *)
Definition quic_await_accepted (target : string) (conn : Connection) (provisioner : bool)
    (certs : list bytes) : prog cli (result client_error unit) :=
  accepted <-! interrupt (k_expired QUIC_ACCEPT_TIMEOUT) (call (I := cli) (KReadToEnd MAX_CTRL_FRAME)) ;;
  match (accepted : unit + bool) with
  | inl _ => Ret (Err NotAccepted)
  | inr false => Ret (Err ConnFailed)
  | inr true =>
      let key := if provisioner then identity_keypair conn else agent_keypair conn in
      match build_tls_acceptor key certs with
      | Err e => Ret (Err e)
      | Ok acc => quic_up acc target
      end
  end.

Definition quic_loop_inner (target : string) (conn : Connection) (provisioner : bool) :
    prog cli (result client_error unit) :=
  opened <-! call (I := cli) KOpenBi ;;
  if negb (opened : bool) then Ret (Err ConnFailed)
  else
    _ <-e k_write (as_bytes (domain conn)) ;;
    match sign_recoverable (identity_keypair conn) (as_bytes (domain conn)) with
    | Err e => Ret (Err (SignError e))
    | Ok sig =>
        _ <-e k_write sig ;;
        certs <-e quic_tunnel_certs conn provisioner ;;
        quic_await_accepted target conn provisioner certs
    end.

(** [quic_loop]: the result, and the rejection slot after it. [close] is the
    application close the connection ended with, if any. *)
Definition quic_loop (target : string) (conn : Connection) (provisioner : bool) (rejected : option string)
    (close : option (Z * string)) : prog cli (result client_error unit * option string) :=
  result <-! quic_loop_inner target conn provisioner ;;
  Ret (result, match close with
               | Some (code, reason) =>
                   if bool_decide (code = REJECT_UNAUTHORIZED) then Some reason else rejected
               | None => rejected
               end).
End quic_client.

Section h2_client.
Context `{Crypto} (parse_cert_chain_pem : string → option (list bytes)).
(** [String::from_utf8_lossy]. *)
Context (from_utf8_lossy : bytes → string).

Definition check_reject (path : string) : prog cli (result client_error string) :=
  if negb (bool_decide (path = CTRL_REJECT_PATH)) then Ret (Ok path)
  else
    body <-! call (I := cli) KRequestBody ;;
    let reason := match collect_h2_body (body : list _) MAX_CTRL_FRAME with
                  | (Ok b, _) => from_utf8_lossy b
                  | (Err _, _) => ""
                  end in
    call (I := cli) (KRespond true) ;;!
    Ret (Err (RelayRejected reason)).

Definition accept_ctrl : prog cli (result client_error string) :=
  r <-! call (I := cli) KAccept ;;
  match (r : option incoming) with
  | Some (Some path) => check_reject path
  | _ => Ret (Err ConnFailed)
  end.

(** A [200] response with a body. *)
Definition respond (d : bytes) : prog cli (result client_error unit) :=
  ok <-! call (I := cli) (KRespond false) ;;
  if negb (ok : bool) then Ret (Err ConnFailed)
  else ok <-! call (I := cli) (KSendData d) ;; Ret (if (ok : bool) then Ok tt else Err ConnFailed).

(** One step of the exchange: the expected request. *)
Definition expect (path : string) : prog cli (result client_error unit) :=
  p <-e accept_ctrl ;;
  Ret (if bool_decide (p = path) then Ok tt else Err (UnexpectedPath p)).

(** A request for a challenge stream is answered and served. *)
Definition accept_challenge : prog cli (result client_error unit) :=
  ok <-! call (I := cli) KRespondChallenge ;;
  if negb (ok : bool) then Ret (Err ConnFailed)
  else call (I := cli) KSpawnChallenge ;;! Ret (Ok tt).

(** [h2_serve_challenges_until]: the requests that arrive before the certificate; the
    connection carries at most [n]. *)
Fixpoint h2_serve_challenges_until (n : nat) : prog cli (result client_error string) :=
  match n with
  | O => Ret (Err ConnFailed)
  | S n =>
      r <-! call (I := cli) KAcceptOrCert ;;
      match (r : option incoming + option string) with
      | inr pem => Ret (ok_or CertFailed pem)
      | inl (Some (Some path)) =>
          p <-e check_reject path ;;
          _ <-e (if bool_decide (p = "/_ctrl/alpn") then accept_challenge else Ret (Ok tt)) ;;
          h2_serve_challenges_until n
      | inl _ => Ret (Err ConnFailed)
      end
  end.

(** The loop of both challenge branches: requests arrive one by one, at most [n], until
    [/_ctrl/done], which is answered when the certificate is there. *)
Fixpoint h2_challenge_loop (n : nat) : prog cli (result client_error string) :=
  match n with
  | O => Ret (Err ConnFailed)
  | S n =>
      p <-e accept_ctrl ;;
      if bool_decide (p = "/_ctrl/alpn") then
        _ <-e accept_challenge ;; h2_challenge_loop n
      else if bool_decide (p = "/_ctrl/done") then
        m <-! call (I := cli) KRounds ;;
        pem <-e h2_serve_challenges_until m ;;
        ok <-! call (I := cli) (KRespond true) ;;
        Ret (if (ok : bool) then Ok pem else Err ConnFailed)
      else Ret (Err (UnexpectedPath p))
  end.

Definition h2_challenge (domain : string) (csr : option bytes) (leader : bool) (ka : string) :
    prog cli (result client_error string) :=
  ok <-! call (I := cli) (KBuildAlpn domain ka) ;;
  if negb (ok : bool) then Ret (Err AlpnAcceptor)
  else
    _ <-e respond (as_bytes ka) ;;
    _ <-e spawn_finalize domain csr leader ;;
    n <-! call (I := cli) KRounds ;;
    h2_challenge_loop n.

(** Step 3 of [h2_ctrl_exchange], step 2 and the whole of it. *)
Definition h2_answer_key_auth (conn : Connection) (provisioner : bool) :
    prog cli (result client_error (list bytes)) :=
  _ <-e expect "/_ctrl/key_auth" ;;
  if negb provisioner then
    _ <-e respond [] ;; Ret (Ok [agent_cert conn])
  else
    p <-! call (I := cli) (KPrepare (domain conn)) ;;
    pem <-e match (p : option prepared) with
            | None => Ret (Err PrepareFailed)
            | Some (Cached pem) => _ <-e respond [] ;; Ret (Ok pem)
            | Some (LeaderChallenge ka) => h2_challenge (domain conn) (csr_der conn) true ka
            | Some (FollowerChallenge ka) => h2_challenge (domain conn) (csr_der conn) false ka
            end ;;
    Ret (ok_or BadChain (parse_cert_chain_pem pem)).

Definition h2_answer_sig (conn : Connection) (provisioner : bool) :
    prog cli (result client_error (list bytes)) :=
  _ <-e expect "/_ctrl/sig" ;;
  match sign_recoverable (identity_keypair conn) (as_bytes (domain conn)) with
  | Err e => Ret (Err (SignError e))
  | Ok sig => _ <-e respond sig ;; h2_answer_key_auth conn provisioner
  end.

Definition h2_ctrl_exchange (conn : Connection) (provisioner : bool) :
    prog cli (result client_error (list bytes)) :=
  _ <-e expect "/_ctrl/domain" ;;
  _ <-e respond (as_bytes (domain conn)) ;;
  h2_answer_sig conn provisioner.
End h2_client.
