(* ===== verification/Session.v ===== *)
(** * Session.v: a client and a relay handler on one connection

    The connection between the client's programs (ClientExchange.v) and the relay's
    handlers (Relay.v), as a pair of logs (Duplex.v): on QUIC the bytes each side wrote to
    the control stream and the relay's closing of it, on H2 the relay's requests and the
    client's responses. A read blocks until the bytes are there, [accept_bi] until the peer
    has sent something on the stream, [read_to_end] until the stream is finished,
    [h2_conn.accept()] until there is a request, a response or its body until the client
    has sent it. Nothing is lost or reordered and no timer fires; everything that is not
    the connection answers as the two worlds say. The streams that the relay's public side
    opens for challenges while the client waits for its certificate are part of the client's
    world. *)

From S2P Require Import Prelude Async Duplex RustStr CertProvisioner Framing Registry Admission Key.
From S2P Require Import ClientTls Identity Relay ClientExchange.
Open Scope string_scope.
Open Scope Z_scope.
Open Scope list_scope.
Open Scope tunnel_scope.

(** ** The connection *)

(** What one side has sent: bytes on the QUIC control stream and its end; the head of an
    H2 request (with its path) or response, with whether it ends the stream, and a body. *)
Inductive item :=
| Bytes (d : bytes)
| Fin
| Head (path : string) (eos : bool)
| Data (d : bytes).

(** The bytes of the stream; nothing follows its end. *)
Fixpoint stream_bytes (l : list item) : bytes :=
  match l with
  | [] => []
  | Bytes d :: l => d ++ stream_bytes l
  | Fin :: _ => []
  | _ :: l => stream_bytes l
  end.
Definition finished (l : list item) : bool :=
  existsb (λ i, match i with Fin => true | _ => false end) l.

(** The requests or responses, and the body of the [i]-th: none after a head that ends
    the stream. *)
Definition heads (l : list item) : list string :=
  omap (λ i, match i with Head path _ => Some path | _ => None end) l.
Fixpoint first_data (l : list item) : option bytes :=
  match l with
  | [] => None
  | Data d :: _ => Some d
  | _ :: l => first_data l
  end.
Fixpoint body_of (i : nat) (l : list item) : option (list bytes) :=
  match l with
  | [] => None
  | Head _ eos :: l =>
      match i with
      | O => if eos then Some [] else (λ d, [d]) <$> first_data l
      | S i => body_of i l
      end
  | _ :: l => body_of i l
  end.

(** How far a side has read: bytes of the stream, requests or responses. On H2, where
    there is no stream, the client counts challenge requests in the first. *)
Record pos := Pos { p_read : nat; p_heads : nat }.

(** The other side's connection is gone. *)
Definition lost (v : view item) : bool := bool_decide (v_ended v = Some true).

Definition unread (p : pos) (v : view item) : bytes := drop (p_read p) (stream_bytes (v_log v)).

(** [read_exact]: blocks until the bytes are there or can no longer come. *)
Definition read_exact (n : nat) (p : pos) (v : view item) :
    option (result io_error bytes * pos * list item) :=
  if (n <=? length (unread p v))%nat then
    Some (Ok (take n (unread p v)), Pos (p_read p + n) (p_heads p), [])
  else if finished (v_log v) || lost v then Some (Err UnexpectedEof, p, [])
  else None.

(** [read_to_end]: blocks until the peer finishes the stream. *)
Definition read_to_end (limit : Z) (p : pos) (v : view item) : option (bool * pos * list item) :=
  if finished (v_log v) then
    Some (bool_decide (Z.of_nat (length (unread p v)) ≤ limit),
          Pos (length (stream_bytes (v_log v))) (p_heads p), [])
  else if lost v then Some (false, p, [])
  else None.

(** The next request or response head. *)
Definition next_head (p : pos) (v : view item) : option (option string * pos * list item) :=
  match heads (v_log v) !! p_heads p with
  | Some path => Some (Some path, Pos (p_read p) (S (p_heads p)), [])
  | None => if lost v then Some (None, p, []) else None
  end.

(** The body that belongs to the head last read. *)
Definition next_body (p : pos) (v : view item) :
    option (list (result io_error bytes) * pos * list item) :=
  match body_of (pred (p_heads p)) (v_log v) with
  | Some ds => Some (Ok <$> ds, p, [])
  | None => if lost v then Some ([Err UnexpectedEof], p, []) else None
  end.

(** *** What is sent later does not change what was read *)

Lemma stream_bytes_app l l' :
  stream_bytes (l ++ l') = stream_bytes l ++ (if finished l then [] else stream_bytes l').
Proof.
  induction l as [|[d| |path eos|d] l IH]; simpl; [done| |done|exact IH|exact IH].
  by rewrite IH, app_assoc.
Qed.

Lemma first_data_app l l' d : first_data l = Some d → first_data (l ++ l') = Some d.
Proof. induction l as [|[] l IH]; simpl; auto. done. Qed.

Lemma body_of_app i l l' ds : body_of i l = Some ds → body_of i (l ++ l') = Some ds.
Proof.
  revert i. induction l as [|[d| |path eos|d] l IH]; intros i; simpl; auto; [done|].
  destruct i as [|i]; [|apply IH]. destruct eos; [done|].
  destruct (first_data l) as [d|] eqn:E; [|done]. by rewrite (first_data_app _ _ _ E).
Qed.

(** A later view is the same one, or one of a side that was still there. *)
Lemma later_cases (v v' : view item) :
  later v v' → v' = v ∨ lost v = false ∧ ∃ l, v_log v' = v_log v ++ l.
Proof.
  intros [[l Hl] He]. unfold lost. case_bool_decide as Hc; [left|right; eauto].
  apply He. by rewrite Hc.
Qed.

Lemma unread_later p v v' l :
  v_log v' = v_log v ++ l → ∃ more, unread p v' = unread p v ++ more ∧ (finished (v_log v) = true → more = []).
Proof.
  unfold unread. intros ->. rewrite stream_bytes_app.
  set (b := stream_bytes (v_log v)). set (m := if finished (v_log v) then [] else _).
  exists (drop (p_read p - length b) m). rewrite drop_app. split; [done|].
  intros Hf. unfold m. rewrite Hf. apply drop_nil.
Qed.

Lemma finished_app l l' : finished l = true → finished (l ++ l') = true.
Proof. unfold finished. rewrite existsb_app. by intros ->. Qed.

Lemma read_exact_later n p v v' z :
  later v v' → read_exact n p v = Some z → read_exact n p v' = Some z.
Proof.
  intros [->|[Hlost [l Hl]]]%later_cases Hr; [done|].
  destruct (unread_later p v v' l Hl) as (more & Hm & Hnil). unfold read_exact in *. rewrite Hm.
  destruct (Nat.leb_spec n (length (unread p v))) as [Hle|Hgt].
  - rewrite (proj2 (Nat.leb_le _ _)) by (rewrite length_app; lia). by rewrite take_app_le.
  - rewrite Hlost, orb_false_r in Hr. destruct (finished (v_log v)) eqn:Hf; [|done].
    rewrite (Hnil eq_refl), app_nil_r, (proj2 (Nat.leb_gt _ _)) by done.
    by rewrite Hl, finished_app.
Qed.

Lemma read_to_end_later limit p v v' z :
  later v v' → read_to_end limit p v = Some z → read_to_end limit p v' = Some z.
Proof.
  intros [->|[Hlost [l Hl]]]%later_cases Hr; [done|].
  destruct (unread_later p v v' l Hl) as (more & Hm & Hnil). unfold read_to_end in *.
  rewrite Hlost in Hr. destruct (finished (v_log v)) eqn:Hf; [|done].
  by rewrite Hm, (Hnil eq_refl), app_nil_r, Hl, finished_app, stream_bytes_app, Hf, app_nil_r.
Qed.

Lemma next_head_later p v v' z : later v v' → next_head p v = Some z → next_head p v' = Some z.
Proof.
  intros [->|[Hlost [l Hl]]]%later_cases Hr; [done|]. unfold next_head in *. rewrite Hl.
  unfold heads in *. rewrite omap_app. rewrite Hlost in Hr.
  destruct (_ !! p_heads p) as [path|] eqn:E in Hr; [|done]. by rewrite (lookup_app_l_Some _ _ _ _ E).
Qed.

Lemma next_body_later p v v' z : later v v' → next_body p v = Some z → next_body p v' = Some z.
Proof.
  intros [->|[Hlost [l Hl]]]%later_cases Hr; [done|]. unfold next_body in *. rewrite Hl.
  rewrite Hlost in Hr. destruct (body_of _ (v_log v)) as [ds|] eqn:E; [|done].
  by rewrite (body_of_app _ _ _ _ E).
Qed.

(** ** The two sides *)

(** What is not the connection, for the client: the provisioner, how many challenge
    streams arrive while it waits for its certificate, the certificate, a bound on further
    requests (on H2) and the streams that arrive once the session is up (on QUIC). *)
Record client_world := ClientWorld {
  cw_prepare : option prepared;
  cw_challenges : nat;
  cw_cert : option string;
  cw_rounds : nat;
  cw_streams : list stream_event;
}.

(** The client's calls. Writes are taken by the connection's buffers; streams arrive once
    the relay's handler is done. *)
Definition client_responds (w : client_world) : responder cli item item pos := λ o p v,
  match o return option (kans o * pos * list item) with
  | KOpenBi => Some (true, p, [])
  | KWriteAll d => Some (Ok tt, p, [Bytes d])
  | KReadExact n => read_exact n p v
  | KReadToEnd limit => read_to_end limit p v
  | KDeadline _ => Some (false, p, [])
  | KPrepare _ => Some (cw_prepare w, p, [])
  | KBuildAlpn _ _ => Some (true, p, [])
  | KSpawnFinalize _ _ => Some (tt, p, [])
  | KServeUntilCert _ => Some (replicate (cw_challenges w) true, cw_cert w, p, [])
  | KSpawnChallenge | KUp _ | KSpawnPipe _ _ => Some (tt, p, [])
  | KStopped => Some (false, p, [])
  | KStreams => if bool_decide (v_ended v = None) then None else Some (cw_streams w, Ok tt, p, [])
  | KAccept => match next_head p v with Some (r, p', us) => Some (option_map Some r, p', us) | None => None end
  | KRequestBody => next_body p v
  | KRespond eos => Some (true, p, [Head "" eos])
  | KRespondChallenge => Some (true, p, [])
  | KSendData d => Some (true, p, [Data d])
  | KRounds => Some (S (cw_challenges w + cw_rounds w), p, [])
  | KAcceptOrCert =>
      Some (if (p_read p <? cw_challenges w)%nat
            then (inl (Some (Some "/_ctrl/alpn")), Pos (S (p_read p)) (p_heads p), [])
            else (inr (cw_cert w), p, []))
  end.

(** The relay's calls: the connection's, and otherwise those of [world]. *)
Definition relay_responds (w : world) : responder relay item item pos := λ o p v,
  match o return option (rans o * pos * list item) with
  | QAcceptBi =>
      if bool_decide (stream_bytes (v_log v) = []) then
        if lost v then Some (false, p, []) else None
      else Some (true, p, [])
  | QReadExact n => read_exact n p v
  | QWriteAll d => Some (Ok tt, p, [Bytes d])
  | QDropCtrl => Some (tt, p, [Fin])
  | HSendRequest path eos => Some (true, p, [Head path eos])
  | HSendData d _ => Some (true, p, [Data d])
  | HResponse =>
      match next_head p v with
      | Some (r, p', us) => Some (match r with Some _ => true | None => false end, p', us)
      | None => None
      end
  | HBody => next_body p v
  | o => Some ((answer w o (Peer [] [])).1, p, [])
  end.

Lemma client_monotone w : monotone (client_responds w).
Proof.
  intros o p v v' z Hv Hr. destruct o; try exact Hr; cbn [client_responds] in *.
  - by eapply read_exact_later.
  - by eapply read_to_end_later.
  - case_bool_decide as Hn; [done|]. by rewrite (proj2 Hv Hn), bool_decide_false.
  - destruct (next_head p v) as [[[r p'] us]|] eqn:E; [|done]. by rewrite (next_head_later _ _ _ _ Hv E).
  - by eapply next_body_later.
Qed.

Lemma relay_monotone w : monotone (relay_responds w).
Proof.
  intros o p v v' z Hv Hr. destruct o; try exact Hr; cbn [relay_responds] in *.
  - destruct (later_cases _ _ Hv) as [->|[Hlost [l Hl]]]; [done|]. rewrite Hlost in Hr.
    case_bool_decide as Hb; [done|]. rewrite bool_decide_false; [done|].
    rewrite Hl, stream_bytes_app. by intros [? _]%app_eq_nil.
  - by eapply read_exact_later.
  - destruct (next_head p v) as [[[r p'] us]|] eqn:E; [|done]. by rewrite (next_head_later _ _ _ _ Hv E).
  - by eapply next_body_later.
Qed.

(** What a client does that can be seen outside: it lets an order be finalized, comes up
    with a chain and the key it answers for it with, and hands a stream to a target behind
    them. *)
Inductive client_act :=
| Finalizes (domain : string) (csr : bytes)
| CameUp (certs : list bytes) (key : TunnelKey)
| Forwards (certs : list bytes) (key : TunnelKey) (target : string).

Definition client_seen (e : event cli) : option client_act :=
  match ev_op e with
  | KSpawnFinalize domain csr => Some (Finalizes domain csr)
  | KUp acc => Some (CameUp (acc_certs acc) (acc_keypair acc))
  | KSpawnPipe acc target => Some (Forwards (acc_certs acc) (acc_keypair acc) target)
  | _ => None
  end.

Definition is_new (e : stream_event) : bool := match e with NewStream => true | PipeFinished => false end.

(** A handler that did not accept the agent drops its connection. *)
Definition refused (r : option unit) : bool := match r with None => true | Some _ => false end.

Abbreviation client_half A := (half cli item pos client_act A).
Abbreviation relay_half := (half relay item pos observed (option unit)).

(** One step of either side; [gone] tells of the client's result whether its connection is
    gone with it. *)
Definition session_step {A} (gone : A → bool) (w : world) (cw : client_world) :
    relation (client_half A * relay_half) :=
  duplex_step (client_responds cw) client_seen gone (relay_responds w) observe refused.

(** Both at their start. *)
Definition connected {A} (p : prog cli A) (h : prog relay (option unit)) : client_half A * relay_half :=
  (Half [] p [] (Pos 0 0), Half [] h [] (Pos 0 0)).

(** How the client gets its chain [certs], and the key authorization it announces: none
    when there is no provisioner or the certificate is cached; and what it finalizes. *)
Inductive session_plan (parse : string → option (list bytes)) (conn : Connection) (w : client_world) :
    bool → string → list bytes → list client_act → Prop :=
| plan_self_signed : session_plan parse conn w false "" [agent_cert conn] []
| plan_cached pem certs :
    cw_prepare w = Some (Cached pem) → parse pem = Some certs → session_plan parse conn w true "" certs []
| plan_leader ka pem csr certs :
    cw_prepare w = Some (LeaderChallenge ka) → csr_der conn = Some csr → cw_cert w = Some pem →
    parse pem = Some certs → ka ≠ "" →
    session_plan parse conn w true ka certs [Finalizes (domain conn) csr]
| plan_follower ka pem certs :
    cw_prepare w = Some (FollowerChallenge ka) → cw_cert w = Some pem →
    parse pem = Some certs → ka ≠ "" → session_plan parse conn w true ka certs [].

(** A session that is up on [certs]: one forward for each stream. *)
Definition session_acts (certs : list bytes) (key : TunnelKey) (target : string)
    (streams : list stream_event) : list client_act :=
  CameUp certs key :: ((λ _, Forwards certs key target) <$> List.filter is_new streams).

(** What the relay does in a session that announces [ka]. *)
Definition relay_acts (ka id : string) (a : Agent) : list observed :=
  PermitReturned :: challenge_phase (as_bytes ka) id ++ [Registered id a].

(** ** Runs of the parts both transports share *)

(** A control frame, as it is written. *)
Definition framed (d : bytes) : list item := [Bytes (u32_to_be_bytes (Z.of_nat (length d))); Bytes d].

Lemma stream_framed d l : stream_bytes (framed d ++ l) = frame d ++ stream_bytes l.
Proof. unfold framed, frame. rewrite <-app_assoc. reflexivity. Qed.

Definition advance (n : nat) (p : pos) : pos := Pos (p_read p + n) (p_heads p).

Lemma unread_advance p v b rest : unread p v = b ++ rest → unread (advance (length b) p) v = rest.
Proof.
  unfold unread, advance. cbn [p_read]. intros Hu. rewrite <-drop_drop, Hu. apply drop_app_length.
Qed.

Lemma read_exact_there p v b rest :
  unread p v = b ++ rest → read_exact (length b) p v = Some (Ok b, advance (length b) p, []).
Proof.
  intros Hu. unfold read_exact. rewrite Hu, (proj2 (Nat.leb_le _ _)) by (rewrite length_app; lia).
  by rewrite take_app_length.
Qed.

(** A frame is read in two steps, its length first. *)
Lemma read_frame_there p v m rest :
  unread p v = frame m ++ rest → Z.of_nat (length m) ≤ MAX_CTRL_FRAME →
  let lb := u32_to_be_bytes (Z.of_nat (length m)) in
  read_exact 4 p v = Some (Ok lb, advance 4 p, []) ∧ u32_from_be_bytes lb = Z.of_nat (length m) ∧
  read_exact (length m) (advance 4 p) v = Some (Ok m, advance (length (frame m)) p, []).
Proof.
  intros Hu Hm lb. unfold frame in Hu. rewrite <-app_assoc in Hu. fold lb in Hu.
  assert (Hl : length lb = 4%nat) by apply length_u32_to_be_bytes.
  split_and!.
  - rewrite <-Hl. by eapply read_exact_there.
  - apply u32_from_to_be. unfold MAX_CTRL_FRAME, U32_MAX in *. lia.
  - apply unread_advance in Hu. rewrite Hl in Hu. rewrite (read_exact_there _ _ m rest Hu).
    assert (Hf : length (frame m) = (4 + length m)%nat) by (unfold frame; by rewrite length_app, length_u32_to_be_bytes).
    unfold advance. cbn [p_read p_heads]. by rewrite Hf, Nat.add_assoc.
Qed.

(** The next request or response. *)
Definition bump (p : pos) : pos := Pos (p_read p) (S (p_heads p)).

Lemma next_head_there p v path :
  heads (v_log v) !! p_heads p = Some path → next_head p v = Some (Some path, bump p, []).
Proof. intros Hh. unfold next_head. by rewrite Hh. Qed.

Section client_runs.
Context (cw : client_world) (alloc : Z → bool) (v : view item).
Context (alloc_ok : ∀ n, n ≤ MAX_CTRL_FRAME → alloc n = true).
Abbreviation runs_to := (goes (client_responds cw) client_seen v).

Lemma client_writes d p :
  Z.of_nat (length d) ≤ MAX_CTRL_FRAME → runs_to (k_write d) p [] (framed d) (Ret (Ok tt)) p.
Proof.
  intros Hd. unfold k_write, ctrl_write. rewrite (proj2 (Z.leb_le _ _) Hd).
  do 2 (eapply goes_step; [reflexivity..|]). apply goes_refl.
Qed.

Lemma client_reads m rest p :
  unread p v = frame m ++ rest → Z.of_nat (length m) ≤ MAX_CTRL_FRAME →
  runs_to (k_read alloc) p [] [] (Ret (Ok m)) (advance (length (frame m)) p).
Proof.
  intros Hu Hm. destruct (read_frame_there p v m rest Hu Hm) as (H1 & H2 & H3).
  unfold k_read, ctrl_read. eapply goes_step; [exact H1|reflexivity..|]. cbn [prog_bind call]. rewrite H2.
  rewrite (proj2 (Z.ltb_ge _ _)) by done. rewrite (alloc_ok _ Hm), Nat2Z.id. cbn [negb].
  eapply goes_step; [exact H3|reflexivity..|]. apply goes_refl.
Qed.

(** The relay finished the stream without a frame. *)
Lemma client_reads_eof p :
  unread p v = [] → finished (v_log v) = true →
  runs_to (k_read alloc) p [] [] (Ret (Err (CtrlFailed (CtrlIo UnexpectedEof)))) p.
Proof.
  intros Hu Hf.
  assert (He : read_exact 4 p v = Some (Err UnexpectedEof, p, [])) by (unfold read_exact; by rewrite Hu, Hf).
  unfold k_read, ctrl_read. eapply goes_step; [exact He|reflexivity..|]. apply goes_refl.
Qed.

Lemma client_deadline d p : runs_to (k_expired d) p [] [] (Ret None) p.
Proof. eapply goes_step; [reflexivity..|]. apply goes_refl. Qed.
End client_runs.

Section relay_runs.
Context (w : world) (alloc : Z → bool) (v : view item).
Context (alloc_ok : ∀ n, n ≤ MAX_CTRL_FRAME → alloc n = true).
Abbreviation runs_to := (goes (relay_responds w) observe v).

Lemma relay_deadline d p : runs_to (expired d) p [] [] (Ret None) p.
Proof. eapply goes_step; [reflexivity..|]. apply goes_refl. Qed.

Lemma relay_timeout {A} d (q q' : prog relay A) p p' xs us :
  runs_to q p xs us q' p' → runs_to (timeout d q) p xs us (timeout d q') p'.
Proof. intros Hq. apply goes_bind, goes_interrupt; [intros p0; apply relay_deadline|exact Hq]. Qed.

Lemma relay_in_time {A} d (q : prog relay A) a p p' xs us :
  runs_to q p xs us (Ret a) p' → runs_to (timeout d q) p xs us (Ret (Some a)) p'.
Proof. apply (relay_timeout d q (Ret a)). Qed.

Lemma relay_writes d p :
  Z.of_nat (length d) ≤ MAX_CTRL_FRAME →
  runs_to (ctrl_write (λ d, call (I := relay) (QWriteAll d)) d) p [] (framed d) (Ret (Ok tt)) p.
Proof.
  intros Hd. unfold ctrl_write. rewrite (proj2 (Z.leb_le _ _) Hd).
  do 2 (eapply goes_step; [reflexivity..|]). apply goes_refl.
Qed.

Lemma relay_reads m rest p :
  unread p v = frame m ++ rest → Z.of_nat (length m) ≤ MAX_CTRL_FRAME →
  runs_to (read_ctrl alloc) p [] [] (Ret (Ok m)) (advance (length (frame m)) p).
Proof.
  intros Hu Hm. destruct (read_frame_there p v m rest Hu Hm) as (H1 & H2 & H3).
  unfold read_ctrl, ctrl_read. eapply goes_step; [exact H1|reflexivity..|]. cbn [prog_bind call]. rewrite H2.
  rewrite (proj2 (Z.ltb_ge _ _)) by done. rewrite (alloc_ok _ Hm), Nat2Z.id. cbn [negb].
  eapply goes_step; [exact H3|reflexivity..|]. apply goes_refl.
Qed.
End relay_runs.

Lemma frame_nonempty m rest : [] = frame m ++ rest → False.
Proof.
  intros E%(f_equal length). unfold frame in E. rewrite !length_app, length_u32_to_be_bytes in E.
  simpl in E. lia.
Qed.

(** A certificate from [build_connection] passes both auth handlers. *)
Section admitted.
Context `{CryptoOk, !Yasna, !YasnaOk, !CertGen, !CertGenOk, !TlsLibs}.
Context (w : world) (v : view item) (ctx : ListenerCtx) (agent identity : TunnelKey) (suffix : string)
  (ext : option bytes) (staging csr : bool) (conn : Connection).
Context (Hbuilt : build_connection agent identity suffix ext staging csr = Ok conn).
Context (Hadmit : handler_admits w ctx agent ext conn).

Lemma auth_handlers_admit p :
  goes (relay_responds w) observe v (quic_auth_handler ctx (wd_cert w)) p [] [] (Ret (Some None)) p ∧
  goes (relay_responds w) observe v (h2_auth_handler ctx (wd_cert w)) p [] [] (Ret (Some None)) p.
Proof.
  destruct (built_cert_fields _ _ _ _ _ _ _ Hbuilt) as [Hpk Hext]. destruct Hadmit as [-> Hh].
  unfold quic_auth_handler, h2_auth_handler. destruct (has_auth_handler ctx); [|split; apply goes_refl].
  rewrite Hpk, Hext.
  split; (eapply goes_step; [reflexivity..|]); cbn; rewrite Hh by done; apply goes_refl.
Qed.
End admitted.
