(* ===== verification/QuicExchange.v ===== *)
(** * QuicExchange.v: client and relay together, on QUIC

    The client's [quic_loop_inner] (ClientExchange.v) and the relay's
    [handle_quic_connection] (Relay.v) on one connection (Session.v), scheduled in any
    order. One schedule is followed to its end, in turns: the client announces itself, the
    relay checks it and answers, and so on; that every other schedule ends in the same state
    is Duplex.v's. *)

From S2P Require Import Prelude Async Duplex RustStr CertProvisioner Framing Registry Admission Key.
From S2P Require Import ClientTls Identity Relay ClientExchange Session.
Open Scope string_scope.
Open Scope Z_scope.
Open Scope list_scope.
Open Scope tunnel_scope.

(** A client whose loop has returned has dropped its connection. *)
Definition quic_gone (_ : result client_error unit) : bool := true.

(** What the client has written when it has announced its key authorization. *)
Definition announced (conn : Connection) (sig : bytes) (ka : string) : list item :=
  framed (as_bytes (domain conn)) ++ framed sig ++ framed (as_bytes ka).

(** ** The client's turns *)

Section client.
Context `{Crypto} (cw : client_world) (alloc : Z → bool) (parse : string → option (list bytes)).
Context (target : string) (conn : Connection) (sig : bytes) (prov : bool).
Context (alloc_ok : ∀ n, n ≤ MAX_CTRL_FRAME → alloc n = true).
Abbreviation runs_to := (goes (client_responds cw) client_seen).

(** What follows the frames of a challenge. *)
Definition after_chain (r : result client_error (list bytes)) : prog cli (result client_error unit) :=
  match r with
  | Ok certs => quic_await_accepted target conn prov certs
  | Err e => Ret (Err e)
  end.
Definition after_pem (r : result client_error string) : prog cli (result client_error (list bytes)) :=
  match r with
  | Ok pem => Ret (ok_or BadChain (parse pem))
  | Err e => Ret (Err e)
  end.
Definition after_ack (leader : bool) (r : result client_error bytes) : prog cli (result client_error string) :=
  match r with
  | Ok _ => quic_acknowledged conn leader
  | Err e => Ret (Err e)
  end.
Definition awaiting_ack (leader : bool) : prog cli (result client_error unit) :=
  prog_bind after_chain (prog_bind after_pem (prog_bind (after_ack leader) (k_read alloc))).

Context (Hsig : sign_recoverable (identity_keypair conn) (as_bytes (domain conn)) = Ok sig).
Context (Hdomain : Z.of_nat (length (as_bytes (domain conn))) ≤ MAX_CTRL_FRAME).
Context (Hsiglen : Z.of_nat (length sig) ≤ MAX_CTRL_FRAME).

Lemma client_introduces v p us q q' :
  runs_to v (prog_bind after_chain (quic_tunnel_certs alloc parse conn prov)) p [] us q q' →
  runs_to v (quic_loop_inner alloc parse target conn prov) p []
    (framed (as_bytes (domain conn)) ++ framed sig ++ us) q q'.
Proof.
  intros Hq. unfold quic_loop_inner. eapply goes_step; [reflexivity..|]. cbn [prog_bind negb].
  eapply goes_seq; [by apply client_writes|reflexivity..|]. rewrite Hsig.
  eapply goes_seq; [by apply client_writes|reflexivity..|]. exact Hq.
Qed.

(** A session that announces no challenge. *)
Lemma client_announces_none v p certs :
  prov = false ∧ certs = [agent_cert conn] ∨
  prov = true ∧ (∃ pem, cw_prepare cw = Some (Cached pem) ∧ parse pem = Some certs) →
  runs_to v (quic_loop_inner alloc parse target conn prov) p [] (announced conn sig "")
    (quic_await_accepted target conn prov certs) p.
Proof.
  assert (H0 : Z.of_nat (length (@nil byte)) ≤ MAX_CTRL_FRAME) by (vm_compute; discriminate).
  intros Hplan. apply client_introduces. unfold quic_tunnel_certs.
  destruct Hplan as [[E%negb_true_iff ->]|[E%negb_false_iff (pem & Hp & Hc)]]; rewrite E.
  - eapply goes_seq; [eapply goes_seq; [by apply client_writes|reflexivity..|apply goes_refl]|reflexivity..|].
    apply goes_refl.
  - apply (goes_bind _ _ _ _ (Ret (Ok certs))).
    eapply goes_step; [reflexivity..|]. cbn [prog_bind]. rewrite Hp.
    eapply goes_seq; [eapply goes_seq; [by apply client_writes|reflexivity..|apply goes_refl]|reflexivity..|].
    cbv beta iota. rewrite Hc. apply goes_refl.
Qed.

(** One that announces [ka] waits for the acknowledgement. *)
Lemma client_announces v p (leader : bool) ka :
  prov = true → Z.of_nat (length (as_bytes ka)) ≤ MAX_CTRL_FRAME →
  cw_prepare cw = Some (if leader then LeaderChallenge ka else FollowerChallenge ka) →
  runs_to v (quic_loop_inner alloc parse target conn prov) p [] (announced conn sig ka)
    (awaiting_ack leader) p.
Proof.
  intros E%negb_false_iff Hka Hp. apply client_introduces. unfold awaiting_ack. apply goes_bind.
  unfold quic_tunnel_certs. rewrite E. eapply goes_step; [reflexivity..|]. cbn [prog_bind]. rewrite Hp.
  assert (Hq : runs_to v (quic_challenge alloc conn leader ka) p [] (framed (as_bytes ka))
                 (prog_bind (after_ack leader) (k_read alloc)) p).
  { unfold quic_challenge. eapply goes_step; [reflexivity..|]. cbn [prog_bind negb].
    eapply goes_seq; [by apply client_writes|reflexivity..|]. apply goes_refl. }
  destruct leader; by apply goes_bind.
Qed.

(** Acknowledged, it finishes the challenge and reports done. *)
Lemma client_acknowledged v p (leader : bool) pem certs fin rest :
  unread p v = frame (as_bytes "ack") ++ rest →
  cw_cert cw = Some pem → parse pem = Some certs →
  (if leader then ∃ csr, csr_der conn = Some csr ∧ fin = [Finalizes (domain conn) csr] else fin = []) →
  runs_to v (awaiting_ack leader) p fin (framed (as_bytes "done"))
    (quic_await_accepted target conn prov certs) (advance 7 p).
Proof.
  intros Hu Hcert Hc Hfin. unfold awaiting_ack.
  assert (Hserve : ∀ n q, runs_to v (quic_serve_challenges_until (replicate n true) (Some pem)) q [] []
            (Ret (Ok pem)) q).
  { intros n q. induction n as [|n IH]; [apply goes_refl|]. eapply goes_step; [reflexivity..|]. exact IH. }
  assert (Hspawn : ∀ q, runs_to v (spawn_finalize (domain conn) (csr_der conn) leader) q fin [] (Ret (Ok tt)) q).
  { intros q. unfold spawn_finalize. destruct leader; [destruct Hfin as (c & -> & ->)|rewrite Hfin; apply goes_refl].
    eapply goes_step; [reflexivity..|]. apply goes_refl. }
  assert (Hack : runs_to v (quic_acknowledged conn leader) (advance 7 p) fin (framed (as_bytes "done"))
            (Ret (Ok pem)) (advance 7 p)).
  { unfold quic_acknowledged. eapply goes_seq; [apply Hspawn|by rewrite app_nil_r|reflexivity|].
    eapply goes_step; [reflexivity..|]. cbn [prog_bind fst snd]. rewrite Hcert.
    eapply goes_seq; [apply Hserve|reflexivity..|].
    eapply goes_seq; [apply client_writes; vm_compute; discriminate|reflexivity..|]. apply goes_refl. }
  apply (goes_bind _ _ _ _ (Ret (Ok certs))).
  assert (Hpem : after_pem (Ok pem) = Ret (Ok certs)) by (cbn; by rewrite Hc). rewrite <-Hpem.
  apply (goes_bind _ _ _ _ (Ret (Ok pem))).
  eapply goes_seq; [apply (client_reads _ _ _ alloc_ok _ _ _ Hu); vm_compute; discriminate|reflexivity..|].
  exact Hack.
Qed.

(** Accepted, it comes up and forwards what arrives. *)
Lemma client_accepted v p certs :
  finished (v_log v) = true → unread p v = [] → v_ended v ≠ None →
  ∃ p', runs_to v (quic_await_accepted target conn prov certs) p
    (session_acts certs (if prov then identity_keypair conn else agent_keypair conn) target (cw_streams cw)) []
    (Ret (Ok tt)) p'.
Proof.
  intros Hf Hu He. eexists. unfold quic_await_accepted.
  assert (Hend : read_to_end MAX_CTRL_FRAME p v = Some (true, Pos (length (stream_bytes (v_log v))) (p_heads p), []))
    by (unfold read_to_end; by rewrite Hf, Hu).
  eapply goes_seq.
  { eapply (goes_interrupt _ _ _ _ _ (Ret true)); [intros; apply client_deadline|].
    eapply goes_step; [exact Hend|symmetry; apply app_nil_r..|apply goes_refl]. }
  1, 2: reflexivity.
  cbn [build_tls_acceptor]. unfold quic_up, session_acts. set (key := if prov then _ else _).
  do 2 (eapply goes_step; [reflexivity..|]; cbn [prog_bind]).
  eapply goes_step; [cbn [client_responds]; by rewrite bool_decide_false|reflexivity..|]. cbn [fst snd].
  induction (cw_streams cw) as [|[] evs IH]; [apply goes_refl| |exact IH].
  eapply goes_step; [reflexivity..|]. exact IH.
Qed.
End client.

(** ** The relay's turns *)

Section relay.
Context `{CryptoOk, !Yasna, !YasnaOk, !CertGen, !CertGenOk, !TlsLibs}.
Context (w : world) (alloc : Z → bool) (ctx : ListenerCtx).
Context (alloc_ok : ∀ n, n ≤ MAX_CTRL_FRAME → alloc n = true).
Abbreviation runs_to := (goes (relay_responds w) observe).

(** What follows the challenge. *)
Definition after_challenge (id : string) (r : option unit) : prog relay (option unit) :=
  match r with
  | None => Ret None
  | Some _ => quic_register ctx id
  end.
Definition awaiting_done (id : string) : prog relay (option unit) :=
  prog_bind (after_challenge id) (quic_acme_done alloc id (wd_token w)).

(** No challenge: accepted at once. *)
Lemma relay_serves_none v p id rest :
  unread p v = frame [] ++ rest →
  runs_to v (quic_serve alloc ctx id) p (relay_acts "" id (AgentQuic (this_conn ctx))) [Fin]
    (Ret (Some tt)) (advance 4 p).
Proof.
  intros Hu. unfold quic_serve. eapply goes_step; [reflexivity..|]. cbn [prog_bind].
  eapply goes_seq; [apply relay_in_time, (relay_reads _ _ _ alloc_ok _ _ _ Hu); vm_compute; discriminate|reflexivity..|].
  do 2 (eapply goes_step; [reflexivity..|]). apply goes_refl.
Qed.

(** A challenge: it is entered and acknowledged. *)
Lemma relay_acknowledges v p id ka rest :
  ka ≠ [] → Z.of_nat (length ka) ≤ MAX_CTRL_FRAME → unread p v = frame ka ++ rest →
  runs_to v (quic_serve alloc ctx id) p [PermitReturned; ChallengeOpened id] (framed (as_bytes "ack"))
    (awaiting_done id) (advance (length (frame ka)) p).
Proof.
  intros Hne Hka Hu. unfold quic_serve. eapply goes_step; [reflexivity..|]. cbn [prog_bind].
  eapply goes_seq; [eapply relay_in_time, relay_reads; done|reflexivity..|].
  cbn -[quic_acme_wait framed awaiting_done]. rewrite bool_decide_false by done. unfold awaiting_done.
  apply (goes_bind _ _ _ _ (quic_acme_done alloc id (wd_token w))).
  unfold quic_acme_wait. eapply goes_step; [reflexivity..|]. cbn [prog_bind].
  eapply goes_seq; [apply relay_writes; vm_compute; discriminate|reflexivity..|]. apply goes_refl.
Qed.

Lemma relay_done v p id rest :
  unread p v = frame (as_bytes "done") ++ rest →
  runs_to v (awaiting_done id) p [ChallengeClosed id; Registered id (AgentQuic (this_conn ctx))] [Fin]
    (Ret (Some tt)) (advance 8 p).
Proof.
  intros Hu. unfold awaiting_done. eapply (goes_seq _ _ _ _ _ _ _ _ _ _ [ChallengeClosed id] []).
  - unfold quic_acme_done.
    eapply goes_seq; [apply (relay_reads _ _ _ alloc_ok _ _ _ Hu); vm_compute; discriminate|reflexivity..|].
    eapply goes_step; [reflexivity..|]. apply goes_refl.
  - reflexivity.
  - reflexivity.
  - do 2 (eapply goes_step; [reflexivity..|]). apply goes_refl.
Qed.

Context (agent identity : TunnelKey) (suffix : string) (ext : option bytes) (staging csr : bool).
Context (conn : Connection) (sig : bytes).
Context (Hbuilt : build_connection agent identity suffix ext staging csr = Ok conn).
Context (Halg : algorithm identity = EcdsaP256).
Context (Hsig : sign_recoverable identity (as_bytes (domain conn)) = Ok sig).
Context (Hadmit : handler_admits w ctx agent ext conn).
Context (Hutf8 : utf8 (domain conn)) (Hsuffix : suffix ∈ domain_suffixes ctx).
Context (Hdomain : Z.of_nat (length (as_bytes (domain conn))) ≤ MAX_CTRL_FRAME).

Lemma sig_fits : Z.of_nat (length sig) ≤ MAX_CTRL_FRAME.
Proof.
  destruct (built_identity_accepted agent identity suffix ext staging csr conn sig Hbuilt Halg Hsig)
    as (_ & _ & _ & -> & _). vm_compute. discriminate.
Qed.

(** The relay past the identity checks. *)
Definition past_identity (p : pos) : pos :=
  advance (length (frame sig)) (advance (length (frame (as_bytes (domain conn)))) p).

Lemma relay_authenticates v p rest xs us q q' :
  unread p v = frame (as_bytes (domain conn)) ++ frame sig ++ rest →
  runs_to v (quic_serve alloc ctx (client_id conn)) (past_identity p) xs us q q' →
  runs_to v (handle_quic_connection alloc ctx) p xs us q q'.
Proof.
  intros Hu Hq.
  destruct (built_identity_accepted agent identity suffix ext staging csr conn sig Hbuilt Halg Hsig)
    as ((pk & Hpk & _) & Hid & _ & _ & Hall).
  pose proof (proj1 (auth_handlers_admit w v ctx agent identity suffix ext staging csr conn Hbuilt Hadmit p)) as Hh.
  pose proof (unread_advance _ _ _ _ Hu) as Hu2.
  assert (Hx : runs_to v (quic_authenticate alloc ctx None) p [] [] (Ret (Some (client_id conn))) (past_identity p)).
  { assert (Ha : relay_responds w QAcceptBi p v = Some (true, p, [])).
    { cbn [relay_responds]. rewrite bool_decide_false; [done|]. intros E. unfold unread in Hu.
      rewrite E, drop_nil in Hu. destruct (frame_nonempty _ _ Hu). }
    unfold quic_authenticate. eapply goes_step; [exact Ha|reflexivity..|].
    unfold quic_auth_exchange. eapply goes_seq; [by eapply relay_reads|reflexivity..|].
    cbv beta iota. rewrite from_utf8_as_bytes by done.
    eapply goes_seq; [eapply relay_reads; [done|exact Hu2|apply sig_fits]|reflexivity..|].
    cbv beta iota. rewrite Hpk, Hid, (Hall _ Hsuffix). apply goes_refl. }
  unfold handle_quic_connection. do 2 (eapply goes_step; [reflexivity..|]). cbn [prog_bind negb].
  cbn [answer fst first_cert mbind option_bind head].
  eapply goes_seq; [exact Hh|reflexivity..|].
  eapply goes_seq; [apply relay_in_time, Hx|reflexivity..|]. exact Hq.
Qed.
End relay.

(** ** The two halves together *)

Lemma stream_announced conn sig ka l :
  stream_bytes (announced conn sig ka ++ l) =
  frame (as_bytes (domain conn)) ++ frame sig ++ frame (as_bytes ka) ++ stream_bytes l.
Proof. unfold announced. by rewrite <- !app_assoc, !stream_framed. Qed.

Section agree.
Context `{CryptoOk, !Yasna, !YasnaOk, !CertGen, !CertGenOk, !TlsLibs}.
Context (w : world) (alloc : Z → bool) (ctx : ListenerCtx).
Context (agent identity : TunnelKey) (suffix : string) (ext : option bytes) (staging csr : bool).
Context (conn : Connection) (sig : bytes) (target : string).
Context (alloc_ok : ∀ n, n ≤ MAX_CTRL_FRAME → alloc n = true).
Context (Hbuilt : build_connection agent identity suffix ext staging csr = Ok conn).
Context (Halg : algorithm identity = EcdsaP256).
Context (Hsig : sign_recoverable identity (as_bytes (domain conn)) = Ok sig).
Context (Hadmit : handler_admits w ctx agent ext conn).
Context (Hutf8 : utf8 (domain conn)) (Hsuffix : suffix ∈ domain_suffixes ctx).
Context (Hdomain : Z.of_nat (length (as_bytes (domain conn))) ≤ MAX_CTRL_FRAME).
Context (cw : client_world) (parse : string → option (list bytes)).
Abbreviation client prov := (quic_loop_inner alloc parse target conn prov).
Abbreviation handler := (handle_quic_connection alloc ctx).
Abbreviation id := (client_id conn).

Lemma client_material :
  sign_recoverable (identity_keypair conn) (as_bytes (domain conn)) = Ok sig ∧
  Z.of_nat (length sig) ≤ MAX_CTRL_FRAME.
Proof.
  split; [by rewrite (proj1 (built_keys _ _ _ _ _ _ _ Hbuilt))|by eapply sig_fits].
Qed.

(** The relay's first turn, on what the client announced. *)
Lemma relay_turn ka xs us q q' :
  goes (relay_responds w) observe (View (announced conn sig ka) None) (quic_serve alloc ctx id)
    (past_identity conn sig (Pos 0 0)) xs us q q' →
  goes (relay_responds w) observe (View (announced conn sig ka) None) handler (Pos 0 0) xs us q q'.
Proof.
  intros Hq. assert (Hu : unread (Pos 0 0) (View (announced conn sig ka) None) =
    frame (as_bytes (domain conn)) ++ frame sig ++ frame (as_bytes ka) ++ []) by done.
  by eapply relay_authenticates.
Qed.

Lemma past_identity_unread ka more :
  unread (past_identity conn sig (Pos 0 0)) (View (announced conn sig ka ++ more) None) =
  frame (as_bytes ka) ++ stream_bytes more.
Proof.
  unfold past_identity. apply unread_advance, unread_advance. unfold unread. cbn [p_read v_log].
  by rewrite stream_announced, drop_0.
Qed.

(** The client's last turn, once the relay has registered it. *)
Lemma client_turn prov certs us p fin robs rlog rp :
  unread p (View (rlog ++ [Fin]) (Some false)) = [] →
  ∃ p', rtc (session_step quic_gone w cw)
    (Half fin (quic_await_accepted target conn prov certs) us p, Half robs (Ret (Some tt)) (rlog ++ [Fin]) rp)
    (Half (fin ++ session_acts certs (if prov then identity else agent) target (cw_streams cw))
       (Ret (Ok tt)) us p', Half robs (Ret (Some tt)) (rlog ++ [Fin]) rp).
Proof.
  intros Hu. destruct (built_keys _ _ _ _ _ _ _ Hbuilt) as (Hid & Hag & _).
  destruct (client_accepted cw target conn prov (View (rlog ++ [Fin]) (Some false)) p certs) as [p' Hc]; [|done|done|].
  { unfold finished. cbn [v_log]. rewrite existsb_app. apply orb_true_r. }
  exists p'. rewrite <-Hid, <-Hag. apply duplex_left. specialize (Hc fin us). by rewrite app_nil_r in Hc.
Qed.

(** One schedule of a session without a challenge. *)
Lemma schedule_none prov certs :
  prov = false ∧ certs = [agent_cert conn] ∨
  prov = true ∧ (∃ pem, cw_prepare cw = Some (Cached pem) ∧ parse pem = Some certs) →
  ∃ us p rp, rtc (session_step quic_gone w cw) (connected (client prov) handler)
    (Half (session_acts certs (if prov then identity else agent) target (cw_streams cw)) (Ret (Ok tt)) us p,
     Half (relay_acts "" id (AgentQuic (this_conn ctx))) (Ret (Some tt)) [Fin] rp).
Proof.
  intros Hplan. destruct client_material as [Hs Hl].
  pose proof (client_announces_none cw alloc parse target conn sig prov Hs Hdomain Hl (View [] None) (Pos 0 0)
                certs Hplan [] []) as HC. cbn [app] in HC.
  pose proof (past_identity_unread "" []) as Hu. rewrite app_nil_r in Hu.
  pose proof (relay_turn "" _ _ _ _ (relay_serves_none w alloc ctx alloc_ok _ _ id _ Hu) [] []) as HR.
  destruct (client_turn prov certs (announced conn sig "") (Pos 0 0) []
              (relay_acts "" id (AgentQuic (this_conn ctx))) [] (advance 4 (past_identity conn sig (Pos 0 0))))
    as [p' HC2]; [done|].
  eexists _, p', _. etrans; [eapply duplex_left; exact HC|]. etrans; [eapply duplex_right; exact HR|]. exact HC2.
Qed.

(** One with a challenge. *)
Lemma schedule_challenge (leader : bool) ka pem certs fin :
  ka ≠ "" → Z.of_nat (length (as_bytes ka)) ≤ MAX_CTRL_FRAME →
  cw_prepare cw = Some (if leader then LeaderChallenge ka else FollowerChallenge ka) →
  cw_cert cw = Some pem → parse pem = Some certs →
  (if leader then ∃ c, csr_der conn = Some c ∧ fin = [Finalizes (domain conn) c] else fin = []) →
  ∃ us p log rp, rtc (session_step quic_gone w cw) (connected (client true) handler)
    (Half (fin ++ session_acts certs identity target (cw_streams cw)) (Ret (Ok tt)) us p,
     Half (relay_acts ka id (AgentQuic (this_conn ctx))) (Ret (Some tt)) log rp).
Proof.
  intros Hne Hka Hp Hcert Hc Hfin. destruct client_material as [Hs Hl].
  assert (Hb : as_bytes ka ≠ []) by (by destruct ka).
  pose proof (client_announces cw alloc parse target conn sig true Hs Hdomain Hl (View [] None) (Pos 0 0)
                leader ka eq_refl Hka Hp [] []) as HC.
  pose proof (past_identity_unread ka []) as Hu. rewrite app_nil_r in Hu.
  pose proof (relay_turn ka _ _ _ _ (relay_acknowledges w alloc ctx alloc_ok _ _ id _ _ Hb Hka Hu) [] []) as HR.
  pose proof (client_acknowledged cw alloc parse target conn true alloc_ok (View (framed (as_bytes "ack")) None)
                (Pos 0 0) leader pem certs fin [] eq_refl Hcert Hc Hfin [] (announced conn sig ka)) as HC2.
  pose proof (unread_advance _ _ _ _ (past_identity_unread ka (framed (as_bytes "done")))) as Hu2.
  rewrite <-(app_nil_r (framed (as_bytes "done"))), stream_framed in Hu2.
  pose proof (relay_done w alloc ctx alloc_ok (View (announced conn sig ka ++ framed (as_bytes "done") ++ []) None) _ id _ Hu2
                [PermitReturned; ChallengeOpened id] (framed (as_bytes "ack"))) as HR2.
  rewrite app_nil_r in HR2.
  destruct (client_turn true certs (announced conn sig ka ++ framed (as_bytes "done")) (advance 7 (Pos 0 0)) fin
              ([PermitReturned; ChallengeOpened id] ++ [ChallengeClosed id; Registered id (AgentQuic (this_conn ctx))])
              (framed (as_bytes "ack"))
              (advance 8 (advance (length (frame (as_bytes ka))) (past_identity conn sig (Pos 0 0)))))
    as [p' HC3]; [done|].
  assert (Hacts : relay_acts ka id (AgentQuic (this_conn ctx)) = [PermitReturned; ChallengeOpened id] ++
            [ChallengeClosed id; Registered id (AgentQuic (this_conn ctx))])
    by (unfold relay_acts, challenge_phase; by rewrite bool_decide_false).
  rewrite Hacts. eexists _, p', _, _.
  etrans; [eapply duplex_left; exact HC|]. etrans; [eapply duplex_right; exact HR|].
  etrans; [eapply duplex_left; exact HC2|]. etrans; [eapply duplex_right; exact HR2|]. exact HC3.
Qed.

(** A leader without a challenge to announce waits for an acknowledgement that does not
    come. *)
Lemma schedule_valid :
  cw_prepare cw = Some (LeaderChallenge "") →
  ∃ us p rp, rtc (session_step quic_gone w cw) (connected (client true) handler)
    (Half [] (Ret (Err (CtrlFailed (CtrlIo UnexpectedEof)))) us p,
     Half (relay_acts "" id (AgentQuic (this_conn ctx))) (Ret (Some tt)) [Fin] rp).
Proof.
  intros Hp. destruct client_material as [Hs Hl].
  assert (Hempty : Z.of_nat (length (as_bytes "")) ≤ MAX_CTRL_FRAME) by (vm_compute; discriminate).
  pose proof (client_announces cw alloc parse target conn sig true Hs Hdomain Hl (View [] None) (Pos 0 0)
                true "" eq_refl Hempty Hp [] []) as HC.
  pose proof (past_identity_unread "" []) as Hu. rewrite app_nil_r in Hu.
  pose proof (relay_turn "" _ _ _ _ (relay_serves_none w alloc ctx alloc_ok _ _ id _ Hu) [] []) as HR.
  assert (HC2 : goes (client_responds cw) client_seen (View [Fin] (Some false))
            (awaiting_ack alloc parse target conn true true) (Pos 0 0) [] []
            (Ret (Err (CtrlFailed (CtrlIo UnexpectedEof)))) (Pos 0 0)).
  { apply (goes_bind _ _ _ _ (Ret (Err (CtrlFailed (CtrlIo UnexpectedEof)))) (after_chain target conn true)),
      (goes_bind _ _ _ _ (Ret (Err (CtrlFailed (CtrlIo UnexpectedEof)))) (after_pem parse)),
      (goes_bind _ _ _ _ (Ret (Err (CtrlFailed (CtrlIo UnexpectedEof)))) (after_ack conn true)).
    by apply client_reads_eof. }
  specialize (HC2 [] (announced conn sig "")). rewrite app_nil_r in HC2.
  eexists _, _, _. etrans; [eapply duplex_left; exact HC|]. etrans; [eapply duplex_right; exact HR|].
  eapply duplex_left. exact HC2.
Qed.

(** One schedule of any session. *)
Lemma quic_schedule prov ka certs fin :
  session_plan parse conn cw prov ka certs fin → Z.of_nat (length (as_bytes ka)) ≤ MAX_CTRL_FRAME →
  ∃ us p log rp, rtc (session_step quic_gone w cw) (connected (client prov) handler)
    (Half (fin ++ session_acts certs (if prov then identity else agent) target (cw_streams cw)) (Ret (Ok tt)) us p,
     Half (relay_acts ka id (AgentQuic (this_conn ctx))) (Ret (Some tt)) log rp).
Proof.
  intros Hp Hka.
  destruct Hp as [|pem certs Hpr Hc|ka pem c certs Hpr Hcsr Hcert Hc Hne|ka pem certs Hpr Hcert Hc Hne].
  - destruct (schedule_none false [agent_cert conn]) as (us & p & rp & Hr); [by left|]. eauto.
  - destruct (schedule_none true certs) as (us & p & rp & Hr); [by eauto 6|]. eauto.
  - apply (schedule_challenge true ka pem certs); eauto.
  - by apply (schedule_challenge false ka pem certs).
Qed.


(** C24: over QUIC, an ACME order whose authorizations are still valid cannot be completed
    through the tunnel. [prepare] then leads with an empty key authorization, which on the
    wire means that no challenge is needed: however the two are scheduled, the relay
    registers the client and finishes the control stream, while the client waits for an
    acknowledgement, fails on the end of the stream and has let nothing be finalized. *)
Theorem valid_authorization_breaks_session authzs ka url :
  Forall (λ a, ∃ x, a = Some x ∧ authz_valid x = true) authzs →
  order_challenge authzs "" "" = Some (ka, url) →
  cw_prepare cw = Some (LeaderChallenge ka) →
  ∃ n c r, settles (session_step quic_gone w cw) (connected (client true) handler) n (c, r) ∧
    h_prog c = Ret (Err (CtrlFailed (CtrlIo UnexpectedEof))) ∧ h_seen c = [] ∧
    h_prog r = Ret (Some tt) ∧
    h_seen r = [PermitReturned; Registered id (AgentQuic (this_conn ctx))].
Proof.
  intros Hv Ho Hprep. rewrite (order_challenge_valid _ _ _ Hv) in Ho. injection Ho as <- _.
  destruct (schedule_valid Hprep) as (us & p & rp & Hr).
  destruct (duplex_settles _ _ _ _ _ _ (client_monotone cw) (relay_monotone w) _ _ _ Hr) as [n Hn]; [done|done|].
  by eexists n, _, _.
Qed.
End agree.

Section witnesses.
Import ToyKey ToyTls ToyCrypto.

Definition toy_plan : client_world :=
  ClientWorld (Some (FollowerChallenge "ka")) 1 (Some "PEM") 0 [NewStream; PipeFinished; NewStream].
Definition toy_parse (pem : string) : option (list bytes) := Some [as_bytes pem].

Lemma toy_admitted : handler_admits toy_world toy_ctx agent_key None conn.
Proof. split; [reflexivity|]. intros _. reflexivity. Qed.


Lemma valid_authorization_breaks_session_witness :
  ∃ n c r, settles (session_step quic_gone toy_world (ClientWorld (Some (LeaderChallenge "")) 0 (Some "PEM") 0 []))
      (connected (quic_loop_inner toy_alloc toy_parse "127.0.0.1:3000" conn true)
                 (handle_quic_connection toy_alloc toy_ctx)) n (c, r) ∧
    h_prog c = Ret (Err (CtrlFailed (CtrlIo UnexpectedEof))) ∧ h_seen c = [].
Proof.
  destruct (valid_authorization_breaks_session toy_world toy_alloc toy_ctx agent_key identity_key
    "example.com" None false false conn conn_sig "127.0.0.1:3000" toy_alloc_ok) with
    (cw := ClientWorld (Some (LeaderChallenge "")) 0 (Some "PEM") 0 []) (parse := toy_parse)
    (authzs := [Some (MkAuthz true None)]) (ka := "") (url := "") as (n & c & r & Hs & Hp & Ha & _);
    [vm_compute; reflexivity|reflexivity|vm_compute; reflexivity|exact toy_admitted|vm_compute; reflexivity
    |by left|vm_compute; discriminate|constructor; [by eexists|constructor]|reflexivity|reflexivity|].
  exists n, c, r. split; [exact Hs|]. split; [exact Hp|exact Ha].
Defined.
End witnesses.
