(* ===== verification/H2Exchange.v ===== *)
(** * H2Exchange.v: client and relay together, on H2

    On H2 the relay is the HTTP/2 client: it asks ([/_ctrl/domain], [/_ctrl/sig],
    [/_ctrl/key_auth], [/_ctrl/done]) and the tunnel client answers. The two halves
    ([h2_ctrl_exchange] of ClientExchange.v, [handle_h2_connection] of Relay.v) run on one
    connection (Session.v), scheduled in any order. One schedule is followed to its end, in
    turns; that every other one ends in the same state is Duplex.v's. *)

From S2P Require Import Prelude Async Duplex RustStr CertProvisioner Framing Registry Admission Key.
From S2P Require Import ClientTls Identity Relay ClientExchange Session.
Open Scope string_scope.
Open Scope Z_scope.
Open Scope list_scope.
Open Scope tunnel_scope.

(** An answer with a body, and the relay's requests. *)
Definition answered (d : bytes) : list item := [Head "" false; Data d].
Definition asked (path : string) : list item := [Head path true].

(** A client whose exchange is over keeps its connection. *)
Definition exchange_failed {A} (r : result client_error A) : bool :=
  match r with Ok _ => false | Err _ => true end.

(** ** The client's turns *)

Section client.
Context `{Crypto} (cw : client_world) (parse : string → option (list bytes)) (from_utf8_lossy : bytes → string).
Context (conn : Connection) (sig : bytes) (prov : bool).
Abbreviation runs_to := (goes (client_responds cw) client_seen).

Lemma client_expects v p path :
  heads (v_log v) !! p_heads p = Some path → path ≠ CTRL_REJECT_PATH →
  runs_to v (accept_ctrl from_utf8_lossy) p [] [] (Ret (Ok path)) (bump p) ∧
  runs_to v (expect from_utf8_lossy path) p [] [] (Ret (Ok tt)) (bump p).
Proof.
  intros Hh Hne. assert (Ha : client_responds cw KAccept p v = Some (Some (Some path), bump p, [])).
  { cbn [client_responds]. by rewrite (next_head_there _ _ _ Hh). }
  assert (Hacc : runs_to v (accept_ctrl from_utf8_lossy) p [] [] (Ret (Ok path)) (bump p)).
  { unfold accept_ctrl. eapply goes_step; [exact Ha|reflexivity..|]. cbn [prog_bind].
    unfold check_reject. rewrite bool_decide_false by done. apply goes_refl. }
  split; [done|]. unfold expect. eapply goes_seq; [exact Hacc|reflexivity..|]. cbv beta iota.
  rewrite bool_decide_true by done. apply goes_refl.
Qed.

Lemma client_answers v d p : runs_to v (respond d) p [] (answered d) (Ret (Ok tt)) p.
Proof. unfold respond. do 2 (eapply goes_step; [reflexivity..|]). apply goes_refl. Qed.

Lemma client_answers_domain v p :
  heads (v_log v) !! p_heads p = Some "/_ctrl/domain" →
  runs_to v (h2_ctrl_exchange parse from_utf8_lossy conn prov) p [] (answered (as_bytes (domain conn)))
    (h2_answer_sig parse from_utf8_lossy conn prov) (bump p).
Proof.
  intros Hh. unfold h2_ctrl_exchange. eapply goes_seq; [by apply client_expects|reflexivity..|].
  eapply goes_seq; [apply client_answers|reflexivity..|]. apply goes_refl.
Qed.

Context (Hsig : sign_recoverable (identity_keypair conn) (as_bytes (domain conn)) = Ok sig).

Lemma client_answers_sig v p :
  heads (v_log v) !! p_heads p = Some "/_ctrl/sig" →
  runs_to v (h2_answer_sig parse from_utf8_lossy conn prov) p [] (answered sig)
    (h2_answer_key_auth parse from_utf8_lossy conn prov) (bump p).
Proof.
  intros Hh. unfold h2_answer_sig. eapply goes_seq; [by apply client_expects|reflexivity..|].
  rewrite Hsig. eapply goes_seq; [apply client_answers|reflexivity..|]. apply goes_refl.
Qed.

(** No challenge: the exchange is over. *)
Lemma client_answers_none v p certs :
  heads (v_log v) !! p_heads p = Some "/_ctrl/key_auth" →
  prov = false ∧ certs = [agent_cert conn] ∨
  prov = true ∧ (∃ pem, cw_prepare cw = Some (Cached pem) ∧ parse pem = Some certs) →
  runs_to v (h2_answer_key_auth parse from_utf8_lossy conn prov) p [] (answered []) (Ret (Ok certs)) (bump p).
Proof.
  intros Hh Hplan. unfold h2_answer_key_auth. eapply goes_seq; [by apply client_expects|reflexivity..|].
  destruct Hplan as [[E%negb_true_iff ->]|[E%negb_false_iff (pem & Hp & Hc)]]; cbv beta iota; rewrite E.
  - eapply goes_seq; [apply client_answers|reflexivity..|]. apply goes_refl.
  - eapply goes_step; [reflexivity..|]. cbn [prog_bind]. rewrite Hp.
    eapply goes_seq; [eapply goes_seq; [apply client_answers|reflexivity..|apply goes_refl]|reflexivity..|].
    cbv beta iota. rewrite Hc. apply goes_refl.
Qed.

(** What follows the certificate. *)
Definition h2_after_pem (r : result client_error string) : prog cli (result client_error (list bytes)) :=
  match r with
  | Ok pem => Ret (ok_or BadChain (parse pem))
  | Err e => Ret (Err e)
  end.
Definition awaiting_h2_done : prog cli (result client_error (list bytes)) :=
  prog_bind h2_after_pem (h2_challenge_loop from_utf8_lossy (S (cw_challenges cw + cw_rounds cw))).

(** A challenge: it is announced, a leader finalizes, and [/_ctrl/done] is awaited. *)
Lemma client_answers_challenge v p (leader : bool) ka fin :
  heads (v_log v) !! p_heads p = Some "/_ctrl/key_auth" → prov = true →
  cw_prepare cw = Some (if leader then LeaderChallenge ka else FollowerChallenge ka) →
  (if leader then ∃ csr, csr_der conn = Some csr ∧ fin = [Finalizes (domain conn) csr] else fin = []) →
  runs_to v (h2_answer_key_auth parse from_utf8_lossy conn prov) p fin (answered (as_bytes ka))
    awaiting_h2_done (bump p).
Proof.
  intros Hh E%negb_false_iff Hp Hfin. unfold h2_answer_key_auth.
  eapply goes_seq; [by apply client_expects|reflexivity..|]. cbv beta iota. rewrite E.
  eapply goes_step; [reflexivity..|]. cbn [prog_bind]. rewrite Hp.
  assert (Hspawn : ∀ q, runs_to v (spawn_finalize (domain conn) (csr_der conn) leader) q fin [] (Ret (Ok tt)) q).
  { intros q. unfold spawn_finalize. destruct leader; [destruct Hfin as (c & -> & ->)|rewrite Hfin; apply goes_refl].
    eapply goes_step; [reflexivity..|]. apply goes_refl. }
  assert (Hq : runs_to v (h2_challenge from_utf8_lossy (domain conn) (csr_der conn) leader ka) (bump p) fin
                 (answered (as_bytes ka)) (h2_challenge_loop from_utf8_lossy (S (cw_challenges cw + cw_rounds cw))) (bump p)).
  { unfold h2_challenge. eapply goes_step; [reflexivity..|]. cbn [prog_bind negb].
    eapply goes_seq; [apply client_answers|reflexivity..|].
    eapply goes_seq; [apply Hspawn|by rewrite app_nil_r|reflexivity|].
    eapply goes_step; [reflexivity..|]. apply goes_refl. }
  unfold awaiting_h2_done. destruct leader; by apply goes_bind.
Qed.

(** The challenge requests that arrive are served until the certificate is there. *)
Lemma client_serves_challenges v pem n q :
  cw_cert cw = Some pem → (cw_challenges cw - p_read q < n)%nat →
  ∃ q', runs_to v (h2_serve_challenges_until from_utf8_lossy n) q [] [] (Ret (Ok pem)) q'.
Proof.
  intros Hcert. revert q. induction n as [|n IH]; intros q Hn; [lia|].
  cbn [h2_serve_challenges_until]. destruct (Nat.ltb_spec (p_read q) (cw_challenges cw)) as [Hlt|Hge].
  - assert (Ha : client_responds cw KAcceptOrCert q v =
        Some (inl (Some (Some "/_ctrl/alpn")), Pos (S (p_read q)) (p_heads q), []))
      by (cbn [client_responds]; by rewrite (proj2 (Nat.ltb_lt _ _) Hlt)).
    destruct (IH (Pos (S (p_read q)) (p_heads q))) as [q' Hq]; [cbn [p_read]; lia|]. exists q'.
    eapply goes_step; [exact Ha|reflexivity..|]. cbn [prog_bind].
    do 2 (eapply goes_step; [reflexivity..|]; cbn [prog_bind]). exact Hq.
  - assert (Ha : client_responds cw KAcceptOrCert q v = Some (inr (cw_cert cw), q, []))
      by (cbn [client_responds]; by rewrite (proj2 (Nat.ltb_ge _ _) Hge)).
    exists q. eapply goes_step; [exact Ha|reflexivity..|]. cbn [prog_bind]. rewrite Hcert. apply goes_refl.
Qed.

(** [/_ctrl/done] is answered once the certificate is there. *)
Lemma client_answers_done v p pem certs :
  heads (v_log v) !! p_heads p = Some "/_ctrl/done" → cw_cert cw = Some pem → parse pem = Some certs →
  ∃ p', runs_to v awaiting_h2_done p [] [Head "" true] (Ret (Ok certs)) p'.
Proof.
  intros Hh Hcert Hc. unfold awaiting_h2_done.
  destruct (client_serves_challenges v pem (S (cw_challenges cw + cw_rounds cw)) (bump p) Hcert)
    as [q' Hserve]; [lia|]. exists q'.
  assert (Hpem : h2_after_pem (Ok pem) = Ret (Ok certs)) by (cbn; by rewrite Hc). rewrite <-Hpem.
  apply (goes_bind _ _ _ _ (Ret (Ok pem))). cbn [h2_challenge_loop].
  eapply goes_seq; [by apply client_expects|reflexivity..|]. cbv beta iota.
  rewrite bool_decide_false, bool_decide_true by done.
  eapply goes_step; [reflexivity..|]. cbn [prog_bind].
  eapply goes_seq; [apply Hserve|reflexivity..|].
  eapply goes_step; [reflexivity..|]. apply goes_refl.
Qed.
End client.

(** ** The relay's turns *)

Section relay.
Context `{CryptoOk, !Yasna, !YasnaOk, !CertGen, !CertGenOk, !TlsLibs}.
Context (w : world) (ctx : ListenerCtx) (agent identity : TunnelKey) (suffix : string)
  (ext : option bytes) (staging csr : bool) (conn : Connection) (sig : bytes).
Abbreviation runs_to := (goes (relay_responds w) observe).
Abbreviation id := (client_id conn).

Lemma relay_receives v p d :
  is_Some (heads (v_log v) !! p_heads p) → body_of (p_heads p) (v_log v) = Some [d] →
  Z.of_nat (length d) ≤ MAX_CTRL_FRAME →
  runs_to v h2_response p [] [] (Ret (Some d)) (bump p).
Proof.
  intros [path Hh] Hb Hd.
  assert (Hr1 : relay_responds w HResponse p v = Some (true, bump p, [])).
  { cbn [relay_responds]. by rewrite (next_head_there _ _ _ Hh). }
  assert (Hr2 : relay_responds w HBody (bump p) v = Some (Ok <$> [d], bump p, [])).
  { cbn [relay_responds]. unfold next_body. cbn [bump p_heads pred]. by rewrite Hb. }
  unfold h2_response. eapply goes_step; [exact Hr1|reflexivity..|]. cbn [prog_bind negb].
  eapply goes_step; [exact Hr2|reflexivity..|].
  pose proof (collect_h2_body_complete [d] MAX_CTRL_FRAME) as Hc. cbn [concat] in Hc. rewrite app_nil_r in Hc.
  rewrite Hc by done. apply goes_refl.
Qed.

(** What the relay is at while it waits for the domain, the signature, the key
    authorization and the answer to [/_ctrl/done]. *)
Definition awaiting_domain : prog relay (option unit) :=
  prog_bind (h2_authenticated ctx true) (timeout AUTH_EXCHANGE_TIMEOUT
    (body <-? h2_response ;; h2_ask_signature (domain_suffixes ctx) None body)).
Definition awaiting_sig : prog relay (option unit) :=
  prog_bind (h2_authenticated ctx true) (timeout AUTH_EXCHANGE_TIMEOUT
    (sig <-? h2_response ;; h2_verify_identity (domain_suffixes ctx) None (domain conn) sig)).
Definition awaiting_key_auth : prog relay (option unit) :=
  prog_bind (h2_challenge_phase ctx id) (timeout KEY_AUTH_TIMEOUT h2_response).
Definition awaiting_answer : prog relay (option unit) :=
  prog_bind (h2_register ctx id) (h2_acme_done id (wd_token w)).

Context (Hbuilt : build_connection agent identity suffix ext staging csr = Ok conn).
Context (Hadmit : handler_admits w ctx agent ext conn).

Lemma relay_asks_domain v p :
  runs_to v (handle_h2_connection ctx) p [] (asked "/_ctrl/domain") awaiting_domain p.
Proof.
  pose proof (proj2 (auth_handlers_admit w v ctx agent identity suffix ext staging csr conn Hbuilt Hadmit p)) as Hh.
  assert (Hcall : ∀ d (o : op relay) x, relay_responds w o p v = Some (x, p, []) →
            observe (Event (I := relay) o x) = None →
            runs_to v (timeout d (call o)) p [] [] (Ret (Some x)) p).
  { intros d o x Ho Hn. apply relay_in_time. eapply goes_step; [exact Ho|by rewrite Hn|reflexivity|apply goes_refl]. }
  unfold handle_h2_connection. eapply goes_seq; [by apply (Hcall _ HTlsAccept true)|reflexivity..|].
  eapply goes_step; [reflexivity..|]. cbn [prog_bind answer fst first_cert mbind option_bind head].
  eapply goes_seq; [exact Hh|reflexivity..|].
  eapply goes_seq; [by apply (Hcall _ (HHandshake _ _) true)|reflexivity..|].
  do 2 (eapply goes_step; [reflexivity..|]; cbn [prog_bind]).
  apply goes_bind, relay_timeout. unfold h2_auth_exchange. apply goes_bind.
  unfold h2_get. eapply goes_step; [reflexivity..|]. apply goes_refl.
Qed.

Context (Halg : algorithm identity = EcdsaP256).
Context (Hsig : sign_recoverable identity (as_bytes (domain conn)) = Ok sig).
Context (Hutf8 : utf8 (domain conn)) (Hsuffix : suffix ∈ domain_suffixes ctx).
Context (Hdomain : Z.of_nat (length (as_bytes (domain conn))) ≤ MAX_CTRL_FRAME).

Lemma relay_asks_sig v p :
  is_Some (heads (v_log v) !! p_heads p) → body_of (p_heads p) (v_log v) = Some [as_bytes (domain conn)] →
  runs_to v awaiting_domain p [] (asked "/_ctrl/sig") awaiting_sig (bump p).
Proof using Hutf8 Hdomain.
  intros Hh Hb. apply goes_bind, relay_timeout.
  eapply goes_seq; [by apply relay_receives|reflexivity..|]. unfold h2_ask_signature.
  rewrite from_utf8_as_bytes by done. apply goes_bind. unfold h2_get.
  eapply goes_step; [reflexivity..|]. apply goes_refl.
Qed.

Lemma relay_asks_key_auth v p :
  is_Some (heads (v_log v) !! p_heads p) → body_of (p_heads p) (v_log v) = Some [sig] →
  runs_to v awaiting_sig p [PermitReturned] (asked "/_ctrl/key_auth") awaiting_key_auth (bump p).
Proof.
  destruct (built_identity_accepted agent identity suffix ext staging csr conn sig Hbuilt Halg Hsig)
    as ((pk & Hpk & _) & Hid & _ & Hlen & Hall).
  intros Hh Hb. eapply (goes_seq _ _ _ _ _ (Some (Some id)) _ _ _ _ [] []).
  - apply relay_in_time. eapply goes_seq; [apply relay_receives; [done|done|rewrite Hlen; vm_compute; discriminate]|reflexivity..|].
    unfold h2_verify_identity. rewrite Hpk, Hid, (Hall _ Hsuffix). apply goes_refl.
  - reflexivity.
  - reflexivity.
  - unfold h2_authenticated, h2_serve. do 3 (eapply goes_step; [reflexivity..|]; cbn [prog_bind]).
    apply goes_bind, relay_timeout. unfold h2_read_key_auth, h2_get.
    eapply goes_step; [reflexivity..|]. apply goes_refl.
Qed.

Lemma relay_accepts v p :
  is_Some (heads (v_log v) !! p_heads p) → body_of (p_heads p) (v_log v) = Some [[]] →
  runs_to v awaiting_key_auth p [Registered id (AgentH2 (this_conn ctx))] [] (Ret (Some tt)) (bump p).
Proof.
  intros Hh Hb. eapply goes_seq; [apply relay_in_time, relay_receives; [done..|vm_compute; discriminate]|reflexivity..|].
  cbn [h2_challenge_phase]. rewrite bool_decide_true by done. cbn [prog_bind h2_register].
  eapply goes_step; [reflexivity..|]. apply goes_refl.
Qed.

Lemma relay_asks_done v p ka :
  is_Some (heads (v_log v) !! p_heads p) → body_of (p_heads p) (v_log v) = Some [ka] →
  ka ≠ [] → Z.of_nat (length ka) ≤ MAX_CTRL_FRAME →
  runs_to v awaiting_key_auth p [ChallengeOpened id] (asked "/_ctrl/done") awaiting_answer (bump p).
Proof.
  intros Hh Hb Hne Hka. eapply goes_seq; [by apply relay_in_time, relay_receives|reflexivity..|].
  cbn [h2_challenge_phase]. rewrite bool_decide_false by done. apply goes_bind. unfold h2_acme_wait.
  do 2 (eapply goes_step; [reflexivity..|]; cbn [prog_bind]). apply goes_refl.
Qed.

Lemma relay_is_answered v p :
  is_Some (heads (v_log v) !! p_heads p) →
  runs_to v awaiting_answer p [ChallengeClosed id; Registered id (AgentH2 (this_conn ctx))] []
    (Ret (Some tt)) (bump p).
Proof.
  intros [path Hh].
  assert (Hr1 : relay_responds w HResponse p v = Some (true, bump p, [])).
  { cbn [relay_responds]. by rewrite (next_head_there _ _ _ Hh). }
  eapply (goes_seq _ _ _ _ _ (Some tt) _ _ _ _ [ChallengeClosed id] []); [|reflexivity..|].
  - unfold h2_acme_done. eapply goes_step; [exact Hr1|reflexivity..|]. cbn [prog_bind].
    eapply goes_step; [reflexivity..|]. apply goes_refl.
  - cbn [h2_register]. eapply goes_step; [reflexivity..|]. apply goes_refl.
Qed.
End relay.

(** ** The two halves together *)

(** What the relay asks in a session that announces [ka]. *)
Definition session_requests (ka : string) : list string :=
  ["/_ctrl/domain"; "/_ctrl/sig"; "/_ctrl/key_auth"] ++
  (if bool_decide (ka = "") then [] else ["/_ctrl/done"]).

Section agree.
Context `{CryptoOk, !Yasna, !YasnaOk, !CertGen, !CertGenOk, !TlsLibs}.
Context (w : world) (ctx : ListenerCtx) (agent identity : TunnelKey) (suffix : string)
  (ext : option bytes) (staging csr : bool) (conn : Connection) (sig : bytes).
Context (Hbuilt : build_connection agent identity suffix ext staging csr = Ok conn).
Context (Halg : algorithm identity = EcdsaP256).
Context (Hsig : sign_recoverable identity (as_bytes (domain conn)) = Ok sig).
Context (Hadmit : handler_admits w ctx agent ext conn).
Context (Hutf8 : utf8 (domain conn)) (Hsuffix : suffix ∈ domain_suffixes ctx).
Context (Hdomain : Z.of_nat (length (as_bytes (domain conn))) ≤ MAX_CTRL_FRAME).
Context (cw : client_world) (parse : string → option (list bytes)) (from_utf8_lossy : bytes → string).
Abbreviation client prov := (h2_ctrl_exchange parse from_utf8_lossy conn prov).
Abbreviation step := (session_step exchange_failed w cw).
Abbreviation id := (client_id conn).

(** What was asked and answered before the key authorization. *)
Definition identity_asked : list item := asked "/_ctrl/domain" ++ asked "/_ctrl/sig" ++ asked "/_ctrl/key_auth".
Definition identity_answered : list item := answered (as_bytes (domain conn)) ++ answered sig.

Lemma h2_schedule_identity prov :
  rtc step (connected (client prov) (handle_h2_connection ctx))
    (Half [] (h2_answer_key_auth parse from_utf8_lossy conn prov) identity_answered (Pos 0 2),
     Half [PermitReturned] (awaiting_key_auth ctx conn) identity_asked (Pos 0 2)).
Proof.
  assert (Hs : sign_recoverable (identity_keypair conn) (as_bytes (domain conn)) = Ok sig)
    by (by rewrite (proj1 (built_keys _ _ _ _ _ _ _ Hbuilt))).
  pose proof (relay_asks_domain w ctx agent identity suffix ext staging csr conn Hbuilt Hadmit
                (View [] None) (Pos 0 0) [] []) as R0.
  pose proof (client_answers_domain cw parse from_utf8_lossy conn prov
                (View (asked "/_ctrl/domain") None) (Pos 0 0) eq_refl [] []) as C1.
  pose proof (relay_asks_sig w ctx conn Hutf8 Hdomain (View (answered (as_bytes (domain conn))) None) (Pos 0 0)
                ltac:(by eexists) eq_refl [] (asked "/_ctrl/domain")) as R1.
  pose proof (client_answers_sig cw parse from_utf8_lossy conn sig prov Hs
                (View (asked "/_ctrl/domain" ++ asked "/_ctrl/sig") None) (Pos 0 1) eq_refl
                [] (answered (as_bytes (domain conn)))) as C2.
  pose proof (relay_asks_key_auth w ctx agent identity suffix ext staging csr conn sig Hbuilt Halg Hsig Hsuffix
                (View identity_answered None) (Pos 0 1) ltac:(by eexists) eq_refl
                [] (asked "/_ctrl/domain" ++ asked "/_ctrl/sig")) as R2.
  etrans; [eapply duplex_right; exact R0|]. etrans; [eapply duplex_left; exact C1|].
  etrans; [eapply duplex_right; exact R1|]. etrans; [eapply duplex_left; exact C2|].
  eapply duplex_right. exact R2.
Qed.

(** One schedule of a session without a challenge. *)
Lemma h2_schedule_none prov certs :
  prov = false ∧ certs = [agent_cert conn] ∨
  prov = true ∧ (∃ pem, cw_prepare cw = Some (Cached pem) ∧ parse pem = Some certs) →
  ∃ us p log rp, rtc step (connected (client prov) (handle_h2_connection ctx))
    (Half [] (Ret (Ok certs)) us p,
     Half (relay_acts "" id (AgentH2 (this_conn ctx))) (Ret (Some tt)) log rp) ∧
    heads log = session_requests "" ∧ length (heads us) = length (session_requests "").
Proof.
  intros Hplan.
  pose proof (client_answers_none cw parse from_utf8_lossy conn prov (View identity_asked None) (Pos 0 2)
                certs eq_refl Hplan [] identity_answered) as C3.
  pose proof (relay_accepts w ctx conn (View (identity_answered ++ answered []) (Some false)) (Pos 0 2)
                ltac:(by eexists) eq_refl [PermitReturned] identity_asked) as R3.
  eexists _, _, _, _. split; [|split].
  - etrans; [apply h2_schedule_identity|]. etrans; [eapply duplex_left; exact C3|]. eapply duplex_right. exact R3.
  - reflexivity.
  - reflexivity.
Qed.

(** The challenge has been announced and [/_ctrl/done] asked. *)
Lemma h2_schedule_announced (leader : bool) ka fin :
  ka ≠ "" → Z.of_nat (length (as_bytes ka)) ≤ MAX_CTRL_FRAME →
  cw_prepare cw = Some (if leader then LeaderChallenge ka else FollowerChallenge ka) →
  (if leader then ∃ c, csr_der conn = Some c ∧ fin = [Finalizes (domain conn) c] else fin = []) →
  rtc step (connected (client true) (handle_h2_connection ctx))
    (Half fin (awaiting_h2_done cw parse from_utf8_lossy) (identity_answered ++ answered (as_bytes ka)) (Pos 0 3),
     Half [PermitReturned; ChallengeOpened id] (awaiting_answer w ctx conn) (identity_asked ++ asked "/_ctrl/done") (Pos 0 3)).
Proof.
  intros Hne Hka Hp Hfin. assert (Hb : as_bytes ka ≠ []) by (by destruct ka).
  pose proof (client_answers_challenge cw parse from_utf8_lossy conn true (View identity_asked None) (Pos 0 2)
                leader ka fin eq_refl eq_refl Hp Hfin [] identity_answered) as C3.
  pose proof (relay_asks_done w ctx conn (View (identity_answered ++ answered (as_bytes ka)) None) (Pos 0 2)
                (as_bytes ka) ltac:(by eexists) eq_refl Hb Hka [PermitReturned] identity_asked) as R3.
  etrans; [apply h2_schedule_identity|]. etrans; [eapply duplex_left; exact C3|]. eapply duplex_right. exact R3.
Qed.

(** One schedule of a session with a challenge. *)
Lemma h2_schedule_challenge (leader : bool) ka pem certs fin :
  ka ≠ "" → Z.of_nat (length (as_bytes ka)) ≤ MAX_CTRL_FRAME →
  cw_prepare cw = Some (if leader then LeaderChallenge ka else FollowerChallenge ka) →
  cw_cert cw = Some pem → parse pem = Some certs →
  (if leader then ∃ c, csr_der conn = Some c ∧ fin = [Finalizes (domain conn) c] else fin = []) →
  ∃ us p log rp, rtc step (connected (client true) (handle_h2_connection ctx))
    (Half fin (Ret (Ok certs)) us p,
     Half (relay_acts ka id (AgentH2 (this_conn ctx))) (Ret (Some tt)) log rp) ∧
    heads log = session_requests ka ∧ length (heads us) = length (session_requests ka).
Proof.
  intros Hne Hka Hp Hcert Hc Hfin. assert (Hb : as_bytes ka ≠ []) by (by destruct ka).
  destruct (client_answers_done cw parse from_utf8_lossy (View (identity_asked ++ asked "/_ctrl/done") None)
                (Pos 0 3) pem certs eq_refl Hcert Hc) as [p' C4].
  specialize (C4 fin (identity_answered ++ answered (as_bytes ka))).
  rewrite app_nil_r in C4.
  pose proof (relay_is_answered w ctx conn
                (View ((identity_answered ++ answered (as_bytes ka)) ++ [Head "" true]) (Some false)) (Pos 0 3)
                ltac:(by eexists) [PermitReturned; ChallengeOpened id] (identity_asked ++ asked "/_ctrl/done")) as R4.
  assert (Hacts : relay_acts ka id (AgentH2 (this_conn ctx)) = [PermitReturned; ChallengeOpened id] ++
            [ChallengeClosed id; Registered id (AgentH2 (this_conn ctx))])
    by (unfold relay_acts, challenge_phase; by rewrite bool_decide_false).
  unfold session_requests. rewrite (bool_decide_false (ka = "")) by done.
  rewrite Hacts. eexists _, _, _, _. split; [|split].
  - etrans; [by eapply h2_schedule_announced|].
    etrans; [eapply duplex_left; exact C4|]. eapply duplex_right. exact R4.
  - reflexivity.
  - reflexivity.
Qed.

(** One schedule of any session. *)
Lemma h2_schedule prov ka certs fin :
  session_plan parse conn cw prov ka certs fin → Z.of_nat (length (as_bytes ka)) ≤ MAX_CTRL_FRAME →
  ∃ us p log rp, rtc step (connected (client prov) (handle_h2_connection ctx))
    (Half fin (Ret (Ok certs)) us p,
     Half (relay_acts ka id (AgentH2 (this_conn ctx))) (Ret (Some tt)) log rp) ∧
    heads log = session_requests ka ∧ length (heads us) = length (session_requests ka).
Proof.
  intros Hp Hka.
  destruct Hp as [|pem certs Hpr Hc|ka pem c certs Hpr Hcsr Hcert Hc Hne|ka pem certs Hpr Hcert Hc Hne].
  - apply (h2_schedule_none false). by left.
  - apply (h2_schedule_none true). eauto 6.
  - apply (h2_schedule_challenge true ka pem certs); eauto.
  - by apply (h2_schedule_challenge false ka pem certs).
Qed.


(** C40: over H2, an ACME order whose authorizations are still valid leaves the client
    behind. [prepare] leads with an empty key authorization, which on the wire means that
    no challenge is needed: however the two are scheduled, the relay registers the client
    and asks no more, while the client, whose order is being finalized meanwhile, waits for
    [/_ctrl/done] without ever coming up. *)
Theorem h2_valid_authorization_stalls authzs ka url c :
  Forall (λ a, ∃ x, a = Some x ∧ authz_valid x = true) authzs →
  order_challenge authzs "" "" = Some (ka, url) →
  cw_prepare cw = Some (LeaderChallenge ka) → csr_der conn = Some c →
  ∃ n us p log rp, settles step (connected (client true) (handle_h2_connection ctx)) n
    (Half [Finalizes (domain conn) c] (awaiting_h2_done cw parse from_utf8_lossy) us p,
     Half (relay_acts "" id (AgentH2 (this_conn ctx))) (Ret (Some tt)) log rp).
Proof.
  intros Hv Ho Hprep Hc. rewrite (order_challenge_valid _ _ _ Hv) in Ho. injection Ho as <- _.
  pose proof (client_answers_challenge cw parse from_utf8_lossy conn true (View identity_asked None) (Pos 0 2)
                true "" _ eq_refl eq_refl Hprep (ex_intro _ c (conj Hc eq_refl)) [] identity_answered) as C3.
  pose proof (relay_accepts w ctx conn (View (identity_answered ++ answered []) None) (Pos 0 2)
                ltac:(by eexists) eq_refl [PermitReturned] identity_asked) as R3.
  assert (Hrun : ∃ us p log rp, rtc step (connected (client true) (handle_h2_connection ctx))
    (Half [Finalizes (domain conn) c] (awaiting_h2_done cw parse from_utf8_lossy) us p,
     Half (relay_acts "" id (AgentH2 (this_conn ctx))) (Ret (Some tt)) log rp) ∧
    heads log !! p_heads p = None).
  { eexists _, _, _, _. split.
    - etrans; [apply h2_schedule_identity|]. etrans; [eapply duplex_left; exact C3|eapply duplex_right; exact R3].
    - reflexivity. }
  destruct Hrun as (us & p & log & rp & Hr & Hnone).
  destruct (duplex_settles _ _ _ _ _ _ (client_monotone cw) (relay_monotone w) _ _ _ Hr) as [n Hn]; [|done|].
  { assert (Hb : next_head p (View log (Some false)) = None) by (unfold next_head; cbn [v_log]; by rewrite Hnone).
    unfold half_step. cbn -[next_head view_of]. change (view_of _ _) with (View log (Some false)). by rewrite Hb. }
  by eexists n, us, p, log, rp.
Qed.
End agree.

Section witnesses.
Import ToyKey ToyTls ToyCrypto.

Definition h2_toy_world : client_world := ClientWorld (Some (FollowerChallenge "ka")) 1 (Some "PEM") 0 [].


(** A connection with a certificate request. *)
Definition acme_conn : Connection :=
  match build_connection agent_key identity_key "example.com" None false true with Ok c => c | Err _ => conn end.
Definition acme_csr : bytes := default [] (csr_der acme_conn).

Lemma h2_valid_authorization_stalls_witness :
  ∃ n us p log rp, settles (session_step exchange_failed toy_world (ClientWorld (Some (LeaderChallenge "")) 0 None 0 []))
      (connected (h2_ctrl_exchange (λ pem, Some [as_bytes pem]) of_bytes acme_conn true)
                 (handle_h2_connection toy_ctx)) n
      (Half [Finalizes (domain acme_conn) acme_csr]
         (awaiting_h2_done (ClientWorld (Some (LeaderChallenge "")) 0 None 0 []) (λ pem, Some [as_bytes pem]) of_bytes) us p,
       Half (relay_acts "" (client_id acme_conn) (AgentH2 (this_conn toy_ctx))) (Ret (Some tt)) log rp).
Proof.
  refine (h2_valid_authorization_stalls toy_world toy_ctx agent_key identity_key "example.com" None
    false true acme_conn conn_sig _ _ _ _ _ _ _ _ _ _ [Some (MkAuthz true None)] "" "" acme_csr _ _ _ _);
    [vm_compute; reflexivity|reflexivity|vm_compute; reflexivity|split; [reflexivity|intros _; reflexivity]
    |vm_compute; reflexivity|by left|vm_compute; discriminate|constructor; [by eexists|constructor]|reflexivity
    |reflexivity|vm_compute; reflexivity].
Defined.
End witnesses.
