(* ===== verification/Member.v ===== *)
(** * Member.v: one connection of the H2 pool, and forwarding

    tunnel-client/src/client.rs: [H2Shared], [H2Pooled::attempt] (connect, control
    exchange against the PING loop, serving) and how its shared-state calls are the
    member steps of Pool.v; [pipe] and [serve_alpn_challenge], the tasks that streams
    are handed to, and the set that owns them ([reap], [spawn_challenge]). *)

From S2P Require Import Prelude Async RustStr CertProvisioner Framing Registry Admission Key.
From S2P Require Import ClientTls Identity Relay ClientExchange Retry Pool.
Open Scope string_scope.
Open Scope Z_scope.
Open Scope list_scope.
Open Scope tunnel_scope.

(** ** The environment of an attempt *)

Inductive member_error :=
| ConnectFailed (e : connect_error)
| ExchangeFailed (e : client_error)
| PingDied (cause : string)
| AcceptorFailed (e : client_error).

Inductive mop :=
| MNet (o : cop)                       (** while connecting *)
| MCli (o : kop)                       (** in the control exchange *)
| MPing                                (** has the PING loop ended? *)
| MRecordFailure (e : member_error)    (** [shared.record_failure] *)
| MReject (reason : string)            (** [shared.rejected.send_replace(Some(..))] *)
| MUp                                  (** [live.up()] *)
| MDown (cause : string) (stopped : bool)
| MStopped
| MStreams                             (** what [h2.accept()] and the PING loop give *)
| MReap
| MSpawnPipe (acc : TlsAcceptor) (target : string).

Definition mans (o : mop) : Type :=
  match o with
  | MNet o => cans o
  | MCli o => kans o
  | MPing => option string
  | MStopped => bool
  | MStreams => list bool * option string   (** responses sent or not; the PING cause *)
  | _ => unit
  end.

Definition mawaits (o : mop) : bool :=
  match o with
  | MNet o => cawaits o
  | MCli o => kawaits o
  | MStreams => true
  | _ => false
  end.

Definition mem : iface := Iface mop mans mawaits.

Definition on_net {A} (p : prog net A) : prog mem A := embed (I := net) (J := mem) MNet (λ _ x, x) p.
Definition on_cli {A} (p : prog cli A) : prog mem A := embed (I := cli) (J := mem) MCli (λ _ x, x) p.

(** ** [H2Pooled::attempt] *)

(** [H2Shared]; the identity fields are those of the connection. *)
Record H2Shared := MkShared {
  sh_tag : string;
  sh_server_addr : string;
  sh_local_addr : string;
  sh_conn : Connection;
  sh_provisioner : bool;
  sh_policy : ReconnectPolicy;
  sh_keepalive : H2KeepAlive.t;
}.

(** The PING future: without a [PingPong] it never resolves. *)
Definition ping (ping_pong : bool) : prog mem (option string) :=
  if ping_pong then call (I := mem) MPing else Ret None.

(** The serving loop over the streams accepted. *)
Fixpoint h2_forward (acc : TlsAcceptor) (target : string) (streams : list bool) : prog mem unit :=
  match streams with
  | [] => Ret tt
  | responded :: streams =>
      call (I := mem) MReap ;;!
      (if responded : bool then call (I := mem) (MSpawnPipe acc target) else Ret tt) ;;!
      h2_forward acc target streams
  end.

Section attempt.
Context `{Crypto, TlsLibs} (from_utf8_lossy : bytes → string).

(** The exchange gave a chain: the member comes up and serves. *)
Definition serve_member (sh : H2Shared) (tunnel_certs : list bytes) : prog mem bool :=
  let conn := sh_conn sh in
  let fail (e : member_error) := call (I := mem) (MRecordFailure e) ;;! Ret false in
  let key := if sh_provisioner sh then identity_keypair conn else agent_keypair conn in
  match build_tls_acceptor key tunnel_certs with
  | Err e => fail (AcceptorFailed e)
  | Ok acc =>
      call (I := mem) MUp ;;!
      r <-! call (I := mem) MStreams ;;
      h2_forward acc (sh_local_addr sh) (fst (r : list bool * option string)) ;;!
      stopped <-! call (I := mem) MStopped ;;
      call (I := mem) (MDown (default "connection dropped" (snd r)) stopped) ;;!
      Ret true
  end.

Definition attempt (sh : H2Shared) : prog mem bool :=
  let conn := sh_conn sh in
  let fail (e : member_error) := call (I := mem) (MRecordFailure e) ;;! Ret false in
  connected <-! on_net (connect_within (connect_timeout (sh_policy sh)) (sh_server_addr sh)
                          (connect_h2 (sh_server_addr sh) (conn_tls conn))) ;;
  match connected with
  | Err e => fail (ConnectFailed e)
  | Ok (_, ping_pong) =>
      exchanged <-! interrupt (ping ping_pong)
        (on_cli (h2_ctrl_exchange parse_cert_chain_pem from_utf8_lossy conn (sh_provisioner sh))) ;;
      match exchanged with
      | inl cause => fail (PingDied cause)
      | inr (Err (RelayRejected reason)) => call (I := mem) (MReject reason) ;;! Ret false
      | inr (Err e) => fail (ExchangeFailed e)
      | inr (Ok tunnel_certs) => serve_member sh tunnel_certs
      end
  end.
End attempt.

(** ** The task set of a session

    [tokio::task::JoinSet]: for each task in it, whether it has finished. *)

Module JoinSet.
Definition t := list bool.
Definition new : t := [].
Definition spawn (s : t) : t := s ++ [false].
(** Takes one finished task out, if there is one. *)
Fixpoint try_join_next (s : t) : option t :=
  match s with
  | [] => None
  | true :: s => Some s
  | false :: s => s' ← try_join_next s; Some (false :: s')
  end.
End JoinSet.

(** [while set.try_join_next().is_some() {}]: at most one pass per task. *)
Fixpoint reap_loop (fuel : nat) (set : JoinSet.t) : JoinSet.t :=
  match fuel with
  | O => set
  | S fuel => match JoinSet.try_join_next set with Some set => reap_loop fuel set | None => set end
  end.
Definition reap (set : JoinSet.t) : JoinSet.t := reap_loop (length set) set.

Definition spawn_challenge (set : JoinSet.t) : JoinSet.t := JoinSet.spawn (reap set).

Lemma try_join_next_spec s :
  match JoinSet.try_join_next s with
  | Some s' => length s = S (length s') ∧ List.filter negb s' = List.filter negb s
  | None => List.filter negb s = s
  end.
Proof.
  induction s as [|[] s IH]; [done|done|]. simpl.
  destruct (JoinSet.try_join_next s) as [s'|]; simpl; [destruct IH; split; congruence|congruence].
Qed.

(** [reap] leaves exactly the tasks that still run, so a set that is reaped before each
    task is added (the forwards of a member, the challenges) grows with the streams that
    are open, not with those that were. *)
Lemma reap_running set : reap set = List.filter negb set.
Proof.
  unfold reap. assert (Hl : (length set ≤ length set)%nat) by lia. revert Hl.
  generalize (length set) at 2 3 as n. intros n. revert set. induction n as [|n IH]; intros set Hl.
  - by destruct set; [|simpl in Hl; lia].
  - simpl. pose proof (try_join_next_spec set) as Hs. destruct (JoinSet.try_join_next set); [|done].
    destruct Hs as [Hlen <-]. apply IH. lia.
Qed.

Lemma spawn_challenge_running set :
  length (spawn_challenge set) = S (length (List.filter negb set)).
Proof. unfold spawn_challenge, JoinSet.spawn. rewrite reap_running, length_app. simpl. lia. Qed.

(** ** What the pool sees of it *)

Inductive pool_action :=
| ARecord (e : member_error) | AReject (reason : string) | AUp | ADown (cause : string) (stopped : bool).

Definition action (e : event mem) : option pool_action :=
  match ev_op e with
  | MRecordFailure e => Some (ARecord e)
  | MReject r => Some (AReject r)
  | MUp => Some AUp
  | MDown c b => Some (ADown c b)
  | _ => None
  end.

(** The moves of a member in an attempt, as Pool.v has them. *)
Inductive moves : member → pool_action → member → Prop :=
| moves_record e : moves Attempting (ARecord e) Failed
| moves_reject r : moves Attempting (AReject r) Failed
| moves_up : moves Attempting AUp Serving
| moves_down c stopped : moves Serving (ADown c stopped) Checking.

Inductive path : member → list pool_action → member → Prop :=
| path_nil m : path m [] m
| path_cons m a m' l m'' : moves m a m' → path m' l m'' → path m (a :: l) m''.

(** The shared state after one of them; [from_error] is [AttemptFailure::from_error]. *)
Definition act (from_error : member_error → AttemptFailure) (a : pool_action) (p : pool) : pool :=
  match a with
  | ARecord e => record_failure p (AttemptError (from_error e))
  | AReject r => record_failure p (AttemptRejected r)
  | AUp => PoolLiveness.up p
  | ADown c b => PoolLiveness.down p c b
  end.

(** Whatever the siblings do in between, each of these actions is a step of the pool. *)
Lemma moves_pool_step from_error size m a m' p m1 m2 b :
  moves m a m' → (∀ c stopped, a = ADown c stopped → stopped = true → b = true) →
  pool_step size (PW p (m1 ++ m :: m2) b) (PW (act from_error a p) (m1 ++ m' :: m2) b).
Proof.
  destruct 1 as [e|r| |c st]; intros Hb; cbn [act]; try by constructor.
  apply step_down. exact (Hb c st eq_refl).
Qed.

(** ** Forwarding a stream *)

Definition PIPE_HANDSHAKE_TIMEOUT : Z := from_secs 30.
Definition PIPE_CONNECT_TIMEOUT : Z := from_secs 10.

Inductive pop :=
| PDeadline (d : Z)
| PTlsAccept (acc : TlsAcceptor)
| PConnect (target : string)
| PCopy.                               (** [copy_bidirectional] *)

Definition pans (o : pop) : Type := match o with PCopy => unit | _ => bool end.
Definition pawaits (o : pop) : bool := match o with PDeadline _ => false | _ => true end.
Definition fwd : iface := Iface pop pans pawaits.

(** [timeout(d, p)] for a call that succeeds or fails: whether it succeeded in time. *)
Definition within (d : Z) (p : prog fwd bool) : prog fwd bool :=
  r <-! interrupt (b <-! call (I := fwd) (PDeadline d) ;; Ret (if (b : bool) then Some tt else None)) p ;;
  Ret (match r with inl _ => false | inr ok => ok end).

Definition pipe (acc : TlsAcceptor) (target : string) : prog fwd unit :=
  accepted <-! within PIPE_HANDSHAKE_TIMEOUT (call (I := fwd) (PTlsAccept acc)) ;;
  if negb accepted then Ret tt
  else
    connected <-! within PIPE_CONNECT_TIMEOUT (call (I := fwd) (PConnect target)) ;;
    if negb connected then Ret tt else call (I := fwd) PCopy.

Definition serve_alpn_challenge (acc : TlsAcceptor) : prog fwd unit :=
  within PIPE_HANDSHAKE_TIMEOUT (call (I := fwd) (PTlsAccept acc)) ;;! Ret tt.

(** ** Lemmas *)

Definition quiet (o : mop) : Prop := ∀ x : mans o, action (Event (I := mem) o x) = None.

Lemma quiet_net {A} (p : prog net A) : only (I := mem) quiet (on_net p).
Proof. by apply only_embed. Qed.

Lemma quiet_ping pp : only (I := mem) quiet (ping pp).
Proof. destruct pp; [|done]. by split. Qed.

Lemma quiet_exchange {A} pp (p : prog cli A) :
  only (I := mem) quiet (interrupt (ping pp) (on_cli p)).
Proof. apply only_interrupt; [apply quiet_ping|by apply only_embed]. Qed.

Lemma quiet_forward acc target streams : only (I := mem) quiet (h2_forward acc target streams).
Proof.
  induction streams as [|b l IH]; [done|]. cbn [h2_forward].
  apply only_bind; [by split|]. intros _. apply only_bind; [by destruct b|]. by intros _.
Qed.

(** A quiet part adds nothing to what the pool has seen. *)
Lemma wp_quiet {A B} (p : prog mem A) (f : A → prog mem B) (Q : list pool_action → B → Prop) :
  only (I := mem) quiet p →
  (∀ a, wp (f a) (λ tr b, Q (omap action tr) b)) →
  wp (prog_bind f p) (λ tr b, Q (omap action tr) b).
Proof.
  intros Hp Hf. rewrite wp_bind. eapply wp_mono; [|apply always_wp, (only_unseen action), Hp].
  intros tr a Htr. eapply wp_mono; [|apply Hf]. intros tr' b. by rewrite omap_app, Htr.
Qed.

Lemma always_quiet {A B} (p : prog mem A) (f : A → prog mem B) (Q : list pool_action → Prop) :
  only (I := mem) quiet p → Q [] →
  (∀ a, always (f a) (λ tr, Q (omap action tr))) →
  always (prog_bind f p) (λ tr, Q (omap action tr)).
Proof.
  intros Hp H0 Hf. apply always_bind. split.
  - eapply always_mono; [|apply (only_unseen action), Hp]. intros tr Htr. cbn in Htr. by rewrite Htr.
  - eapply wp_mono; [|apply always_wp, (only_unseen action), Hp].
    intros tr a Htr. eapply always_mono; [|apply Hf]. intros tr'. by rewrite omap_app, Htr.
Qed.

(** Every answer the loops and the end of an attempt can get, through its actions. *)
Lemma wp_member_tail acc target cause (r : list bool * option string) :
  wp (h2_forward acc target (fst r) ;;!
      stopped <-! call (I := mem) MStopped ;;
      call (I := mem) (MDown cause stopped) ;;! Ret true)
    (λ tr served, served = true ∧ ∃ b, omap action tr = [ADown cause b]).
Proof.
  apply (wp_quiet _ _ (λ l served, served = true ∧ ∃ b, l = [ADown cause b]));
    [apply quiet_forward|].
  intros _ b. cbn. intros _. split; [done|]. by exists b.
Qed.

Section attempt_lemmas.
Context `{Crypto, TlsLibs} (from_utf8_lossy : bytes → string).

Lemma attempt_actions sh :
  wp (attempt from_utf8_lossy sh) (λ tr served,
    if served then ∃ c b, omap action tr = [AUp; ADown c b]
    else (∃ e, omap action tr = [ARecord e]) ∨ (∃ r, omap action tr = [AReject r])).
Proof.
  unfold attempt, serve_member.
  apply (wp_quiet _ _ (λ l (served : bool),
    if served then ∃ c b, l = [AUp; ADown c b] else (∃ e, l = [ARecord e]) ∨ (∃ r, l = [AReject r])));
    [apply quiet_net|].
  intros [[h2 pp]|e]; [|intros ?; left; by eexists].
  apply (wp_quiet _ _ (λ l (served : bool),
    if served then ∃ c b, l = [AUp; ADown c b] else (∃ e, l = [ARecord e]) ∨ (∃ r, l = [AReject r])));
    [apply quiet_exchange|].
  intros [cause|[certs|e]]; [intros ?; left; by eexists| |].
  - cbn [build_tls_acceptor prog_bind call wp]. intros u r.
    eapply wp_mono; [|apply (wp_member_tail _ _ (default "connection dropped" (snd r)) r)].
    intros tr served [-> [b Hb]]. exists (default "connection dropped" (snd r)), b.
    cbn. by rewrite Hb.
  - destruct e; intros ?; (left; by eexists) || (right; by eexists).
Qed.

Lemma attempt_prefixes sh :
  always (attempt from_utf8_lossy sh) (λ tr, ∃ m, path Attempting (omap action tr) m).
Proof.
  assert (Hone : ∀ a m, moves Attempting a m → ∃ m', path Attempting [a] m').
  { intros a m Hm. exists m. econstructor; [done|constructor]. }
  assert (Hnil : ∃ m, path Attempting [] m) by (exists Attempting; constructor).
  unfold attempt, serve_member. apply (always_quiet _ _ (λ l, ∃ m, path Attempting l m)); [apply quiet_net|done|].
  intros [[h2 pp]|e]; [|split; [done|]; intros ?; split; [eapply Hone; constructor|done]].
  apply (always_quiet _ _ (λ l, ∃ m, path Attempting l m)); [apply quiet_exchange|done|].
  intros [cause|[certs|e]].
  - split; [done|]. intros ?. split; [eapply Hone; constructor|done].
  - cbn [build_tls_acceptor prog_bind call always]. split; [done|]. intros u.
    split; [eapply Hone; constructor|]. intros r. rewrite always_bind.
    assert (Hup : ∃ m, path Attempting [AUp] m) by (eapply Hone; constructor).
    assert (Hdown : ∀ c b, ∃ m, path Attempting [AUp; ADown c b] m).
    { intros c b. eexists. econstructor; [constructor|]. econstructor; constructor. }
    split.
    + eapply always_mono; [|apply (only_unseen action), quiet_forward]. intros tr Htr.
      cbn. cbn in Htr. by rewrite Htr.
    + eapply wp_mono; [|apply always_wp, (only_unseen action), quiet_forward].
      intros tr ? Htr. cbn [prog_bind call always]. cbn in Htr.
      split; [cbn; rewrite app_nil_r, Htr; done|]. intros b.
      split; [cbn; rewrite omap_app, Htr; done|]. intros ?.
      split; [|done]. cbn. rewrite omap_app, Htr. apply Hdown.
  - destruct e; (split; [done|]; intros ?; split; [eapply Hone; constructor|done]).
Qed.
End attempt_lemmas.

(** *** Which acceptor a stream gets *)

(** A pipe forwards to the configured target, behind the key of the connection; without
    the ACME provisioner the chain is the agent certificate. *)
Definition right_pipe (sh : H2Shared) (o : mop) : Prop :=
  match o with
  | MSpawnPipe acc target =>
      target = sh_local_addr sh ∧
      acc_keypair acc = (if sh_provisioner sh then identity_keypair (sh_conn sh)
                         else agent_keypair (sh_conn sh)) ∧
      (sh_provisioner sh = false → acc_certs acc = [agent_cert (sh_conn sh)])
  | _ => True
  end.

Section pipes.
Context `{Crypto, TlsLibs} (from_utf8_lossy : bytes → string).

Lemma exchange_self_signed parse conn :
  wp (h2_ctrl_exchange parse from_utf8_lossy conn false)
    (λ _ r, ∀ certs, r = Ok certs → certs = [agent_cert conn]).
Proof.
  unfold h2_ctrl_exchange.
  do 3 (apply (wp_after (I := cli) _ _ (λ r, ∀ certs, r = Ok certs → certs = [agent_cert conn]));
    intros [?|?]; [|done]).
  destruct (sign_recoverable _ _) as [sig|]; [|done].
  do 2 (apply (wp_after (I := cli) _ _ (λ r, ∀ certs, r = Ok certs → certs = [agent_cert conn]));
    intros [?|?]; [|done]).
  cbn [negb]. apply (wp_after (I := cli) _ _ (λ r, ∀ certs, r = Ok certs → certs = [agent_cert conn])).
  intros [?|?]; [|done]. by intros ? [= <-].
Qed.

Lemma right_forward sh acc streams :
  right_pipe sh (MSpawnPipe acc (sh_local_addr sh)) →
  only (I := mem) (right_pipe sh) (h2_forward acc (sh_local_addr sh) streams).
Proof.
  intros Hp. induction streams as [|b l IH]; [done|]. cbn [h2_forward].
  apply only_bind; [by split|]. intros _. apply only_bind; [by destruct b|]. by intros _.
Qed.

Lemma attempt_pipes sh : only (I := mem) (right_pipe sh) (attempt from_utf8_lossy sh).
Proof.
  assert (Hfail : ∀ e, only (I := mem) (right_pipe sh) (call (I := mem) (MRecordFailure e) ;;! Ret false))
    by (intros e; by split).
  unfold attempt, serve_member. apply only_bind; [by apply only_embed|]. intros [[h2 pp]|e]; [|apply Hfail].
  apply only_bind_wp.
  { apply only_interrupt; [by destruct pp|by apply only_embed]. }
  eapply wp_mono; [|apply (wp_interrupt_result _ _ (λ r, sh_provisioner sh = false →
    ∀ certs, r = Ok certs → certs = [agent_cert (sh_conn sh)]))].
  - intros tr [cause|[certs|e]] Hr; [apply Hfail| |destruct e; by split].
    specialize (Hr _ eq_refl). cbn [build_tls_acceptor].
    split; [done|]. intros u. split; [done|]. intros r. cbn [prog_bind].
    apply only_bind; [|intros ?; split; [done|]; intros b; by split].
    apply right_forward. split_and!; [done|done|]. intros Hs. by apply Hr.
  - apply wp_embed. destruct (sh_provisioner sh); [eapply wp_mono; [|apply wp_true]; done|].
    eapply wp_mono; [|apply exchange_self_signed]. intros tr r Hr _. exact Hr.
Qed.
End pipes.

(** *** Forwarding is behind TLS *)

(** Before the local service is contacted the stream's TLS handshake has succeeded;
    before bytes are copied the contact has, too. *)
Fixpoint behind_tls (accepted connected : bool) (tr : trace fwd) : Prop :=
  match tr with
  | [] => True
  | e :: tr =>
      match e with
      | Event (PTlsAccept _) ok => behind_tls (accepted || ok) connected tr
      | Event (PConnect _) ok => accepted = true ∧ behind_tls accepted (connected || ok) tr
      | Event PCopy _ => accepted = true ∧ connected = true ∧ behind_tls accepted connected tr
      | Event (PDeadline _) _ => behind_tls accepted connected tr
      end
  end.

Lemma pipe_behind_tls acc target : always (pipe acc target) (behind_tls false false).
Proof.
  unfold pipe, within. cbn -[Z.mul]. split; [done|]. intros [|]; cbn.
  { done. }
  split; [done|]. intros [|]; cbn; [|done]. split; [done|]. intros [|]; cbn; [done|].
  split; [done|]. intros [|]; cbn; [|done]. split; [done|]. done.
Qed.

(** A challenge stream never gets past the handshake. *)
Lemma challenge_only_tls acc :
  only (I := fwd) (λ o, match o with PConnect _ | PCopy => False | _ => True end)
    (serve_alpn_challenge acc).
Proof. unfold serve_alpn_challenge, within. cbn. split; [done|]. intros [|]; cbn; done. Qed.

(** ** Properties *)

(** C16: a pooled connection behaves as the pool's model of its members assumes. At
    every point of every run of [attempt], whatever the network, the relay, the
    provisioner and the PING loop do, the calls it has made to the shared state form a
    path of the member automaton of Pool.v from [Attempting], so each of them is a step
    of [pool_step] in whatever state its siblings have left the pool; when it returns,
    [true] means it was up and then down exactly once, [false] that it never was up
    and recorded one failure or one rejection. Every stream it accepts is forwarded to
    the configured target behind the connection's own key, and on the path without
    ACME behind its agent certificate. *)
Theorem attempt_is_a_pool_member `{Crypto, TlsLibs} from_utf8_lossy sh :
  always (attempt from_utf8_lossy sh) (λ tr,
    (∃ m, path Attempting (omap action tr) m) ∧ Forall (λ e : event mem, right_pipe sh (ev_op e)) tr) ∧
  wp (attempt from_utf8_lossy sh) (λ tr served,
    if served then ∃ c b, omap action tr = [AUp; ADown c b]
    else (∃ e, omap action tr = [ARecord e]) ∨ (∃ r, omap action tr = [AReject r])) ∧
  ∀ from_error size m a m' p m1 m2 b,
    moves m a m' → (∀ c stopped, a = ADown c stopped → stopped = true → b = true) →
    pool_step size (PW p (m1 ++ m :: m2) b) (PW (act from_error a p) (m1 ++ m' :: m2) b).
Proof.
  split_and!; [|apply attempt_actions|intros; by eapply moves_pool_step].
  apply always_reaches. intros tr p' Hr. split.
  - by eapply (proj1 (always_reaches _ _)) in Hr; [|apply attempt_prefixes].
  - by eapply (proj1 (always_reaches _ _)) in Hr; [|apply only_always, attempt_pipes].
Qed.

(** ** A concrete member *)

Section witnesses.
Import ToyKey ToyTls ToyCrypto.

(** Everything works, the relay sends the given requests, one stream arrives. *)
Definition toy_answer (o : op mem) (s : list string) : ans mem o * list string :=
  match o return mans o * list string with
  | MNet o =>
      (match o return cans o with
       | CDeadline _ => false
       | CLookupHost _ => Some []
       | CHandshake | CH2Handshake _ _ => Some 1%nat
       | _ => true
       end, s)
  | MCli o =>
      match o return kans o * list string with
      | KAccept => match s with p :: s => (Some (Some p), s) | [] => (None, s) end
      | KOpenBi | KReadToEnd _ | KBuildAlpn _ _ | KRespond _ | KRespondChallenge | KSendData _ => (true, s)
      | KDeadline _ | KStopped => (false, s)
      | KWriteAll _ => (Ok tt, s)
      | KReadExact _ => (Err UnexpectedEof, s)
      | KPrepare _ => (None, s)
      | KServeUntilCert _ => ([], None, s)
      | KStreams => ([], Ok tt, s)
      | KRequestBody => ([], s)
      | KRounds => (0%nat, s)
      | KAcceptOrCert => (inr None, s)
      | KSpawnFinalize _ _ | KSpawnChallenge | KUp _ | KSpawnPipe _ _ => (tt, s)
      end
  | MPing => (None, s)
  | MStopped => (false, s)
  | MStreams => ([true], None, s)
  | MRecordFailure _ | MReject _ | MUp | MDown _ _ | MReap | MSpawnPipe _ _ => (tt, s)
  end.

Definition toy_shared : H2Shared :=
  MkShared "SEC" "relay.example.com:4433" "127.0.0.1:3000" conn false ReconnectPolicy.default
    H2KeepAlive.default.

Definition toy_attempt : bool * trace mem * list string :=
  exec (I := mem) toy_answer (attempt of_bytes toy_shared)
    ["/_ctrl/domain"; "/_ctrl/sig"; "/_ctrl/key_auth"].

Lemma attempt_is_a_pool_member_witness :
  toy_attempt.1.1 = true ∧ omap action toy_attempt.1.2 = [AUp; ADown "connection dropped" false] ∧
  (∃ c b, omap action toy_attempt.1.2 = [AUp; ADown c b]) ∧
  Forall (λ e : event mem, right_pipe toy_shared (ev_op e)) toy_attempt.1.2 ∧
  pool_step 1 (PW pool_new [Attempting] false) (PW (PoolLiveness.up pool_new) [Serving] false).
Proof.
  pose proof (attempt_is_a_pool_member of_bytes toy_shared) as (Hal & Hwp & Hstep).
  assert (Hr : runs (I := mem) (attempt of_bytes toy_shared) toy_attempt.1.2 true).
  { apply (exec_runs (I := mem) toy_answer _ ["/_ctrl/domain"; "/_ctrl/sig"; "/_ctrl/key_auth"] _ _ toy_attempt.2).
    vm_compute. reflexivity. }
  split; [vm_compute; reflexivity|]. split; [vm_compute; reflexivity|].
  split; [exact (proj1 (runs_wp _ _) Hwp _ _ Hr)|].
  split; [exact (proj2 (proj1 (always_reaches _ _) Hal _ _ (proj1 (runs_reaches _ _ _) Hr)))|].
  apply (Hstep (λ _, Failure "" None) 1%nat Attempting AUp Serving pool_new [] [] false).
  - constructor.
  - intros c st Hc. discriminate Hc.
Defined.
End witnesses.
