(* ===== verification/EndToEnd.v ===== *)
(** * EndToEnd.v: client, relay and user together

    One client's session (Session.v) inside the running relay (RelaySystem.v): its handler
    is a task among all the others, its calls on the shared maps get the maps' answers, and
    the client's program moves alongside. Any run of the two is one of the session alone but
    for the tokens of challenge entries ([up_to_token]), so that it ends where every schedule
    of the session ends; from the handler's registration the agent's link and the routing of
    users follow. *)

From S2P Require Import Prelude Async Duplex RustStr Member CertProvisioner Framing Registry Admission Key ClientTls.
From S2P Require Import Identity Relay RelayTasks PublicPort RelayMain RelaySystem.
From S2P Require Import ClientExchange Session QuicExchange H2Exchange.
From Stdlib Require Import Ascii.
Open Scope string_scope.
Open Scope Z_scope.
Open Scope list_scope.
Open Scope tunnel_scope.

(** ** Tokens do not matter

    A handler hands the token it got for a challenge entry back to the map and does nothing
    else with it: two programs that differ in tokens only. *)

Definition is_insert (o : rop) : bool := match o with OPendingInsert _ _ => true | _ => false end.

Inductive up_to_token {A} : prog relay A → prog relay A → Prop :=
| ut_ret a : up_to_token (Ret a) (Ret a)
| ut_vis (o : op relay) (k k' : ans relay o → prog relay A) :
    is_insert o = false → (∀ x, up_to_token (k x) (k' x)) → up_to_token (Vis o k) (Vis o k')
| ut_insert id c (k k' : Z → prog relay A) :
    (∀ x x', up_to_token (k x) (k' x')) →
    up_to_token (Vis (I := relay) (OPendingInsert id c) k) (Vis (I := relay) (OPendingInsert id c) k')
| ut_remove id tok tok' (k k' : unit → prog relay A) :
    up_to_token (k tt) (k' tt) →
    up_to_token (Vis (I := relay) (OPendingRemove id tok) k) (Vis (I := relay) (OPendingRemove id tok') k').

Lemma ut_refl {A} (p : prog relay A) : only (λ o : op relay, is_insert o = false) p → up_to_token p p.
Proof. induction p as [a|o k IH]; [constructor|]. intros [Ho Hk]. constructor; eauto. Qed.

Lemma ut_returned {A} (p p' : prog relay A) :
  up_to_token p p' → match p' with Ret a => p = Ret a | Vis _ _ => True end.
Proof. by destruct 1. Qed.

Lemma ut_bind {A B} (p p' : prog relay A) (f f' : A → prog relay B) :
  up_to_token p p' → (∀ a, up_to_token (f a) (f' a)) → up_to_token (prog_bind f p) (prog_bind f' p').
Proof. intros Hp Hf. induction Hp; cbn [prog_bind]; [apply Hf|by constructor..]. Qed.

Lemma ut_free {A B} (p : prog relay A) (f f' : A → prog relay B) :
  only (λ o : op relay, is_insert o = false) p → (∀ a, up_to_token (f a) (f' a)) →
  up_to_token (prog_bind f p) (prog_bind f' p).
Proof. intros Hp. by apply ut_bind, ut_refl. Qed.

Lemma unprivileged_free {A} (p : prog relay A) :
  only unprivileged p → only (λ o : op relay, is_insert o = false) p.
Proof. apply only_mono. by intros []. Qed.

Section tokens.
Context `{Crypto, Yasna} (alloc : Z → bool) (shared_ctx : SharedCtx).
Abbreviation ctx_of := (ctx_of shared_ctx).

Lemma ut_quic_serve i id : up_to_token (quic_serve alloc (ctx_of i) id) (quic_serve alloc (ctx_of i) id).
Proof.
  unfold quic_serve. apply ut_free; [by split|intros []].
  apply ut_free; [apply only_timeout; [done|by apply only_read_ctrl]|].
  intros [[ka|]|]; [|constructor..]. apply ut_bind.
  - case_bool_decide; [constructor|]. unfold quic_acme_wait. cbn [call prog_bind]. apply ut_insert. intros x x'.
    apply ut_free; [by apply only_write_ctrl|]. intros [u|e]; [|constructor; constructor].
    unfold quic_acme_done. apply ut_free; [by apply only_read_ctrl|]. intros r. constructor. constructor.
  - intros [u|]; [|constructor]. apply ut_refl. split; [done|]. intros []. split; [done|]. by intros [].
Qed.

Lemma ut_h2_serve i pp id : up_to_token (h2_serve (ctx_of i) pp id) (h2_serve (ctx_of i) pp id).
Proof.
  unfold h2_serve. do 3 (apply ut_free; [by split|intros []]).
  apply ut_free; [apply only_timeout; [done|by apply only_h2_get]|].
  assert (Habort : up_to_token (call (I := relay) HAbort ;;! Ret (A := option unit) None)
                     (call (I := relay) HAbort ;;! Ret None)) by (apply ut_refl; by split).
  intros [[ka|]|]; [|exact Habort..]. apply ut_bind.
  - case_bool_decide; [constructor|]. unfold h2_acme_wait. cbn [call prog_bind]. apply ut_insert. intros x x'.
    constructor; [done|]. intros [|]; cbn [negb prog_bind]; [|constructor; constructor].
    unfold h2_acme_done. constructor; [done|]. intros r. constructor. constructor.
  - intros [u|]; [|exact Habort]. apply ut_refl. by split.
Qed.

Lemma ut_handler t i : up_to_token (handler alloc shared_ctx t i) (handler alloc shared_ctx t i).
Proof.
  destruct t; cbn [handler].
  - unfold handle_quic_connection. apply ut_free; [by split|intros [|]; [|constructor]].
    apply ut_free; [by split|intros certs]. destruct (first_cert certs) as [cert|]; [|constructor].
    apply ut_free; [apply unprivileged_free, only_quic_auth_handler|intros [token|]; [|constructor]].
    apply ut_free; [apply unprivileged_free, only_timeout; [done|apply only_quic_authenticate]|].
    intros [[id|]|]; [apply ut_quic_serve|constructor|apply ut_refl; by split].
  - unfold handle_h2_connection. apply ut_free; [apply only_timeout; [done|by split]|].
    intros [[|]|]; [|constructor..]. apply ut_free; [by split|intros certs].
    destruct (first_cert certs) as [cert|]; [|constructor].
    apply ut_free; [apply unprivileged_free, only_h2_auth_handler|intros [token|]; [|constructor]].
    apply ut_free; [apply only_timeout; [done|by split]|intros [[|]|]; [|constructor..]].
    apply ut_free; [by split|intros pp]. apply ut_free; [by split|intros []].
    apply ut_free; [apply unprivileged_free, only_timeout; [done|apply only_h2_auth_exchange]|].
    intros [[id|]|]; [apply ut_h2_serve|apply ut_refl; by split..].
Qed.
End tokens.

(** ** A session inside the relay *)

(** The state of the relay, of one client, and of the relay's end of their connection: what
    it has sent there and how far it has read. *)
Record comp (A : Type) := Comp {
  cs_sys : sys;
  cs_client : client_half A;
  cs_log : list item;
  cs_pos : pos;
}.
Arguments Comp {A} _ _ _ _.
Arguments cs_sys {A} _.
Arguments cs_client {A} _.
Arguments cs_log {A} _.
Arguments cs_pos {A} _.

(** The scheduler's choices that move another task than [c]. *)
Definition spares (c : nat) (ch : choice) : Prop :=
  match ch with AgentCall i _ _ => i ≠ c | _ => True end.

Section composed.
Context `{Crypto, Yasna} (alloc : Z → bool) (shared_ctx : SharedCtx).
Context (w : world) (cw : client_world) {A : Type} (gone : A → bool) (t : transport) (c : nat).
Abbreviation step := (step alloc shared_ctx).
Abbreviation reachable := (reachable alloc shared_ctx).

(** A step of the session: the client's, against what the handler has sent, or the
    handler's, with the connection's answers and those of the shared maps. *)
Inductive talks : relation (comp A) :=
| talks_client s cl cl' log q tr p :
    s_tasks s !! c = Some (AgentTask t tr p) →
    half_step (client_responds cw) client_seen (view_of refused (Half (omap observe tr) p log q)) cl = Some cl' →
    talks (Comp s cl log q) (Comp s cl' log q)
| talks_relay s s' cl log q tr (o : op relay) k uid (x : ∀ o, rans o) q' us :
    s_tasks s !! c = Some (AgentTask t tr (Vis o k)) →
    relay_responds w o q (view_of gone cl) = Some (x o, q', us) →
    step (AgentCall c uid x) s = Some s' →
    talks (Comp s cl log q) (Comp s' cl (log ++ us) q').

(** Any run of the relay and the client, in which the session makes [k] steps. *)
Inductive unfolds (st0 : comp A) : nat → comp A → Prop :=
| unfolds_start : unfolds st0 0 st0
| unfolds_around k ch s s' cl log q :
    unfolds st0 k (Comp s cl log q) → spares c ch → step ch s = Some s' →
    unfolds st0 k (Comp s' cl log q)
| unfolds_talks k st st' : unfolds st0 k st → talks st st' → unfolds st0 (S k) st'.

Lemma talks_sys st st' : talks st st' → rtc (sys_step alloc shared_ctx) (cs_sys st) (cs_sys st').
Proof. destruct 1 as [|? s' ? ? ? ? ? ? uid x]; [apply rtc_refl|]. apply rtc_once. by eexists. Qed.

Lemma unfolds_reachable st0 k st : reachable (cs_sys st0) → unfolds st0 k st → reachable (cs_sys st).
Proof.
  intros Hr. induction 1 as [|k ch s s' cl log q _ IH _ Hs|k st st' _ IH Ht]; [done| |].
  - eapply rtc_r; [exact IH|]. by eexists.
  - unfold RelaySystem.reachable in *. etrans; [exact IH|by apply talks_sys].
Qed.

(** Another task's step leaves the handler alone. *)
Lemma spares_task ch s s' tr p :
  spares c ch → step ch s = Some s' → s_tasks s !! c = Some (AgentTask t tr p) →
  s_tasks s' !! c = Some (AgentTask t tr p).
Proof.
  intros Hc Hs Ht. destruct ch as [t' now| |i uid x|i x|j]; simpl in Hs, Hc.
  - destruct (Admission.try_admit (adm_of s t') now) as [r a].
    destruct (set_adm_fields s t' a) as [E _]. destruct r; simplify_eq; cbn [with_tasks s_tasks]; rewrite E;
      [by apply lookup_app_l_Some|done].
  - simplify_eq. by apply lookup_app_l_Some.
  - destruct (s_tasks s !! i) as [[ti tri [|o k]|]|]; try done. simpl in Hs.
    destruct (agent_call o uid (x o) (s_shared s)) as [y sh]. simplify_eq. cbn [with_tasks s_tasks].
    by rewrite list_lookup_insert_ne.
  - destruct (s_tasks s !! i) as [[|tri [|o k]]|] eqn:Hi; try done. simpl in Hs.
    destruct (public_call o (x o) (s_shared s)) as [y sh]. simplify_eq. cbn [with_tasks s_tasks].
    rewrite list_lookup_insert_ne; [done|]. congruence.
  - destruct (cleanup j _); [|done]. simpl in Hs. by simplify_eq.
Qed.

(** A call the maps do not answer otherwise gets the connection's answer. *)
Lemma agent_call_same o uid x sh : is_insert o = false → (agent_call o uid x sh).1 = x.
Proof. destruct o; simpl; intros; try done; by destruct x. Qed.

(** The session on its own, with the tokens its world hands out. *)
Context (p0 : prog cli A).
Abbreviation alone := (session_step gone w cw).
Abbreviation handler := (handler alloc shared_ctx t c).

(** The composed run is a run of the session alone. *)
Definition follows (k : nat) (st : comp A) : Prop :=
  ∃ tr p r, s_tasks (cs_sys st) !! c = Some (AgentTask t tr p) ∧
    nsteps alone k (connected p0 handler) (cs_client st, r) ∧
    h_seen r = omap observe tr ∧ h_log r = cs_log st ∧ h_pos r = cs_pos st ∧ up_to_token p (h_prog r).

Lemma ut_view (p p' : prog relay (option unit)) (xs xs' : list observed) (log : list item) (q : pos) :
  up_to_token p p' → view_of refused (Half xs p log q) = view_of refused (Half xs' p' log q).
Proof. by destruct 1. Qed.

(** A call of the handler, as one of the session alone. *)
Lemma ut_call {B} (p p' : prog relay B) q v uid sh xs log :
  up_to_token p p' →
  match p with
  | Ret _ => True
  | Vis o k => ∀ x q' us, relay_responds w o q v = Some (x, q', us) →
      let y := (agent_call o uid x sh).1 in
      ∃ p1, half_step (relay_responds w) observe v (Half xs p' log q) =
              Some (Half (xs ++ option_list (observe (Event (I := relay) o y))) p1 (log ++ us) q') ∧
        up_to_token (k y) p1
  end.
Proof.
  unfold half_step. destruct 1 as [|o k1 k2 Hi Hk|id cn k1 k2 Hk|id tok tok' k1 k2 Hk]; [done|..];
    intros x q' us Hx; cbn [h_prog h_pos h_seen h_log].
  - exists (k2 x). rewrite Hx, agent_call_same by done. done.
  - exists (k2 x). by rewrite Hx.
  - exists (k2 tt). cbn [relay_responds answer fst] in *. by simplify_eq.
Qed.

Lemma follows_talks k st st' : follows k st → talks st st' → follows (S k) st'.
Proof.
  intros (tr0 & p0' & r & Htask & Hn & Hseen & Hlog & Hpos & Hu) Ht.
  destruct Ht as [s cl cl' log q tr p Hc Hs|s s' cl log q tr o k0 uid x q' us Hc Hx Hs];
    cbn [cs_sys cs_client cs_log cs_pos] in *; rewrite Hc in Htask; injection Htask as <- <-;
    destruct r as [xs pr lr qr]; cbn [h_seen h_log h_pos h_prog] in *; subst xs lr qr.
  - exists tr, p, (Half (omap observe tr) pr log q). split; [done|]. split; [|done].
    eapply nsteps_r; [exact Hn|]. constructor. by rewrite <-(ut_view _ _ (omap observe tr) _ _ _ Hu).
  - simpl in Hs. rewrite Hc in Hs. simpl in Hs.
    pose proof (ut_call _ _ q (view_of gone cl) uid (s_shared s) (omap observe tr) log Hu _ _ _ Hx) as (p1 & Hh & Hu1).
    destruct (agent_call o uid (x o) (s_shared s)) as [y sh]. injection Hs as <-. cbn [fst] in Hh, Hu1.
    eexists _, _, _. cbn [cs_sys with_tasks s_tasks]. split; [by rewrite list_lookup_insert_eq by eauto using lookup_lt_Some|].
    split; [eapply nsteps_r; [exact Hn|]; constructor; exact Hh|]. split_and!; try done. cbn [h_seen].
    by rewrite omap_app.
Qed.

Lemma follows_unfolds st0 k st : follows 0 st0 → unfolds st0 k st → follows k st.
Proof.
  intros Hf. induction 1 as [|k ch s s' cl log q _ IH Hsp Hs|k st st' _ IH Ht]; [done| |by eapply follows_talks].
  destruct IH as (tr & p & r & Htask & Hr). exists tr, p, r. split; [|exact Hr]. by eapply spares_task.
Qed.

(** Where the session alone can go on, the composed one can. *)
Lemma ut_progress {B} (p p' : prog relay B) xs log q v h :
  up_to_token p p' → half_step (relay_responds w) observe v (Half xs p' log q) = Some h →
  match p with Ret _ => False | Vis o k => ∃ z, relay_responds w o q v = Some z end.
Proof.
  unfold half_step. destruct 1; cbn [h_prog h_pos]; try done.
  - destruct (relay_responds w o q v); [eauto|done].
  - intros _. by eexists.
  - intros _. by eexists.
Qed.

Lemma talks_progress k st :
  follows k st →
  (∀ r, nsteps alone k (connected p0 handler) (cs_client st, r) → ∃ st1, alone (cs_client st, r) st1) →
  ∃ st', talks st st'.
Proof.
  intros (tr & p & r & Htask & Hn & Hseen & Hlog & Hpos & Hu) Hgo. destruct (Hgo r Hn) as [st1 H1].
  destruct st as [s cl log q], r as [xs pr lr qr]; cbn [cs_sys cs_client cs_log cs_pos h_seen h_log h_pos h_prog] in *.
  subst lr qr. inversion H1 as [l l' r' Hl|l r' r1 Hr]; subst.
  - eexists. eapply talks_client; [exact Htask|]. by rewrite (ut_view _ _ _ (omap observe tr) _ _ Hu).
  - pose proof (ut_progress _ _ _ _ _ _ _ Hu Hr) as Hz. destruct p as [a|o k0]; [done|]. destruct Hz as [[[y q'] us] Hz].
    set (x := λ o : rop, match relay_responds w o q (view_of gone cl) with
                         | Some (y, _, _) => y | None => (answer w o (Peer [] [])).1 end : rans o).
    assert (Hx : relay_responds w o q (view_of gone cl) = Some (x o, q', us)) by (unfold x; by rewrite Hz).
    destruct (step (AgentCall c 0 x) s) as [s'|] eqn:Hs.
    + eexists. by eapply talks_relay.
    + simpl in Hs. rewrite Htask in Hs. simpl in Hs. by destruct (agent_call _ _ _ _).
Qed.

(** Every run of the session in the relay, where alone all its schedules end in [(cf, rf)]. *)
Lemma unfolds_settles st0 n cf rf k st :
  settles alone (connected p0 handler) n (cf, rf) → follows 0 st0 → unfolds st0 k st →
  (k ≤ n)%nat ∧ ((k < n)%nat → ∃ st', talks st st') ∧
  (k = n → cs_client st = cf ∧
     ∃ tr p, s_tasks (cs_sys st) !! c = Some (AgentTask t tr p) ∧ omap observe tr = h_seen rf ∧
       up_to_token p (h_prog rf)).
Proof.
  intros Hset Hf Hk. pose proof (follows_unfolds _ _ _ Hf Hk) as Hfk. split_and!.
  - destruct Hfk as (tr & p & r & _ & Hn & _). by apply (proj2 Hset) in Hn as [? _].
  - intros Hlt. eapply talks_progress; [exact Hfk|]. intros r Hn. by eapply settles_progress.
  - intros ->. destruct Hfk as (tr & p & r & Htask & Hn & Hseen & _ & _ & Hu).
    pose proof (settles_end _ _ _ _ _ Hset Hn) as E. injection E as -> ->. split; [done|]. by exists tr, p.
Qed.
End composed.

(** ** From a registration to a user *)

Section registered.
Context `{Crypto, Yasna} (alloc : Z → bool) (shared_ctx : SharedCtx).
Abbreviation step := (step alloc shared_ctx).
Abbreviation reachable := (reachable alloc shared_ctx).

(** A handler that registered an agent left a link, which is never dropped. *)
Definition has_link (ls : list link) (id : string) (a : Agent) : Prop :=
  ∃ l, l ∈ ls ∧ l_id l = id ∧ l_agent l = a.
Definition linked (s : sys) : Prop :=
  ∀ c t tr p id a y, s_tasks s !! c = Some (AgentTask t tr p) →
    Event (I := relay) (ORegister id a) y ∈ tr → has_link (reg_links (sh_reg (s_shared s))) id a.

Lemma agent_call_links o uid x sh id a :
  has_link (reg_links (sh_reg sh)) id a → has_link (reg_links (sh_reg (agent_call o uid x sh).2)) id a.
Proof. destruct o; try done. intros (l & Hl & ?). exists l. split; [|done]. cbn. set_solver. Qed.

Lemma public_call_links o x sh :
  reg_links (sh_reg (public_call o x sh).2) = reg_links (sh_reg sh).
Proof. destruct o; try done. cbn. by destruct (pick_agent _ _). Qed.

Lemma cleanup_links j r r' id a :
  cleanup j r = Some r' → has_link (reg_links r) id a → has_link (reg_links r') id a.
Proof.
  unfold cleanup. destruct (reg_links r !! j) as [l|] eqn:Hj; [|done]. simpl. intros Hc (l0 & Hl0 & Hid & Ha).
  assert (Hx : ∀ pc, has_link (<[j := set_pc l pc]> (reg_links r)) id a).
  { intros pc. apply list_elem_of_lookup in Hl0 as [i Hi]. destruct (decide (i = j)) as [->|Hne].
    - rewrite Hj in Hi. injection Hi as ->. exists (set_pc l0 pc). split; [|done].
      apply list_elem_of_lookup. exists j. rewrite list_lookup_insert_eq; [done|]. eauto using lookup_lt_Some.
    - exists l0. split; [|done]. apply list_elem_of_lookup. exists i. by rewrite list_lookup_insert_ne. }
  destruct (l_pc l); simplify_eq; cbn [reg_links]; done || apply Hx.
Qed.

Lemma linked_call s i t tr o k uid x y sh :
  linked s → s_tasks s !! i = Some (AgentTask t tr (Vis o k)) →
  agent_call o uid x (s_shared s) = (y, sh) → ∀ c t' tr' p' id a z,
  <[i := AgentTask t (tr ++ [Event (I := relay) o y]) (k y)]> (s_tasks s) !! c = Some (AgentTask t' tr' p') →
  Event (I := relay) (ORegister id a) z ∈ tr' → has_link (reg_links (sh_reg sh)) id a.
Proof.
  intros Hl Hi Hc c t' tr' p' id a z Ht He.
  assert (Hold : has_link (reg_links (sh_reg (s_shared s))) id a → has_link (reg_links (sh_reg sh)) id a).
  { intros Hh. pose proof (agent_call_links o uid x (s_shared s) id a Hh) as Hh'. by rewrite Hc in Hh'. }
  destruct (decide (i = c)) as [->|Hne]; [|rewrite list_lookup_insert_ne in Ht by done; eauto].
  rewrite list_lookup_insert_eq in Ht by eauto using lookup_lt_Some. injection Ht as <- <- <-.
  apply elem_of_app in He as [He|He]; [eauto|]. apply list_elem_of_singleton in He.
  injection He as <- _. simpl in Hc. injection Hc as _ <-. exists (Link id uid a Live). split; [cbn; set_solver|done].
Qed.

Lemma linked_step ch s s' : step ch s = Some s' → linked s → linked s'.
Proof.
  intros Hs Hl. destruct ch as [t now| |i uid x|i x|j]; simpl in Hs.
  - destruct (Admission.try_admit (adm_of s t) now) as [r a]. destruct (set_adm_fields s t a) as [Ht Hm].
    destruct r; simplify_eq; unfold linked; cbn [with_tasks s_tasks s_shared]; rewrite Ht, Hm; [|done].
    intros c t' tr p id ag y [Hc|[_ Hc]]%lookup_app_Some He; [eauto|].
    apply list_lookup_singleton_Some in Hc as [_ Hc]. simplify_eq. by apply not_elem_of_nil in He.
  - simplify_eq. intros c t' tr p id ag y [Hc|[_ Hc]]%lookup_app_Some He; [by eapply Hl|].
    apply list_lookup_singleton_Some in Hc as [_ Hc]. done.
  - destruct (s_tasks s !! i) as [[t tr [|o k]|]|] eqn:Hi; try done. simpl in Hs.
    destruct (agent_call o uid (x o) (s_shared s)) as [y sh] eqn:Hc. injection Hs as <-.
    intros c t' tr' p' id a z Ht He. by eapply (linked_call s i t tr o k).
  - destruct (s_tasks s !! i) as [[|tr [|o k]]|] eqn:Hi; try done. simpl in Hs.
    pose proof (public_call_links o (x o) (s_shared s)) as Hreg.
    destruct (public_call o (x o) (s_shared s)) as [y sh]. injection Hs as <-. cbn [snd] in Hreg.
    intros c t' tr' p' id a z Ht He. cbn in *. rewrite Hreg. destruct (decide (i = c)) as [->|Hne].
    + by rewrite list_lookup_insert_eq in Ht by eauto using lookup_lt_Some.
    + rewrite list_lookup_insert_ne in Ht by done. by eapply Hl.
  - destruct (cleanup j _) as [r|] eqn:Hc; [|done]. simpl in Hs. injection Hs as <-.
    intros c t' tr' p' id a z Ht He. cbn in *. eapply cleanup_links; [exact Hc|]. by eapply Hl.
Qed.

Lemma linked_reachable s : reachable s → linked s.
Proof. apply rtc_invariant; [done|]. intros ? ? [c Hc]. by eapply linked_step. Qed.

(** The agent [a] is the one that users of [id] are sent to: a registration for [id] is
    live, and those that are not cleaned up are of [a]. *)
Definition only_agent (s : sys) (id : string) (a : Agent) : Prop :=
  let ls := reg_links (sh_reg (s_shared s)) in
  (∃ l, l ∈ ls ∧ l_id l = id ∧ l_pc l = Live) ∧
  ∀ l, l ∈ ls → l_id l = id → l_pc l = Live ∨ l_pc l = Closing → l_agent l = a.

Lemma only_agent_picked s id a x :
  reachable s → uids_distinct (reg_links (sh_reg (s_shared s))) → only_agent s id a →
  (public_call (PNextAgent id) x (s_shared s)).1 = Some a.
Proof.
  intros Hr Hd [(l & Hl & Hid & Hlive) Hall].
  pose proof (request_reaches_owner _ id (proj1 (maps_refine_reachable alloc shared_ctx s Hr)) Hd) as Ho.
  cbn. destruct (pick_agent _ id) as [[a'|] m].
  - destruct Ho as [(l' & Hl' & Hid' & <- & Hpc) _]. cbn. f_equal. by apply Hall.
  - destruct Ho as [Hno _]. by destruct (Hno l Hl Hid).
Qed.
End registered.

(** A user's connection that asks for [host], is given the agent [a] and meets no failure
    or timeout on the way. *)
Definition smooth (host : string) (a : Agent) (e : event port) : Prop :=
  match e with
  | Event o y =>
      match o return pans o → Prop with
      | PDeadline _ => λ y, y = false
      | PPeek => λ y, y = Some (host, false)
      | PNextAgent _ => λ y, y = Some a
      | POpenBi _ | PSendRequest _ _ | PResponse => λ y, y = true
      | _ => λ _, True
      end y
  end.

(** A run with an answer that is not smooth. *)
Ltac rough := let Hs := fresh in intros Hs; exfalso; rewrite ?Forall_cons in Hs; cbn in Hs; naive_solver.

Lemma smooth_public host id a :
  split_next "." host = Some id →
  wp (handle_public host) (λ tr _, Forall (smooth host a) tr →
    Event (I := port) (PNextAgent id) (Some a) ∈ tr ∧
    Event (I := port) (PublicPort.PCopy (agent_tunnel a)) tt ∈ tr).
Proof.
  intros Hid. unfold handle_public. rewrite Hid. cbn. intros [ag|]; cbn; [|rough].
  destruct ag as [conn|sender]; cbn.
  - intros [|]; cbn; [rough|]. intros [|]; cbn; [|rough]. intros [].
    rewrite !Forall_cons. cbn. intros ([= <-] & _). cbn. set_solver.
  - intros [|]; cbn; [|rough]. intros [|]; cbn; [rough|]. intros [|]; cbn; [|rough]. intros [].
    rewrite !Forall_cons. cbn. intros ([= <-] & _). cbn. set_solver.
Qed.

Lemma smooth_copies host id a :
  split_next "." host = Some id →
  wp public_connection (λ tr _, Forall (smooth host a) tr →
    Event (I := port) (PNextAgent id) (Some a) ∈ tr ∧
    Event (I := port) (PublicPort.PCopy (agent_tunnel a)) tt ∈ tr).
Proof.
  intros Hid. unfold public_connection. cbn. intros [|]; cbn; [rough|].
  intros [[h acme]|]; cbn; [|rough]. destruct (decide ((h, acme) = (host, false))) as [E|Hne].
  - injection E as -> ->. eapply wp_mono; [|by apply (smooth_public _ id a)].
    intros tr u Htr [_ [_ Hs]%Forall_cons]%Forall_cons. destruct (Htr Hs). set_solver.
  - eapply wp_mono; [|apply (wp_true _)].
    intros tr u _ [_ [Hs _]%Forall_cons]%Forall_cons. cbn in Hs. congruence.
Qed.

(** ** A pool member that is up *)

Definition piped (e : event mem) : option client_act :=
  match ev_op e with
  | MSpawnPipe acc target => Some (Forwards (acc_certs acc) (acc_keypair acc) target)
  | _ => None
  end.

Lemma h2_forward_pipes acc target streams :
  wp (h2_forward acc target streams) (λ tr _, omap piped tr =
    (λ _, Forwards (acc_certs acc) (acc_keypair acc) target) <$> List.filter id streams).
Proof.
  induction streams as [|responded streams IH]; [done|]. cbn [h2_forward prog_bind call wp]. intros [].
  destruct responded; cbn [prog_bind call wp]; [intros []|];
    (eapply wp_mono; [|exact IH]; intros tr u Htr; cbn; by rewrite Htr).
Qed.

(** What a member that is up on [certs] does: it serves the streams that arrive, each
    stream that was answered behind its chain. *)
Definition serves_streams (sh : H2Shared) (certs : list bytes) (key : TunnelKey) (tr : trace mem) : Prop :=
  ∃ streams end_,
    Event (I := mem) MStreams (streams, end_) ∈ tr ∧
    omap piped tr = (λ _, Forwards certs key (sh_local_addr sh)) <$> List.filter id streams.

Lemma serve_member_serves sh certs :
  let key := if sh_provisioner sh then identity_keypair (sh_conn sh) else agent_keypair (sh_conn sh) in
  wp (serve_member sh certs) (λ tr served, served = true ∧ serves_streams sh certs key tr).
Proof.
  intros key. unfold serve_member. fold key. cbn [build_tls_acceptor prog_bind call wp]. intros [] [streams e].
  cbn [fst snd]. rewrite wp_bind. eapply wp_mono; [|apply (h2_forward_pipes _ (sh_local_addr sh) streams)].
  intros tr u Htr. cbn. intros stopped []. split; [done|]. exists streams, e.
  split; [set_solver|]. cbn. by rewrite omap_app, Htr, app_nil_r.
Qed.

(** ** End to end *)

Section end_to_end.
Context `{CryptoOk, !Yasna, !YasnaOk, !CertGen, !CertGenOk, !TlsLibs}.
Context (w : world) (alloc : Z → bool) (shared_ctx : SharedCtx) (t : transport) (c : nat).
Context (agent identity : TunnelKey) (suffix : string) (ext : option bytes) (staging csr : bool).
Context (conn : Connection) (sig : bytes) (target : string).
Context (cw : client_world) (parse : string → option (list bytes)) (from_utf8_lossy : bytes → string).
Abbreviation handler := (handler alloc shared_ctx t c).
Abbreviation ctx := (ctx_of shared_ctx c).
Abbreviation id := (client_id conn).

(** The client's program on each transport, and its result: over QUIC the whole session,
    over H2 the exchange, whose chain a pool member then serves with. *)
Definition answers_with (t : transport) : Type := match t with OnQuic => unit | OnH2 => list bytes end.
Definition client_of (t : transport) (prov : bool) : prog cli (result client_error (answers_with t)) :=
  match t with
  | OnQuic => quic_loop_inner alloc parse target conn prov
  | OnH2 => h2_ctrl_exchange parse from_utf8_lossy conn prov
  end.
Definition came_up (t : transport) (certs : list bytes) : result client_error (answers_with t) :=
  match t with OnQuic => Ok tt | OnH2 => Ok certs end.
Definition gone_of (t : transport) : result client_error (answers_with t) → bool :=
  match t with OnQuic => quic_gone | OnH2 => exchange_failed end.

Definition key_of (prov : bool) : TunnelKey := if prov then identity else agent.
Definition acts_of (t : transport) (prov : bool) (certs : list bytes) : list client_act :=
  match t with OnQuic => session_acts certs (key_of prov) target (cw_streams cw) | OnH2 => [] end.

(** The tunnel stands in the state [st] of relay and client. *)
Definition established (prov : bool) (ka : string) (certs : list bytes) (fin : list client_act)
    (st : comp (result client_error (answers_with t))) : Prop :=
  let s := cs_sys st in
  (** the client has its chain, and over QUIC forwards behind it *)
  h_prog (cs_client st) = Ret (came_up t certs) ∧
  h_seen (cs_client st) = fin ++ acts_of t prov certs ∧
  (** the handler accepted it, and the registry has it *)
  (∃ tr, s_tasks s !! c = Some (AgentTask t tr (Ret (Some tt))) ∧
     omap observe tr = relay_acts ka id (agent_of t c)) ∧
  has_link (reg_links (sh_reg (s_shared s))) id (agent_of t c) ∧
  (** where users of the domain are sent while it is the client's only agent *)
  (uids_distinct (reg_links (sh_reg (s_shared s))) → only_agent s id (agent_of t c) →
     ∀ x, (public_call (PNextAgent id) x (s_shared s)).1 = Some (agent_of t c)) ∧
  (** and what a user who was sent there gets *)
  (∀ j tr r, s_tasks s !! j = Some (PublicTask tr (Ret r)) →
     Forall (smooth (domain conn) (agent_of t c)) tr →
     Event (I := port) (PNextAgent id) (Some (agent_of t c)) ∈ tr ∧
     Event (I := port) (PublicPort.PCopy (tunnel_of t c)) tt ∈ tr) ∧
  (** over H2, what the pool member does with the streams *)
  (t = OnH2 → ∀ sh tr served, sh_conn sh = conn → sh_provisioner sh = prov → sh_local_addr sh = target →
     runs (serve_member sh certs) tr served → serves_streams sh certs (key_of prov) tr).

Context (alloc_ok : ∀ n, n ≤ MAX_CTRL_FRAME → alloc n = true).
Context (Hbuilt : build_connection agent identity suffix ext staging csr = Ok conn).
Context (Halg : algorithm identity = EcdsaP256).
Context (Hsig : sign_recoverable identity (as_bytes (domain conn)) = Ok sig).
Context (Hadmit : handler_admits w ctx agent ext conn).
Context (Hutf8 : utf8 (domain conn)) (Hsuffix : suffix ∈ lc_domain_suffixes shared_ctx).
Context (Hdomain : Z.of_nat (length (as_bytes (domain conn))) ≤ MAX_CTRL_FRAME).

(** The session alone, on either transport. *)
Lemma session_settles prov ka certs fin :
  session_plan parse conn cw prov ka certs fin → Z.of_nat (length (as_bytes ka)) ≤ MAX_CTRL_FRAME →
  ∃ n cf rf, settles (session_step (gone_of t) w cw) (connected (client_of t prov) handler) n (cf, rf) ∧
    h_prog cf = Ret (came_up t certs) ∧ h_seen cf = fin ++ acts_of t prov certs ∧
    h_prog rf = Ret (Some tt) ∧ h_seen rf = relay_acts ka id (agent_of t c).
Proof.
  intros Hp Hka. destruct t.
  - destruct (quic_schedule w alloc ctx agent identity suffix ext staging csr conn sig target alloc_ok Hbuilt
      Halg Hsig Hadmit Hutf8 Hsuffix Hdomain cw parse prov ka certs fin Hp Hka) as (us & p & log & rp & Hr).
    destruct (duplex_settles _ _ _ _ _ _ (client_monotone cw) (relay_monotone w) _ _ _ Hr) as [n Hn]; [done|done|].
    by eexists n, _, _.
  - destruct (h2_schedule w ctx agent identity suffix ext staging csr conn sig Hbuilt Halg Hsig Hadmit Hutf8
      Hsuffix Hdomain cw parse from_utf8_lossy prov ka certs fin Hp Hka) as (us & p & log & rp & Hr & _).
    destruct (duplex_settles _ _ _ _ _ _ (client_monotone cw) (relay_monotone w) _ _ _ Hr) as [n Hn]; [done|done|].
    eexists n, _, _. split; [exact Hn|]. split; [done|]. split; [|done]. symmetry. apply app_nil_r.
Qed.

Lemma users_proxied s j tr r a :
  reachable alloc shared_ctx s → s_tasks s !! j = Some (PublicTask tr (Ret r)) →
  Forall (smooth (domain conn) a) tr →
  Event (I := port) (PNextAgent id) (Some a) ∈ tr ∧
  Event (I := port) (PublicPort.PCopy (agent_tunnel a)) tt ∈ tr.
Proof.
  intros Hr Hj. destruct (built_identity_accepted agent identity suffix ext staging csr conn sig Hbuilt Halg Hsig)
    as (_ & Hid & _).
  destruct (proj1 (sys_inv_reachable alloc shared_ctx s Hr) _ _ Hj) as [Hp _]. apply runs_reaches in Hp.
  exact (proj1 (runs_wp _ _) (smooth_copies _ _ a Hid) _ _ Hp).
Qed.

(** The facts a state of the relay gives once the session has ended. *)
Lemma ended_established prov ka certs fin st tr :
  reachable alloc shared_ctx (cs_sys st) →
  h_prog (cs_client st) = Ret (came_up t certs) → h_seen (cs_client st) = fin ++ acts_of t prov certs →
  s_tasks (cs_sys st) !! c = Some (AgentTask t tr (Ret (Some tt))) →
  omap observe tr = relay_acts ka id (agent_of t c) → established prov ka certs fin st.
Proof.
  intros Hr Hprog Hseen Htask Hobs. split; [done|]. split; [done|]. split; [by exists tr|]. split_and!.
  - assert (Hreg : Registered id (agent_of t c) ∈ omap observe tr)
      by (rewrite Hobs; unfold relay_acts; set_solver).
    apply list_elem_of_omap in Hreg as ([o y] & He & Ho).
    destruct o; cbn in Ho; try done; try (by case_bool_decide). injection Ho as <- <-.
    by eapply linked_reachable.
  - intros Hd Ho x. by eapply only_agent_picked.
  - intros j tru r Hj Hs. rewrite <-tunnel_of_agent. by eapply users_proxied.
  - intros _ sh trm served <- <- <- Hrun. destruct (built_keys _ _ _ _ _ _ _ Hbuilt) as (Hid & Hag & _).
    unfold key_of. rewrite <-Hid, <-Hag. exact (proj2 (proj1 (runs_wp _ _) (serve_member_serves sh certs) _ _ Hrun)).
Qed.

(** C1: the tunnel works end to end, over QUIC and over H2. Take any state of the running
    relay in which the handler [c] of a new connection has just been started, and at the
    other end of it a client with material from [build_connection], a P-256 identity and a
    domain of frame size, whose suffix the relay allows and whom the auth handler admits
    without a deployment source, and whose certificate is self-signed, cached, or obtained
    as leader or follower of a challenge. On a connection that loses nothing and on which
    no timer fires, whatever else happens in the relay meanwhile and however client,
    handler and all other tasks are scheduled, the session never deadlocks: it can go on
    until it has made a fixed number of steps, and it ends there. Then the client has its
    chain and let an order be finalized exactly when it leads one; the handler accepted it
    and the registry holds its agent; while that is the client's only agent not cleaned up,
    a user who asks for the client's id is sent to this very connection; a user's connection
    for the client's domain that was sent there, is over and met no failure of its own was
    proxied to it; and the client hands the streams that arrive to its local target behind
    its chain and the key the chain belongs to (over H2 as the pool member whose exchange
    this was, those streams that it could answer). *)
Theorem tunnel_end_to_end prov ka certs fin s :
  session_plan parse conn cw prov ka certs fin → Z.of_nat (length (as_bytes ka)) ≤ MAX_CTRL_FRAME →
  reachable alloc shared_ctx s → s_tasks s !! c = Some (AgentTask t [] handler) →
  let st0 := Comp s (Half [] (client_of t prov) [] (Pos 0 0)) [] (Pos 0 0) in
  ∃ n, ∀ k st, unfolds alloc shared_ctx w cw (gone_of t) t c st0 k st →
    (k ≤ n)%nat ∧
    ((k < n)%nat → ∃ st', talks alloc shared_ctx w cw (gone_of t) t c st st') ∧
    (k = n → established prov ka certs fin st).
Proof.
  intros Hp Hka Hr Htask st0.
  destruct (session_settles prov ka certs fin Hp Hka) as (n & cf & rf & Hset & Hc1 & Hc2 & Hr1 & Hr2).
  exists n. intros k st Hk.
  assert (Hf : follows alloc shared_ctx w cw (gone_of t) t c (client_of t prov) 0 st0).
  { eexists [], _, _. split; [exact Htask|]. split; [apply nsteps_O|]. split_and!; try done. apply ut_handler. }
  destruct (unfolds_settles _ _ _ _ _ _ _ _ _ _ _ _ _ _ Hset Hf Hk) as (Hle & Hgo & Hend).
  split; [done|]. split; [done|]. intros Hkn. destruct (Hend Hkn) as (Hcf & tr & p & Htr & Hobs & Hu).
  apply ut_returned in Hu. rewrite Hr1 in Hu. subst p.
  eapply ended_established; [eapply unfolds_reachable; [|exact Hk]; exact Hr|by rewrite Hcf|by rewrite Hcf|exact Htr|congruence].
Qed.
End end_to_end.

(** ** Witness *)

Section witnesses.
Import ToyKey ToyTls ToyCrypto.

(** A relay that has just admitted a connection on [t]. *)
Definition admitted (t : transport) : sys := run toy_alloc RelaySystem.toy_shared [AcceptAgent t 0] sys_init.

Lemma tunnel_end_to_end_witness :
  let st0 := Comp (admitted OnQuic) (Half [] (client_of toy_alloc conn "127.0.0.1:3000" toy_parse of_bytes OnQuic true)
                                      [] (Pos 0 0)) [] (Pos 0 0) in
  ∃ n, ∀ k st, unfolds toy_alloc RelaySystem.toy_shared toy_world toy_plan (gone_of OnQuic) OnQuic 0 st0 k st →
    (k ≤ n)%nat ∧
    ((k < n)%nat → ∃ st', talks toy_alloc RelaySystem.toy_shared toy_world toy_plan (gone_of OnQuic) OnQuic 0 st st').
Proof.
  intros st0. destruct (tunnel_end_to_end toy_world toy_alloc RelaySystem.toy_shared OnQuic 0 agent_key identity_key
    "example.com" None false false conn conn_sig "127.0.0.1:3000" toy_plan toy_parse of_bytes toy_alloc_ok) with
    (prov := true) (ka := "ka") (certs := [as_bytes "PEM"]) (fin := @nil client_act) (s := admitted OnQuic) as [n Hn];
    [vm_compute; reflexivity|reflexivity|vm_compute; reflexivity|split; [reflexivity|intros _; reflexivity]
    |vm_compute; reflexivity|by left|vm_compute; discriminate|by eapply plan_follower|vm_compute; discriminate
    |apply run_reachable, rtc_refl|reflexivity|].
  exists n. intros k st Hk. destruct (Hn k st Hk) as (Hle & Hgo & _). split; [exact Hle|exact Hgo].
Defined.
End witnesses.
