(* ===== verification/TunnelClient.v ===== *)
(** * TunnelClient.v: the client's top level

    tunnel-client/src/client.rs: [TunnelConfig], [TunnelClient::new] and its getters,
    [stop], [emit], and [run], which drives one or two connections per relay address
    as tasks, names the ones that end for good and decides how the tunnel ended. A
    task is the [connection_run] of Retry.v. *)

From S2P Require Import Prelude RustStr CertProvisioner Framing Key ClientTls Identity Retry.
From stdpp Require Import pretty.
Open Scope string_scope.
Open Scope Z_scope.
Open Scope list_scope.

(** ** Configuration *)

Record TunnelIdentityConfig := MkIdentity {
  keypair : TunnelKey;
  cert_extension : option bytes;
}.

(** The callbacks are given by whether they are set. *)
Record TunnelConfig := MkConfig {
  server_addrs : list string;
  local_addr : string;
  secondary_local_addr : option string;
  domain_suffix : string;
  force_h2 : bool;
  pool_size : Z;
  acme_email : option string;
  acme_creds_path : string;
  acme_staging : bool;
  cert_pem : option string;
  on_cert_issued : bool;
  on_connection_event : bool;
  primary_identity : TunnelIdentityConfig;
  reconnect : ReconnectPolicy;
  h2_keepalive : H2KeepAlive.t;
  self_signed_identity : option TunnelIdentityConfig;
}.

(** [stop_tx] is part of the running state below. *)
Record TunnelClient := MkClient {
  config : TunnelConfig;
  primary : Connection;
  secondary : option Connection;
}.

Definition PRIMARY_TAG : string := "PRI".
Definition SECONDARY_TAG : string := "SEC".

Inductive new_error :=
| PrimaryNotP256 | SecondaryNotP256 | NoServerAddrs | PoolSizeZero
| BadReconnect (e : ReconnectPolicy.invalid)
| BadKeepAlive (e : H2KeepAlive.invalid)
| BadConnection (e : build_error).

Definition is_p256 (i : TunnelIdentityConfig) : bool :=
  bool_decide (algorithm (keypair i) = EcdsaP256).

Section new.
Context `{Crypto, Yasna, CertGen, TlsLibs}.

Definition tunnel_client_new (config : TunnelConfig) : result new_error TunnelClient :=
  _ ← ensure (is_p256 (primary_identity config)) PrimaryNotP256;
  _ ← match self_signed_identity config with
      | Some sec => ensure (is_p256 sec) SecondaryNotP256
      | None => Ok tt
      end;
  _ ← ensure (negb (bool_decide (server_addrs config = []))) NoServerAddrs;
  _ ← ensure (negb (pool_size config =? 0)) PoolSizeZero;
  _ ← map_err BadReconnect (ReconnectPolicy.validate (reconnect config));
  _ ← map_err BadKeepAlive (H2KeepAlive.validate (h2_keepalive config));
  let primary_agent_keypair :=
    match self_signed_identity config with
    | Some sec => keypair sec
    | None => keypair (primary_identity config)
    end in
  primary ← map_err BadConnection
    (build_connection primary_agent_keypair (keypair (primary_identity config))
       (domain_suffix config) (cert_extension (primary_identity config))
       (acme_staging config) true);
  secondary ← match self_signed_identity config with
              | Some sec =>
                  Some <$> map_err BadConnection
                    (build_connection (keypair sec) (keypair sec) (domain_suffix config)
                       (cert_extension sec) (acme_staging config) false)
              | None => Ok None
              end;
  Ok (MkClient config primary secondary).
End new.

(** The getters. *)
Definition get_client_id (c : TunnelClient) : string := client_id (primary c).
Definition get_url (c : TunnelClient) : string := url (primary c).
Definition secondary_client_id (c : TunnelClient) : option string := client_id <$> secondary c.
Definition secondary_url (c : TunnelClient) : option string := url <$> secondary c.

(** ** The tasks of [run] *)

(** What a spawned task is given: which connection, to which relay, with the ACME
    provisioner or without, under which tag, forwarding where. *)
Record task := MkTask {
  t_conn : Connection;
  t_addr : string;
  t_provisioner : bool;
  t_tag : string;
  t_target : string;
}.

Definition primary_task (c : TunnelClient) (addr : string) : task :=
  MkTask (primary c) addr true PRIMARY_TAG (local_addr (config c)).
Definition secondary_task (c : TunnelClient) (addr : string) (sec : Connection) : task :=
  MkTask sec addr false SECONDARY_TAG
    (default (local_addr (config c)) (secondary_local_addr (config c))).

(** In spawn order; a task's id is its position. *)
Definition tasks_of (c : TunnelClient) : list task :=
  server_addrs (config c) ≫= λ addr,
    primary_task c addr :: option_list (secondary_task c addr <$> secondary c).

(** The provisioner [run] starts with, a configured certificate seeded. *)
Definition run_provisioner `{Pem} (now : Now) (c : TunnelClient) : provisioner :=
  match cert_pem (config c) with
  | Some pem => seed now (domain (primary c)) (public_key_raw (identity_keypair (primary c))) pem new
  | None => new
  end.

(** How a task ended, as [join_next_with_id] reports it. *)
Inductive task_end := TaskOk | TaskErr (msg : string) | TaskPanicked (msg : string) | TaskCancelled.

(** The error [connection_run] returns when it gives up. *)
Definition give_up_text (t : task) (attempts : Z) (reason : option string) : string :=
  "TUNNEL[" +:+ t_tag t +:+ "/" +:+ t_addr t +:+ "]: giving up after " +:+ pretty attempts +:+
  " failed attempts" +:+
  match reason with
  | Some r => ", last one rejected by relay: " +:+ r
  | None => ""
  end.

(** The end of [connection_run] over some iterations; [None] while it goes on. *)
Definition connection_end (c : TunnelClient) (t : task) (its : list iteration) : option task_end :=
  match (connection_run (reconnect (config c)) (force_h2 (config c)) its).2 with
  | EndedOk => Some TaskOk
  | GaveUpAfter n reason => Some (TaskErr (give_up_text t n reason))
  | Running _ => None
  end.

(** An iteration in which nobody saw [stop()]. *)
Definition calm (it : iteration) : bool :=
  negb (it_stopped it) && negb (it_stop_in_wait it) &&
  match it_quic it with Some Stopped => false | _ => true end &&
  match it_h2 it with Stopped => false | _ => true end.

(** ** [run] *)

Inductive task_state := TaskRunning | TaskEnded (e : task_end) | TaskJoined.

Inductive run_pc :=
| AtHead                                   (** [while !self.stopped()] *)
| Selecting                                (** in the [select!] *)
| RunReturned (r : result (option string) unit).   (** the error: the last cause, if any *)

(** [rs_log] is what the loop has joined so far, latest first; [rs_events] what
    [on_connection_event] was given, latest first. *)
Record run_state := MkRun {
  rs_tasks : list task_state;
  owners : gmap nat (string * string);
  stop_flag : bool;
  rs_pc : run_pc;
  last_err : option string;
  rs_log : list (nat * task_end);
  rs_events : list (string * string * ConnectionEvent);
}.

(** [emit]: the sink gets the event if there is one. *)
Definition emit (c : TunnelClient) (ev : string * string * ConnectionEvent)
    (l : list (string * string * ConnectionEvent)) :=
  if on_connection_event (config c) then ev :: l else l.

(** [owner_of]: removes and returns the owner; a task without one is named ["?"]. *)
Definition owner_of (m : gmap nat (string * string)) (id : nat) :
    (string * string) * gmap nat (string * string) :=
  (default ("?", "?") (m !! id), delete id m).

Definition owner (t : task) : string * string := (t_tag t, t_addr t).

(** All tasks spawned; [stop()] may have been called before. *)
Definition run_init (c : TunnelClient) (stopped : bool) : run_state :=
  MkRun (replicate (length (tasks_of c)) TaskRunning)
    (map_seq 0 (owner <$> tasks_of c)) stopped AtHead None [] [].

Definition with_pc (p : run_pc) (s : run_state) : run_state :=
  MkRun (rs_tasks s) (owners s) (stop_flag s) p (last_err s) (rs_log s) (rs_events s).
Definition end_task (i : nat) (e : task_end) (s : run_state) : run_state :=
  MkRun (<[i := TaskEnded e]> (rs_tasks s)) (owners s) (stop_flag s) (rs_pc s) (last_err s)
    (rs_log s) (rs_events s).

(** The cause in a [GaveUp], if the end calls for one. *)
Definition gave_up_cause (e : task_end) : option string :=
  match e with
  | TaskErr m => Some m
  | TaskPanicked m => Some ("tunnel connection panicked: " +:+ m)
  | TaskOk | TaskCancelled => None
  end.

(** The arms that handle a joined task. *)
Definition joined_task (c : TunnelClient) (i : nat) (e : task_end) (s : run_state) : run_state :=
  let '(owner, rest) := owner_of (owners s) i in
  let tasks := <[i := TaskJoined]> (rs_tasks s) in
  match gave_up_cause e with
  | Some cause =>
      MkRun tasks rest (stop_flag s) AtHead (Some cause) ((i, e) :: rs_log s)
        (emit c (owner.1, owner.2, GaveUp cause) (rs_events s))
  | None =>
      MkRun tasks rest (stop_flag s) AtHead (last_err s) ((i, e) :: rs_log s) (rs_events s)
  end.

Definition is_joined (t : task_state) : bool := match t with TaskJoined => true | _ => false end.
Definition is_running (t : task_state) : bool := match t with TaskRunning => true | _ => false end.
Definition is_returned (p : run_pc) : bool := match p with RunReturned _ => true | _ => false end.
Definition is_gave_up (ev : ConnectionEvent) : bool := match ev with GaveUp _ => true | _ => false end.

Inductive run_event :=
| EvStop                                        (** [stop()], from any thread *)
| EvTaskEvent (i : nat) (ev : ConnectionEvent)  (** a task reports its connection *)
| EvTaskEnds (i : nat) (its : list iteration)   (** its [connection_run] returns *)
| EvTaskPanics (i : nat) (msg : string)
| EvTaskCancelled (i : nat)                     (** the runtime shuts down *)
| EvHead                                        (** the loop's test *)
| EvSelectStop                                  (** [stop.changed()] *)
| EvSelectJoin (i : nat)
| EvSelectNone.                                 (** no task left *)

(** Whether it is [run] itself that moves. *)
Definition own_move (e : run_event) : bool :=
  match e with EvHead | EvSelectStop | EvSelectJoin _ | EvSelectNone => true | _ => false end.

Definition run_apply (c : TunnelClient) (e : run_event) (s : run_state) : option run_state :=
  if is_returned (rs_pc s) then None
  else
    match e with
    | EvStop =>
        Some (MkRun (rs_tasks s) (owners s) true (rs_pc s) (last_err s) (rs_log s) (rs_events s))
    | EvTaskEvent i ev =>
        t ← tasks_of c !! i;
        if bool_decide (is_running <$> rs_tasks s !! i = Some true) && negb (is_gave_up ev) then
          Some (MkRun (rs_tasks s) (owners s) (stop_flag s) (rs_pc s) (last_err s) (rs_log s)
                  (emit c (t_tag t, t_addr t, ev) (rs_events s)))
        else None
    | EvTaskEnds i its =>
        t ← tasks_of c !! i;
        e ← connection_end c t its;
        if bool_decide (is_running <$> rs_tasks s !! i = Some true) &&
           (stop_flag s || forallb calm its)
        then Some (end_task i e s) else None
    | EvTaskPanics i msg =>
        if bool_decide (is_running <$> rs_tasks s !! i = Some true)
        then Some (end_task i (TaskPanicked msg) s) else None
    | EvTaskCancelled i =>
        if bool_decide (is_running <$> rs_tasks s !! i = Some true)
        then Some (end_task i TaskCancelled s) else None
    | EvHead =>
        match rs_pc s with
        | AtHead => Some (with_pc (if stop_flag s then RunReturned (Ok tt) else Selecting) s)
        | _ => None
        end
    | EvSelectStop =>
        match rs_pc s with
        | Selecting => if stop_flag s then Some (with_pc (RunReturned (Ok tt)) s) else None
        | _ => None
        end
    | EvSelectJoin i =>
        match rs_pc s, rs_tasks s !! i with
        | Selecting, Some (TaskEnded e) => Some (joined_task c i e s)
        | _, _ => None
        end
    | EvSelectNone =>
        match rs_pc s with
        | Selecting =>
            if forallb is_joined (rs_tasks s) then Some (with_pc (RunReturned (Err (last_err s))) s)
            else None
        | _ => None
        end
    end.

Definition run_step (c : TunnelClient) (s s' : run_state) : Prop := ∃ e, run_apply c e s = Some s'.

Fixpoint run_execute (c : TunnelClient) (es : list run_event) (s : run_state) : option run_state :=
  match es with
  | [] => Some s
  | e :: es => s ← run_apply c e s; run_execute c es s
  end.

Lemma run_execute_rtc c es s s' : run_execute c es s = Some s' → rtc (run_step c) s s'.
Proof.
  revert s. induction es as [|e es IH]; intros s; simpl; [by intros [= ->]|].
  destruct (run_apply c e s) as [s1|] eqn:E; [|done]. simpl. intros Hr.
  eapply rtc_l; [by exists e|]. by apply IH.
Qed.

(** ** A connection returns [Ok] only when stopped *)

Lemma iterate_calm force r bound it s : calm it = true → iterate force r bound it ≠ Halt s.
Proof.
  unfold calm. rewrite !andb_true_iff, !negb_true_iff. intros (((H1 & H2) & H3) & H4).
  unfold iterate. rewrite H1. unfold session_of, quic_attempt, RetryState.wait. rewrite H2.
  repeat case_match; simplify_eq/=; done.
Qed.

Lemma calm_loop_not_ok force r bound its :
  forallb calm its = true → (connection_loop force r bound its).2 ≠ EndedOk.
Proof.
  revert r bound. induction its as [|it its IH]; intros r bound; cbn [forallb connection_loop]; [done|].
  intros [Hit Hits]%andb_true_iff.
  destruct (iterate force r bound it) as [s|n reason|r' b' s] eqn:E; [|done|].
  - by destruct (iterate_calm force r bound it s Hit).
  - specialize (IH r' b' Hits). by destruct (connection_loop force r' b' its) as [steps e].
Qed.

Lemma calm_not_ok c t its : forallb calm its = true → connection_end c t its ≠ Some TaskOk.
Proof.
  intros Hc. unfold connection_end, connection_run.
  pose proof (calm_loop_not_ok (force_h2 (config c)) (RetryState.new (reconnect (config c))) false its Hc).
  by destruct (connection_loop _ _ _ _).2.
Qed.

(** ** Invariant of [run] *)

Abbreviation lifecycle := (list (string * string * ConnectionEvent)).

Definition gave_ups (l : lifecycle) : lifecycle := List.filter (λ x, is_gave_up x.2) l.

(** The event a joined task owes the application. *)
Definition gave_up_event (c : TunnelClient) (x : nat * task_end) : option (string * string * ConnectionEvent) :=
  t ← tasks_of c !! x.1;
  cause ← gave_up_cause x.2;
  Some (t_tag t, t_addr t, GaveUp cause).

Definition pc_ok (s : run_state) : Prop :=
  match rs_pc s with
  | AtHead => True
  | Selecting => TaskOk ∉ (rs_log s).*2
  | RunReturned (Ok _) => stop_flag s = true
  | RunReturned (Err m) =>
      m = last_err s ∧ Forall (λ t, is_joined t = true) (rs_tasks s) ∧ TaskOk ∉ (rs_log s).*2
  end.

Record run_inv (c : TunnelClient) (s : run_state) : Prop := {
  ri_len : length (rs_tasks s) = length (tasks_of c);
  ri_owners : ∀ i, owners s !! i =
    match rs_tasks s !! i with
    | Some TaskRunning | Some (TaskEnded _) => owner <$> tasks_of c !! i
    | _ => None
    end;
  ri_joined : ∀ i, rs_tasks s !! i = Some TaskJoined ↔ i ∈ (rs_log s).*1;
  ri_nodup : NoDup (rs_log s).*1;
  ri_gave_ups : gave_ups (rs_events s) =
    if on_connection_event (config c) then omap (gave_up_event c) (rs_log s) else [];
  ri_last : last_err s = head (omap (λ x, gave_up_cause x.2) (rs_log s));
  ri_ended_ok : ∀ i, rs_tasks s !! i = Some (TaskEnded TaskOk) → stop_flag s = true;
  ri_joined_ok : TaskOk ∈ (rs_log s).*2 → stop_flag s = true;
  ri_pc : pc_ok s;
}.

Lemma run_inv_init c b : run_inv c (run_init c b).
Proof.
  split; cbn; try done.
  - apply length_replicate.
  - intros i. rewrite lookup_map_seq_0, list_lookup_fmap.
    destruct (tasks_of c !! i) as [t|] eqn:E; cbn.
    + by rewrite lookup_replicate_2 by (by eapply lookup_lt_Some).
    + by destruct (replicate _ _ !! i) as [[]|].
  - intros i. split; [|by intros ?%not_elem_of_nil]. by intros [? ?]%lookup_replicate_1.
  - constructor.
  - by destruct (on_connection_event _).
  - by intros i [? ?]%lookup_replicate_1.
  - by intros ?%not_elem_of_nil.
Qed.

(** What [end_task] needs and keeps. *)
Lemma run_inv_end c s i e :
  run_inv c s → is_running <$> rs_tasks s !! i = Some true → (e = TaskOk → stop_flag s = true) →
  is_returned (rs_pc s) = false → run_inv c (end_task i e s).
Proof.
  intros [] Hi He Hret. destruct (rs_tasks s !! i) as [[]|] eqn:Ei; try done.
  assert (Hlt : (i < length (rs_tasks s))%nat) by (by eapply lookup_lt_Some).
  split; cbn; try done.
  - by rewrite length_insert.
  - intros j. rewrite ri_owners0. destruct (decide (i = j)) as [<-|].
    + by rewrite list_lookup_insert_eq, Ei.
    + by rewrite list_lookup_insert_ne.
  - intros j. rewrite <-ri_joined0. destruct (decide (i = j)) as [<-|].
    + by rewrite list_lookup_insert_eq, Ei.
    + by rewrite list_lookup_insert_ne.
  - intros j. destruct (decide (i = j)) as [<-|]; [|rewrite list_lookup_insert_ne by done; eauto].
    rewrite list_lookup_insert_eq by done. intros [= ->]. auto.
  - unfold pc_ok in *. cbn. by destruct (rs_pc s).
Qed.

Lemma gave_ups_emit c ev l :
  gave_ups (emit c ev l) =
  if on_connection_event (config c) && is_gave_up ev.2 then ev :: gave_ups l else gave_ups l.
Proof. unfold emit. destruct (on_connection_event _); cbn; [|done]. by destruct (is_gave_up _). Qed.

(** Joining a task: it leaves the map of owners and is named in its own event. *)
Lemma run_inv_join c s i e :
  run_inv c s → rs_tasks s !! i = Some (TaskEnded e) → run_inv c (joined_task c i e s).
Proof.
  intros [] Ei. assert (Hlt : (i < length (rs_tasks s))%nat) by (by eapply lookup_lt_Some).
  assert (∃ t, tasks_of c !! i = Some t) as [t Ht].
  { apply lookup_lt_is_Some. by rewrite <-ri_len0. }
  assert (Hown : owners s !! i = Some (owner t)) by (by rewrite ri_owners0, Ei, Ht).
  assert (Hnew : i ∉ (rs_log s).*1) by (rewrite <-ri_joined0, Ei; done).
  unfold joined_task, owner_of. rewrite Hown. cbn [default from_option id].
  assert (Howners : ∀ j, delete i (owners s) !! j =
    match <[i := TaskJoined]> (rs_tasks s) !! j with
    | Some TaskRunning | Some (TaskEnded _) => owner <$> tasks_of c !! j
    | _ => None
    end).
  { intros j. destruct (decide (i = j)) as [<-|].
    - by rewrite lookup_delete_eq, list_lookup_insert_eq.
    - by rewrite lookup_delete_ne, list_lookup_insert_ne, ri_owners0. }
  assert (Hj : ∀ j, <[i := TaskJoined]> (rs_tasks s) !! j = Some TaskJoined ↔
            j ∈ i :: (rs_log s).*1).
  { intros j. rewrite elem_of_cons, <-ri_joined0. destruct (decide (i = j)) as [<-|].
    - rewrite list_lookup_insert_eq by done. naive_solver.
    - rewrite list_lookup_insert_ne by done. naive_solver. }
  assert (Hok : ∀ j, <[i := TaskJoined]> (rs_tasks s) !! j = Some (TaskEnded TaskOk) →
            stop_flag s = true).
  { intros j [(_ & [=] & _)|[_ H]]%list_lookup_insert_Some. by eapply ri_ended_ok0. }
  assert (Hev : gave_up_event c (i, e) =
            (λ m, (t_tag t, t_addr t, GaveUp m)) <$> gave_up_cause e).
  { unfold gave_up_event. cbn. rewrite Ht. cbn. by destruct (gave_up_cause e). }
  assert (Hlog : TaskOk ∈ e :: (rs_log s).*2 → stop_flag s = true).
  { rewrite elem_of_cons. intros [<-|]; eauto. }
  destruct (gave_up_cause e) as [cause|] eqn:Hc; (split; cbn -[gave_ups gave_up_event]; try done;
    [by rewrite length_insert|by constructor|..]).
  - rewrite gave_ups_emit, ri_gave_ups0, Hev. by destruct (on_connection_event _).
  - by rewrite Hc.
  - by rewrite ri_gave_ups0, Hev.
  - by rewrite Hc.
Qed.

(** A step that moves the program counter only. *)
Lemma run_inv_pc c s p : run_inv c s → pc_ok (with_pc p s) → run_inv c (with_pc p s).
Proof. intros [] Hp. by split. Qed.

Lemma run_apply_inv c e s s' : run_inv c s → run_apply c e s = Some s' → run_inv c s'.
Proof.
  intros Hi. unfold run_apply. destruct (is_returned (rs_pc s)) eqn:Hret; [done|].
  destruct e as [|i ev|i its|i msg|i| | |i|].
  - intros [= <-]. destruct Hi. split; try done. unfold pc_ok in *. cbn. by destruct (rs_pc s).
  - destruct (tasks_of c !! i) as [t|]; [|done]. cbn.
    destruct (bool_decide _ && negb (is_gave_up ev)) eqn:Hb; [|done]. intros [= <-].
    apply andb_true_iff in Hb as [_ Hg%negb_true_iff]. destruct Hi. split; try done.
    cbn [rs_events rs_log]. rewrite gave_ups_emit. cbn [snd]. by rewrite Hg, andb_false_r.
  - destruct (tasks_of c !! i) as [t|]; [|done]. cbn.
    destruct (connection_end c t its) as [e|] eqn:He; [|done]. cbn.
    destruct (bool_decide_reflect (is_running <$> rs_tasks s !! i = Some true)); [|done]. cbn.
    destruct (stop_flag s || forallb calm its) eqn:Hs; [|done]. intros [= <-].
    apply run_inv_end; try done. intros ->. apply orb_true_iff in Hs as [|Hs]; [done|].
    by destruct (calm_not_ok c t its Hs).
  - case_bool_decide; [|done]. intros [= <-]. by apply run_inv_end.
  - case_bool_decide; [|done]. intros [= <-]. by apply run_inv_end.
  - destruct (rs_pc s); try done. intros [= <-]. apply run_inv_pc; [done|].
    destruct (stop_flag s) eqn:Hs; [done|]. cbn. intros Hok. apply (ri_joined_ok _ _ Hi) in Hok. congruence.
  - destruct (rs_pc s); try done. destruct (stop_flag s) eqn:Hs; [|done]. intros [= <-].
    by apply run_inv_pc.
  - destruct (rs_pc s), (rs_tasks s !! i) as [[]|] eqn:Ei; try done. intros [= <-].
    by apply run_inv_join.
  - destruct (rs_pc s) eqn:Hpc; try done. destruct (forallb is_joined (rs_tasks s)) eqn:Hj; [|done].
    intros [= <-]. apply run_inv_pc; [done|]. pose proof (ri_pc _ _ Hi) as Hp.
    unfold pc_ok in *. rewrite Hpc in Hp. split_and!; [done| |done].
    apply Forall_forall. intros t Ht%list_elem_of_In. by eapply forallb_forall in Hj.
Qed.

Lemma run_reachable_inv c b s : rtc (run_step c) (run_init c b) s → run_inv c s.
Proof.
  apply (rtc_invariant _ (run_inv c)); [apply run_inv_init|].
  intros y z [e He] Hy. by eapply run_apply_inv.
Qed.

(** Every task of a run that has joined them all appears in its log. *)
Lemma run_all_logged c s i t :
  run_inv c s → Forall (λ t, is_joined t = true) (rs_tasks s) → tasks_of c !! i = Some t →
  ∃ e, (i, e) ∈ rs_log s.
Proof.
  intros Hi Hall Ht. destruct (lookup_lt_is_Some_2 (rs_tasks s) i) as [st Hst].
  { rewrite (ri_len _ _ Hi). by eapply lookup_lt_Some. }
  pose proof (Forall_lookup_1 _ _ _ _ Hall Hst) as Hj. destruct st; try done.
  apply (ri_joined _ _ Hi), list_elem_of_fmap in Hst as ([j e] & -> & Hin). by exists e.
Qed.

(** [run] is never stuck: it can move, or it waits for a task that is still running. *)
Lemma run_can_move c s :
  is_returned (rs_pc s) = false →
  (∃ e s', own_move e = true ∧ run_apply c e s = Some s') ∨
  (stop_flag s = false ∧ ∃ i, rs_tasks s !! i = Some TaskRunning).
Proof.
  unfold run_apply. intros Hret. destruct (rs_pc s) eqn:Hpc; [| |done].
  { left. exists EvHead. eauto. }
  destruct (stop_flag s) eqn:Hs; [left; exists EvSelectStop; eauto|].
  destruct (forallb is_joined (rs_tasks s)) eqn:Hj; [left; exists EvSelectNone; eauto|].
  assert (∃ i t, rs_tasks s !! i = Some t ∧ is_joined t = false) as (i & t & Hi & Ht).
  { destruct (decide (Forall (λ t, is_joined t = true) (rs_tasks s))) as [Hall|Hn].
    - rewrite Forall_forall in Hall. exfalso. apply not_true_iff_false in Hj. apply Hj.
      apply forallb_forall. intros t Ht%list_elem_of_In. by apply Hall.
    - apply not_Forall_Exists in Hn; [|apply _]. apply Exists_exists in Hn as (t & Ht & Hf).
      apply list_elem_of_lookup in Ht as [i Hi]. exists i, t. split; [done|].
      by apply not_true_iff_false. }
  destruct t as [|e|]; [by right; eauto| |done].
  left. exists (EvSelectJoin i), (joined_task c i e s). by rewrite Hi.
Qed.

(** C17: [run] tells the truth about its connections. In every interleaving of the
    tasks, of [stop()] and of the loop: each task is joined at most once; the
    application is told [GaveUp] exactly once for every task that gave up or panicked,
    under that task's own tag and relay address and with its own cause, and for no
    other (the ["?"] owner never appears); a task that ended [Ok] was stopped. [run]
    returns [Ok] only if [stop()] was called, and an error only if every single task
    has ended by itself, none of them on request, with the cause of the last one that
    gave up; and until it returns, it can move or some task is still running. *)
Theorem run_reports_truthfully c b s :
  rtc (run_step c) (run_init c b) s →
  NoDup (rs_log s).*1 ∧
  gave_ups (rs_events s) =
    (if on_connection_event (config c) then omap (gave_up_event c) (rs_log s) else []) ∧
  (TaskOk ∈ (rs_log s).*2 → stop_flag s = true) ∧
  match rs_pc s with
  | RunReturned (Ok _) => stop_flag s = true
  | RunReturned (Err cause) =>
      cause = head (omap (λ x, gave_up_cause x.2) (rs_log s)) ∧
      ∀ i t, tasks_of c !! i = Some t → ∃ e, (i, e) ∈ rs_log s ∧ e ≠ TaskOk
  | _ =>
      (∃ e s', own_move e = true ∧ run_apply c e s = Some s') ∨
      (stop_flag s = false ∧ ∃ i, rs_tasks s !! i = Some TaskRunning)
  end.
Proof.
  intros Hi%run_reachable_inv. pose proof (ri_pc _ _ Hi) as Hp. unfold pc_ok in Hp.
  split_and!; [apply Hi|apply Hi|apply Hi|].
  destruct (rs_pc s) as [| |[u|m]] eqn:Hpc; [by apply run_can_move; rewrite Hpc..|done|].
  destruct Hp as (-> & Hall & Hnok). split; [apply Hi|]. intros i t Ht.
  destruct (run_all_logged c s i t Hi Hall Ht) as [e He]. exists e. split; [done|].
  intros ->. apply Hnok. by apply (list_elem_of_fmap_2 snd (rs_log s) (i, TaskOk)).
Qed.

(** ** What [new] guarantees *)

(** The key that signs the agent certificates of both connections. *)
Definition agent_key_of (cfg : TunnelConfig) : TunnelKey :=
  match self_signed_identity cfg with
  | Some sec => keypair sec
  | None => keypair (primary_identity cfg)
  end.

Lemma new_Ok `{Crypto, Yasna, CertGen, TlsLibs} cfg c :
  tunnel_client_new cfg = Ok c →
  config c = cfg ∧ is_p256 (primary_identity cfg) = true ∧ server_addrs cfg ≠ [] ∧
  pool_size cfg ≠ 0 ∧ ReconnectPolicy.validate (reconnect cfg) = Ok tt ∧
  H2KeepAlive.validate (h2_keepalive cfg) = Ok tt ∧
  build_connection (agent_key_of cfg) (keypair (primary_identity cfg)) (domain_suffix cfg)
    (cert_extension (primary_identity cfg)) (acme_staging cfg) true = Ok (primary c) ∧
  match self_signed_identity cfg with
  | Some sec => is_p256 sec = true ∧ ∃ sc, secondary c = Some sc ∧
      build_connection (keypair sec) (keypair sec) (domain_suffix cfg) (cert_extension sec)
        (acme_staging cfg) false = Ok sc
  | None => secondary c = None
  end.
Proof.
  unfold tunnel_client_new, agent_key_of, mbind, result_bind, ensure, map_err. intros Hn.
  destruct (is_p256 (primary_identity cfg)); [|done].
  destruct (ReconnectPolicy.validate _) as [[]|]; [|by split_matches].
  destruct (H2KeepAlive.validate _) as [[]|]; [|by split_matches].
  destruct (Z.eqb_spec (pool_size cfg) 0); [by split_matches|].
  destruct (bool_decide_reflect (server_addrs cfg = [])); [by split_matches|].
  destruct (self_signed_identity cfg) as [sec|]; cbn in Hn.
  - destruct (is_p256 sec); [|done].
    destruct (build_connection _ _ _ _ _ true) as [pc|] eqn:Hp; [|done].
    destruct (build_connection _ _ _ _ _ false) as [sc|] eqn:Hs; [|done].
    simplify_eq/=. split_and!; eauto.
  - destruct (build_connection _ _ _ _ _ true) as [pc|] eqn:Hp; [|done]. by simplify_eq/=.
Qed.

(** The tasks of a client, by connection. *)
Lemma elem_of_tasks c t :
  t ∈ tasks_of c ↔ ∃ addr, addr ∈ server_addrs (config c) ∧
    (t = primary_task c addr ∨ ∃ sec, secondary c = Some sec ∧ t = secondary_task c addr sec).
Proof.
  unfold tasks_of. rewrite list_elem_of_bind. setoid_rewrite elem_of_cons.
  split; intros (addr & Ha).
  - destruct Ha as [[->|Ht] Hin]; exists addr; (split; [done|]); [by left|right].
    destruct (secondary c) as [sec|]; cbn in Ht; [|by apply not_elem_of_nil in Ht].
    apply list_elem_of_singleton in Ht as ->. eauto.
  - destruct Ha as [Hin [->|(sec & Hs & ->)]]; exists addr; (split; [|done]); [by left|right].
    rewrite Hs. by apply list_elem_of_singleton.
Qed.

Section new_sound.
Context `{CryptoOk, !Yasna, !YasnaOk, !CertGen, !CertGenOk, !TlsLibs}.

(** A connection as the relay will see it. *)
Definition presentable (cfg : TunnelConfig) (ext : option bytes) (conn : Connection) : Prop :=
  (∀ sig, sign_recoverable (identity_keypair conn) (as_bytes (domain conn)) = Ok sig →
     ∃ pk, recover_identity_pubkey (domain conn) sig = Some pk ∧ id_from_pubkey pk = client_id conn) ∧
  (∀ suffixes, domain_suffix cfg ∈ suffixes → allowed_suffix (domain conn) suffixes = true) ∧
  pubkey_from_cert (agent_cert conn) = Some (public_key_raw (agent_key_of cfg)) ∧
  custom_data_from_cert (agent_cert conn) = ext ∧
  agent_keypair conn = agent_key_of cfg ∧
  domain conn = client_id conn +:+ "." +:+ domain_suffix cfg ∧
  url conn = "https://" +:+ domain conn ∧
  client_tls_new (agent_cert conn) (agent_key_of cfg) (acme_staging cfg) = Ok (conn_tls conn).

Lemma built_presentable cfg identity ext csr conn :
  algorithm identity = EcdsaP256 →
  build_connection (agent_key_of cfg) identity (domain_suffix cfg) ext (acme_staging cfg) csr = Ok conn →
  presentable cfg ext conn.
Proof.
  intros Ha Hb. destruct (built_keys _ _ _ _ _ _ _ Hb) as (Hi & Hag & _).
  destruct (built_cert_fields _ _ _ _ _ _ _ Hb) as [Hpk Hext].
  destruct (built_tls _ _ _ _ _ _ _ Hb) as [Ht Hurl].
  destruct (build_connection_Ok _ _ _ _ _ _ _ Hb) as (_ & _ & _ & _ & Hdom & _).
  split_and!; try done.
  - intros sig. rewrite Hi. intros Hs.
    by destruct (built_identity_accepted _ _ _ _ _ _ _ _ Hb Ha Hs) as [? _].
  - intros ss Hs. apply allowed_suffix_spec. right.
    exists (domain_suffix cfg), (client_id conn). by rewrite Hdom.
Qed.

(** C18: a client that [new] accepts is one a relay can accept. The configuration
    passed every check (at least one relay, a pool of at least one, a retry and a
    keep-alive policy the loops can honour), [run] has tasks to drive, and each of its
    connections, primary and secondary, is well formed: its identity is the configured
    P-256 key, its domain proof is recognised by the relay as its own client id, every
    allowlist with the configured suffix admits its domain, which is that id under that
    suffix, and its URL is the https URL of that domain; its agent certificate carries
    the agent key and the configured extension, its TLS configuration presents that
    certificate, and a connection that orders certificates has the CSR that doing so
    needs. *)
Theorem new_client_presentable cfg c :
  tunnel_client_new cfg = Ok c →
  config c = cfg ∧ pool_size cfg ≠ 0 ∧ ReconnectPolicy.usable (reconnect cfg) ∧
  H2KeepAlive.usable (h2_keepalive cfg) ∧ tasks_of c ≠ [] ∧
  ∀ t, t ∈ tasks_of c →
    t_addr t ∈ server_addrs cfg ∧
    presentable cfg
      (if t_provisioner t then cert_extension (primary_identity cfg)
       else self_signed_identity cfg ≫= cert_extension) (t_conn t) ∧
    (Some (identity_keypair (t_conn t)) =
       if t_provisioner t then Some (keypair (primary_identity cfg))
       else keypair <$> self_signed_identity cfg) ∧
    algorithm (identity_keypair (t_conn t)) = EcdsaP256 ∧
    (t_provisioner t = true → is_Some (csr_der (t_conn t))) ∧
    (t_provisioner t = true ↔ t_tag t = PRIMARY_TAG).
Proof.
  intros (Hc & Hp & Haddrs & Hpool & Hrec & Hka & Hprim & Hsec)%new_Ok.
  apply bool_decide_eq_true in Hp. split_and!; try done.
  - by apply ReconnectPolicy.validate_usable.
  - by apply H2KeepAlive.keepalive_usable.
  - rewrite <-Hc in Haddrs. unfold tasks_of. by destruct (server_addrs (config c)).
  - intros t (addr & Hin & Ht)%elem_of_tasks. rewrite Hc in Hin.
    destruct Ht as [->|(sc & Hs & ->)]; cbn.
    + destruct (built_keys _ _ _ _ _ _ _ Hprim) as (Hi & _ & ?). rewrite Hi.
      split_and!; try done; by eapply built_presentable.
    + destruct (self_signed_identity cfg) as [sec|] eqn:Es; [|congruence].
      destruct Hsec as (Hp256 & sc' & Hs' & Hb). simplify_eq. cbn.
      apply bool_decide_eq_true in Hp256. destruct (built_keys _ _ _ _ _ _ _ Hb) as (-> & _).
      split_and!; try done. eapply built_presentable; [done|].
      unfold agent_key_of. by rewrite Es.
Qed.
End new_sound.

(** ** A concrete client *)

Section witnesses.
Import ToyKey ToyTls ToyCrypto.

Definition toy_secondary_key : TunnelKey := MkKey EcdsaP256 (replicate 33 xcd) Some.

Definition toy_config : TunnelConfig :=
  MkConfig ["relay.example.com:4433"] "127.0.0.1:3000" None "example.com" false 4 None
    "acme_credentials.json" false None true true (MkIdentity identity_key (Some [x07]))
    ReconnectPolicy.default H2KeepAlive.default (Some (MkIdentity toy_secondary_key None)).

Definition toy_client : TunnelClient :=
  match tunnel_client_new toy_config with
  | Ok c => c
  | Err _ => MkClient toy_config conn None
  end.

Lemma new_client_presentable_witness :
  tunnel_client_new toy_config = Ok toy_client ∧ length (tasks_of toy_client) = 2%nat ∧
  ∀ t, t ∈ tasks_of toy_client →
    presentable toy_config
      (if t_provisioner t then Some [x07] else None) (t_conn t).
Proof.
  assert (Hn : tunnel_client_new toy_config = Ok toy_client) by (vm_compute; reflexivity).
  split; [exact Hn|]. split; [vm_compute; reflexivity|].
  intros t Ht. destruct (new_client_presentable toy_config toy_client Hn) as (_ & _ & _ & _ & _ & Hall).
  exact (proj1 (proj2 (Hall t Ht))).
Defined.

(** The primary spends its five attempts, then the secondary's task panics. *)
Definition refused : iteration :=
  Iter false true None (NeverUp (Failure "connection refused" None)) None 0 false.
Definition toy_run : list run_event :=
  [EvHead; EvTaskEvent 0 (AttemptFailed 1 "connection refused" (from_secs 2));
   EvTaskEnds 0 (replicate 5 refused); EvSelectJoin 0; EvHead;
   EvTaskPanics 1 "index out of bounds"; EvSelectJoin 1; EvHead; EvSelectNone].

Lemma run_reports_truthfully_witness :
  ∃ s, run_execute toy_client toy_run (run_init toy_client false) = Some s ∧
    rs_pc s = RunReturned (Err (Some "tunnel connection panicked: index out of bounds")) ∧
    gave_ups (rs_events s) =
      [("SEC", "relay.example.com:4433", GaveUp "tunnel connection panicked: index out of bounds");
       ("PRI", "relay.example.com:4433",
        GaveUp "TUNNEL[PRI/relay.example.com:4433]: giving up after 5 failed attempts")] ∧
    NoDup (rs_log s).*1.
Proof.
  destruct (run_execute toy_client toy_run (run_init toy_client false)) as [s|] eqn:E;
    [|vm_compute in E; discriminate E].
  exists s. split; [done|].
  pose proof (run_reports_truthfully toy_client false s (run_execute_rtc _ _ _ _ E)) as (Hd & _).
  vm_compute in E. injection E as E. split; [by rewrite <-E|]. split; [by rewrite <-E|]. exact Hd.
Defined.
End witnesses.
