(* ===== verification/FfiBridge.v ===== *)
(** * FfiBridge.v: building and signing across the foreign boundary

    tunnel-client-ffi/src/ffi/mod.rs: the lazily built runtimes ([LazyRuntime]), the
    blocking bridge to a foreign signing key ([ForeignKey], [recv_blocking]), where the
    tail of a cancelled run is spawned ([spawn_detached]) and the constructor
    [TunnelClient::new] over the client's own; and the Android logger entry
    point of tunnel-client-ffi/src/lib.rs. *)

From S2P Require Import Prelude RustStr CertProvisioner Framing Key ClientTls Identity Retry Ffi TunnelClient.
From Stdlib Require Import Ascii.
Open Scope string_scope.
Open Scope Z_scope.
Open Scope list_scope.

(** ** [LazyRuntime]

    Any number of threads call [get] at once; a step is one access to the cell, one
    acquisition of [building] or one build. *)

Inductive lazy_pc :=
| GetStart
| GetWaiting                            (** found the cell empty; wants [building] *)
| GetLocked                             (** holds [building], about to look again *)
| GetBuilding                           (** in [build()] *)
| GetInit (rt : nat)                    (** built [rt], about to [get_or_init] *)
| GetDone (r : result string nat).

(** [built] numbers the runtimes in the order they were built, [failures] who failed. *)
Record lazy := MkLazy {
  cell : option nat;
  building : option nat;                (** the thread that holds the lock *)
  threads : list lazy_pc;
  built : list nat;
  failures : list (nat * string);
}.

Definition lazy_new (n : nat) : lazy := MkLazy None None (replicate n GetStart) [] [].

Definition set_thread (i : nat) (p : lazy_pc) (s : lazy) : lazy :=
  MkLazy (cell s) (building s) (<[i := p]> (threads s)) (built s) (failures s).
(** Returning drops the lock guard. *)
Definition finish (i : nat) (r : result string nat) (s : lazy) : lazy :=
  MkLazy (cell s) None (<[i := GetDone r]> (threads s)) (built s) (failures s).

Inductive lazy_event :=
| GetMove (i : nat)
| BuildDone (i : nat) (r : result string unit).

Definition lazy_apply (e : lazy_event) (s : lazy) : option lazy :=
  match e with
  | GetMove i =>
      match threads s !! i with
      | Some GetStart =>
          Some (set_thread i (match cell s with Some rt => GetDone (Ok rt) | None => GetWaiting end) s)
      | Some GetWaiting =>
          match building s with
          | None => Some (MkLazy (cell s) (Some i) (<[i := GetLocked]> (threads s)) (built s) (failures s))
          | Some _ => None
          end
      | Some GetLocked =>
          match cell s with
          | Some rt => Some (finish i (Ok rt) s)
          | None => Some (set_thread i GetBuilding s)
          end
      | Some (GetInit rt) =>
          let rt := default rt (cell s) in
          Some (MkLazy (Some rt) None (<[i := GetDone (Ok rt)]> (threads s)) (built s) (failures s))
      | _ => None
      end
  | BuildDone i r =>
      match threads s !! i, r with
      | Some GetBuilding, Ok _ =>
          let rt := length (built s) in
          Some (MkLazy (cell s) (building s) (<[i := GetInit rt]> (threads s)) (built s ++ [rt]) (failures s))
      | Some GetBuilding, Err e =>
          Some (MkLazy (cell s) None (<[i := GetDone (Err e)]> (threads s)) (built s) ((i, e) :: failures s))
      | _, _ => None
      end
  end.

(** The two statics: how their runtime is built ([Builder::build]'s error is renamed). *)
Record runtime_builder := MkBuilder { rb_worker_threads : nat; rb_thread_name : string; rb_label : string }.
Definition foreign_key_runtime : runtime_builder := MkBuilder 1 "tunnel-foreign-key" "foreign key".
Definition tunnel_runtime : runtime_builder := MkBuilder 2 "tunnel" "tunnel".
Definition build_runtime (b : runtime_builder) (r : result string unit) : result string unit :=
  map_err (λ e, rb_label b +:+ " runtime unavailable: " +:+ e) r.

Definition lazy_step (s s' : lazy) : Prop := ∃ e, lazy_apply e s = Some s'.

Fixpoint lazy_execute (es : list lazy_event) (s : lazy) : option lazy :=
  match es with
  | [] => Some s
  | e :: es => s ← lazy_apply e s; lazy_execute es s
  end.

Lemma lazy_execute_rtc es s s' : lazy_execute es s = Some s' → rtc lazy_step s s'.
Proof.
  revert s. induction es as [|e es IH]; intros s; simpl; [by intros [= ->]|].
  destruct (lazy_apply e s) as [s1|] eqn:E; [|done]. simpl. intros Hr.
  eapply rtc_l; [by exists e|]. by apply IH.
Qed.

(** In the section that [building] protects. *)
Definition in_lock (p : lazy_pc) : bool :=
  match p with GetLocked | GetBuilding | GetInit _ => true | _ => false end.

Definition thread_ok (s : lazy) (i : nat) (p : lazy_pc) : Prop :=
  (in_lock p = true → building s = Some i) ∧
  match p with
  | GetBuilding => cell s = None ∧ built s = []
  | GetInit rt => cell s = None ∧ built s = [rt]
  | GetDone (Ok rt) => cell s = Some rt
  | GetDone (Err e) => (i, e) ∈ failures s
  | _ => True
  end.

Record lazy_inv (s : lazy) : Prop := {
  lz_threads : ∀ i p, threads s !! i = Some p → thread_ok s i p;
  lz_holder : ∀ i, building s = Some i → ∃ p, threads s !! i = Some p ∧ in_lock p = true;
  lz_built : match cell s with
             | Some rt => built s = [rt]
             | None => built s = [] ∨ ∃ i rt, threads s !! i = Some (GetInit rt) ∧ built s = [rt]
             end;
}.

Lemma lazy_inv_new n : lazy_inv (lazy_new n).
Proof.
  split; cbn; [|done|by left]. intros i p [-> _]%lookup_replicate_1. done.
Qed.

(** Where a thread that holds no lock moves to. *)
Lemma other_ok s s' i j p :
  lazy_inv s → threads s !! j = Some p → i ≠ j → building s = Some i →
  (cell s = None ∨ cell s' = cell s) →
  failures s ⊆ failures s' → thread_ok s' j p.
Proof.
  intros Hi Hj Hne Hb Hc Hf. destruct (lz_threads s Hi j p Hj) as [Hl Hp].
  assert (Hnl : in_lock p = false).
  { destruct (in_lock p); [|done]. specialize (Hl eq_refl). congruence. }
  split; [by rewrite Hnl|]. destruct p as [| | | |rt|[rt|e]]; try done.
  - destruct Hc as [Hc| ->]; [congruence|done].
  - by apply Hf.
Qed.

(** A thread moves and nothing shared changes. *)
Lemma lazy_set_thread s i p p' :
  lazy_inv s → threads s !! i = Some p → in_lock p' = in_lock p → thread_ok s i p' →
  (∀ rt, p ≠ GetInit rt) → lazy_inv (set_thread i p' s).
Proof.
  intros Hi Hp Hl Hok Hninit. split; cbn.
  - intros j q [(<- & <- & _)|[Hne Hj]]%list_lookup_insert_Some; [done|by apply (lz_threads s Hi)].
  - intros j Hb. destruct (lz_holder s Hi j Hb) as (q & Hq & Hlq).
    destruct (decide (i = j)) as [<-|Hne].
    + exists p'. rewrite list_lookup_insert_eq by (by eapply lookup_lt_Some). split; [done|]. congruence.
    + exists q. by rewrite list_lookup_insert_ne.
  - pose proof (lz_built s Hi) as Hb. destruct (cell s); [done|].
    destruct Hb as [?|(j & rt & Hj & Hb)]; [by left|right]. exists j, rt. split; [|done].
    destruct (decide (i = j)) as [<-|]; [naive_solver|]. by rewrite list_lookup_insert_ne.
Qed.

(** The holder of the lock finishes: the lock is free, the rest as given. *)
Lemma lazy_release s i p r c fs :
  lazy_inv s → threads s !! i = Some p → in_lock p = true →
  (cell s = None ∨ c = cell s) → failures s ⊆ fs →
  (match r with Ok rt => c = Some rt | Err e => (i, e) ∈ fs end) →
  (match c with Some rt => built s = [rt] | None => built s = [] end) →
  lazy_inv (MkLazy c None (<[i := GetDone r]> (threads s)) (built s) fs).
Proof.
  intros Hi Hp Hl Hc Hf Hr Hb. pose proof (proj1 (lz_threads s Hi i p Hp) Hl) as Hlock.
  split; cbn; [|done|].
  - intros j q [(<- & <- & _)|[Hne Hj]]%list_lookup_insert_Some; [split; [done|]; by destruct r|].
    by eapply (other_ok s _ i j).
  - destruct c; [done|]. by left.
Qed.

Lemma lazy_apply_inv e s s' : lazy_inv s → lazy_apply e s = Some s' → lazy_inv s'.
Proof.
  intros Hi. destruct e as [i|i r]; cbn; destruct (threads s !! i) as [p|] eqn:Hp; try done.
  - pose proof (lz_threads s Hi i p Hp) as [Hl Hok]. pose proof (lz_built s Hi) as Hb.
    destruct p as [| | | |rt|]; try done.
    + destruct (cell s) eqn:Hc; intros [= <-]; by apply (lazy_set_thread _ _ GetStart).
    + destruct (building s) eqn:Hlock; [done|]. intros [= <-]. split; cbn.
      * intros j q [(<- & <- & _)|[Hne Hj]]%list_lookup_insert_Some; [done|].
        destruct (lz_threads s Hi j q Hj) as [Hlq Hq]. split; [|done].
        intros Hin. specialize (Hlq Hin). congruence.
      * intros j [= <-]. exists GetLocked. by rewrite list_lookup_insert_eq by (by eapply lookup_lt_Some).
      * destruct (cell s); [done|]. destruct Hb as [?|(j & rt & Hj & Hb)]; [by left|].
        destruct (lz_threads s Hi j _ Hj) as [Hlj _]. specialize (Hlj eq_refl). congruence.
    + specialize (Hl eq_refl). destruct (cell s) as [rt|] eqn:Hc; intros [= <-].
      * unfold finish. apply (lazy_release s i GetLocked); rewrite ?Hc; auto.
      * apply (lazy_set_thread _ _ GetLocked); try done. split; [done|]. split; [done|].
        destruct Hb as [?|(j & rt & Hj & _)]; [done|].
        destruct (lz_threads s Hi j _ Hj) as [Hlj _]. specialize (Hlj eq_refl). simplify_eq.
    + destruct Hok as [Hc Hbuilt]. rewrite Hc. cbn. intros [= <-].
      apply (lazy_release s i (GetInit rt)); auto.
  - pose proof (lz_threads s Hi i p Hp) as [Hl Hok]. destruct p; try done.
    destruct Hok as [Hc Hbuilt]. specialize (Hl eq_refl). destruct r as [u|e]; intros [= <-].
    + rewrite Hbuilt, Hc. split; cbn.
      * intros j q [(<- & <- & _)|[Hne Hj]]%list_lookup_insert_Some; [done|].
        eapply (other_ok s _ i j); cbn; auto.
      * intros j Hj. assert (j = i) as -> by congruence. exists (GetInit 0).
        by rewrite list_lookup_insert_eq by (by eapply lookup_lt_Some).
      * right. exists i, 0%nat. by rewrite list_lookup_insert_eq by (by eapply lookup_lt_Some).
    + apply (lazy_release s i GetBuilding); rewrite ?Hc; auto; [|by left]. set_solver.
Qed.

Lemma lazy_reachable_inv n s : rtc lazy_step (lazy_new n) s → lazy_inv s.
Proof.
  apply (rtc_invariant _ lazy_inv); [apply lazy_inv_new|].
  intros y z [e He] Hy. by eapply lazy_apply_inv.
Qed.

(** the lazily built runtime, with any number of threads asking for it at once.
    At most one runtime is ever built, whatever the interleaving; every caller that
    succeeds gets that same one; a caller fails only through its own failed build, so a
    failure is never handed to another caller or remembered; and as long as some caller
    has not returned, some thread can go on (builds are assumed to return): nobody
    waits for a lock that is not held by a thread that can move. *)
Theorem lazy_runtime_shared n s :
  rtc lazy_step (lazy_new n) s →
  (length (built s) ≤ 1)%nat ∧
  (∀ i rt, threads s !! i = Some (GetDone (Ok rt)) → built s = [rt] ∧ cell s = Some rt) ∧
  (∀ i e, threads s !! i = Some (GetDone (Err e)) → (i, e) ∈ failures s) ∧
  (∀ i p, threads s !! i = Some p → (∀ r, p ≠ GetDone r) →
     ∃ e s', lazy_apply e s = Some s').
Proof.
  intros Hi%lazy_reachable_inv. pose proof (lz_built s Hi) as Hb. split_and!.
  - destruct (cell s); [by rewrite Hb|]. destruct Hb as [->|(? & ? & _ & ->)]; cbn; lia.
  - intros i rt Hd. destruct (lz_threads s Hi i _ Hd) as [_ Hc]. cbn in Hc. by rewrite Hc in Hb.
  - intros i e Hd. by destruct (lz_threads s Hi i _ Hd) as [_ Hc].
  - assert (Hlocked : ∀ j q, threads s !! j = Some q → in_lock q = true → ∃ e s', lazy_apply e s = Some s').
    { intros j q Hj Hq. destruct q as [| | | |rt|]; try done.
      - exists (GetMove j). cbn. rewrite Hj. destruct (cell s); eauto.
      - exists (BuildDone j (Ok tt)). cbn. rewrite Hj. eauto.
      - exists (GetMove j). cbn. rewrite Hj. eauto. }
    intros i p Hp Hnd. destruct p as [| | | |rt|r]; try (by eapply Hlocked); [| |by destruct (Hnd r)].
    + exists (GetMove i). cbn. rewrite Hp. eauto.
    + destruct (building s) as [j|] eqn:Hl.
      * destruct (lz_holder s Hi j Hl) as (q & Hq & Hlq). by eapply Hlocked.
      * exists (GetMove i). cbn. rewrite Hp, Hl. eauto.
Qed.

(** ** A foreign signing key *)

Definition SIGN_TIMEOUT : Z := from_secs 10.

Inductive FfiKeyAlgorithm := FfiEd25519 | FfiEcdsaP256.

(** [From<KeyAlgorithm> for tc::KeyAlgorithm]. *)
Definition algorithm_into (a : FfiKeyAlgorithm) : KeyAlgorithm :=
  match a with FfiEd25519 => Ed25519 | FfiEcdsaP256 => EcdsaP256 end.

(** How one foreign [sign] goes: an answer after some time, the worker gone after some
    time, or nothing. *)
Inductive foreign_answer := Answers (after : Z) (sig : bytes) | Dies (after : Z) | Hangs.

(** [dyn TunnelKey] of the foreign side. *)
Record ForeignTunnelKey := MkForeign {
  fo_algorithm : FfiKeyAlgorithm;
  fo_public_key_raw : bytes;
  fo_sign : bytes → foreign_answer;
}.

(** [ForeignKey]: algorithm and public key are read once, at construction. *)
Record ForeignKey := MkForeignKey {
  fk_foreign : ForeignTunnelKey;
  fk_algorithm : KeyAlgorithm;
  fk_public_key : bytes;
}.

Definition foreign_key_new (foreign : ForeignTunnelKey) : ForeignKey :=
  MkForeignKey foreign (algorithm_into (fo_algorithm foreign)) (fo_public_key_raw foreign).

(** The tokio runtime the calling thread is in, if any. *)
Inductive RuntimeFlavor := CurrentThread | MultiThread.

Inductive RecvTimeoutError := RecvTimeout | RecvDisconnected.

(** [rx.recv_timeout(timeout)] on a channel the foreign worker answers on. *)
Definition recv_timeout (a : foreign_answer) (timeout : Z) : result RecvTimeoutError bytes :=
  match a with
  | Answers after sig => if after <=? timeout then Ok sig else Err RecvTimeout
  | Dies after => if after <=? timeout then Err RecvDisconnected else Err RecvTimeout
  | Hangs => Err RecvTimeout
  end.

(** [recv_blocking]: the answer, and whether [block_in_place] was used for the wait. *)
Definition recv_blocking (current : option RuntimeFlavor) (a : foreign_answer) (timeout : Z) :
    result RecvTimeoutError bytes * bool :=
  match current with
  | Some MultiThread => (recv_timeout a timeout, true)
  | _ => (recv_timeout a timeout, false)
  end.

Inductive foreign_error := NoKeyRuntime (e : string) | SignTimedOut (after : Z) | SignWorkerDied.

Definition foreign_sign (rt : result string unit) (current : option RuntimeFlavor) (k : ForeignKey)
    (msg : bytes) : result foreign_error bytes :=
  _ ← map_err NoKeyRuntime rt;
  map_err (λ e, match e with
                | RecvTimeout => SignTimedOut SIGN_TIMEOUT
                | RecvDisconnected => SignWorkerDied
                end) (recv_blocking current (fo_sign (fk_foreign k) msg) SIGN_TIMEOUT).1.

(** [impl tc::TunnelKey for ForeignKey]. *)
Definition foreign_tunnel_key (rt : result string unit) (current : option RuntimeFlavor)
    (k : ForeignKey) : TunnelKey :=
  MkKey (fk_algorithm k) (fk_public_key k) (λ msg, ok (foreign_sign rt current k msg)).

(** A signature that comes back is the foreign key's own, within the bound; a key that
    never answers is an error, not a hang; [block_in_place] is used only where tokio
    allows it. *)
Lemma foreign_sign_spec rt current k msg sig :
  foreign_sign rt current k msg = Ok sig ↔
  rt = Ok tt ∧ ∃ after, fo_sign (fk_foreign k) msg = Answers after sig ∧ after ≤ SIGN_TIMEOUT.
Proof.
  unfold foreign_sign. destruct rt as [[]|]; cbn; [|naive_solver].
  assert (Hr : (recv_blocking current (fo_sign (fk_foreign k) msg) SIGN_TIMEOUT).1 =
            recv_timeout (fo_sign (fk_foreign k) msg) SIGN_TIMEOUT) by (by destruct current as [[]|]).
  rewrite Hr. unfold recv_timeout. destruct (fo_sign (fk_foreign k) msg) as [d s|d|]; cbn.
  - destruct (Z.leb_spec d SIGN_TIMEOUT); cbn; naive_solver lia.
  - destruct (Z.leb_spec d SIGN_TIMEOUT); cbn; naive_solver.
  - naive_solver.
Qed.

Lemma recv_blocking_in_place current a d :
  (recv_blocking current a d).2 = true ↔ current = Some MultiThread.
Proof. by destruct current as [[]|]. Qed.

(** ** Where the tail of a cancelled run goes *)

Inductive spawned_on := OnTunnelRuntime | OnCurrentRuntime | OnThread.

Definition spawn_detached (tunnel_rt : result string unit) (current : option RuntimeFlavor)
    (thread : result string unit) : result string spawned_on :=
  match tunnel_rt with
  | Ok _ => Ok OnTunnelRuntime
  | Err rt_err =>
      match current with
      | Some _ => Ok OnCurrentRuntime
      | None =>
          match thread with
          | Ok _ => Ok OnThread
          | Err e => Err (rt_err +:+ "; no thread either: " +:+ e)
          end
      end
  end.

(** ** [TunnelClient::new] of the foreign surface *)

Record PrimaryConnection := MkPrimaryConn { pc_key : PrimaryKey; pc_cert_extension : option bytes }.
Record SecondaryConnection := MkSecondary {
  sc_cert_extension : option bytes;
  sc_local_addr : option string;
}.

Record FfiTunnelConfig := MkFfiConfig {
  fc_server_addrs : list string;
  fc_local_addr : string;
  fc_domain_suffix : string;
  fc_primary : PrimaryConnection;
  fc_secondary : option SecondaryConnection;
  fc_force_h2 : bool;
  fc_pool_size : Z;                     (** [u32] *)
  fc_acme_email : option string;
  fc_acme_creds_path : string;
  fc_acme_staging : bool;
  fc_cert_pem : option string;
  fc_reconnect : option ReconnectConfig;
}.

Record TunnelInfo := MkInfo {
  ti_url : string;
  ti_client_id : string;
  ti_secondary_url : option string;
  ti_secondary_client_id : option string;
}.

(** [TunnelError]; the texts are the error chains. *)
Inductive TunnelError :=
| InvalidConfigKey (e : key_error)
| InvalidConfigClient (e : new_error).

Section ffi_new.
Context `{Crypto, Yasna, CertGen, TlsLibs, Rcgen}.
(** How the two runtimes of the process behave. *)
Context (key_rt : result string unit) (current : option RuntimeFlavor).

Definition inner_config (config : FfiTunnelConfig) (primary : RcgenKey)
    (secondary_key : option ForeignTunnelKey) : TunnelConfig :=
  MkConfig (fc_server_addrs config) (fc_local_addr config)
    (fc_secondary config ≫= sc_local_addr) (fc_domain_suffix config) (fc_force_h2 config)
    (fc_pool_size config) (fc_acme_email config) (fc_acme_creds_path config)
    (fc_acme_staging config) (fc_cert_pem config) true true
    (MkIdentity (tunnel_key primary) (pc_cert_extension (fc_primary config)))
    (Reconnect.into (default Reconnect.default (fc_reconnect config))) H2KeepAlive.default
    (match fc_secondary config, secondary_key with
     | Some sec_cfg, Some sec_foreign =>
         Some (MkIdentity (foreign_tunnel_key key_rt current (foreign_key_new sec_foreign))
                 (sc_cert_extension sec_cfg))
     | _, _ => None
     end).

(** The client, its [info()] and the event machinery [run] starts from (Ffi.v). *)
Definition ffi_new (config : FfiTunnelConfig) (secondary_key : option ForeignTunnelKey) :
    result TunnelError (TunnelClient * TunnelInfo * ffi) :=
  primary_local ← map_err InvalidConfigKey (primary_key (pc_key (fc_primary config)));
  inner ← map_err InvalidConfigClient
            (tunnel_client_new (inner_config config primary_local secondary_key));
  Ok (inner,
      MkInfo (get_url inner) (get_client_id inner) (secondary_url inner) (secondary_client_id inner),
      client_new).

(** The secondary connection exists exactly when both its configuration and its key do. *)
Lemma ffi_new_secondary config sk c info s :
  ffi_new config sk = Ok (c, info, s) →
  is_Some (secondary c) ↔ is_Some (fc_secondary config) ∧ is_Some sk.
Proof.
  unfold ffi_new. destruct (primary_key _) as [k|]; [|done]. cbn.
  destruct (tunnel_client_new _) as [c'|] eqn:Hn; [|done]. cbn. intros [= <- <- <-].
  apply new_Ok in Hn as (_ & _ & _ & _ & _ & _ & _ & Hs). cbn in Hs.
  destruct (fc_secondary config) as [sec|]; [destruct sk as [f|]|].
  - destruct Hs as (_ & sc & -> & _). naive_solver.
  - rewrite Hs. split; [by intros []|]. by intros [_ []].
  - rewrite Hs. split; [by intros []|]. by intros [[] _].
Qed.

(** C34: the constructor refuses what the rest cannot honour. A primary key given as a
    32-byte Ed25519 seed, a form the configuration's own documentation offers, is never
    accepted: the client's identity must be P-256. What is accepted has a pool, a relay
    and a retry policy the loops can honour (the configured one, by default the mobile
    one), reports the ids and the https URLs of the very connections it will open,
    primary and secondary, and has a secondary connection exactly when both a secondary
    configuration and a foreign key were given, in which case that key signs the agent
    certificates of both and is the secondary's identity. *)
Theorem ffi_new_contract config sk :
  (pk_algorithm (pc_key (fc_primary config)) = Ed25519 →
   length (pk_bytes (pc_key (fc_primary config))) = 32%nat → ∃ e, ffi_new config sk = Err e) ∧
  ∀ c info s, ffi_new config sk = Ok (c, info, s) →
    fc_pool_size config ≠ 0 ∧ fc_server_addrs config ≠ [] ∧
    ReconnectPolicy.usable (reconnect (TunnelClient.config c)) ∧
    reconnect (TunnelClient.config c) =
      default ReconnectPolicy.mobile (Reconnect.into <$> fc_reconnect config) ∧
    ti_client_id info = client_id (primary c) ∧ ti_url info = "https://" +:+ domain (primary c) ∧
    ti_secondary_client_id info = client_id <$> secondary c ∧
    ti_secondary_url info = (λ sc, "https://" +:+ domain sc) <$> secondary c ∧
    (is_Some (secondary c) ↔ is_Some (fc_secondary config) ∧ is_Some sk) ∧
    (∀ f, sk = Some f → is_Some (fc_secondary config) →
       let key := foreign_tunnel_key key_rt current (foreign_key_new f) in
       agent_keypair (primary c) = key ∧
       ∃ sc, secondary c = Some sc ∧ agent_keypair sc = key ∧ identity_keypair sc = key).
Proof.
  split.
  - intros Ha Hl. unfold ffi_new, primary_key. rewrite Ha, bool_decide_true by done.
    destruct (from_ed25519_seed _) as [k|] eqn:Hk; [|cbn; eauto]. cbn.
    assert (Halg : rk_algorithm k = Ed25519).
    { unfold from_ed25519_seed in Hk. case_bool_decide; [done|].
      destruct (from_pkcs8_der_and_sign_algo _ _); simplify_eq/=. done. }
    unfold tunnel_client_new. cbn. unfold is_p256. cbn. rewrite Halg. cbn. eauto.
  - intros c info s Hok. pose proof (ffi_new_secondary config sk c info s Hok) as Hsec.
    unfold ffi_new in Hok. destruct (primary_key _) as [k|]; [|done]. cbn in Hok.
    destruct (tunnel_client_new _) as [c'|] eqn:Hn; [|done]. cbn in Hok. simplify_eq.
    apply new_Ok in Hn as (Hc & _ & Haddr & Hpool & Hrec & _ & Hb & Hs). cbn in Haddr, Hpool, Hs.
    split_and!; try done.
    + rewrite Hc. by apply ReconnectPolicy.validate_usable.
    + rewrite Hc. cbn. by destruct (fc_reconnect config).
    + by destruct (built_tls _ _ _ _ _ _ _ Hb) as [_ ?].
    + cbn. unfold secondary_url. destruct (secondary c) as [sc|] eqn:Esc; [|done].
      cbn. f_equal. destruct (match fc_secondary config with Some _ => _ | None => _ end); [|done].
      destruct Hs as (_ & sc' & [= <-] & Hsb). by destruct (built_tls _ _ _ _ _ _ _ Hsb).
    + intros f -> [sec Hsc] key. destruct (built_keys _ _ _ _ _ _ _ Hb) as (_ & -> & _).
      unfold agent_key_of. cbn. rewrite Hsc in Hs |- *. split; [done|].
      destruct Hs as (_ & sc & Hsec' & Hsb). exists sc. split; [done|].
      by destruct (built_keys _ _ _ _ _ _ _ Hsb) as (-> & -> & _).
Qed.
End ffi_new.

(** ** The log level of the Android library *)

Inductive LevelFilter := LOff | LError | LWarn | LInfo | LDebug | LTrace.

Definition level_rank (l : LevelFilter) : Z :=
  match l with LOff => 0 | LError => 1 | LWarn => 2 | LInfo => 3 | LDebug => 4 | LTrace => 5 end.

Definition parse_level (s : string) : option LevelFilter :=
  let s := to_ascii_lowercase (trim s) in
  if String.eqb s "off" then Some LOff
  else if String.eqb s "error" then Some LError
  else if String.eqb s "warn" then Some LWarn
  else if String.eqb s "info" then Some LInfo
  else if String.eqb s "debug" then Some LDebug
  else if String.eqb s "trace" then Some LTrace
  else None.

(** [part.rsplit('=').next().unwrap_or(part)]. *)
Definition level_str (part : string) : string :=
  match rsplit_once "=" part with Some (_, l) => l | None => part end.

Definition raise_level (max : LevelFilter) (part : string) : LevelFilter :=
  match parse_level (level_str part) with
  | Some level => if level_rank max <? level_rank level then level else max
  | None => max
  end.

Definition max_level_from_filter_spec (spec : string) : option LevelFilter :=
  match foldl raise_level LOff (split "," spec) with LOff => None | l => Some l end.

(** What [initAndroid] sets. *)
Definition android_max_level (spec : string) : LevelFilter :=
  default LInfo (max_level_from_filter_spec spec).

(** The process's logger: what [android_logger] was configured with, if it was, and the
    level of the [log] facade. *)
Record android_config := MkAndroid { al_max_level : LevelFilter; al_tag : string; al_filter : string }.
Record log_state := MkLog { lg_logger : option android_config; lg_max_level : LevelFilter }.

(** [android_logger::init_once]: installs the logger, and sets the level, only once. *)
Definition init_once (c : android_config) (s : log_state) : log_state :=
  match lg_logger s with Some _ => s | None => MkLog (Some c) (al_max_level c) end.

(** [filter_spec] is what [env.get_string] gives. *)
Definition initAndroid (filter_spec : option string) (s : log_state) : log_state :=
  let spec := default "info" filter_spec in
  let max_level := android_max_level spec in
  let s := init_once (MkAndroid max_level "tunnel_client_ffi" spec) s in
  MkLog (lg_logger s) max_level.

(** The level follows the latest call; the filter and the tag are those of the first. *)
Lemma initAndroid_again spec spec' s :
  let s1 := initAndroid spec s in
  initAndroid spec' s1 = MkLog (lg_logger s1) (android_max_level (default "info" spec')) ∧
  (lg_logger s = None →
   lg_logger s1 = Some (MkAndroid (android_max_level (default "info" spec)) "tunnel_client_ffi" (default "info" spec))).
Proof. destruct s as [[c|] l]; done. Qed.

Lemma foldl_raise_spec parts m :
  let r := foldl raise_level m parts in
  level_rank m ≤ level_rank r ∧
  (∀ p l, p ∈ parts → parse_level (level_str p) = Some l → level_rank l ≤ level_rank r) ∧
  (r = m ∨ ∃ p, p ∈ parts ∧ parse_level (level_str p) = Some r).
Proof.
  revert m. induction parts as [|p parts IH]; intros m; cbn.
  { split_and!; [lia|by intros ? ? ?%not_elem_of_nil|by left]. }
  destruct (IH (raise_level m p)) as (H1 & H2 & H3). unfold raise_level in *.
  destruct (parse_level (level_str p)) as [l|] eqn:Hp.
  - destruct (Z.ltb_spec (level_rank m) (level_rank l)).
    + split_and!; [lia| |right].
      * intros q l' [->|Hq]%elem_of_cons Hl'; [simplify_eq; lia|eauto].
      * destruct H3 as [->|(q & Hq & Hl)]; [exists p|exists q]; (split; [set_solver|done]).
    + split_and!; [done| |].
      * intros q l' [->|Hq]%elem_of_cons Hl'; [simplify_eq; lia|eauto].
      * destruct H3 as [->|(q & Hq & Hl)]; [by left|right]. exists q. split; [set_solver|done].
  - split_and!; [done| |].
    + intros q l' [->|Hq]%elem_of_cons Hl'; [congruence|eauto].
    + destruct H3 as [->|(q & Hq & Hl)]; [by left|right]. exists q. split; [set_solver|done].
Qed.

(** The level set is the most verbose one named, and [Info] when none above [off] is. *)
Lemma max_level_spec spec :
  match max_level_from_filter_spec spec with
  | Some l => (∃ p, p ∈ split "," spec ∧ parse_level (level_str p) = Some l) ∧
      ∀ p l', p ∈ split "," spec → parse_level (level_str p) = Some l' → level_rank l' ≤ level_rank l
  | None => ∀ p l, p ∈ split "," spec → parse_level (level_str p) = Some l → l = LOff
  end.
Proof.
  unfold max_level_from_filter_spec.
  destruct (foldl_raise_spec (split "," spec) LOff) as (_ & H2 & H3).
  destruct (foldl raise_level LOff (split "," spec)); cbn;
    try (split; [destruct H3 as [[=]|?]; done|exact H2]).
  intros p l Hp Hl. specialize (H2 p l Hp Hl). destruct l; cbn in H2; done || lia.
Qed.

Example trace_for_one_module :
  android_max_level " tunnel_client = TRACE ,hyper=info" = LTrace.
Proof. vm_compute. reflexivity. Qed.

(** A filter that asks for nothing to be logged sets the same level as no filter. *)
Lemma off_filter_means_info : android_max_level "off" = LInfo.
Proof. reflexivity. Qed.

(** ** Concrete runs *)

Section witnesses.
Import ToyKey ToyTls ToyCrypto.

(** Three threads race: the first build fails, the second one's succeeds. *)
Definition toy_race : list lazy_event :=
  [GetMove 0; GetMove 1; GetMove 2; GetMove 0; GetMove 0; BuildDone 0 (build_runtime tunnel_runtime (Err "no threads"));
   GetMove 2; GetMove 2; BuildDone 2 (Ok tt); GetMove 2; GetMove 1; GetMove 1].

Lemma lazy_runtime_shared_witness :
  ∃ s, lazy_execute toy_race (lazy_new 3) = Some s ∧
    threads s = [GetDone (Err "tunnel runtime unavailable: no threads"); GetDone (Ok 0%nat); GetDone (Ok 0%nat)] ∧
    built s = [0%nat].
Proof.
  destruct (lazy_execute toy_race (lazy_new 3)) as [s|] eqn:E; [|vm_compute in E; discriminate E].
  exists s. split; [done|].
  destruct (lazy_runtime_shared 3 s (lazy_execute_rtc _ _ _ E)) as (_ & Hok & _).
  assert (Ht : threads s = [GetDone (Err "tunnel runtime unavailable: no threads"); GetDone (Ok 0%nat); GetDone (Ok 0%nat)]).
  { vm_compute in E. injection E as <-. reflexivity. }
  split; [exact Ht|]. apply (Hok 1%nat 0%nat). by rewrite Ht.
Defined.

(** A P-256 client with a foreign secondary key, and one given an Ed25519 seed. *)
Definition toy_foreign : ForeignTunnelKey :=
  MkForeign FfiEcdsaP256 (replicate 33 xcd) (λ msg, Answers (from_secs 1) msg).
Definition toy_ffi_config (k : PrimaryKey) : FfiTunnelConfig :=
  MkFfiConfig ["relay.example.com:4433"] "127.0.0.1:3000" "example.com" (MkPrimaryConn k None)
    (Some (MkSecondary None None)) false 4 None "creds.json" false None None.

Lemma ffi_new_contract_witness :
  (∃ e, ffi_new (Ok tt) None (toy_ffi_config (MkPrimary Ed25519 (replicate 32 x07))) None = Err e) ∧
  ∃ c info s, ffi_new (Ok tt) None (toy_ffi_config (MkPrimary EcdsaP256 (x01 :: replicate 33 xab)))
                (Some toy_foreign) = Ok (c, info, s) ∧
    ti_client_id info = "abababababababab" ∧
    agent_keypair (primary c) = foreign_tunnel_key (Ok tt) None (foreign_key_new toy_foreign).
Proof.
  split.
  - apply (proj1 (ffi_new_contract (Ok tt) None (toy_ffi_config (MkPrimary Ed25519 (replicate 32 x07))) None));
      reflexivity.
  - destruct (ffi_new (Ok tt) None (toy_ffi_config (MkPrimary EcdsaP256 (x01 :: replicate 33 xab)))
                (Some toy_foreign)) as [[[c info] s]|e] eqn:E; [|vm_compute in E; discriminate E].
    exists c, info, s. split; [done|].
    pose proof (proj2 (ffi_new_contract (Ok tt) None _ _) c info s E) as (_ & _ & _ & _ & Hid & _ & _ & _ & _ & Hag).
    split; [|apply Hag; [reflexivity|by eexists]].
    rewrite Hid. vm_compute in E. injection E as <- <- <-. reflexivity.
Defined.
End witnesses.
