(* ===== verification/Cli.v ===== *)
(** * Cli.v: the command-line client

    client/src/main.rs: [Args], the key and certificate files, how they become a
    [TunnelConfig], and [main]'s race between Ctrl-C and the tunnel. The file system
    is the environment; what it may answer, failures included, is [fs_step]. *)

From S2P Require Import Prelude Async RustStr Framing CertProvisioner Key ClientTls Identity.
From S2P Require Import Retry TunnelClient.
Open Scope string_scope.
Open Scope Z_scope.
Open Scope list_scope.
Open Scope tunnel_scope.

Definition SHUTDOWN_TIMEOUT : Z := from_secs 5.

Record Args := MkArgs {
  server : list string;
  local : string;
  secondary_local : option string;
  arg_domain_suffix : string;
  primary_key : string;
  arg_force_h2 : bool;
  arg_pool_size : Z;
  arg_acme_email : option string;
  arg_acme_creds_path : string;
  arg_acme_staging : bool;
  primary_cert_extension_hex : option string;
  arg_cert_pem : string;
  secondary_key : option string;
  secondary_cert_extension_hex : option string;
}.

(** Only [--server] given. *)
Definition default_args (server : list string) : Args :=
  MkArgs server "127.0.0.1:3000" None "localhost" "client.key" false 4 None
    "acme_credentials.json" false None "acme_cert.pem" None None.

(** How the spawned tunnel task was joined. *)
Inductive tunnel_end := TunnelOk | TunnelErr (msg : string) | TunnelPanic (msg : string).

Inductive cli_error :=
| ReadFailed (path : string) | WriteFailed (path : string) | KeygenFailed
| BadKey (e : key_error) | BadHex | NewFailed (e : new_error)
| TunnelStopped (msg : string) | JoinFailed (msg : string).

(** [hex::decode]. *)
Class Hex := hex_decode : string → option bytes.

Section client.
Context `{Crypto, Yasna, CertGen, TlsLibs, Rcgen, Hex}.

(** ** The environment *)

Inductive fop :=
| FExists (path : string)
| FRead (path : string)                       (** [std::fs::read] *)
| FReadToString (path : string)
| FWrite (path : string) (contents : bytes)
| FGenerate (alg : RcgenSigAlg)               (** [KeyPair::generate_for] *)
| FSpawnRun (c : TunnelClient)                (** [tokio::spawn(c.run())] *)
| FSelect                                     (** [select!] of Ctrl-C and the tunnel *)
| FStop                                       (** [client.stop()] *)
| FJoinWithin (d : Z)                         (** [timeout(d, &mut tunnel).await.is_ok()] *)
| FAbort.

Definition fans (o : fop) : Type :=
  match o with
  | FExists _ => bool
  | FRead _ => option bytes
  | FReadToString _ => option string
  | FWrite _ _ => bool
  | FGenerate _ => option KeyPair
  | FSelect => unit + tunnel_end
  | FJoinWithin _ => bool
  | FSpawnRun _ | FStop | FAbort => unit
  end.

Definition os : iface :=
  Iface fop fans (λ o, match o with FSelect | FJoinWithin _ => true | _ => false end).

Notation "x '<-f' p ';;' q" :=
  (prog_bind (λ r, match r with Ok x => q | Err e => Ret (Err e) end) p)
  (at level 100, p at next level, q at level 200, right associativity) : tunnel_scope.

(** ** Files *)

Definition load_cert_pem (path : string) : prog os (result cli_error (option string)) :=
  there <-! call (I := os) (FExists path) ;;
  if (there : bool) then
    s <-! call (I := os) (FReadToString path) ;;
    Ret (Some <$> ok_or (ReadFailed path) s)
  else Ret (Ok None).

Definition load_or_generate_keypair (path : string) : prog os (result cli_error bytes) :=
  there <-! call (I := os) (FExists path) ;;
  if (there : bool) then
    b <-! call (I := os) (FRead path) ;;
    Ret (ok_or (ReadFailed path) b)
  else
    kp <-! call (I := os) (FGenerate PKCS_ECDSA_P256_SHA256) ;;
    match (kp : option KeyPair) with
    | None => Ret (Err KeygenFailed)
    | Some keypair =>
        let der := serialize_der keypair in
        ok <-! call (I := os) (FWrite path der) ;;
        Ret (if (ok : bool) then Ok der else Err (WriteFailed path))
    end.

(** The [on_cert_issued] callback: a failed write is only logged. *)
Definition on_cert_issued_write (path pem : string) : prog os unit :=
  _ <-! call (I := os) (FWrite path (as_bytes pem)) ;; Ret tt.

(** ** Configuration *)

(** [h.map(|h| hex::decode(&h)).transpose()?]. *)
Definition decode_extension (h : option string) : result cli_error (option bytes) :=
  match h with
  | Some h => Some <$> ok_or BadHex (hex_decode h)
  | None => Ok None
  end.

(** The part between the key files and the certificate file. *)
Definition identities (args : Args) (primary_der : bytes) (secondary_der : option bytes) :
    result cli_error (TunnelIdentityConfig * option TunnelIdentityConfig) :=
  primary_identity ← map_err BadKey (from_pkcs8_der primary_der);
  self_signed_identity ← match secondary_der with
                         | Some der => Some <$> map_err BadKey (from_pkcs8_der der)
                         | None => Ok None
                         end;
  primary_cert_extension ← decode_extension (primary_cert_extension_hex args);
  secondary_cert_extension ← decode_extension (secondary_cert_extension_hex args);
  Ok (MkIdentity (tunnel_key primary_identity) primary_cert_extension,
      (λ k, MkIdentity (tunnel_key k) secondary_cert_extension) <$> self_signed_identity).

Definition config_of (args : Args) (cert_pem : option string) (primary : TunnelIdentityConfig)
    (secondary : option TunnelIdentityConfig) : TunnelConfig :=
  MkConfig (server args) (local args) (secondary_local args) (arg_domain_suffix args)
    (arg_force_h2 args) (arg_pool_size args) (arg_acme_email args) (arg_acme_creds_path args)
    (arg_acme_staging args) cert_pem true true primary ReconnectPolicy.default
    H2KeepAlive.default secondary.

Definition build_config (args : Args) : prog os (result cli_error TunnelConfig) :=
  primary_der <-f load_or_generate_keypair (primary_key args) ;;
  secondary_der <-f match secondary_key args with
                    | Some path =>
                        der <-! load_or_generate_keypair path ;; Ret (Some <$> der)
                    | None => Ret (Ok None)
                    end ;;
  ids <-f Ret (identities args primary_der secondary_der) ;;
  cert_pem <-f load_cert_pem (arg_cert_pem args) ;;
  Ret (Ok (config_of args cert_pem ids.1 ids.2)).

(** ** [main] *)

Definition main (args : Args) : prog os (result cli_error unit) :=
  config <-f build_config args ;;
  client <-f Ret (map_err NewFailed (tunnel_client_new config)) ;;
  call (I := os) (FSpawnRun client) ;;!
  r <-! call (I := os) FSelect ;;
  match (r : unit + tunnel_end) with
  | inl _ =>
      call (I := os) FStop ;;!
      joined <-! call (I := os) (FJoinWithin SHUTDOWN_TIMEOUT) ;;
      if (joined : bool) then Ret (Ok tt)
      else call (I := os) FAbort ;;! Ret (Ok tt)
  | inr TunnelOk => Ret (Ok tt)
  | inr (TunnelErr e) => Ret (Err (TunnelStopped e))
  | inr (TunnelPanic e) => Ret (Err (JoinFailed e))
  end.
End client.

(** ** What the file system may do *)

Abbreviation files := (gmap string bytes).

Section fs.
Context `{Rcgen}.

(** Existence is answered correctly, a read may fail but does not lie, a failed write
    leaves only the file it was for in any state. *)
Definition fs_step (m : files) (e : event os) (m' : files) : Prop :=
  match e with
  | Event o x =>
      match o return fans o → Prop with
      | FExists p => λ b, b = bool_decide (is_Some (m !! p)) ∧ m' = m
      | FRead p => λ r, (∀ b, r = Some b → m !! p = Some b) ∧ m' = m
      | FReadToString p => λ r, (∀ s, r = Some s → m !! p = Some (as_bytes s)) ∧ m' = m
      | FWrite p b => λ ok,
          if ok : bool then m' = <[p := b]> m else ∀ q, q ≠ p → m' !! q = m !! q
      | _ => λ _, m' = m
      end x
  end.

Fixpoint fs_run (m : files) (tr : trace os) (m' : files) : Prop :=
  match tr with
  | [] => m' = m
  | e :: tr => ∃ m1, fs_step m e m1 ∧ fs_run m1 tr m'
  end.

Lemma fs_run_app m tr tr' m' :
  fs_run m (tr ++ tr') m' ↔ ∃ m1, fs_run m tr m1 ∧ fs_run m1 tr' m'.
Proof.
  revert m. induction tr as [|e tr IH]; intros m; cbn; [naive_solver|].
  setoid_rewrite IH. naive_solver.
Qed.

(** What holds of the result and of the files after a run from [m]. *)
Definition from_files {A} (m : files) (p : prog os A) (Q : A → files → Prop) : Prop :=
  ∀ tr a m', runs p tr a → fs_run m tr m' → Q a m'.

Lemma from_files_ret {A} m (a : A) (Q : A → files → Prop) : Q a m → from_files m (Ret a) Q.
Proof. intros Hq tr a' m' [-> <-] ->. done. Qed.

Lemma from_files_bind {A B} m (p : prog os A) (f : A → prog os B) R Q :
  from_files m p R → (∀ a m1, R a m1 → from_files m1 (f a) Q) → from_files m (prog_bind f p) Q.
Proof.
  intros Hp Hf tr b m' (tr1 & tr2 & a & -> & H1 & H2)%runs_bind (m1 & Hm1 & Hm2)%fs_run_app.
  by eapply Hf; [eapply Hp|..].
Qed.

Lemma from_files_call {B} m (o : fop) (f : fans o → prog os B) Q :
  (∀ x m1, fs_step m (Event (I := os) o x) m1 → from_files m1 (f x) Q) →
  from_files m (prog_bind f (call (I := os) o)) Q.
Proof.
  intros Hf tr b m' (x & tr' & -> & Hr) (m1 & Hs & Hm'). by eapply Hf.
Qed.
End fs.

Section files.
Context `{Crypto, Yasna, CertGen, TlsLibs, Rcgen, Hex}.

Definition cert_at (m : files) (path : string) (c : option string) : Prop :=
  m !! path = as_bytes <$> c.
Definition keys_at (args : Args) (m : files) (pd : bytes) (sd : option bytes) : Prop :=
  m !! primary_key args = Some pd ∧ (secondary_key args ≫= λ p, m !! p) = sd ∧
  (is_Some (secondary_key args) ↔ is_Some sd).

(** A key that is returned is on disk, and an existing file is left alone. *)
Lemma load_keypair_first m path :
  from_files m (load_or_generate_keypair path) (λ r m', ∀ der, r = Ok der →
    m' !! path = Some der ∧ ∀ q, q ≠ path ∨ is_Some (m !! path) → m' !! q = m !! q).
Proof.
  apply from_files_call. intros b m1 [-> ->]. case_bool_decide as Hex.
  - apply from_files_call. intros r m1 [Hr ->]. apply from_files_ret.
    destruct r as [b|]; [|done]. intros der [= <-]. eauto.
  - apply from_files_call. intros kp m1 ->. destruct kp as [kp|]; [|by apply from_files_ret].
    apply from_files_call. intros [|] m1 Hw; apply from_files_ret; [|done].
    intros der [= <-]. cbn in Hw. subst m1. split; [by rewrite lookup_insert_eq|].
    intros q [Hq|]; [|done]. by rewrite lookup_insert_ne.
Qed.

Lemma load_keypair_again m path der :
  m !! path = Some der →
  from_files m (load_or_generate_keypair path)
    (λ r m', m' = m ∧ (r = Ok der ∨ r = Err (ReadFailed path))).
Proof.
  intros Hp. apply from_files_call. intros b m1 [-> ->]. rewrite bool_decide_eq_true_2 by eauto.
  apply from_files_call. intros r m1 [Hr ->]. apply from_files_ret. split; [done|].
  destruct r as [b|]; [|by right]. left. specialize (Hr b eq_refl). by simplify_eq.
Qed.

Lemma load_cert_pem_at m path :
  from_files m (load_cert_pem path)
    (λ r m', m' = m ∧ match r with Ok c => cert_at m path c | Err e => e = ReadFailed path end).
Proof.
  apply from_files_call. intros b m1 [-> ->]. case_bool_decide as Hex.
  - apply from_files_call. intros r m1 [Hr ->]. apply from_files_ret. split; [done|].
    destruct r as [s|]; [|done]. by apply Hr.
  - apply from_files_ret. split; [done|]. by apply eq_None_not_Some.
Qed.

(** A start that gets its configuration leaves the keys it uses on disk. *)
Lemma build_config_first m args :
  from_files m (build_config args) (λ r m', ∀ cfg, r = Ok cfg → ∃ pd sd ids,
    keys_at args m' pd sd ∧ identities args pd sd = Ok ids ∧
    cert_at m' (arg_cert_pem args) (cert_pem cfg) ∧
    cfg = config_of args (cert_pem cfg) ids.1 ids.2).
Proof.
  eapply from_files_bind; [apply load_keypair_first|]. intros [pd|] m1 Hone; [|by apply from_files_ret].
  specialize (Hone pd eq_refl) as [Hpd _].
  eapply (from_files_bind m1 _ _ (λ r m2, ∀ sd, r = Ok sd → keys_at args m2 pd sd)).
  { unfold keys_at. destruct (secondary_key args) as [path|].
    - eapply from_files_bind; [apply load_keypair_first|]. intros [d|] m2 Htwo; apply from_files_ret; [|done].
      intros sd [= <-]. specialize (Htwo d eq_refl) as [Hd Hother]. split; [|done].
      rewrite Hother; [done|]. destruct (decide (primary_key args = path)) as [<-|]; eauto.
    - apply from_files_ret. intros sd [= <-]. split_and!; [done|done|]. by split; intros [? [=]]. }
  intros [sd|] m2 Hk; [|by apply from_files_ret]. specialize (Hk sd eq_refl).
  cbn [prog_bind]. destruct (identities args pd sd) as [ids|] eqn:Hi; [|by apply from_files_ret].
  eapply from_files_bind; [apply load_cert_pem_at|].
  intros [c|] m3 [-> Hc]; apply from_files_ret; [|done]. intros cfg [= <-]. eauto 10.
Qed.

(** With the keys on disk a start writes nothing and gets the same identities. *)
Lemma build_config_again m args pd sd ids :
  keys_at args m pd sd → identities args pd sd = Ok ids →
  from_files m (build_config args) (λ r m', m' = m ∧
    ((∃ path, r = Err (ReadFailed path)) ∨
     ∃ c, cert_at m (arg_cert_pem args) c ∧ r = Ok (config_of args c ids.1 ids.2))).
Proof.
  intros (Hpd & Hsd & Hs) Hi.
  eapply from_files_bind; [by apply load_keypair_again|].
  intros r m1 [-> [-> | ->]]; [|apply from_files_ret; eauto].
  eapply (from_files_bind m _ _ (λ r m2, m2 = m ∧ (r = Ok sd ∨ ∃ path, r = Err (ReadFailed path)))).
  { destruct (secondary_key args) as [path|]; cbn in Hsd.
    - destruct sd as [d|]; [|by destruct (proj1 Hs (ex_intro _ path eq_refl))].
      eapply from_files_bind; [by apply load_keypair_again|].
      intros r m2 [-> [-> | ->]]; apply from_files_ret; eauto.
    - apply from_files_ret. subst sd. eauto. }
  intros r m2 [-> [->|[path ->]]]; [|apply from_files_ret; eauto].
  cbn [prog_bind]. rewrite Hi. eapply from_files_bind; [apply load_cert_pem_at|].
  intros [c|e] m3 [-> Hc]; apply from_files_ret; (split; [done|]); [|subst e]; eauto.
Qed.
End files.

(** ** Restarts *)

(** The ACME account of a running tunnel: credentials that are created are saved, where
    there is no such file yet. *)
Definition save_credentials `{Rcgen} (path : string) (account : option string) : prog os unit :=
  match account with
  | None => Ret tt
  | Some json =>
      there <-! call (I := os) (FExists path) ;;
      if (there : bool) then Ret tt
      else _ <-! call (I := os) (FWrite path (as_bytes json)) ;; Ret tt
  end.

(** What a running tunnel does to the files: it may save its ACME credentials and an
    issued certificate. *)
Definition meanwhile `{Rcgen} (args : Args) (account issued : option string) : prog os unit :=
  save_credentials (arg_acme_creds_path args) account ;;!
  match issued with
  | Some pem => on_cert_issued_write (arg_cert_pem args) pem
  | None => Ret tt
  end.

(** Every write to [path] succeeded. *)
Definition written `{Rcgen} (path : string) (e : event os) : Prop :=
  match e with
  | Event o x =>
      match o return fans o → Prop with FWrite p _ => λ ok, p = path → ok = true | _ => λ _, True end x
  end.

Lemma save_credentials_files `{Rcgen} path account m :
  from_files m (save_credentials path account) (λ _ m',
    ∀ q, q ≠ path ∨ is_Some (m !! q) → m' !! q = m !! q).
Proof.
  destruct account as [json|]; [|by apply from_files_ret].
  apply from_files_call. intros b m1 [-> ->]. case_bool_decide as Hex; [by apply from_files_ret|].
  apply from_files_call. intros ok m1 Hw. apply from_files_ret. intros q [Hq|Hq].
  - destruct ok; cbn in Hw; [subst m1; by rewrite lookup_insert_ne|by apply Hw].
  - destruct (decide (q = path)) as [->|Hne]; [done|].
    destruct ok; cbn in Hw; [subst m1; by rewrite lookup_insert_ne|by apply Hw].
Qed.

Lemma meanwhile_files `{Rcgen} args account issued m tr m' :
  arg_cert_pem args ≠ arg_acme_creds_path args →
  runs (meanwhile args account issued) tr tt → fs_run m tr m' →
  (∀ q, q ≠ arg_cert_pem args → is_Some (m !! q) → m' !! q = m !! q) ∧
  (issued = None → m' !! arg_cert_pem args = m !! arg_cert_pem args) ∧
  (∀ pem, issued = Some pem → Forall (written (arg_cert_pem args)) tr →
     m' !! arg_cert_pem args = Some (as_bytes pem)).
Proof.
  intros Hne (tr1 & tr2 & [] & -> & Hr1 & Hr2)%runs_bind (m1 & Hm1 & Hm2)%fs_run_app.
  pose proof (save_credentials_files _ _ _ _ _ _ Hr1 Hm1) as Hs.
  destruct issued as [pem|]; cbn in Hr2.
  - destruct Hr2 as (ok & tr' & -> & -> & _). destruct Hm2 as (m2 & Hw & Hm2). cbn in Hm2. subst m2.
    split_and!; [intros q Hq Hx|done|].
    + rewrite <-(Hs q) by eauto. destruct ok; cbn in Hw; [subst m'; by rewrite lookup_insert_ne|by apply Hw].
    + intros p [= <-] [_ Hf]%Forall_app. apply Forall_inv in Hf. cbn in Hf. rewrite Hf in Hw by done.
      cbn in Hw. subst m'. apply lookup_insert_eq.
  - destruct Hr2 as [-> _]. cbn in Hm2. subst m'. split_and!; [by eauto| |done]. intros _. apply Hs. by left.
Qed.

Lemma keys_at_other args m m' pd sd :
  arg_cert_pem args ∉ primary_key args :: option_list (secondary_key args) →
  (∀ q, q ≠ arg_cert_pem args → is_Some (m !! q) → m' !! q = m !! q) →
  keys_at args m pd sd → keys_at args m' pd sd.
Proof.
  intros [Hp Hs]%not_elem_of_cons Hm (Hpd & Hsd & Hiff).
  split_and!; [by rewrite Hm; [|congruence|eexists]| |done].
  rewrite <-Hsd. destruct (secondary_key args) as [path|]; [|done]. cbn in *.
  assert (Hx : is_Some (m !! path)) by (rewrite Hsd; by apply Hiff). apply Hm; [|done].
  intros ->. apply Hs. by left.
Qed.

Lemma as_bytes_inj s s' : as_bytes s = as_bytes s' → s = s'.
Proof. intros Heq%(f_equal of_bytes). by rewrite !of_as_bytes in Heq. Qed.

Section restart.
Context `{Crypto, Yasna, CertGen, TlsLibs, Rcgen, Hex}.

Lemma same_client args c c' ids cl cl' :
  tunnel_client_new (config_of args c ids.1 ids.2) = Ok cl →
  tunnel_client_new (config_of args c' ids.1 ids.2) = Ok cl' →
  get_client_id cl' = get_client_id cl ∧ get_url cl' = get_url cl ∧
  secondary_client_id cl' = secondary_client_id cl ∧ secondary_url cl' = secondary_url cl.
Proof.
  intros (_ & _ & _ & _ & _ & _ & Hp & Hs)%new_Ok (_ & _ & _ & _ & _ & _ & Hp' & Hs')%new_Ok.
  unfold agent_key_of in *. cbn in *. rewrite Hp in Hp'. injection Hp' as Hpp.
  unfold get_client_id, get_url, secondary_client_id, secondary_url. rewrite Hpp.
  split_and!; [done|done|..]; destruct (ids.2) as [sec|]; try by rewrite Hs, Hs'.
  all: destruct Hs as (_ & sc & -> & Hb), Hs' as (_ & sc' & -> & Hb'); cbn; congruence.
Qed.
End restart.

(** C31: the client's identity and its issued certificate survive restarts. If a start
    obtained its configuration, then whatever the file system did (any read may have
    failed, a write of the certificate or of the ACME credentials half-way), the next start with the same
    arguments writes no file and either fails to read one or obtains a configuration with
    the same keys and certificate extensions, hence the same client ids and URLs; the
    configuration is the very same when no certificate was issued meanwhile, and carries
    the issued certificate when one was saved. (The certificate file must not be one of
    the key files or the credentials file.) *)
Theorem identity_survives_restart `{Crypto, Yasna, CertGen, TlsLibs, Rcgen, Hex}
    args account issued m0 tr cfg m1 tw mw tr' r m2 :
  arg_cert_pem args ∉ primary_key args :: option_list (secondary_key args) →
  arg_cert_pem args ≠ arg_acme_creds_path args →
  runs (build_config args) tr (Ok cfg) → fs_run m0 tr m1 →
  runs (meanwhile args account issued) tw tt → fs_run m1 tw mw →
  runs (build_config args) tr' r → fs_run mw tr' m2 →
  m2 = mw ∧
  ((∃ path, r = Err (ReadFailed path)) ∨
   ∃ cfg', r = Ok cfg' ∧
     primary_identity cfg' = primary_identity cfg ∧
     self_signed_identity cfg' = self_signed_identity cfg ∧
     (issued = None → cfg' = cfg) ∧
     (∀ pem, issued = Some pem → Forall (written (arg_cert_pem args)) tw → cert_pem cfg' = Some pem) ∧
     ∀ cl cl', tunnel_client_new cfg = Ok cl → tunnel_client_new cfg' = Ok cl' →
       get_client_id cl' = get_client_id cl ∧ get_url cl' = get_url cl ∧
       secondary_client_id cl' = secondary_client_id cl ∧ secondary_url cl' = secondary_url cl).
Proof.
  intros Hpaths Hcreds Hr Hm Hw Hmw Hr' Hm'.
  destruct (build_config_first m0 args _ _ _ Hr Hm cfg eq_refl) as (pd & sd & ids & Hk & Hi & Hc & ->).
  destruct (meanwhile_files _ _ _ _ _ _ Hcreds Hw Hmw) as (Hsame & Hnone & Hsome).
  destruct (build_config_again mw args pd sd ids (keys_at_other _ _ _ _ _ Hpaths Hsame Hk) Hi
              _ _ _ Hr' Hm') as [-> Hres].
  split; [done|]. destruct Hres as [Herr|(c & Hc' & ->)]; [by left|right].
  eexists. split; [done|]. split_and!; [done|done| | |].
  - intros ->. cbn. f_equal.
    unfold cert_at in Hc, Hc'. rewrite (Hnone eq_refl), Hc in Hc'. cbn in Hc'.
    destruct (cert_pem cfg), c; simplify_eq/=; f_equal; by apply as_bytes_inj.
  - intros pem -> Hok. unfold cert_at in Hc'. rewrite (Hsome pem eq_refl Hok) in Hc'. cbn.
    destruct c; simplify_eq/=. f_equal. symmetry. by apply as_bytes_inj.
  - intros cl cl'. apply same_client.
Qed.

(** Start-up fails with errors of its own. *)
Definition startup_error {A} (r : result cli_error A) : Prop :=
  match r with Err (TunnelStopped _) | Err (JoinFailed _) => False | _ => True end.

Lemma build_config_errors `{Crypto, Yasna, CertGen, TlsLibs, Rcgen, Hex} args :
  wp (build_config args) (λ _ r, startup_error r).
Proof.
  assert (Hkey : ∀ path, wp (load_or_generate_keypair path) (λ _ r, startup_error r)).
  { intros path [|]; cbn; [by intros [b|]|]. intros [kp|]; cbn; [by intros [|]|done]. }
  assert (Hids : ∀ pd sd, startup_error (identities args pd sd)).
  { intros pd sd. unfold identities, decode_extension, map_err, ok_or, mbind, result_bind, fmap, result_fmap.
    by repeat case_match; simplify_eq. }
  unfold build_config. rewrite wp_bind. eapply wp_mono; [|apply Hkey].
  intros _ [pd|e] He; [|exact He]. rewrite wp_bind.
  apply (wp_mono _ (λ _ r, startup_error r)).
  - intros _ [sd|e] Hs; [|exact Hs]. cbn. specialize (Hids pd sd).
    destruct (identities args pd sd) as [ids|e]; [|exact Hids].
    cbn. intros [|]; cbn; [by intros [b|]|done].
  - destruct (secondary_key args) as [path|]; [|done]. rewrite wp_bind.
    eapply wp_mono; [|apply Hkey]. by intros _ [d|e].
Qed.

(** How [main] ends once the tunnel runs: Ctrl-C always stops the tunnel, waits for it at
    most [SHUTDOWN_TIMEOUT] and exits cleanly; otherwise the process ends as the tunnel
    did. *)
Lemma main_exits `{Crypto, Yasna, CertGen, TlsLibs, Rcgen, Hex} args :
  wp (main args) (λ tr r, match r with
    | Ok _ => (∃ pre, tr = pre ++ [Event (I := os) FSelect (inr TunnelOk)]) ∨
              ∃ pre joined, tr = pre ++ [Event (I := os) FSelect (inl tt); Event (I := os) FStop tt;
                Event (I := os) (FJoinWithin (from_secs 5)) joined] ++
                (if joined : bool then [] else [Event (I := os) FAbort tt])
    | Err (TunnelStopped msg) => ∃ pre, tr = pre ++ [Event (I := os) FSelect (inr (TunnelErr msg))]
    | Err (JoinFailed msg) => ∃ pre, tr = pre ++ [Event (I := os) FSelect (inr (TunnelPanic msg))]
    | Err _ => True
    end).
Proof.
  unfold main. rewrite wp_bind. eapply wp_mono; [|apply build_config_errors].
  intros tr [cfg|e] He; [|by destruct e].
  cbn [prog_bind]. destruct (tunnel_client_new cfg) as [c|e]; [|done]. cbn.
  pose (pre := tr ++ [Event (I := os) (FSpawnRun c) tt]).
  assert (Hpre : ∀ l, tr ++ Event (I := os) (FSpawnRun c) tt :: l = pre ++ l).
  { intros l. unfold pre. by rewrite <-app_assoc. }
  intros [] [[]|[|msg|msg]]; cbn.
  - intros [] [|]; cbn; [|intros []]; right; exists pre; [exists true|exists false]; apply Hpre.
  - left. exists pre. apply Hpre.
  - exists pre. apply Hpre.
  - exists pre. apply Hpre.
Qed.

(** ** Witness *)

Module ToyCli.
Import ToyKey ToyTls ToyCrypto.

#[export] Instance hex : Hex := λ s, Some (as_bytes s).

(** A file system that never fails; a generated key has 33 public bytes. *)
Definition env (o : fop) (m : files) : fans o * files :=
  match o return fans o * files with
  | FExists p => (bool_decide (is_Some (m !! p)), m)
  | FRead p => (m !! p, m)
  | FReadToString p => (of_bytes <$> m !! p, m)
  | FWrite p b => (true, <[p := b]> m)
  | FGenerate alg => (Some (alg, x02 :: replicate 32 x07), m)
  | FSelect => (inl tt, m)
  | FJoinWithin _ => (true, m)
  | FSpawnRun _ | FStop | FAbort => (tt, m)
  end.

Lemma env_fs {A} (p : prog os A) m a tr m' : exec (I := os) env p m = (a, tr, m') → fs_run m tr m'.
Proof.
  revert m tr. induction p as [b|o k IH]; intros m tr; cbn; [by intros [= <- <- <-]|].
  destruct (env o m) as [x m1] eqn:E. destruct (exec (I := os) env (k x) m1) as [[b tr1] m2] eqn:E1.
  intros [= <- <- <-]. exists m1. split; [|by eapply IH].
  destruct o; cbn in E |- *; simplify_eq/=; try done.
  split; [|done]. intros s Hs. destruct (m1 !! path) as [b'|]; [|done]. simplify_eq/=.
  by rewrite as_of_bytes.
Qed.

Definition args : Args := default_args ["relay.example.com:4433"].
Definition start (m : files) := exec (I := os) env (build_config args) m.
Definition issue (m : files) := exec (I := os) env (meanwhile args (Some "creds") (Some "PEM")) m.

Lemma start_runs m : runs (build_config args) (start m).1.2 (start m).1.1 ∧ fs_run m (start m).1.2 (start m).2.
Proof.
  destruct (start m) as [[r tr] m'] eqn:E. split; [by eapply exec_runs|by eapply env_fs].
Qed.
Lemma issue_runs m : runs (meanwhile args (Some "creds") (Some "PEM")) (issue m).1.2 tt ∧ fs_run m (issue m).1.2 (issue m).2.
Proof.
  destruct (issue m) as [[[] tr] m'] eqn:E. split; [by eapply exec_runs|by eapply env_fs].
Qed.
End ToyCli.

Section witnesses.
Import ToyKey ToyTls ToyCrypto ToyCli.

(** A first start on an empty disk, a certificate issued, a second start: it keeps the
    key the first one generated, finds the certificate and writes nothing. *)
Lemma identity_survives_restart_witness :
  ∃ cfg cfg', (start ∅).1.1 = Ok cfg ∧ (start (issue (start ∅).2).2).1.1 = Ok cfg' ∧
    cert_pem cfg = None ∧ cert_pem cfg' = Some "PEM" ∧ is_Some ((start ∅).2 !! "client.key") ∧
    (start (issue (start ∅).2).2).2 = (issue (start ∅).2).2.
Proof.
  eexists _, _. split; [vm_compute; reflexivity|]. split; [vm_compute; reflexivity|].
  split; [reflexivity|]. split; [reflexivity|]. split; [by eexists; vm_compute|].
  destruct (start_runs ∅) as [Hr Hm], (issue_runs (start ∅).2) as [Hw Hmw].
  destruct (start_runs (issue (start ∅).2).2) as [Hr' Hm'].
  refine (proj1 (identity_survives_restart args (Some "creds") (Some "PEM") ∅ _ _ _ _ _ _ _ _ _ _
                  Hr Hm Hw Hmw Hr' Hm')); [|discriminate].
  apply (bool_decide_unpack _). vm_compute. exact I.
Defined.
End witnesses.
